(* ===== verification/_CoqProject ===== *)
-Q . S2P
Prelude.v
Float.v
Text.v
Config.v
Logger.v
RESP.v
Util.v
CMap.v
Heap.v
TTL.v
Locks.v
LockOrder.v
ListStruct.v
ListPos.v
ListOps.v
SetStruct.v
HashStruct.v
ZSetStruct.v
ZSetSpec.v
ZSetRefine.v
Store.v
World.v
Model.v
Strings.v
Keys.v
ListCmds.v
SetCmds.v
HashCmds.v
ZSetCmds.v
Info.v
Refine.v
Safety.v
Commands.v
ZSetClaims.v
Background.v
Server.v
Cluster.v
Join.v
Report.v
Proxy.v
NodeStart.v
Reads.v
LockAudit.v
Races.v
Nodes.v
Accept.v
Serve.v
Relay.v
Watch.v
Cmdline.v
