(* ===== verification/Prelude.v ===== *)
(** * A verification library for tinyredis

    tinyredis is a Redis-compatible server in Go.  A connection handler reads RESP
    values, turns arrays into commands and executes them on a node; a node is
    either the local database or a member of a Raft cluster that replicates write
    commands first; a proxy leads clients to the leader of a cluster.  The database is a sharded concurrent map from keys to values,
    a manager of expiry times and a table of key locks; values are byte slices and
    pointers to list, set, hash and sorted set objects.

    This library models these parts as executable Rocq definitions that follow the
    source statement by statement, and proves what they promise.

    ** How the code is modelled

    - Pure functions are functions.  Code with effects is a program of the state
      monad [M] over an [outcome]: [Ret], [Panics] (a Go panic, which deferred
      functions and [recover] see), [Fatals] (an error that ends the process:
      unlocking a free mutex, or a panic of a goroutine that nobody recovers) and
      [Blocks] (a goroutine that never goes on: it waits for a lock it holds itself
      or loops forever).
    - Integers are [Z] with the wrap-around of 64 bits written out ([int64]),
      floating-point numbers the binary64 of [SpecFloat] ([Float.v]), strings lists
      of bytes, a byte slice an optional one (nil is [None]).
    - Objects reached through pointers (list nodes, skip-list nodes, expiry items,
      the objects values point to) live in stores indexed by locations, so that
      sharing and mutation are those of the code.
    - Loops that are not structural take fuel: the number of nodes of a list, the
      length of the input.  Lemmas show that it is enough ([parse_is_Some],
      [walk_fuel_ok]; [join_ends] for finitely many hints, while [join_never_ends] shows
      that no bound is enough in general), or that running out is [Blocks] and does not
      happen on well-formed data ([List_refines], [ZSet_never_fails]).
    - What the program takes from outside is the class [Host] below: murmur3, the
      Unicode tables, the decimal conversion of floating-point numbers, and the
      clock, the map order and the random numbers, which answer differently at
      every call.  The red-black tree package is the class [RBTree] with its laws
      ([CMap.v]), Raft the class [Raft] with its laws ([Cluster.v]); HTTP, URLs, the
      flags of cobra, files and the network are parameters of [Join.v], [Config.v],
      [Logger.v], [NodeStart.v], [Proxy.v], [Serve.v] and [Cmdline.v].  Each has a
      concrete instance, used by examples.
    - The life of a server or a proxy, with its goroutines, is a step relation
      ([Accept.v]): steps of the program and of its surroundings in any order, over an
      interface for the goroutine of a connection ([Worker], [WorkerLaws]).

    ** The files

    - [Prelude.v]: bytes, integers, decimal conversion, [Host], the monad, shared
      lemmas and tactics.  [Float.v]: binary64.  [Text.v]: package [strings].
    - [Config.v]: [src/pkg/config] and [runNode].  [Logger.v]: [src/pkg/logger].
    - [RESP.v]: [src/pkg/RESP].  [Util.v]: [src/pkg/util].
    - [CMap.v]: [concurrentmap.go].  [Heap.v], [TTL.v]: [db.go], lines 16-267, on
      Go's [container/heap].  [Locks.v], [LockOrder.v]: [dblock.go], alone and with
      interleaved goroutines.
    - [ListStruct.v], [ListPos.v], [ListOps.v]: [list_struct.go] and the search of
      LPOS.  [SetStruct.v], [HashStruct.v]: [set_struct.go], [hash_struct.go].
      [ZSetStruct.v], [ZSetSpec.v], [ZSetRefine.v]: [zset_struct.go].
    - [Store.v]: the interface [Store] between command handlers and the database,
      the methods of [MemDb] and the dispatch ([db.go], lines 269-376, [command.go]).
      [World.v] implements it with the data structures above, [Model.v] with finite
      maps and sequences; a simulation relates the two.
    - [Strings.v], [Keys.v], [ListCmds.v], [SetCmds.v], [HashCmds.v], [ZSetCmds.v],
      [Info.v]: the handlers of [string.go], [keys.go], [list.go], [set.go],
      [hash.go], [zset.go] and [info.go], written once against [Store].
    - [Refine.v]: the command table ([src/cmd/init.go]) and sequences of commands.
      [Safety.v]: what every command keeps.  [LockAudit.v], [Races.v]: which locks
      cover what a command touches.  [Commands.v], [ZSetClaims.v]: what
      single commands do.  [Background.v]: KEYS and the clean-up goroutine.
    - [Server.v]: [src/pkg/server].  [Cluster.v], [Join.v], [Report.v], [NodeStart.v]:
      [src/pkg/cluster] (replication, joining, the text of INFO, starting and
      stopping).  [Proxy.v]: [src/pkg/proxy] and [src/cmd/proxy_cmd.go].
      [Reads.v]: what [IsWriteCommand] ([src/pkg/server/write.go]) is worth.
    - [Nodes.v]: the nodes of [concurrentmap.go]'s lists as pointers, and their pool.
    - [Accept.v]: accept loops, wait groups and cancellation, shared by [Serve.v]
      ([Start] of [server.go], the connections of [handler.go] under a context, session
      numbers) and [Relay.v] ([Run] of [proxy.go] and its clients).  [Watch.v]: the
      goroutines with timers ([leaderWatchLoop] of [node.go], [cleanupLoop] of
      [db.go]).  [Cmdline.v]: [src/cmd], from the flags to a serving node.

    ** What is proved

    - Refinement: the sharded map behaves as a finite map ([ConcurrentMap_refines]),
      the expiry heaps as a map of times ([TTLManager_refines]), the linked list as
      a sequence ([List_refines]), the skip list as a sorted sequence of entries
      ([ZSet_refines]), and that lists recycle nodes through one pool cannot be noticed
      ([Pool_transparent]); every sequence of commands on the program's data structures
      answers as on the reference store ([MemDb_refines]), and so does a whole
      connection, from the bytes received to the bytes sent ([Server_session]).
    - Safety: commands release their locks on every path, never fail fatally and
      panic only where listed ([ExecCommand_safe], [Server_panic]); goroutines that
      lock several keys never deadlock ([LockMulti_deadlock_free]), the double check of
      [SetIfNotExist] lets one of them win ([SetIfNotExist_one_winner]), and but for three
      commands a handler touches a
      value only under the lock of its key ([Lock_discipline]); no sorted set operation fails ([ZSet_never_fails]);
      replaying a replicated log never panics ([fsm_never_panics]); but for twelve
      commands, a command with an ASCII name that is not replicated only reads
      ([Unreplicated_commands_read]).
    - Cluster and proxy: committed commands are executed once, in the order of the log, on
      every replica, and answered ([Cluster_replicates]); a node creates or joins a cluster
      only when it may ([NewNode_safe], [NewNode_starts]) and gets in when it is given the
      address of a node that takes it ([join_gets_in]); the proxy, talking to nodes that
      run the handler, INFO and the report of this program, finds the leader and connects
      clients only to what a probe of the same round found
      ([Proxy_finds_leader], [handleClient_safe]).
    - Start and shutdown: flags reach the configuration ([Flags_reach_config]); how a server
      begins to serve, and the four ways in which it does not ([Start_boot_spec]); it counts
      its connections, stops its node after
      them and has ended all of them when it returns ([Start_graceful]); after a signal
      it and the proxy end in every schedule, within a bound, unless a command hangs
      ([Start_shuts_down], [Run_shuts_down]).
    - Timers: beside any commands the clean-up deletes what has expired and leaves alone
      what has not ([cleanupLoop_spec], [cleanup_uninterrupted]); the file of the leader
      follows the leader but for writes that fail half-way ([leaderWatchLoop_follows]).
    - Configuration and logging: a configuration stays well formed whatever file is
      read ([Parse_valid]), join addresses have a normal form
      ([ParseJoinAddrs_normal]), sampling writes exactly the records it should
      ([Sampling_exact]), no log file leaks, and what derived loggers write reaches its
      file until the log is set up anew ([Logger_files]).
    - Behaviour of commands: SET, EXPIRE, SETEX, SETRANGE, MSET, INCRBY, RENAME,
      LPUSH and RPUSH, ZADD, KEYS and LPOS, on every branch of their options.
    - Round trips and termination: RESP values and log entries are read back as
      written; the parser ends on every input that ends in end of file, and after any other
      read error repeats it for ever ([ParseStream_ends]); joining a cluster ends, asks no
      node twice and misses none, if the nodes hint at finitely many ([join_ends]).
    - Defects of the code, as theorems with concrete runs: lost and unreplicated
      writes, wrong ranks after a removal, leaked locks, unlocked destinations, a race of the clean-up.

    ** What is left out

    - The order of KEYS depends on the shards, which the reference store does not
      have, so the reference store leaves it open ([Blocks]) and the theorems that compare
      with it say nothing of runs with KEYS: it is treated on the data structures alone
      ([KEYS_spec] in [Background.v]).
    - The parsing of arguments, the scripts for shell completion and the layout of log
      lines belong to cobra and slog; the bytes the proxy copies, to the network.  A
      signal after [Start] has left its loop ends the process, and so does a panic of
      the parser goroutine: the step relation does not go on from there.
    - Getters of [Node] that hand out what Raft or the configuration say ([LeaderID],
      [ID], [RaftState], [Barrier], [HTTPAddr]), and code that is commented out.
    - Log output inside the other components: it changes no state they read.
    - Handlers are sequential programs: interleavings are treated where they matter,
      on the lock table ([LockOrder.v], used as [Races.v] shows), for [SetIfNotExist] ([CMap.v]), for the
      clean-up goroutine ([Watch.v], [Background.v]) and for the connections of a server and the
      clients of a proxy ([Accept.v]). *)

From Stdlib Require Import Ascii String ZArith Lia.
From Stdlib Require Import SpecFloat.
From stdpp Require Import prelude gmap strings list sorting.

Declare Scope go_scope.
Delimit Scope go_scope with go.
Open Scope go_scope.
Open Scope Z_scope.

Create HintDb go.
Create Rewrite HintDb zlen.

(** ** Bytes, strings and slices

    A Go [string] is a finite byte sequence: [bytes].  A [[]byte] additionally
    distinguishes the nil slice from the empty one, which the RESP encoder
    observes ([BulkData.ToBytes] prints [$-1] for nil): [slice]. *)
Abbreviation bytes := (list ascii).
Abbreviation slice := (option (list ascii)).

Definition lit (s : string) : bytes := list_ascii_of_string s.

(** [string(x)] for a byte slice [x]. *)
Definition str (s : slice) : bytes := default [] s.

Definition zlen {A} (l : list A) : Z := Z.of_nat (length l).

(** [len(x)] of a byte slice. *)
Definition slen (s : slice) : Z := zlen (str s).

(** [append(a, b...)] on byte slices: nil only when [a] is nil and [b] is empty. *)
Definition sappend (a b : slice) : slice :=
  match a, str b with
  | None, [] => None
  | _, bs => Some (str a ++ bs)
  end.

(** The numeric value of a byte, and Go's [<] on strings (bytewise). *)
Definition code (c : ascii) : Z := Z.of_N (N_of_ascii c).

Definition CR : ascii := "013"%char.
Definition LF : ascii := "010"%char.

(** ** Machine integers

    [int] and [int64] are 64-bit on the supported platforms, [int32] is the
    counter of the concurrent map. *)
Definition wrap (w : Z) (n : Z) : Z :=
  (n + 2 ^ (w - 1)) mod 2 ^ w - 2 ^ (w - 1).
Definition int64 (n : Z) : Z := wrap 64 n.
Definition int32 (n : Z) : Z := wrap 32 n.
Definition MaxInt64 : Z := 2 ^ 63 - 1.
Definition MinInt64 : Z := - 2 ^ 63.
Definition MaxUint64 : Z := 2 ^ 64 - 1.
Definition in_int64 (n : Z) : Prop := MinInt64 <= n <= MaxInt64.
(** A [time.Duration] counts nanoseconds. *)
Definition Second : Z := 1000000000.
Definition Millisecond : Z := 1000000.

Lemma wrap_id w n : 0 < w → - 2 ^ (w - 1) <= n < 2 ^ (w - 1) → wrap w n = n.
Proof.
  intros Hw Hn. unfold wrap.
  assert (2 ^ w = 2 * 2 ^ (w - 1)) as E.
  { rewrite <- Z.pow_succ_r by lia. f_equal. lia. }
  rewrite Z.mod_small by lia. lia.
Qed.

Lemma wrap_range w n : 0 < w → - 2 ^ (w - 1) <= wrap w n < 2 ^ (w - 1).
Proof.
  intros Hw. unfold wrap.
  assert (2 ^ w = 2 * 2 ^ (w - 1)) as E.
  { rewrite <- Z.pow_succ_r by lia. f_equal. lia. }
  assert (0 < 2 ^ (w - 1)) by (apply Z.pow_pos_nonneg; lia).
  pose proof (Z.mod_pos_bound (n + 2 ^ (w - 1)) (2 ^ w)). lia.
Qed.

Lemma int64_id n : in_int64 n → int64 n = n.
Proof.
  intros H. apply wrap_id; [lia|].
  change (2 ^ (64 - 1)) with (2 ^ 63).
  unfold in_int64, MinInt64, MaxInt64 in H. lia.
Qed.

Lemma int64_in n : in_int64 (int64 n).
Proof.
  pose proof (wrap_range 64 n). change (2 ^ (64 - 1)) with (2 ^ 63) in *.
  unfold in_int64, MinInt64, MaxInt64, int64. lia.
Qed.

Lemma int32_id n : - 2 ^ 31 <= n < 2 ^ 31 → int32 n = n.
Proof. intros H. by apply wrap_id. Qed.

Lemma wrap_add w a b : 0 < w → wrap w (wrap w a + b) = wrap w (a + b).
Proof.
  intros Hw. unfold wrap.
  replace ((a + 2 ^ (w - 1)) mod 2 ^ w - 2 ^ (w - 1) + b + 2 ^ (w - 1))
    with ((a + 2 ^ (w - 1)) mod 2 ^ w + b) by lia.
  rewrite Zplus_mod_idemp_l. do 2 f_equal. lia.
Qed.

#[export] Hint Resolve int64_in : go.

(** ** Decimal conversion: [strconv.Itoa], [FormatInt], [ParseInt], [Atoi] *)
Definition digit (d : Z) : ascii := ascii_of_N (Z.to_N (48 + d)).

Definition is_digit (c : ascii) : bool :=
  (48 <=? code c) && (code c <=? 57).

(** The decimal digits of [n >= 0] pushed in front of [acc]. *)
Fixpoint format_digits (fuel : nat) (n : Z) (acc : bytes) : bytes :=
  match fuel with
  | O => acc
  | S fuel =>
      let acc := digit (n mod 10) :: acc in
      if n <? 10 then acc else format_digits fuel (n / 10) acc
  end.

Definition format_uint (n : Z) : bytes :=
  format_digits (S (Z.to_nat (Z.log2 n))) n [].

(** [strconv.FormatInt(n, 10)] and [strconv.Itoa(n)]. *)
Definition FormatInt (n : Z) : bytes :=
  if n <? 0 then "-"%char :: format_uint (- n) else format_uint n.

Inductive numerror := ErrSyntax | ErrRange.

(** The digit loop of [strconv.ParseUint(s, 10, 64)]: the first byte that is
    not a digit is a syntax error, the first overflow of 64 bits a range error. *)
Fixpoint parse_digits (s : bytes) (n : Z) : Z + numerror :=
  match s with
  | [] => inl n
  | c :: s =>
      if is_digit c then
        let n' := n * 10 + (code c - 48) in
        if MaxUint64 <? n' then inr ErrRange else parse_digits s n'
      else inr ErrSyntax
  end.

Definition ParseUint (s : bytes) : Z + numerror :=
  match s with [] => inr ErrSyntax | _ => parse_digits s 0 end.

(** [strconv.ParseInt(s, 10, 64)]; [strconv.Atoi] agrees with it on 64 bits. *)
Definition ParseInt (s : bytes) : Z + numerror :=
  let '(neg, body) :=
    match s with
    | "-"%char :: s => (true, s)
    | "+"%char :: s => (false, s)
    | _ => (false, s)
    end in
  match ParseUint body with
  | inr e => inr e
  | inl un =>
      if neg then if 2 ^ 63 <? un then inr ErrRange else inl (- un)
      else if 2 ^ 63 <=? un then inr ErrRange else inl un
  end.

Definition Atoi (s : bytes) : Z + numerror := ParseInt s.

Lemma code_digit d : 0 <= d <= 9 → code (digit d) = 48 + d.
Proof.
  intros H. unfold code, digit. rewrite N_ascii_embedding by lia. lia.
Qed.

Lemma is_digit_digit d : 0 <= d <= 9 → is_digit (digit d) = true.
Proof. intros H. unfold is_digit. rewrite code_digit by lia. lia. Qed.

Lemma parse_format_digits fuel n acc :
  0 <= n <= MaxUint64 → n < 2 ^ Z.of_nat fuel →
  parse_digits (format_digits fuel n acc) 0 = parse_digits acc n.
Proof.
  revert n acc. induction fuel as [|fuel IH]; intros n acc Hn Hf.
  { replace n with 0 by (simpl in Hf; lia). done. }
  rewrite Nat2Z.inj_succ, Z.pow_succ_r in Hf by lia. cbn [format_digits].
  assert (0 <= n mod 10 <= 9) by (pose proof (Z.mod_pos_bound n 10); lia).
  destruct (Z.ltb_spec n 10) as [Hlt|Hge].
  - cbn [parse_digits]. rewrite is_digit_digit, code_digit by done.
    rewrite Z.mod_small by lia.
    replace (0 * 10 + (48 + n - 48)) with n by lia.
    by destruct (Z.ltb_spec MaxUint64 n); [lia|].
  - rewrite IH.
    + cbn [parse_digits]. rewrite is_digit_digit, code_digit by done.
      replace (n / 10 * 10 + (48 + n mod 10 - 48)) with n
        by (pose proof (Z.div_mod n 10); lia).
      by destruct (Z.ltb_spec MaxUint64 n); [lia|].
    + pose proof (Z.div_pos n 10). pose proof (Z.div_le_upper_bound n 10 n). lia.
    + apply Z.div_lt_upper_bound; lia.
Qed.

Lemma format_digits_digits fuel n acc :
  0 <= n → Forall (λ c, is_digit c = true) acc →
  Forall (λ c, is_digit c = true) (format_digits fuel n acc).
Proof.
  revert n acc. induction fuel as [|fuel IH]; intros n acc Hn Ha; [done|].
  cbn [format_digits]. assert (0 <= n mod 10 <= 9) by (pose proof (Z.mod_pos_bound n 10); lia).
  assert (Forall (λ c, is_digit c = true) (digit (n mod 10) :: acc))
    by (constructor; [by apply is_digit_digit|done]).
  destruct (n <? 10); [done|]. apply IH; [apply Z.div_pos; lia|done].
Qed.

Lemma format_digits_nonempty fuel n acc : format_digits (S fuel) n acc ≠ [].
Proof.
  revert n acc. induction fuel as [|fuel IH]; intros n acc.
  { cbn. by destruct (n <? 10). }
  change (format_digits (S (S fuel)) n acc) with
    (if n <? 10 then digit (n mod 10) :: acc
     else format_digits (S fuel) (n / 10) (digit (n mod 10) :: acc)).
  destruct (n <? 10); [done|apply IH].
Qed.

Lemma format_uint_digits n : 0 <= n → Forall (λ c, is_digit c = true) (format_uint n).
Proof. intros H. by apply format_digits_digits. Qed.

Lemma format_uint_cons n :
  0 <= n → ∃ c s, format_uint n = c :: s ∧ is_digit c = true.
Proof.
  intros H. pose proof (format_uint_digits n H) as Hd.
  destruct (format_uint n) as [|c s] eqn:E.
  - by destruct (format_digits_nonempty (Z.to_nat (Z.log2 n)) n []).
  - apply Forall_cons in Hd as [Hc _]. eauto.
Qed.

Lemma log2_fuel n : 0 <= n → n < 2 ^ Z.of_nat (S (Z.to_nat (Z.log2 n))).
Proof.
  intros H. rewrite Nat2Z.inj_succ, Z2Nat.id by apply Z.log2_nonneg.
  destruct (Z.eq_dec n 0) as [->|]; [done|]. apply Z.log2_spec. lia.
Qed.

Lemma ParseUint_format n : 0 <= n <= MaxUint64 → ParseUint (format_uint n) = inl n.
Proof.
  intros H. unfold ParseUint.
  destruct (format_uint_cons n) as (c & s & E & _); [lia|]. rewrite E, <- E.
  unfold format_uint. rewrite parse_format_digits; [done|done|]. apply log2_fuel; lia.
Qed.

(** Printing a 64-bit integer in base ten and reading it back is the identity. *)
Lemma ParseInt_FormatInt n : in_int64 n → ParseInt (FormatInt n) = inl n.
Proof.
  unfold in_int64, MinInt64, MaxInt64. intros H. unfold FormatInt.
  destruct (Z.ltb_spec n 0).
  - unfold ParseInt. rewrite ParseUint_format by (unfold MaxUint64; lia).
    destruct (Z.ltb_spec (2 ^ 63) (- n)); [lia|]. f_equal; lia.
  - destruct (format_uint_cons n) as (c & s & E & Hc); [lia|].
    unfold ParseInt.
    assert (match format_uint n with
            | "-"%char :: s => (true, s) | "+"%char :: s => (false, s)
            | _ => (false, format_uint n) end = (false, format_uint n)) as ->.
    { rewrite E. destruct c as [[] [] [] [] [] [] [] []]; try done; by vm_compute in Hc. }
    rewrite ParseUint_format by (unfold MaxUint64; lia).
    by destruct (Z.leb_spec (2 ^ 63) n); [lia|].
Qed.

Lemma is_digit_not_ctl c : is_digit c = true → c ≠ LF ∧ c ≠ CR.
Proof. intros H. split; intros ->; by vm_compute in H. Qed.

Lemma FormatInt_absent c n : is_digit c = false → c ≠ "-"%char → c ∉ FormatInt n.
Proof.
  intros Hc Hm. assert (∀ m, 0 <= m → c ∉ format_uint m) as Hu.
  { intros m Hm' Hin. pose proof (format_uint_digits m Hm') as Hd.
    rewrite Forall_forall in Hd. specialize (Hd _ Hin). congruence. }
  unfold FormatInt. destruct (Z.ltb_spec n 0); [|apply Hu; lia].
  rewrite elem_of_cons. intros [?|?]; [done|]. by apply (Hu (- n)); [lia|].
Qed.
Lemma FormatInt_no_LF n : LF ∉ FormatInt n.
Proof. by apply FormatInt_absent. Qed.

Lemma ParseInt_in s n : ParseInt s = inl n → in_int64 n.
Proof.
  assert (∀ s k m, 0 <= k → parse_digits s k = inl m → 0 <= m) as Hp.
  { intros s'; induction s' as [|c s' IH]; simpl; intros k m Hk; [intros [= <-]; lia|].
    destruct (is_digit c) eqn:Hd; [|done].
    unfold is_digit in Hd. destruct (MaxUint64 <? _); [done|]. apply IH. lia. }
  assert (∀ s m, ParseUint s = inl m → 0 <= m) as Hu.
  { intros [|c s'] m; [done|]. apply Hp; lia. }
  unfold ParseInt, in_int64, MinInt64, MaxInt64.
  destruct (match s with "-"%char :: _ => _ | _ => _ end) as [neg body].
  destruct (ParseUint body) as [un|] eqn:E; [|done]. apply Hu in E.
  destruct neg.
  - destruct (Z.ltb_spec (2 ^ 63) un); [done|]. intros [= <-]. lia.
  - destruct (Z.leb_spec (2 ^ 63) un); [done|]. intros [= <-]. lia.
Qed.
#[export] Hint Resolve ParseInt_in : go.

(** ** Case mapping, string searching and ordering *)

(** What the program reads from outside the repository: the
    [github.com/spaolacci/murmur3] hash, the Unicode case tables behind
    [strings.ToLower]/[ToUpper] on strings that are not ASCII, the decimal
    conversions of floating-point numbers, file name patterns, the clock, the iteration order of Go
    maps and the random generators.  The last three answer differently at every
    call, so they take the number of the call.  They are parameters of the whole
    development. *)
(** What the administrative commands report: the process, the fields of the global
    configuration they show ([config.Configures], which can be nil) and the
    replication callback of the database ([replicationFetcher], nil or returning the
    payload of its result at each call, nil again for no data). *)
Record ShownConfig := mkShown { c_Host : list ascii; c_Port : Z; c_LogDir : list ascii; c_LogLevel : list ascii; c_NodeID : list ascii }.
Record Process := mkProcess {
  GOOS : bytes; GOARCH : bytes; go_Version : bytes; Getpid : Z;
  Configures : option ShownConfig;
  replicationFetcher : option (nat → option slice);
}.

Class Host := {
  murmur3_Sum64WithSeed : bytes → Z → Z;
  unicode_ToLower : bytes → bytes;
  unicode_ToUpper : bytes → bytes;
  unicode_Title : bytes → bytes;                 (* the first rune in title case *)
  unix_now : nat → Z;                            (* time.Now().Unix() *)
  range_order : nat → list bytes → list bytes;   (* the keys of a map, as [range] visits them *)
  rand_Intn : nat → Z → Z;                       (* math/rand.Intn *)
  rand_Float64 : nat → spec_float;               (* math/rand/v2.Float64 *)
  ParseFloat : bytes → option spec_float;        (* strconv.ParseFloat(s, 64), None is an error *)
  FormatFloat : spec_float → bytes;              (* strconv.FormatFloat(f, 'f', -1, 64) *)
  Sprintf_v : spec_float → bytes;                (* fmt.Sprintf("%v", f) *)
  Quote : bytes → bytes;                         (* strconv.Quote *)
  filepath_Match : bytes → bytes → option bool;  (* path/filepath.Match, None is an error *)
  process : Process;
}.

(** What the program relies on. *)
Class HostLaws (H : Host) : Prop := {
  range_order_perm n ks : range_order n ks ≡ₚ ks;
  rand_Intn_range n k : 0 < k → 0 <= rand_Intn n k < k;
}.

(** A concrete host for examples: the digest adds up the bytes, the clock shows
    1000 seconds plus the number of the call, maps are visited in key order, every
    fourth random number is small, and floats are read and printed when they are
    small integers or [nan]. *)
Definition demo_float (f : spec_float) : bytes :=
  match f with
  | S754_finite s m e =>
      let n := if 0 <=? e then Z.shiftl (Zpos m) e else Z.shiftr (Zpos m) (- e) in
      FormatInt (if s then - n else n)
  | S754_nan => lit "NaN"
  | _ => lit "0"
  end.
Definition demo_host : Host := {|
  murmur3_Sum64WithSeed key seed := foldr (λ c n, code c + n) seed key;
  unicode_ToLower s := s;
  unicode_ToUpper s := s;
  unicode_Title s := s;
  unix_now n := 1000 + Z.of_nat n;
  range_order _ ks := ks;
  rand_Intn n k := Z.of_nat n mod k;
  rand_Float64 n := if Nat.eqb (n mod 4) 0 then S754_zero false else S754_finite false 4503599627370496 (-53);
  ParseFloat s :=
    match ParseInt s with
    | inl n => Some (binary_normalize 53 1024 n 0 false)
    | inr _ => if bool_decide (s = lit "nan") then Some S754_nan else None
    end;
  FormatFloat := demo_float;
  Sprintf_v := demo_float;
  Quote s := "034"%char :: s ++ ["034"%char];
  filepath_Match p s := Some (bool_decide (p = s));
  process := mkProcess (lit "linux") (lit "amd64") (lit "go1.24") 1
    (Some (mkShown (lit "0.0.0.0") 6379 (lit "./") (lit "info") (lit "node-1"))) None;
|}.

#[export] Instance demo_host_laws : HostLaws demo_host.
Proof. split; [done|]. intros n k Hk. cbn. apply Z.mod_pos_bound. done. Qed.

Definition is_ascii (s : bytes) : bool := forallb (λ c, code c <? 128) s.

Definition lower (c : ascii) : ascii :=
  if (65 <=? code c) && (code c <=? 90) then ascii_of_N (Z.to_N (code c + 32)) else c.
Definition upper (c : ascii) : ascii :=
  if (97 <=? code c) && (code c <=? 122) then ascii_of_N (Z.to_N (code c - 32)) else c.

(** [strings.ToLower] and [strings.ToUpper]: the ASCII fast path of the Go
    library, the Unicode tables otherwise. *)
Definition ToLower `{Host} (s : bytes) : bytes :=
  if is_ascii s then map lower s else unicode_ToLower s.
Definition ToUpper `{Host} (s : bytes) : bytes :=
  if is_ascii s then map upper s else unicode_ToUpper s.

(** [<] and [<=] on Go strings: bytewise lexicographic. *)
Fixpoint str_ltb (a b : bytes) : bool :=
  match a, b with
  | _, [] => false
  | [], _ :: _ => true
  | x :: a, y :: b => (code x <? code y) || ((code x =? code y) && str_ltb a b)
  end.
Definition str_leb (a b : bytes) : bool := negb (str_ltb b a).

Definition beq (a b : bytes) : bool := bool_decide (a = b).

Lemma code_inj a b : code a = code b → a = b.
Proof.
  unfold code. intros H. rewrite <- (ascii_N_embedding a), <- (ascii_N_embedding b).
  f_equal. lia.
Qed.

Lemma beq_eq a b : beq a b = true ↔ a = b.
Proof. unfold beq. by rewrite bool_decide_eq_true. Qed.

Lemma str_ltb_irrefl a : str_ltb a a = false.
Proof. induction a as [|x a IH]; simpl; [done|]. rewrite IH. lia. Qed.

Lemma str_ltb_trans a b c : str_ltb a b = true → str_ltb b c = true → str_ltb a c = true.
Proof.
  revert b c. induction a as [|x a IH]; intros [|y b] [|z c]; simpl; try done.
  intros H1 H2.
  apply orb_true_iff in H1 as [H1|[H1 H1']%andb_true_iff];
    apply orb_true_iff in H2 as [H2|[H2 H2']%andb_true_iff];
    apply orb_true_iff; try (left; lia).
  right. apply andb_true_iff. split; [lia|eauto].
Qed.

Lemma str_ltb_total a b : a ≠ b → str_ltb a b = true ∨ str_ltb b a = true.
Proof.
  revert b. induction a as [|x a IH]; intros [|y b] Hne; simpl; auto; try done.
  destruct (Z.lt_trichotomy (code x) (code y)) as [?|[E|?]].
  - left. apply orb_true_iff; left; lia.
  - apply code_inj in E as ->. destruct (IH b) as [H|H]; [congruence|left|right];
      rewrite H, Z.eqb_refl; by destruct (_ <? _).
  - right. apply orb_true_iff; left; lia.
Qed.

(** ** Outcomes of running Go code

    [Panics] is a run-time panic (unwinds, may be recovered), [Fatals] an
    unrecoverable [throw] of the runtime, [Blocks] a goroutine that waits
    forever (a mutex it can never acquire). *)
Inductive outcome (A : Type) :=
  | Ret (a : A)
  | Panics
  | Fatals
  | Blocks.
Arguments Ret {A} a.
Arguments Panics {A}.
Arguments Fatals {A}.
Arguments Blocks {A}.

#[export] Instance outcome_ret : MRet outcome := λ A a, Ret a.
#[export] Instance outcome_bind : MBind outcome := λ A B f o,
  match o with
  | Ret a => f a
  | Panics => Panics
  | Fatals => Fatals
  | Blocks => Blocks
  end.

(** The outcomes of code that takes no lock and calls no runtime [throw]. *)
Definition recoverable {A} (o : outcome A) : Prop :=
  match o with Ret _ | Panics => True | Fatals | Blocks => False end.

Lemma recoverable_bind {A B} (f : A → outcome B) o :
  recoverable o → (∀ a, recoverable (f a)) → recoverable (o ≫= f).
Proof. intros Ho Hf. destruct o; simpl in *; auto. Qed.

(** State passing with outcomes: the shape of every command handler. *)
Definition M (S A : Type) : Type := S → outcome A * S.

#[export] Instance M_ret {S} : MRet (M S) := λ A a s, (Ret a, s).
#[export] Instance M_bind {S} : MBind (M S) := λ A B f c s,
  match c s with
  | (Ret a, s) => f a s
  | (Panics, s) => (Panics, s)
  | (Fatals, s) => (Fatals, s)
  | (Blocks, s) => (Blocks, s)
  end.

Definition mpanic {S A} : M S A := λ s, (Panics, s).
Definition mget {S} : M S S := λ s, (Ret s, s).
Definition mput {S} (s : S) : M S unit := λ _, (Ret tt, s).

(** [defer f()]: [f] runs when the body returns and when it panics; a runtime
    throw or a blocked goroutine never reaches it. *)
Definition mdefer {S A} (f : M S unit) (body : M S A) : M S A := λ s,
  match body s with
  | (Ret a, s) =>
      match f s with
      | (Ret _, s) => (Ret a, s)
      | (Panics, s) => (Panics, s)
      | (Fatals, s) => (Fatals, s)
      | (Blocks, s) => (Blocks, s)
      end
  | (Panics, s) =>
      match f s with
      | (Ret _, s) => (Panics, s)
      | (Panics, s) => (Panics, s)
      | (Fatals, s) => (Fatals, s)
      | (Blocks, s) => (Blocks, s)
      end
  | (o, s) => (o, s)
  end.

(** [x[i]] on a slice: an index out of range panics. *)
Definition index {S A} (l : list A) (i : nat) : M S A :=
  match l !! i with Some a => mret a | None => mpanic end.

(** The address space limit of the Go allocator on 64-bit platforms: [make]
    panics above it. *)
Definition maxAlloc : Z := 2 ^ 48.

(** [make([]T, n)] / [make([]T, 0, n)] for elements of [size] bytes succeeds. *)
Definition make_ok (size n : Z) : bool := (0 <=? n) && (n * size <=? maxAlloc).

(** A loop [for _, x := range l] in a monad. *)
Fixpoint mfold {S A B} (f : B → A → M S B) (b : B) (l : list A) : M S B :=
  match l with
  | [] => mret b
  | x :: l => b' ← f b x; mfold f b' l
  end.

(** ** Generic lemmas *)
Lemma bind_Ret {S A B} (c : M S A) (f : A → M S B) s a s' :
  c s = (Ret a, s') → (c ≫= f) s = f a s'.
Proof. intros E. unfold mbind, M_bind. by rewrite E. Qed.

Lemma bind_assoc {S A B C} (c : M S A) (f : A → M S B) (g : B → M S C) s :
  ((c ≫= f) ≫= g) s = (c ≫= λ a, f a ≫= g) s.
Proof. unfold mbind, M_bind. by destruct (c s) as [[] ?]. Qed.

Lemma bind_Ret_inv {S A B} (c : M S A) (f : A → M S B) s b s' :
  (c ≫= f) s = (Ret b, s') → ∃ a s1, c s = (Ret a, s1) ∧ f a s1 = (Ret b, s').
Proof. unfold mbind, M_bind. destruct (c s) as [[a| | |] s1]; try done. eauto. Qed.

Lemma mfold_app {S A B} (f : B → A → M S B) b l1 l2 s :
  mfold f b (l1 ++ l2) s = (b' ← mfold f b l1; mfold f b' l2) s.
Proof.
  revert b s. induction l1 as [|x l1 IH]; intros b s; simpl; [done|].
  unfold mbind, M_bind. destruct (f b x s) as [[] s']; [|done..].
  rewrite IH. done.
Qed.

Lemma zlen_nil {A} : zlen (@nil A) = 0.
Proof. done. Qed.
Lemma zlen_cons {A} (x : A) l : zlen (x :: l) = 1 + zlen l.
Proof. unfold zlen. simpl length. lia. Qed.
Lemma zlen_app {A} (l k : list A) : zlen (l ++ k) = zlen l + zlen k.
Proof. unfold zlen. rewrite length_app. lia. Qed.
Lemma zlen_nonneg {A} (l : list A) : 0 <= zlen l.
Proof. unfold zlen. lia. Qed.
Lemma zlen_0 {A} (l : list A) : zlen l = 0 → l = [].
Proof. destruct l; [done|]. rewrite zlen_cons. pose proof (zlen_nonneg l). lia. Qed.
#[export] Hint Rewrite @zlen_nil @zlen_cons @zlen_app : zlen.
#[export] Hint Resolve zlen_nonneg : go.

(** Case analysis on the boolean comparisons of the code. *)
Ltac case_bool :=
  match goal with
  | |- context [?a <? ?b] => destruct (Z.ltb_spec a b)
  | |- context [?a <=? ?b] => destruct (Z.leb_spec a b)
  | |- context [?a =? ?b] => destruct (Z.eqb_spec a b)
  | H : context [?a <? ?b] |- _ => destruct (Z.ltb_spec a b)
  | H : context [?a <=? ?b] |- _ => destruct (Z.leb_spec a b)
  | H : context [?a =? ?b] |- _ => destruct (Z.eqb_spec a b)
  end.
