(* ===== verification/Float.v ===== *)
(** * Double-precision floating-point numbers

    Scores of sorted sets are Go [float64]s.  They are modelled by the binary64
    instance of the IEEE 754 specification of the Standard Library: comparisons
    are false when an operand is NaN, the two zeros are equal, addition rounds to
    nearest even. *)

From S2P Require Import Prelude.
From Stdlib Require Import Ascii String ZArith Lia SpecFloat.
From stdpp Require Import prelude list.
Open Scope Z_scope.

Abbreviation float64 := spec_float.

#[export] Instance spec_float_eq_dec : EqDecision spec_float.
Proof. solve_decision. Defined.

Definition NaN : float64 := S754_nan.
Definition Inf (positive : bool) : float64 := S754_infinity (negb positive).
Definition IsNaN (f : float64) : bool := match f with S754_nan => true | _ => false end.

Definition flt (a b : float64) : bool := match SFcompare a b with Some Lt => true | _ => false end.
Definition feq (a b : float64) : bool := match SFcompare a b with Some Eq => true | _ => false end.
Definition fgt (a b : float64) : bool := flt b a.
Definition fge (a b : float64) : bool := flt b a || feq b a.
Definition fadd (a b : float64) : float64 := SFadd 53 1024 a b.

(** [0.25] *)
Definition quarter : float64 := S754_finite false 4503599627370496 (-54).

(** ** The order of numbers

    Numbers are compared by sign class, then exponent, then mantissa. *)
Definition fkey (f : float64) : Z * Z * Z :=
  match f with
  | S754_nan => (3, 0, 0)
  | S754_infinity true => (-2, 0, 0)
  | S754_infinity false => (2, 0, 0)
  | S754_zero _ => (0, 0, 0)
  | S754_finite true m e => (-1, - e, Zneg m)
  | S754_finite false m e => (1, e, Zpos m)
  end.
Definition key_lt (a b : Z * Z * Z) : Prop :=
  a.1.1 < b.1.1 ∨ (a.1.1 = b.1.1 ∧ (a.1.2 < b.1.2 ∨ (a.1.2 = b.1.2 ∧ a.2 < b.2))).

Lemma SFcompare_key a b :
  IsNaN a = false → IsNaN b = false →
  match SFcompare a b with
  | Some Lt => key_lt (fkey a) (fkey b)
  | Some Eq => fkey a = fkey b
  | Some Gt => key_lt (fkey b) (fkey a)
  | None => False
  end.
Proof.
  intros Ha Hb. unfold key_lt. destruct a as [sa|[]| |[] ma ea], b as [sb|[]| |[] mb eb]; try done; cbn; try lia.
  - destruct (Z.compare_spec ea eb); cbn; try lia. change (Pos.compare_cont Eq ma mb) with (Pos.compare ma mb).
    destruct (Pos.compare_spec ma mb); cbn; subst; try lia. done.
  - destruct (Z.compare_spec ea eb); cbn; try lia. change (Pos.compare_cont Eq ma mb) with (Pos.compare ma mb).
    destruct (Pos.compare_spec ma mb); cbn; subst; try lia. done.
Qed.

Lemma flt_key a b : IsNaN a = false → IsNaN b = false → flt a b = true ↔ key_lt (fkey a) (fkey b).
Proof.
  intros Ha Hb. pose proof (SFcompare_key a b Ha Hb) as Hc. unfold flt, key_lt in *.
  destruct (SFcompare a b) as [[]|]; [| | |done]; rewrite ?Hc; split; try done; lia.
Qed.
Lemma feq_key a b : IsNaN a = false → IsNaN b = false → feq a b = true ↔ fkey a = fkey b.
Proof.
  intros Ha Hb. pose proof (SFcompare_key a b Ha Hb) as Hc. unfold feq, key_lt in *.
  destruct (SFcompare a b) as [[]|]; [| | |done]; split; try done; intros E; rewrite E in Hc; lia.
Qed.
Lemma flt_nan a b : IsNaN a = true ∨ IsNaN b = true → flt a b = false ∧ feq a b = false.
Proof. intros [H|H]; destruct a, b; done. Qed.
Lemma feq_refl a : IsNaN a = false → feq a a = true.
Proof. intros H. by apply feq_key. Qed.
