(* ===== verification/Text.v ===== *)
(** * The functions of package [strings] used outside the command handlers

    Prefixes, searching and trimming as [src/pkg/cluster/node.go] and its
    neighbours use them.  Cut sets and separators of the program are ASCII, so
    [Trim], [TrimLeft] and [IndexAny] work on bytes; [TrimSpace] removes every
    Unicode white space, in its UTF-8 encoding. *)

From Stdlib Require Import Ascii String ZArith Lia.
From stdpp Require Import prelude list.
From S2P Require Import Prelude.
Open Scope Z_scope.

Definition HasPrefix (s p : bytes) : bool := beq (take (length p) s) p.
Definition TrimPrefix (s p : bytes) : bytes := if HasPrefix s p then drop (length p) s else s.
Definition HasSuffix (s p : bytes) : bool := HasPrefix (reverse s) (reverse p).
Definition TrimSuffix (s p : bytes) : bytes := reverse (TrimPrefix (reverse s) (reverse p)).

(** [strings.Index]: the position of the first occurrence; [None] is -1. *)
Fixpoint Index (s p : bytes) : option nat :=
  if HasPrefix s p then Some 0%nat
  else match s with [] => None | _ :: s => S <$> Index s p end.
Definition Contains (s p : bytes) : bool := bool_decide (is_Some (Index s p)).

(** [strings.IndexAny]. *)
Definition IndexAny (s chars : bytes) : option nat := fst <$> list_find (λ c, c ∈ chars) s.

(** [strings.TrimLeft] and [strings.Trim]. *)
Fixpoint TrimLeft (s cutset : bytes) : bytes :=
  match s with
  | [] => []
  | c :: s' => if bool_decide (c ∈ cutset) then TrimLeft s' cutset else s
  end.
Definition Trim (s cutset : bytes) : bytes := reverse (TrimLeft (reverse (TrimLeft s cutset)) cutset).

(** What follows a white space at the start of [s]: the six ASCII ones, U+0085,
    U+00A0, U+1680, U+2000 to U+200A, U+2028, U+2029, U+202F, U+205F and U+3000. *)
Definition general_space (c : Z) : bool :=
  ((128 <=? c) && (c <=? 138)) || (c =? 168) || (c =? 169) || (c =? 175).
Definition ascii_space (c : ascii) : bool := ((9 <=? code c) && (code c <=? 13)) || (code c =? 32).
Definition after_space (s : bytes) : option bytes :=
  match s with
  | [] => None
  | a :: s =>
      if ascii_space a then Some s
      else
        match s with
        | b :: s' =>
            if (code a =? 194) && ((code b =? 133) || (code b =? 160)) then Some s'
            else
              match s' with
              | c :: s'' =>
                  if ((code a =? 225) && (code b =? 154) && (code c =? 128))
                     || ((code a =? 226) && (code b =? 128) && general_space (code c))
                     || ((code a =? 226) && (code b =? 129) && (code c =? 159))
                     || ((code a =? 227) && (code b =? 128) && (code c =? 128))
                  then Some s'' else None
              | [] => None
              end
        | [] => None
        end
  end.
(** What precedes a white space at the end, on the reversed string. *)
Definition before_space (r : bytes) : option bytes :=
  match r with
  | [] => None
  | c :: r1 =>
      if ascii_space c then Some r1
      else
        match r1 with
        | b :: r2 =>
            if bool_decide (after_space [b; c] = Some []) then Some r2
            else
              match r2 with
              | a :: r3 => if bool_decide (after_space [a; b; c] = Some []) then Some r3 else None
              | [] => None
              end
        | [] => None
        end
  end.

Fixpoint strip (step : bytes → option bytes) (fuel : nat) (s : bytes) : bytes :=
  match fuel with
  | O => s
  | S fuel => match step s with Some s' => strip step fuel s' | None => s end
  end.
(** [strings.TrimSpace]; every step removes a byte, so the length is enough fuel. *)
Definition TrimSpace (s : bytes) : bytes :=
  let l := strip after_space (length s) s in
  reverse (strip before_space (length l) (reverse l)).

(** ** Lemmas *)
Lemma HasPrefix_app s p : HasPrefix (p ++ s) p = true.
Proof. unfold HasPrefix. rewrite take_app_length. unfold beq. by apply bool_decide_eq_true_2. Qed.
Lemma HasPrefix_true s p : HasPrefix s p = true → s = p ++ drop (length p) s.
Proof. unfold HasPrefix, beq. intros H%bool_decide_eq_true. rewrite <- H at 1. by rewrite take_drop. Qed.
Lemma TrimPrefix_app s p : TrimPrefix (p ++ s) p = s.
Proof. unfold TrimPrefix. by rewrite HasPrefix_app, drop_app_length. Qed.
Lemma TrimSuffix_app s p : TrimSuffix (s ++ p) p = s.
Proof. unfold TrimSuffix. by rewrite reverse_app, TrimPrefix_app, reverse_involutive. Qed.

Lemma strip_none step fuel s : step s = None → strip step fuel s = s.
Proof. intros H. destruct fuel; cbn; [done|]. by rewrite H. Qed.

(** An ASCII byte that is not a space, where nothing is trimmed. *)
Definition solid (c : ascii) : bool := negb (ascii_space c) && (code c <? 128).
Lemma solid_true c : solid c = true → ascii_space c = false ∧ code c < 128.
Proof. unfold solid. rewrite andb_true_iff, negb_true_iff, Z.ltb_lt. done. Qed.
Lemma solid_after_space a s : solid a = true → after_space (a :: s) = None.
Proof.
  intros [Ha Hlt]%solid_true. cbn [after_space]. rewrite Ha.
  rewrite !(proj2 (Z.eqb_neq (code a) _)) by lia. cbn. by destruct s as [|? [|]].
Qed.
Lemma solid_before_space c r : solid c = true → before_space (c :: r) = None.
Proof.
  intros Hc. pose proof Hc as [Ha Hlt]%solid_true. cbn [before_space]. rewrite Ha. destruct r as [|b r]; [done|].
  assert (after_space [b; c] ≠ Some []) as H2.
  { cbn. destruct (ascii_space b); [done|]. rewrite !(proj2 (Z.eqb_neq (code c) _)) by lia. by rewrite andb_false_r. }
  rewrite bool_decide_eq_false_2 by done. destruct r as [|a r]; [done|].
  rewrite bool_decide_eq_false_2; [done|]. cbn. destruct (ascii_space a); [done|].
  destruct (_ && _); [done|]. unfold general_space. rewrite !(proj2 (Z.eqb_neq (code c) _)) by lia.
  rewrite (proj2 (Z.leb_gt 128 (code c))) by lia. by rewrite !andb_false_r.
Qed.

(** Trimming keeps a string with solid ends. *)
Lemma TrimSpace_solid a s : solid a = true → solid (List.last (a :: s) a) = true → TrimSpace (a :: s) = a :: s.
Proof.
  intros Ha Hl. unfold TrimSpace. rewrite (strip_none after_space) by (by apply solid_after_space).
  destruct (exists_last (l := a :: s)) as (l & z & E); [done|]. rewrite E in Hl |- *. rewrite List.last_last in Hl.
  rewrite reverse_snoc, strip_none by (by apply solid_before_space).
  by rewrite reverse_cons, reverse_involutive.
Qed.
Lemma TrimSpace_nil : TrimSpace [] = [].
Proof. done. Qed.
Lemma TrimSpace_all_solid s : forallb solid s = true → TrimSpace s = s.
Proof.
  destruct s as [|a s]; [done|]. intros H. rewrite forallb_forall in H. apply TrimSpace_solid; [apply H; by left|].
  apply H. destruct (exists_last (l := a :: s)) as (l & z & E); [done|]. rewrite E, List.last_last, in_app_iff.
  right. by left.
Qed.

(** The first occurrence of a pattern whose first byte occurs nowhere before. *)
Lemma Index_skip s p t : p ≠ [] → (∀ c, head p = Some c → c ∉ s) → Index (s ++ p ++ t) p = Some (length s).
Proof.
  intros Hp Hs. destruct p as [|c p]; [done|]. specialize (Hs c eq_refl).
  induction s as [|x s IH]; cbn [app length].
  - cbn [Index]. change (c :: p ++ t) with ((c :: p) ++ t). by rewrite HasPrefix_app.
  - apply not_elem_of_cons in Hs as [Hx Hs]. cbn [Index].
    assert (HasPrefix (x :: s ++ c :: p ++ t) (c :: p) = false) as ->.
    { unfold HasPrefix, beq. cbn. apply bool_decide_eq_false_2. congruence. }
    cbn [app] in IH. by rewrite IH.
Qed.
Lemma IndexAny_skip s c t chars : Forall (λ x, x ∉ chars) s → c ∈ chars → IndexAny (s ++ c :: t) chars = Some (length s).
Proof.
  intros Hs Hc. unfold IndexAny. assert (list_find (λ c, c ∈ chars) (s ++ c :: t) = Some (length s, c)) as ->; [|done].
  apply list_find_Some. split; [by apply list_lookup_middle|]. split; [done|].
  intros j y Hj Hlt. rewrite lookup_app_l in Hj by done. by apply (Forall_lookup_1 _ _ _ _ Hs Hj).
Qed.
Lemma TrimLeft_keep c s cutset : c ∉ cutset → TrimLeft (c :: s) cutset = c :: s.
Proof. intros H. cbn. by rewrite bool_decide_eq_false_2. Qed.
Lemma Trim_keep s cutset : Forall (λ c, c ∉ cutset) s → Trim s cutset = s.
Proof.
  intros H. unfold Trim. assert (∀ s, Forall (λ c, c ∉ cutset) s → TrimLeft s cutset = s) as Hk.
  { intros [|c s'] Hs; [done|]. apply Forall_cons in Hs as [Hc _]. by apply TrimLeft_keep. }
  rewrite (Hk s) by done. rewrite Hk by (by apply Forall_reverse). apply reverse_involutive.
Qed.

(** ** Containment *)
Lemma Contains_cons c s p : Contains (c :: s) p = HasPrefix (c :: s) p || Contains s p.
Proof.
  unfold Contains. cbn [Index]. destruct (HasPrefix (c :: s) p); cbn [orb]; [by apply bool_decide_eq_true_2|].
  destruct (Index s p); cbn; done.
Qed.
Lemma Contains_nil p : Contains [] p = HasPrefix [] p.
Proof. unfold Contains. cbn [Index]. by destruct (HasPrefix [] p). Qed.
Lemma Contains_prefix s p : HasPrefix s p = true → Contains s p = true.
Proof. intros H. destruct s as [|c s]; [by rewrite Contains_nil|]. rewrite Contains_cons, H. done. Qed.
Lemma Contains_middle a p b : Contains (a ++ p ++ b) p = true.
Proof.
  induction a as [|c a IH]; cbn [app]; [apply Contains_prefix, HasPrefix_app|]. rewrite Contains_cons, IH. apply orb_true_r.
Qed.

Lemma HasPrefix_cons c s d p : HasPrefix (c :: s) (d :: p) = bool_decide (c = d) && HasPrefix s p.
Proof.
  unfold HasPrefix, beq. cbn [length take]. destruct (bool_decide_reflect (c = d)) as [->|Hne]; cbn.
  - apply bool_decide_ext. split; [by intros [= ->]|by intros ->].
  - apply bool_decide_eq_false_2. congruence.
Qed.
Lemma HasPrefix_nil_r s : HasPrefix s [] = true.
Proof. done. Qed.
Lemma HasPrefix_nil_l d p : HasPrefix [] (d :: p) = false.
Proof. done. Qed.

(** A pattern does not reach over a byte it does not have. *)
Lemma HasPrefix_sep c x y p : c ∉ p → HasPrefix (x ++ c :: y) p = HasPrefix x p.
Proof.
  revert p. induction x as [|d x IH]; intros [|e p] Hc; [done| |done|].
  - apply not_elem_of_cons in Hc as [Hne _]. cbn [app]. rewrite HasPrefix_cons, bool_decide_eq_false_2 by done. done.
  - apply not_elem_of_cons in Hc as [_ Hc]. cbn [app]. rewrite !HasPrefix_cons. by rewrite IH.
Qed.
Lemma Contains_sep c x y p : p ≠ [] → c ∉ p → Contains (x ++ c :: y) p = Contains x p || Contains y p.
Proof.
  intros Hp Hc. induction x as [|d x IH]; cbn [app].
  - rewrite Contains_cons, Contains_nil. destruct p as [|e p]; [done|]. rewrite HasPrefix_nil_l.
    apply not_elem_of_cons in Hc as [Hne _]. rewrite HasPrefix_cons, bool_decide_eq_false_2 by done. done.
  - rewrite !Contains_cons, IH, orb_assoc. f_equal. f_equal. apply (HasPrefix_sep c (d :: x) y p Hc).
Qed.

(** No occurrence of [p] starts within [a], whatever follows. *)
Fixpoint clear_of (a p : bytes) : bool :=
  match a with
  | [] => true
  | _ :: a' => negb (HasPrefix a p) && negb (HasPrefix p a) && clear_of a' p
  end.
Lemma HasPrefix_app_or a v p : HasPrefix (a ++ v) p = true → HasPrefix a p = true ∨ HasPrefix p a = true.
Proof.
  revert p. induction a as [|c a IH]; intros [|d p]; [by left|by right|by left|]. cbn [app]. rewrite !HasPrefix_cons.
  intros [Hc H]%andb_true_iff. apply bool_decide_eq_true in Hc as ->. rewrite !bool_decide_eq_true_2 by done. by apply IH.
Qed.
Lemma Contains_clear a v p : clear_of a p = true → Contains (a ++ v) p = Contains v p.
Proof.
  induction a as [|c a IH]; cbn [app]; [done|]. cbn [clear_of]. rewrite !andb_true_iff, !negb_true_iff. intros [[H1 H2] Ha].
  rewrite Contains_cons, IH by done. destruct (HasPrefix (c :: a ++ v) p) eqn:E; [|done].
  apply (HasPrefix_app_or (c :: a)) in E as [E|E]; congruence.
Qed.
Lemma Contains_absent c p v : c ∉ v → Contains v (c :: p) = false.
Proof.
  induction v as [|d v IH]; intros Hv; [done|]. apply not_elem_of_cons in Hv as [Hne Hv].
  rewrite Contains_cons, IH, HasPrefix_cons, bool_decide_eq_false_2 by done. done.
Qed.
Lemma clear_absent c p a : c ∉ a → clear_of a (c :: p) = true.
Proof.
  induction a as [|d a IH]; intros Ha; [done|]. apply not_elem_of_cons in Ha as [Hne Ha]. cbn [clear_of].
  rewrite IH, !HasPrefix_cons, !bool_decide_eq_false_2 by congruence. done.
Qed.

(** Trimming never removes a solid first byte. *)
Lemma before_space_keeps a r r' : solid a = true → before_space (r ++ [a]) = Some r' → ∃ r'', r' = r'' ++ [a].
Proof.
  intros Ha. destruct r as [|c [|b [|d r]]]; cbn [app before_space].
  - destruct (ascii_space a) eqn:E; [apply solid_true in Ha as [? _]; congruence|done].
  - destruct (ascii_space c); [intros [= <-]; by exists []|]. by rewrite solid_after_space.
  - destruct (ascii_space c); [intros [= <-]; by exists [b]|]. case_bool_decide; [intros [= <-]; by exists []|].
    by rewrite solid_after_space.
  - destruct (ascii_space c); [intros [= <-]; by exists (b :: d :: r)|]. case_bool_decide; [intros [= <-]; by exists (d :: r)|].
    case_bool_decide; [intros [= <-]; by exists r|done].
Qed.
Lemma TrimSpace_ne a s : solid a = true → TrimSpace (a :: s) ≠ [].
Proof.
  intros Ha. unfold TrimSpace. rewrite (strip_none after_space) by (by apply solid_after_space).
  assert (∀ fuel r, ∃ r', strip before_space fuel (r ++ [a]) = r' ++ [a]) as Hs.
  { induction fuel as [|fuel IH]; intros r; cbn [strip]; [by exists r|].
    destruct (before_space (r ++ [a])) as [r'|] eqn:E; [|by exists r].
    apply before_space_keeps in E as [r'' ->]; [|done]. apply IH. }
  rewrite reverse_cons. destruct (Hs (length (a :: s)) (reverse s)) as [r' ->]. by rewrite reverse_snoc.
Qed.
