(* ===== verification/Config.v ===== *)
(** * Configuration

    [src/pkg/config/config.go] and the parts of [src/cmd/init.go] that build the
    configuration of a node: the defaults, the command-line flags ([Setup], over the
    flag package as a parameter), the configuration file ([Parse]) and the list of
    addresses to join ([ParseJoinAddrs]).  Durations are nanoseconds.  [Parse]
    changes the configuration it is called on line by line; what was set before an
    error stays set. *)

From Stdlib Require Import Ascii String ZArith Lia.
From stdpp Require Import prelude gmap list fin_maps.
From S2P Require Import Prelude Text.
Open Scope Z_scope.

Record Config := mkConfig {
  cfg_ConfFile : bytes;
  cfg_Host : bytes;
  cfg_Port : Z;
  cfg_LogDir : bytes;
  cfg_LogLevel : bytes;
  cfg_LogSamplingEnabled : bool;
  cfg_LogSamplingInterval : Z;
  cfg_LogSamplingInitial : Z;
  cfg_LogSamplingThereafter : Z;
  cfg_ShardNum : Z;
  cfg_NodeID : bytes;
  cfg_Standalone : bool;
  cfg_RaftDir : bytes;
  cfg_RaftBind : bytes;
  cfg_RaftHTTPAddr : bytes;
  cfg_JoinAddr : bytes;
  cfg_JoinAddrs : list bytes;
  cfg_RaftBootstrap : bool;
  cfg_RaftConnectionPool : Z;
  cfg_RaftTimeout : Z;
  cfg_RaftSnapshotThreshold : Z;
  cfg_RaftSnapshotInterval : Z;
}.

Definition set_Host (x : bytes) (c : Config) : Config :=
  mkConfig (cfg_ConfFile c) x (cfg_Port c) (cfg_LogDir c) (cfg_LogLevel c) (cfg_LogSamplingEnabled c)
    (cfg_LogSamplingInterval c) (cfg_LogSamplingInitial c) (cfg_LogSamplingThereafter c) (cfg_ShardNum c)
    (cfg_NodeID c) (cfg_Standalone c) (cfg_RaftDir c) (cfg_RaftBind c) (cfg_RaftHTTPAddr c) (cfg_JoinAddr c)
    (cfg_JoinAddrs c) (cfg_RaftBootstrap c) (cfg_RaftConnectionPool c) (cfg_RaftTimeout c)
    (cfg_RaftSnapshotThreshold c) (cfg_RaftSnapshotInterval c).
Definition set_Port (x : Z) (c : Config) : Config :=
  mkConfig (cfg_ConfFile c) (cfg_Host c) x (cfg_LogDir c) (cfg_LogLevel c) (cfg_LogSamplingEnabled c)
    (cfg_LogSamplingInterval c) (cfg_LogSamplingInitial c) (cfg_LogSamplingThereafter c) (cfg_ShardNum c)
    (cfg_NodeID c) (cfg_Standalone c) (cfg_RaftDir c) (cfg_RaftBind c) (cfg_RaftHTTPAddr c) (cfg_JoinAddr c)
    (cfg_JoinAddrs c) (cfg_RaftBootstrap c) (cfg_RaftConnectionPool c) (cfg_RaftTimeout c)
    (cfg_RaftSnapshotThreshold c) (cfg_RaftSnapshotInterval c).
Definition set_LogDir (x : bytes) (c : Config) : Config :=
  mkConfig (cfg_ConfFile c) (cfg_Host c) (cfg_Port c) x (cfg_LogLevel c) (cfg_LogSamplingEnabled c)
    (cfg_LogSamplingInterval c) (cfg_LogSamplingInitial c) (cfg_LogSamplingThereafter c) (cfg_ShardNum c)
    (cfg_NodeID c) (cfg_Standalone c) (cfg_RaftDir c) (cfg_RaftBind c) (cfg_RaftHTTPAddr c) (cfg_JoinAddr c)
    (cfg_JoinAddrs c) (cfg_RaftBootstrap c) (cfg_RaftConnectionPool c) (cfg_RaftTimeout c)
    (cfg_RaftSnapshotThreshold c) (cfg_RaftSnapshotInterval c).
Definition set_LogLevel (x : bytes) (c : Config) : Config :=
  mkConfig (cfg_ConfFile c) (cfg_Host c) (cfg_Port c) (cfg_LogDir c) x (cfg_LogSamplingEnabled c)
    (cfg_LogSamplingInterval c) (cfg_LogSamplingInitial c) (cfg_LogSamplingThereafter c) (cfg_ShardNum c)
    (cfg_NodeID c) (cfg_Standalone c) (cfg_RaftDir c) (cfg_RaftBind c) (cfg_RaftHTTPAddr c) (cfg_JoinAddr c)
    (cfg_JoinAddrs c) (cfg_RaftBootstrap c) (cfg_RaftConnectionPool c) (cfg_RaftTimeout c)
    (cfg_RaftSnapshotThreshold c) (cfg_RaftSnapshotInterval c).
Definition set_LogSamplingEnabled (x : bool) (c : Config) : Config :=
  mkConfig (cfg_ConfFile c) (cfg_Host c) (cfg_Port c) (cfg_LogDir c) (cfg_LogLevel c) x (cfg_LogSamplingInterval c)
    (cfg_LogSamplingInitial c) (cfg_LogSamplingThereafter c) (cfg_ShardNum c) (cfg_NodeID c)
    (cfg_Standalone c) (cfg_RaftDir c) (cfg_RaftBind c) (cfg_RaftHTTPAddr c) (cfg_JoinAddr c)
    (cfg_JoinAddrs c) (cfg_RaftBootstrap c) (cfg_RaftConnectionPool c) (cfg_RaftTimeout c)
    (cfg_RaftSnapshotThreshold c) (cfg_RaftSnapshotInterval c).
Definition set_LogSamplingInterval (x : Z) (c : Config) : Config :=
  mkConfig (cfg_ConfFile c) (cfg_Host c) (cfg_Port c) (cfg_LogDir c) (cfg_LogLevel c) (cfg_LogSamplingEnabled c) x
    (cfg_LogSamplingInitial c) (cfg_LogSamplingThereafter c) (cfg_ShardNum c) (cfg_NodeID c)
    (cfg_Standalone c) (cfg_RaftDir c) (cfg_RaftBind c) (cfg_RaftHTTPAddr c) (cfg_JoinAddr c)
    (cfg_JoinAddrs c) (cfg_RaftBootstrap c) (cfg_RaftConnectionPool c) (cfg_RaftTimeout c)
    (cfg_RaftSnapshotThreshold c) (cfg_RaftSnapshotInterval c).
Definition set_LogSamplingInitial (x : Z) (c : Config) : Config :=
  mkConfig (cfg_ConfFile c) (cfg_Host c) (cfg_Port c) (cfg_LogDir c) (cfg_LogLevel c) (cfg_LogSamplingEnabled c)
    (cfg_LogSamplingInterval c) x (cfg_LogSamplingThereafter c) (cfg_ShardNum c) (cfg_NodeID c)
    (cfg_Standalone c) (cfg_RaftDir c) (cfg_RaftBind c) (cfg_RaftHTTPAddr c) (cfg_JoinAddr c)
    (cfg_JoinAddrs c) (cfg_RaftBootstrap c) (cfg_RaftConnectionPool c) (cfg_RaftTimeout c)
    (cfg_RaftSnapshotThreshold c) (cfg_RaftSnapshotInterval c).
Definition set_LogSamplingThereafter (x : Z) (c : Config) : Config :=
  mkConfig (cfg_ConfFile c) (cfg_Host c) (cfg_Port c) (cfg_LogDir c) (cfg_LogLevel c) (cfg_LogSamplingEnabled c)
    (cfg_LogSamplingInterval c) (cfg_LogSamplingInitial c) x (cfg_ShardNum c) (cfg_NodeID c)
    (cfg_Standalone c) (cfg_RaftDir c) (cfg_RaftBind c) (cfg_RaftHTTPAddr c) (cfg_JoinAddr c)
    (cfg_JoinAddrs c) (cfg_RaftBootstrap c) (cfg_RaftConnectionPool c) (cfg_RaftTimeout c)
    (cfg_RaftSnapshotThreshold c) (cfg_RaftSnapshotInterval c).
Definition set_ShardNum (x : Z) (c : Config) : Config :=
  mkConfig (cfg_ConfFile c) (cfg_Host c) (cfg_Port c) (cfg_LogDir c) (cfg_LogLevel c) (cfg_LogSamplingEnabled c)
    (cfg_LogSamplingInterval c) (cfg_LogSamplingInitial c) (cfg_LogSamplingThereafter c) x (cfg_NodeID c)
    (cfg_Standalone c) (cfg_RaftDir c) (cfg_RaftBind c) (cfg_RaftHTTPAddr c) (cfg_JoinAddr c)
    (cfg_JoinAddrs c) (cfg_RaftBootstrap c) (cfg_RaftConnectionPool c) (cfg_RaftTimeout c)
    (cfg_RaftSnapshotThreshold c) (cfg_RaftSnapshotInterval c).
Definition set_NodeID (x : bytes) (c : Config) : Config :=
  mkConfig (cfg_ConfFile c) (cfg_Host c) (cfg_Port c) (cfg_LogDir c) (cfg_LogLevel c) (cfg_LogSamplingEnabled c)
    (cfg_LogSamplingInterval c) (cfg_LogSamplingInitial c) (cfg_LogSamplingThereafter c) (cfg_ShardNum c) x
    (cfg_Standalone c) (cfg_RaftDir c) (cfg_RaftBind c) (cfg_RaftHTTPAddr c) (cfg_JoinAddr c)
    (cfg_JoinAddrs c) (cfg_RaftBootstrap c) (cfg_RaftConnectionPool c) (cfg_RaftTimeout c)
    (cfg_RaftSnapshotThreshold c) (cfg_RaftSnapshotInterval c).
Definition set_Standalone (x : bool) (c : Config) : Config :=
  mkConfig (cfg_ConfFile c) (cfg_Host c) (cfg_Port c) (cfg_LogDir c) (cfg_LogLevel c) (cfg_LogSamplingEnabled c)
    (cfg_LogSamplingInterval c) (cfg_LogSamplingInitial c) (cfg_LogSamplingThereafter c) (cfg_ShardNum c)
    (cfg_NodeID c) x (cfg_RaftDir c) (cfg_RaftBind c) (cfg_RaftHTTPAddr c) (cfg_JoinAddr c) (cfg_JoinAddrs c)
    (cfg_RaftBootstrap c) (cfg_RaftConnectionPool c) (cfg_RaftTimeout c) (cfg_RaftSnapshotThreshold c)
    (cfg_RaftSnapshotInterval c).
Definition set_RaftDir (x : bytes) (c : Config) : Config :=
  mkConfig (cfg_ConfFile c) (cfg_Host c) (cfg_Port c) (cfg_LogDir c) (cfg_LogLevel c) (cfg_LogSamplingEnabled c)
    (cfg_LogSamplingInterval c) (cfg_LogSamplingInitial c) (cfg_LogSamplingThereafter c) (cfg_ShardNum c)
    (cfg_NodeID c) (cfg_Standalone c) x (cfg_RaftBind c) (cfg_RaftHTTPAddr c) (cfg_JoinAddr c)
    (cfg_JoinAddrs c) (cfg_RaftBootstrap c) (cfg_RaftConnectionPool c) (cfg_RaftTimeout c)
    (cfg_RaftSnapshotThreshold c) (cfg_RaftSnapshotInterval c).
Definition set_RaftBind (x : bytes) (c : Config) : Config :=
  mkConfig (cfg_ConfFile c) (cfg_Host c) (cfg_Port c) (cfg_LogDir c) (cfg_LogLevel c) (cfg_LogSamplingEnabled c)
    (cfg_LogSamplingInterval c) (cfg_LogSamplingInitial c) (cfg_LogSamplingThereafter c) (cfg_ShardNum c)
    (cfg_NodeID c) (cfg_Standalone c) (cfg_RaftDir c) x (cfg_RaftHTTPAddr c) (cfg_JoinAddr c)
    (cfg_JoinAddrs c) (cfg_RaftBootstrap c) (cfg_RaftConnectionPool c) (cfg_RaftTimeout c)
    (cfg_RaftSnapshotThreshold c) (cfg_RaftSnapshotInterval c).
Definition set_RaftHTTPAddr (x : bytes) (c : Config) : Config :=
  mkConfig (cfg_ConfFile c) (cfg_Host c) (cfg_Port c) (cfg_LogDir c) (cfg_LogLevel c) (cfg_LogSamplingEnabled c)
    (cfg_LogSamplingInterval c) (cfg_LogSamplingInitial c) (cfg_LogSamplingThereafter c) (cfg_ShardNum c)
    (cfg_NodeID c) (cfg_Standalone c) (cfg_RaftDir c) (cfg_RaftBind c) x (cfg_JoinAddr c) (cfg_JoinAddrs c)
    (cfg_RaftBootstrap c) (cfg_RaftConnectionPool c) (cfg_RaftTimeout c) (cfg_RaftSnapshotThreshold c)
    (cfg_RaftSnapshotInterval c).
Definition set_JoinAddr (x : bytes) (c : Config) : Config :=
  mkConfig (cfg_ConfFile c) (cfg_Host c) (cfg_Port c) (cfg_LogDir c) (cfg_LogLevel c) (cfg_LogSamplingEnabled c)
    (cfg_LogSamplingInterval c) (cfg_LogSamplingInitial c) (cfg_LogSamplingThereafter c) (cfg_ShardNum c)
    (cfg_NodeID c) (cfg_Standalone c) (cfg_RaftDir c) (cfg_RaftBind c) (cfg_RaftHTTPAddr c) x
    (cfg_JoinAddrs c) (cfg_RaftBootstrap c) (cfg_RaftConnectionPool c) (cfg_RaftTimeout c)
    (cfg_RaftSnapshotThreshold c) (cfg_RaftSnapshotInterval c).
Definition set_JoinAddrs (x : list bytes) (c : Config) : Config :=
  mkConfig (cfg_ConfFile c) (cfg_Host c) (cfg_Port c) (cfg_LogDir c) (cfg_LogLevel c) (cfg_LogSamplingEnabled c)
    (cfg_LogSamplingInterval c) (cfg_LogSamplingInitial c) (cfg_LogSamplingThereafter c) (cfg_ShardNum c)
    (cfg_NodeID c) (cfg_Standalone c) (cfg_RaftDir c) (cfg_RaftBind c) (cfg_RaftHTTPAddr c) (cfg_JoinAddr c)
    x (cfg_RaftBootstrap c) (cfg_RaftConnectionPool c) (cfg_RaftTimeout c) (cfg_RaftSnapshotThreshold c)
    (cfg_RaftSnapshotInterval c).
Definition set_RaftBootstrap (x : bool) (c : Config) : Config :=
  mkConfig (cfg_ConfFile c) (cfg_Host c) (cfg_Port c) (cfg_LogDir c) (cfg_LogLevel c) (cfg_LogSamplingEnabled c)
    (cfg_LogSamplingInterval c) (cfg_LogSamplingInitial c) (cfg_LogSamplingThereafter c) (cfg_ShardNum c)
    (cfg_NodeID c) (cfg_Standalone c) (cfg_RaftDir c) (cfg_RaftBind c) (cfg_RaftHTTPAddr c) (cfg_JoinAddr c)
    (cfg_JoinAddrs c) x (cfg_RaftConnectionPool c) (cfg_RaftTimeout c) (cfg_RaftSnapshotThreshold c)
    (cfg_RaftSnapshotInterval c).
Definition set_RaftConnectionPool (x : Z) (c : Config) : Config :=
  mkConfig (cfg_ConfFile c) (cfg_Host c) (cfg_Port c) (cfg_LogDir c) (cfg_LogLevel c) (cfg_LogSamplingEnabled c)
    (cfg_LogSamplingInterval c) (cfg_LogSamplingInitial c) (cfg_LogSamplingThereafter c) (cfg_ShardNum c)
    (cfg_NodeID c) (cfg_Standalone c) (cfg_RaftDir c) (cfg_RaftBind c) (cfg_RaftHTTPAddr c) (cfg_JoinAddr c)
    (cfg_JoinAddrs c) (cfg_RaftBootstrap c) x (cfg_RaftTimeout c) (cfg_RaftSnapshotThreshold c)
    (cfg_RaftSnapshotInterval c).
Definition set_RaftTimeout (x : Z) (c : Config) : Config :=
  mkConfig (cfg_ConfFile c) (cfg_Host c) (cfg_Port c) (cfg_LogDir c) (cfg_LogLevel c) (cfg_LogSamplingEnabled c)
    (cfg_LogSamplingInterval c) (cfg_LogSamplingInitial c) (cfg_LogSamplingThereafter c) (cfg_ShardNum c)
    (cfg_NodeID c) (cfg_Standalone c) (cfg_RaftDir c) (cfg_RaftBind c) (cfg_RaftHTTPAddr c) (cfg_JoinAddr c)
    (cfg_JoinAddrs c) (cfg_RaftBootstrap c) (cfg_RaftConnectionPool c) x (cfg_RaftSnapshotThreshold c)
    (cfg_RaftSnapshotInterval c).
Definition set_RaftSnapshotThreshold (x : Z) (c : Config) : Config :=
  mkConfig (cfg_ConfFile c) (cfg_Host c) (cfg_Port c) (cfg_LogDir c) (cfg_LogLevel c) (cfg_LogSamplingEnabled c)
    (cfg_LogSamplingInterval c) (cfg_LogSamplingInitial c) (cfg_LogSamplingThereafter c) (cfg_ShardNum c)
    (cfg_NodeID c) (cfg_Standalone c) (cfg_RaftDir c) (cfg_RaftBind c) (cfg_RaftHTTPAddr c) (cfg_JoinAddr c)
    (cfg_JoinAddrs c) (cfg_RaftBootstrap c) (cfg_RaftConnectionPool c) (cfg_RaftTimeout c) x
    (cfg_RaftSnapshotInterval c).
Definition set_RaftSnapshotInterval (x : Z) (c : Config) : Config :=
  mkConfig (cfg_ConfFile c) (cfg_Host c) (cfg_Port c) (cfg_LogDir c) (cfg_LogLevel c) (cfg_LogSamplingEnabled c)
    (cfg_LogSamplingInterval c) (cfg_LogSamplingInitial c) (cfg_LogSamplingThereafter c) (cfg_ShardNum c)
    (cfg_NodeID c) (cfg_Standalone c) (cfg_RaftDir c) (cfg_RaftBind c) (cfg_RaftHTTPAddr c) (cfg_JoinAddr c)
    (cfg_JoinAddrs c) (cfg_RaftBootstrap c) (cfg_RaftConnectionPool c) (cfg_RaftTimeout c)
    (cfg_RaftSnapshotThreshold c) x.

(** ** Defaults *)
Definition DefaultHost : bytes := lit "0.0.0.0".
Definition DefaultPort : Z := 6379.
Definition DefaultRaftConnectionPool : Z := 3.
Definition DefaultRaftTimeout : Z := 10 * Second.
Definition DefaultRaftSnapshotThresh : Z := 10000.
Definition DefaultRaftSnapshotIntvl : Z := 120 * Second.
Definition NewDefaultConfig : Config :=
  mkConfig [] DefaultHost DefaultPort (lit "./") (lit "info") true Second 100 100 1024 (lit "node-1") false
    (lit "./raft") (lit "127.0.0.1:7000") (lit "127.0.0.1:17000") [] [] false DefaultRaftConnectionPool
    DefaultRaftTimeout DefaultRaftSnapshotThresh DefaultRaftSnapshotIntvl.

(** ** Lists of addresses *)
(** [strings.FieldsFunc]: the maximal runs of bytes that are not separators.  The
    separators are ASCII, so runes need not be decoded. *)
Fixpoint FieldsFunc (sep : ascii → bool) (s : bytes) (cur : bytes) : list bytes :=
  match s with
  | [] => if beq cur [] then [] else [cur]
  | c :: s =>
      if sep c then (if beq cur [] then [] else [cur]) ++ FieldsFunc sep s []
      else FieldsFunc sep s (cur ++ [c])
  end.

(** Each element once, in the order of first appearance. *)
Fixpoint dedup (seen : list bytes) (l : list bytes) : list bytes :=
  match l with
  | [] => []
  | x :: l => if bool_decide (x ∈ seen) then dedup seen l else x :: dedup (x :: seen) l
  end.

Definition is_sep (c : ascii) : bool := bool_decide (c ∈ lit ",; " ++ ["009"%char; LF]).
(** Empty parts are skipped; the result is nil (here []) when nothing is left. *)
Definition ParseJoinAddrs (raw : bytes) : list bytes :=
  dedup [] (filter (λ p, p ≠ []) (FieldsFunc is_sep raw [])).

(** ** The flags *)
(** [cmd.Flags()] of the package [cobra]: the value of a flag, or the text of an
    error. *)
Record Flags := mkFlags {
  GetString : string → bytes + bytes;
  GetBool : string → bool + bytes;
  GetInt : string → Z + bytes;
  GetDuration : string → Z + bytes;
  GetUint64 : string → Z + bytes;
}.

(** [if cfg.f, err = get(name); err != nil { return nil, fmt.Errorf(...) }] *)
Definition flag {A} (get : string → A + bytes) (name : string) (k : A → Config + bytes) : Config + bytes :=
  match get name with
  | inl x => k x
  | inr err => inr (lit "failed to parse " ++ lit name ++ lit " flag: " ++ err)
  end.

Definition Setup (f : Flags) : Config + bytes :=
  flag (GetBool f) "standalone" (λ standalone,
  flag (GetString f) "host" (λ host,
  flag (GetInt f) "port" (λ port,
  flag (GetString f) "logdir" (λ logdir,
  flag (GetString f) "loglevel" (λ loglevel,
  flag (GetBool f) "log-sampling" (λ sampling,
  flag (GetDuration f) "log-sampling-interval" (λ interval,
  flag (GetInt f) "log-sampling-initial" (λ initial,
  flag (GetInt f) "log-sampling-thereafter" (λ thereafter,
  flag (GetInt f) "shardnum" (λ shardnum,
  flag (GetString f) "node-id" (λ nodeID,
  flag (GetString f) "raft-dir" (λ raftDir,
  flag (GetString f) "raft-bind" (λ raftBind,
  flag (GetString f) "raft-http" (λ raftHTTP,
  flag (GetString f) "raft-join" (λ joinAddr,
  flag (GetBool f) "raft-bootstrap" (λ bootstrap,
  flag (GetInt f) "raft-pool" (λ pool,
  flag (GetDuration f) "raft-timeout" (λ timeout,
  flag (GetUint64 f) "raft-snap-threshold" (λ snapThresh,
  flag (GetDuration f) "raft-snap-interval" (λ snapInterval,
  inl (mkConfig [] host port logdir loglevel sampling interval initial thereafter shardnum nodeID standalone
         raftDir raftBind raftHTTP joinAddr (ParseJoinAddrs joinAddr) bootstrap pool timeout
         (if 0 <? snapThresh then snapThresh else 10000) snapInterval))))))))))))))))))))).

(** ** The file *)
(** The errors of [strconv]. *)
Definition strconv_error `{Host} (func : string) (num : bytes) (e : numerror) : bytes :=
  lit "strconv." ++ lit func ++ lit ": parsing " ++ Quote num ++ lit ": " ++
  (match e with ErrSyntax => lit "invalid syntax" | ErrRange => lit "value out of range" end).
(** What [Atoi] and [ParseUint] return beside an error: zero, or the nearest value. *)
Definition on_error (max : Z) (num : bytes) (e : numerror) : Z :=
  match e with
  | ErrSyntax => 0
  | ErrRange => if HasPrefix num (lit "-") then MinInt64 else max
  end.
Definition ParseBool (s : bytes) : option bool :=
  if bool_decide (s ∈ lit <$> ["1"; "t"; "T"; "true"; "TRUE"; "True"]%string) then Some true
  else if bool_decide (s ∈ lit <$> ["0"; "f"; "F"; "false"; "FALSE"; "False"]%string) then Some false
  else None.

(** [strings.Fields]: the parts between white space. *)
Fixpoint fields_loop (fuel : nat) (s cur : bytes) : list bytes :=
  let flush := if beq cur [] then [] else [cur] in
  match fuel, s with
  | _, [] => flush
  | O, _ => flush
  | S fuel, c :: s' =>
      match after_space s with
      | Some rest => flush ++ fields_loop fuel rest []
      | None => fields_loop fuel s' (cur ++ [c])
      end
  end.
Definition Fields (s : bytes) : list bytes := fields_loop (length s) s [].

Section Parse.
Context `{Host}.
(** [net.ParseIP(s) != nil] and [time.ParseDuration]. *)
Variable ParseIP : bytes → bool.
Variable ParseDuration : bytes → Z + bytes.

Definition modify (f : Config → Config) : M Config (option bytes) := λ c, (Ret None, f c).
Definition fails (e : bytes) : M Config (option bytes) := mret (Some e).

(** The forms of a setting: [value, err := get(...)] keeps the field on an error,
    [cfg.f, err = get(...)] overwrites it. *)
Definition set_bool (set : bool → Config → Config) (v : bytes) : M Config (option bytes) :=
  match ParseBool v with
  | Some b => modify (set b)
  | None => fails (strconv_error "ParseBool" v ErrSyntax)
  end.
Definition set_int (set : Z → Config → Config) (v : bytes) : M Config (option bytes) :=
  match Atoi v with
  | inl n => modify (set n)
  | inr e => fails (strconv_error "Atoi" v e)
  end.
Definition overwrite_duration (set : Z → Config → Config) (v : bytes) : M Config (option bytes) :=
  match ParseDuration v with
  | inl d => modify (set d)
  | inr e => modify (set 0);; fails e
  end.

(** One setting; an unknown name is ignored. *)
Definition parse_setting (name v : bytes) : M Config (option bytes) :=
  let named s := beq name (lit s) in
  if named "host"%string then
    if ParseIP v then modify (set_Host v)
    else λ c, (Ret (Some (lit "Given ip address " ++ cfg_Host c ++ lit " is invalid")), c)
  else if named "port"%string then
    match Atoi v with
    | inr e => fails (strconv_error "Atoi" v e)
    | inl port =>
        if (port <=? 1024) || (65535 <=? port)
        then fails (lit "Listening port should be between 1024 and 65535, but " ++ FormatInt port ++ lit " is given.")
        else modify (set_Port port)
    end
  else if named "logdir"%string then modify (set_LogDir (ToLower v))
  else if named "loglevel"%string then modify (set_LogLevel (ToLower v))
  else if named "logsampling"%string then set_bool set_LogSamplingEnabled v
  else if named "logsamplinginterval"%string then overwrite_duration set_LogSamplingInterval v
  else if named "logsamplinginitial"%string then set_int set_LogSamplingInitial v
  else if named "logsamplingthereafter"%string then set_int set_LogSamplingThereafter v
  else if named "shardnum"%string then
    match Atoi v with
    | inl n => modify (set_ShardNum n)
    | inr e => modify (set_ShardNum (on_error MaxInt64 v e));; mpanic
    end
  else if named "nodeid"%string then modify (set_NodeID v)
  else if named "standalone"%string then set_bool set_Standalone v
  else if named "raftdir"%string then modify (set_RaftDir v)
  else if named "raftbind"%string then modify (set_RaftBind v)
  else if named "rafthttp"%string then modify (set_RaftHTTPAddr v)
  else if named "raftjoin"%string then modify (λ c, set_JoinAddrs (ParseJoinAddrs v) (set_JoinAddr v c))
  else if named "raftbootstrap"%string then set_bool set_RaftBootstrap v
  else if named "raftpool"%string then
    match Atoi v with
    | inl n => modify (set_RaftConnectionPool n)
    | inr e => modify (set_RaftConnectionPool (on_error MaxInt64 v e));; fails (strconv_error "Atoi" v e)
    end
  else if named "rafttimeout"%string then overwrite_duration set_RaftTimeout v
  else if named "raftsnapthreshold"%string then
    match ParseUint v with
    | inl n => modify (set_RaftSnapshotThreshold n)
    | inr e => modify (set_RaftSnapshotThreshold (match e with ErrSyntax => 0 | ErrRange => MaxUint64 end));;
               fails (strconv_error "ParseUint" v e)
    end
  else if named "raftsnapinterval"%string then overwrite_duration set_RaftSnapshotInterval v
  else mret None.

(** One line: a comment, a name and a value, or nothing. *)
Definition parse_line (l : bytes) : M Config (option bytes) :=
  if HasPrefix l (lit "#") then mret None
  else
    match Fields l with
    | name :: v :: _ => parse_setting (ToLower name) v
    | _ => mret None
    end.

(** [ReadString('\n')] until end of file: the lines with their line feeds, then what
    follows the last one. *)
Fixpoint lines (s cur : bytes) : list bytes :=
  match s with
  | [] => [cur]
  | c :: s => if bool_decide (c = LF) then (cur ++ [c]) :: lines s [] else lines s (cur ++ [c])
  end.

Fixpoint parse_lines (ls : list bytes) : M Config (option bytes) :=
  match ls with
  | [] => mret None
  | l :: ls =>
      e ← parse_line l;
      match e with Some err => mret (Some err) | None => parse_lines ls end
  end.

(** [Parse] on the error of opening the file, or on its contents with the error that
    reading them met at their end, if it was not end of file: then what follows the last
    line feed is dropped. *)
Definition Parse (file : (bytes * option bytes) + bytes) : M Config (option bytes) :=
  match file with
  | inr err => mret (Some err)
  | inl (contents, None) => parse_lines (lines contents [])
  | inl (contents, Some ioErr) =>
      e ← parse_lines (removelast (lines contents []));
      mret (Some (default ioErr e))
  end.

(** [runNode] up to the start of the server: the configuration it uses, or an
    error; [open] reads a file. *)
Definition runNode (f : Flags) (open : bytes → (bytes * option bytes) + bytes) : outcome (Config + bytes) :=
  match Setup f with
  | inr err => Ret (inr err)
  | inl cfg =>
      if beq (cfg_ConfFile cfg) [] then Ret (inl cfg)
      else
        match Parse (open (cfg_ConfFile cfg)) cfg with
        | (Ret (Some err), _) => Ret (inr err)
        | (Ret None, cfg) => Ret (inl cfg)
        | _ => Panics
        end
  end.
End Parse.

(** ** Lists of addresses *)
Definition clean (a : bytes) : Prop := a ≠ [] ∧ Forall (λ c, is_sep c = false) a.
Fixpoint join_comma (l : list bytes) : bytes :=
  match l with
  | [] => []
  | [a] => a
  | a :: l => a ++ ","%char :: join_comma l
  end.

Lemma FieldsFunc_clean s cur : Forall (λ c, is_sep c = false) cur → Forall clean (FieldsFunc is_sep s cur).
Proof.
  assert (∀ cur, Forall (λ c, is_sep c = false) cur → Forall clean (if beq cur [] then [] else [cur])) as Hf.
  { intros k Hk. unfold beq. case_bool_decide; [constructor|]. by repeat constructor. }
  revert cur. induction s as [|c s IH]; intros cur Hc; cbn [FieldsFunc]; [by apply Hf|].
  destruct (is_sep c) eqn:Ec.
  - apply Forall_app. split; [by apply Hf|]. apply IH. constructor.
  - apply IH, Forall_app. split; [done|]. by constructor.
Qed.
Lemma FieldsFunc_word s cur a :
  Forall (λ c, is_sep c = false) a → FieldsFunc is_sep (a ++ s) cur = FieldsFunc is_sep s (cur ++ a).
Proof.
  intros Ha. revert cur. induction Ha as [|c a Hc Ha IH]; intros cur; cbn [app FieldsFunc]; [by rewrite app_nil_r|].
  rewrite Hc, IH. by rewrite <- app_assoc.
Qed.
Lemma FieldsFunc_join l : Forall clean l → FieldsFunc is_sep (join_comma l) [] = l.
Proof.
  assert (∀ a, clean a → (if beq a [] then [] else [a]) = [a]) as Hf.
  { intros a [Ha _]. unfold beq. by rewrite bool_decide_eq_false_2. }
  induction 1 as [|a l Ha Hl IH]; [done|]. cbn [join_comma]. destruct l as [|b l].
  - rewrite <- (app_nil_r a) at 1. rewrite FieldsFunc_word by apply Ha. cbn [FieldsFunc app]. by apply Hf.
  - rewrite FieldsFunc_word by apply Ha. cbn [FieldsFunc app]. change (is_sep ","%char) with true. cbv iota.
    rewrite IH, Hf by done. done.
Qed.
Lemma dedup_elem seen l x : x ∈ dedup seen l ↔ x ∈ l ∧ x ∉ seen.
Proof.
  revert seen. induction l as [|y l IH]; intros seen; cbn [dedup]; [set_solver|].
  case_bool_decide as Hy; rewrite ?elem_of_cons, ?IH, ?not_elem_of_cons.
  - split; [tauto|]. intros [[->|?] ?]; [done|tauto].
  - destruct (decide (x = y)) as [->|]; tauto.
Qed.
Lemma dedup_NoDup seen l : NoDup (dedup seen l).
Proof.
  revert seen. induction l as [|y l IH]; intros seen; cbn [dedup]; [constructor|].
  case_bool_decide; [apply IH|]. apply NoDup_cons. split; [|apply IH]. rewrite dedup_elem, not_elem_of_cons. tauto.
Qed.
Lemma dedup_id seen l : NoDup l → (∀ x, x ∈ l → x ∉ seen) → dedup seen l = l.
Proof.
  intros Hnd. revert seen. induction Hnd as [|y l Hy Hnd IH]; intros seen Hs; cbn [dedup]; [done|].
  rewrite bool_decide_eq_false_2 by (apply Hs; by left). f_equal. apply IH. intros x Hx.
  apply not_elem_of_cons. split; [by intros ->|]. apply Hs. by right.
Qed.
Lemma filter_clean l : Forall clean l → filter (λ p, p ≠ []) l = l.
Proof.
  induction 1 as [|a l [Ha _] _ IH]; [done|]. rewrite filter_cons, decide_True by done. by rewrite IH.
Qed.

(** The addresses of [ParseJoinAddrs] are distinct, not empty and free of
    separators, they are the parts of the text, and the list is a normal form:
    written with commas it is read back unchanged. *)
Theorem ParseJoinAddrs_normal raw :
  let l := ParseJoinAddrs raw in
  NoDup l ∧ Forall clean l ∧ (∀ a, a ∈ l ↔ a ∈ FieldsFunc is_sep raw []) ∧ ParseJoinAddrs (join_comma l) = l.
Proof.
  cbv zeta. pose proof (FieldsFunc_clean raw [] (Forall_nil_2 _)) as Hc. unfold ParseJoinAddrs.
  rewrite (filter_clean _ Hc). set (l := dedup [] _).
  assert (∀ a, a ∈ l ↔ a ∈ FieldsFunc is_sep raw []) as Hl.
  { intros a. unfold l. rewrite dedup_elem. split; [tauto|]. intros ?. split; [done|]. apply not_elem_of_nil. }
  assert (Forall clean l) as Hcl.
  { apply Forall_forall. intros a Ha. rewrite Forall_forall in Hc. by apply Hc, Hl. }
  split_and!; [apply dedup_NoDup|done|done|].
  rewrite FieldsFunc_join, filter_clean by done. apply dedup_id; [apply dedup_NoDup|]. intros x _. apply not_elem_of_nil.
Qed.

(** ** The file *)
Section file.
Context `{Host} (ParseIP : bytes → bool) (ParseDuration : bytes → Z + bytes).
Abbreviation parse := (Parse ParseIP ParseDuration).
Abbreviation setting := (parse_setting ParseIP ParseDuration).

(** The listening address is valid and the join addresses are those of the text. *)
Definition valid_config (c : Config) : Prop :=
  1024 < cfg_Port c < 65535 ∧ ParseIP (cfg_Host c) = true ∧ cfg_JoinAddrs c = ParseJoinAddrs (cfg_JoinAddr c).

(** [p] keeps valid configurations valid, whatever its outcome. *)
Definition keeps_valid (p : M Config (option bytes)) : Prop := ∀ c, valid_config c → valid_config (p c).2.

Lemma keeps_ret e : keeps_valid (mret e).
Proof. by intros c. Qed.
Lemma keeps_modify (f : Config → Config) : (∀ c, valid_config c → valid_config (f c)) → keeps_valid (modify f).
Proof. intros Hf c. apply Hf. Qed.
Lemma keeps_then f (q : M Config (option bytes)) :
  (∀ c, valid_config c → valid_config (f c)) → keeps_valid q → keeps_valid (modify f;; q).
Proof. intros Hf Hq c Hc. unfold mbind, M_bind. cbn. by apply Hq, Hf. Qed.
Lemma keeps_panic : keeps_valid mpanic.
Proof. by intros c. Qed.

(** Validity only mentions the address and the joins. *)
Lemma valid_same c d :
  cfg_Port c = cfg_Port d → cfg_Host c = cfg_Host d → cfg_JoinAddr c = cfg_JoinAddr d →
  cfg_JoinAddrs c = cfg_JoinAddrs d → valid_config c → valid_config d.
Proof. unfold valid_config. by intros -> -> -> ->. Qed.
Ltac same := let c := fresh "c" in let Hc := fresh "Hc" in intros c Hc; refine (valid_same c _ _ _ _ _ Hc); reflexivity.
Ltac keeps :=
  lazymatch goal with
  | |- keeps_valid (mret _) => apply keeps_ret
  | |- keeps_valid (fails _) => apply keeps_ret
  | |- keeps_valid mpanic => apply keeps_panic
  | |- keeps_valid (modify _) => apply keeps_modify; same
  | |- keeps_valid (modify _;; _) => apply keeps_then; [same|keeps]
  end.
Lemma keeps_set_bool set v : (∀ b c, valid_config c → valid_config (set b c)) → keeps_valid (set_bool set v).
Proof. intros Hs. unfold set_bool. destruct (ParseBool v); [apply keeps_modify, Hs|apply keeps_ret]. Qed.
Lemma keeps_set_int set v : (∀ n c, valid_config c → valid_config (set n c)) → keeps_valid (set_int set v).
Proof. intros Hs. unfold set_int. destruct (Atoi v); [apply keeps_modify, Hs|apply keeps_ret]. Qed.
Lemma keeps_duration set v :
  (∀ n c, valid_config c → valid_config (set n c)) → keeps_valid (overwrite_duration ParseDuration set v).
Proof.
  intros Hs. unfold overwrite_duration. destruct (ParseDuration v); [apply keeps_modify, Hs|].
  apply keeps_then; [apply Hs|apply keeps_ret].
Qed.

Lemma keeps_setting name v : keeps_valid (setting name v).
Proof.
  unfold parse_setting.
  repeat match goal with |- keeps_valid (if beq name _ then _ else _) => destruct (beq name _) end;
    try lazymatch goal with
        | |- keeps_valid (set_bool _ _) => apply keeps_set_bool; intro; same
        | |- keeps_valid (set_int _ _) => apply keeps_set_int; intro; same
        | |- keeps_valid (overwrite_duration _ _ _) => apply keeps_duration; intro; same
        | |- _ => keeps
        end.
  - destruct (ParseIP v) eqn:Ev; [|by intros c]. apply keeps_modify. intros c (? & _ & ?). done.
  - destruct (Atoi v) as [port|e]; [|keeps]. destruct ((port <=? 1024) || (65535 <=? port)) eqn:Ep; [keeps|].
    apply keeps_modify. intros c (_ & ? & ?). split; [cbn; lia|done].
  - destruct (Atoi v); keeps.
  - apply keeps_modify. intros c (? & ? & _). done.
  - destruct (Atoi v); keeps.
  - destruct (ParseUint v); keeps.
Qed.
Lemma keeps_line l : keeps_valid (parse_line ParseIP ParseDuration l).
Proof.
  unfold parse_line. destruct (HasPrefix l _); [apply keeps_ret|].
  destruct (Fields l) as [|name [|v ?]]; [apply keeps_ret..|apply keeps_setting].
Qed.
Lemma keeps_lines ls : keeps_valid (parse_lines ParseIP ParseDuration ls).
Proof.
  induction ls as [|l ls IH]; cbn [parse_lines]; [apply keeps_ret|]. intros c Hc. pose proof (keeps_line l c Hc) as Hl.
  unfold mbind, M_bind. destruct (parse_line _ _ l c) as [[[e|]| | |] c']; try done. by apply IH.
Qed.

(** C25: Reading a configuration file, to its end or to the first error (of opening or
    reading it, or of a setting, even to a panic), leaves the port between 1025 and 65534, the host an IP address and the
    join addresses in step with their text. *)
Theorem Parse_valid contents c :
  valid_config c → valid_config (parse contents c).2.
Proof.
  intros Hc. destruct contents as [[contents [ioErr|]]|err]; [|by apply keeps_lines|done]. cbn [Parse].
  pose proof (keeps_lines (removelast (lines contents [])) c Hc) as Hl. unfold mbind, M_bind.
  by destruct (parse_lines _ _ _ c) as [[]].
Qed.

(** Files one after the other. *)
Lemma parse_lines_app l1 l2 c :
  parse_lines ParseIP ParseDuration (l1 ++ l2) c =
    (e ← parse_lines ParseIP ParseDuration l1;
     match e with Some err => mret (Some err) | None => parse_lines ParseIP ParseDuration l2 end) c.
Proof.
  revert c. induction l1 as [|l l1 IH]; intros c; cbn [app parse_lines]; [done|]. rewrite bind_assoc.
  unfold mbind at 1 2, M_bind at 1 2. destruct (parse_line _ _ l c) as [[[e|]| | |] c']; done.
Qed.
Lemma lines_app a b cur :
  ∃ ls, lines ((a ++ [LF]) ++ b) cur = ls ++ lines b [] ∧ lines (a ++ [LF]) cur = ls ++ [[]].
Proof.
  revert cur. induction a as [|c a IH]; intros cur; cbn [app lines].
  { exists [cur ++ [LF]]. done. }
  case_bool_decide.
  - destruct (IH []) as (ls & E1 & E2). exists ((cur ++ [c]) :: ls). by rewrite E1, E2.
  - apply IH.
Qed.

(** A file is read line by line: what two files set one after the other, their
    concatenation sets, and nothing after the first error is read. *)
Theorem Parse_concat a b c :
  parse (inl ((a ++ [LF]) ++ b, None)) c =
    (e ← parse (inl (a ++ [LF], None)); match e with Some err => mret (Some err) | None => parse (inl (b, None)) end) c.
Proof.
  cbn [Parse]. destruct (lines_app a b []) as (ls & -> & ->). rewrite parse_lines_app.
  unfold mbind, M_bind. rewrite parse_lines_app. unfold mbind, M_bind. destruct (parse_lines _ _ ls c) as [[[e|]| | |] c']; done.
Qed.

(** ** The port *)
Lemma fields_word w s cur fuel :
  forallb solid w = true → (length w <= fuel)%nat →
  fields_loop fuel (w ++ s) cur = fields_loop (fuel - length w) s (cur ++ w).
Proof.
  revert cur fuel. induction w as [|c w IH]; intros cur fuel Hw Hf; [by rewrite Nat.sub_0_r, app_nil_r|].
  destruct fuel as [|fuel]; [cbn in Hf; lia|]. cbn [forallb] in Hw. apply andb_true_iff in Hw as [Hc Hw].
  cbn [app fields_loop]. rewrite solid_after_space by done. cbn in Hf. rewrite IH by (done || lia). by rewrite <- app_assoc.
Qed.
Lemma Fields_two w1 w2 :
  forallb solid w1 = true → forallb solid w2 = true → w1 ≠ [] → w2 ≠ [] →
  Fields (w1 ++ " "%char :: w2 ++ [LF]) = [w1; w2].
Proof.
  intros H1 H2 N1 N2. unfold Fields. rewrite fields_word by (done || (rewrite length_app; lia)).
  rewrite length_app. cbn [length]. replace (length w1 + S (length (w2 ++ [LF])) - length w1)%nat with (S (length (w2 ++ [LF]))) by lia.
  cbn [app fields_loop]. change (after_space (" "%char :: w2 ++ [LF])) with (Some (w2 ++ [LF])). cbv iota.
  unfold beq at 1. rewrite bool_decide_eq_false_2 by done. cbn [app]. f_equal.
  rewrite fields_word by (done || (rewrite length_app; lia)). rewrite length_app, Nat.add_sub_swap, Nat.sub_diag by lia. cbn.
  unfold beq. rewrite bool_decide_eq_false_2 by done. done.
Qed.
Lemma solid_FormatInt n : forallb solid (FormatInt n) = true.
Proof.
  assert (∀ m, 0 <= m → forallb solid (format_uint m) = true) as Hu.
  { intros m Hm. apply forallb_forall. intros x Hx%list_elem_of_In. pose proof (format_uint_digits m Hm) as Hd.
    rewrite Forall_forall in Hd. specialize (Hd x Hx). unfold is_digit in Hd. unfold solid, ascii_space. lia. }
  unfold FormatInt. destruct (Z.ltb_spec n 0); [cbn [forallb]; rewrite Hu by lia; done|]. apply Hu. lia.
Qed.
Lemma FormatInt_ne n : FormatInt n ≠ [].
Proof.
  unfold FormatInt. destruct (Z.ltb_spec n 0) as [Hn|Hn]; [done|]. destruct (format_uint_cons n) as (c & s & -> & _); [lia|done].
Qed.

Lemma lines_one s cur : LF ∉ s → lines (s ++ [LF]) cur = [cur ++ s ++ [LF]; []].
Proof.
  revert cur. induction s as [|x s IH]; intros cur Hs; cbn [app lines]; [done|]. apply not_elem_of_cons in Hs as [Hx Hs].
  rewrite bool_decide_eq_false_2 by congruence. rewrite IH by done. by rewrite <- app_assoc.
Qed.
Definition port_line (n : Z) : bytes := lit "port" ++ " "%char :: FormatInt n.
Definition port_error (n : Z) : bytes :=
  lit "Listening port should be between 1024 and 65535, but " ++ FormatInt n ++ lit " is given.".
Lemma port_line_LF n : LF ∉ port_line n.
Proof.
  unfold port_line. rewrite elem_of_app, elem_of_cons. intros [Hin|[Hin|Hin]]; [|done|by apply FormatInt_no_LF in Hin].
  revert Hin. by apply (bool_decide_unpack (LF ∉ lit "port")).
Qed.
Lemma parse_port_line n c :
  in_int64 n →
  parse_line ParseIP ParseDuration (port_line n ++ [LF]) c =
    if (1024 <? n) && (n <? 65535) then (Ret None, set_Port n c) else (Ret (Some (port_error n)), c).
Proof.
  intros Hn. unfold parse_line. change (HasPrefix (port_line n ++ [LF]) (lit "#")) with false. cbv iota.
  assert (Fields (port_line n ++ [LF]) = [lit "port"; FormatInt n]) as ->.
  { apply (Fields_two (lit "port") (FormatInt n)); [done|apply solid_FormatInt|done|apply FormatInt_ne]. }
  change (ToLower (lit "port")) with (lit "port"). unfold parse_setting. cbv zeta.
  change (beq (lit "port") (lit "host")) with false. change (beq (lit "port") (lit "port")) with true. cbv iota.
  unfold Atoi. rewrite ParseInt_FormatInt by done.
  destruct (Z.leb_spec n 1024), (Z.leb_spec 65535 n), (Z.ltb_spec 1024 n), (Z.ltb_spec n 65535); try lia; done.
Qed.

(** The line [port n] sets the port exactly when it lies strictly between 1024 and
    65535; otherwise the configuration stays as it was and the error names [n]. *)
Theorem Parse_port n c :
  in_int64 n →
  parse (inl (port_line n ++ [LF], None)) c =
    if (1024 <? n) && (n <? 65535) then (Ret None, set_Port n c) else (Ret (Some (port_error n)), c).
Proof.
  intros Hn. cbn [Parse]. rewrite lines_one by apply port_line_LF. cbn [app parse_lines].
  unfold mbind, M_bind. rewrite parse_port_line by done. by destruct (_ && _).
Qed.
End file.

(** ** The configuration file of the command line *)
Lemma flag_cases {A} (get : string → A + bytes) name k cfg :
  flag get name k = inl cfg → ∃ x, k x = inl cfg.
Proof. unfold flag. destruct (get name); [eauto|done]. Qed.
Lemma Setup_no_file f cfg : Setup f = inl cfg → cfg_ConfFile cfg = [].
Proof.
  unfold Setup. intros E. repeat (apply flag_cases in E as [? E]). by injection E as <-.
Qed.

(** The flag for the configuration file has no effect: whatever the flags say, the
    node starts with the configuration of [Setup], and no file is read. *)
Theorem runNode_ignores_config_file `{Host} ParseIP ParseDuration f open :
  runNode ParseIP ParseDuration f open = Ret (Setup f).
Proof.
  unfold runNode. destruct (Setup f) as [cfg|err] eqn:E; [|done]. by rewrite (Setup_no_file f cfg E).
Qed.

(** ** Concrete configurations *)
#[local] Existing Instance demo_host.
Definition demo_ip (s : bytes) : bool := bool_decide (s ∈ lit <$> ["0.0.0.0"; "127.0.0.1"]%string).
Definition demo_duration (s : bytes) : Z + bytes := inr (lit "time: invalid duration").
Definition demo_file : bytes :=
  lit "# node" ++ [LF] ++ lit "host 127.0.0.1" ++ [LF] ++ lit "raftjoin a:1,b:2,a:1" ++ [LF] ++ lit "port 80" ++ [LF].

Lemma Parse_valid_witness :
  valid_config demo_ip (Parse demo_ip demo_duration (inl (demo_file, None)) NewDefaultConfig).2 ∧
  cfg_JoinAddrs (Parse demo_ip demo_duration (inl (demo_file, None)) NewDefaultConfig).2 = [lit "a:1"; lit "b:2"].
Proof.
  split; [|vm_compute; reflexivity]. apply (Parse_valid demo_ip demo_duration (inl (demo_file, None)) NewDefaultConfig).
  split; [cbn; unfold DefaultPort; lia|]. split; [vm_compute; reflexivity|reflexivity].
Defined.
Lemma Parse_port_witness :
  Parse demo_ip demo_duration (inl (lit "port 7000" ++ [LF], None)) NewDefaultConfig = (Ret None, set_Port 7000 NewDefaultConfig).
Proof.
  apply (Parse_port demo_ip demo_duration 7000 NewDefaultConfig). unfold in_int64, MinInt64, MaxInt64. lia.
Defined.
