(* ===== verification/Logger.v ===== *)
(** * Logging

    [src/pkg/logger/logger.go]: the level of the configuration, the handlers a record
    passes through (text on standard output, JSON in a file, fan-out, sampling), the
    global logger with its file, and the functions of the package.

    The package [log/slog] is modelled as far as the source relies on it: a logger
    passes a record to its handler when the handler is enabled for the level; a text
    or JSON handler is enabled from its level on and writes one entry.  The layout of
    an entry is left out.  Times are nanoseconds; the directory and the file are
    parameters.  The loggers derived by [With], one per connection, are part of the
    state: they keep the file of the moment they were made. *)

From Stdlib Require Import Ascii String ZArith Lia.
From stdpp Require Import prelude gmap list fin_maps.
From S2P Require Import Prelude Text Config.
Open Scope Z_scope.

(** ** Levels *)
Definition LevelDebug : Z := -4.
Definition LevelInfo : Z := 0.
Definition LevelWarn : Z := 4.
Definition LevelError : Z := 8.

Definition parseLevel `{Host} (lvl : bytes) : Z :=
  let l := ToLower lvl in
  let named s := beq l (lit s) in
  if named "debug"%string then LevelDebug
  else if named "info"%string then LevelInfo
  else if named "warning"%string || named "warn"%string then LevelWarn
  else if named "error"%string then LevelError
  else if named "panic"%string || named "fatal"%string then LevelError
  else LevelInfo.

(** ** Records and entries *)
Definition attr : Type := bytes * bytes.
Record record := mkRecord { rec_Level : Z; rec_Message : bytes; rec_Attrs : list attr }.

(** Where a handler writes: standard output, a log file, nowhere, or the handler the
    process starts with. *)
Inductive sink := Stdout | File (fd : nat) | Discard | StdLog.
#[export] Instance sink_eq_dec : EqDecision sink.
Proof. solve_decision. Defined.
Record entry := mkEntry { e_sink : sink; e_level : Z; e_message : bytes; e_attrs : list attr }.

(** [ReplaceAttr] of the text handler: the node goes into the message instead of an
    attribute; the empty attribute is dropped. *)
Definition replaceAttr (nodeID : bytes) (a : attr) : option attr :=
  if beq a.1 (lit "node_id") then None
  else if beq a.1 (lit "msg") then
    Some (a.1, if beq a.2 [] then lit "node=" ++ nodeID else lit "node=" ++ nodeID ++ lit " " ++ a.2)
  else Some a.

(** ** Handlers *)
Record samplingState := mkSample { windowStart : Z; sample_count : Z }.

Record sampler := mkSampler {
  s_interval : Z;
  s_initial : Z;
  s_thereafter : Z;
  statPerKey : gmap bytes samplingState;
}.

(** A handler of [slog] with its level, the node its [ReplaceAttr] names and its
    attributes and groups; the fan-out; the sampling of another handler. *)
Inductive handler :=
| slogHandler (out : sink) (level : Z) (node : option bytes) (attrs : list attr) (groups : list bytes)
| multiHandler (handlers : list handler)
| samplingHandler (next : handler) (s : sampler).

Definition multiHandlerFrom (handlers : list handler) : handler :=
  match handlers with
  | [] => slogHandler Stdout LevelInfo None [] []
  | [h] => h
  | _ => multiHandler handlers
  end.

Definition newSamplingHandler (next : handler) (interval initial thereafter : Z) : handler :=
  if (interval <=? 0) || (initial <=? 0) || (thereafter <=? 0) then next
  else samplingHandler next (mkSampler interval initial thereafter ∅).

Fixpoint Enabled (h : handler) (level : Z) : bool :=
  match h with
  | slogHandler _ min _ _ _ => min <=? level
  | multiHandler hs => existsb (λ h, Enabled h level) hs
  | samplingHandler next _ => Enabled next level
  end.

Definition restart_sampler (s : sampler) : sampler := mkSampler (s_interval s) (s_initial s) (s_thereafter s) ∅.
Fixpoint WithAttrs (attrs : list attr) (h : handler) : handler :=
  match h with
  | slogHandler out level node as_ gs => slogHandler out level node (as_ ++ attrs) gs
  | multiHandler hs => multiHandler (map (WithAttrs attrs) hs)
  | samplingHandler next s => samplingHandler (WithAttrs attrs next) (restart_sampler s)
  end.
Fixpoint WithGroup (name : bytes) (h : handler) : handler :=
  match h with
  | slogHandler out level node as_ gs => slogHandler out level node as_ (gs ++ [name])
  | multiHandler hs => multiHandler (map (WithGroup name) hs)
  | samplingHandler next s => samplingHandler (WithGroup name next) (restart_sampler s)
  end.

(** [fmt.Sprintf("%d:%s", record.Level, record.Message)] *)
Definition sample_key (r : record) : bytes := FormatInt (rec_Level r) ++ ":"%char :: rec_Message r.

Definition set_stat (x : gmap bytes samplingState) (s : sampler) : sampler :=
  mkSampler (s_interval s) (s_initial s) (s_thereafter s) x.

(** [shouldLog] at the time [now]. *)
Definition shouldLog (now : Z) (r : record) (s : sampler) : bool * sampler :=
  let key := sample_key r in
  let fresh := (true, set_stat (<[key := mkSample now 1]> (statPerKey s)) s) in
  match statPerKey s !! key with
  | None => fresh
  | Some state =>
      if s_interval s <=? now - windowStart state then fresh
      else
        let count := int64 (sample_count state + 1) in
        let s' := set_stat (<[key := mkSample (windowStart state) count]> (statPerKey s)) s in
        if count <=? s_initial s then (true, s')
        else if Z.rem (int64 (count - s_initial s)) (s_thereafter s) =? 0 then (true, s') else (false, s')
  end.

(** What a handler did with a record: the handler afterwards, the entries it wrote
    and its error. *)
Record handled := mkHandled { h_next : handler; h_entries : list entry; h_error : option bytes }.

Section handle.
Variable write : sink → option bytes.   (* the error of writing an entry *)
Variable now : Z.

Definition slog_entry (out : sink) (node : option bytes) (attrs : list attr) (r : record) : entry :=
  let all := attrs ++ rec_Attrs r in
  match node with
  | None => mkEntry out (rec_Level r) (rec_Message r) all
  | Some id =>
      mkEntry out (rec_Level r) (from_option snd [] (replaceAttr id (lit "msg", rec_Message r))) (omap (replaceAttr id) all)
  end.

(** Every handler of a fan-out gets the record; the first error is the result. *)
Fixpoint Handle_record (r : record) (h : handler) : handled :=
  match h with
  | slogHandler out level node attrs groups => mkHandled h [slog_entry out node attrs r] (write out)
  | multiHandler hs =>
      let rs := map (Handle_record r) hs in
      mkHandled (multiHandler (map h_next rs)) (concat (map h_entries rs)) (List.hd_error (omap h_error rs))
  | samplingHandler next s =>
      let '(ok, s') := shouldLog now r s in
      if ok then let res := Handle_record r next in mkHandled (samplingHandler (h_next res) s') (h_entries res) (h_error res)
      else mkHandled (samplingHandler next s') [] None
  end.

(** [Logger.Log]; the error is dropped. *)
Definition Log (r : record) (h : handler) : handler * list entry :=
  if Enabled h (rec_Level r) then let res := Handle_record r h in (h_next res, h_entries res) else (h, []).
End handle.

(** ** Building a logger *)
(** The results of creating the log directory and of opening the file: the
    descriptor, or the text of an error. *)
Section build.
Context `{Host}.
Variable MkdirAll : bytes → option bytes.
Variable OpenFile : bytes → nat + bytes.

Definition text_handler (cfg : Config) : handler :=
  let nodeID := TrimSpace (cfg_NodeID cfg) in
  slogHandler Stdout (parseLevel (cfg_LogLevel cfg)) (if beq nodeID [] then None else Some nodeID) [] [].

Definition finish_logger (cfg : Config) (handlers : list handler) : handler :=
  let nodeID := TrimSpace (cfg_NodeID cfg) in
  let h := multiHandlerFrom handlers in
  let h := if cfg_LogSamplingEnabled cfg
           then newSamplingHandler h (cfg_LogSamplingInterval cfg) (cfg_LogSamplingInitial cfg) (cfg_LogSamplingThereafter cfg)
           else h in
  if beq nodeID [] then h else WithAttrs [(lit "node_id", nodeID)] h.

Definition buildLogger (cfg : Config) : (handler * option nat) + bytes :=
  if beq (cfg_LogDir cfg) [] then inl (finish_logger cfg [text_handler cfg], None)
  else
    match MkdirAll (cfg_LogDir cfg) with
    | Some err => inr (lit "failed to create log directory: " ++ err)
    | None =>
        match OpenFile (cfg_LogDir cfg) with   (* the file redis.log of the directory *)
        | inr err => inr (lit "failed to open log file: " ++ err)
        | inl f =>
            inl (finish_logger cfg [text_handler cfg; slogHandler (File f) (parseLevel (cfg_LogLevel cfg)) None [] []], Some f)
        end
    end.
End build.

(** ** The global logger *)
(** The logger and its file; the files the package has opened, and those it has not closed
    again; the loggers derived by [With]; and what was written.  A file is its [os.File],
    so a file that was closed never comes back. *)
Record Logging := mkLogging {
  lg_logger : option handler;
  lg_file : option nat;
  lg_used : gset nat;
  lg_open : gset nat;
  lg_derived : list handler;
  lg_out : list entry;
}.

Definition close_file (s : Logging) : Logging :=
  match lg_file s with
  | Some f => mkLogging (lg_logger s) None (lg_used s) (lg_open s ∖ {[ f ]}) (lg_derived s) (lg_out s)
  | None => s
  end.
(** Writing to a closed file fails, and [slog] drops the error. *)
Definition reaches (s : Logging) (e : entry) : bool :=
  match e_sink e with File fd => bool_decide (fd ∈ lg_open s) | _ => true end.
Definition emit_entries (out : list entry) (s : Logging) : list entry := lg_out s ++ List.filter (reaches s) out.

Section global.
Context `{Host}.
Variable MkdirAll : bytes → option bytes.
Variable OpenFile : gset nat → bytes → nat + bytes.   (* the files opened so far, the path *)

Definition SetUp (cfg : Config) : M Logging (option bytes) := λ s,
  match buildLogger MkdirAll (OpenFile (lg_used s)) cfg with
  | inr err => (Ret (Some err), s)
  | inl (newLogger, file) =>
      let opened := from_option (λ f, {[ f ]}) ∅ file in
      let s := mkLogging (lg_logger s) (lg_file s) (opened ∪ lg_used s) (opened ∪ lg_open s) (lg_derived s) (lg_out s) in
      let s := close_file s in
      (Ret None, mkLogging (Some newLogger) file (lg_used s) (lg_open s) (lg_derived s) (lg_out s))
  end.

Definition Disable : M Logging unit := λ s,
  let s := mkLogging (Some (slogHandler Discard LevelInfo None [] [])) (lg_file s) (lg_used s) (lg_open s) (lg_derived s) (lg_out s) in
  (Ret tt, close_file s).

Variable Sync_file : nat → option bytes.
Definition Sync : M Logging (option bytes) := λ s, (Ret (lg_file s ≫= Sync_file), s).

(** The logger of the process before [SetUp]. *)
Definition slog_Default : handler := slogHandler StdLog LevelInfo None [] [].
Definition getLogger (s : Logging) : handler := default slog_Default (lg_logger s).

Variable write : sink → option bytes.
Definition logAttrs (now level : Z) (msg : bytes) (attrs : list attr) : M Logging unit := λ s,
  let '(h, out) := Log write now (mkRecord level msg attrs) (getLogger s) in
  (Ret tt, mkLogging (match lg_logger s with Some _ => Some h | None => None end) (lg_file s) (lg_used s) (lg_open s) (lg_derived s)
             (emit_entries out s)).

(** [With] and [WithValues] for at least one attribute: a logger of its own, which keeps
    the handlers of the moment.  The result is its place among the derived loggers. *)
Definition With (a : attr) (attrs : list attr) : M Logging nat := λ s,
  (Ret (length (lg_derived s)),
   mkLogging (lg_logger s) (lg_file s) (lg_used s) (lg_open s) (lg_derived s ++ [WithAttrs (a :: attrs) (getLogger s)]) (lg_out s)).
(** Logging with a derived logger. *)
Definition log_derived (i : nat) (now level : Z) (msg : bytes) (attrs : list attr) : M Logging unit := λ s,
  match lg_derived s !! i with
  | None => (Ret tt, s)
  | Some l =>
      let '(h, out) := Log write now (mkRecord level msg attrs) l in
      (Ret tt, mkLogging (lg_logger s) (lg_file s) (lg_used s) (lg_open s) (<[i := h]> (lg_derived s)) (emit_entries out s))
  end.
Definition logMessage (now level : Z) (msg : bytes) : M Logging unit := logAttrs now level msg [].

Definition Debug (now : Z) (msg : bytes) : M Logging unit := logMessage now LevelDebug msg.
Definition Info (now : Z) (msg : bytes) : M Logging unit := logMessage now LevelInfo msg.
Definition Warning (now : Z) (msg : bytes) : M Logging unit := logMessage now LevelWarn msg.
Definition Error (now : Z) (msg : bytes) : M Logging unit := logMessage now LevelError msg.
(** [os.Exit(1)] *)
Definition os_Exit : M Logging unit := λ s, (Fatals, s).
Definition Panic (now : Z) (msg : bytes) : M Logging unit := logMessage now LevelError msg;; mpanic.
Definition Fatal (now : Z) (msg : bytes) : M Logging unit := logMessage now LevelError msg;; os_Exit.
Definition DebugWithFields (now : Z) (msg : bytes) (attrs : list attr) : M Logging unit := logAttrs now LevelDebug msg attrs.
Definition InfoWithFields (now : Z) (msg : bytes) (attrs : list attr) : M Logging unit := logAttrs now LevelInfo msg attrs.
Definition WarnWithFields (now : Z) (msg : bytes) (attrs : list attr) : M Logging unit := logAttrs now LevelWarn msg attrs.
Definition ErrorWithFields (now : Z) (msg : bytes) (attrs : list attr) : M Logging unit := logAttrs now LevelError msg attrs.
Definition PanicWithFields (now : Z) (msg : bytes) (attrs : list attr) : M Logging unit := logAttrs now LevelError msg attrs;; mpanic.
Definition FatalWithFields (now : Z) (msg : bytes) (attrs : list attr) : M Logging unit :=
  logAttrs now LevelError msg attrs;; os_Exit.
End global.

(** ** Sampling *)
Definition positive (s : sampler) : Prop := 0 < s_interval s ∧ 0 < s_initial s ∧ 0 < s_thereafter s.

(** The decisions on the records with the key [key], among records at their times. *)
Fixpoint flags (key : bytes) (rs : list (Z * record)) (s : sampler) : list bool :=
  match rs with
  | [] => []
  | (t, r) :: rs =>
      let '(b, s') := shouldLog t r s in
      if bool_decide (sample_key r = key) then b :: flags key rs s' else flags key rs s'
  end.
Definition occurrences (key : bytes) (rs : list (Z * record)) : nat :=
  length (filter (λ tr, sample_key tr.2 = key) rs).
(** The [k]th record of a window is kept: the first ones, then every so many. *)
Definition kept (s : sampler) (k : nat) : bool :=
  (Z.of_nat k <=? s_initial s) || ((Z.of_nat k - s_initial s) mod s_thereafter s =? 0).

Lemma shouldLog_params t r s :
  let s' := (shouldLog t r s).2 in
  s_interval s' = s_interval s ∧ s_initial s' = s_initial s ∧ s_thereafter s' = s_thereafter s.
Proof. unfold shouldLog. repeat case_match; done. Qed.
Lemma shouldLog_other t r s key :
  sample_key r ≠ key → statPerKey (shouldLog t r s).2 !! key = statPerKey s !! key.
Proof. intros Hk. unfold shouldLog. repeat case_match; cbn; by rewrite lookup_insert_ne. Qed.
Lemma kept_params s s' :
  s_initial s' = s_initial s → s_thereafter s' = s_thereafter s → kept s' = kept s.
Proof. intros E1 E2. unfold kept. by rewrite E1, E2. Qed.
Lemma positive_params t r s : positive s → positive (shouldLog t r s).2.
Proof. unfold positive. by destruct (shouldLog_params t r s) as (-> & -> & ->). Qed.

(** The next record of a window that holds [c] records. *)
Lemma shouldLog_next t r s t1 c :
  positive s → statPerKey s !! sample_key r = Some (mkSample t1 (Z.of_nat c)) → t - t1 < s_interval s →
  in_int64 (Z.of_nat (S c)) → in_int64 (s_initial s) →
  shouldLog t r s =
    (kept s (S c), set_stat (<[sample_key r := mkSample t1 (Z.of_nat (S c))]> (statPerKey s)) s).
Proof.
  intros (Hi & Hn & Ht) E Hw Hc Hin. unfold shouldLog. rewrite E. cbn [windowStart sample_count].
  rewrite (proj2 (Z.leb_gt _ _)) by lia. replace (Z.of_nat c + 1) with (Z.of_nat (S c)) by lia.
  rewrite int64_id by done. unfold kept. destruct (Z.leb_spec (Z.of_nat (S c)) (s_initial s)) as [Hle|Hgt]; [done|].
  rewrite int64_id by (unfold in_int64, MinInt64, MaxInt64 in *; lia). rewrite Z.rem_mod_nonneg by lia. cbn [orb].
  by destruct (_ =? 0).
Qed.
Lemma flags_window key t1 rs s c :
  positive s → in_int64 (s_initial s) → statPerKey s !! key = Some (mkSample t1 (Z.of_nat c)) →
  (∀ t r, (t, r) ∈ rs → sample_key r = key → t - t1 < s_interval s) →
  in_int64 (Z.of_nat (c + occurrences key rs)) →
  flags key rs s = kept s <$> seq (S c) (occurrences key rs).
Proof.
  revert s c. induction rs as [|[t r] rs IH]; intros s c Hp Hin E Ht Hc; [done|]. unfold occurrences in *.
  cbn [flags]. rewrite filter_cons in Hc |- *. cbn [snd] in Hc |- *. case_bool_decide as Hk.
  - rewrite decide_True in Hc |- * by done. cbn [length] in Hc |- *. cbn [seq fmap list_fmap]. subst key.
    rewrite (shouldLog_next t r s t1 c); [|done|done| |unfold in_int64, MinInt64, MaxInt64 in *; lia|done].
    2:{ apply (Ht t r); [by left|done]. }
    f_equal. rewrite (IH _ (S c)); [done|done|done|cbn; apply lookup_insert_eq| |unfold in_int64 in *; lia].
    intros t' r' Hr. apply Ht. by right.
  - rewrite decide_False in Hc |- * by done. destruct (shouldLog t r s) as [b s'] eqn:Es.
    pose proof (shouldLog_params t r s) as (Hi1 & Hi2 & Hi3). rewrite Es in Hi1, Hi2, Hi3. cbn in Hi1, Hi2, Hi3.
    rewrite (IH s' c); [by rewrite (kept_params s s')| | | |intros t' r' Hr; rewrite Hi1; apply Ht; by right|done].
    + pose proof (positive_params t r s Hp) as Hp'. by rewrite Es in Hp'.
    + by rewrite Hi2.
    + pose proof (shouldLog_other t r s key Hk) as Ho. rewrite Es in Ho. cbn in Ho. by rewrite Ho.
Qed.

(** The key has no window at the time [t0], or its window is over. *)
Definition no_window (key : bytes) (t0 : Z) (s : sampler) : Prop :=
  from_option (λ st, s_interval s <= t0 - windowStart st) True (statPerKey s !! key).

Lemma shouldLog_first t r s t0 :
  no_window (sample_key r) t0 s → t0 <= t →
  shouldLog t r s = (true, set_stat (<[sample_key r := mkSample t 1]> (statPerKey s)) s).
Proof.
  unfold no_window, shouldLog. destruct (statPerKey s !! sample_key r) as [st|]; [|done]. cbn. intros Hw Ht.
  by rewrite (proj2 (Z.leb_le _ _)) by lia.
Qed.
Lemma flags_first key t0 rs s :
  positive s → in_int64 (s_initial s) → no_window key t0 s →
  (∀ t r, (t, r) ∈ rs → sample_key r = key → t0 <= t < t0 + s_interval s) →
  in_int64 (Z.of_nat (occurrences key rs)) →
  flags key rs s = kept s <$> seq 1 (occurrences key rs).
Proof.
  revert s. induction rs as [|[t r] rs IH]; intros s Hp Hin Hw Ht Hc; [done|]. unfold occurrences in *.
  cbn [flags]. rewrite filter_cons in Hc |- *. cbn [snd] in Hc |- *. case_bool_decide as Hk.
  - rewrite decide_True in Hc |- * by done. cbn [length] in Hc |- *. cbn [seq fmap list_fmap]. subst key.
    pose proof (Ht t r (list_elem_of_here _ _) eq_refl) as Ht0. rewrite (shouldLog_first t r s t0) by (done || lia).
    assert (kept s 1 = true) as ->.
    { unfold kept. destruct Hp as (_ & ? & _). by destruct (Z.leb_spec (Z.of_nat 1) (s_initial s)); [|lia]. }
    f_equal. rewrite (flags_window _ t _ _ 1); [done|done|done|cbn; apply lookup_insert_eq| |unfold occurrences; done].
    intros t' r' Hr Hk. cbn. specialize (Ht t' r' (list_elem_of_further _ _ _ Hr) Hk). lia.
  - rewrite decide_False in Hc |- * by done. destruct (shouldLog t r s) as [b s'] eqn:Es.
    pose proof (shouldLog_params t r s) as (Hi1 & Hi2 & Hi3). rewrite Es in Hi1, Hi2, Hi3. cbn in Hi1, Hi2, Hi3.
    rewrite (IH s'); [by rewrite (kept_params s s')| | | |intros t' r' Hr; rewrite Hi1; apply Ht; by right|done].
    + pose proof (positive_params t r s Hp) as Hp'. by rewrite Es in Hp'.
    + by rewrite Hi2.
    + pose proof (shouldLog_other t r s key Hk) as Ho. rewrite Es in Ho. cbn in Ho. unfold no_window. by rewrite Ho, Hi1.
Qed.

(** How many are kept. *)
Definition trues (l : list bool) : nat := length (filter (λ b, b = true) l).
Lemma trues_snoc l b : Z.of_nat (trues (l ++ [b])) = Z.of_nat (trues l) + Z.b2z b.
Proof. unfold trues. rewrite filter_app, length_app, filter_cons. destruct b; case_decide; try done; cbn; lia. Qed.
Lemma div_next m t : 0 <= m → 0 < t → (m + 1) / t = m / t + Z.b2z ((m + 1) mod t =? 0).
Proof.
  intros Hm Ht. pose proof (Z.div_mod m t ltac:(lia)) as E1. pose proof (Z.mod_pos_bound m t Ht) as B1.
  pose proof (Z.div_mod (m + 1) t ltac:(lia)) as E2. pose proof (Z.mod_pos_bound (m + 1) t Ht) as B2.
  set (q := m / t) in *. set (q' := (m + 1) / t) in *.
  destruct (Z.eqb_spec ((m + 1) mod t) 0) as [E|E]; cbn [Z.b2z]; nia.
Qed.
Lemma trues_kept s n :
  positive s →
  Z.of_nat (trues (kept s <$> seq 1 n)) =
    Z.min (Z.of_nat n) (s_initial s) + Z.max 0 (Z.of_nat n - s_initial s) / s_thereafter s.
Proof.
  intros (_ & Hi & Ht). induction n as [|n IH].
  { cbn. rewrite Z.max_l, Z.div_0_l by lia. lia. }
  rewrite seq_S, fmap_app. cbn [fmap list_fmap]. rewrite trues_snoc, IH. unfold kept.
  replace (1 + n)%nat with (S n) by done. rewrite !Nat2Z.inj_succ.
  destruct (Z.leb_spec (Z.succ (Z.of_nat n)) (s_initial s)) as [Hle|Hgt]; cbn [orb Z.b2z].
  - rewrite !Z.max_l by lia. lia.
  - rewrite !Z.max_r, !Z.min_r by lia.
    replace (Z.succ (Z.of_nat n) - s_initial s) with (Z.of_nat n - s_initial s + 1) by lia.
    rewrite div_next by lia. lia.
Qed.

(** C27: Sampling, exactly.  Of the records with one level and message that fall into
    one window, among any other records, the first [initial] are written and then
    every [thereafter]th: of [n] records, the smaller of [n] and [initial], and one
    more for each full group of [thereafter] beyond. *)
Theorem Sampling_exact key t0 rs s :
  positive s → in_int64 (s_initial s) → no_window key t0 s →
  (∀ t r, (t, r) ∈ rs → sample_key r = key → t0 <= t < t0 + s_interval s) →
  in_int64 (Z.of_nat (occurrences key rs)) →
  flags key rs s = kept s <$> seq 1 (occurrences key rs) ∧
  Z.of_nat (trues (flags key rs s)) =
    Z.min (Z.of_nat (occurrences key rs)) (s_initial s) +
    Z.max 0 (Z.of_nat (occurrences key rs) - s_initial s) / s_thereafter s.
Proof.
  intros Hp Hin Hw Ht Hc. rewrite (flags_first key t0 rs s) by done. split; [done|]. by apply trues_kept.
Qed.

(** Records with different levels or messages are counted apart. *)
Lemma split_unique {A} (c : A) x y x' y' : c ∉ x → c ∉ x' → x ++ c :: y = x' ++ c :: y' → x = x' ∧ y = y'.
Proof.
  revert x'. induction x as [|a x IH]; intros [|a' x'] Hx Hx' E; cbn in E.
  - by injection E.
  - injection E as <- _. by destruct Hx'; left.
  - injection E as -> _. by destruct Hx; left.
  - injection E as -> E. rewrite not_elem_of_cons in Hx, Hx'. destruct (IH x') as [-> ->]; tauto.
Qed.
Lemma sample_key_inj r r' :
  in_int64 (rec_Level r) → in_int64 (rec_Level r') →
  sample_key r = sample_key r' → rec_Level r = rec_Level r' ∧ rec_Message r = rec_Message r'.
Proof.
  intros Hr Hr' E. apply split_unique in E as [E ->]; [|by apply FormatInt_absent..]. split; [|done].
  apply (f_equal ParseInt) in E. rewrite !ParseInt_FormatInt in E by done. by injection E.
Qed.

(** ** Where entries go *)
Section handler_rect.
Variable P : handler → Prop.
Hypothesis P_slog : ∀ out level node attrs groups, P (slogHandler out level node attrs groups).
Hypothesis P_multi : ∀ hs, Forall P hs → P (multiHandler hs).
Hypothesis P_sampling : ∀ next s, P next → P (samplingHandler next s).
(** Induction through the lists of fan-outs. *)
Fixpoint handler_all (h : handler) : P h :=
  match h with
  | slogHandler out level node attrs groups => P_slog out level node attrs groups
  | multiHandler hs =>
      P_multi hs ((fix all hs : Forall P hs :=
        match hs with
        | [] => Forall_nil_2 P
        | h :: hs => Forall_cons_2 P h hs (handler_all h) (all hs)
        end) hs)
  | samplingHandler next s => P_sampling next s (handler_all next)
  end.
End handler_rect.

Fixpoint sinks (h : handler) : list sink :=
  match h with
  | slogHandler out _ _ _ _ => [out]
  | multiHandler hs => concat (map sinks hs)
  | samplingHandler next _ => sinks next
  end.

Lemma sinks_multi f hs : Forall (λ h, sinks (f h) = sinks h) hs → concat (map sinks (map f hs)) = concat (map sinks hs).
Proof. induction 1 as [|h hs Hh _ IH]; cbn; [done|]. by rewrite Hh, IH. Qed.
Lemma sinks_WithAttrs attrs h : sinks (WithAttrs attrs h) = sinks h.
Proof. induction h as [|hs IH|next s IH] using handler_all; cbn; [done| |done]. by apply sinks_multi. Qed.
Lemma sinks_next write now r h : sinks (h_next (Handle_record write now r h)) = sinks h.
Proof.
  induction h as [|hs IH|next s IH] using handler_all; cbn; [done| |].
  - rewrite (List.map_map (Handle_record write now r) h_next). by apply (sinks_multi (λ h, h_next (Handle_record write now r h))).
  - destruct (shouldLog now r s) as [[] s']; cbn; done.
Qed.
Lemma entries_sinks write now r h e : e ∈ h_entries (Handle_record write now r h) → e_sink e ∈ sinks h.
Proof.
  induction h as [out level node attrs groups|hs IH|next s IH] using handler_all; cbn.
  - intros ->%list_elem_of_singleton. apply list_elem_of_singleton. by destruct node.
  - induction IH as [|h hs Hh _ IHhs]; cbn; [by intros []%elem_of_nil|]. rewrite !elem_of_app. intros [?|?]; [left; auto|right; auto].
  - destruct (shouldLog now r s) as [[] s']; cbn; [done|]. intros []%elem_of_nil.
Qed.
Lemma Log_entries write now r h e : e ∈ (Log write now r h).2 → e_sink e ∈ sinks h.
Proof. unfold Log. destruct (Enabled h _); cbn; [apply entries_sinks|intros []%elem_of_nil]. Qed.
Lemma Log_sinks write now r h : sinks (Log write now r h).1 = sinks h.
Proof. unfold Log. destruct (Enabled h _); cbn; [apply sinks_next|done]. Qed.

(** ** The log file *)
Definition file_set (f : option nat) : gset nat := from_option (λ f, {[ f ]}) ∅ f.
Definition file_sinks (h : handler) (f : option nat) : Prop := ∀ fd, File fd ∈ sinks h → f = Some fd.

Section files.
Context `{Host}.
Variable MkdirAll : bytes → option bytes.
Variable OpenFile : gset nat → bytes → nat + bytes.
(** Opening gives a file that was not there before. *)
Hypothesis OpenFile_fresh : ∀ used path fd, OpenFile used path = inl fd → fd ∉ used.
Variable write : sink → option bytes.

Inductive log_op :=
| OpSetUp (cfg : Config)
| OpDisable
| OpLog (now level : Z) (msg : bytes) (attrs : list attr)
| OpWith (a : attr) (attrs : list attr)
| OpLogWith (i : nat) (now level : Z) (msg : bytes) (attrs : list attr).
Definition run_log_op (s : Logging) (o : log_op) : Logging :=
  match o with
  | OpSetUp cfg => (SetUp MkdirAll OpenFile cfg s).2
  | OpDisable => (Disable s).2
  | OpLog now level msg attrs => (logAttrs write now level msg attrs s).2
  | OpWith a attrs => (With a attrs s).2
  | OpLogWith i now level msg attrs => (log_derived write i now level msg attrs s).2
  end.
Definition NewLogging : Logging := mkLogging None None ∅ ∅ [] [].
Definition run_log (ops : list log_op) : Logging := foldl run_log_op NewLogging ops.
(** The operations that replace the logger in the state [s]. *)
Definition replaces (s : Logging) (o : log_op) : bool :=
  match o with
  | OpSetUp cfg => match buildLogger MkdirAll (OpenFile (lg_used s)) cfg with inl _ => true | inr _ => false end
  | OpDisable => true
  | _ => false
  end.

(** Only the current file is open, and the logger writes to no other; files that handlers
    write to have been opened. *)
Record file_inv (s : Logging) : Prop := {
  fi_open : lg_open s = file_set (lg_file s);
  fi_logger : file_sinks (getLogger s) (lg_file s);
  fi_used : lg_open s ⊆ lg_used s;
  fi_derived : ∀ i h fd, lg_derived s !! i = Some h → File fd ∈ sinks h → fd ∈ lg_used s;
}.

Lemma sinks_finish cfg hs : sinks (finish_logger cfg hs) = sinks (multiHandlerFrom hs).
Proof.
  unfold finish_logger, newSamplingHandler. repeat case_match; rewrite ?sinks_WithAttrs; done.
Qed.
Lemma buildLogger_sinks used cfg h f :
  buildLogger MkdirAll (OpenFile used) cfg = inl (h, f) → file_sinks h f ∧ file_set f ## used.
Proof.
  unfold buildLogger, file_sinks. destruct (beq _ _).
  { intros [= <- <-]. split; [|set_solver]. intros fd. rewrite sinks_finish. cbn. by intros ?%list_elem_of_singleton. }
  destruct (MkdirAll _); [done|]. destruct (OpenFile used _) as [fd'|] eqn:E; [|done]. intros [= <- <-].
  split; [|cbn; apply OpenFile_fresh in E; set_solver].
  intros fd. rewrite sinks_finish. cbn. rewrite !elem_of_cons, elem_of_nil. by intros [?|[[= ->]|[]]].
Qed.
Lemma close_file_open s : lg_open s ∖ file_set (lg_file s) = lg_open (close_file s).
Proof. unfold close_file. destruct (lg_file s); cbn; [done|]. set_solver. Qed.
Lemma close_file_rest s :
  lg_used (close_file s) = lg_used s ∧ lg_derived (close_file s) = lg_derived s ∧ lg_logger (close_file s) = lg_logger s ∧
  lg_file (close_file s) = None.
Proof. unfold close_file. destruct (lg_file s) eqn:E; by rewrite ?E. Qed.

(** What an operation does to the files. *)
Lemma run_log_op_inv o s :
  file_inv s →
  file_inv (run_log_op s o) ∧ lg_used s ⊆ lg_used (run_log_op s o) ∧
  (∀ fd, fd ∈ lg_used s → fd ∈ lg_open (run_log_op s o) ↔ fd ∈ lg_open s ∧ replaces s o = false) ∧
  (∀ i h, lg_derived s !! i = Some h → ∃ h', lg_derived (run_log_op s o) !! i = Some h' ∧ sinks h' = sinks h).
Proof.
  intros [Ho Hf Hu Hd]. destruct o as [cfg| |now level msg attrs|a attrs|i now level msg attrs]; cbn [run_log_op replaces].
  - unfold SetUp. destruct (buildLogger _ _ cfg) as [[h f]|err] eqn:E; [|by split_and!; [split|..]; [..|naive_solver|eauto]].
    apply buildLogger_sinks in E as [Hs Hdis]. cbn [snd]. fold (file_set f).
    set (s1 := mkLogging _ _ (file_set f ∪ _) _ _ _). destruct (close_file_rest s1) as (E1 & E2 & _ & _).
    assert (lg_open (close_file s1) = file_set f) as E3.
    { rewrite <- close_file_open. cbn. rewrite Ho in *. set_solver. }
    cbn. rewrite E1, E2, E3. cbn. split_and!.
    + split; cbn; [done|done|set_solver|]. intros j h' fd Hj Hin. apply elem_of_union. right. by eapply Hd.
    + set_solver.
    + intros fd Hfd. split; [|by intros [_ ?]]. intros ?. set_solver.
    + eauto.
  - unfold Disable. set (s1 := mkLogging _ _ _ _ _ _). cbn [snd]. destruct (close_file_rest s1) as (E1 & E2 & E3 & E4).
    assert (lg_open (close_file s1) = ∅) as E5 by (rewrite <- close_file_open; cbn; rewrite Ho; set_solver).
    split_and!.
    + split; rewrite ?E1, ?E2, ?E4, ?E5; cbn; [done| |set_solver|done].
      unfold getLogger. rewrite E3. cbn. intros fd ?%list_elem_of_singleton. done.
    + by rewrite E1.
    + intros fd _. rewrite E5. split; [set_solver|by intros [_ ?]].
    + rewrite E2. eauto.
  - unfold logAttrs. pose proof (Log_sinks write now (mkRecord level msg attrs) (getLogger s)) as Hl.
    destruct (Log _ _ _ _) as [h out]. cbn in Hl |- *. split_and!; [|done|naive_solver|eauto]. split; cbn; [done| |done|done].
    unfold getLogger in *. cbn. destruct (lg_logger s); cbn in *; [|done]. unfold file_sinks. by rewrite Hl.
  - unfold With. cbn. split_and!; [|done|naive_solver|].
    + split; cbn; [done..|]. intros i h fd [[_ Hi]|[_ <-]]%lookup_snoc_Some Hin; [by eapply Hd|].
      rewrite sinks_WithAttrs in Hin. apply Hf in Hin. apply Hu. rewrite Ho, Hin. cbn. set_solver.
    + intros i h Hi. exists h. split; [|done]. by apply lookup_app_l_Some.
  - unfold log_derived. destruct (lg_derived s !! i) as [l|] eqn:El; [|by split_and!; [split|..]; [..|naive_solver|eauto]].
    pose proof (Log_sinks write now (mkRecord level msg attrs) l) as Hl. destruct (Log _ _ _ _) as [h out]. cbn in Hl |- *.
    assert (∀ j h0, lg_derived s !! j = Some h0 → ∃ h', <[i := h]> (lg_derived s) !! j = Some h' ∧ sinks h' = sinks h0) as Hkeep.
    { intros j h0 Hj. destruct (decide (i = j)) as [->|Hne].
      - exists h. rewrite list_lookup_insert_eq by (by eapply lookup_lt_Some). simplify_eq. done.
      - exists h0. by rewrite list_lookup_insert_ne. }
    split_and!; [|done|naive_solver|done]. split; cbn; [done..|]. intros j h0 fd Hj Hin.
    destruct (decide (i = j)) as [->|Hne].
    + rewrite list_lookup_insert_eq in Hj by (by eapply lookup_lt_Some). simplify_eq. rewrite Hl in Hin. by eapply Hd.
    + rewrite list_lookup_insert_ne in Hj by done. by eapply Hd.
Qed.
Lemma run_log_inv ops s : file_inv s → file_inv (foldl run_log_op s ops) ∧ lg_used s ⊆ lg_used (foldl run_log_op s ops).
Proof.
  revert s. induction ops as [|o ops IH]; intros s Hs; [done|]. cbn [foldl].
  destruct (run_log_op_inv o s Hs) as (Hs1 & Hu & _ & _). destruct (IH _ Hs1) as [? ?]. split; [done|]. by etransitivity.
Qed.
Lemma NewLogging_inv : file_inv NewLogging.
Proof. split; [done| |done|done]. intros fd ?%list_elem_of_singleton. done. Qed.

(** No operation replaces the logger, from the state [s] on. *)
Fixpoint undisturbed (s : Logging) (ops : list log_op) : bool :=
  match ops with [] => true | o :: ops => negb (replaces s o) && undisturbed (run_log_op s o) ops end.
Lemma derived_file ops s i h fd :
  file_inv s → lg_derived s !! i = Some h → File fd ∈ sinks h → fd ∈ lg_used s →
  ∃ h', lg_derived (foldl run_log_op s ops) !! i = Some h' ∧ sinks h' = sinks h ∧
    (fd ∈ lg_open (foldl run_log_op s ops) ↔ fd ∈ lg_open s ∧ undisturbed s ops = true).
Proof.
  revert s h. induction ops as [|o ops IH]; intros s h Hs Hi Hin Hu; cbn [foldl undisturbed]; [exists h; naive_solver|].
  destruct (run_log_op_inv o s Hs) as (Hs1 & Hu1 & Ho & Hd). destruct (Hd i h Hi) as (h1 & Hi1 & E1).
  destruct (IH _ h1 Hs1 Hi1) as (h' & ? & E' & Hop); [by rewrite E1|set_solver|]. exists h'. split; [done|]. split; [congruence|].
  rewrite Hop, (Ho fd Hu), andb_true_iff, negb_true_iff. tauto.
Qed.

(** C26: The log file and the loggers.  After any sequence of set-ups (failed ones
    included), disabling, deriving loggers with [With] and logging through any of them,
    exactly the current log file is open, so no file leaks, and the global logger only
    writes to a file that is open.  A derived logger, like the one of a connection, keeps
    the file it was made with: what it logs reaches that file exactly as long as no later
    set-up succeeded and logging was not disabled; from then on its entries are lost. *)
Theorem Logger_files pre a attrs post :
  let s := run_log (pre ++ OpWith a attrs :: post) in
  let i := length (lg_derived (run_log pre)) in
  lg_open s = file_set (lg_file s) ∧
  (∀ now r e fd, e ∈ (Log write now r (getLogger s)).2 → e_sink e = File fd → fd ∈ lg_open s) ∧
  ∃ h, lg_derived s !! i = Some h ∧ sinks h = sinks (getLogger (run_log pre)) ∧
    ∀ now r e fd, e ∈ (Log write now r h).2 → e_sink e = File fd →
      reaches s e = undisturbed (run_log (pre ++ [OpWith a attrs])) post.
Proof.
  cbv zeta. destruct (run_log_inv pre NewLogging NewLogging_inv) as [Hpre _]. fold (run_log pre) in Hpre.
  assert (run_log (pre ++ [OpWith a attrs]) = (With a attrs (run_log pre)).2) as Ew by (unfold run_log; by rewrite foldl_app).
  assert (run_log (pre ++ OpWith a attrs :: post) = foldl run_log_op (run_log (pre ++ [OpWith a attrs])) post) as Es.
  { unfold run_log. by rewrite !foldl_app. }
  destruct (run_log_op_inv (OpWith a attrs) _ Hpre) as (Hw & _ & _ & _).
  change (run_log_op (run_log pre) (OpWith a attrs)) with ((With a attrs (run_log pre)).2) in Hw. rewrite <- Ew in Hw.
  destruct (run_log_inv post _ Hw) as [[Ho Hf _ _] _]. rewrite <- Es in Ho, Hf. split; [done|]. split.
  { intros now r e fd He E. apply Log_entries in He. rewrite E in He. apply Hf in He. rewrite Ho, He. cbn. set_solver. }
  set (l := WithAttrs (a :: attrs) (getLogger (run_log pre))).
  assert (lg_derived (run_log (pre ++ [OpWith a attrs])) !! length (lg_derived (run_log pre)) = Some l) as Hl.
  { rewrite Ew. cbn. by apply list_lookup_middle. }
  assert (∃ h, lg_derived (run_log (pre ++ OpWith a attrs :: post)) !! length (lg_derived (run_log pre)) = Some h ∧ sinks h = sinks l)
    as (h & Hh & Eh).
  { rewrite Es. clear -Hw Hl OpenFile_fresh. revert Hw Hl. generalize (run_log (pre ++ [OpWith a attrs])) l. induction post as [|o post IH]; intros s1 l1 Hw Hl1; cbn [foldl]; [by eauto|].
    destruct (run_log_op_inv o s1 Hw) as (Hs1 & _ & _ & Hd). destruct (Hd _ _ Hl1) as (h1 & H1 & E1).
    destruct (IH _ _ Hs1 H1) as (h & ? & ?). exists h. split; [done|congruence]. }
  exists h. split; [done|]. split; [rewrite Eh; apply sinks_WithAttrs|]. intros now r e fd He E. unfold reaches. rewrite E.
  apply Log_entries in He. rewrite E, Eh in He.
  assert (fd ∈ lg_open (run_log (pre ++ [OpWith a attrs]))) as Hop.
  { unfold l in He. rewrite sinks_WithAttrs in He. apply (fi_logger _ Hpre) in He.
    rewrite Ew. cbn. rewrite (fi_open _ Hpre), He. cbn. set_solver. }
  destruct (derived_file post _ _ _ fd Hw Hl He (fi_used _ Hw _ Hop)) as (_ & _ & _ & Hiff). rewrite <- Es in Hiff.
  destruct (undisturbed _ post); case_bool_decide; naive_solver.
Qed.
End files.

(** ** What a configured logger writes *)
(** Without sampling, a logger with a file writes a record of the configured level
    or above twice, and other records not at all: on standard output with the node
    in front of the message, and in the file with the node as an attribute. *)
Theorem buildLogger_writes `{Host} MkdirAll OpenFile cfg h f write now r :
  let node := TrimSpace (cfg_NodeID cfg) in
  cfg_LogSamplingEnabled cfg = false → node ≠ [] → rec_Message r ≠ [] →
  buildLogger MkdirAll OpenFile cfg = inl (h, Some f) →
  (Log write now r h).2 =
    if parseLevel (cfg_LogLevel cfg) <=? rec_Level r
    then [mkEntry Stdout (rec_Level r) (lit "node=" ++ node ++ lit " " ++ rec_Message r) (omap (replaceAttr node) (rec_Attrs r));
          mkEntry (File f) (rec_Level r) (rec_Message r) ((lit "node_id", node) :: rec_Attrs r)]
    else [].
Proof.
  cbv zeta. intros Hs Hn Hm. unfold buildLogger, finish_logger, text_handler. rewrite Hs.
  assert (beq (TrimSpace (cfg_NodeID cfg)) [] = false) as -> by by apply bool_decide_eq_false_2.
  destruct (beq (cfg_LogDir cfg) []); [done|]. destruct (MkdirAll _); [done|]. destruct (OpenFile _) as [fd|]; [|done].
  intros [= <- <-]. unfold Log. cbn -[Z.leb lit]. rewrite orb_false_r, orb_diag. destruct (_ <=? _); [|done].
  cbn -[lit]. unfold slog_entry, replaceAttr. cbn -[lit].
  assert (beq (rec_Message r) [] = false) as -> by by apply bool_decide_eq_false_2. done.
Qed.

(** ** Concrete loggers *)
Definition demo_sampler : sampler := mkSampler 1000 2 3 ∅.
Definition demo_record (msg : string) : record := mkRecord LevelInfo (lit msg) [].
Definition demo_records : list (Z * record) :=
  [(5, demo_record "a"); (6, demo_record "b"); (7, demo_record "a"); (7, demo_record "a"); (9, demo_record "b");
   (10, demo_record "a"); (11, demo_record "a"); (900, demo_record "a"); (1000, demo_record "a")].

Lemma Sampling_exact_witness :
  flags (sample_key (demo_record "a")) demo_records demo_sampler = [true; true; false; false; true; false; false] ∧
  Z.of_nat (trues (flags (sample_key (demo_record "a")) demo_records demo_sampler)) = 3.
Proof.
  destruct (Sampling_exact (sample_key (demo_record "a")) 5 demo_records demo_sampler) as [E1 E2].
  - split_and!; reflexivity.
  - unfold in_int64, MinInt64, MaxInt64. cbn. lia.
  - exact I.
  - assert (Forall (λ tr : Z * record, 5 <= tr.1 < 5 + 1000) demo_records) as Hf by (repeat constructor; cbn; lia).
    intros t r Hr _. rewrite Forall_forall in Hf. apply (Hf _ Hr).
  - unfold in_int64, MinInt64, MaxInt64. vm_compute. split; discriminate.
  - split; [rewrite E1|rewrite E2]; vm_compute; reflexivity.
Defined.

#[local] Existing Instance demo_host.
Definition demo_open (used : gset nat) (path : bytes) : nat + bytes := inl (fresh used).
Lemma Logger_files_witness :
  let connection := [OpSetUp NewDefaultConfig; OpWith (lit "session_id", lit "sess-1") []] in
  let s := run_log (λ _, None) demo_open (λ _, None) (connection ++ [OpSetUp NewDefaultConfig]) in
  lg_open s = {[ 1%nat ]} ∧
  ∃ h, lg_derived s !! 0%nat = Some h ∧ ∀ e, e ∈ (Log (λ _, None) 0 (mkRecord LevelInfo (lit "closed") []) h).2 → e_sink e = File 0 → reaches s e = false.
Proof.
  cbv zeta.
  destruct (Logger_files (λ _, None) demo_open (λ used path fd E, eq_ind (fresh used) (λ fd, fd ∉ used) (is_fresh used) fd
      (f_equal (λ x : nat + bytes, match x with inl n => n | inr _ => 0%nat end) E)) (λ _, None)
    [OpSetUp NewDefaultConfig] (lit "session_id", lit "sess-1") [] [OpSetUp NewDefaultConfig]) as (E & _ & h & Hh & _ & Hr).
  split; [etransitivity; [exact E|vm_compute; reflexivity]|]. exists h. split; [exact Hh|].
  intros e He Ee. etransitivity; [exact (Hr _ _ _ _ He Ee)|]. vm_compute. reflexivity.
Defined.

Lemma buildLogger_writes_witness :
  ∃ h, buildLogger (λ _, None) (demo_open ∅) (set_LogLevel (lit "WARN") (set_LogSamplingEnabled false NewDefaultConfig)) = inl (h, Some 0%nat) ∧
    (Log (λ _, None) 0 (mkRecord LevelError (lit "oops") [(lit "k", lit "v")]) h).2 =
      [mkEntry Stdout LevelError (lit "node=node-1 oops") [(lit "k", lit "v")];
       mkEntry (File 0) LevelError (lit "oops") [(lit "node_id", lit "node-1"); (lit "k", lit "v")]].
Proof.
  eexists. split; [vm_compute; reflexivity|].
  rewrite (buildLogger_writes (λ _, None) (demo_open ∅) (set_LogLevel (lit "WARN") (set_LogSamplingEnabled false NewDefaultConfig)) _ 0 (λ _, None) 0
    (mkRecord LevelError (lit "oops") [(lit "k", lit "v")])); vm_compute; (reflexivity || discriminate).
Defined.
