(* ===== verification/RESP.v ===== *)
(** * The RESP protocol: values, encoder and stream parser

    [src/pkg/RESP]: the [RedisData] values with [ToBytes] and [ByteData]
    ([structure.go], [stringdata.go], [errordata.go], [intdata.go],
    [plaindata.go], [bulkdata.go], [arraydata.go]) and the stream parser
    ([parsestream.go]).  The parser goroutine reads a finite input followed by
    end of file or by a read error that stays; what it sends on its channel is the list of [ParsedRes] it
    produces, and the way it ends is an [outcome] ([Ret] when it closes the
    channel, [Panics] when the goroutine panics, which nothing recovers, [Blocks]
    when it sends the read error again and again and never closes the channel). *)

From S2P Require Import Prelude.
From Stdlib Require Import Ascii String ZArith Lia.
From stdpp Require Import prelude gmap strings list.
Open Scope Z_scope.

(** ** Values *)
#[warnings="-register-all"] Inductive RedisData :=
  | StringData (data : bytes)
  | ErrorData (data : bytes)
  | IntData (data : Z)
  | PlainData (data : bytes)
  | BulkData (data : slice)
  | ArrayData (data : option (list RedisData)).

Definition CRLF : bytes := [CR; LF].

Definition MakeStringData (data : bytes) : RedisData := StringData data.
Definition MakeErrorData (data : bytes) : RedisData := ErrorData data.
Definition MakeIntData (data : Z) : RedisData := IntData data.
Definition MakePlainData (data : bytes) : RedisData := PlainData data.
Definition MakeBulkData (data : slice) : RedisData := BulkData data.
Definition MakeNullBulkData : RedisData := BulkData None.
Definition MakeArrayData (data : option (list RedisData)) : RedisData := ArrayData data.
Definition MakeEmptyArrayData : RedisData := ArrayData None.

(** [RedisData.ToBytes]: the RESP transfer format. *)
Fixpoint ToBytes (d : RedisData) : bytes :=
  match d with
  | StringData s => "+"%char :: s ++ CRLF
  | ErrorData s => "-"%char :: s ++ CRLF
  | IntData n => ":"%char :: FormatInt n ++ CRLF
  | PlainData s => s ++ CRLF
  | BulkData None => lit "$-1" ++ CRLF
  | BulkData (Some b) => "$"%char :: FormatInt (zlen b) ++ CRLF ++ b ++ CRLF
  | ArrayData None => lit "*-1" ++ CRLF
  | ArrayData (Some l) =>
      "*"%char :: FormatInt (zlen l) ++ CRLF ++ concat (map ToBytes l)
  end.

(** [RedisData.ByteData]: the payload without framing. *)
Fixpoint ByteData (d : RedisData) : slice :=
  match d with
  | StringData s | ErrorData s | PlainData s => Some s
  | IntData n => Some (FormatInt n)
  | BulkData b => b
  | ArrayData None => Some []
  | ArrayData (Some l) => Some (concat (map (λ v, str (ByteData v)) l))
  end.

(** [ArrayData.ToCommand]. *)
Definition ToCommand (data : option (list RedisData)) : list slice :=
  map ByteData (default [] data).

(** ** The stream parser *)
Inductive error :=
  | io_EOF
  | io_ErrUnexpectedEOF
  | NumError (num : bytes) (e : numerror)
  | errorString (msg : bytes).

Record ParsedRes := mkParsedRes { Data : option RedisData; Err : option error }.

Record readState := mkReadState {
  bulkLen : Z;
  arrayLen : Z;
  multiLine : bool;
  arrayData : option (list RedisData);   (* [None]: the nil pointer *)
  inArray : bool
}.

Definition readState0 : readState := mkReadState 0 0 false None false.

Definition set_bulkLen (n : Z) (st : readState) : readState :=
  mkReadState n (arrayLen st) (multiLine st) (arrayData st) (inArray st).
Definition set_multiLine (b : bool) (st : readState) : readState :=
  mkReadState (bulkLen st) (arrayLen st) b (arrayData st) (inArray st).
Definition set_arrayData (d : option (list RedisData)) (st : readState) : readState :=
  mkReadState (bulkLen st) (arrayLen st) (multiLine st) d (inArray st).

Definition emit (d : RedisData) : ParsedRes := mkParsedRes (Some d) None.
Definition emit_err (e : error) : ParsedRes := mkParsedRes None (Some e).

(** [bufio.Reader.ReadBytes('\n')] on the buffered input: the line with its
    delimiter and what follows, or nothing before end of file. *)
Fixpoint ReadBytes (inp : bytes) : option (bytes * bytes) :=
  match inp with
  | [] => None
  | c :: inp =>
      if bool_decide (c = LF) then Some ([c], inp)
      else match ReadBytes inp with
           | Some (l, rest) => Some (c :: l, rest)
           | None => None
           end
  end.

(** [msg[len(msg)-k]]: panics when the message is shorter than [k]. *)
Definition from_end (msg : bytes) (k : nat) : outcome ascii :=
  match reverse msg !! (k - 1)%nat with
  | Some c => Ret c
  | None => Panics
  end.

(** [msg[1:len(msg)-2]]: panics when [len(msg) < 3]. *)
Definition body1 (msg : bytes) : outcome bytes :=
  if zlen msg <? 3 then Panics else Ret (take (length msg - 3) (drop 1 msg)).

Definition invalid_msg (msg : bytes) : error :=
  errorString (lit "Protocol error. Stream message " ++ msg ++ lit " is invalid.").

(** ** The parser goroutine *)
Section parser.
(** What reading gives after the last byte of the input: end of file, or the text of an
    error (a reset or closed connection, a deadline), which then comes back at every
    further read. *)
Variable rend : option bytes.

(** The error of a read that meets the end; [eof] is the one for end of file. *)
Definition read_error (eof : error) : error := match rend with None => eof | Some e => errorString e end.

(** [readLine]: the message or an error, the parser state and the rest of the
    input. *)
Definition readLine (inp : bytes) (state : readState)
    : outcome ((bytes + error) * readState * bytes) :=
  if multiLine state && (0 <=? bulkLen state) then
    let n := int64 (bulkLen state + 2) in
    if negb (make_ok 1 n) then Panics
    else if n <=? zlen inp then
      let msg := take (Z.to_nat n) inp in
      let rest := drop (Z.to_nat n) inp in
      let state := set_bulkLen 0 state in
      c1 ← from_end msg 1;
      c2 ← from_end msg 2;
      if bool_decide (c1 ≠ LF ∨ c2 ≠ CR)
      then Ret (inr (invalid_msg msg), state, rest)
      else Ret (inl msg, state, rest)
    else
      Ret (inr (read_error (match inp with [] => io_EOF | _ => io_ErrUnexpectedEOF end)), state, [])
  else
    match ReadBytes inp with
    | None => Ret (inr (read_error io_EOF), state, [])
    | Some (msg, rest) =>
        c2 ← from_end msg 2;
        if bool_decide (c2 ≠ CR)
        then Ret (inr (invalid_msg msg), state, rest)
        else Ret (inl msg, state, rest)
    end.

Definition protocol_error (msg : bytes) : error :=
  errorString (lit "Protocol error: " ++ msg).

Definition parseSingleLine (msg : bytes) : outcome (RedisData + error) :=
  msgData ← body1 msg;
  match msg with
  | "+"%char :: _ => Ret (inl (MakeStringData msgData))
  | "-"%char :: _ => Ret (inl (MakeErrorData msgData))
  | ":"%char :: _ =>
      match ParseInt msgData with
      | inr e => Ret (inr (NumError msgData e))
      | inl data => Ret (inl (MakeIntData data))
      end
  | _ => Ret (inl (MakePlainData msgData))
  end.

Definition parseArrayHeader (msg : bytes) (state : readState)
    : outcome (option error * readState) :=
  body ← body1 msg;
  match Atoi body with
  | inr _ => Ret (Some (protocol_error msg), state)
  | inl n =>
      if n <? -1 then Ret (Some (protocol_error msg), state)
      else
        let state := mkReadState (bulkLen state) n (multiLine state)
                       (arrayData state) true in
        if 0 <? n then
          (* [make([]RedisData, 0, n)]: an interface value takes 16 bytes *)
          if make_ok 16 n then Ret (None, set_arrayData (Some []) state) else Panics
        else Ret (None, set_arrayData (Some []) state)
  end.

Definition parseBulkHeader (msg : bytes) (state : readState)
    : outcome (option error * readState) :=
  body ← body1 msg;
  match ParseInt body with
  | inr _ => Ret (Some (protocol_error msg), state)
  | inl n =>
      if n <? -1 then Ret (Some (protocol_error msg), state)
      else Ret (None, set_multiLine true (set_bulkLen n state))
  end.

Definition parseMultiLine (msg : bytes) : RedisData + error :=
  if zlen msg <? 2 then inr (errorString (lit "protocol error: invalid bulk string"))
  else inl (MakeBulkData (Some (take (length msg - 2) msg))).

(** A complete element: appended to the array being read, which is sent when
    it is full, or sent by itself. *)
Definition deliver (res : RedisData) (state : readState)
    : outcome (list ParsedRes * readState) :=
  if inArray state then
    match arrayData state with
    | None => Panics
    | Some l =>
        let l := l ++ [res] in
        if zlen l =? arrayLen state
        then Ret ([emit (MakeArrayData (Some l))], readState0)
        else Ret ([], set_arrayData (Some l) state)
    end
  else Ret ([emit res], state).

(** One iteration of the loop of [parse]: what it sends, and the next state
    with the remaining input unless the channel is closed. *)
Definition parse_step (state : readState) (inp : bytes)
    : outcome (list ParsedRes * option (readState * bytes)) :=
  '(r, state, rest) ← readLine inp state;
  match r with
  | inr io_EOF => Ret ([emit_err io_EOF], None)
  | inr err => Ret ([emit_err err], Some (readState0, rest))
  | inl msg =>
      if negb (multiLine state) then
        match msg with
        | "*"%char :: _ =>
            '(err, state) ← parseArrayHeader msg state;
            match err with
            | Some err => Ret ([emit_err err], Some (readState0, rest))
            | None =>
                if arrayLen state =? -1 then
                  Ret ([emit (MakeArrayData None)], Some (readState0, rest))
                else if arrayLen state =? 0 then
                  Ret ([emit (MakeArrayData (Some []))], Some (readState0, rest))
                else Ret ([], Some (state, rest))
            end
        | "$"%char :: _ =>
            '(err, state) ← parseBulkHeader msg state;
            match err with
            | Some err => Ret ([emit_err err], Some (readState0, rest))
            | None =>
                if bulkLen state =? -1 then
                  let state := set_bulkLen 0 (set_multiLine false state) in
                  '(out, state) ← deliver MakeNullBulkData state;
                  Ret (out, Some (state, rest))
                else Ret ([], Some (state, rest))
            end
        | _ =>
            r ← parseSingleLine msg;
            match r with
            | inr err => Ret ([emit_err err], Some (readState0, rest))
            | inl res =>
                '(out, state) ← deliver res state;
                Ret (out, Some (state, rest))
            end
        end
      else
        let state := set_bulkLen 0 (set_multiLine false state) in
        match parseMultiLine msg with
        | inr err => Ret ([emit_err err], Some (readState0, rest))
        | inl res =>
            '(out, state) ← deliver res state;
            Ret (out, Some (state, rest))
        end
  end.

(** The first [n] iterations of the loop of [parse]: what they send, and the state and
    the input left if the loop still runs. *)
Fixpoint iterations (n : nat) (state : readState) (inp : bytes) : list ParsedRes * option (readState * bytes) :=
  match n with
  | O => ([], Some (state, inp))
  | S n =>
      match parse_step state inp with
      | Ret (out, Some (state, rest)) => let '(out', st) := iterations n state rest in (out ++ out', st)
      | Ret (out, None) => (out, None)
      | _ => ([], None)
      end
  end.

(** The loop of [parse], with how the goroutine ends; [None] when [fuel] iterations are
    not enough.  When nothing is left to read and the loop goes on, every further
    iteration sends the same error again: the results end with the first one, and the
    goroutine never returns ([Blocks]; see [ParseStream_ends]). *)
Fixpoint parse_loop (fuel : nat) (state : readState) (inp : bytes)
    : option (list ParsedRes * outcome unit) :=
  match fuel with
  | O => None
  | S fuel =>
      match parse_step state inp with
      | Ret (out, None) => Some (out, Ret tt)
      | Ret (out, Some (state, rest)) =>
          match inp with
          | [] => Some (out, Blocks)
          | _ =>
              match parse_loop fuel state rest with
              | Some (out', fin) => Some (out ++ out', fin)
              | None => None
              end
          end
      | Panics => Some ([], Panics)
      | Fatals => Some ([], Fatals)
      | Blocks => Some ([], Blocks)
      end
  end.

(** [parse] from a given state.  Every iteration consumes at least one byte
    ([parse_step_consumes]), so one iteration per byte and one for the end are enough
    ([parse_is_Some]). *)
Definition parse (state : readState) (inp : bytes)
    : option (list ParsedRes * outcome unit) :=
  parse_loop (S (length inp)) state inp.

(** [ParseStream]: what the channel delivers for the input [inp], to one who receives. *)
Definition ParseStream (inp : bytes) : option (list ParsedRes * outcome unit) :=
  parse readState0 inp.

(** ** Progress and termination *)
Lemma ReadBytes_app inp l rest :
  ReadBytes inp = Some (l, rest) → inp = l ++ rest ∧ l ≠ [].
Proof.
  revert l rest. induction inp as [|c inp IH]; intros l rest; simpl; [done|].
  case_bool_decide; [by intros [= <- <-]|].
  destruct (ReadBytes inp) as [[l' rest']|]; [|done].
  intros [= <- <-]. destruct (IH l' rest') as [-> _]; done.
Qed.

Lemma ReadBytes_line s rest : LF ∉ s → ReadBytes (s ++ LF :: rest) = Some (s ++ [LF], rest).
Proof.
  induction s as [|c s IH]; simpl; intros Hs.
  { done. }
  apply not_elem_of_cons in Hs as [Hc Hs].
  rewrite bool_decide_eq_false_2 by congruence. by rewrite IH.
Qed.

Lemma from_end_lt msg k c : from_end msg (S k) = Ret c → (k < length msg)%nat.
Proof.
  unfold from_end. replace (S k - 1)%nat with k by lia.
  destruct (reverse msg !! k) eqn:E; [|done].
  apply lookup_lt_Some in E. by rewrite length_reverse in E.
Qed.

Lemma readLine_consumes inp st r st' rest :
  readLine inp st = Ret (r, st', rest) →
  (length rest < length inp)%nat ∨ (inp = [] ∧ rest = [] ∧ r = inr (read_error io_EOF)).
Proof.
  unfold readLine. destruct (multiLine st && _).
  - destruct (negb (make_ok 1 _)); [done|].
    destruct (Z.leb_spec (int64 (bulkLen st + 2)) (zlen inp)) as [Hle|].
    + remember (take (Z.to_nat (int64 (bulkLen st + 2))) inp) as msg eqn:Em.
      destruct (from_end msg 1) as [c1| | |] eqn:E1; [|done..].
      destruct (from_end msg 2) as [c2| | |] eqn:E2; [|done..].
      apply from_end_lt in E2.
      assert (length (drop (Z.to_nat (int64 (bulkLen st + 2))) inp) < length inp)%nat.
      { rewrite length_drop. subst msg. rewrite length_take in E2. lia. }
      simpl. case_bool_decide; intros [= <- <- <-]; by left.
    + destruct inp; intros [= <- <- <-]; [by right|left; simpl; lia].
  - destruct (ReadBytes inp) as [[msg rest']|] eqn:E.
    + apply ReadBytes_app in E as [-> Hne].
      assert (length rest' < length (msg ++ rest'))%nat.
      { rewrite length_app. destruct msg; [done|simpl; lia]. }
      destruct (from_end msg 2) as [c2| | |]; [|done..].
      simpl. case_bool_decide; intros [= <- <- <-]; by left.
    + intros [= <- <- <-]. destruct inp; [by right|left; simpl; lia].
Qed.

(** Peel one monadic bind of a hypothesis [H : ... = Ret _]. *)
Ltac bind_inv H :=
  repeat match type of H with
  | context [mbind _ (parseArrayHeader ?m ?s)] =>
      let E := fresh "E" in
      destruct (parseArrayHeader m s) as [[? ?]| | |] eqn:E; simpl in H; try discriminate H
  | context [mbind _ (parseBulkHeader ?m ?s)] =>
      let E := fresh "E" in
      destruct (parseBulkHeader m s) as [[? ?]| | |] eqn:E; simpl in H; try discriminate H
  | context [mbind _ (parseSingleLine ?m)] =>
      let E := fresh "E" in
      destruct (parseSingleLine m) as [[?|?]| | |] eqn:E; simpl in H; try discriminate H
  | context [mbind _ (deliver ?m ?s)] =>
      let E := fresh "E" in
      destruct (deliver m s) as [[? ?]| | |] eqn:E; simpl in H; try discriminate H
  end.

(** An iteration that goes on consumes input, unless there is none and reading fails
    with an error other than end of file: then that error is sent and the state reset. *)
Lemma parse_step_consumes st inp out st' rest :
  parse_step st inp = Ret (out, Some (st', rest)) →
  (length rest < length inp)%nat
  ∨ (inp = [] ∧ rest = [] ∧ st' = readState0
     ∧ ∃ e, rend = Some e ∧ out = [emit_err (errorString e)]).
Proof.
  unfold parse_step. intros H.
  destruct (readLine inp st) as [[[r s1] rest1]| | |] eqn:E; simpl in H; [|done..].
  apply readLine_consumes in E as [E|(-> & -> & ->)].
  - left. assert (rest = rest1) as ->; [|done].
    destruct r as [msg|[]]; simplify_eq; try done.
    destruct (negb (multiLine s1)).
    + destruct msg as [|[[] [] [] [] [] [] [] []] msg]; bind_inv H;
        repeat case_match; bind_inv H; by simplify_eq.
    + destruct (parseMultiLine msg); [|by simplify_eq]. bind_inv H. by simplify_eq.
  - right. unfold read_error in H. destruct rend as [e|]; [|done].
    simplify_eq. eauto 10.
Qed.

Lemma parse_loop_enough fuel st inp :
  (length inp < fuel)%nat → parse_loop fuel st inp = parse st inp.
Proof.
  unfold parse. generalize (le_n (S (length inp))).
  generalize (S (length inp)) at 2 3 as fuel'. revert st inp.
  induction fuel as [|fuel IH]; intros st inp fuel' Hf' Hf; [lia|].
  destruct fuel' as [|fuel']; [lia|]. simpl.
  destruct (parse_step st inp) as [[out [[st' rest]|]]| | |] eqn:E; try done.
  apply parse_step_consumes in E as [E|(-> & _)]; [|done].
  destruct inp; [done|]. rewrite (IH st' rest fuel') by lia. done.
Qed.

(** The unfolding equation of [parse], free of fuel. *)
Lemma parse_unfold st inp :
  parse st inp =
    match parse_step st inp with
    | Ret (out, None) => Some (out, Ret tt)
    | Ret (out, Some (st', rest)) =>
        match inp with
        | [] => Some (out, Blocks)
        | _ =>
            match parse st' rest with
            | Some (out', fin) => Some (out ++ out', fin)
            | None => None
            end
        end
    | Panics => Some ([], Panics)
    | Fatals => Some ([], Fatals)
    | Blocks => Some ([], Blocks)
    end.
Proof.
  unfold parse at 1. cbn [parse_loop].
  destruct (parse_step st inp) as [[out [[st' rest]|]]| | |] eqn:E; try done.
  apply parse_step_consumes in E as [E|(-> & _)]; [|done].
  destruct inp; [done|]. by rewrite parse_loop_enough by lia.
Qed.

(** The same on an input that is not empty. *)
Lemma parse_unfold_cons st inp :
  inp ≠ [] →
  parse st inp =
    match parse_step st inp with
    | Ret (out, None) => Some (out, Ret tt)
    | Ret (out, Some (st', rest)) =>
        match parse st' rest with
        | Some (out', fin) => Some (out ++ out', fin)
        | None => None
        end
    | Panics => Some ([], Panics)
    | Fatals => Some ([], Fatals)
    | Blocks => Some ([], Blocks)
    end.
Proof. intros H. rewrite parse_unfold. by destruct inp. Qed.

Lemma parse_is_Some st inp : is_Some (parse st inp).
Proof.
  remember (length inp) as n eqn:En. revert st inp En.
  induction n as [n IH] using lt_wf_ind; intros st inp ->.
  rewrite parse_unfold.
  destruct (parse_step st inp) as [[out [[st' rest]|]]| | |] eqn:E; eauto.
  apply parse_step_consumes in E as [E|(-> & _)]; [|eauto].
  destruct (IH _ E st' rest eq_refl) as [[out' fin] ->]. destruct inp; eauto.
Qed.

(** ** Round trip: the parser reads back what the encoder writes

    A line-framed payload may not contain a line feed, an integer must fit
    [int64], and a length must be one the Go allocator can serve. *)
Definition scalar_ok (d : RedisData) : Prop :=
  match d with
  | StringData s | ErrorData s => LF ∉ s
  | IntData n => in_int64 n
  | BulkData None => True
  | BulkData (Some b) => zlen b + 2 <= maxAlloc
  | PlainData _ | ArrayData _ => False
  end.

Definition wire_ok (d : RedisData) : Prop :=
  match d with
  | ArrayData None => True
  | ArrayData (Some l) => Forall scalar_ok l ∧ zlen l * 16 <= maxAlloc
  | d => scalar_ok d
  end.

(** The parser is between two elements. *)
Definition ready (st : readState) : Prop := multiLine st = false ∧ bulkLen st = 0.

Lemma from_end_app msg s k :
  (k < length s)%nat → from_end (msg ++ s) (S k) = from_end s (S k).
Proof.
  intros Hk. unfold from_end. rewrite reverse_app, lookup_app_l; [done|].
  rewrite length_reverse. lia.
Qed.

Lemma readLine_line c s rest st :
  multiLine st = false → LF ∉ s → c ≠ LF →
  readLine (c :: s ++ CRLF ++ rest) st = Ret (inl (c :: s ++ CRLF), st, rest).
Proof.
  intros Hm Hs Hc. unfold readLine. rewrite Hm. cbn [andb].
  assert (ReadBytes (c :: s ++ CRLF ++ rest) = Some (c :: s ++ CRLF, rest)) as ->.
  { change (c :: s ++ CRLF ++ rest) with (c :: s ++ [CR] ++ LF :: rest).
    replace (c :: s ++ [CR] ++ LF :: rest) with ((c :: s ++ [CR]) ++ LF :: rest)
      by (simpl; by rewrite <- (assoc_L (++))).
    rewrite ReadBytes_line.
    - simpl. by rewrite <- (assoc_L (++)).
    - rewrite not_elem_of_cons, not_elem_of_app. 
      split_and!; [congruence|done|by rewrite list_elem_of_singleton]. }
  change (c :: s ++ CRLF) with ((c :: s) ++ CRLF).
  rewrite from_end_app by (simpl; lia). done.
Qed.

Lemma body1_line c s : body1 (c :: s ++ CRLF) = Ret s.
Proof.
  unfold body1, zlen. simpl length. rewrite length_app. simpl length.
  destruct (Z.ltb_spec (Z.of_nat (S (length s + 2))) 3); [lia|].
  f_equal. simpl. rewrite drop_0. rewrite take_app_le by lia. apply take_ge. lia.
Qed.

Lemma parseBulkHeader_spec n st :
  -1 <= n → in_int64 n →
  parseBulkHeader ("$"%char :: FormatInt n ++ CRLF) st
  = Ret (None, set_multiLine true (set_bulkLen n st)).
Proof.
  intros H1 H2. unfold parseBulkHeader. rewrite body1_line. simpl.
  rewrite ParseInt_FormatInt by done. by destruct (Z.ltb_spec n (-1)); [lia|].
Qed.

Lemma parseArrayHeader_spec n st :
  0 <= n → n * 16 <= maxAlloc →
  parseArrayHeader ("*"%char :: FormatInt n ++ CRLF) st
  = Ret (None, mkReadState (bulkLen st) n (multiLine st) (Some []) true).
Proof.
  intros H1 H2. unfold parseArrayHeader. rewrite body1_line. simpl.
  unfold Atoi. rewrite ParseInt_FormatInt
    by (unfold in_int64, MinInt64, MaxInt64; unfold maxAlloc in H2; lia).
  destruct (Z.ltb_spec n (-1)); [lia|].
  unfold make_ok. destruct (Z.ltb_spec 0 n); [|done].
  destruct (Z.leb_spec 0 n); [|lia]. by destruct (Z.leb_spec (n * 16) maxAlloc); [|lia].
Qed.

(** The second read of a bulk string: exactly its payload and the terminator. *)
Lemma readLine_bulk b rest st :
  zlen b + 2 <= maxAlloc →
  readLine (b ++ CRLF ++ rest) (set_multiLine true (set_bulkLen (zlen b) st))
  = Ret (inl (b ++ CRLF), set_multiLine true (set_bulkLen 0 st), rest).
Proof.
  intros Hb. unfold readLine. cbn [multiLine bulkLen set_multiLine set_bulkLen andb].
  pose proof (zlen_nonneg b).
  destruct (Z.leb_spec 0 (zlen b)); [|lia].
  rewrite int64_id by (unfold in_int64, MinInt64, MaxInt64; unfold maxAlloc in Hb; lia).
  unfold make_ok.
  destruct (Z.leb_spec 0 (zlen b + 2)); [|lia].
  destruct (Z.leb_spec ((zlen b + 2) * 1) maxAlloc); [|lia]. cbn [negb andb].
  assert (zlen (b ++ CRLF ++ rest) = zlen b + 2 + zlen rest) as ->
    by (autorewrite with zlen; change (zlen CRLF) with 2; lia).
  pose proof (zlen_nonneg rest).
  destruct (Z.leb_spec (zlen b + 2) (zlen b + 2 + zlen rest)); [|lia].
  replace (Z.to_nat (zlen b + 2)) with (length (b ++ CRLF))
    by (rewrite length_app; unfold zlen; simpl; lia).
  rewrite (assoc_L (++)), take_app_length, drop_app_length.
  rewrite !from_end_app by (simpl; lia). done.
Qed.

Lemma parseMultiLine_spec b : parseMultiLine (b ++ CRLF) = inl (BulkData (Some b)).
Proof.
  unfold parseMultiLine. autorewrite with zlen. change (zlen CRLF) with 2.
  pose proof (zlen_nonneg b). destruct (Z.ltb_spec (zlen b + 2) 2); [lia|].
  rewrite length_app. simpl length. rewrite take_app_le by lia.
  by rewrite take_ge by lia.
Qed.

(** What the loop does after an element: deliver it and go on. *)
Definition deliver_then (d : RedisData) (st : readState) (rest : bytes)
    : option (list ParsedRes * outcome unit) :=
  match deliver d st with
  | Ret (out, st') =>
      match parse st' rest with
      | Some (out', fin) => Some (out ++ out', fin)
      | None => None
      end
  | Panics => Some ([], Panics)
  | Fatals => Some ([], Fatals)
  | Blocks => Some ([], Blocks)
  end.

Lemma ready_reset st : ready st → set_bulkLen 0 (set_multiLine false st) = st.
Proof. intros [H1 H2]. destruct st; simpl in *. by subst. Qed.

Lemma single_line_step c s d rest st :
  ready st → LF ∉ s → c ≠ LF → c ≠ "*"%char → c ≠ "$"%char →
  parseSingleLine (c :: s ++ CRLF) = Ret (inl d) →
  parse st (c :: s ++ CRLF ++ rest) = deliver_then d st rest.
Proof.
  intros Hr Hs Hc H1 H2 Hp. rewrite parse_unfold_cons by done. unfold parse_step.
  rewrite readLine_line by (done || apply Hr). cbn [mbind outcome_bind].
  destruct Hr as [Hm _]. rewrite Hm. cbn [negb]. unfold deliver_then.
  assert (∀ A (a b f : A), match c :: s ++ CRLF with
    | "*"%char :: _ => a | "$"%char :: _ => b | _ => f end = f) as E.
  { intros A a b f. destruct c as [[] [] [] [] [] [] [] []]; done. }
  rewrite E, Hp. simpl. by destruct (deliver d st) as [[]| | |].
Qed.

Lemma parse_scalar d rest st :
  ready st → scalar_ok d → parse st (ToBytes d ++ rest) = deliver_then d st rest.
Proof.
  intros Hr Hok. destruct d as [s|s|n|s|[b|]|l]; simpl in Hok; try done.
  - cbn [ToBytes app]. rewrite <- (assoc_L (++)).
    apply single_line_step; try done. unfold parseSingleLine. by rewrite body1_line.
  - cbn [ToBytes app]. rewrite <- (assoc_L (++)).
    apply single_line_step; try done. unfold parseSingleLine. by rewrite body1_line.
  - cbn [ToBytes app]. rewrite <- (assoc_L (++)).
    apply single_line_step; try done; [apply FormatInt_no_LF|].
    unfold parseSingleLine. rewrite body1_line. simpl. by rewrite ParseInt_FormatInt.
  - cbn [ToBytes app]. rewrite <- !(assoc_L (++)). rewrite parse_unfold_cons by done. unfold parse_step.
    pose proof (zlen_nonneg b).
    rewrite readLine_line by (apply Hr || apply FormatInt_no_LF || done).
    cbn [mbind outcome_bind]. rewrite (proj1 Hr). cbn [negb].
    rewrite parseBulkHeader_spec
      by (unfold in_int64, MinInt64, MaxInt64; unfold maxAlloc in Hok; lia).
    cbn [mbind outcome_bind bulkLen set_multiLine set_bulkLen].
    destruct (Z.eqb_spec (zlen b) (-1)); [lia|].
    change (mkReadState (zlen b) (arrayLen st) true (arrayData st) (inArray st))
      with (set_multiLine true (set_bulkLen (zlen b) st)).
    rewrite parse_unfold_cons by (by destruct b). unfold parse_step. rewrite readLine_bulk by done.
    cbn [mbind outcome_bind multiLine set_multiLine negb]. rewrite parseMultiLine_spec.
    change (set_bulkLen 0 (set_multiLine false (set_multiLine true (set_bulkLen 0 st))))
      with (set_bulkLen 0 (set_multiLine false st)).
    rewrite ready_reset by done. unfold deliver_then. simpl.
    destruct (deliver (BulkData (Some b)) st) as [[out st']| | |]; simpl; try done.
    by destruct (parse st' rest) as [[]|].
  - change (ToBytes (BulkData None)) with ("$"%char :: FormatInt (-1) ++ CRLF).
    cbn [app]. rewrite <- !(assoc_L (++)). rewrite parse_unfold_cons by done. unfold parse_step.
    rewrite readLine_line by (apply Hr || apply FormatInt_no_LF || done).
    cbn [mbind outcome_bind]. rewrite (proj1 Hr). cbn [negb].
    rewrite parseBulkHeader_spec by (unfold in_int64, MinInt64, MaxInt64; lia).
    cbn [mbind outcome_bind].
    change (bulkLen (set_multiLine true (set_bulkLen (-1) st)) =? -1) with true.
    cbv iota beta zeta.
    change (set_bulkLen 0 (set_multiLine false (set_multiLine true (set_bulkLen (-1) st))))
      with (set_bulkLen 0 (set_multiLine false st)).
    rewrite ready_reset by done. unfold deliver_then, MakeNullBulkData.
    by destruct (deliver (BulkData None) st) as [[]| | |].
Qed.

(** The elements of an array, read one after the other. *)
Lemma parse_elements l acc n rest :
  Forall scalar_ok l → l ≠ [] → zlen acc + zlen l = n →
  parse (mkReadState 0 n false (Some acc) true) (concat (map ToBytes l) ++ rest)
  = match parse readState0 rest with
    | Some (out, fin) => Some (emit (ArrayData (Some (acc ++ l))) :: out, fin)
    | None => None
    end.
Proof.
  revert acc. induction l as [|d l IH]; intros acc Hok Hne Hn; [done|].
  apply Forall_cons in Hok as [Hd Hok]. cbn [map concat].
  rewrite <- (assoc_L (++)), parse_scalar by done. autorewrite with zlen in Hn.
  unfold deliver_then, deliver. cbn [inArray arrayData arrayLen].
  autorewrite with zlen. destruct l as [|d' l].
  - rewrite zlen_nil in Hn. destruct (Z.eqb_spec (zlen acc + (1 + 0)) n); [|lia]. done.
  - pose proof (zlen_nonneg l). rewrite zlen_cons in Hn.
    destruct (Z.eqb_spec (zlen acc + (1 + 0)) n); [lia|].
    unfold set_arrayData. cbn [bulkLen arrayLen multiLine inArray].
    rewrite IH by (done || (autorewrite with zlen; lia)).
    rewrite <- (assoc_L (++)). by destruct (parse readState0 rest) as [[]|].
Qed.

Lemma parse_array_header n rest st :
  ready st → 0 <= n → n * 16 <= maxAlloc → n ≠ 0 →
  parse st ("*"%char :: FormatInt n ++ CRLF ++ rest)
  = parse (mkReadState 0 n false (Some []) true) rest.
Proof.
  intros [Hm Hb] H1 H2 H3. rewrite parse_unfold_cons by done. unfold parse_step.
  rewrite readLine_line by (done || apply FormatInt_no_LF).
  cbn [mbind outcome_bind]. rewrite Hm. cbn [negb].
  rewrite parseArrayHeader_spec by done. rewrite Hm, Hb. cbn [mbind outcome_bind arrayLen].
  destruct (Z.eqb_spec n (-1)); [lia|]. destruct (Z.eqb_spec n 0); [lia|].
  by destruct (parse _ rest) as [[]|].
Qed.

Lemma parse_value d rest :
  wire_ok d →
  parse readState0 (ToBytes d ++ rest)
  = match parse readState0 rest with
    | Some (out, fin) => Some (emit d :: out, fin)
    | None => None
    end.
Proof.
  intros Hok.
  destruct d as [s|s|n|s|b|[l|]]; try (rewrite parse_scalar by done; done).
  - destruct Hok as [Hl Hn]. pose proof (zlen_nonneg l).
    destruct l as [|d l].
    { change (ToBytes (ArrayData (Some []))) with ("*"%char :: FormatInt 0 ++ CRLF).
      cbn [app]. rewrite <- !(assoc_L (++)), parse_unfold_cons by done. unfold parse_step.
      rewrite readLine_line by (done || apply FormatInt_no_LF). cbn [mbind outcome_bind].
      change (negb (multiLine readState0)) with true. cbv iota.
      rewrite parseArrayHeader_spec by done. done. }
    cbn [ToBytes app]. rewrite <- !(assoc_L (++)).
    rewrite parse_array_header; [|done|lia|lia|rewrite zlen_cons; pose proof (zlen_nonneg l); lia].
    by rewrite parse_elements.
  - change (ToBytes (ArrayData None)) with ("*"%char :: FormatInt (-1) ++ CRLF).
    cbn [app]. rewrite <- !(assoc_L (++)), parse_unfold_cons by done. unfold parse_step.
    rewrite readLine_line by (done || apply FormatInt_no_LF). done.
Qed.

Lemma parse_values ds rest :
  Forall wire_ok ds →
  parse readState0 (concat (map ToBytes ds) ++ rest)
  = match parse readState0 rest with
    | Some (out, fin) => Some (map emit ds ++ out, fin)
    | None => None
    end.
Proof.
  induction 1 as [|d ds Hd Hds IH]; cbn [map concat app].
  { by destruct (parse readState0 rest) as [[]|]. }
  rewrite <- (assoc_L (++)), parse_value, IH by done.
  by destruct (parse readState0 rest) as [[]|].
Qed.

(** ** How a connection ends *)
Lemma readLine_recoverable inp st : recoverable (readLine inp st).
Proof.
  unfold readLine. repeat (case_match || apply recoverable_bind || intros ?); try done;
    unfold from_end; by case_match.
Qed.

Lemma parse_step_recoverable st inp : recoverable (parse_step st inp).
Proof.
  assert (∀ d s, recoverable (deliver d s)) as Hd.
  { intros d s. unfold deliver. by repeat case_match. }
  assert (∀ m, recoverable (body1 m)) as Hb.
  { intros m. unfold body1. by case_match. }
  unfold parse_step, parseArrayHeader, parseBulkHeader, parseSingleLine.
  apply recoverable_bind; [apply readLine_recoverable|].
  intros [[[msg|[]] s] rest]; simpl; try done.
  repeat (case_match || apply recoverable_bind || intros ?); by try apply Hd.
Qed.

Lemma parse_step_closes st inp out :
  parse_step st inp = Ret (out, None) → out = [emit_err io_EOF].
Proof.
  unfold parse_step. intros H.
  destruct (readLine inp st) as [[[[msg|[]] s] rest]| | |]; simpl in H; simplify_eq; try done.
  destruct (negb (multiLine s)).
  - destruct msg as [|[[] [] [] [] [] [] [] []] msg]; bind_inv H;
      repeat case_match; bind_inv H; by simplify_eq.
  - destruct (parseMultiLine msg); [|done]. by bind_inv H.
Qed.

(** The channel is closed only at end of file. *)
Lemma parse_step_open st inp out : is_Some rend → parse_step st inp ≠ Ret (out, None).
Proof.
  intros [e He] H. unfold parse_step in H.
  destruct (readLine inp st) as [[[[msg|err] s] rest]| | |] eqn:E; simpl in H; [| |done..].
  - destruct (negb (multiLine s)).
    + destruct msg as [|[[] [] [] [] [] [] [] []] msg]; bind_inv H;
        repeat case_match; bind_inv H; by simplify_eq.
    + destruct (parseMultiLine msg); [|done]. by bind_inv H.
  - assert (err ≠ io_EOF) as Hn; [|by destruct err].
    unfold readLine, read_error, invalid_msg in E. rewrite He in E. intros ->.
    repeat match type of E with
    | context [from_end ?m ?k] => destruct (from_end m k); simpl in E; try discriminate E
    | _ => case_match
    end; by simplify_eq.
Qed.

(** ** After the last byte *)
Lemma parse_step_end e : rend = Some e →
  parse_step readState0 [] = Ret ([emit_err (errorString e)], Some (readState0, [])).
Proof. intros H. unfold parse_step, readLine, read_error. by rewrite H. Qed.

Lemma iterations_end e n : rend = Some e →
  iterations n readState0 [] = (replicate n (emit_err (errorString e)), Some (readState0, [])).
Proof.
  intros H. induction n as [|n IH]; [done|]. cbn [iterations].
  rewrite (parse_step_end e H), IH. done.
Qed.

(** How the loop ends from any state. *)
Lemma parse_ends st inp :
  ∃ out fin, parse st inp = Some (out, fin) ∧
    (fin = Panics ∨
     match rend with
     | None => fin = Ret tt ∧ ∃ out', out = out' ++ [emit_err io_EOF]
     | Some e =>
         fin = Blocks ∧ ∃ out' k, out = out' ++ [emit_err (errorString e)] ∧
           ∀ n, iterations (k + n) st inp
                = (out ++ replicate n (emit_err (errorString e)), Some (readState0, []))
     end).
Proof.
  remember (length inp) as n eqn:En. revert inp En st.
  induction n as [n IH] using lt_wf_ind; intros inp -> st.
  rewrite parse_unfold. pose proof (parse_step_recoverable st inp) as Hr.
  destruct (parse_step st inp) as [[out [[st' rest]|]]| | |] eqn:E; [| |by eauto 10|done..].
  - pose proof E as Es. apply parse_step_consumes in E as [E|(-> & -> & -> & e & He & ->)].
    + destruct (IH _ E rest eq_refl st') as (out' & fin & -> & H).
      destruct inp as [|c inp]; [simpl in E; lia|].
      exists (out ++ out'), fin. split; [done|]. destruct H as [->|H]; [by left|right].
      destruct rend as [e|].
      * destruct H as (-> & o & k & -> & H). split; [done|]. exists (out ++ o), (S k).
        split; [by rewrite (assoc_L (++))|]. intros m. cbn [plus iterations]. rewrite Es, H.
        by rewrite !(assoc_L (++)).
      * destruct H as (-> & o & ->). split; [done|]. exists (out ++ o).
        by rewrite (assoc_L (++)).
    + do 2 eexists. split; [done|]. right. rewrite He. split; [done|]. exists [], 1%nat.
      split; [done|]. intros m. cbn [plus iterations]. by rewrite Es, (iterations_end e).
  - pose proof (parse_step_closes _ _ _ E) as ->. do 2 eexists. split; [done|]. right.
    destruct rend as [e|] eqn:He; [|split; [done|]; by exists []].
    exfalso. revert E. apply parse_step_open. by rewrite He.
Qed.
End parser.

(** C4: decoding inverts encoding on a whole connection.  For every sequence of
    values the server or a client may put on the wire (line payloads without a
    line feed, integers of 64 bits, lengths the allocator can serve, arrays of
    scalars), [ParseStream] on the concatenation of their [ToBytes] delivers
    exactly these values in order, then end of file, and closes the channel. *)
Theorem ParseStream_ToBytes (ds : list RedisData) :
  Forall wire_ok ds →
  ParseStream None (concat (map ToBytes ds)) = Some (map emit ds ++ [emit_err io_EOF], Ret tt).
Proof.
  unfold ParseStream. induction 1 as [|d ds Hd Hds IH]; [done|].
  cbn [map concat]. by rewrite parse_value, IH.
Qed.

Lemma ParseStream_ToBytes_witness :
  ParseStream None (concat (map ToBytes
    [StringData (lit "OK"); IntData (-20);
     ArrayData (Some [BulkData (Some (lit "GET")); BulkData None])]))
  = Some (map emit [StringData (lit "OK"); IntData (-20);
     ArrayData (Some [BulkData (Some (lit "GET")); BulkData None])]
     ++ [emit_err io_EOF], Ret tt).
Proof.
  apply ParseStream_ToBytes. repeat constructor; try (vm_compute; discriminate).
  by apply (bool_decide_unpack (LF ∉ lit "OK")).
Defined.

(** C37: how the parser goroutine ends, on every byte string and however the reader ends.
    If the input ends in end of file, [ParseStream] has delivered end of file last and
    closed the channel.  If reading fails with another error (a connection reset or closed
    under it, a deadline), which then comes back at every read, the goroutine never returns
    and never closes the channel: from some iteration on, every iteration sends that error
    once more.  In both cases the only other end is a panic of the goroutine. *)
Theorem ParseStream_ends (rend : option bytes) (inp : bytes) :
  ∃ out fin, ParseStream rend inp = Some (out, fin) ∧
    (fin = Panics ∨
     match rend with
     | None => fin = Ret tt ∧ ∃ out', out = out' ++ [emit_err io_EOF]
     | Some e =>
         fin = Blocks ∧ ∃ out' k, out = out' ++ [emit_err (errorString e)] ∧
           ∀ n, iterations rend (k + n) readState0 inp
                = (out ++ replicate n (emit_err (errorString e)), Some (readState0, []))
     end).
Proof.
  apply parse_ends.
Qed.

(** a blank line kills the parser goroutine.  After any sequence of valid
    values, an empty line (a lone line feed, or CR LF) makes [readLine] or
    [parseSingleLine] index below zero: the goroutine panics, and nothing
    recovers it, although the comment of [readLine] announces a protocol error. *)
Theorem ParseStream_blank_line_panics (rend : option bytes) (ds : list RedisData) (rest : bytes) :
  Forall wire_ok ds →
  ParseStream rend (concat (map ToBytes ds) ++ LF :: rest) = Some (map emit ds, Panics)
  ∧ ParseStream rend (concat (map ToBytes ds) ++ CRLF ++ rest) = Some (map emit ds, Panics).
Proof.
  intros H. unfold ParseStream. rewrite !parse_values by done.
  rewrite !(parse_unfold rend readState0). simpl. by rewrite app_nil_r.
Qed.

Lemma ParseStream_blank_line_panics_witness :
  ParseStream None (concat (map ToBytes [StringData (lit "OK")]) ++ LF :: [])
    = Some (map emit [StringData (lit "OK")], Panics)
  ∧ ParseStream None (concat (map ToBytes [StringData (lit "OK")]) ++ CRLF ++ [])
    = Some (map emit [StringData (lit "OK")], Panics).
Proof.
  apply ParseStream_blank_line_panics. repeat constructor.
  by apply (bool_decide_unpack (LF ∉ lit "OK")).
Defined.

(** inline text does not survive the round trip.  A line whose first byte is
    no RESP type byte is delivered as plain data without its first byte, so
    encoding [PlainData] and parsing it back never returns the same value. *)
Theorem ParseStream_PlainData (c : ascii) (s : bytes) :
  c ∉ lit "+-:*$" → c ≠ LF → LF ∉ s →
  ParseStream None (ToBytes (PlainData (c :: s)))
  = Some ([emit (PlainData s); emit_err io_EOF], Ret tt).
Proof.
  intros Hc Hl Hs. unfold ParseStream.
  change (ToBytes (PlainData (c :: s))) with (c :: s ++ CRLF).
  rewrite <- (app_nil_r CRLF). rewrite (single_line_step None c s (PlainData s)); try done.
  - intros ->. by apply Hc, (bool_decide_unpack _).
  - intros ->. by apply Hc, (bool_decide_unpack _).
  - unfold parseSingleLine. rewrite body1_line. simpl.
    destruct c as [[] [] [] [] [] [] [] []]; try done;
      exfalso; by apply Hc, (bool_decide_unpack _).
Qed.

Lemma ParseStream_PlainData_witness :
  ParseStream None (ToBytes (PlainData ("P"%char :: lit "ING")))
  = Some ([emit (PlainData (lit "ING")); emit_err io_EOF], Ret tt).
Proof.
  apply (ParseStream_PlainData "P"%char (lit "ING"));
    by apply (bool_decide_unpack _).
Defined.
