(* ===== verification/Util.v ===== *)
(** * Key hashing and glob matching

    [src/pkg/util/util.go]: [HashKey], whose murmur3 digest is a parameter
    ([Host]), and [PatternMatch], the matcher behind the [KEYS] command, with a
    declarative reading of glob patterns to compare it with. *)

From S2P Require Import Prelude.
From Stdlib Require Import Ascii String ZArith Lia.
From stdpp Require Import prelude gmap strings list.
Open Scope Z_scope.

(** ** [HashKey] *)
Section HashKey.
Context `{Host}.

(** [strconv.IntSize] on the supported platforms. *)
Definition IntSize : Z := 64.

Definition HashKey (key : bytes) : Z :=
  let seed := 305441741 (* 0x1234ABCD *) in
  let h := murmur3_Sum64WithSeed key seed in
  if IntSize =? 32 then h mod 2 ^ 32
  else Z.land h MaxInt64.

Lemma HashKey_range key : 0 <= HashKey key <= MaxInt64.
Proof.
  unfold HashKey. change (IntSize =? 32) with false. cbv iota zeta.
  unfold MaxInt64. change (2 ^ 63 - 1) with (Z.ones 63).
  rewrite Z.land_ones by lia.
  pose proof (Z.mod_pos_bound (murmur3_Sum64WithSeed key 305441741) (2 ^ 63)).
  change (Z.ones 63) with (2 ^ 63 - 1). lia.
Qed.

(** Masking a hash with [2^k - 1] selects one of [2^k] slots. *)
Lemma HashKey_mask key k : 0 <= k → 0 <= Z.land (HashKey key) (2 ^ k - 1) < 2 ^ k.
Proof.
  intros Hk. replace (2 ^ k - 1) with (Z.ones k) by (rewrite Z.ones_equiv; lia).
  rewrite Z.land_ones by done. apply Z.mod_pos_bound. by apply Z.pow_pos_nonneg.
Qed.
End HashKey.

(** ** [PatternMatch]

    The loop of the code keeps [patPos] and [srcPos]; here [pat] is
    [pattern[patPos:]] and [src] is [src[srcPos:]].  The mode says where in
    the loop body the code is: at the [switch], skipping the stars of a
    [case '*'], or in the loop of [case '['] with the flags [not] and [match]
    and the byte [pattern[patPos-1]]. *)
Inductive pmode :=
  | Switch
  | Star
  | Bracket (not : bool) (prev : ascii) (mtch : bool).

Definition is_star (c : ascii) : bool := bool_decide (c = "*"%char).

(** The inner loops of [case '*']: advance to the next occurrence of [x], try
    the rest of the pattern after it, else step over it.  When no occurrence
    is left the code still takes [src[srcPos+1:]], beyond the end: a panic. *)
Fixpoint star_find (f : bytes → outcome bool) (x : ascii) (src : bytes) : outcome bool :=
  match src with
  | [] => Panics
  | c :: s =>
      if bool_decide (c = x) then
        r ← f s;
        if (r : bool) then Ret true
        else match s with [] => Ret false | _ => star_find f x s end
      else star_find f x s
  end.

(** The guards at the entry of [PatternMatch]; [k] is its loop. *)
Definition pm_entry (k : bytes → outcome bool) (pat src : bytes) : outcome bool :=
  match pat with
  | [] => Ret (bool_decide (src = []))
  | _ => match src with
         | [] => Ret (forallb is_star pat)
         | _ => k src
         end
  end.

Fixpoint pm_loop (mode : pmode) (pat src : bytes) {struct pat} : outcome bool :=
  (* after the switch: when [src] is consumed only stars may remain *)
  let next rest src :=
    match src with
    | [] => Ret (forallb is_star rest)
    | _ => pm_loop Switch rest src
    end in
  match mode with
  | Switch =>
      match pat with
      | [] => Ret (bool_decide (src = []))
      | "*"%char :: rest => pm_loop Star rest src
      | p :: rest =>
          match src with
          | [] => Panics
          | c :: s =>
              match p with
              | "?"%char => next rest s
              | "["%char =>
                  match rest with
                  | [] => Ret false
                  | "^"%char :: rest' => pm_loop (Bracket true "^"%char false) rest' src
                  | _ => pm_loop (Bracket false "["%char false) rest src
                  end
              | "\"%char =>
                  (* no [fallthrough]: the escaped byte is skipped, not compared *)
                  match rest with
                  | [] => Ret false
                  | _ :: rest' => next rest' src
                  end
              | _ => if bool_decide (p = c) then next rest s else Ret false
              end
          end
      end
  | Star =>
      match pat with
      | [] => Ret true
      | "*"%char :: rest => pm_loop Star rest src
      | x :: rest => star_find (pm_entry (pm_loop Switch rest) rest) x src
      end
  | Bracket not prev mtch =>
      match src with
      | [] => Panics
      | c :: s =>
          match pat with
          | [] => Ret false
          | "\"%char :: rest =>
              match rest with
              | [] => Ret false
              | x :: rest' => pm_loop (Bracket not x (mtch || bool_decide (x = c))) rest' src
              end
          | "]"%char :: rest => if xorb not mtch then next rest s else Ret false
          | "-"%char :: rest =>
              match rest with
              | [] => Ret false
              | "]"%char :: _ => Ret false
              | e :: rest' =>
                  let hit := (code prev <=? code c) && (code c <=? code e) in
                  pm_loop (Bracket not e (mtch || hit)) rest' src
              end
          | x :: rest => pm_loop (Bracket not x (mtch || bool_decide (x = c))) rest src
          end
      end
  end.

Definition PatternMatch (pattern src : bytes) : outcome bool :=
  pm_entry (pm_loop Switch pattern) pattern src.

Example pm_ex :
  map (λ '(p, s), PatternMatch (lit p) (lit s))
    [("h?llo", "hello"); ("h*llo", "heeeello"); ("h[ae]llo", "hallo");
     ("h[ae]llo", "hillo"); ("h[^e]llo", "hallo"); ("h[a-b]llo", "hbllo"); ("*a", "b")]%string
  = [Ret true; Ret true; Ret true; Ret false; Ret true; Ret true; Panics].
Proof. vm_compute. reflexivity. Qed.

(** ** Equations of the loop, one per kind of pattern byte *)
Definition special : bytes := lit "*?[\".

Definition pm_next (rest src : bytes) : outcome bool :=
  match src with
  | [] => Ret (forallb is_star rest)
  | _ => pm_loop Switch rest src
  end.

(** Case analysis on the value of a byte known not to be special. *)
Ltac by_byte c H :=
  destruct c as [[] [] [] [] [] [] [] []]; try done;
  exfalso; apply H; by apply (bool_decide_unpack _).

Lemma pm_lit p rest c s :
  p ∉ special →
  pm_loop Switch (p :: rest) (c :: s)
  = if bool_decide (p = c) then pm_next rest s else Ret false.
Proof. intros Hp. by_byte p Hp. Qed.

Lemma pm_any rest c s : pm_loop Switch ("?"%char :: rest) (c :: s) = pm_next rest s.
Proof. done. Qed.

Lemma pm_star rest s : pm_loop Switch ("*"%char :: rest) s = pm_loop Star rest s.
Proof. done. Qed.

Lemma pm_star_lit x rest s :
  x ≠ "*"%char → pm_loop Star (x :: rest) s = star_find (PatternMatch rest) x s.
Proof. intros Hx. destruct x as [[] [] [] [] [] [] [] []]; done. Qed.

Lemma PatternMatch_cons p pat c s : PatternMatch (p :: pat) (c :: s) = pm_loop Switch (p :: pat) (c :: s).
Proof. done. Qed.

Lemma pm_next_entry rest s : pm_next rest s = PatternMatch rest s.
Proof. by destruct rest, s. Qed.

(** ** The meaning of a pattern of literals, [?] and [*] *)
Inductive glob : bytes → bytes → Prop :=
  | glob_nil : glob [] []
  | glob_star_skip p s : glob p s → glob ("*"%char :: p) s
  | glob_star_take p c s : glob ("*"%char :: p) s → glob ("*"%char :: p) (c :: s)
  | glob_any p c s : glob p s → glob ("?"%char :: p) (c :: s)
  | glob_lit p c s : c ∉ special → glob p s → glob (c :: p) (c :: s).

Lemma glob_stars p : forallb is_star p = true → glob p [].
Proof.
  induction p as [|c p IH]; simpl; [constructor|].
  intros [Hc Hp]%andb_true_iff. apply bool_decide_eq_true in Hc as ->.
  constructor. auto.
Qed.

Lemma glob_star_app p s t : glob p t → glob ("*"%char :: p) (s ++ t).
Proof. intros Hg. induction s as [|c s IH]; simpl; by constructor. Qed.

Lemma star_find_sound f x s :
  star_find f x s = Ret true → ∃ s1 s2, s = s1 ++ (x :: s2) ∧ f s2 = Ret true.
Proof.
  induction s as [|c s IH]; simpl; [done|].
  case_bool_decide as Hc; [subst c|].
  - destruct (f s) as [[]| | |] eqn:E; simpl; try done; [intros _; by exists [], s|].
    destruct s as [|c' s']; [done|]. intros (s1 & s2 & -> & ?)%IH.
    by exists (x :: s1), s2.
  - intros (s1 & s2 & -> & ?)%IH. by exists (c :: s1), s2.
Qed.

Definition simple_pattern (p : bytes) : Prop := ("["%char ∉ p) ∧ ("\"%char ∉ p).

Lemma simple_cons c p : simple_pattern (c :: p) → simple_pattern p.
Proof. intros [H1%not_elem_of_cons H2%not_elem_of_cons]. split; tauto. Qed.

Lemma simple_kind c p :
  simple_pattern (c :: p) → c = "*"%char ∨ c = "?"%char ∨ c ∉ special.
Proof.
  intros [[H1 _]%not_elem_of_cons [H2 _]%not_elem_of_cons].
  destruct (decide (c = "*"%char)); [by left|].
  destruct (decide (c = "?"%char)); [by right; left|]. right; right.
  unfold special. simpl. rewrite !not_elem_of_cons, elem_of_nil. naive_solver.
Qed.

(** The three facts about a pattern that the induction needs together. *)
Lemma pm_sound p :
  simple_pattern p →
  (∀ s, s ≠ [] → pm_loop Switch p s = Ret true → glob p s) ∧
  (∀ s, pm_loop Star p s = Ret true → glob ("*"%char :: p) s) ∧
  (∀ s, PatternMatch p s = Ret true → glob p s).
Proof.
  induction p as [|x p IH]; intros Hs.
  { split_and!; [by intros [|c s]| |].
    - intros s _. rewrite <- (app_nil_r s). apply glob_star_app. constructor.
    - intros [|c s]; [constructor|done]. }
  destruct (IH (simple_cons _ _ Hs)) as (IH1 & IH2 & IH3).
  assert (∀ s, pm_next p s = Ret true → glob p s) as IHn.
  { intros [|c s]; [intros [= ?]; by apply glob_stars|]. by apply IH1. }
  assert (∀ s, s ≠ [] → pm_loop Switch (x :: p) s = Ret true → glob (x :: p) s) as H1.
  { intros [|c s] Hne; [done|]. destruct (simple_kind _ _ Hs) as [->|[->|Hx]].
    - rewrite pm_star. apply IH2.
    - rewrite pm_any. intros ?. constructor. auto.
    - rewrite pm_lit by done. case_bool_decide; [subst|done]. intros. constructor; auto. }
  split_and!; [done| |].
  - intros s. destruct (decide (x = "*"%char)) as [->|Hx].
    { intros H. constructor. by apply IH2. }
    rewrite pm_star_lit by done. intros (s1 & s2 & -> & Hg)%star_find_sound.
    apply glob_star_app. destruct (simple_kind _ _ Hs) as [->|[->|Hk]]; [done| |];
      constructor; auto.
  - intros [|c s]; [intros [= ?]; by apply glob_stars|]. by apply H1.
Qed.

(** a reported match is a match.  For every pattern of literals, [?] and
    [*], and every key, when [PatternMatch] returns true the key is in the
    language of the pattern. *)
Theorem PatternMatch_sound (pattern src : bytes) :
  simple_pattern pattern → PatternMatch pattern src = Ret true → glob pattern src.
Proof. intros Hp. by apply pm_sound. Qed.

Lemma PatternMatch_sound_witness : glob (lit "h*llo") (lit "heeeello").
Proof.
  apply PatternMatch_sound; [split; by apply (bool_decide_unpack _)|].
  vm_compute. reflexivity.
Defined.

(** The test a pattern without stars stands for. *)
Fixpoint match_plain (p s : bytes) : bool :=
  match p, s with
  | [], [] => true
  | x :: p, c :: s => (bool_decide (x = "?"%char) || bool_decide (x = c)) && match_plain p s
  | _, _ => false
  end.

Lemma star_free_next p s :
  "*"%char ∉ p → pm_next p s = if s is [] then Ret (bool_decide (p = [])) else pm_loop Switch p s.
Proof.
  intros Hp. destruct s; [|done]. simpl. f_equal. destruct p as [|x p]; [done|].
  apply not_elem_of_cons in Hp as [Hx _]. simpl.
  unfold is_star. by rewrite bool_decide_eq_false_2 by congruence.
Qed.

Lemma pm_star_free p s :
  simple_pattern p → "*"%char ∉ p → pm_next p s = Ret (match_plain p s).
Proof.
  revert s. induction p as [|x p IH]; intros s Hs Hst; [by destruct s|].
  apply not_elem_of_cons in Hst as [Hx Hst].
  rewrite star_free_next by (by rewrite not_elem_of_cons).
  destruct s as [|c s]; [by rewrite bool_decide_eq_false_2|].
  specialize (IH s (simple_cons _ _ Hs) Hst). simpl match_plain.
  destruct (simple_kind _ _ Hs) as [->|[->|Hk]]; [done|by rewrite pm_any|].
  rewrite pm_lit by done.
  rewrite (bool_decide_eq_false_2 (x = "?"%char))
    by (intros ->; apply Hk; by apply (bool_decide_unpack _)).
  by case_bool_decide.
Qed.

Lemma match_plain_glob p s :
  simple_pattern p → "*"%char ∉ p → match_plain p s = true ↔ glob p s.
Proof.
  revert s. induction p as [|x p IH]; intros s Hs Hst.
  { destruct s; simpl; split; intros H; try done; [constructor|inversion H]. }
  apply not_elem_of_cons in Hst as [Hx Hst]. specialize (IH (tail s) (simple_cons _ _ Hs) Hst).
  destruct s as [|c s]; simpl in *.
  { split; [done|]. intros H. inversion H; subst; done. }
  rewrite andb_true_iff, orb_true_iff, !bool_decide_eq_true, IH. split.
  - intros [[->| ->] Hg]; [by constructor|].
    destruct (simple_kind _ _ Hs) as [->|[->|Hk]]; [done|by constructor|by constructor].
  - intros H. inversion H; subst; try done; auto.
Qed.

(** Exactness without stars: on a pattern of literals and [?] the matcher
    always returns, and its answer is true exactly for the keys the pattern
    denotes. *)
Theorem PatternMatch_star_free (pattern src : bytes) :
  simple_pattern pattern → "*"%char ∉ pattern →
  ∃ b, PatternMatch pattern src = Ret b ∧ (b = true ↔ glob pattern src).
Proof.
  intros Hs Hst. exists (match_plain pattern src). split; [|by apply match_plain_glob].
  destruct pattern as [|x p]; [by destruct src|].
  by rewrite <- pm_next_entry, pm_star_free.
Qed.

Lemma PatternMatch_star_free_witness :
  ∃ b, PatternMatch (lit "h?llo") (lit "hillo") = Ret b ∧ (b = true ↔ glob (lit "h?llo") (lit "hillo")).
Proof.
  apply PatternMatch_star_free; [split|]; by apply (bool_decide_unpack _).
Defined.

(** The test of a literal prefix. *)
Fixpoint is_prefix (p s : bytes) : bool :=
  match p, s with
  | [], _ => true
  | x :: p, c :: s => bool_decide (x = c) && is_prefix p s
  | _ :: _, [] => false
  end.

Lemma is_prefix_spec p s : is_prefix p s = true ↔ p `prefix_of` s.
Proof.
  revert s. induction p as [|x p IH]; intros s; simpl.
  { split; [intros _; apply prefix_nil|done]. }
  destruct s as [|c s].
  { split; [done|]. intros H. by apply prefix_nil_not in H. }
  rewrite andb_true_iff, bool_decide_eq_true, IH. split.
  - intros [-> ?]. by apply prefix_cons.
  - intros H. split; [by eapply prefix_cons_inv_1|by eapply prefix_cons_inv_2].
Qed.

Lemma pm_prefix p s :
  Forall (λ c, c ∉ special) p → pm_next (p ++ ["*"%char]) s = Ret (is_prefix p s).
Proof.
  revert s. induction p as [|x p IH]; intros s Hp; [by destruct s|].
  apply Forall_cons in Hp as [Hx Hp]. destruct s as [|c s].
  - simpl. f_equal. apply andb_false_iff. left. apply bool_decide_eq_false_2.
    intros ->. apply Hx. by apply (bool_decide_unpack _).
  - cbn [app pm_next]. rewrite pm_lit by done. simpl. case_bool_decide; [|done]. by apply IH.
Qed.

(** prefix scans are exact.  For a pattern made of ordinary bytes followed by
    one star, [PatternMatch] returns for every key, with true exactly when the
    key starts with these bytes. *)
Theorem PatternMatch_prefix (p src : bytes) :
  Forall (λ c, c ∉ special) p →
  PatternMatch (p ++ ["*"%char]) src = Ret (bool_decide (p `prefix_of` src)).
Proof.
  intros Hp. rewrite <- pm_next_entry. rewrite pm_prefix by done.
  f_equal. pose proof (is_prefix_spec p src). case_bool_decide as H1.
  - tauto.
  - destruct (is_prefix p src); [tauto|done].
Qed.

Lemma PatternMatch_prefix_witness :
  PatternMatch (lit "user:" ++ ["*"%char]) (lit "user:17")
  = Ret (bool_decide (lit "user:" `prefix_of` lit "user:17")).
Proof.
  apply PatternMatch_prefix.
  apply (bool_decide_unpack _). vm_compute. exact I.
Defined.

Lemma star_find_absent f x s : x ∉ s → star_find f x s = Panics.
Proof.
  induction s as [|c s IH]; simpl; [done|]. intros [Hc Hs]%not_elem_of_cons.
  rewrite bool_decide_eq_false_2 by congruence. auto.
Qed.

(** a star in front of a byte the key does not contain panics.  Instead of
    answering false, [PatternMatch] slices beyond the end of the key; [KEYS]
    with such a pattern ends the connection as soon as one key lacks the byte. *)
Theorem PatternMatch_star_panics (x : ascii) (rest src : bytes) :
  x ≠ "*"%char → src ≠ [] → x ∉ src →
  PatternMatch ("*"%char :: x :: rest) src = Panics.
Proof.
  intros Hx Hne Hs. destruct src as [|c s]; [done|].
  rewrite PatternMatch_cons, pm_star, pm_star_lit by done.
  by apply star_find_absent.
Qed.

Lemma PatternMatch_star_panics_witness : PatternMatch (lit "*a") (lit "bcd") = Panics.
Proof.
  apply (PatternMatch_star_panics "a"%char [] (lit "bcd"));
    by apply (bool_decide_unpack _).
Defined.

(** The bytes without a meaning of their own inside brackets. *)
Definition class_byte (c : ascii) : Prop := c ∉ lit "\]-".

Lemma pm_bracket_lit not prev m x rest c s :
  class_byte x →
  pm_loop (Bracket not prev m) (x :: rest) (c :: s)
  = pm_loop (Bracket not x (m || bool_decide (x = c))) rest (c :: s).
Proof. intros Hx. unfold class_byte in Hx. by_byte x Hx. Qed.

Lemma pm_bracket_class not prev m cs rest c s :
  Forall class_byte cs →
  pm_loop (Bracket not prev m) (cs ++ "]"%char :: rest) (c :: s)
  = if xorb not (m || bool_decide (c ∈ cs)) then pm_next rest s else Ret false.
Proof.
  revert prev m. induction cs as [|x cs IH]; intros prev m Hcs; cbn [app].
  { rewrite bool_decide_eq_false_2 by apply not_elem_of_nil. rewrite orb_false_r. done. }
  apply Forall_cons in Hcs as [Hx Hcs]. rewrite pm_bracket_lit, IH by done.
  assert (bool_decide (c ∈ x :: cs) = bool_decide (x = c) || bool_decide (c ∈ cs)) as ->.
  { destruct (decide (x = c)) as [->|Hne].
    - rewrite (bool_decide_eq_true_2 (c = c)) by done.
      rewrite bool_decide_eq_true_2; [done|]. rewrite elem_of_cons. by left.
    - rewrite (bool_decide_eq_false_2 (x = c)) by done. simpl.
      apply bool_decide_ext. rewrite elem_of_cons. split; [by intros [->|?]|by right]. }
  by rewrite orb_assoc.
Qed.

(** bracket expressions.  [[cs]] consumes one byte of the key, one of the
    listed ones; [[^cs]] one that is not listed; [[a-b]] one between the two
    bounds; the rest of the key is matched against the rest of the pattern. *)
Theorem PatternMatch_class (cs rest : bytes) (a b c : ascii) (s : bytes) :
  Forall class_byte (a :: b :: cs) → a ≠ "^"%char → head cs ≠ Some "^"%char → cs ≠ [] →
  PatternMatch ("["%char :: cs ++ "]"%char :: rest) (c :: s)
    = (if bool_decide (c ∈ cs) then PatternMatch rest s else Ret false)
  ∧ PatternMatch ("["%char :: "^"%char :: cs ++ "]"%char :: rest) (c :: s)
    = (if bool_decide (c ∈ cs) then Ret false else PatternMatch rest s)
  ∧ PatternMatch ("["%char :: a :: "-"%char :: b :: "]"%char :: rest) (c :: s)
    = (if bool_decide (c = a) || ((code a <=? code c) && (code c <=? code b))
       then PatternMatch rest s else Ret false).
Proof.
  intros [Ha [Hb Hcs]%Forall_cons]%Forall_cons Hna Hh Hne. rewrite !PatternMatch_cons. split_and!.
  - assert (∀ q, pm_loop Switch ("["%char :: cs ++ q) (c :: s)
      = pm_loop (Bracket false "["%char false) (cs ++ q) (c :: s)) as ->.
    { intros q. destruct cs as [|x cs]; [done|].
      destruct x as [[] [] [] [] [] [] [] []]; done. }
    rewrite pm_bracket_class by done. simpl. rewrite pm_next_entry. done.
  - change (pm_loop Switch ("["%char :: "^"%char :: cs ++ "]"%char :: rest) (c :: s))
      with (pm_loop (Bracket true "^"%char false) (cs ++ "]"%char :: rest) (c :: s)).
    rewrite pm_bracket_class by done. rewrite pm_next_entry. by case_bool_decide.
  - assert (pm_loop Switch ("["%char :: a :: "-"%char :: b :: "]"%char :: rest) (c :: s)
      = pm_loop (Bracket false a (bool_decide (a = c))) ("-"%char :: b :: "]"%char :: rest) (c :: s)) as ->.
    { unfold class_byte in Ha. by_byte a Ha. }
    assert (∀ m, pm_loop (Bracket false a m) ("-"%char :: b :: "]"%char :: rest) (c :: s)
      = if m || ((code a <=? code c) && (code c <=? code b)) then pm_next rest s else Ret false) as ->.
    { intros m. unfold class_byte in Hb. by_byte b Hb. }
    rewrite pm_next_entry. rewrite (bool_decide_ext (a = c) (c = a)); [done|]. split; congruence.
Qed.

Lemma PatternMatch_class_witness :
  PatternMatch (lit "[ae]llo") (lit "allo")
    = (if bool_decide ("a"%char ∈ lit "ae") then PatternMatch (lit "llo") (lit "llo") else Ret false)
  ∧ PatternMatch (lit "[^ae]llo") (lit "allo")
    = (if bool_decide ("a"%char ∈ lit "ae") then Ret false else PatternMatch (lit "llo") (lit "llo"))
  ∧ PatternMatch (lit "[0-9]llo") (lit "allo")
    = (if bool_decide ("a"%char = "0"%char)
          || ((code "0" <=? code "a") && (code "a" <=? code "9"))
       then PatternMatch (lit "llo") (lit "llo") else Ret false).
Proof.
  apply (PatternMatch_class (lit "ae") (lit "llo") "0" "9" "a" (lit "llo")); try done.
  repeat constructor; by apply (bool_decide_unpack _).
Defined.

(** the backslash does not escape.  The documentation promises that a
    backslash matches the next byte verbatim; the [case] does not fall through
    to the comparison, so the escaped byte is dropped and the key byte stays:
    an escaped byte never matches the key consisting of that byte. *)
Theorem PatternMatch_escape_never_matches (c : ascii) :
  PatternMatch ["\"%char; c] [c] = Ret false.
Proof. done. Qed.
