(* ===== verification/CMap.v ===== *)
(** * The sharded concurrent map

    [src/pkg/memdb/concurrentmap.go]: shards that are short linked lists and
    become red-black trees when they grow ([linkedList], [treeWrapper], [shard],
    [ConcurrentMap]).  Every operation runs under the mutex of one shard, so it
    is one atomic step here; [SetIfNotExist] releases the read lock before it
    takes the write lock and is two steps.  The tree is the third-party package
    [emirpasic/gods/trees/redblacktree]: an interface with laws.  A node of the
    linked list is reached through exactly one pointer, so the list is a
    functional list of entries; [listNodePool] only recycles memory ([Nodes] proves
    both). *)

From S2P Require Import Prelude Util.
From Stdlib Require Import Ascii String ZArith Lia Sorted.
From stdpp Require Import prelude gmap strings list.
Open Scope Z_scope.

(** ** The red-black tree interface ([redblacktree.Tree] with string keys) *)
Class RBTree (tree : Type → Type) := {
  rb_new {V} : tree V;                        (* NewWithStringComparator *)
  rb_get {V} : bytes → tree V → option V;     (* Get *)
  rb_put {V} : bytes → V → tree V → tree V;   (* Put *)
  rb_remove {V} : bytes → tree V → tree V;    (* Remove *)
  rb_size {V} : tree V → Z;                   (* Size *)
  rb_iter {V} : tree V → list (bytes * V);    (* Iterator: in key order *)
}.

(** The documented behaviour of the package: a map from keys to values whose
    iterator visits every entry once, in increasing key order. *)
Class RBTreeLaws (tree : Type → Type) `{!RBTree tree} := {
  rb_get_new V k : rb_get k (rb_new : tree V) = None;
  rb_get_put V k k' v (t : tree V) :
    rb_get k' (rb_put k v t) = if decide (k = k') then Some v else rb_get k' t;
  rb_get_remove V k k' (t : tree V) :
    rb_get k' (rb_remove k t) = if decide (k = k') then None else rb_get k' t;
  rb_iter_get V k v (t : tree V) : (k, v) ∈ rb_iter t ↔ rb_get k t = Some v;
  rb_iter_sorted V (t : tree V) :
    StronglySorted (λ a b, str_ltb a b = true) (rb_iter t).*1;
  rb_size_iter V (t : tree V) : rb_size t = zlen (rb_iter t);
}.

Definition MaxConSize : Z := 2 ^ 31 - 1.
Definition TreeifyThreshold : Z := 8.
Definition UntreeifyThreshold : Z := 6.

Section CMap.
Context `{Host} {tree : Type → Type} `{!RBTree tree} {V : Type}.

(** ** [linkedList] *)
Record linkedList := mkLinkedList { head : list (bytes * V); count : Z }.

Fixpoint entries_get (key : bytes) (l : list (bytes * V)) : option V :=
  match l with
  | [] => None
  | (k, v) :: l => if decide (k = key) then Some v else entries_get key l
  end.

(** Overwrite the value of the node with [key], if there is one. *)
Fixpoint entries_update (key : bytes) (value : V) (l : list (bytes * V))
    : option (list (bytes * V)) :=
  match l with
  | [] => None
  | (k, v) :: l =>
      if decide (k = key) then Some ((k, value) :: l)
      else cons (k, v) <$> entries_update key value l
  end.

(** Unlink the first node with [key], if there is one. *)
Fixpoint entries_remove (key : bytes) (l : list (bytes * V))
    : option (list (bytes * V)) :=
  match l with
  | [] => None
  | (k, v) :: l =>
      if decide (k = key) then Some l else cons (k, v) <$> entries_remove key l
  end.

Definition linkedList_Get (key : bytes) (l : linkedList) : option V :=
  entries_get key (head l).

Definition linkedList_Put (key : bytes) (value : V) (l : linkedList) : bool * linkedList :=
  match entries_update key value (head l) with
  | Some h => (false, mkLinkedList h (count l))
  | None => (true, mkLinkedList ((key, value) :: head l) (count l + 1))
  end.

Definition linkedList_Remove (key : bytes) (l : linkedList) : bool * linkedList :=
  match entries_remove key (head l) with
  | Some h => (true, mkLinkedList h (count l - 1))
  | None => (false, l)
  end.

Definition linkedList_Size (l : linkedList) : Z := count l.
Definition linkedList_Keys (l : linkedList) : list bytes := (head l).*1.

(** ** [treeWrapper] *)
Definition tree_Put (key : bytes) (value : V) (t : tree V) : bool * tree V :=
  let found := bool_decide (is_Some (rb_get key t)) in
  (negb found, rb_put key value t).

Definition tree_Remove (key : bytes) (t : tree V) : bool * tree V :=
  let found := bool_decide (is_Some (rb_get key t)) in
  (found, if found then rb_remove key t else t).

Definition tree_Keys (t : tree V) : list bytes := (rb_iter t).*1.

(** [drainIntoTree]: the nodes in list order. *)
Definition drainIntoTree (l : linkedList) (t : tree V) : tree V :=
  fold_left (λ t '(k, v), (tree_Put k v t).2) (head l) t.

(** The loop of [Delete] that turns a tree back into a list. *)
Definition drainIntoList (t : tree V) : linkedList :=
  fold_left (λ l '(k, v), (linkedList_Put k v l).2) (rb_iter t) (mkLinkedList [] 0).

(** ** [dataStructure] *)
Inductive dataStructure :=
  | LinkedList (l : linkedList)
  | TreeWrapper (t : tree V).

Definition ds_Get (key : bytes) (d : dataStructure) : option V :=
  match d with
  | LinkedList l => linkedList_Get key l
  | TreeWrapper t => rb_get key t
  end.

Definition ds_Put (key : bytes) (value : V) (d : dataStructure) : bool * dataStructure :=
  match d with
  | LinkedList l => let '(b, l) := linkedList_Put key value l in (b, LinkedList l)
  | TreeWrapper t => let '(b, t) := tree_Put key value t in (b, TreeWrapper t)
  end.

Definition ds_Remove (key : bytes) (d : dataStructure) : bool * dataStructure :=
  match d with
  | LinkedList l => let '(b, l) := linkedList_Remove key l in (b, LinkedList l)
  | TreeWrapper t => let '(b, t) := tree_Remove key t in (b, TreeWrapper t)
  end.

Definition ds_Size (d : dataStructure) : Z :=
  match d with
  | LinkedList l => linkedList_Size l
  | TreeWrapper t => rb_size t
  end.

Definition ds_Keys (d : dataStructure) : list bytes :=
  match d with
  | LinkedList l => linkedList_Keys l
  | TreeWrapper t => tree_Keys t
  end.

(** The conversions at the two thresholds. *)
Definition treeify (d : dataStructure) : dataStructure :=
  match d with
  | LinkedList l =>
      if TreeifyThreshold <=? linkedList_Size l
      then TreeWrapper (drainIntoTree l rb_new) else d
  | TreeWrapper _ => d
  end.

Definition untreeify (d : dataStructure) : dataStructure :=
  match d with
  | TreeWrapper t =>
      if rb_size t <=? UntreeifyThreshold then LinkedList (drainIntoList t) else d
  | LinkedList _ => d
  end.

(** ** [ConcurrentMap] *)
Record ConcurrentMap := mkConcurrentMap {
  shards : list dataStructure;
  shardMask : Z;
  cm_count : Z                     (* int32, updated atomically *)
}.

(** [bits.LeadingZeros32(uint32(i))] guarded as in the code. *)
Definition numberOfLeadingZeros (i : Z) : Z :=
  if i <=? 0 then 32
  else
    let u := i mod 2 ^ 32 in
    if u =? 0 then 32 else 31 - Z.log2 u.

Definition NewConcurrentMap (size : Z) : ConcurrentMap :=
  let size := if (MaxConSize <? size) || (size <=? 0) then MaxConSize else size in
  let size := Z.shiftl 1 (32 - numberOfLeadingZeros (size - 1)) in
  mkConcurrentMap (replicate (Z.to_nat size) (LinkedList (mkLinkedList [] 0))) (size - 1) 0.

Definition getKeyPos (m : ConcurrentMap) (key : bytes) : Z :=
  Z.land (HashKey key) (shardMask m).

(** [m.shards[pos]]: panics when the position is out of range. *)
Definition shard_at (m : ConcurrentMap) (pos : Z) : outcome dataStructure :=
  match shards m !! Z.to_nat pos with
  | Some d => if pos <? 0 then Panics else Ret d
  | None => Panics
  end.

Definition set_shard (pos : Z) (d : dataStructure) (dc : Z) (m : ConcurrentMap)
    : ConcurrentMap :=
  mkConcurrentMap (<[Z.to_nat pos := d]> (shards m)) (shardMask m)
    (int32 (cm_count m + dc)).

Definition Set_ (key : bytes) (value : V) (m : ConcurrentMap) : outcome (Z * ConcurrentMap) :=
  let pos := getKeyPos m key in
  d ← shard_at m pos;
  let '(isNew, d) := ds_Put key value d in
  if (isNew : bool) then Ret (1, set_shard pos (treeify d) 1 m)
  else Ret (0, set_shard pos d 0 m).

Definition Get (key : bytes) (m : ConcurrentMap) : outcome (option V) :=
  d ← shard_at m (getKeyPos m key);
  Ret (ds_Get key d).

Definition Delete (key : bytes) (m : ConcurrentMap) : outcome (Z * ConcurrentMap) :=
  let pos := getKeyPos m key in
  d ← shard_at m pos;
  let '(removed, d') := ds_Remove key d in
  if (removed : bool) then Ret (1, set_shard pos (untreeify d') (-1) m)
  else Ret (0, m).

Definition SetIfExist (key : bytes) (value : V) (m : ConcurrentMap)
    : outcome (Z * ConcurrentMap) :=
  let pos := getKeyPos m key in
  d ← shard_at m pos;
  match ds_Get key d with
  | Some _ => Ret (1, set_shard pos (ds_Put key value d).2 0 m)
  | None => Ret (0, m)
  end.

(** [SetIfNotExist], first critical section: the check under the read lock. *)
Definition SetIfNotExist_check (key : bytes) (m : ConcurrentMap) : outcome bool :=
  d ← shard_at m (getKeyPos m key);
  Ret (bool_decide (is_Some (ds_Get key d))).

(** [SetIfNotExist], second critical section: check again, then store. *)
Definition SetIfNotExist_commit (key : bytes) (value : V) (m : ConcurrentMap)
    : outcome (Z * ConcurrentMap) :=
  let pos := getKeyPos m key in
  d ← shard_at m pos;
  match ds_Get key d with
  | Some _ => Ret (0, m)
  | None =>
      let '(isNew, d) := ds_Put key value d in
      if (isNew : bool) then Ret (1, set_shard pos (treeify d) 1 m)
      else Ret (1, set_shard pos d 0 m)
  end.

Definition SetIfNotExist (key : bytes) (value : V) (m : ConcurrentMap)
    : outcome (Z * ConcurrentMap) :=
  found ← SetIfNotExist_check key m;
  if (found : bool) then Ret (0, m) else SetIfNotExist_commit key value m.

Definition Len (m : ConcurrentMap) : Z := cm_count m.

Definition Clear (m : ConcurrentMap) : ConcurrentMap := NewConcurrentMap (zlen (shards m)).

(** [None] is the nil slice of an empty map. *)
Definition Keys (m : ConcurrentMap) : option (list bytes) :=
  if Len m =? 0 then None
  else Some (concat (map (λ d, if ds_Size d =? 0 then [] else ds_Keys d) (shards m))).
End CMap.
Arguments linkedList V : clear implicits.
Arguments dataStructure tree V : clear implicits.
Arguments ConcurrentMap tree V : clear implicits.

(** ** An instance of the tree interface: entries sorted by key *)
Fixpoint sorted_put {V} (k : bytes) (v : V) (l : list (bytes * V)) : list (bytes * V) :=
  match l with
  | [] => [(k, v)]
  | (k', v') :: l' =>
      if decide (k = k') then (k, v) :: l'
      else if str_ltb k k' then (k, v) :: l else (k', v') :: sorted_put k v l'
  end.

Record sorted_tree (V : Type) := mkSortedTree {
  sorted_entries : list (bytes * V);
  sorted_ok : StronglySorted (λ a b, str_ltb a b = true) sorted_entries.*1
}.
Arguments mkSortedTree {V} _ _.
Arguments sorted_entries {V} _.
Arguments sorted_ok {V} _.

Section sorted_tree.
Context {V : Type}.
Implicit Types (l : list (bytes * V)).
Local Abbreviation sorted l := (StronglySorted (λ a b, str_ltb a b = true) l.*1).

Lemma sorted_put_lb k v l x :
  str_ltb x k = true → Forall (λ y, str_ltb x y = true) l.*1 →
  Forall (λ y, str_ltb x y = true) (sorted_put k v l).*1.
Proof.
  intros Hx. induction l as [|[k' v'] l IH]; simpl; intros Hl; [by repeat constructor|].
  apply Forall_cons in Hl as [H1 H2].
  repeat case_match; simpl; repeat constructor; auto.
Qed.

Lemma sorted_put_sorted k v l : sorted l → sorted (sorted_put k v l).
Proof.
  induction l as [|[k' v'] l IH]; simpl; intros Hl; [by repeat constructor|].
  inversion Hl as [|?? Hl' Hf]; subst.
  case_decide as Hk; [by subst|]. destruct (str_ltb k k') eqn:E; simpl.
  - constructor; [done|]. constructor; [done|].
    eapply Forall_impl; [done|]. simpl. intros y. by apply str_ltb_trans.
  - constructor; [by apply IH|]. apply sorted_put_lb; [|done].
    destruct (str_ltb_total k k'); [done|congruence|done].
Qed.

Lemma sorted_filter k l : sorted l → sorted (filter (λ e, e.1 ≠ k) l).
Proof.
  induction l as [|[k' v'] l IH]; simpl; intros Hl; [constructor|].
  inversion Hl as [|?? Hl' Hf]; subst. rewrite filter_cons. case_decide; simpl; [|by apply IH].
  constructor; [by apply IH|]. rewrite Forall_forall in Hf |- *. intros y Hy. apply Hf.
  apply list_elem_of_fmap in Hy as (e & -> & He). apply list_elem_of_fmap. exists e.
  split; [done|]. by apply list_elem_of_filter in He as [_ ?].
Qed.
End sorted_tree.

Definition sorted_tree_put {V} (k : bytes) (v : V) (t : sorted_tree V) : sorted_tree V :=
  mkSortedTree (sorted_put k v (sorted_entries t)) (sorted_put_sorted k v _ (sorted_ok t)).
Definition sorted_tree_remove {V} (k : bytes) (t : sorted_tree V) : sorted_tree V :=
  mkSortedTree (filter (λ e, e.1 ≠ k) (sorted_entries t)) (sorted_filter k _ (sorted_ok t)).

#[export] Instance sorted_tree_RBTree : RBTree sorted_tree := {
  rb_new V := mkSortedTree [] (SSorted_nil _);
  rb_get V k t := entries_get k (sorted_entries t);
  rb_put V := sorted_tree_put;
  rb_remove V := sorted_tree_remove;
  rb_size V t := zlen (sorted_entries t);
  rb_iter V t := sorted_entries t;
}.

Section entries.
Context {V : Type}.
Implicit Types (l : list (bytes * V)).

Lemma entries_get_Some k v l : NoDup l.*1 → entries_get k l = Some v ↔ (k, v) ∈ l.
Proof.
  induction l as [|[k' v'] l IH]; simpl; intros Hnd.
  { by rewrite elem_of_nil. }
  apply NoDup_cons in Hnd as [Hk Hnd]. rewrite elem_of_cons. case_decide as E; [subst k'|].
  - split; [intros [= ->]; by left|]. intros [?|Hin]; [congruence|].
    destruct Hk. apply list_elem_of_fmap. by exists (k, v).
  - rewrite IH by done. naive_solver.
Qed.

Lemma entries_get_None k l : entries_get k l = None ↔ k ∉ l.*1.
Proof.
  induction l as [|[k' v'] l IH]; simpl; [split; [intros _; apply not_elem_of_nil|done]|].
  rewrite not_elem_of_cons, <- IH. case_decide; naive_solver.
Qed.

Lemma entries_get_app k l1 l2 :
  entries_get k (l1 ++ l2) = match entries_get k l1 with Some v => Some v | None => entries_get k l2 end.
Proof. induction l1 as [|[k' v'] l1 IH]; simpl; [done|]. by case_decide. Qed.

Lemma entries_update_spec k v l :
  entries_update k v l = None ∧ entries_get k l = None ∨
  ∃ l', entries_update k v l = Some l' ∧ is_Some (entries_get k l) ∧ l'.*1 = l.*1 ∧
    ∀ k', entries_get k' l' = if decide (k = k') then Some v else entries_get k' l.
Proof.
  induction l as [|[k0 v0] l IH]; simpl; [by left|].
  case_decide as E; [subst k0; right|].
  - eexists. split_and!; [done|eauto|done|]. intros k'. simpl. by case_decide.
  - destruct IH as [[-> Hg]|(l' & -> & Hs & Hk & Hg)]; [by left|right].
    eexists. split_and!; [done|done|by apply (f_equal (cons k0))|].
    intros k'. simpl. rewrite Hg. repeat case_decide; congruence.
Qed.

Lemma entries_remove_spec k l :
  NoDup l.*1 →
  entries_remove k l = None ∧ entries_get k l = None ∨
  ∃ l', entries_remove k l = Some l' ∧ is_Some (entries_get k l) ∧
    zlen l = zlen l' + 1 ∧ l'.*1 `sublist_of` l.*1 ∧
    ∀ k', entries_get k' l' = if decide (k = k') then None else entries_get k' l.
Proof.
  induction l as [|[k0 v0] l IH]; simpl; intros Hnd; [by left|].
  apply NoDup_cons in Hnd as [Hk0 Hnd].
  case_decide as E; [subst k0; right|].
  - eexists. split_and!; [done|eauto|rewrite zlen_cons; lia|by constructor|].
    intros k'. case_decide; [subst k'|done]. by apply entries_get_None.
  - destruct (IH Hnd) as [[-> Hg]|(l' & -> & Hs & Hz & Hk & Hg)]; [by left|right].
    eexists. simpl. split_and!; [done|done|rewrite !zlen_cons; lia|by constructor|].
    intros k'. simpl. rewrite Hg. repeat case_decide; congruence.
Qed.
End entries.

Lemma sorted_NoDup (l : list bytes) : StronglySorted (λ a b, str_ltb a b = true) l → NoDup l.
Proof.
  induction 1 as [|x l Hs IH Hf]; constructor; [|done].
  rewrite Forall_forall in Hf. intros Hx%Hf. by rewrite str_ltb_irrefl in Hx.
Qed.

Lemma sorted_put_get {V} k k' (v : V) l :
  entries_get k' (sorted_put k v l) = if decide (k = k') then Some v else entries_get k' l.
Proof.
  induction l as [|[k0 v0] l IH]; simpl; [done|].
  destruct (decide (k = k0)) as [<-|E]; [simpl; by case_decide|].
  destruct (str_ltb k k0); simpl; [done|]. rewrite IH. repeat case_decide; congruence.
Qed.

Lemma entries_get_filter {V} k k' (l : list (bytes * V)) :
  entries_get k' (filter (λ e, e.1 ≠ k) l) = if decide (k = k') then None else entries_get k' l.
Proof.
  induction l as [|[k0 v0] l IH]; [by case_decide|].
  rewrite filter_cons. destruct (decide ((k0, v0).1 ≠ k)) as [E|E]; simpl in E;
    cbn [entries_get]; rewrite IH; repeat case_decide; try congruence.
  destruct E. congruence.
Qed.

#[export] Instance sorted_tree_laws : RBTreeLaws sorted_tree.
Proof.
  split; simpl.
  - done.
  - intros V k k' v t. apply sorted_put_get.
  - intros V k k' t. apply entries_get_filter.
  - intros V k v t. symmetry. apply entries_get_Some, sorted_NoDup, sorted_ok.
  - intros V t. apply sorted_ok.
  - done.
Qed.

(** ** Correctness of a shard *)
Section shard.
Context `{Host} {tree : Type → Type} `{!RBTree tree, !RBTreeLaws tree} {V : Type}.
Implicit Types (d : dataStructure tree V) (l : linkedList V) (t : tree V).

Definition ds_items d : list (bytes * V) :=
  match d with LinkedList l => head l | TreeWrapper t => rb_iter t end.

(** The shard is a list below the first threshold or a tree above the second,
    holds every key once, and its counter is right. *)
Definition ds_shape d : Prop :=
  match d with
  | LinkedList l => count l = zlen (head l)
  | TreeWrapper _ => True
  end.

Definition ds_wf d : Prop :=
  NoDup (ds_items d).*1 ∧ ds_shape d ∧
  match d with
  | LinkedList l => count l < TreeifyThreshold
  | TreeWrapper t => UntreeifyThreshold < rb_size t
  end.

Lemma rb_iter_NoDup t : NoDup (rb_iter t).*1.
Proof. apply sorted_NoDup, rb_iter_sorted. Qed.

Lemma rb_get_entries k t : rb_get k t = entries_get k (rb_iter t).
Proof.
  apply option_eq. intros v. rewrite entries_get_Some by apply rb_iter_NoDup.
  by rewrite rb_iter_get.
Qed.

Lemma ds_Get_items k d : ds_Get k d = entries_get k (ds_items d).
Proof. destruct d; [done|]. apply rb_get_entries. Qed.

(** Two duplicate-free entry lists with the same lookups have the same length. *)
Lemma entries_ext_length (l1 l2 : list (bytes * V)) :
  NoDup l1.*1 → NoDup l2.*1 → (∀ k, entries_get k l1 = entries_get k l2) → zlen l1 = zlen l2.
Proof.
  intros H1 H2 Hg. unfold zlen. f_equal. apply Permutation_length, NoDup_Permutation.
  - by eapply NoDup_fmap_1.
  - by eapply NoDup_fmap_1.
  - intros [k v]. rewrite <- !entries_get_Some by done. by rewrite Hg.
Qed.

Lemma drainIntoTree_get (h : list (bytes * V)) t k :
  NoDup h.*1 →
  rb_get k (fold_left (λ t '(k, v), (tree_Put k v t).2) h t)
  = match entries_get k h with Some v => Some v | None => rb_get k t end.
Proof.
  revert t. induction h as [|[k0 v0] h IH]; intros t Hnd; simpl; [done|].
  apply NoDup_cons in Hnd as [Hk Hnd]. rewrite IH by done.
  rewrite rb_get_put. case_decide as E; [subst k0|done].
  apply entries_get_None in Hk. simpl in Hk. by rewrite Hk.
Qed.

Lemma linkedList_Put_new k v l :
  k ∉ (head l).*1 →
  linkedList_Put k v l = (true, mkLinkedList ((k, v) :: head l) (count l + 1)).
Proof.
  intros Hk%entries_get_None. unfold linkedList_Put.
  destruct (entries_update_spec k v (head l)) as [[-> _]|(l' & _ & [? Hs] & _)];
    [done|congruence].
Qed.

Lemma drainIntoList_get (h : list (bytes * V)) l k :
  NoDup h.*1 → (∀ x, x ∈ h.*1 → x ∉ (head l).*1) → NoDup (head l).*1 → count l = zlen (head l) →
  let l' := fold_left (λ l '(k, v), (linkedList_Put k v l).2) h l in
  NoDup (head l').*1 ∧ count l' = zlen (head l') ∧
  entries_get k (head l') = match entries_get k h with
                            | Some v => Some v | None => entries_get k (head l) end.
Proof.
  revert l. induction h as [|[k0 v0] h IH]; intros l Hnd Hdis Hl Hc; simpl; [done|].
  apply NoDup_cons in Hnd as [Hk Hnd].
  assert (k0 ∉ (head l).*1) as Hk0 by (apply Hdis; by left).
  rewrite linkedList_Put_new by done. simpl.
  edestruct (IH (mkLinkedList ((k0, v0) :: head l) (count l + 1)) Hnd) as (I1 & I2 & I3).
  - simpl. intros x Hx. rewrite not_elem_of_cons. split; [by intros ->|].
    apply Hdis. by right.
  - by constructor.
  - simpl. rewrite zlen_cons. lia.
  - split_and!; [done|done|]. rewrite I3. simpl. case_decide as E'; [subst k|done].
    apply entries_get_None in Hk. simpl in Hk. by rewrite Hk.
Qed.

Definition is_tree d : bool := match d with TreeWrapper _ => true | _ => false end.

Lemma ds_Size_items d : ds_shape d → ds_Size d = zlen (ds_items d).
Proof. destruct d; simpl; [done|]. intros _. apply rb_size_iter. Qed.

Lemma ds_items_NoDup_tree t : NoDup (ds_items (TreeWrapper t)).*1.
Proof. apply rb_iter_NoDup. Qed.

(** Length of the entries after a point update, from the lookups alone. *)
Lemma entries_insert_length k v (l1 l2 : list (bytes * V)) :
  NoDup l1.*1 → NoDup l2.*1 →
  (∀ k', entries_get k' l2 = if decide (k = k') then Some v else entries_get k' l1) →
  zlen l2 = zlen l1 + match entries_get k l1 with Some _ => 0 | None => 1 end.
Proof.
  intros H1 H2 Hg.
  destruct (entries_update_spec k v l1) as [[_ E]|(l' & _ & [v' E] & Hk & Hg')]; rewrite E.
  - replace (zlen l1 + 1) with (zlen ((k, v) :: l1)) by (rewrite zlen_cons; lia).
    apply entries_ext_length; [done| |done].
    constructor; [by apply entries_get_None|done].
  - replace (zlen l1 + 0) with (zlen l').
    + apply entries_ext_length; [done|by rewrite Hk|]. intros k'. by rewrite Hg, Hg'.
    + unfold zlen. apply (f_equal length) in Hk. rewrite !length_fmap in Hk. lia.
Qed.

Lemma ds_Put_spec k v d :
  NoDup (ds_items d).*1 → ds_shape d →
  let '(b, d') := ds_Put k v d in
  b = bool_decide (ds_Get k d = None) ∧ NoDup (ds_items d').*1 ∧ ds_shape d' ∧
  is_tree d' = is_tree d ∧
  (∀ k', ds_Get k' d' = if decide (k = k') then Some v else ds_Get k' d) ∧
  ds_Size d' = ds_Size d + (if b then 1 else 0).
Proof.
  intros Hnd Hsh. destruct d as [l|t]; simpl in *.
  - unfold linkedList_Put, linkedList_Get, linkedList_Size.
    destruct (entries_update_spec k v (head l)) as [[-> E]|(h & -> & [v' E] & Hk & Hg)]; simpl.
    + rewrite E, bool_decide_eq_true_2 by done.
      split_and!; [done|constructor; [by apply entries_get_None|done]| |done|done|done].
      rewrite zlen_cons. lia.
    + rewrite E, bool_decide_eq_false_2 by done.
      split_and!; [done|by rewrite Hk| |done|done|lia].
      unfold zlen in *. apply (f_equal length) in Hk. rewrite !length_fmap in Hk. lia.
  - split_and!; [|apply rb_iter_NoDup|done|done|intros k'; apply rb_get_put|].
    + destruct (rb_get k t); [by rewrite bool_decide_eq_true_2 by eauto|].
      by rewrite bool_decide_eq_false_2 by (by intros [? ?]).
    + rewrite !rb_size_iter.
      rewrite (entries_insert_length k v (rb_iter t));
        [|apply rb_iter_NoDup|apply rb_iter_NoDup|intros k'; rewrite <- !rb_get_entries; apply rb_get_put].
      rewrite <- rb_get_entries. destruct (rb_get k t).
      * rewrite bool_decide_eq_true_2 by eauto. done.
      * by rewrite bool_decide_eq_false_2 by (by intros [? ?]).
Qed.

Lemma ds_Remove_spec k d :
  NoDup (ds_items d).*1 → ds_shape d →
  let '(b, d') := ds_Remove k d in
  b = bool_decide (is_Some (ds_Get k d)) ∧ NoDup (ds_items d').*1 ∧ ds_shape d' ∧
  is_tree d' = is_tree d ∧
  (∀ k', ds_Get k' d' = if decide (k = k') then None else ds_Get k' d) ∧
  ds_Size d' = ds_Size d - (if b then 1 else 0).
Proof.
  intros Hnd Hsh. destruct d as [l|t]; simpl in *.
  - unfold linkedList_Remove, linkedList_Get, linkedList_Size.
    destruct (entries_remove_spec k (head l) Hnd) as [[-> E]|(h & -> & Hs & Hz & Hk & Hg)];
      simpl; unfold linkedList_Size, linkedList_Get; simpl.
    + rewrite E, bool_decide_eq_false_2 by (by intros [? ?]).
      split_and!; [done|done|done|done| |lia]. intros k'. by case_decide; [subst|].
    + rewrite bool_decide_eq_true_2 by done.
      split_and!; [done|by eapply sublist_NoDup|lia|done|done|done].
  - case_bool_decide as Hs.
    + split_and!; [done|apply rb_iter_NoDup|done|done|intros k'; apply rb_get_remove|].
      destruct Hs as [v E]. rewrite !rb_size_iter.
      rewrite (entries_insert_length k v (rb_iter (rb_remove k t)) (rb_iter t));
        [|apply rb_iter_NoDup|apply rb_iter_NoDup|].
      * rewrite <- rb_get_entries, rb_get_remove. case_decide; [lia|done].
      * intros k'. rewrite <- !rb_get_entries, rb_get_remove. case_decide; congruence.
    + split_and!; [done|apply rb_iter_NoDup|done|done| |lia].
      intros k'. case_decide; [subst|done]. by apply eq_None_not_Some.
Qed.

Lemma treeify_spec d :
  NoDup (ds_items d).*1 → ds_shape d →
  (is_tree d = true → UntreeifyThreshold < ds_Size d) →
  ds_wf (treeify d) ∧ (∀ k, ds_Get k (treeify d) = ds_Get k d) ∧ ds_Size (treeify d) = ds_Size d.
Proof.
  intros Hnd Hsh Ht. destruct d as [l|t]; simpl in *; [|by repeat split; auto].
  unfold linkedList_Size. destruct (Z.leb_spec TreeifyThreshold (count l)) as [Hge|Hlt].
  - assert (∀ k, rb_get k (drainIntoTree l rb_new) = entries_get k (head l)) as Hg.
    { intros k. unfold drainIntoTree. rewrite drainIntoTree_get by done.
      rewrite rb_get_new. by destruct (entries_get k (head l)). }
    assert (rb_size (drainIntoTree l rb_new) = count l) as Hs.
    { rewrite rb_size_iter, Hsh. apply entries_ext_length; [apply rb_iter_NoDup|done|].
      intros k. by rewrite <- rb_get_entries. }
    simpl. split_and!; [|done|done]. split_and!; [apply rb_iter_NoDup|done|].
    simpl. rewrite Hs. unfold TreeifyThreshold, UntreeifyThreshold in *. lia.
  - by split_and!.
Qed.

Lemma untreeify_spec d :
  NoDup (ds_items d).*1 → ds_shape d →
  (is_tree d = false → ds_Size d < TreeifyThreshold) →
  ds_wf (untreeify d) ∧ (∀ k, ds_Get k (untreeify d) = ds_Get k d) ∧ ds_Size (untreeify d) = ds_Size d.
Proof.
  intros Hnd Hsh Ht. destruct d as [l|t]; simpl in *; [by repeat split; auto|].
  destruct (Z.leb_spec (rb_size t) UntreeifyThreshold) as [Hle|Hgt]; [|by split_and!].
  assert (∀ k, let l' := drainIntoList t in
    NoDup (head l').*1 ∧ count l' = zlen (head l') ∧ entries_get k (head l') = rb_get k t) as Hl.
  { intros k. unfold drainIntoList. rewrite rb_get_entries.
    destruct (drainIntoList_get (rb_iter t) (mkLinkedList [] 0) k) as (?&?&E);
      [apply rb_iter_NoDup|intros x _; apply not_elem_of_nil|constructor|done|].
    split_and!; [done|done|]. rewrite E. by destruct (entries_get k (rb_iter t)). }
  destruct (Hl []) as (Hn & Hc & _).
  assert (count (drainIntoList t) = rb_size t) as Hs.
  { rewrite Hc, rb_size_iter. apply entries_ext_length; [done|apply rb_iter_NoDup|].
    intros k. destruct (Hl k) as (_ & _ & ->). apply rb_get_entries. }
  split_and!; [split_and!; [done|done|]|intros k; apply (Hl k)|done].
  simpl. rewrite Hs. unfold TreeifyThreshold, UntreeifyThreshold in *. lia.
Qed.
End shard.

(** ** The map as a whole *)
Section map.
Context `{Host} {tree : Type → Type} `{!RBTree tree, !RBTreeLaws tree} {V : Type}.
Implicit Types (d : dataStructure tree V) (m : ConcurrentMap tree V) (l : list (dataStructure tree V)).

(** The contents of the map: what the abstract specification sees. *)
Definition entries l : list (bytes * V) := concat (map ds_items l).
Definition abs m : gmap bytes V := list_to_map (entries (shards m)).

Definition total l : Z := foldr (λ d n, ds_Size d + n) 0 l.

(** The representation invariant: a power-of-two number of shards, the mask
    that selects one, every key in the shard its hash selects, the counter. *)
Definition cm_wf m : Prop :=
  (∃ k, 0 <= k <= 31 ∧ zlen (shards m) = 2 ^ k ∧ shardMask m = 2 ^ k - 1) ∧
  (∀ i d, shards m !! i = Some d →
     ds_wf d ∧ ∀ key, is_Some (ds_Get key d) → Z.to_nat (getKeyPos m key) = i) ∧
  cm_count m = int32 (total (shards m)).

Lemma getKeyPos_range m key : cm_wf m → 0 <= getKeyPos m key < zlen (shards m).
Proof.
  intros ((k & Hk & -> & E) & _). unfold getKeyPos. rewrite E. apply HashKey_mask. lia.
Qed.

Lemma shard_at_wf m key :
  cm_wf m → ∃ d, shards m !! Z.to_nat (getKeyPos m key) = Some d ∧
    shard_at m (getKeyPos m key) = Ret d ∧ ds_wf d.
Proof.
  intros Hwf. pose proof (getKeyPos_range m key Hwf) as Hr.
  destruct (lookup_lt_is_Some_2 (shards m) (Z.to_nat (getKeyPos m key))) as [d Hd];
    [unfold zlen in Hr; lia|].
  exists d. unfold shard_at. rewrite Hd. destruct (Z.ltb_spec (getKeyPos m key) 0); [lia|].
  split_and!; [done|done|]. destruct Hwf as (_ & Hs & _). by destruct (Hs _ _ Hd).
Qed.

Lemma lookup_list_to_map_entries k (es : list (bytes * V)) :
  (list_to_map es : gmap bytes V) !! k = entries_get k es.
Proof.
  induction es as [|[k' v] es IH]; simpl; [done|].
  rewrite lookup_insert. case_decide; [done|]. done.
Qed.

Lemma entries_get_at l k p :
  (∀ i d, l !! i = Some d → is_Some (ds_Get k d) → i = p) →
  entries_get k (entries l) = d ← l !! p; ds_Get k d.
Proof.
  unfold entries. revert p. induction l as [|d l IH]; intros p Hp; simpl; [done|].
  rewrite entries_get_app, <- ds_Get_items. destruct (ds_Get k d) as [v|] eqn:E.
  - rewrite <- (Hp 0%nat d eq_refl) by eauto. by simpl.
  - destruct p as [|p]; simpl.
    + rewrite E. rewrite (IH (length l)).
      * by rewrite lookup_ge_None_2.
      * intros i d' Hi Hs. by specialize (Hp (S i) d' Hi Hs).
    + apply IH. intros i d' Hi Hs. specialize (Hp (S i) d' Hi Hs). lia.
Qed.

Lemma abs_lookup m key :
  cm_wf m → abs m !! key = d ← shards m !! Z.to_nat (getKeyPos m key); ds_Get key d.
Proof.
  intros (_ & Hs & _). unfold abs. rewrite lookup_list_to_map_entries.
  apply entries_get_at. intros i d Hi Hg. destruct (Hs i d Hi) as [_ Hp]. by rewrite Hp.
Qed.

Lemma Get_spec m key : cm_wf m → Get key m = Ret (abs m !! key).
Proof.
  intros Hwf. rewrite abs_lookup by done. unfold Get.
  by destruct (shard_at_wf m key Hwf) as (d & -> & -> & _).
Qed.

Lemma total_insert l i d d' :
  l !! i = Some d → total (<[i := d']> l) = total l - ds_Size d + ds_Size d'.
Proof.
  revert i. induction l as [|d0 l IH]; intros [|i] Hi; simplify_eq/=; [lia|].
  rewrite (IH i) by done. lia.
Qed.

(** Replacing the shard of [key] by one that differs at [key] only. *)
Lemma set_shard_spec m key d d' dc (o : option V) :
  cm_wf m → shards m !! Z.to_nat (getKeyPos m key) = Some d → ds_wf d' →
  (∀ k', ds_Get k' d' = if decide (key = k') then o else ds_Get k' d) →
  ds_Size d' = ds_Size d + dc →
  cm_wf (set_shard (getKeyPos m key) d' dc m) ∧
  abs (set_shard (getKeyPos m key) d' dc m) = partial_alter (λ _, o) key (abs m).
Proof.
  intros Hwf Hd Hd' Hg Hsz.
  assert (∀ k', getKeyPos (set_shard (getKeyPos m key) d' dc m) k' = getKeyPos m k') as Hpos by done.
  assert (cm_wf (set_shard (getKeyPos m key) d' dc m)) as Hwf'.
  { destruct Hwf as ((k & Hk & Hl & Hm) & Hs & Hc). split_and!.
    - exists k. simpl. split_and!; try done; try lia. unfold zlen in *. by rewrite length_insert.
    - simpl. intros i d1 Hi. apply list_lookup_insert_Some in Hi as [(<- & <- & _)|(Hne & Hi)].
      + split; [done|]. intros k' Hs'. rewrite Hpos. rewrite Hg in Hs'.
        case_decide; [by subst|]. by apply (Hs _ _ Hd).
      + apply (Hs _ _ Hi).
    - simpl. rewrite (total_insert _ _ d d') by done. rewrite Hc, Hsz.
      unfold int32. rewrite wrap_add by lia. f_equal. lia. }
  split; [done|]. apply map_eq. intros k'. rewrite abs_lookup by done. rewrite Hpos.
  rewrite lookup_partial_alter. simpl. rewrite list_lookup_insert.
  destruct (decide (key = k')) as [<-|Ek].
  - rewrite decide_True by (split; [done|by eapply lookup_lt_Some]). simpl.
    rewrite Hg, decide_True by done. done.
  - rewrite abs_lookup by done. case_decide as E; simpl; [|done].
    destruct E as [E _]. rewrite Hg, decide_False by done. rewrite <- E, Hd. done.
Qed.

Lemma ds_wf_NoDup d : ds_wf d → NoDup (ds_items d).*1.
Proof. by intros (? & _). Qed.
Lemma ds_wf_shape d : ds_wf d → ds_shape d.
Proof. by intros (_ & ? & _). Qed.
Lemma ds_wf_tree d : ds_wf d → is_tree d = true → UntreeifyThreshold < ds_Size d.
Proof. by destruct d; intros (_ & _ & ?). Qed.
Lemma ds_wf_list d : ds_wf d → is_tree d = false → ds_Size d < TreeifyThreshold.
Proof. by destruct d; intros (_ & _ & ?). Qed.

Lemma Set_spec m key v :
  cm_wf m →
  ∃ m', Set_ key v m = Ret (if abs m !! key is Some _ then 0 else 1, m') ∧
    cm_wf m' ∧ abs m' = <[key := v]> (abs m).
Proof.
  intros Hwf. unfold Set_. rewrite abs_lookup by done.
  destruct (shard_at_wf m key Hwf) as (d & Hd & -> & Hw). rewrite Hd. simpl.
  pose proof (ds_Put_spec key v d (ds_wf_NoDup d Hw) (ds_wf_shape d Hw)) as Hp.
  destruct (ds_Put key v d) as [b d1]. destruct Hp as (-> & Hnd & Hsh & Ht & Hg & Hsz).
  case_bool_decide as Hn.
  - rewrite Hn. eexists. split; [done|].
    destruct (treeify_spec d1 Hnd Hsh) as (Hw1 & Hg1 & Hs1).
    { rewrite Ht. intros Htr. pose proof (ds_wf_tree d Hw Htr). lia. }
    eapply (set_shard_spec m key d (treeify d1) 1 (Some v)); [done..| |lia].
    intros k'. by rewrite Hg1, Hg.
  - destruct (ds_Get key d) as [v0|] eqn:E; [|done]. eexists. split; [done|].
    assert (ds_wf d1) as Hw1.
    { split_and!; [done|done|]. destruct d1 as [l1|t1], d as [l|t]; simpl in *; try done;
        unfold linkedList_Size in Hsz; destruct Hw as (_ & _ & Hw); lia. }
    by eapply (set_shard_spec m key d d1 0 (Some v)).
Qed.

Lemma Delete_spec m key :
  cm_wf m →
  ∃ m', Delete key m = Ret (if abs m !! key is Some _ then 1 else 0, m') ∧
    cm_wf m' ∧ abs m' = delete key (abs m).
Proof.
  intros Hwf. unfold Delete. rewrite abs_lookup by done.
  destruct (shard_at_wf m key Hwf) as (d & Hd & -> & Hw). rewrite Hd. simpl.
  pose proof (ds_Remove_spec key d (ds_wf_NoDup d Hw) (ds_wf_shape d Hw)) as Hp.
  destruct (ds_Remove key d) as [b d1]. destruct Hp as (-> & Hnd & Hsh & Ht & Hg & Hsz).
  case_bool_decide as Hn.
  - destruct Hn as [v0 Hn]. rewrite Hn. eexists. split; [done|].
    destruct (untreeify_spec d1 Hnd Hsh) as (Hw1 & Hg1 & Hs1).
    { rewrite Ht. intros Htr. pose proof (ds_wf_list d Hw Htr). lia. }
    eapply (set_shard_spec m key d (untreeify d1) (-1) None); [done..| |lia].
    intros k'. by rewrite Hg1, Hg.
  - destruct (ds_Get key d) as [v0|] eqn:E; [by destruct Hn|]. eexists. split_and!; [done|done|].
    rewrite delete_id; [done|]. by rewrite abs_lookup, Hd.
Qed.

Lemma SetIfExist_spec m key v :
  cm_wf m →
  ∃ m', SetIfExist key v m = Ret (if abs m !! key is Some _ then 1 else 0, m') ∧
    cm_wf m' ∧ abs m' = alter (λ _, v) key (abs m).
Proof.
  intros Hwf. destruct (Set_spec m key v Hwf) as (m1 & Hs & Hw1 & Ha1).
  unfold SetIfExist. unfold Set_ in Hs. rewrite abs_lookup in * by done.
  destruct (shard_at_wf m key Hwf) as (d & Hd & E & Hw). rewrite E, Hd in *. simpl in *.
  pose proof (ds_Put_spec key v d (ds_wf_NoDup d Hw) (ds_wf_shape d Hw)) as Hp.
  destruct (ds_Put key v d) as [b d1]. destruct Hp as (-> & _).
  destruct (ds_Get key d) as [v0|] eqn:Eg; simpl in Hs |- *.
  - injection Hs as <-. eexists. split_and!; [done|done|]. rewrite Ha1.
    apply map_eq. intros k'. rewrite lookup_insert, lookup_alter. case_decide; [subst k'|done].
    by rewrite abs_lookup, Hd by done; simpl; rewrite Eg.
  - eexists. split_and!; [done|done|]. rewrite alter_id; [done|].
    intros x. by rewrite abs_lookup, Hd by done; simpl; rewrite Eg.
Qed.

Lemma SetIfNotExist_commit_spec m key v :
  cm_wf m →
  ∃ m', SetIfNotExist_commit key v m = Ret (if abs m !! key is Some _ then 0 else 1, m') ∧
    cm_wf m' ∧ abs m' = if abs m !! key is Some _ then abs m else <[key := v]> (abs m).
Proof.
  intros Hwf. destruct (Set_spec m key v Hwf) as (m1 & Hs & Hw1 & Ha1).
  unfold SetIfNotExist_commit. unfold Set_ in Hs. rewrite abs_lookup in * by done.
  destruct (shard_at_wf m key Hwf) as (d & Hd & E & Hw). rewrite E, Hd in *. simpl in *.
  pose proof (ds_Put_spec key v d (ds_wf_NoDup d Hw) (ds_wf_shape d Hw)) as Hp.
  destruct (ds_Put key v d) as [b d1]. destruct Hp as (-> & _).
  destruct (ds_Get key d) as [v0|] eqn:Eg; simpl in *.
  - by eexists.
  - injection Hs as <-. by eexists.
Qed.

Lemma SetIfNotExist_spec m key v :
  cm_wf m →
  ∃ m', SetIfNotExist key v m = Ret (if abs m !! key is Some _ then 0 else 1, m') ∧
    cm_wf m' ∧ abs m' = if abs m !! key is Some _ then abs m else <[key := v]> (abs m).
Proof.
  intros Hwf. destruct (SetIfNotExist_commit_spec m key v Hwf) as (m1 & Hc & Hw1 & Ha1).
  unfold SetIfNotExist, SetIfNotExist_check.
  destruct (shard_at_wf m key Hwf) as (d & Hd & E & Hw). rewrite E. simpl.
  rewrite abs_lookup in Hc, Ha1 |- * by done. rewrite Hd in *. simpl in *.
  case_bool_decide as Hs; [destruct Hs as [? ->]; by eexists|].
  exists m1. by rewrite Hc.
Qed.

(** ** Construction, listing and counting *)
Definition shard_bits (size : Z) : Z :=
  let size := if (MaxConSize <? size) || (size <=? 0) then MaxConSize else size in
  32 - numberOfLeadingZeros (size - 1).

Lemma shard_bits_range size :
  let n := if (MaxConSize <? size) || (size <=? 0) then MaxConSize else size in
  0 <= shard_bits size <= 31 ∧ n <= 2 ^ shard_bits size ∧ (1 < n → 2 ^ shard_bits size < 2 * n).
Proof.
  intros n. assert (1 <= n <= 2 ^ 31 - 1) as Hn.
  { subst n. unfold MaxConSize. destruct (Z.ltb_spec (2 ^ 31 - 1) size); simpl; [lia|].
    destruct (Z.leb_spec size 0); lia. }
  change (shard_bits size) with (32 - numberOfLeadingZeros (n - 1)).
  clearbody n. unfold numberOfLeadingZeros.
  destruct (Z.leb_spec (n - 1) 0); [change (32 - 32) with 0; simpl; lia|].
  rewrite Z.mod_small by lia. destruct (Z.eqb_spec (n - 1) 0); [lia|].
  replace (32 - (31 - Z.log2 (n - 1))) with (Z.succ (Z.log2 (n - 1))) by lia.
  pose proof (Z.log2_spec (n - 1)) as Hl. pose proof (Z.log2_nonneg (n - 1)).
  assert (Z.log2 (n - 1) < 31) by (apply Z.log2_lt_pow2; lia).
  rewrite Z.pow_succ_r in * by lia. lia.
Qed.

Lemma NewConcurrentMap_shards size :
  zlen (shards (NewConcurrentMap size : ConcurrentMap tree V)) = 2 ^ shard_bits size ∧
  shardMask (NewConcurrentMap size : ConcurrentMap tree V) = 2 ^ shard_bits size - 1.
Proof.
  destruct (shard_bits_range size) as (Hr & _).
  unfold NewConcurrentMap. fold (shard_bits size). cbn [shards shardMask].
  rewrite Z.shiftl_1_l. split; [|done].
  unfold zlen. rewrite length_replicate, Z2Nat.id; [done|]. apply Z.pow_nonneg. lia.
Qed.

Lemma total_replicate n : total (replicate n (LinkedList (mkLinkedList [] 0))) = 0.
Proof. induction n as [|n IH]; simpl; [done|]. by rewrite IH. Qed.

Lemma entries_replicate n : entries (replicate n (LinkedList (mkLinkedList [] 0))) = [].
Proof. induction n as [|n IH]; simpl; [done|]. done. Qed.

Lemma NewConcurrentMap_spec size :
  cm_wf (NewConcurrentMap size) ∧ abs (NewConcurrentMap size) = ∅.
Proof.
  destruct (shard_bits_range size) as (Hr & _). pose proof (NewConcurrentMap_shards size) as [Hl Hm].
  split.
  - split_and!; [by exists (shard_bits size)| |].
    + intros i d Hi. apply lookup_replicate in Hi as [-> _].
      split; [by split_and!; [constructor|..]|]. by intros key [? ?].
    + unfold NewConcurrentMap. cbn [cm_count shards]. by rewrite total_replicate.
  - unfold abs, NewConcurrentMap. cbn [shards]. by rewrite entries_replicate.
Qed.

Lemma Clear_spec m : cm_wf m → cm_wf (Clear m) ∧ abs (Clear m) = ∅.
Proof. intros _. apply NewConcurrentMap_spec. Qed.

Lemma entries_NoDup l (f : bytes → nat) off :
  (∀ i d, l !! i = Some d → ds_wf d ∧ ∀ key, is_Some (ds_Get key d) → f key = (i + off)%nat) →
  NoDup (entries l).*1.
Proof.
  revert off. induction l as [|d l IH]; intros off Hl; [constructor|].
  unfold entries. cbn [map concat]. rewrite fmap_app. apply NoDup_app. split_and!.
  - by destruct (Hl 0%nat d eq_refl) as [(? & _) _].
  - intros k Hk1 Hk2.
    assert (is_Some (ds_Get k d)) as Hs1.
    { rewrite ds_Get_items. apply not_eq_None_Some. rewrite entries_get_None. naive_solver. }
    apply list_elem_of_fmap in Hk2 as ([k' v'] & -> & Hin). simpl in *.
    apply list_elem_of_In, in_concat in Hin as (es & Hes & Hin).
    apply in_map_iff in Hes as (d' & <- & Hd'%list_elem_of_In).
    apply list_elem_of_lookup in Hd' as [j Hj]. apply list_elem_of_In in Hin.
    destruct (Hl (S j) d' Hj) as [(Hnd & _) Hp].
    destruct (Hl 0%nat d eq_refl) as [_ Hp0].
    rewrite <- entries_get_Some, <- ds_Get_items in Hin by done.
    specialize (Hp0 _ Hs1). rewrite Hp in Hp0 by eauto. lia.
  - apply (IH (S off)). intros i d' Hi. destruct (Hl (S i) d' Hi) as [? Hp].
    split; [done|]. intros key Hk. rewrite (Hp key Hk). lia.
Qed.

Lemma total_entries l : (∀ i d, l !! i = Some d → ds_wf d) → total l = zlen (entries l).
Proof.
  induction l as [|d l IH]; intros Hl; [done|]. unfold entries. cbn [map concat total foldr].
  rewrite zlen_app. rewrite ds_Size_items by (by apply ds_wf_shape, (Hl 0%nat)).
  fold (total l). rewrite IH; [done|]. intros i d' Hi. by apply (Hl (S i)).
Qed.

Lemma cm_wf_NoDup m : cm_wf m → NoDup (entries (shards m)).*1.
Proof.
  intros (_ & Hs & _). apply (entries_NoDup _ (λ k, Z.to_nat (getKeyPos m k)) 0).
  intros i d Hi. destruct (Hs i d Hi) as [? Hp]. split; [done|].
  intros key Hk. rewrite (Hp key Hk). lia.
Qed.

Lemma cm_wf_total m : cm_wf m → total (shards m) = Z.of_nat (size (abs m)).
Proof.
  intros Hwf. rewrite total_entries by (intros i d Hi; by apply Hwf in Hi as [? _]).
  unfold abs, zlen. rewrite <- length_map_to_list.
  by rewrite (map_to_list_to_map _ (cm_wf_NoDup m Hwf)).
Qed.

Lemma Keys_all m :
  cm_wf m → Z.of_nat (size (abs m)) < 2 ^ 31 →
  default [] (Keys m) ≡ₚ (map_to_list (abs m)).*1.
Proof.
  intros Hwf Hb. pose proof (cm_wf_total m Hwf) as Ht. unfold Keys, Len.
  destruct Hwf as (Hk & Hs & Hc) eqn:E. rewrite Hc. rewrite int32_id by lia.
  rewrite Ht. destruct (Z.eqb_spec (Z.of_nat (size (abs m))) 0) as [Hz|Hz].
  - assert (abs m = ∅) as -> by (apply map_size_empty_iff; lia).
    by rewrite map_to_list_empty.
  - unfold abs. rewrite (map_to_list_to_map _ (cm_wf_NoDup m Hwf)). simpl.
    apply reflexive_eq. clear -Hs RBTreeLaws0.
    assert (∀ d, d ∈ shards m → (if ds_Size d =? 0 then [] else ds_Keys d) = (ds_items d).*1) as Hd.
    { intros d [i Hi]%list_elem_of_lookup. destruct (Hs i d Hi) as [Hw _].
      destruct (Z.eqb_spec (ds_Size d) 0) as [Hz|]; [|by destruct d].
      rewrite ds_Size_items in Hz by (by apply ds_wf_shape). by rewrite (zlen_0 _ Hz). }
    clear Hs. unfold entries. induction (shards m) as [|d l IH]; [done|].
    cbn [map concat]. rewrite fmap_app. f_equal; [apply Hd; by left|].
    apply IH. intros d' Hd'. apply Hd. by right.
Qed.
End map.

(** ** Refinement of a finite map

    The promise of the component: any sequence of operations answers as a
    finite map would, whatever the number of shards and however often shards
    are converted between lists and trees. *)
Inductive map_op (V : Type) :=
  | OSet (k : bytes) (v : V)
  | OGet (k : bytes)
  | ODelete (k : bytes)
  | OSetIfExist (k : bytes) (v : V)
  | OSetIfNotExist (k : bytes) (v : V)
  | OLen
  | OClear.
Arguments OSet {V}. Arguments OGet {V}. Arguments ODelete {V}.
Arguments OSetIfExist {V}. Arguments OSetIfNotExist {V}.
Arguments OLen {V}. Arguments OClear {V}.

Inductive map_reply (V : Type) :=
  | RInt (n : Z)
  | RValue (o : option V)
  | RUnit.
Arguments RInt {V}. Arguments RValue {V}. Arguments RUnit {V}.

(** The abstract specification: one finite map. *)
Definition spec_step {V} (o : map_op V) (σ : gmap bytes V) : map_reply V * gmap bytes V :=
  match o with
  | OSet k v => (RInt (if σ !! k is Some _ then 0 else 1), <[k := v]> σ)
  | OGet k => (RValue (σ !! k), σ)
  | ODelete k => (RInt (if σ !! k is Some _ then 1 else 0), delete k σ)
  | OSetIfExist k v =>
      if σ !! k is Some _ then (RInt 1, <[k := v]> σ) else (RInt 0, σ)
  | OSetIfNotExist k v =>
      if σ !! k is Some _ then (RInt 0, σ) else (RInt 1, <[k := v]> σ)
  | OLen => (RInt (int32 (Z.of_nat (size σ))), σ)
  | OClear => (RUnit, ∅)
  end.

Fixpoint spec_run {V} (ops : list (map_op V)) (σ : gmap bytes V) : list (map_reply V) * gmap bytes V :=
  match ops with
  | [] => ([], σ)
  | o :: ops =>
      let '(r, σ) := spec_step o σ in
      let '(rs, σ) := spec_run ops σ in (r :: rs, σ)
  end.

Section refinement.
Context `{Host} {tree : Type → Type} `{!RBTree tree, !RBTreeLaws tree} {V : Type}.
Implicit Types (m : ConcurrentMap tree V).

Definition cm_step (o : map_op V) m : outcome (map_reply V * ConcurrentMap tree V) :=
  match o with
  | OSet k v => '(r, m) ← Set_ k v m; Ret (RInt r, m)
  | OGet k => r ← Get k m; Ret (RValue r, m)
  | ODelete k => '(r, m) ← Delete k m; Ret (RInt r, m)
  | OSetIfExist k v => '(r, m) ← SetIfExist k v m; Ret (RInt r, m)
  | OSetIfNotExist k v => '(r, m) ← SetIfNotExist k v m; Ret (RInt r, m)
  | OLen => Ret (RInt (Len m), m)
  | OClear => Ret (RUnit, Clear m)
  end.

Fixpoint cm_run (ops : list (map_op V)) m : outcome (list (map_reply V) * ConcurrentMap tree V) :=
  match ops with
  | [] => Ret ([], m)
  | o :: ops =>
      '(r, m) ← cm_step o m;
      '(rs, m) ← cm_run ops m;
      Ret (r :: rs, m)
  end.

Lemma cm_step_spec o m :
  cm_wf m →
  ∃ m', cm_step o m = Ret ((spec_step o (abs m)).1, m') ∧
    cm_wf m' ∧ abs m' = (spec_step o (abs m)).2.
Proof.
  intros Hwf. destruct o as [k v|k|k|k v|k v| |]; simpl.
  - destruct (Set_spec m k v Hwf) as (m' & -> & ? & ?). simpl. eauto.
  - rewrite Get_spec by done. simpl. eauto.
  - destruct (Delete_spec m k Hwf) as (m' & -> & ? & ?). simpl. eauto.
  - destruct (SetIfExist_spec m k v Hwf) as (m' & -> & ? & Ha). simpl.
    exists m'. destruct (abs m !! k) as [v0|] eqn:E; simpl; split_and!; try done.
    + rewrite Ha. apply map_eq. intros k'. rewrite lookup_alter, lookup_insert.
      case_decide; [subst k'|done]. by rewrite E.
    + rewrite Ha. apply alter_id. by rewrite E.
  - destruct (SetIfNotExist_spec m k v Hwf) as (m' & -> & ? & Ha). simpl.
    exists m'. by destruct (abs m !! k).
  - exists m. split_and!; [|done|done]. do 3 f_equal. unfold Len.
    rewrite <- cm_wf_total by done. apply Hwf.
  - exists (Clear m). by destruct (Clear_spec m Hwf).
Qed.

Lemma cm_run_spec ops m :
  cm_wf m →
  ∃ m', cm_run ops m = Ret ((spec_run ops (abs m)).1, m') ∧
    cm_wf m' ∧ abs m' = (spec_run ops (abs m)).2.
Proof.
  revert m. induction ops as [|o ops IH]; intros m Hwf; simpl; [eauto|].
  destruct (cm_step_spec o m Hwf) as (m1 & -> & Hw1 & Ha1). simpl.
  destruct (IH m1 Hw1) as (m2 & -> & Hw2 & Ha2). simpl. exists m2.
  rewrite Ha1 in *. destruct (spec_step o (abs m)) as [r σ]. simpl in *.
  destruct (spec_run ops σ) as [rs σ']. done.
Qed.

(** C5: the sharded map refines a finite map.  Whatever the configured size,
    every sequence of [Set], [Get], [Delete], [SetIfExist], [SetIfNotExist],
    [Len] and [Clear] on a new [ConcurrentMap] runs without panic, returns
    exactly the replies of one finite map, and ends in a map with the same
    contents that satisfies the representation invariant (every key in the
    shard of its hash, list shards below [TreeifyThreshold] entries, tree
    shards above [UntreeifyThreshold], counter equal to the number of keys). *)
Theorem ConcurrentMap_refines (sz : Z) (ops : list (map_op V)) :
  ∃ m', cm_run ops (NewConcurrentMap sz) = Ret ((spec_run ops ∅).1, m') ∧
    abs m' = (spec_run ops ∅).2 ∧ cm_wf m'.
Proof.
  destruct (NewConcurrentMap_spec (tree := tree) (V := V) sz) as [Hw Ha].
  destruct (cm_run_spec ops _ Hw) as (m' & E & Hw' & Ha'). rewrite Ha in *. eauto.
Qed.

(** [Keys] lists every key once.  On a well-formed map with fewer than 2^31
    keys, [Keys] is a permutation of the keys of the contents and [Len] their
    number. *)
Theorem ConcurrentMap_Keys_Len (m : ConcurrentMap tree V) :
  cm_wf m → Z.of_nat (size (abs m)) < 2 ^ 31 →
  default [] (Keys m) ≡ₚ (map_to_list (abs m)).*1 ∧ Len m = Z.of_nat (size (abs m)).
Proof.
  intros Hwf Hb. split; [by apply Keys_all|]. unfold Len.
  rewrite (proj2 (proj2 Hwf)), cm_wf_total by done. apply int32_id. lia.
Qed.

(** the shard count.  A map asked for [n] shards ([n] between 1 and
    [MaxConSize], anything else counts as [MaxConSize]) gets the least power of
    two that is at least [n], and every key selects one of its shards. *)
Theorem NewConcurrentMap_shard_count (sz : Z) (key : bytes) :
  let n := if (MaxConSize <? sz) || (sz <=? 0) then MaxConSize else sz in
  let m := NewConcurrentMap sz : ConcurrentMap tree V in
  (∃ k, 0 <= k <= 31 ∧ zlen (shards m) = 2 ^ k) ∧
  n <= zlen (shards m) ∧ (1 < n → zlen (shards m) < 2 * n) ∧
  0 <= getKeyPos m key < zlen (shards m).
Proof.
  intros n m. destruct (shard_bits_range sz) as (H1 & H2 & H3).
  destruct (NewConcurrentMap_shards (tree := tree) (V := V) sz) as [Hl _]. subst m.
  pose proof (getKeyPos_range (NewConcurrentMap sz : ConcurrentMap tree V) key
    (proj1 (NewConcurrentMap_spec sz))) as Hr.
  rewrite Hl in *. split_and!; [by exists (shard_bits sz)|done|done|apply Hr|apply Hr].
Qed.
End refinement.

Lemma ConcurrentMap_refines_witness :
  ∃ m', cm_run (H := demo_host) (tree := sorted_tree)
      [OSet (lit "a") 1; OSet (lit "b") 2; OSetIfNotExist (lit "a") 3; OGet (lit "a"); ODelete (lit "b"); OLen]
      (NewConcurrentMap 4)
    = Ret ([RInt 1; RInt 1; RInt 0; RValue (Some 1); RInt 1; RInt 1], m') ∧
    abs m' = {[ lit "a" := 1 ]} ∧ cm_wf (H := demo_host) m'.
Proof.
  apply (ConcurrentMap_refines (H := demo_host) (tree := sorted_tree) 4
    [OSet (lit "a") 1; OSet (lit "b") 2; OSetIfNotExist (lit "a") 3; OGet (lit "a"); ODelete (lit "b"); OLen]).
Defined.

Lemma ConcurrentMap_Keys_Len_witness :
  default [] (Keys (NewConcurrentMap 2 : ConcurrentMap sorted_tree Z))
    ≡ₚ (map_to_list (abs (NewConcurrentMap 2 : ConcurrentMap sorted_tree Z))).*1 ∧
  Len (NewConcurrentMap 2 : ConcurrentMap sorted_tree Z)
    = Z.of_nat (size (abs (NewConcurrentMap 2 : ConcurrentMap sorted_tree Z))).
Proof.
  apply (ConcurrentMap_Keys_Len (H := demo_host)).
  - apply NewConcurrentMap_spec.
  - vm_compute. reflexivity.
Defined.

Lemma NewConcurrentMap_shard_count_witness :
  let m := NewConcurrentMap 100 : ConcurrentMap sorted_tree Z in
  (∃ k, 0 <= k <= 31 ∧ zlen (shards m) = 2 ^ k) ∧
  100 <= zlen (shards m) ∧ (1 < 100 → zlen (shards m) < 2 * 100) ∧
  0 <= getKeyPos (H := demo_host) m (lit "k") < zlen (shards m).
Proof. apply (NewConcurrentMap_shard_count (H := demo_host) 100 (lit "k")). Defined.

(** ** Concurrent calls of [SetIfNotExist]

    Between its two critical sections other goroutines may run.  A thread is
    about to check, about to commit, or done with its result. *)
Inductive thread (V : Type) :=
  | TCheck (v : V)
  | TCommit (v : V)
  | TDone (v : V) (r : Z).
Arguments TCheck {V}. Arguments TCommit {V}. Arguments TDone {V}.

Section race.
Context `{Host} {tree : Type → Type} `{!RBTree tree, !RBTreeLaws tree} {V : Type}.
Implicit Types (m : ConcurrentMap tree V) (ts : list (thread V)).

Inductive race_step (key : bytes)
    : ConcurrentMap tree V * list (thread V) → ConcurrentMap tree V * list (thread V) → Prop :=
  | race_check i v m ts found :
      ts !! i = Some (TCheck v) → SetIfNotExist_check key m = Ret found →
      race_step key (m, ts) (m, <[i := if found then TDone v 0 else TCommit v]> ts)
  | race_commit i v r m m' ts :
      ts !! i = Some (TCommit v) → SetIfNotExist_commit key v m = Ret (r, m') →
      race_step key (m, ts) (m', <[i := TDone v r]> ts).

(** Either nobody is done and the map is untouched, or exactly one thread won. *)
Definition race_inv (key : bytes) (σ : gmap bytes V) (s : ConcurrentMap tree V * list (thread V)) : Prop :=
  cm_wf s.1 ∧
  ((abs s.1 = σ ∧ ∀ j v r, s.2 !! j ≠ Some (TDone v r)) ∨
   (∃ i v, abs s.1 = <[key := v]> σ ∧ s.2 !! i = Some (TDone v 1) ∧
      ∀ j v' r, j ≠ i → s.2 !! j = Some (TDone v' r) → r = 0)).

Lemma race_step_inv key σ s s' :
  σ !! key = None → race_step key s s' → race_inv key σ s → race_inv key σ s'.
Proof.
  intros Hk Hst [Hw Hinv]. destruct Hst as [i v m ts found Hi Hc|i v r m m' ts Hi Hc]; simpl in *.
  - assert (found = bool_decide (is_Some (abs m !! key))) as ->.
    { unfold SetIfNotExist_check in Hc. rewrite abs_lookup by done.
      destruct (shard_at_wf m key Hw) as (d & Hd & E & _). rewrite E in Hc. rewrite Hd.
      simpl in *. by injection Hc as <-. }
    split; [done|]. destruct Hinv as [[Ha Hn]|(i0 & v0 & Ha & Hi0 & Hj)]; [left|right]; simpl.
    + split; [done|]. rewrite Ha, Hk. rewrite bool_decide_eq_false_2 by (by intros [? ?]).
      intros j v' r [(_ & ? & _)|[_ Hin]]%list_lookup_insert_Some; [done|]. by eapply Hn.
    + exists i0, v0. rewrite Ha, lookup_insert_eq, bool_decide_eq_true_2 by eauto.
      assert (i ≠ i0) by (intros ->; congruence). split_and!; [done| |].
      * by rewrite list_lookup_insert_ne.
      * intros j v' r Hne [(_ & [= _ <-] & _)|[_ Hin]]%list_lookup_insert_Some; [done|]. by eapply Hj.
  - destruct (SetIfNotExist_commit_spec m key v Hw) as (m1 & E & Hw1 & Ha1).
    rewrite E in Hc. injection Hc as <- <-. split; [done|]. right. simpl.
    destruct Hinv as [[Ha Hn]|(i0 & v0 & Ha & Hi0 & Hj)]; rewrite Ha in *.
    + rewrite Hk in *. exists i, v. split_and!; [done| |].
      * apply list_lookup_insert_eq. by eapply lookup_lt_Some.
      * intros j v' r Hne Hin. rewrite list_lookup_insert_ne in Hin by done. by destruct (Hn j v' r).
    + rewrite lookup_insert_eq in *. exists i0, v0.
      assert (i ≠ i0) by (intros ->; congruence). split_and!; [done| |].
      * by rewrite list_lookup_insert_ne.
      * intros j v' r Hne [(_ & [= _ <-] & _)|[_ Hin]]%list_lookup_insert_Some; [done|]. by eapply Hj.
Qed.

(** C39: The double check of [SetIfNotExist] is race free.  When any number of
    goroutines call it concurrently for one absent key and nothing else changes the map,
    in every interleaving of their critical sections (the look-up under the read lock, the
    second look-up and the insertion under the write lock), once all have returned exactly
    one of them returned 1, all others 0, and the map holds the value of that one under the
    key and is otherwise as before. *)
Theorem SetIfNotExist_one_winner (key : bytes) m0 (vs : list V) m ts :
  cm_wf m0 → abs m0 !! key = None → vs ≠ [] →
  rtc (race_step key) (m0, TCheck <$> vs) (m, ts) →
  (∀ t, t ∈ ts → ∃ v r, t = TDone v r) →
  ∃ i v, ts !! i = Some (TDone v 1) ∧ abs m = <[key := v]> (abs m0) ∧
    ∀ j v' r, j ≠ i → ts !! j = Some (TDone v' r) → r = 0.
Proof.
  intros Hw Hk Hvs Hst Hdone.
  assert (race_inv key (abs m0) (m0, TCheck <$> vs)) as H0.
  { split; [done|]. left. split; [done|]. simpl. intros j v r.
    rewrite list_lookup_fmap. by destruct (vs !! j). }
  assert (∀ s s', rtc (race_step key) s s' → race_inv key (abs m0) s →
    race_inv key (abs m0) s' ∧ length s.2 = length s'.2) as Hrtc.
  { induction 1 as [|s s1 s2 Hs _ IH]; [done|]. intros Hi.
    destruct IH as [IH1 IH2]; [by eapply race_step_inv|]. split; [done|]. rewrite <- IH2.
    destruct Hs; simpl; by rewrite length_insert. }
  destruct (Hrtc _ _ Hst H0) as [[_ [[_ Hn]|(i & v & ? & ? & ?)]] Hlen]; simpl in *; [|by exists i, v].
  destruct ts as [|t ts]; [by destruct vs|]. destruct (Hdone t) as (v & r & ->); [by left|].
  by destruct (Hn 0%nat v r).
Qed.
End race.

Lemma SetIfNotExist_one_winner_witness :
  ∃ m ts i v,
    rtc (race_step (H := demo_host) (lit "k"))
      (NewConcurrentMap 1 : ConcurrentMap sorted_tree Z, [TCheck 7; TCheck 8]) (m, ts) ∧
    ts !! i = Some (TDone v 1) ∧
    abs m = <[lit "k" := v]> (abs (NewConcurrentMap 1 : ConcurrentMap sorted_tree Z)) ∧
    ∀ j v' r, j ≠ i → ts !! j = Some (TDone v' r) → r = 0.
Proof.
  do 2 eexists. cut (rtc (race_step (H := demo_host) (lit "k"))
      (NewConcurrentMap 1 : ConcurrentMap sorted_tree Z, TCheck <$> [7; 8])
      (mkConcurrentMap [LinkedList (mkLinkedList [(lit "k", 8)] 1)] 0 1, [TDone 7 0; TDone 8 1])).
  { intros Hr.
    destruct (SetIfNotExist_one_winner (H := demo_host) (lit "k") (NewConcurrentMap 1) [7; 8]
      _ _ (proj1 (NewConcurrentMap_spec (H := demo_host) 1)) eq_refl ltac:(done) Hr) as (i & v & Hw).
    - intros t Ht. repeat (apply elem_of_cons in Ht as [->|Ht]; [eauto|]).
      by apply not_elem_of_nil in Ht.
    - exists i, v. split; [exact Hr|exact Hw]. }
  eapply rtc_l; [by apply (race_check (H := demo_host) _ 0 7 _ _ false)|].
  eapply rtc_l; [by apply (race_check (H := demo_host) _ 1 8 _ _ false)|].
  eapply rtc_l; [by eapply (race_commit (H := demo_host) _ 1 8)|].
  eapply rtc_l; [by eapply (race_commit (H := demo_host) _ 0 7)|].
  vm_compute. apply rtc_refl.
Defined.
