(* ===== verification/Heap.v ===== *)
(** * Go's [container/heap] over an abstract heap interface

    The expiry queue of [src/pkg/memdb/db.go] is a slice with [Len], [Less] and
    [Swap] methods that the library package [container/heap] keeps in heap
    order.  This file has the library's [up] and [down] loops, written against
    the interface as in Go, and their correctness for any implementation whose
    [Swap] exchanges two elements and whose [Less] compares priorities. *)

From S2P Require Import Prelude.
From Stdlib Require Import ZArith Lia.
From stdpp Require Import prelude list.
Open Scope Z_scope.

(** [heap.Interface] without [Push] and [Pop]. *)
Class HeapInterface (S : Type) := {
  h_Len : S → nat;
  h_Less : nat → nat → S → bool;
  h_Swap : nat → nat → S → S;
}.

Definition parent (j : nat) : nat := ((j - 1) / 2)%nat.

Section algorithms.
Context {S : Type} `{!HeapInterface S}.

(** [heap.up(h, j)]; the fuel bounds the number of ancestors. *)
Fixpoint heap_up_fuel (fuel j : nat) (s : S) : S :=
  match fuel with
  | O => s
  | Datatypes.S fuel =>
      let i := parent j in
      if Nat.eqb i j || negb (h_Less j i s) then s
      else heap_up_fuel fuel i (h_Swap i j s)
  end.
Definition heap_up (j : nat) (s : S) : S := heap_up_fuel (Datatypes.S j) j s.

(** The smaller child of [i] among the first [n] elements. *)
Definition smaller_child (i n : nat) (s : S) : nat :=
  let j1 := (2 * i + 1)%nat in
  let j2 := (j1 + 1)%nat in
  if Nat.ltb j2 n && h_Less j2 j1 s then j2 else j1.

(** [heap.down(h, i0, n)]: the final position and the heap. *)
Fixpoint heap_down_fuel (fuel i n : nat) (s : S) : nat * S :=
  match fuel with
  | O => (i, s)
  | Datatypes.S fuel =>
      if Nat.leb n (2 * i + 1) then (i, s)
      else
        let j := smaller_child i n s in
        if negb (h_Less j i s) then (i, s)
        else heap_down_fuel fuel j n (h_Swap i j s)
  end.
Definition heap_down (i0 n : nat) (s : S) : bool * S :=
  let '(i, s) := heap_down_fuel n i0 n s in (Nat.ltb i0 i, s).

(** [heap.Fix(h, i)] for a valid index. *)
Definition heap_Fix (i : nat) (s : S) : S :=
  let '(moved, s') := heap_down i (h_Len s) s in
  if moved then s' else heap_up i s'.

(** [heap.Pop] and [heap.Remove] up to the final [h.Pop()], which removes the
    last element. *)
Definition heap_Pop_prepare (s : S) : S :=
  let n := (h_Len s - 1)%nat in
  (heap_down 0 n (h_Swap 0 n s)).2.
Definition heap_Remove_prepare (i : nat) (s : S) : S :=
  let n := (h_Len s - 1)%nat in
  if Nat.eqb n i then s
  else
    let '(moved, s') := heap_down i n (h_Swap i n s) in
    if moved then s' else heap_up i s'.
End algorithms.

(** ** Exchanging two elements of a list *)
Definition lswap {A} (i j : nat) (l : list A) : list A :=
  match l !! i, l !! j with
  | Some a, Some b => <[i := b]> (<[j := a]> l)
  | _, _ => l
  end.

Lemma length_lswap {A} i j (l : list A) : length (lswap i j l) = length l.
Proof. unfold lswap. repeat case_match; by rewrite ?length_insert. Qed.

Lemma lookup_lswap {A} i j k (l : list A) :
  (i < length l)%nat → (j < length l)%nat →
  lswap i j l !! k = if decide (k = i) then l !! j else if decide (k = j) then l !! i else l !! k.
Proof.
  intros Hi Hj. unfold lswap.
  destruct (lookup_lt_is_Some_2 l i Hi) as [a Ha]. destruct (lookup_lt_is_Some_2 l j Hj) as [b Hb].
  rewrite Ha, Hb. rewrite !list_lookup_insert, length_insert.
  repeat case_decide; naive_solver.
Qed.

Lemma lswap_Permutation {A} i j (l : list A) : lswap i j l ≡ₚ l.
Proof.
  unfold lswap. destruct (l !! i) as [a|] eqn:Ha; [|done].
  destruct (l !! j) as [b|] eqn:Hb; [|done]. by apply Permutation_insert_swap.
Qed.

(** ** Heap order on priorities by position

    [P i] is the priority at position [i].  [ordered n P]: no element among the
    first [n] precedes its parent.  [off_at i n P]: the order may be broken only
    between [i] and its parent or children. *)
Definition ordered (n : nat) (P : nat → Z) : Prop :=
  ∀ c, (0 < c < n)%nat → P (parent c) <= P c.
Definition off_at (i n : nat) (P : nat → Z) : Prop :=
  (∀ c, (0 < c < n)%nat → c ≠ i → parent c ≠ i → P (parent c) <= P c) ∧
  (∀ c, (0 < c < n)%nat → parent c = i → (0 < i)%nat → P (parent i) <= P c).
Definition below_ok (i n : nat) (P : nat → Z) : Prop :=
  ∀ c, (0 < c < n)%nat → parent c = i → P i <= P c.

Definition pswap (i j : nat) (P : nat → Z) (k : nat) : Z :=
  if decide (k = i) then P j else if decide (k = j) then P i else P k.

Lemma parent_lt c : (0 < c)%nat → (parent c < c)%nat.
Proof. unfold parent. intros. pose proof (Nat.div_mod_eq (c - 1) 2). lia. Qed.

Lemma parent_iff c i : (0 < c)%nat → parent c = i ↔ c = (2 * i + 1)%nat ∨ c = (2 * i + 2)%nat.
Proof.
  unfold parent. intros.
  pose proof (Nat.div_mod_eq (c - 1) 2). pose proof (Nat.mod_upper_bound (c - 1) 2). lia.
Qed.

(** One iteration of [up]: the element at [j] precedes its parent. *)
Lemma up_step j n P :
  (0 < j < n)%nat → off_at j n P → below_ok j n P → P j < P (parent j) →
  off_at (parent j) n (pswap (parent j) j P) ∧ below_ok (parent j) n (pswap (parent j) j P).
Proof.
  intros Hj [H1 H2] H3 Hlt. pose proof (parent_lt j) as Hp. split; [split|].
  - intros c Hc Hci Hpc. unfold pswap.
    assert (c ≠ j) by (intros ->; done).
    destruct (decide (parent c = parent j)); [done|].
    destruct (decide (parent c = j)) as [E|]; repeat case_decide; try done.
    + destruct (decide (c = parent j)); [done|]. by apply H2; [..|lia].
    + by apply H1.
  - intros c Hc Hpc Hpos. unfold pswap.
    pose proof (parent_lt (parent j) Hpos).
    destruct (decide (parent (parent j) = parent j)); [lia|].
    destruct (decide (parent (parent j) = j)); [lia|].
    pose proof (parent_lt c). assert (parent (parent j) <> j) by lia.
    assert (P (parent (parent j)) <= P (parent j)) by (apply H1; lia).
    repeat case_decide; subst; try lia.
    assert (P (parent c) <= P c) by (apply H1; [lia|done|lia]). rewrite Hpc in *. lia.
  - intros c Hc Hpc. unfold pswap. rewrite decide_True by done.
    pose proof (parent_lt c). repeat case_decide; subst; try lia.
    assert (P (parent c) <= P c) by (apply H1; [lia|done|lia]). rewrite Hpc in *. lia.
Qed.

Lemma up_done j n P :
  off_at j n P → below_ok j n P → ((0 < j)%nat → P (parent j) <= P j) → ordered n P.
Proof.
  intros [H1 _] H2 H3 c Hc. destruct (decide (c = j)) as [->|]; [apply H3; lia|].
  destruct (decide (parent c = j)) as [E|]; [rewrite E; by apply H2|by apply H1].
Qed.

(** One iteration of [down]: the smaller child [j] of [i] precedes it. *)
Lemma down_step i j n P :
  (0 < j < n)%nat → parent j = i → off_at i n P →
  (∀ c, (0 < c < n)%nat → parent c = i → P j <= P c) → P j < P i →
  off_at j n (pswap i j P) ∧ pswap i j P (parent j) <= pswap i j P j.
Proof.
  intros Hj Hpj [H1 H2] Hmin Hlt. pose proof (parent_lt j) as Hp. split; [split|].
  - intros c Hc Hcj Hpc. pose proof (parent_lt c). unfold pswap.
    destruct (decide (parent c = i)) as [E|].
    { destruct (decide (c = i)); [lia|]. destruct (decide (c = j)); [done|]. by apply Hmin. }
    destruct (decide (parent c = j)); [done|].
    destruct (decide (c = i)) as [->|]; [apply H2; lia|].
    destruct (decide (c = j)); [done|]. by apply H1.
  - intros c Hc Hpc Hpos. pose proof (parent_lt c). unfold pswap.
    rewrite Hpj, decide_True by done.
    repeat case_decide; try lia.
    assert (P (parent c) <= P c) by (apply H1; [lia|lia|lia]). by rewrite Hpc in *.
  - unfold pswap. rewrite Hpj, decide_True by done.
    destruct (decide (j = i)); [lia|]. rewrite decide_True by done. lia.
Qed.

(** ** Correctness of the loops

    [elems] lists the elements, [prio] is the priority [Less] compares, [valid]
    is whatever the implementation needs to keep [Swap] well defined. *)
Section correctness.
Context {S A : Type} {HI : HeapInterface S}.
Context (elems : S → list A) (prio : A → Z) (valid : S → Prop).

(** The priority at a position. *)
Definition at_pos (s : S) (i : nat) : Z :=
  match elems s !! i with Some a => prio a | None => 0 end.

(** What [down] and [up] on the first [n] elements may change. *)
Definition rearranged (n : nat) (s s' : S) : Prop :=
  elems s' ≡ₚ elems s ∧ ∀ k, (n <= k)%nat → elems s' !! k = elems s !! k.

Class HeapLaws : Prop := {
  law_Len s : valid s → h_Len s = length (elems s);
  law_Less s i j : valid s → (i < length (elems s))%nat → (j < length (elems s))%nat →
    h_Less i j s = (at_pos s i <? at_pos s j);
  law_Swap s i j : valid s → (i < length (elems s))%nat → (j < length (elems s))%nat →
    elems (h_Swap i j s) = lswap i j (elems s) ∧ valid (h_Swap i j s);
}.
Context {HL : HeapLaws}.

Lemma rearranged_refl n s : rearranged n s s.
Proof. by split. Qed.
Lemma rearranged_trans n s1 s2 s3 :
  rearranged n s1 s2 → rearranged n s2 s3 → rearranged n s1 s3.
Proof.
  intros [P1 L1] [P2 L2]. split; [by rewrite P2|]. intros k Hk. by rewrite L2, L1.
Qed.
Lemma rearranged_length n s s' : rearranged n s s' → length (elems s') = length (elems s).
Proof. intros [H _]. by rewrite H. Qed.

Lemma at_pos_Swap s i j k :
  valid s → (i < length (elems s))%nat → (j < length (elems s))%nat →
  at_pos (h_Swap i j s) k = pswap i j (at_pos s) k.
Proof.
  intros Hv Hi Hj. unfold at_pos, pswap. destruct (law_Swap s i j) as [-> _]; [done..|].
  rewrite lookup_lswap by done. by repeat case_decide.
Qed.

Lemma Swap_rearranged n s i j :
  valid s → (i < n)%nat → (j < n)%nat → (n <= length (elems s))%nat →
  rearranged n s (h_Swap i j s).
Proof.
  intros Hv Hi Hj Hn. destruct (law_Swap s i j) as [E _]; [done|lia..|].
  split; rewrite E; [apply lswap_Permutation|]. intros k Hk.
  rewrite lookup_lswap by lia. by rewrite !decide_False by lia.
Qed.

Lemma off_at_ext i n P Q : (∀ k, P k = Q k) → off_at i n P → off_at i n Q.
Proof. intros E [H1 H2]. split; intros; rewrite <- !E; auto. Qed.
Lemma below_ok_ext i n P Q : (∀ k, P k = Q k) → below_ok i n P → below_ok i n Q.
Proof. intros E H c Hc Hp. rewrite <- !E; auto. Qed.

(** [up] restores the order when only the element at [j] may precede its
    parent. *)
Lemma heap_up_fuel_spec fuel j n s :
  valid s → (j < n)%nat → (n <= length (elems s))%nat → (j < fuel)%nat →
  off_at j n (at_pos s) → below_ok j n (at_pos s) →
  valid (heap_up_fuel fuel j s) ∧ rearranged n s (heap_up_fuel fuel j s) ∧
  ordered n (at_pos (heap_up_fuel fuel j s)).
Proof.
  revert j s. induction fuel as [|fuel IH]; intros j s Hv Hj Hn Hf Hoff Hbelow; [lia|].
  cbn [heap_up_fuel].
  destruct (Nat.eqb_spec (parent j) j) as [E|Hne].
  { cbn. split_and!; [done|apply rearranged_refl|]. apply (up_done j); [done..|].
    intros Hpos. apply parent_lt in Hpos. lia. }
  assert (0 < j)%nat as Hpos by (destruct j; [done|lia]). pose proof (parent_lt j Hpos).
  rewrite law_Less by (done || lia). cbn [orb]. case_bool; cbn.
  2:{ split_and!; [done|apply rearranged_refl|]. by apply (up_done j). }
  destruct (up_step j n (at_pos s)) as [Ho Hb]; [lia|done..|].
  assert (∀ k, pswap (parent j) j (at_pos s) k = at_pos (h_Swap (parent j) j s) k) as E
    by (intros k; rewrite at_pos_Swap by (done || lia); done).
  assert (rearranged n s (h_Swap (parent j) j s)) as Hr by (apply Swap_rearranged; (done || lia)).
  destruct (law_Swap s (parent j) j) as [_ Hv']; [done|lia..|].
  destruct (IH (parent j) (h_Swap (parent j) j s)) as (Hv'' & Hr' & Hord).
  - done.
  - lia.
  - by rewrite (rearranged_length _ _ _ Hr).
  - lia.
  - by eapply off_at_ext.
  - by eapply below_ok_ext.
  - split_and!; [done|by eapply rearranged_trans|done].
Qed.

Lemma heap_up_spec j n s :
  valid s → (j < n)%nat → (n <= length (elems s))%nat →
  off_at j n (at_pos s) → below_ok j n (at_pos s) →
  valid (heap_up j s) ∧ rearranged n s (heap_up j s) ∧ ordered n (at_pos (heap_up j s)).
Proof. intros. apply heap_up_fuel_spec; (done || lia). Qed.

Lemma smaller_child_spec i n s :
  valid s → (n <= length (elems s))%nat → (2 * i + 1 < n)%nat →
  let j := smaller_child i n s in
  (i < j < n)%nat ∧ parent j = i ∧
  ∀ c, (0 < c < n)%nat → parent c = i → at_pos s j <= at_pos s c.
Proof.
  intros Hv Hn Hi. unfold smaller_child.
  assert (∀ c, (0 < c)%nat → parent c = i → c = (2 * i + 1)%nat ∨ c = (2 * i + 1 + 1)%nat) as Hc.
  { intros c Hc Hp. apply parent_iff in Hp; lia. }
  destruct (Nat.ltb_spec (2 * i + 1 + 1) n) as [Hj2|Hj2]; cbn [andb].
  - rewrite law_Less by (done || lia).
    destruct (Z.ltb_spec (at_pos s (2 * i + 1 + 1)) (at_pos s (2 * i + 1))); cbv zeta;
      (split_and!; [lia|lia|apply parent_iff; lia|]);
      intros c Hcn Hp; destruct (Hc c) as [-> | ->]; (done || lia).
  - cbv zeta. split_and!; [lia|lia|apply parent_iff; lia|].
    intros c Hcn Hp; destruct (Hc c) as [-> | ->]; (done || lia).
Qed.

(** [down] moves the element at [i0] towards the leaves; either it did not move
    and precedes its children, or the order is restored. *)
Lemma heap_down_fuel_spec fuel i n s :
  valid s → (n <= length (elems s))%nat → (n <= fuel + i)%nat → off_at i n (at_pos s) →
  let '(i', s') := heap_down_fuel fuel i n s in
  valid s' ∧ rearranged n s s' ∧ (i <= i')%nat ∧
  (i' = i → s' = s ∧ below_ok i n (at_pos s)) ∧
  ((i < i')%nat ∨ ((0 < i)%nat → at_pos s (parent i) <= at_pos s i) → ordered n (at_pos s')).
Proof.
  revert i s. induction fuel as [|fuel IH]; intros i s Hv Hn Hf Hoff.
  { cbn. assert (below_ok i n (at_pos s)) as Hb.
    { intros c Hc Hp. apply parent_iff in Hp; lia. }
    split_and!; [done|apply rearranged_refl|lia|done|].
    intros [?|?]; [lia|by apply (up_done i)]. }
  cbn [heap_down_fuel]. destruct (Nat.leb_spec n (2 * i + 1)) as [Hl|Hl].
  { assert (below_ok i n (at_pos s)) as Hb.
    { intros c Hc Hp. apply parent_iff in Hp; lia. }
    split_and!; [done|apply rearranged_refl|lia|done|].
    intros [?|?]; [lia|by apply (up_done i)]. }
  pose proof (smaller_child_spec i n s Hv Hn Hl) as Hsc.
  set (j := smaller_child i n s) in *. cbv zeta in *. destruct Hsc as (Hj & Hpj & Hmin).
  rewrite law_Less by (done || lia). case_bool; cbn [negb].
  2:{ assert (below_ok i n (at_pos s)) as Hb.
      { intros c Hc Hp. specialize (Hmin c Hc Hp). lia. }
      split_and!; [done|apply rearranged_refl|lia|done|].
      intros [?|?]; [lia|by apply (up_done i)]. }
  destruct (down_step i j n (at_pos s)) as [Ho Hle]; [lia|done..|].
  assert (∀ k, pswap i j (at_pos s) k = at_pos (h_Swap i j s) k) as E
    by (intros k; rewrite at_pos_Swap by (done || lia); done).
  assert (rearranged n s (h_Swap i j s)) as Hr by (apply Swap_rearranged; (done || lia)).
  destruct (law_Swap s i j) as [_ Hv']; [done|lia..|].
  specialize (IH j (h_Swap i j s) Hv').
  destruct (heap_down_fuel fuel j n (h_Swap i j s)) as [i' s'].
  destruct IH as (Hv'' & Hr' & Hi' & _ & Hord).
  - by rewrite (rearranged_length _ _ _ Hr).
  - lia.
  - by eapply off_at_ext.
  - split_and!; [done|by eapply rearranged_trans|lia|lia|].
    intros _. apply Hord. right. intros _. by rewrite <- !E.
Qed.

(** [down] followed, when nothing moved, by [up]: the body of [Fix] and
    [Remove]. *)
Lemma down_up_spec i n s :
  valid s → (i < n)%nat → (n <= length (elems s))%nat → off_at i n (at_pos s) →
  let s' := let '(moved, s') := heap_down i n s in if moved then s' else heap_up i s' in
  valid s' ∧ rearranged n s s' ∧ ordered n (at_pos s').
Proof.
  intros Hv Hi Hn Hoff. unfold heap_down.
  pose proof (heap_down_fuel_spec n i n s Hv Hn ltac:(lia) Hoff) as Hd.
  destruct (heap_down_fuel n i n s) as [i' s']. destruct Hd as (Hv' & Hr & Hle & Heq & Hord).
  cbv zeta. destruct (Nat.ltb_spec i i'); [naive_solver|].
  destruct Heq as [-> Hb]; [lia|]. by apply heap_up_spec.
Qed.

Lemma ordered_off_at i n P Q :
  (∀ k, k ≠ i → (k < n)%nat → P k = Q k) → ordered n P → off_at i n Q.
Proof.
  intros E H. split.
  - intros c Hc Hci Hpc. pose proof (parent_lt c). rewrite <- !E by lia. by apply H.
  - intros c Hc Hpc Hi. pose proof (parent_lt c). pose proof (parent_lt i).
    rewrite <- !E by lia. pose proof (H c Hc). pose proof (H i ltac:(lia)). rewrite Hpc in *. lia.
Qed.

Lemma heap_Fix_spec i s :
  valid s → (i < length (elems s))%nat → off_at i (length (elems s)) (at_pos s) →
  valid (heap_Fix i s) ∧ elems (heap_Fix i s) ≡ₚ elems s ∧
  ordered (length (elems s)) (at_pos (heap_Fix i s)).
Proof.
  intros Hv Hi Hoff. unfold heap_Fix. rewrite law_Len by done.
  destruct (down_up_spec i (length (elems s)) s) as (? & [? _] & ?); [done|lia|done..|].
  done.
Qed.

(** After [Remove]'s rearrangement the element that was at [i] is last and the
    others are in heap order. *)
Lemma heap_Remove_prepare_spec i s a n :
  valid s → elems s !! i = Some a → length (elems s) = Datatypes.S n →
  ordered (length (elems s)) (at_pos s) →
  let s' := heap_Remove_prepare i s in
  valid s' ∧ elems s' ≡ₚ elems s ∧ elems s' !! n = Some a ∧ ordered n (at_pos s').
Proof.
  intros Hv Ha Hlen Hord. pose proof (lookup_lt_Some _ _ _ Ha) as Hi.
  unfold heap_Remove_prepare. rewrite law_Len, Hlen by done.
  replace (Datatypes.S n - 1)%nat with n by lia.
  destruct (Nat.eqb_spec n i) as [->|Hne].
  { cbv zeta. split_and!; [done..|]. intros c Hc. apply Hord. lia. }
  destruct (law_Swap s i n) as [E Hv']; [done|lia..|].
  pose proof (Swap_rearranged (Datatypes.S n) s i n) as [Hp _]; [done|lia..|].
  assert (length (elems (h_Swap i n s)) = Datatypes.S n) as Hlen' by (by rewrite E, length_lswap).
  destruct (down_up_spec i n (h_Swap i n s)) as (Hv'' & [Hp' Hk] & Hord'); [done|lia..| |].
  { eapply (ordered_off_at i n (at_pos s)).
    - intros k Hki Hkn. rewrite at_pos_Swap by (done || lia). unfold pswap.
      by rewrite !decide_False by lia.
    - intros c Hc. apply Hord. lia. }
  cbv zeta. split_and!; [done|by rewrite Hp'| |done].
  rewrite Hk by lia. rewrite E, lookup_lswap by lia.
  rewrite decide_False by done. by rewrite decide_True.
Qed.

(** After [Pop]'s rearrangement the first element is last. *)
Lemma heap_Pop_prepare_spec s a n :
  valid s → elems s !! 0%nat = Some a → length (elems s) = Datatypes.S n →
  ordered (length (elems s)) (at_pos s) →
  let s' := heap_Pop_prepare s in
  valid s' ∧ elems s' ≡ₚ elems s ∧ elems s' !! n = Some a ∧ ordered n (at_pos s').
Proof.
  intros Hv Ha Hlen Hord. unfold heap_Pop_prepare. rewrite law_Len, Hlen by done.
  replace (Datatypes.S n - 1)%nat with n by lia.
  destruct (law_Swap s 0 n) as [E Hv']; [done|lia..|].
  pose proof (Swap_rearranged (Datatypes.S n) s 0 n) as [Hp _]; [done|lia..|].
  assert (length (elems (h_Swap 0 n s)) = Datatypes.S n) as Hlen' by (by rewrite E, length_lswap).
  unfold heap_down.
  pose proof (heap_down_fuel_spec n 0 n (h_Swap 0 n s) Hv' ltac:(lia) ltac:(lia)) as Hd.
  destruct (heap_down_fuel n 0 n (h_Swap 0 n s)) as [i' s']. cbn [snd].
  destruct Hd as (Hv'' & [Hp' Hk] & _ & _ & Hord').
  { eapply (ordered_off_at 0 n (at_pos s)).
    - intros k Hki Hkn. rewrite at_pos_Swap by (done || lia). unfold pswap.
      by rewrite !decide_False by lia.
    - intros c Hc. apply Hord. lia. }
  cbv zeta. split_and!; [done|by rewrite Hp'| |apply Hord'; right; intros ?; lia].
  rewrite Hk by lia. rewrite E, lookup_lswap by lia.
  destruct (decide (n = 0%nat)) as [->|]; [done|]. by rewrite decide_True.
Qed.

(** An element appended to an ordered heap is out of order only with its
    parent, so [up] from the end restores the order ([Push]). *)
Lemma heap_Push_spec s a n :
  valid s → length (elems s) = Datatypes.S n → elems s !! n = Some a →
  ordered n (at_pos s) →
  valid (heap_up n s) ∧ elems (heap_up n s) ≡ₚ elems s ∧
  ordered (Datatypes.S n) (at_pos (heap_up n s)).
Proof.
  intros Hv Hlen Ha Hord.
  destruct (heap_up_spec n (Datatypes.S n) s) as (? & [? _] & ?); [done|lia..| | |done].
  - split; intros c Hc; [|intros Hp%parent_iff; lia].
    intros. apply Hord. lia.
  - intros c Hc Hp%parent_iff; lia.
Qed.

(** The first element of an ordered heap has the least priority. *)
Lemma ordered_min s n : ordered n (at_pos s) → ∀ k, (k < n)%nat → at_pos s 0 <= at_pos s k.
Proof.
  intros Hord k. induction (Nat.lt_wf_0 k) as [k _ IH]. intros Hk.
  destruct k as [|k]; [lia|]. pose proof (parent_lt (Datatypes.S k) ltac:(lia)).
  etrans; [apply (IH (parent (Datatypes.S k))); lia|]. apply Hord. lia.
Qed.
End correctness.
