(* ===== verification/TTL.v ===== *)
(** * Key expiry

    [src/pkg/memdb/db.go], lines 16-267: [TTLItem], [TTLHeap], [ttlShard] and
    [TTLManager].  Items are heap objects shared by the slice of the priority
    queue and by the [keys] map of a shard, and recycled through [ttlItemPool]:
    the manager has a store of items by location, and slices, maps and the pool
    hold locations.  A method runs under the mutex of one shard and is one
    atomic step; [cleanup] visits the shards one after the other. *)

From S2P Require Import Prelude Util CMap Heap.
From Stdlib Require Import Ascii String ZArith Lia.
From stdpp Require Import prelude gmap list fin_maps.
Open Scope Z_scope.

(** ** Data *)
Record TTLItem := mkTTLItem { item_key : bytes; expireAt : Z; item_index : Z }.

(** The slice of a shard's queue with the store its pointers refer to. *)
Record TTLHeap := mkTTLHeap { h_items : gmap positive TTLItem; h_slice : list positive }.

Record ttlShard := mkTTLShard { sh_heap : list positive; sh_keys : gmap bytes positive }.

Record TTLManager := mkTTLManager {
  tm_items : gmap positive TTLItem;   (* every [TTLItem] allocated so far *)
  tm_pool : list positive;            (* [ttlItemPool] *)
  tm_shards : list ttlShard;
  tm_mask : Z;
}.

Definition with_index (i : Z) (it : TTLItem) : TTLItem :=
  mkTTLItem (item_key it) (expireAt it) i.
Definition with_expire (e : Z) (it : TTLItem) : TTLItem :=
  mkTTLItem (item_key it) e (item_index it).

(** ** [TTLHeap] as a [heap.Interface] *)
Definition expire_of (its : gmap positive TTLItem) (l : positive) : Z :=
  match its !! l with Some it => expireAt it | None => 0 end.

Definition TTLHeap_Less (i j : nat) (h : TTLHeap) : bool :=
  match h_slice h !! i, h_slice h !! j with
  | Some a, Some b => expire_of (h_items h) a <? expire_of (h_items h) b
  | _, _ => false
  end.

(** [h[k].index = k] *)
Definition set_index (k : nat) (h : TTLHeap) : TTLHeap :=
  match h_slice h !! k with
  | Some l => mkTTLHeap (alter (with_index (Z.of_nat k)) l (h_items h)) (h_slice h)
  | None => h
  end.

Definition TTLHeap_Swap (i j : nat) (h : TTLHeap) : TTLHeap :=
  set_index j (set_index i (mkTTLHeap (h_items h) (lswap i j (h_slice h)))).

#[export] Instance TTLHeap_Interface : HeapInterface TTLHeap := {
  h_Len h := length (h_slice h);
  h_Less := TTLHeap_Less;
  h_Swap := TTLHeap_Swap;
}.

(** [Push] of [TTLHeap] *)
Definition TTLHeap_Push (l : positive) (h : TTLHeap) : TTLHeap :=
  mkTTLHeap (alter (with_index (zlen (h_slice h))) l (h_items h)) (h_slice h ++ [l]).

(** [Pop] of [TTLHeap]: panics on an empty slice. *)
Definition TTLHeap_Pop (h : TTLHeap) : outcome (positive * TTLHeap) :=
  let n := length (h_slice h) in
  match h_slice h !! (n - 1)%nat with
  | Some l =>
      Ret (l, mkTTLHeap (alter (with_index (-1)) l (h_items h)) (take (n - 1) (h_slice h)))
  | None => Panics
  end.

(** The entry points of [container/heap] on it, at an index that is a Go [int].
    [Fix] at -1 leaves the heap alone ([2*i+1 < 0] and [(i-1)/2 == i]), and at 0
    of an empty heap too; any other index outside the slice panics in [Less]. *)
Definition heapFix (i : Z) (h : TTLHeap) : outcome TTLHeap :=
  if i =? -1 then Ret h
  else if (0 <=? i) && (i <? zlen (h_slice h)) then Ret (heap_Fix (Z.to_nat i) h)
  else if i =? 0 then Ret h
  else Panics.

Definition heapPush (l : positive) (h : TTLHeap) : TTLHeap :=
  let h := TTLHeap_Push l h in heap_up (length (h_slice h) - 1) h.

Definition heapPop (h : TTLHeap) : outcome (positive * TTLHeap) :=
  match h_slice h with
  | [] => Panics
  | _ => TTLHeap_Pop (heap_Pop_prepare h)
  end.

Definition heapRemove (i : Z) (h : TTLHeap) : outcome (positive * TTLHeap) :=
  if i =? zlen (h_slice h) - 1 then TTLHeap_Pop h
  else if (0 <=? i) && (i <? zlen (h_slice h))
  then TTLHeap_Pop (heap_Remove_prepare (Z.to_nat i) h)
  else Panics.

(** ** [TTLManager] *)

(** [bits.Len(uint(n))] *)
Definition bits_Len (n : Z) : Z := if n =? 0 then 0 else Z.log2 n + 1.

Definition ttlShardCount (shardHint : Z) : Z :=
  let h := if shardHint <=? 0 then 1 else shardHint in
  let h := if 256 <? h then 256 else h in
  let h := if h <? 16 then 16 else h in
  Z.shiftl 1 (bits_Len (h - 1)).

(** [NewTTLManager]; the [db] it keeps is an argument of [cleanup]. *)
Definition NewTTLManager (ShardNum : Z) : TTLManager :=
  let shardCount := ttlShardCount ShardNum in
  mkTTLManager ∅ [] (replicate (Z.to_nat shardCount) (mkTTLShard [] ∅)) (shardCount - 1).

Section TTLManager.
Context `{Host}.

(** [acquireTTLItem]: a pooled item or a new one, all its fields overwritten. *)
Definition acquireTTLItem (key : bytes) (expire : Z) : M TTLManager positive := λ tm,
  let '(l, pool) :=
    match tm_pool tm with
    | l :: pool => (l, pool)
    | [] => (fresh (dom (tm_items tm)), [])
    end in
  (Ret l, mkTTLManager (<[l := mkTTLItem key expire (-1)]> (tm_items tm)) pool
            (tm_shards tm) (tm_mask tm)).

Definition releaseTTLItem (l : positive) : M TTLManager unit := λ tm,
  (Ret tt, mkTTLManager (<[l := mkTTLItem [] 0 (-1)]> (tm_items tm)) (l :: tm_pool tm)
             (tm_shards tm) (tm_mask tm)).

(** The index of [shardFor(key)]. *)
Definition shardFor (key : bytes) : M TTLManager nat := λ tm,
  let pos := Z.land (HashKey key) (tm_mask tm) in
  if (0 <=? pos) && (pos <? zlen (tm_shards tm)) then (Ret (Z.to_nat pos), tm) else (Panics, tm).

Definition get_shard (i : nat) : M TTLManager ttlShard := λ tm,
  Prelude.index (tm_shards tm) i tm.

(** Reading an item through its pointer, and [item.expireAt = e] *)
Definition load (l : positive) : M TTLManager TTLItem := λ tm,
  match tm_items tm !! l with Some it => (Ret it, tm) | None => (Panics, tm) end.
Definition store_expire (l : positive) (e : Z) : M TTLManager unit := λ tm,
  (Ret tt, mkTTLManager (alter (with_expire e) l (tm_items tm)) (tm_pool tm)
             (tm_shards tm) (tm_mask tm)).

(** A [container/heap] call on [&shard.heap]. *)
Definition on_heap {A} (i : nat) (f : TTLHeap → outcome (A * TTLHeap)) : M TTLManager A := λ tm,
  match tm_shards tm !! i with
  | None => (Panics, tm)
  | Some sh =>
      match f (mkTTLHeap (tm_items tm) (sh_heap sh)) with
      | Ret (a, h) =>
          (Ret a, mkTTLManager (h_items h) (tm_pool tm)
                    (<[i := mkTTLShard (h_slice h) (sh_keys sh)]> (tm_shards tm)) (tm_mask tm))
      | Panics => (Panics, tm)
      | Fatals => (Fatals, tm)
      | Blocks => (Blocks, tm)
      end
  end.

(** [shard.keys[key] = l] and [delete(shard.keys, key)] *)
Definition on_keys (i : nat) (f : gmap bytes positive → gmap bytes positive) : M TTLManager unit :=
  λ tm, (Ret tt, mkTTLManager (tm_items tm) (tm_pool tm)
                   (alter (λ sh, mkTTLShard (sh_heap sh) (f (sh_keys sh))) i (tm_shards tm))
                   (tm_mask tm)).

Definition TTLManager_SetTTL (key : bytes) (e : Z) : M TTLManager unit :=
  i ← shardFor key;
  sh ← get_shard i;
  match sh_keys sh !! key with
  | Some l =>
      it ← load l;
      if expireAt it =? e then mret tt
      else
        store_expire l e;;
        it ← load l;
        on_heap i (λ h, h' ← heapFix (item_index it) h; mret (tt, h'))
  | None =>
      l ← acquireTTLItem key e;
      on_heap i (λ h, Ret (tt, heapPush l h));;
      on_keys i <[key := l]>
  end.

Definition TTLManager_RemoveTTL (key : bytes) : M TTLManager unit :=
  i ← shardFor key;
  sh ← get_shard i;
  match sh_keys sh !! key with
  | Some l =>
      it ← load l;
      removed ← on_heap i (heapRemove (item_index it));
      on_keys i (delete key);;
      releaseTTLItem removed
  | None => mret tt
  end.

Definition TTLManager_ExpireAt (key : bytes) : M TTLManager (option Z) :=
  i ← shardFor key;
  sh ← get_shard i;
  match sh_keys sh !! key with
  | Some l => it ← load l; mret (Some (expireAt it))
  | None => mret None
  end.

(** [CheckTTL(key)] when [time.Now().Unix()] is [now]. *)
Definition TTLManager_CheckTTL (now : Z) (key : bytes) : M TTLManager bool :=
  i ← shardFor key;
  sh ← get_shard i;
  match sh_keys sh !! key with
  | None => mret true
  | Some l =>
      it ← load l;
      if now <? expireAt it then mret true
      else
        removed ← on_heap i (heapRemove (item_index it));
        on_keys i (delete key);;
        releaseTTLItem removed;;
        mret false
  end.

(** The loop of [collectExpiredAndNext]; every iteration pops one item, the
    fuel is the length of the heap. *)
Fixpoint collect_loop (fuel : nat) (i : nat) (now : Z) (expired : list bytes)
    : M TTLManager (list bytes * Z) :=
  sh ← get_shard i;
  match fuel, sh_heap sh with
  | S fuel, l :: _ =>
      it ← load l;
      if now <? expireAt it then mret (expired, expireAt it)
      else
        popped ← on_heap i heapPop;
        pit ← load popped;
        on_keys i (delete (item_key pit));;
        releaseTTLItem popped;;
        collect_loop fuel i now (expired ++ [item_key pit])
  | _, _ => mret (expired, 0)
  end.

Definition collectExpiredAndNext (i : nat) (now : Z) : M TTLManager (list bytes * Z) :=
  sh ← get_shard i;
  '(expired, next) ← collect_loop (length (sh_heap sh)) i now [];
  sh ← get_shard i;
  match sh_heap sh with
  | l :: _ => if next =? 0 then it ← load l; mret (expired, expireAt it) else mret (expired, next)
  | [] => mret (expired, next)
  end.

(** The deletions and the running minimum of one iteration of [cleanup]. *)
Definition cleanup_shard {tree} `{!RBTree tree} {V} (now : Z) (nextExpire : Z) (i : nat)
    : M (TTLManager * ConcurrentMap tree V) Z := λ '(tm, db),
  match collectExpiredAndNext i now tm with
  | (Ret (expired, next), tm) =>
      match mfold (λ _ key db, match CMap.Delete key db with
                               | Ret (_, db) => (Ret tt, db)
                               | _ => (Panics, db)
                               end) tt expired db with
      | (Ret _, db) =>
          (Ret (if (0 <? next) && ((nextExpire =? 0) || (next <? nextExpire))
                then next else nextExpire), (tm, db))
      | (_, db) => (Panics, (tm, db))
      end
  | (_, tm) => (Panics, (tm, db))
  end.

Definition cleanup {tree} `{!RBTree tree} {V} (now : Z)
    : M (TTLManager * ConcurrentMap tree V) Z := λ '(tm, db),
  mfold (cleanup_shard now) 0 (seq 0 (length (tm_shards tm))) (tm, db).
End TTLManager.

(** [cleanupLoop]: the delay in nanoseconds before the next [cleanup], from the
    value [next] the last one returned and the current time. *)
Definition cleanup_wait (next now : Z) : Z :=
  if 0 <? next then
    if next <=? now then 10 * Millisecond
    else
      let d := int64 (int64 (next - now) * Second) in
      let d := if d <? 10 * Millisecond then 10 * Millisecond else d in
      if Second <? d then Second else d
  else Second.

(** ** The heap operations on a slice of items *)

(** Every item knows its position. *)
Definition heap_ok (h : TTLHeap) : Prop :=
  ∀ k l, h_slice h !! k = Some l → ∃ it, h_items h !! l = Some it ∧ item_index it = Z.of_nat k.

(** Two stores that agree up to the [index] fields of the items in [X]. *)
Definition same_items (X : list positive) (its its' : gmap positive TTLItem) : Prop :=
  ∀ l, match its !! l, its' !! l with
       | Some a, Some b => item_key a = item_key b ∧ expireAt a = expireAt b ∧ (l ∉ X → a = b)
       | None, None => True
       | _, _ => False
       end.

Definition heap_elems (h : TTLHeap) : list (positive * Z) :=
  (λ l, (l, expire_of (h_items h) l)) <$> h_slice h.

Definition heap_ordered (h : TTLHeap) : Prop :=
  ordered (length (h_slice h)) (at_pos heap_elems snd h).

(** What [Swap] keeps, relative to the heap [h0] an operation started from. *)
Definition heap_valid (h0 h : TTLHeap) : Prop :=
  heap_ok h ∧ h_slice h ≡ₚ h_slice h0 ∧ same_items (h_slice h0) (h_items h0) (h_items h).

Lemma same_items_refl X its : same_items X its its.
Proof. intros l. by destruct (its !! l). Qed.

Lemma same_items_trans X its1 its2 its3 :
  same_items X its1 its2 → same_items X its2 its3 → same_items X its1 its3.
Proof.
  intros H1 H2 l. specialize (H1 l). specialize (H2 l).
  destruct (its1 !! l), (its2 !! l), (its3 !! l); naive_solver congruence.
Qed.

Lemma same_items_weaken X Y its its' :
  (∀ l, l ∈ X → l ∈ Y) → same_items X its its' → same_items Y its its'.
Proof.
  intros HXY H l. specialize (H l). destruct (its !! l), (its' !! l); naive_solver.
Qed.

Lemma same_items_alter X its l i : l ∈ X → same_items X its (alter (with_index i) l its).
Proof.
  intros Hl l'. destruct (decide (l' = l)) as [->|].
  - rewrite lookup_alter, decide_True by done. by destruct (its !! l).
  - rewrite lookup_alter_ne by done. by destruct (its !! l').
Qed.

Lemma same_items_expire X its its' l : same_items X its its' → expire_of its' l = expire_of its l.
Proof. intros H. specialize (H l). unfold expire_of. by destruct (its !! l), (its' !! l); naive_solver. Qed.

Lemma same_items_lookup X its its' l it :
  same_items X its its' → its !! l = Some it →
  ∃ it', its' !! l = Some it' ∧ item_key it' = item_key it ∧ expireAt it' = expireAt it.
Proof. intros H E. specialize (H l). rewrite E in H. destruct (its' !! l); naive_solver. Qed.

Lemma same_items_keys X its its' l :
  same_items X its its' → item_key <$> its' !! l = item_key <$> its !! l.
Proof.
  intros Hs. specialize (Hs l). destruct (its !! l), (its' !! l); try done. cbn.
  f_equal. naive_solver.
Qed.

Lemma same_items_expires X its its' l :
  same_items X its its' → expireAt <$> its' !! l = expireAt <$> its !! l.
Proof.
  intros Hs. specialize (Hs l). destruct (its !! l), (its' !! l); try done. cbn.
  f_equal. naive_solver.
Qed.

Lemma same_items_frame X its its' l : same_items X its its' → l ∉ X → its' !! l = its !! l.
Proof. intros H Hl. specialize (H l). destruct (its !! l), (its' !! l); naive_solver. Qed.

Lemma heap_ok_inj h j k l :
  heap_ok h → h_slice h !! j = Some l → h_slice h !! k = Some l → j = k.
Proof. intros Hok (?&?&?)%Hok (?&?&?)%Hok. simplify_eq. lia. Qed.

Lemma heap_ok_NoDup h : heap_ok h → NoDup (h_slice h).
Proof. intros Hok. apply NoDup_alt. intros. by eapply heap_ok_inj. Qed.

Lemma lookup_heap_elems h k : heap_elems h !! k = (λ l, (l, expire_of (h_items h) l)) <$> (h_slice h !! k).
Proof. apply list_lookup_fmap. Qed.

Lemma length_heap_elems h : length (heap_elems h) = length (h_slice h).
Proof. apply length_fmap. Qed.

Lemma set_index_slice k h : h_slice (set_index k h) = h_slice h.
Proof. unfold set_index. by destruct (h_slice h !! k). Qed.

Lemma set_index_same k h X :
  (∀ l, l ∈ h_slice h → l ∈ X) → same_items X (h_items h) (h_items (set_index k h)).
Proof.
  intros HX. unfold set_index. destruct (h_slice h !! k) eqn:E; [|apply same_items_refl].
  apply same_items_alter, HX. by eapply list_elem_of_lookup_2.
Qed.

Lemma lookup_set_index k h l :
  h_items (set_index k h) !! l =
  (if decide (h_slice h !! k = Some l) then with_index (Z.of_nat k) <$> h_items h !! l else h_items h !! l).
Proof.
  unfold set_index. destruct (h_slice h !! k) as [l'|] eqn:E; cbn.
  - rewrite lookup_alter. repeat case_decide; naive_solver.
  - done.
Qed.

(** [Swap] of two positions keeps the index fields right. *)
Lemma Swap_heap_ok i j h :
  heap_ok h → (i < length (h_slice h))%nat → (j < length (h_slice h))%nat →
  heap_ok (TTLHeap_Swap i j h).
Proof.
  intros Hok Hi Hj k l. unfold TTLHeap_Swap. rewrite !set_index_slice. cbn [h_slice].
  intros Hk. rewrite !lookup_set_index, !set_index_slice. cbn [h_slice h_items].
  rewrite !lookup_lswap by done. rewrite lookup_lswap in Hk by done.
  pose proof (λ a b, heap_ok_inj h a b l Hok) as Hinj.
  rewrite (decide_True (P := i = i)), (decide_True (P := j = j)) by done.
  destruct (decide (k = i)) as [->|Hki]; [|destruct (decide (k = j)) as [->|Hkj]].
  - destruct (Hok _ _ Hk) as (it & Hit & Hix). rewrite Hit, (decide_True (P := h_slice h !! j = _)) by done.
    destruct (decide (j = i)) as [->|Hji].
    + rewrite decide_True by done. eexists; split; done.
    + rewrite decide_False by (intros E; by apply Hji, Hinj). eexists; split; done.
  - destruct (Hok _ _ Hk) as (it & Hit & Hix). rewrite Hit, (decide_False (P := j = i)) by done.
    rewrite (decide_True (P := h_slice h !! i = _)) by done.
    case_decide; eexists; split; done.
  - destruct (Hok _ _ Hk) as (it & Hit & Hix). rewrite Hit.
    rewrite (decide_False (P := h_slice h !! j = _)) by (intros E; by apply Hkj, Hinj).
    rewrite decide_False.
    + eexists; split; done.
    + destruct (decide (j = i)); intros E; [apply Hkj|apply Hki]; by apply Hinj.
Qed.

Lemma Swap_slice i j h : h_slice (TTLHeap_Swap i j h) = lswap i j (h_slice h).
Proof. unfold TTLHeap_Swap. by rewrite !set_index_slice. Qed.

Lemma Swap_same i j h X :
  (∀ l, l ∈ h_slice h → l ∈ X) → same_items X (h_items h) (h_items (TTLHeap_Swap i j h)).
Proof.
  intros HX. unfold TTLHeap_Swap.
  assert (∀ l, l ∈ lswap i j (h_slice h) → l ∈ X) as HX'.
  { intros l. rewrite lswap_Permutation. apply HX. }
  set (h1 := mkTTLHeap (h_items h) (lswap i j (h_slice h))).
  apply (same_items_trans X _ (h_items (set_index i h1))).
  - by apply (set_index_same i h1).
  - apply set_index_same. by rewrite set_index_slice.
Qed.

Lemma heap_elems_same X its its' sl :
  same_items X its its' → heap_elems (mkTTLHeap its' sl) = heap_elems (mkTTLHeap its sl).
Proof.
  intros Hs. unfold heap_elems. apply list_fmap_ext. intros k l _. cbn.
  by rewrite (same_items_expire X its its').
Qed.

Lemma at_pos_slice h k :
  at_pos heap_elems snd h k =
  match h_slice h !! k with Some l => expire_of (h_items h) l | None => 0 end.
Proof. unfold at_pos. rewrite lookup_heap_elems. by destruct (h_slice h !! k). Qed.

#[export] Instance TTLHeap_Laws h0 : HeapLaws heap_elems snd (heap_valid h0).
Proof.
  split.
  - intros h _. by rewrite length_heap_elems.
  - intros h i j _ Hi Hj. rewrite length_heap_elems in *. cbn. rewrite !at_pos_slice.
    unfold TTLHeap_Less.
    destruct (lookup_lt_is_Some_2 _ _ Hi) as [a ->].
    by destruct (lookup_lt_is_Some_2 _ _ Hj) as [b ->].
  - intros h i j (Hok & Hp & Hs) Hi Hj. rewrite length_heap_elems in *. cbn.
    assert (same_items (h_slice h0) (h_items h) (h_items (TTLHeap_Swap i j h))) as Hs'.
    { apply Swap_same. intros l. by rewrite Hp. }
    split; [|split_and!].
    + transitivity (heap_elems (mkTTLHeap (h_items h) (lswap i j (h_slice h)))).
      { rewrite <- (heap_elems_same _ _ _ _ Hs'), <- Swap_slice. by destruct (TTLHeap_Swap i j h). }
      unfold heap_elems, lswap. cbn. rewrite !list_lookup_fmap.
      destruct (h_slice h !! i) as [a|], (h_slice h !! j) as [b|]; cbn; [|done..].
      by rewrite !list_fmap_insert.
    + by apply Swap_heap_ok.
    + rewrite Swap_slice, lswap_Permutation. done.
    + by eapply same_items_trans.
Qed.

Lemma heap_valid_refl h : heap_ok h → heap_valid h h.
Proof. intros Hok. split; [done|split; [done|apply same_items_refl]]. Qed.

(** The facts a caller learns from an operation that keeps the elements. *)
Lemma heapFix_spec i h l :
  heap_ok h → h_slice h !! i = Some l →
  off_at i (length (h_slice h)) (at_pos heap_elems snd h) →
  ∃ h', heapFix (Z.of_nat i) h = Ret h' ∧ heap_valid h h' ∧ heap_ordered h'.
Proof.
  intros Hok Hl Hoff. pose proof (lookup_lt_Some _ _ _ Hl).
  exists (heap_Fix i h). unfold heapFix, zlen.
  destruct (Z.eqb_spec (Z.of_nat i) (-1)); [lia|].
  destruct (Z.leb_spec 0 (Z.of_nat i)); [|lia].
  destruct (Z.ltb_spec (Z.of_nat i) (Z.of_nat (length (h_slice h)))); [|lia].
  rewrite Nat2Z.id. cbn. split; [done|].
  destruct (heap_Fix_spec heap_elems snd (heap_valid h) i h) as (Hv & Hp & Hord).
  - by apply heap_valid_refl.
  - by rewrite length_heap_elems.
  - by rewrite length_heap_elems.
  - split; [done|]. unfold heap_ordered. destruct Hv as (_ & -> & _).
    by rewrite length_heap_elems in Hord.
Qed.

Lemma heapPush_spec l h it :
  heap_ok h → heap_ordered h → l ∉ h_slice h → h_items h !! l = Some it →
  heap_ok (heapPush l h) ∧ heap_ordered (heapPush l h) ∧
  h_slice (heapPush l h) ≡ₚ l :: h_slice h ∧
  same_items (l :: h_slice h) (h_items h) (h_items (heapPush l h)).
Proof.
  intros Hok Hord Hl Hit. unfold heapPush. set (h1 := TTLHeap_Push l h).
  assert (h_slice h1 = h_slice h ++ [l]) as Esl by done.
  assert (same_items (l :: h_slice h) (h_items h) (h_items h1)) as Hs1.
  { apply same_items_alter. left. }
  assert (heap_ok h1) as Hok1.
  { intros k l'. rewrite Esl, lookup_app_Some. cbn. intros [Hk|[Hge Hk]].
    - rewrite lookup_alter_ne; [by apply Hok|].
      intros ->. by apply Hl; eapply list_elem_of_lookup_2.
    - apply list_lookup_singleton_Some in Hk as [Hk ->].
      rewrite lookup_alter, decide_True, Hit by done. cbn. eexists; split; [done|].
      cbn. unfold zlen. lia. }
  rewrite Esl, length_app. cbn [length]. replace (_ + 1 - 1)%nat with (length (h_slice h)) by lia.
  destruct (heap_Push_spec heap_elems snd (heap_valid h1) h1 (l, expire_of (h_items h1) l)
    (length (h_slice h))) as ((Hok' & Hp' & Hs') & _ & Hord').
  - by apply heap_valid_refl.
  - rewrite length_heap_elems, Esl, length_app. cbn. lia.
  - rewrite lookup_heap_elems, Esl, lookup_app_r, Nat.sub_diag by lia. done.
  - intros c Hc. pose proof (parent_lt c). rewrite !at_pos_slice, Esl, !lookup_app_l by lia.
    specialize (Hord c Hc). rewrite !at_pos_slice in Hord.
    assert (∀ x, expire_of (h_items h1) x = expire_of (h_items h) x) as Ex
      by (intros; by eapply same_items_expire).
    destruct (h_slice h !! parent c), (h_slice h !! c); rewrite ?Ex; done.
  - split_and!; [done| | |].
    + unfold heap_ordered. rewrite Hp', Esl, length_app. cbn. by rewrite Nat.add_1_r.
    + rewrite Hp', Esl. by rewrite Permutation_app_comm.
    + eapply same_items_trans; [done|]. eapply same_items_weaken; [|done].
      intros x. rewrite Esl. set_solver.
Qed.

Lemma take_last_Permutation {A} (s : list A) n l :
  length s = S n → s !! n = Some l → s ≡ₚ l :: take n s.
Proof.
  intros Hlen Hl. rewrite <- (take_drop n s) at 1.
  rewrite (drop_S s l n Hl), drop_ge by lia. by rewrite Permutation_app_comm.
Qed.

(** Removing the last element of a heap whose first [n] elements are ordered. *)
Lemma TTLHeap_Pop_spec h0 h l n :
  heap_valid h0 h → length (h_slice h) = S n → h_slice h !! n = Some l →
  ordered n (at_pos heap_elems snd h) →
  ∃ h', TTLHeap_Pop h = Ret (l, h') ∧ heap_ok h' ∧ heap_ordered h' ∧
    l :: h_slice h' ≡ₚ h_slice h0 ∧ same_items (h_slice h0) (h_items h0) (h_items h').
Proof.
  intros (Hok & Hp & Hs) Hlen Hl Hord. unfold TTLHeap_Pop.
  rewrite Hlen. replace (S n - 1)%nat with n by lia. rewrite Hl.
  eexists; split; [done|]. split_and!.
  - intros k l' [Hk Hkn]%lookup_take_Some. cbn. rewrite lookup_alter_ne; [by apply Hok|].
    intros ->. pose proof (heap_ok_inj _ _ _ _ Hok Hk Hl). lia.
  - unfold heap_ordered. cbn [h_slice]. rewrite length_take, Hlen.
    intros c Hc. pose proof (parent_lt c). specialize (Hord c). rewrite !at_pos_slice in *.
    cbn [h_slice h_items]. rewrite !lookup_take_lt by lia.
    assert (∀ x, expire_of (alter (with_index (-1)) l (h_items h)) x = expire_of (h_items h) x) as Ex.
    { intros x. eapply same_items_expire, (same_items_alter [l]). by left. }
    destruct (h_slice h !! parent c), (h_slice h !! c); rewrite ?Ex; apply Hord; lia.
  - cbn. rewrite <- Hp. symmetry. by apply take_last_Permutation.
  - cbn. eapply same_items_trans; [done|]. apply same_items_alter.
    rewrite <- Hp. by eapply list_elem_of_lookup_2.
Qed.

Lemma heapRemove_spec i h l :
  heap_ok h → heap_ordered h → h_slice h !! i = Some l →
  ∃ h', heapRemove (Z.of_nat i) h = Ret (l, h') ∧ heap_ok h' ∧ heap_ordered h' ∧
    l :: h_slice h' ≡ₚ h_slice h ∧ same_items (h_slice h) (h_items h) (h_items h').
Proof.
  intros Hok Hord Hl. pose proof (lookup_lt_Some _ _ _ Hl) as Hi.
  destruct (length (h_slice h)) as [|n] eqn:Hlen; [lia|]. unfold heapRemove, zlen. rewrite Hlen.
  destruct (Z.eqb_spec (Z.of_nat i) (Z.of_nat (S n) - 1)) as [E|].
  { assert (i = n) as -> by lia. apply (TTLHeap_Pop_spec h h l n); [by apply heap_valid_refl|done..|].
    intros c Hc. apply Hord. lia. }
  destruct (Z.leb_spec 0 (Z.of_nat i)); [|lia].
  destruct (Z.ltb_spec (Z.of_nat i) (Z.of_nat (S n))); [|lia].
  cbn [andb]. rewrite Nat2Z.id.
  destruct (heap_Remove_prepare_spec heap_elems snd (heap_valid h) i h (l, expire_of (h_items h) l) n)
    as (Hv & _ & Hlast & Hord').
  - by apply heap_valid_refl.
  - by rewrite lookup_heap_elems, Hl.
  - by rewrite length_heap_elems.
  - by rewrite length_heap_elems.
  - apply (TTLHeap_Pop_spec _ _ _ n); [done| |  |done].
    + destruct Hv as (_ & -> & _). done.
    + rewrite lookup_heap_elems in Hlast. destruct (h_slice _ !! n); naive_solver.
Qed.

Lemma heapPop_spec h l sl :
  heap_ok h → heap_ordered h → h_slice h = l :: sl →
  ∃ h', heapPop h = Ret (l, h') ∧ heap_ok h' ∧ heap_ordered h' ∧
    h_slice h' ≡ₚ sl ∧ same_items (h_slice h) (h_items h) (h_items h').
Proof.
  intros Hok Hord Hsl. unfold heapPop. rewrite Hsl. rewrite <- Hsl.
  destruct (heap_Pop_prepare_spec heap_elems snd (heap_valid h) h (l, expire_of (h_items h) l)
    (length sl)) as (Hv & _ & Hlast & Hord').
  - by apply heap_valid_refl.
  - by rewrite lookup_heap_elems, Hsl.
  - by rewrite length_heap_elems, Hsl.
  - by rewrite length_heap_elems.
  - destruct (TTLHeap_Pop_spec h (heap_Pop_prepare h) l (length sl)) as (h' & E & ? & ? & Hp & ?).
    + done.
    + destruct Hv as (_ & -> & _). by rewrite Hsl.
    + rewrite lookup_heap_elems in Hlast. destruct (h_slice _ !! length sl); naive_solver.
    + done.
    + exists h'. split_and!; try done. rewrite Hsl in Hp. by apply Permutation_cons_inv in Hp.
Qed.

Lemma heap_ordered_min h l sl l' :
  heap_ordered h → h_slice h = l :: sl → l' ∈ h_slice h →
  expire_of (h_items h) l <= expire_of (h_items h) l'.
Proof.
  intros Hord Hsl [k Hk]%list_elem_of_lookup. pose proof (lookup_lt_Some _ _ _ Hk) as Hlt.
  pose proof (ordered_min heap_elems snd h _ Hord k Hlt) as Hle.
  rewrite !at_pos_slice in Hle. by rewrite Hk, Hsl in Hle.
Qed.

(** ** The invariant of the manager *)
Section invariant.
Context `{Host}.
Implicit Types (tm : TTLManager) (sh : ttlShard) (its : gmap positive TTLItem).

Definition pos_of (mask : Z) (key : bytes) : nat := Z.to_nat (Z.land (HashKey key) mask).

(** A shard's queue is a heap whose items know their positions, and its [keys]
    map and its queue hold the same items; the keys hash to this shard. *)
Definition shard_ok its (mask : Z) (i : nat) sh : Prop :=
  heap_ok (mkTTLHeap its (sh_heap sh)) ∧
  heap_ordered (mkTTLHeap its (sh_heap sh)) ∧
  (∀ l it, l ∈ sh_heap sh → its !! l = Some it → sh_keys sh !! item_key it = Some l) ∧
  (∀ key l, sh_keys sh !! key = Some l →
     l ∈ sh_heap sh ∧ (item_key <$> its !! l) = Some key ∧ pos_of mask key = i).

Definition tm_ok tm : Prop :=
  (∃ b, 0 <= b ∧ zlen (tm_shards tm) = 2 ^ b ∧ tm_mask tm = 2 ^ b - 1) ∧
  (∀ i sh, tm_shards tm !! i = Some sh → shard_ok (tm_items tm) (tm_mask tm) i sh) ∧
  NoDup (tm_pool tm) ∧
  (∀ i sh l, tm_shards tm !! i = Some sh → l ∈ tm_pool tm → l ∉ sh_heap sh).

(** The abstract state: the expiry time of every key that has one. *)
Definition sh_expiry its sh (key : bytes) : option Z :=
  sh_keys sh !! key ≫= λ l, expireAt <$> its !! l.
Definition expiry tm (key : bytes) : option Z :=
  tm_shards tm !! pos_of (tm_mask tm) key ≫= λ sh, sh_expiry (tm_items tm) sh key.

(** The items of the shards other than [i]. *)
Definition elsewhere tm (i : nat) (l : positive) : Prop :=
  ∃ j sh, j ≠ i ∧ tm_shards tm !! j = Some sh ∧ l ∈ sh_heap sh.

Lemma heap_elems_ext its its' sl :
  (∀ l, l ∈ sl → its' !! l = its !! l) →
  heap_elems (mkTTLHeap its' sl) = heap_elems (mkTTLHeap its sl).
Proof.
  intros Hs. unfold heap_elems. apply list_fmap_ext. intros k l Hl. cbn.
  unfold expire_of. rewrite Hs; [done|]. by eapply list_elem_of_lookup_2.
Qed.

Lemma shard_ok_ext its its' mask i sh :
  (∀ l, l ∈ sh_heap sh → its' !! l = its !! l) → shard_ok its mask i sh → shard_ok its' mask i sh.
Proof.
  intros Hs (H1 & H2 & H3 & H4). split_and!.
  - intros k l Hk. cbn in *. rewrite Hs by (by eapply list_elem_of_lookup_2). by apply H1.
  - unfold heap_ordered, at_pos. rewrite (heap_elems_ext its its') by done. apply H2.
  - intros l it Hl. rewrite Hs by done. eauto.
  - intros key l Hk. destruct (H4 _ _ Hk) as (? & ? & ?). by rewrite Hs.
Qed.

Lemma sh_expiry_ext its its' mask i sh key :
  (∀ l, l ∈ sh_heap sh → its' !! l = its !! l) → shard_ok its mask i sh →
  sh_expiry its' sh key = sh_expiry its sh key.
Proof.
  intros Hs (_ & _ & _ & H4). unfold sh_expiry. destruct (sh_keys sh !! key) eqn:E; [|done].
  cbn. rewrite Hs; [done|]. by apply (H4 key).
Qed.

Lemma shard_ok_item its mask i sh l :
  shard_ok its mask i sh → l ∈ sh_heap sh →
  ∃ it k, its !! l = Some it ∧ sh_heap sh !! k = Some l ∧ item_index it = Z.of_nat k ∧
    sh_keys sh !! item_key it = Some l ∧ pos_of mask (item_key it) = i.
Proof.
  intros (H1 & _ & H3 & H4) Hl. pose proof Hl as [k Hk]%list_elem_of_lookup.
  destruct (H1 k l Hk) as (it & Hit & Hix). pose proof (H3 l it Hl Hit) as Hkey.
  destruct (H4 _ _ Hkey) as (_ & _ & Hpos). eauto 10.
Qed.

Lemma not_elsewhere tm i sh l :
  tm_ok tm → tm_shards tm !! i = Some sh → l ∈ sh_heap sh → ¬ elsewhere tm i l.
Proof.
  intros (_ & Hsh & _) Hi Hl (j & sh' & Hji & Hj & Hl').
  destruct (shard_ok_item _ _ _ _ _ (Hsh _ _ Hi) Hl) as (it & ? & Hit & ? & ? & ? & ?).
  destruct (shard_ok_item _ _ _ _ _ (Hsh _ _ Hj) Hl') as (it' & ? & Hit' & ? & ? & ? & ?).
  simplify_eq.
Qed.

(** Replacing one shard, its items and the pool. *)
Lemma tm_ok_update tm i sh its' pool' sh' :
  tm_ok tm → tm_shards tm !! i = Some sh →
  shard_ok its' (tm_mask tm) i sh' →
  (∀ l, elsewhere tm i l → its' !! l = tm_items tm !! l) →
  NoDup pool' → (∀ l, l ∈ pool' → ¬ elsewhere tm i l ∧ l ∉ sh_heap sh') →
  let tm' := mkTTLManager its' pool' (<[i := sh']> (tm_shards tm)) (tm_mask tm) in
  tm_ok tm' ∧
  ∀ key, expiry tm' key =
         if decide (pos_of (tm_mask tm) key = i) then sh_expiry its' sh' key else expiry tm key.
Proof.
  intros ((b & Hb & Hlen & Hmask) & Hsh & _ & _) Hi Hok' Hframe Hnd Hpool. cbv zeta.
  pose proof (lookup_lt_Some _ _ _ Hi) as Hlt. split.
  - split_and!; cbn [tm_items tm_pool tm_shards tm_mask].
    + exists b. unfold zlen in *. by rewrite length_insert.
    + intros j shj. destruct (decide (j = i)) as [->|Hji].
      * rewrite list_lookup_insert_eq by done. by intros [= <-].
      * rewrite list_lookup_insert_ne by done. intros Hj.
        eapply shard_ok_ext; [|by apply Hsh]. intros l Hl. apply Hframe. by exists j, shj.
    + done.
    + intros j shj l. destruct (decide (j = i)) as [->|Hji].
      * rewrite list_lookup_insert_eq by done. intros [= <-] Hl. by apply Hpool.
      * rewrite list_lookup_insert_ne by done. intros Hj Hl Hin.
        destruct (Hpool l Hl) as [Hne _]. apply Hne. by exists j, shj.
  - intros key. unfold expiry. cbn [tm_items tm_pool tm_shards tm_mask].
    case_decide as Hp; [subst i; by rewrite list_lookup_insert_eq|].
    rewrite list_lookup_insert_ne by done.
    destruct (tm_shards tm !! pos_of (tm_mask tm) key) as [shj|] eqn:Ej; [|done]. cbn.
    eapply sh_expiry_ext; [|by apply Hsh]. intros l Hl. apply Hframe. eexists _, shj. eauto.
Qed.

Lemma shardFor_ok tm key :
  tm_ok tm → ∃ sh, shardFor key tm = (Ret (pos_of (tm_mask tm) key), tm) ∧
    tm_shards tm !! pos_of (tm_mask tm) key = Some sh.
Proof.
  intros ((b & Hb & Hlen & Hmask) & _). pose proof (HashKey_mask key b Hb) as Hr.
  rewrite <- Hmask, <- Hlen in Hr. unfold shardFor, pos_of.
  destruct (lookup_lt_is_Some_2 (tm_shards tm) (Z.to_nat (Z.land (HashKey key) (tm_mask tm))))
    as [sh Hsh]; [unfold zlen in Hr; lia|].
  exists sh. split; [|done]. repeat (case_bool; cbn [andb]; try lia). done.
Qed.

(** Adding an item for a key the shard does not have. *)
Lemma shard_push its mask i sh key e l :
  shard_ok its mask i sh → pos_of mask key = i → sh_keys sh !! key = None →
  l ∉ sh_heap sh → its !! l = Some (mkTTLItem key e (-1)) →
  let h' := heapPush l (mkTTLHeap its (sh_heap sh)) in
  let sh' := mkTTLShard (h_slice h') (<[key := l]> (sh_keys sh)) in
  shard_ok (h_items h') mask i sh' ∧
  (∀ k, sh_expiry (h_items h') sh' k = if decide (k = key) then Some e else sh_expiry its sh k) ∧
  (∀ l', l' ∉ sh_heap sh → l' ≠ l → h_items h' !! l' = its !! l') ∧
  h_slice h' ≡ₚ l :: sh_heap sh.
Proof.
  intros Hok Hpos Hnone Hl Hit. pose proof Hok as (H1 & H2 & H3 & H4). cbv zeta.
  destruct (heapPush_spec l (mkTTLHeap its (sh_heap sh)) _ H1 H2 Hl Hit) as (Hok' & Hord & Hp & Hs).
  set (h' := heapPush l (mkTTLHeap its (sh_heap sh))) in *. clearbody h'.
  cbn [h_slice h_items] in *.
  assert (∀ l' it', h_items h' !! l' = Some it' → ∃ it, its !! l' = Some it ∧
            item_key it = item_key it' ∧ expireAt it = expireAt it') as Hback.
  { intros l' it' E. specialize (Hs l'). rewrite E in Hs. destruct (its !! l'); naive_solver. }
  split_and!; try done.
  - split_and!; cbn [sh_heap sh_keys].
    + by destruct h'.
    + by destruct h'.
    + intros l' it' Hl' Hit'. destruct (Hback _ _ Hit') as (it & E & Ek & _). rewrite <- Ek.
      destruct (decide (l' = l)) as [->|].
      { rewrite E in Hit. simplify_eq/=. by rewrite lookup_insert, decide_True. }
      rewrite Hp in Hl'. apply elem_of_cons in Hl' as [?|Hl']; [done|].
      pose proof (H3 _ _ Hl' E) as Hk. rewrite lookup_insert_ne; [done|]. congruence.
    + intros k l'. rewrite lookup_insert. case_decide as Hk.
      * intros [= <-]. subst k. rewrite Hp. split_and!; [left| |done].
        destruct (same_items_lookup _ _ _ _ _ Hs Hit) as (it' & -> & Ek & _). cbn. by rewrite Ek.
      * intros Hk'. destruct (H4 _ _ Hk') as (Hin & Hkey & ?). rewrite Hp. split_and!; [by right| |done].
        destruct (its !! l') as [it|] eqn:E; [|done].
        destruct (same_items_lookup _ _ _ _ _ Hs E) as (it' & -> & Ek & _). cbn in *. by rewrite Ek.
  - intros k. unfold sh_expiry. cbn [sh_keys]. rewrite lookup_insert.
    destruct (decide (k = key)) as [->|Hne].
    + rewrite decide_True by done. cbn.
      destruct (same_items_lookup _ _ _ _ _ Hs Hit) as (it' & -> & _ & Ee). cbn. by rewrite Ee.
    + rewrite decide_False by done. destruct (sh_keys sh !! k) as [l'|]; [|done]. cbn.
      by apply (same_items_expires _ _ _ _ Hs).
  - intros l' Hl' Hne. apply (same_items_frame _ _ _ _ Hs). rewrite not_elem_of_cons. done.
Qed.

(** Taking the item [l] of [key] out of the queue ([heapRemove] or [heapPop]),
    out of [keys] and back to the pool. *)
Lemma shard_drop its mask i sh it l h' :
  shard_ok its mask i sh → its !! l = Some it → heap_ok h' → heap_ordered h' →
  l :: h_slice h' ≡ₚ sh_heap sh → same_items (sh_heap sh) its (h_items h') →
  let its' := <[l := mkTTLItem [] 0 (-1)]> (h_items h') in
  let sh' := mkTTLShard (h_slice h') (delete (item_key it) (sh_keys sh)) in
  shard_ok its' mask i sh' ∧
  (∀ k, sh_expiry its' sh' k = if decide (k = item_key it) then None else sh_expiry its sh k) ∧
  (∀ l', l' ∉ sh_heap sh → its' !! l' = its !! l') ∧
  (l ∉ h_slice h') ∧ l ∈ sh_heap sh.
Proof.
  intros Hok Hit Hok' Hord Hp Hs. pose proof Hok as (H1 & H2 & H3 & H4). cbv zeta.
  assert (l ∈ sh_heap sh) as Hl by (rewrite <- Hp; left).
  assert (NoDup (l :: h_slice h')) as [Hnl _]%NoDup_cons
    by (rewrite Hp; by apply (heap_ok_NoDup _ H1)).
  pose proof (H3 _ _ Hl Hit) as Hkeyl.
  assert (∀ l', l' ≠ l → <[l := mkTTLItem [] 0 (-1)]> (h_items h') !! l' = h_items h' !! l') as Hne
    by (intros; by rewrite lookup_insert_ne).
  assert (∀ k l', sh_keys sh !! k = Some l' → k ≠ item_key it → l' ≠ l) as Hkl.
  { intros k l' Hk Hk' ->. destruct (H4 _ _ Hk) as (_ & E & _). rewrite Hit in E. naive_solver. }
  split_and!; try done.
  - apply (shard_ok_ext (h_items h')); [intros l' Hl'; apply Hne; by intros ->|].
    split_and!; cbn [sh_heap sh_keys].
    + by destruct h'.
    + by destruct h'.
    + intros l' it' Hl' Hit'. specialize (Hs l'). rewrite Hit' in Hs.
      destruct (its !! l') as [it0|] eqn:E; [|done]. destruct Hs as (Ek & _ & _). rewrite <- Ek.
      assert (sh_keys sh !! item_key it0 = Some l') as Hk by (apply H3; [rewrite <- Hp; by right|done]).
      rewrite lookup_delete_ne; [done|]. intros E'. rewrite <- E', Hkeyl in Hk. congruence.
    + intros k l'. rewrite lookup_delete_Some. intros [Hk Hk'].
      destruct (H4 _ _ Hk') as (Hin & Hkey & ?). rewrite <- Hp in Hin.
      split_and!; [|  |done].
      * apply elem_of_cons in Hin as [->|]; [|done]. exfalso. by eapply Hkl.
      * by rewrite (same_items_keys _ _ _ _ Hs).
  - intros k. unfold sh_expiry. cbn [sh_keys]. rewrite lookup_delete.
    destruct (decide (k = item_key it)) as [->|Hk]; [by rewrite decide_True|].
    rewrite decide_False by done. destruct (sh_keys sh !! k) as [l'|] eqn:E; [|done]. cbn.
    rewrite Hne by eauto. by apply (same_items_expires _ _ _ _ Hs).
  - intros l' Hl'. rewrite Hne by (by intros ->). by apply (same_items_frame _ _ _ _ Hs).
Qed.

(** Changing the expiry of an item and repairing the heap at its position. *)
Lemma shard_fix its mask i sh l it e :
  shard_ok its mask i sh → l ∈ sh_heap sh → its !! l = Some it →
  ∃ h', heapFix (item_index it) (mkTTLHeap (alter (with_expire e) l its) (sh_heap sh)) = Ret h' ∧
  let sh' := mkTTLShard (h_slice h') (sh_keys sh) in
  shard_ok (h_items h') mask i sh' ∧
  (∀ k, sh_expiry (h_items h') sh' k = if decide (k = item_key it) then Some e else sh_expiry its sh k) ∧
  (∀ l', l' ∉ sh_heap sh → h_items h' !! l' = its !! l') ∧
  h_slice h' ≡ₚ sh_heap sh.
Proof.
  intros Hok Hl Hit. pose proof Hok as (H1 & H2 & H3 & H4). cbv zeta.
  destruct (shard_ok_item _ _ _ _ _ Hok Hl) as (it0 & k & Hit0 & Hk & Hix & Hkey & Hpos).
  rewrite Hit0 in Hit. simplify_eq. set (its1 := alter (with_expire e) l its).
  assert (∀ l', l' ≠ l → its1 !! l' = its !! l') as Hne by (intros; unfold its1; by rewrite lookup_alter_ne).
  assert (its1 !! l = Some (with_expire e it)) as Hl1
    by (unfold its1; by rewrite lookup_alter, decide_True, Hit0).
  destruct (heapFix_spec k (mkTTLHeap its1 (sh_heap sh)) l) as (h' & Hfix & (Hok' & Hp & Hs) & Hord).
  - intros j l' Hj. cbn in *. destruct (H1 j l' Hj) as (it' & Hit' & Hix').
    destruct (decide (l' = l)) as [->|]; [|rewrite Hne by done; eauto].
    cbn in Hit'. rewrite Hit0 in Hit'. simplify_eq. exists (with_expire e it'). done.
  - done.
  - eapply ordered_off_at; [|apply H2]. intros j Hj _. rewrite !at_pos_slice. cbn [h_slice h_items].
    destruct (sh_heap sh !! j) as [l'|] eqn:E; [|done]. unfold expire_of. rewrite Hne; [done|].
    intros ->. by pose proof (heap_ok_inj _ j k l H1 E Hk).
  - rewrite Hix. exists h'. split; [done|]. cbn [h_slice h_items] in *.
    assert (∀ l' it', h_items h' !! l' = Some it' → ∃ it1, its !! l' = Some it1 ∧
              item_key it1 = item_key it') as Hback.
    { intros l' it' E. specialize (Hs l'). rewrite E in Hs.
      destruct (decide (l' = l)) as [->|]; [rewrite Hl1 in Hs|rewrite Hne in Hs by done;
        destruct (its !! l')]; naive_solver. }
    split_and!; try done.
    + split_and!; cbn [sh_heap sh_keys].
      * by destruct h'.
      * by destruct h'.
      * intros l' it'. rewrite Hp. intros Hl' (it1 & E & <-)%Hback. eauto.
      * intros k' l' Hk'. rewrite Hp. destruct (H4 _ _ Hk') as (? & E & ?). split_and!; [done| |done].
        rewrite (same_items_keys _ _ _ _ Hs). destruct (decide (l' = l)) as [->|].
        { rewrite Hl1. by rewrite Hit0 in E. }
        by rewrite Hne.
    + intros k'. unfold sh_expiry. cbn [sh_keys]. destruct (decide (k' = item_key it)) as [->|Hk'].
      * rewrite Hkey. cbn. by rewrite (same_items_expires _ _ _ _ Hs), Hl1.
      * destruct (sh_keys sh !! k') as [l'|] eqn:E; [|done]. cbn.
        rewrite (same_items_expires _ _ _ _ Hs), Hne; [done|].
        intros ->. destruct (H4 _ _ E) as (_ & E' & _). rewrite Hit0 in E'. naive_solver.
    + intros l' Hl'. rewrite (same_items_frame _ _ _ _ Hs) by done. apply Hne. by intros ->.
Qed.
End invariant.

(** ** The operations of the manager *)
Section manager.
Context `{Host}.
Implicit Types (tm : TTLManager) (sh : ttlShard).

Lemma alter_insert_eq {A} (f : A → A) i x (l : list A) : alter f i (<[i := x]> l) = <[i := f x]> l.
Proof. by rewrite !list_insert_alter, list_alter_alter_eq. Qed.

Lemma get_shard_ok tm i sh : tm_shards tm !! i = Some sh → get_shard i tm = (Ret sh, tm).
Proof. intros E. unfold get_shard, Prelude.index. by rewrite E. Qed.

Lemma on_heap_ok {A} tm i sh (f : TTLHeap → outcome (A * TTLHeap)) a h :
  tm_shards tm !! i = Some sh → f (mkTTLHeap (tm_items tm) (sh_heap sh)) = Ret (a, h) →
  on_heap i f tm = (Ret a, mkTTLManager (h_items h) (tm_pool tm)
    (<[i := mkTTLShard (h_slice h) (sh_keys sh)]> (tm_shards tm)) (tm_mask tm)).
Proof. intros E Ef. unfold on_heap. by rewrite E, Ef. Qed.

(** [heapRemove], [delete(keys, key)] and [releaseTTLItem] together. *)
Lemma drop_ok tm i sh l it (f : TTLHeap → outcome (positive * TTLHeap)) h' :
  tm_ok tm → tm_shards tm !! i = Some sh → tm_items tm !! l = Some it →
  f (mkTTLHeap (tm_items tm) (sh_heap sh)) = Ret (l, h') →
  heap_ok h' → heap_ordered h' → l :: h_slice h' ≡ₚ sh_heap sh →
  same_items (sh_heap sh) (tm_items tm) (h_items h') →
  ∃ tm', (removed ← on_heap i f; on_keys i (delete (item_key it));; releaseTTLItem removed) tm = (Ret tt, tm') ∧
    tm_ok tm' ∧ tm_mask tm' = tm_mask tm ∧
    (∀ k, expiry tm' k = if decide (k = item_key it) then None else expiry tm k) ∧
    (∃ ks, tm_shards tm' = <[i := mkTTLShard (h_slice h') ks]> (tm_shards tm)).
Proof.
  intros Hok Hi Hit Hf Hok' Hord Hp Hs. pose proof Hok as (_ & Hsh & Hnd & Hpool).
  pose proof (lookup_lt_Some _ _ _ Hi) as Hlt.
  destruct (shard_drop _ _ _ _ _ _ _ (Hsh _ _ Hi) Hit Hok' Hord Hp Hs) as (Hsok & Hexp & Hfr & Hnl & Hl).
  erewrite bind_Ret by (by eapply on_heap_ok). eexists. split; [done|]. cbn [tm_items tm_pool tm_shards tm_mask].
  rewrite alter_insert_eq. cbn [sh_heap sh_keys].
  destruct (tm_ok_update tm i sh (<[l := mkTTLItem [] 0 (-1)]> (h_items h')) (l :: tm_pool tm)
    (mkTTLShard (h_slice h') (delete (item_key it) (sh_keys sh)))) as [Hok'' Hexp'']; [done..| | | |].
  - intros l' Hl'. apply Hfr. intros Hin. by eapply not_elsewhere.
  - apply NoDup_cons. split; [|done]. intros Hin. by eapply Hpool.
  - intros l' [->|Hl']%elem_of_cons; [split; [by eapply not_elsewhere|done]|].
    split; [intros (j & shj & _ & Hj & Hin); by eapply Hpool|].
    cbn. intros Hin. eapply (Hpool i sh l'); [done..|]. rewrite <- Hp. by right.
  - split_and!; [done..| |eauto].
    intros k. rewrite Hexp''. case_decide as Hk; [|].
    + rewrite Hexp. unfold expiry. by rewrite Hk, Hi.
    + case_decide; [|done]. subst k. exfalso. apply Hk.
      destruct (shard_ok_item _ _ _ _ _ (Hsh _ _ Hi) Hl) as (it0 & ? & ? & ? & ? & ? & ?). congruence.
Qed.

Lemma expiry_shard tm key sh :
  tm_shards tm !! pos_of (tm_mask tm) key = Some sh → expiry tm key = sh_expiry (tm_items tm) sh key.
Proof. intros E. unfold expiry. by rewrite E. Qed.

(** The item found in [keys]. *)
Lemma keys_item tm i sh key l :
  tm_ok tm → tm_shards tm !! i = Some sh → sh_keys sh !! key = Some l →
  ∃ it k, tm_items tm !! l = Some it ∧ item_key it = key ∧ sh_heap sh !! k = Some l ∧
    item_index it = Z.of_nat k ∧ l ∈ sh_heap sh.
Proof.
  intros (_ & Hsh & _) Hi Hk. destruct (Hsh _ _ Hi) as (H1 & H2 & H3 & H4).
  destruct (H4 _ _ Hk) as (Hl & Hkey & _). pose proof Hl as [k Hk']%list_elem_of_lookup.
  destruct (H1 k l Hk') as (it & Hit & Hix). cbn in Hit. rewrite Hit in Hkey.
  naive_solver.
Qed.

Lemma ExpireAt_spec tm key :
  tm_ok tm → TTLManager_ExpireAt key tm = (Ret (expiry tm key), tm).
Proof.
  intros Hok. destruct (shardFor_ok tm key Hok) as (sh & Hfor & Hsh). unfold TTLManager_ExpireAt.
  erewrite bind_Ret by done. erewrite bind_Ret by (by apply get_shard_ok).
  rewrite (expiry_shard _ _ _ Hsh). unfold sh_expiry.
  destruct (sh_keys sh !! key) as [l|] eqn:E; [|done].
  destruct (keys_item _ _ _ _ _ Hok Hsh E) as (it & k & Hit & _).
  erewrite bind_Ret by (unfold load; by rewrite Hit). cbn. by rewrite Hit.
Qed.

(** The common part of [RemoveTTL] and [CheckTTL]. *)
Lemma remove_ok tm key sh l it :
  tm_ok tm → tm_shards tm !! pos_of (tm_mask tm) key = Some sh → sh_keys sh !! key = Some l →
  tm_items tm !! l = Some it →
  ∃ tm', (removed ← on_heap (pos_of (tm_mask tm) key) (heapRemove (item_index it));
          on_keys (pos_of (tm_mask tm) key) (delete key);; releaseTTLItem removed) tm = (Ret tt, tm') ∧
    tm_ok tm' ∧ tm_mask tm' = tm_mask tm ∧
    (∀ k, expiry tm' k = if decide (k = key) then None else expiry tm k).
Proof.
  intros Hok Hsh E Hit. destruct (keys_item _ _ _ _ _ Hok Hsh E) as (it' & k & Hit' & Hkey & Hk & Hix & Hl).
  rewrite Hit' in Hit. simplify_eq. pose proof Hok as (_ & Hshards & _).
  destruct (Hshards _ _ Hsh) as (H1 & H2 & _).
  destruct (heapRemove_spec k _ l H1 H2 Hk) as (h' & Hrem & Hok' & Hord & Hp & Hs).
  destruct (drop_ok tm (pos_of (tm_mask tm) (item_key it)) sh l it (heapRemove (item_index it)) h') as (tm' & ? & ? & ? & ? & _); try done.
  { by rewrite Hix. }
  exists tm'. done.
Qed.

Lemma RemoveTTL_spec tm key :
  tm_ok tm → ∃ tm', TTLManager_RemoveTTL key tm = (Ret tt, tm') ∧ tm_ok tm' ∧
    tm_mask tm' = tm_mask tm ∧
    ∀ k, expiry tm' k = if decide (k = key) then None else expiry tm k.
Proof.
  intros Hok. destruct (shardFor_ok tm key Hok) as (sh & Hfor & Hsh). unfold TTLManager_RemoveTTL.
  erewrite bind_Ret by done. erewrite bind_Ret by (by apply get_shard_ok).
  destruct (sh_keys sh !! key) as [l|] eqn:E.
  - destruct (keys_item _ _ _ _ _ Hok Hsh E) as (it & k & Hit & _).
    erewrite bind_Ret by (unfold load; by rewrite Hit). by eapply remove_ok.
  - exists tm. split_and!; [done..|]. intros k. case_decide; [|done]. subst.
    rewrite (expiry_shard _ _ _ Hsh). unfold sh_expiry. by rewrite E.
Qed.

(** [CheckTTL] answers whether the key is still alive, and forgets the expiry
    of a key that is not. *)
Lemma CheckTTL_spec tm now key :
  tm_ok tm → 
  let dead := match expiry tm key with Some e => e <=? now | None => false end in
  ∃ tm', TTLManager_CheckTTL now key tm = (Ret (negb dead), tm') ∧ tm_ok tm' ∧
    tm_mask tm' = tm_mask tm ∧
    ∀ k, expiry tm' k = if dead && bool_decide (k = key) then None else expiry tm k.
Proof.
  intros Hok. destruct (shardFor_ok tm key Hok) as (sh & Hfor & Hsh). cbv zeta. unfold TTLManager_CheckTTL.
  erewrite bind_Ret by done. erewrite bind_Ret by (by apply get_shard_ok).
  rewrite (expiry_shard _ _ _ Hsh). unfold sh_expiry. destruct (sh_keys sh !! key) as [l|] eqn:E; [|eauto].
  destruct (keys_item _ _ _ _ _ Hok Hsh E) as (it & k & Hit & _). cbn. rewrite Hit. cbn.
  erewrite bind_Ret by (unfold load; by rewrite Hit).
  destruct (Z.ltb_spec now (expireAt it)), (Z.leb_spec (expireAt it) now); try lia; [eauto|]. cbn.
  destruct (remove_ok tm key sh l it) as (tm' & Hrun & Hok' & Hm & Hexp); [done..|].
  exists tm'. split_and!; [|done..|].
  - revert Hrun. unfold mbind, M_bind. destruct (on_heap _ _ tm) as [[] ?]; [|done..]. 
    by intros [= <-].
  - intros k'. rewrite Hexp. by repeat case_decide.
Qed.

Lemma acquire_ok tm key e i sh :
  tm_ok tm → tm_shards tm !! i = Some sh →
  ∃ l pool, acquireTTLItem key e tm = (Ret l, mkTTLManager (<[l := mkTTLItem key e (-1)]> (tm_items tm)) pool
    (tm_shards tm) (tm_mask tm)) ∧
  (l ∉ sh_heap sh) ∧ ¬ elsewhere tm i l ∧ NoDup pool ∧ (l ∉ pool) ∧ (∀ x, x ∈ pool → x ∈ tm_pool tm).
Proof.
  intros (_ & Hsh & Hnd & Hpool) Hi. unfold acquireTTLItem. destruct (tm_pool tm) as [|l pool].
  - assert (∀ j shj, tm_shards tm !! j = Some shj → fresh (dom (tm_items tm)) ∉ sh_heap shj) as Hf.
    { intros j shj Hj Hin.
      destruct (shard_ok_item _ _ _ _ _ (Hsh _ _ Hj) Hin) as (it & ? & Hit & _).
      apply (is_fresh (dom (tm_items tm))). by eapply elem_of_dom_2. }
    eexists _, _. split; [done|]. split_and!; [by eapply Hf| |constructor|set_solver|set_solver].
    intros (j & shj & _ & Hj & Hin). by eapply Hf.
  - apply NoDup_cons in Hnd as [Hl Hnd]. eexists _, _. split; [done|].
    split_and!; [eapply Hpool; [done|left]| |done..|set_solver].
    intros (j & shj & _ & Hj & Hin). eapply Hpool; [apply Hj|left|done].
Qed.

Lemma SetTTL_spec tm key e :
  tm_ok tm → ∃ tm', TTLManager_SetTTL key e tm = (Ret tt, tm') ∧ tm_ok tm' ∧
    tm_mask tm' = tm_mask tm ∧
    ∀ k, expiry tm' k = if decide (k = key) then Some e else expiry tm k.
Proof.
  intros Hok. destruct (shardFor_ok tm key Hok) as (sh & Hfor & Hsh). unfold TTLManager_SetTTL.
  pose proof Hok as (_ & Hshards & Hnd & Hpool). pose proof (lookup_lt_Some _ _ _ Hsh) as Hlt.
  erewrite bind_Ret by done. erewrite bind_Ret by (by apply get_shard_ok).
  set (i := pos_of (tm_mask tm) key) in *.
  assert (∀ k, pos_of (tm_mask tm) k ≠ i → k ≠ key) as Hkey by (intros k Hk ->; done).
  destruct (sh_keys sh !! key) as [l|] eqn:E.
  - destruct (keys_item _ _ _ _ _ Hok Hsh E) as (it & k & Hit & Hik & Hk & Hix & Hl).
    erewrite bind_Ret by (unfold load; by rewrite Hit).
    destruct (Z.eqb_spec (expireAt it) e) as [Ee|Hne].
    { exists tm. split_and!; [done..|]. intros k'. case_decide; [|done]. subst k'.
      rewrite (expiry_shard _ _ _ Hsh). unfold sh_expiry. rewrite E. cbn. rewrite Hit. cbn. by rewrite Ee. }
    destruct (shard_fix _ _ _ _ _ _ e (Hshards _ _ Hsh) Hl Hit) as (h' & Hfix & Hsok & Hexp & Hfr & Hp).
    erewrite bind_Ret by done. erewrite bind_Ret.
    2:{ unfold load. cbn [tm_items]. by rewrite lookup_alter, decide_True, Hit. }
    eexists. split.
    { erewrite on_heap_ok; [done|done|]. cbn [tm_items tm_shards]. unfold mbind, outcome_bind.
      change (item_index (with_expire e it)) with (item_index it). by rewrite Hfix. }
    cbn [tm_items tm_pool tm_shards tm_mask].
    destruct (tm_ok_update tm i sh (h_items h') (tm_pool tm) (mkTTLShard (h_slice h') (sh_keys sh)))
      as [Hok' Hexp']; [done..| |done| |].
    + intros l' Hl'. apply Hfr. intros Hin. by eapply not_elsewhere.
    + intros l' Hl'. split; [intros (j & shj & _ & Hj & Hin); by eapply Hpool|].
      cbn. rewrite Hp. by eapply Hpool.
    + split_and!; [done..|]. intros k'. rewrite Hexp'. destruct (decide (pos_of _ k' = i)) as [Hk'|Hk'].
      * rewrite Hexp, Hik. unfold expiry. by rewrite Hk', Hsh.
      * rewrite decide_False by auto. done.
  - destruct (acquire_ok tm key e i sh Hok Hsh) as (l & pool & Hacq & Hl & Hel & Hnd' & Hlp & Hsub).
    erewrite bind_Ret by done.
    set (its := <[l := mkTTLItem key e (-1)]> (tm_items tm)) in *.
    assert (∀ l', l' ≠ l → its !! l' = tm_items tm !! l') as Hne
      by (intros; unfold its; by rewrite lookup_insert_ne).
    assert (shard_ok its (tm_mask tm) i sh) as Hsok0.
    { eapply shard_ok_ext; [|by apply Hshards]. intros l' Hl'. apply Hne. by intros ->. }
    destruct (shard_push its (tm_mask tm) i sh key e l) as (Hsok & Hexp & Hfr & Hp); [done..| |].
    { unfold its. by rewrite lookup_insert, decide_True. }
    set (h' := heapPush l (mkTTLHeap its (sh_heap sh))) in *.
    erewrite bind_Ret by (by apply (on_heap_ok _ i sh)).
    eexists. split; [done|]. cbn [tm_items tm_pool tm_shards tm_mask].
    rewrite alter_insert_eq. cbn [sh_heap sh_keys]. fold h'. clearbody h'.
    destruct (tm_ok_update tm i sh (h_items h') pool (mkTTLShard (h_slice h') (<[key:=l]> (sh_keys sh))))
      as [Hok' Hexp']; [done..| |done| |].
    + intros l' Hl'. rewrite Hfr, Hne; [done|..]; intros Hin; subst; try done.
      by eapply not_elsewhere.
    + intros l' Hl'. split; [intros (j & shj & _ & Hj & Hin); eapply Hpool; eauto|].
      cbn. rewrite Hp, not_elem_of_cons. split; [by intros ->|eapply Hpool; eauto].
    + split_and!; [done..|]. intros k'. rewrite Hexp'. destruct (decide (pos_of _ k' = i)) as [Hk'|Hk'].
      * rewrite Hexp. unfold expiry. rewrite Hk', Hsh. cbn.
        rewrite (sh_expiry_ext (tm_items tm) its (tm_mask tm) i); [done| |auto].
        intros l' Hl'. apply Hne. by intros ->.
      * rewrite decide_False by auto. done.
Qed.

(** [next] is the earliest expiry left in shard [i], 0 when there is none. *)
Definition next_in tm (i : nat) (next : Z) : Prop :=
  (next = 0 ∧ ∀ k, pos_of (tm_mask tm) k = i → expiry tm k = None) ∨
  ((∃ k, pos_of (tm_mask tm) k = i ∧ expiry tm k = Some next) ∧
   ∀ k e, pos_of (tm_mask tm) k = i → expiry tm k = Some e → next <= e).

Lemma heap_nil_expiry tm i sh k :
  tm_ok tm → tm_shards tm !! i = Some sh → sh_heap sh = [] →
  pos_of (tm_mask tm) k = i → expiry tm k = None.
Proof.
  intros (_ & Hsh & _) Hi Hnil <-.
  rewrite (expiry_shard _ _ _ Hi). unfold sh_expiry.
  destruct (sh_keys sh !! k) as [l|] eqn:E; [|done].
  destruct (Hsh _ _ Hi) as (_ & _ & _ & H4). destruct (H4 _ _ E) as (Hin & _).
  rewrite Hnil in Hin. by apply not_elem_of_nil in Hin.
Qed.

Lemma heap_head_next tm i sh l sl :
  tm_ok tm → tm_shards tm !! i = Some sh → sh_heap sh = l :: sl →
  ∃ it, tm_items tm !! l = Some it ∧ pos_of (tm_mask tm) (item_key it) = i ∧
    expiry tm (item_key it) = Some (expireAt it) ∧ next_in tm i (expireAt it).
Proof.
  intros (_ & Hsh & _) Hi Hh. pose proof (Hsh _ _ Hi) as Hok.
  destruct (shard_ok_item _ _ _ _ l Hok) as (it & k & Hit & Hk & Hix & Hkey & Hpos); [rewrite Hh; left|].
  assert (expiry tm (item_key it) = Some (expireAt it)) as He.
  { unfold expiry. rewrite Hpos, Hi. cbn. unfold sh_expiry. rewrite Hkey. cbn. by rewrite Hit. }
  exists it. split_and!; [done..|]. right. split; [eauto|]. intros k' e <- Hk'.
  rewrite (expiry_shard _ _ _ Hi) in Hk'. unfold sh_expiry in Hk'.
  destruct (sh_keys sh !! k') as [l'|] eqn:E; [|done]. cbn in Hk'.
  destruct Hok as (_ & Hord & _ & H4). destruct (H4 _ _ E) as (Hin & _).
  pose proof (heap_ordered_min _ l sl l' Hord Hh Hin) as Hle. cbn in Hle.
  unfold expire_of in Hle. rewrite Hit in Hle. destruct (tm_items tm !! l'); naive_solver.
Qed.

(** One pop of the loop. *)
Lemma collect_pop tm i sh l sl it :
  tm_ok tm → tm_shards tm !! i = Some sh → sh_heap sh = l :: sl → tm_items tm !! l = Some it →
  ∃ tm' sh', (popped ← on_heap i heapPop; pit ← load popped; on_keys i (delete (item_key pit));;
         releaseTTLItem popped;; mret (item_key pit)) tm = (Ret (item_key it), tm') ∧
    tm_ok tm' ∧ tm_mask tm' = tm_mask tm ∧
    (∀ k, expiry tm' k = if decide (k = item_key it) then None else expiry tm k) ∧
    tm_shards tm' !! i = Some sh' ∧ length (sh_heap sh') = length sl.
Proof.
  intros Hok Hi Hh Hit. pose proof Hok as (_ & Hsh & _). destruct (Hsh _ _ Hi) as (H1 & H2 & _).
  pose proof (lookup_lt_Some _ _ _ Hi) as Hlt.
  destruct (heapPop_spec _ l sl H1 H2 Hh) as (h' & Hpop & Hok' & Hord & Hp & Hs).
  destruct (drop_ok tm i sh l it heapPop h') as (tm' & Hrun & Hok'' & Hm & Hexp & ks & Eks); try done.
  { by rewrite Hh, Hp. }
  exists tm', (mkTTLShard (h_slice h') ks). split_and!; [|done..| |].
  - erewrite bind_Ret in Hrun by (by eapply on_heap_ok).
    erewrite bind_Ret by (by eapply on_heap_ok).
    destruct (same_items_lookup _ _ _ _ _ Hs Hit) as (it' & Hit' & Ek & _).
    erewrite bind_Ret by (unfold load; cbn [tm_items]; by rewrite Hit'). rewrite Ek.
    revert Hrun. unfold mbind, M_bind. cbn. by intros [= <-].
  - by rewrite Eks, list_lookup_insert_eq.
  - cbn. by rewrite Hp.
Qed.

(** The keys of [ex] are the expired ones of shard [i], and they are gone from
    [tm']. *)
Definition collected (now : Z) (i : nat) (ex : list bytes) tm tm' : Prop :=
  tm_ok tm' ∧ tm_mask tm' = tm_mask tm ∧ NoDup ex ∧
  (∀ k, k ∈ ex ↔ pos_of (tm_mask tm) k = i ∧ ∃ e, expiry tm k = Some e ∧ e <= now) ∧
  (∀ k, expiry tm' k = if decide (k ∈ ex) then None else expiry tm k).

(** The loop stops at the head of the queue, or when it is empty. *)
Definition at_head tm (i : nat) (next : Z) : Prop :=
  ∃ sh, tm_shards tm !! i = Some sh ∧
    (sh_heap sh = [] ∧ next = 0 ∨
     ∃ l sl it, sh_heap sh = l :: sl ∧ tm_items tm !! l = Some it ∧ next = expireAt it).

Lemma collected_nil now i tm :
  tm_ok tm → (∀ k e, pos_of (tm_mask tm) k = i → expiry tm k = Some e → now < e) →
  collected now i [] tm tm.
Proof.
  intros Hok Hall. split_and!; try done; [constructor|].
  intros k. split; [intros []%not_elem_of_nil|]. intros (Hk & e & He & Hle).
  specialize (Hall k e Hk He). lia.
Qed.

Lemma collected_cons now i key e ex tm tm1 tm' :
  pos_of (tm_mask tm) key = i → expiry tm key = Some e → e <= now →
  tm_mask tm1 = tm_mask tm →
  (∀ k, expiry tm1 k = if decide (k = key) then None else expiry tm k) →
  collected now i ex tm1 tm' → collected now i (key :: ex) tm tm'.
Proof.
  intros Hpos He Hle Hm Hexp (Hok & Hm' & Hnd & Hin & Hexp').
  assert (key ∉ ex) as Hkey.
  { rewrite Hin, Hexp, decide_True by done. naive_solver. }
  split_and!; [done|congruence|by apply NoDup_cons| |].
  - intros k. rewrite elem_of_cons, Hin, Hm, Hexp. case_decide; naive_solver.
  - intros k. rewrite Hexp', Hexp. repeat case_decide; set_solver.
Qed.

Lemma collect_loop_spec fuel now i : ∀ tm sh acc,
  tm_ok tm → tm_shards tm !! i = Some sh → (length (sh_heap sh) <= fuel)%nat →
  ∃ tm' ex next, collect_loop fuel i now acc tm = (Ret (acc ++ ex, next), tm') ∧
    collected now i ex tm tm' ∧ at_head tm' i next.
Proof.
  induction fuel as [|fuel IH]; intros tm sh acc Hok Hi Hf; cbn [collect_loop];
    erewrite bind_Ret by (by apply get_shard_ok);
    (destruct (sh_heap sh) as [|l sl] eqn:Hh;
     [exists tm, [], 0; rewrite app_nil_r; split_and!;
        [done|apply collected_nil; [done|];
         intros k e Hk; by rewrite (heap_nil_expiry _ _ _ _ Hok Hi Hh Hk)|exists sh; eauto]|]);
    [simpl in Hf; lia|].
  destruct (heap_head_next _ _ _ _ _ Hok Hi Hh) as (it & Hit & Hpos & He & Hn).
  erewrite bind_Ret by (unfold load; by rewrite Hit).
  destruct (Z.ltb_spec now (expireAt it)).
  - exists tm, [], (expireAt it). rewrite app_nil_r. split_and!; [done| |exists sh; naive_solver].
    apply collected_nil; [done|]. intros k e Hk Hke.
    destruct Hn as [[_ Hn]|[_ Hn]]; [by rewrite (Hn k Hk) in Hke|]. specialize (Hn k e Hk Hke). lia.
  - destruct (collect_pop tm i sh l sl it) as (tm1 & sh1 & Hrun & Hok1 & Hm & Hexp & Hi1 & Hlen); [done..|].
    destruct (IH tm1 sh1 (acc ++ [item_key it])) as (tm' & ex & next & Hrun' & Hc & Hhead); [done..|simpl in Hf; lia|].
    exists tm', (item_key it :: ex), next. split_and!; [|by eapply collected_cons|done].
    rewrite cons_middle, app_assoc, <- Hrun'. revert Hrun. unfold mbind, M_bind.
    destruct (on_heap i heapPop tm) as [[] ?]; [|done..]. destruct (load _ _) as [[] ?]; [|done..].
    cbn. by intros [= <- <-].
Qed.

(** [collectExpiredAndNext] removes exactly the expired keys of the shard and
    returns them with the earliest expiry that remains. *)
Lemma collectExpiredAndNext_spec tm now i :
  tm_ok tm → (i < length (tm_shards tm))%nat →
  ∃ tm' ex next, collectExpiredAndNext i now tm = (Ret (ex, next), tm') ∧
    collected now i ex tm tm' ∧ next_in tm' i next.
Proof.
  intros Hok [sh Hi]%lookup_lt_is_Some_2. unfold collectExpiredAndNext.
  erewrite bind_Ret by (by apply get_shard_ok).
  destruct (collect_loop_spec (length (sh_heap sh)) now i tm sh []) as (tm' & ex & next & Hrun & Hc & sh' & Hi' & Hhead); [done..|].
  erewrite bind_Ret by done. cbn. erewrite bind_Ret by (by apply get_shard_ok).
  pose proof Hc as (Hok' & _). exists tm', ex, next.
  destruct Hhead as [[Hh ->]|(l & sl & it & Hh & Hit & ->)]; rewrite Hh.
  - split_and!; [done..|]. left. split; [done|]. intros k. by eapply heap_nil_expiry.
  - destruct (heap_head_next _ _ _ _ _ Hok' Hi' Hh) as (it' & Hit' & _ & _ & Hn).
    rewrite Hit in Hit'. simplify_eq. split_and!; [|done..].
    destruct (Z.eqb_spec (expireAt it') 0) as [E|]; [|done].
    erewrite bind_Ret by (unfold load; by rewrite Hit). done.
Qed.

(** The expiry of [key] has passed. *)
Definition dead tm (now : Z) (key : bytes) : bool :=
  match expiry tm key with Some e => e <=? now | None => false end.

Lemma dead_true tm now key : dead tm now key = true ↔ ∃ e, expiry tm key = Some e ∧ e <= now.
Proof.
  unfold dead. destruct (expiry tm key) as [e|]; [|naive_solver].
  destruct (Z.leb_spec e now); split; naive_solver lia.
Qed.

Context {tree : Type → Type} `{!RBTree tree, !RBTreeLaws tree} {V : Type}.
Implicit Type (db : ConcurrentMap tree V).

Lemma delete_all_spec (ks : list bytes) db :
  cm_wf db → ∃ db', mfold (λ _ key db, match CMap.Delete key db with
                               | Ret (_, db) => (Ret tt, db)
                               | _ => (Panics, db)
                               end) tt ks db = (Ret tt, db') ∧ cm_wf db' ∧
    ∀ k, abs db' !! k = if decide (k ∈ ks) then None else abs db !! k.
Proof.
  revert db. induction ks as [|key ks IH]; intros db Hwf; [by exists db|].
  cbn [mfold]. destruct (Delete_spec db key Hwf) as (db1 & E & Hwf1 & Habs).
  erewrite bind_Ret by (by rewrite E).
  destruct (IH db1 Hwf1) as (db' & E' & Hwf' & Habs'). exists db'. split_and!; [done..|].
  intros k. rewrite Habs', Habs, lookup_delete. repeat case_decide; set_solver.
Qed.

(** The state of [cleanup] after the shards in front of [i]. *)
Definition cleaned (now : Z) (i : nat) (next : Z) tm db tm' db' : Prop :=
  tm_ok tm' ∧ tm_mask tm' = tm_mask tm ∧ cm_wf db' ∧
  (∀ k, expiry tm' k =
     if dead tm now k && (pos_of (tm_mask tm) k <? i)%nat then None else expiry tm k) ∧
  (∀ k, abs db' !! k =
     if dead tm now k && (pos_of (tm_mask tm) k <? i)%nat then None else abs db !! k) ∧
  ((next = 0 ∧ ∀ k, (pos_of (tm_mask tm) k < i)%nat → expiry tm' k = None) ∨
   ((∃ k, (pos_of (tm_mask tm) k < i)%nat ∧ expiry tm' k = Some next) ∧
    ∀ k e, (pos_of (tm_mask tm) k < i)%nat → expiry tm' k = Some e → next <= e)).

Lemma cleanup_shard_spec now i next tm db tm1 db1 :
  0 <= now → (i < length (tm_shards tm1))%nat → cleaned now i next tm db tm1 db1 →
  ∃ next' tm' db', cleanup_shard now next i (tm1, db1) = (Ret next', (tm', db')) ∧
    length (tm_shards tm') = length (tm_shards tm1) ∧
    cleaned now (S i) next' tm db tm' db'.
Proof.
  intros Hnow Hi (Hok & Hm & Hwf & Hexp & Habs & Hnext). unfold cleanup_shard.
  destruct (collectExpiredAndNext_spec tm1 now i Hok Hi) as (tm' & ex & n & -> & (Hok' & Hm' & Hnd & Hin & Hexp') & Hn).
  destruct (delete_all_spec ex db1 Hwf) as (db' & -> & Hwf' & Habs').
  assert (∀ k, k ∈ ex ↔ pos_of (tm_mask tm) k = i ∧ dead tm now k = true) as Hex.
  { intros k. rewrite Hin, Hm, Hexp, dead_true.
    destruct (Nat.ltb_spec (pos_of (tm_mask tm) k) i); [|by rewrite andb_false_r].
    split; intros [? _]; lia. }
  assert (∀ k, (pos_of (tm_mask tm) k < i)%nat → expiry tm' k = expiry tm1 k) as Hsame.
  { intros k Hk. rewrite Hexp'. case_decide as Hc; [|done]. apply Hex in Hc. lia. }
  assert (∀ A k (o o' : option A), o' = (if dead tm now k && (pos_of (tm_mask tm) k <? i)%nat then None else o) →
    (if decide (k ∈ ex) then None else o') =
    (if dead tm now k && (pos_of (tm_mask tm) k <? S i)%nat then None else o)) as Hstep.
  { intros A k o o' ->. destruct (decide (k ∈ ex)) as [[<- ->]%Hex|Hk].
    { by destruct (Nat.ltb_spec (pos_of (tm_mask tm) k) (S (pos_of (tm_mask tm) k))); [|lia]. }
    rewrite Hex in Hk. destruct (dead tm now k); [|done]. cbn [andb].
    destruct (Nat.ltb_spec (pos_of (tm_mask tm) k) i), (Nat.ltb_spec (pos_of (tm_mask tm) k) (S i));
      done || lia. }
  assert (∀ k e, pos_of (tm_mask tm) k = i → expiry tm' k = Some e → 0 < e) as Hpos.
  { intros k e Hk. rewrite Hexp'. case_decide as Hc; [done|]. rewrite Hex in Hc.
    rewrite Hexp. destruct (Nat.ltb_spec (pos_of (tm_mask tm) k) i); [lia|].
    rewrite andb_false_r. intros He. destruct (dead tm now k) eqn:Hd; [naive_solver|].
    unfold dead in Hd. rewrite He in Hd. lia. }
  unfold next_in in Hn. rewrite Hm', Hm in Hn. eexists _, tm', db'. split; [done|]. split; [|split_and!].
  - destruct Hok as ((b & _ & Hl & Hmb) & _), Hok' as ((b' & ? & Hl' & Hmb') & _).
    unfold zlen in *. lia.
  - done.
  - congruence.
  - done.
  - intros k. rewrite Hexp'. by apply Hstep.
  - intros k. rewrite Habs'. by apply Hstep.
  - assert (∀ k, (pos_of (tm_mask tm) k < S i)%nat → (pos_of (tm_mask tm) k < i)%nat ∨ pos_of (tm_mask tm) k = i)
      as Hsplit by lia.
    destruct Hn as [[-> Hn]|[(k0 & Hk0 & He0) Hn]].
    + cbn. destruct Hnext as [[-> Hnx]|[(k1 & Hk1 & He1) Hnx]]; [left|right].
      * split; [done|]. intros k [Hk|Hk]%Hsplit; [rewrite Hsame|]; auto.
      * split; [exists k1; split; [lia|by rewrite Hsame]|].
        intros k e [Hk|Hk]%Hsplit; [rewrite Hsame by done; eauto|by rewrite Hn].
    + right. pose proof (Hpos _ _ Hk0 He0). destruct (Z.ltb_spec 0 n); [|lia]. cbn [andb].
      destruct Hnext as [[-> Hnx]|[(k1 & Hk1 & He1) Hnx]].
      * cbn. split; [exists k0; split; [lia|done]|].
        intros k e [Hk|Hk]%Hsplit; [rewrite Hsame by done; by rewrite Hnx|by apply Hn].
      * assert (0 < next) as Hnz.
        { rewrite Hexp in He1. destruct (Nat.ltb_spec (pos_of (tm_mask tm) k1) i); [|lia].
          rewrite andb_true_r in He1. destruct (dead tm now k1) eqn:Hd; [done|].
          unfold dead in Hd. rewrite He1 in Hd. lia. }
        destruct (Z.eqb_spec next 0); [lia|]. cbn [orb]. destruct (Z.ltb_spec n next).
        -- split; [exists k0; split; [lia|done]|].
           intros k e [Hk|Hk]%Hsplit He; [|by apply (Hn k)].
           rewrite Hsame in He by done. specialize (Hnx k e Hk He). lia.
        -- split; [exists k1; split; [lia|by rewrite Hsame]|].
           intros k e [Hk|Hk]%Hsplit He; [rewrite Hsame in He by done; eauto|].
           specialize (Hn k e Hk He). lia.
Qed.

Lemma cleanup_spec now tm db :
  0 <= now → tm_ok tm → cm_wf db →
  ∃ next tm' db', cleanup now (tm, db) = (Ret next, (tm', db')) ∧
    cleaned now (length (tm_shards tm)) next tm db tm' db'.
Proof.
  intros Hnow Hok Hwf. unfold cleanup.
  assert (∀ n i next tm1 db1, (i + n = length (tm_shards tm1))%nat → cleaned now i next tm db tm1 db1 →
    ∃ next' tm' db', mfold (cleanup_shard now) next (seq i n) (tm1, db1) = (Ret next', (tm', db')) ∧
      cleaned now (i + n) next' tm db tm' db') as Hloop.
  { induction n as [|n IH]; intros i next tm1 db1 Hlen Hc.
    { exists next, tm1, db1. rewrite Nat.add_0_r. done. }
    destruct (cleanup_shard_spec now i next tm db tm1 db1 Hnow) as (n' & tm' & db' & E & Hl & Hc'); [lia|done|].
    cbn [seq mfold]. erewrite bind_Ret by done. rewrite Nat.add_succ_r.
    apply (IH (S i)); [lia|done]. }
  destruct (Hloop (length (tm_shards tm)) 0%nat 0 tm db) as (next & tm' & db' & ? & ?); [done| |eauto].
  split_and!; try done.
  - intros k. by rewrite andb_false_r.
  - intros k. by rewrite andb_false_r.
  - left. split; [done|]. intros k Hk. lia.
Qed.

Lemma pos_of_lt tm k : tm_ok tm → (pos_of (tm_mask tm) k < length (tm_shards tm))%nat.
Proof. intros Hok. destruct (shardFor_ok tm k Hok) as (sh & _ & Hsh). by eapply lookup_lt_Some. Qed.

Lemma ttlShardCount_pow2 hint : ∃ b, 4 <= b <= 8 ∧ ttlShardCount hint = 2 ^ b.
Proof.
  unfold ttlShardCount. set (h := if 256 <? _ then _ else _).
  set (h' := if h <? 16 then 16 else h).
  assert (16 <= h' <= 256) as Hh.
  { unfold h', h. repeat case_bool; lia. }
  exists (bits_Len (h' - 1)). rewrite Z.shiftl_1_l. split; [|done].
  unfold bits_Len. destruct (Z.eqb_spec (h' - 1) 0); [lia|].
  assert (3 <= Z.log2 (h' - 1)) by (apply (Z.log2_le_pow2 (h' - 1) 3); lia).
  assert (Z.log2 (h' - 1) < 8) by (apply (Z.log2_lt_pow2 (h' - 1) 8); lia). lia.
Qed.

Lemma NewTTLManager_spec n : tm_ok (NewTTLManager n) ∧ ∀ k, expiry (NewTTLManager n) k = None.
Proof.
  destruct (ttlShardCount_pow2 n) as (b & Hb & E). split.
  - split_and!; cbn [NewTTLManager tm_shards tm_mask tm_items tm_pool]; [|..|constructor|].
    + exists b. unfold zlen. rewrite length_replicate, E. split_and!; lia.
    + intros i sh [-> _]%lookup_replicate_1. split_and!; cbn; intros; done.
    + intros i sh l _ []%not_elem_of_nil.
  - intros k. unfold expiry. cbn. destruct (_ !! _) as [sh|] eqn:Hsh; [|done].
    apply lookup_replicate_1 in Hsh as [-> _]. done.
Qed.
End manager.

(** ** The abstract specification: a finite map from keys to expiry times *)
Inductive ttl_op :=
  | OpSetTTL (key : bytes) (e : Z)
  | OpRemoveTTL (key : bytes)
  | OpExpireAt (key : bytes)
  | OpCheckTTL (now : Z) (key : bytes).

Inductive ttl_reply := RUnit | RExpire (o : option Z) | RAlive (b : bool).

Definition ttl_spec (o : ttl_op) (σ : gmap bytes Z) : ttl_reply * gmap bytes Z :=
  match o with
  | OpSetTTL key e => (RUnit, <[key := e]> σ)
  | OpRemoveTTL key => (RUnit, delete key σ)
  | OpExpireAt key => (RExpire (σ !! key), σ)
  | OpCheckTTL now key =>
      match σ !! key with
      | Some e => if e <=? now then (RAlive false, delete key σ) else (RAlive true, σ)
      | None => (RAlive true, σ)
      end
  end.

Fixpoint ttl_spec_run (ops : list ttl_op) (σ : gmap bytes Z) : list ttl_reply * gmap bytes Z :=
  match ops with
  | [] => ([], σ)
  | o :: ops =>
      let '(r, σ) := ttl_spec o σ in
      let '(rs, σ) := ttl_spec_run ops σ in (r :: rs, σ)
  end.

Section refinement.
Context `{Host}.

Definition ttl_step (o : ttl_op) : M TTLManager ttl_reply :=
  match o with
  | OpSetTTL key e => TTLManager_SetTTL key e;; mret RUnit
  | OpRemoveTTL key => TTLManager_RemoveTTL key;; mret RUnit
  | OpExpireAt key => r ← TTLManager_ExpireAt key; mret (RExpire r)
  | OpCheckTTL now key => b ← TTLManager_CheckTTL now key; mret (RAlive b)
  end.

Fixpoint ttl_run (ops : list ttl_op) : M TTLManager (list ttl_reply) :=
  match ops with
  | [] => mret []
  | o :: ops => r ← ttl_step o; rs ← ttl_run ops; mret (r :: rs)
  end.

Definition ttl_rel (tm : TTLManager) (σ : gmap bytes Z) : Prop :=
  tm_ok tm ∧ ∀ k, expiry tm k = σ !! k.

Lemma ttl_step_spec o tm σ :
  ttl_rel tm σ →
  ∃ tm', ttl_step o tm = (Ret (ttl_spec o σ).1, tm') ∧ ttl_rel tm' (ttl_spec o σ).2.
Proof.
  intros [Hok Hrel]. destruct o as [key e|key|key|now key]; cbn [ttl_step ttl_spec].
  - destruct (SetTTL_spec tm key e Hok) as (tm' & Hrun & Hok' & _ & Hexp). exists tm'.
    erewrite bind_Ret by done. split; [done|]. split; [done|]. intros k.
    rewrite Hexp, Hrel. cbn. rewrite lookup_insert. by repeat case_decide.
  - destruct (RemoveTTL_spec tm key Hok) as (tm' & Hrun & Hok' & _ & Hexp). exists tm'.
    erewrite bind_Ret by done. split; [done|]. split; [done|]. intros k.
    rewrite Hexp, Hrel. cbn. rewrite lookup_delete. by repeat case_decide.
  - exists tm. erewrite bind_Ret by (by apply ExpireAt_spec). rewrite Hrel. done.
  - destruct (CheckTTL_spec tm now key Hok) as (tm' & Hrun & Hok' & _ & Hexp). exists tm'.
    erewrite bind_Ret by done. rewrite Hrel in *.
    assert (∀ b, (∀ k, expiry tm' k = if b && bool_decide (k = key) then None else expiry tm k) →
      ttl_rel tm' (if b : bool then delete key σ else σ)) as Hrel'.
    { intros b Hb. split; [done|]. intros k. rewrite Hb, Hrel. destruct b; [|done]. cbn.
      rewrite lookup_delete. case_bool_decide; by repeat case_decide. }
    specialize (Hrel' _ Hexp).
    destruct (σ !! key) as [e|]; [destruct (e <=? now)|]; done.
Qed.

Lemma ttl_run_spec ops : ∀ tm σ, ttl_rel tm σ →
  ∃ tm', ttl_run ops tm = (Ret (ttl_spec_run ops σ).1, tm') ∧ ttl_rel tm' (ttl_spec_run ops σ).2.
Proof.
  induction ops as [|o ops IH]; intros tm σ Hrel; [by exists tm|]. cbn [ttl_run ttl_spec_run].
  destruct (ttl_step_spec o tm σ Hrel) as (tm1 & E & Hrel1).
  destruct (ttl_spec o σ) as [r σ1]. destruct (IH tm1 σ1 Hrel1) as (tm2 & E' & Hrel2).
  destruct (ttl_spec_run ops σ1) as [rs σ2]. exists tm2.
  erewrite bind_Ret by done. by erewrite bind_Ret by done.
Qed.

Lemma NewTTLManager_rel n : ttl_rel (NewTTLManager n) ∅.
Proof.
  destruct (NewTTLManager_spec n) as [Hok Hexp]. split; [done|].
  intros k. by rewrite Hexp, lookup_empty.
Qed.

(** C6: every sequence of [SetTTL], [RemoveTTL], [ExpireAt] and [CheckTTL] calls
    on a fresh manager answers as a finite map from keys to expiry times would,
    without panicking: the intrusive heap, its index fields, the [keys] maps and
    the recycled items together implement that map. *)
Theorem TTLManager_refines (ShardNum : Z) (ops : list ttl_op) :
  ∃ tm', ttl_run ops (NewTTLManager ShardNum) = (Ret (ttl_spec_run ops ∅).1, tm') ∧
    ttl_rel tm' (ttl_spec_run ops ∅).2.
Proof.
  apply ttl_run_spec, NewTTLManager_rel.
Qed.

Context {tree : Type → Type} `{!RBTree tree, !RBTreeLaws tree} {V : Type}.

(** one [cleanup] pass at time [now] deletes from the database exactly the
    keys whose expiry has passed and forgets those expiries, keeps everything
    else, and returns the earliest expiry that remains (0 when none does). *)
Theorem cleanup_exact (now : Z) (tm : TTLManager) (db : ConcurrentMap tree V) :
  0 <= now → tm_ok tm → cm_wf db →
  ∃ next tm' db', cleanup now (tm, db) = (Ret next, (tm', db')) ∧ tm_ok tm' ∧ cm_wf db' ∧
    (∀ k, expiry tm' k = if dead tm now k then None else expiry tm k) ∧
    (∀ k, abs db' !! k = if dead tm now k then None else abs db !! k) ∧
    (next = 0 ∧ (∀ k, expiry tm' k = None) ∨
     (∃ k, expiry tm' k = Some next) ∧ ∀ k e, expiry tm' k = Some e → next <= e).
Proof.
  intros Hnow Hok Hwf. destruct (cleanup_spec now tm db Hnow Hok Hwf)
    as (next & tm' & db' & Hrun & Hok' & Hm & Hwf' & Hexp & Habs & Hnext).
  pose proof (λ k, pos_of_lt tm k Hok) as Hlt.
  assert (∀ k, (pos_of (tm_mask tm) k <? length (tm_shards tm))%nat = true) as Hltb
    by (intros k; by apply Nat.ltb_lt).
  exists next, tm', db'. split_and!; [done..| | |].
  - intros k. by rewrite Hexp, Hltb, andb_true_r.
  - intros k. by rewrite Habs, Hltb, andb_true_r.
  - destruct Hnext as [[-> Hn]|[(k & _ & Hk) Hn]]; [left|right]; split; eauto.
Qed.
End refinement.

Definition demo_tm : TTLManager :=
  match @ttl_run demo_host [OpSetTTL (lit "a") 5; OpSetTTL (lit "b") 9] (NewTTLManager 16) with
  | (_, tm) => tm
  end.

Lemma cleanup_exact_witness :
  ∃ next tm' db', @cleanup demo_host sorted_tree _ Z 7 (demo_tm, NewConcurrentMap 4) =
    (Ret next, (tm', db')) ∧ @expiry demo_host tm' (lit "a") = None ∧
    @expiry demo_host tm' (lit "b") = Some 9.
Proof.
  destruct (@ttl_run_spec demo_host [OpSetTTL (lit "a") 5; OpSetTTL (lit "b") 9]
    (NewTTLManager 16) ∅ (@NewTTLManager_rel demo_host 16)) as (tm' & Hrun & Hok & Hexp).
  assert (demo_tm = tm') as E by (unfold demo_tm; by rewrite Hrun).
  rewrite <- E in *.
  destruct (@cleanup_exact demo_host sorted_tree _ _ Z 7 demo_tm (NewConcurrentMap 4))
    as (next & tm1 & db1 & Hc & _ & _ & He & _).
  - lia.
  - exact Hok.
  - apply (NewConcurrentMap_spec 4).
  - exists next, tm1, db1. split_and!; [exact Hc| |].
    + rewrite He. unfold dead. by rewrite Hexp.
    + rewrite He. unfold dead. by rewrite Hexp.
Defined.

(** the delay between two clean-up passes is between ten milliseconds and
    one second, whatever expiry comes next and also when the multiplication of
    the remaining time overflows; an expiry that is due now is served after
    ten milliseconds. *)
Theorem cleanup_wait_bounds (next now : Z) :
  10 * Millisecond <= cleanup_wait next now <= Second ∧
  (0 < next <= now → cleanup_wait next now = 10 * Millisecond).
Proof.
  unfold cleanup_wait. assert (0 < Millisecond ∧ 10 * Millisecond <= Second) as [? ?] by done.
  repeat case_bool; lia.
Qed.
