(* ===== verification/Locks.v ===== *)
(** * The table of key locks

    [src/pkg/memdb/dblock.go]: [Locks], a slice of [sync.RWMutex] indexed by the
    hash of a key, single-key locking and the ordered locking of several keys.
    A mutex is its number of readers and whether a writer holds it; an operation
    on it returns, blocks the goroutine, or is a fatal error of the runtime
    (unlocking what is not locked). *)

From S2P Require Import Prelude Util.
From Stdlib Require Import Ascii String ZArith Lia.
From stdpp Require Import prelude gmap list sorting.
Open Scope Z_scope.

(** ** [sync.RWMutex] *)
Record rwmutex := mkRW { readers : nat; writer : bool }.
Definition free_mutex : rwmutex := mkRW 0 false.

#[export] Instance rwmutex_eq_dec : EqDecision rwmutex.
Proof. solve_decision. Defined.

Definition rw_Lock (m : rwmutex) : outcome rwmutex :=
  if writer m || negb (readers m =? 0)%nat then Blocks else Ret (mkRW 0 true).
Definition rw_Unlock (m : rwmutex) : outcome rwmutex :=
  if writer m then Ret (mkRW (readers m) false) else Fatals.
Definition rw_RLock (m : rwmutex) : outcome rwmutex :=
  if writer m then Blocks else Ret (mkRW (S (readers m)) false).
Definition rw_RUnlock (m : rwmutex) : outcome rwmutex :=
  match readers m with S n => Ret (mkRW n (writer m)) | O => Fatals end.

(** ** [Locks] *)
Abbreviation Locks := (list rwmutex).

Definition lock_table (size : Z) : Locks := replicate (Z.to_nat size) free_mutex.

(** [NewLocks]: [make] panics for a negative size, or one the allocator cannot serve (a
    pointer takes 8 bytes). *)
Definition NewLocks (size : Z) : outcome Locks :=
  if make_ok 8 size then Ret (lock_table size) else Panics.

Section Locks.
Context `{Host}.

Definition GetKeyPos (key : bytes) (l : Locks) : Z :=
  let n := zlen l in
  if n =? 0 then -1
  else
    let h := HashKey key in
    if Z.land n (n - 1) =? 0 then Z.land h (n - 1) else h mod n.

(** An operation of the mutex [l.locks[pos]]; an index out of range panics. *)
Definition on_mutex (pos : Z) (f : rwmutex → outcome rwmutex) : M Locks unit := λ l,
  if pos <? 0 then (Panics, l)
  else match l !! Z.to_nat pos with
       | None => (Panics, l)
       | Some m =>
           match f m with
           | Ret m' => (Ret tt, <[Z.to_nat pos := m']> l)
           | Panics => (Panics, l)
           | Fatals => (Fatals, l)
           | Blocks => (Blocks, l)
           end
       end.

Definition Lock (key : bytes) : M Locks unit := λ l,
  let pos := GetKeyPos key l in
  if pos =? -1 then (Ret tt, l) else on_mutex pos rw_Lock l.
Definition UnLock (key : bytes) : M Locks unit := λ l, on_mutex (GetKeyPos key l) rw_Unlock l.
Definition RLock (key : bytes) : M Locks unit := λ l, on_mutex (GetKeyPos key l) rw_RLock l.
Definition RUnLock (key : bytes) : M Locks unit := λ l, on_mutex (GetKeyPos key l) rw_RUnlock l.

(** [sortedLockPoses]: the set of positions, sorted; nil when there are no locks. *)
Definition sortedLockPoses (keys : list bytes) (l : Locks) : option (list Z) :=
  let poses := (λ key, GetKeyPos key l) <$> keys in
  if existsb (λ pos, pos =? -1) poses then None
  else Some (merge_sort Z.le (remove_dups poses)).

Definition on_poses (f : rwmutex → outcome rwmutex) (keys : list bytes) : M Locks unit := λ l,
  match sortedLockPoses keys l with
  | None => (Ret tt, l)
  | Some poses => mfold (λ _ pos, on_mutex pos f) tt poses l
  end.

Definition LockMulti : list bytes → M Locks unit := on_poses rw_Lock.
Definition UnLockMulti : list bytes → M Locks unit := on_poses rw_Unlock.
Definition RLockMulti : list bytes → M Locks unit := on_poses rw_RLock.
Definition RUnLockMulti : list bytes → M Locks unit := on_poses rw_RUnlock.

(** ** Positions *)
Lemma land_le a b : 0 <= b → Z.land a b <= b.
Proof.
  intros Hb. assert (Z.ldiff (Z.land a b) b = 0) as E.
  { apply Z.bits_inj'. intros n Hn. rewrite Z.ldiff_spec, Z.land_spec, Z.bits_0.
    by destruct (Z.testbit a n), (Z.testbit b n). }
  apply Z.sub_nocarry_ldiff in E.
  assert (0 <= Z.ldiff b (Z.land a b)) by (apply Z.ldiff_nonneg; lia). lia.
Qed.

Lemma GetKeyPos_range key l : l ≠ [] → 0 <= GetKeyPos key l < zlen l.
Proof.
  intros Hl. unfold GetKeyPos. assert (0 < zlen l) as Hn.
  { destruct l; [done|]. rewrite zlen_cons. pose proof (zlen_nonneg l). lia. }
  destruct (Z.eqb_spec (zlen l) 0); [lia|]. pose proof (HashKey_range key) as Hh.
  destruct (Z.eqb_spec (Z.land (zlen l) (zlen l - 1)) 0).
  - split; [apply Z.land_nonneg; lia|].
    enough (Z.land (HashKey key) (zlen l - 1) <= zlen l - 1) by lia.
    apply land_le; lia.
  - apply Z.mod_pos_bound. lia.
Qed.

Lemma GetKeyPos_length key l l' : length l = length l' → GetKeyPos key l = GetKeyPos key l'.
Proof. intros E. unfold GetKeyPos, zlen. by rewrite E. Qed.

Lemma GetKeyPos_lookup key l :
  l ≠ [] → ∃ m, l !! Z.to_nat (GetKeyPos key l) = Some m ∧ 0 <= GetKeyPos key l.
Proof.
  intros Hl. pose proof (GetKeyPos_range key l Hl) as Hr.
  destruct (lookup_lt_is_Some_2 l (Z.to_nat (GetKeyPos key l))) as [m Hm]; [unfold zlen in Hr; lia|].
  exists m. split; [done|lia].
Qed.

Lemma on_mutex_ok p f l m m' :
  0 <= p → l !! Z.to_nat p = Some m → f m = Ret m' →
  on_mutex p f l = (Ret tt, <[Z.to_nat p := m']> l).
Proof.
  intros Hp Hm Hf. unfold on_mutex. rewrite Hm, Hf. by destruct (Z.ltb_spec p 0); [lia|].
Qed.

(** [sortedLockPoses] returns the positions of the keys in strictly increasing
    order. *)
Lemma sortedLockPoses_spec keys l :
  l ≠ [] →
  ∃ ps, sortedLockPoses keys l = Some ps ∧ StronglySorted Z.lt ps ∧
    ∀ p, p ∈ ps ↔ ∃ key, key ∈ keys ∧ p = GetKeyPos key l.
Proof.
  intros Hl. unfold sortedLockPoses. set (poses := (λ key, GetKeyPos key l) <$> keys).
  assert (existsb (λ pos, pos =? -1) poses = false) as ->.
  { apply not_true_iff_false. rewrite existsb_exists. intros (p & Hp & Hb).
    apply list_elem_of_In, list_elem_of_fmap in Hp as (key & -> & _).
    pose proof (GetKeyPos_range key l Hl). lia. }
  eexists. split; [done|]. split.
  - pose proof (StronglySorted_merge_sort Z.le (remove_dups poses)) as Hs.
    pose proof (NoDup_remove_dups poses) as Hnd.
    rewrite <- (merge_sort_Permutation Z.le) in Hnd.
    induction Hs as [|p ps Hs IH Hf]; [constructor|]. apply NoDup_cons in Hnd as [Hp Hnd].
    constructor; [auto|]. rewrite Forall_forall in *. intros q Hq.
    specialize (Hf q Hq). assert (p ≠ q) by (by intros ->). lia.
  - intros p. rewrite merge_sort_Permutation, elem_of_remove_dups. unfold poses.
    rewrite list_elem_of_fmap. naive_solver.
Qed.
End Locks.

(** ** Locking from a free table *)
Definition locks_free (l : Locks) : Prop := l ≠ [] ∧ Forall (λ m, m = free_mutex) l.

#[export] Instance locks_free_dec l : Decision (locks_free l).
Proof. unfold locks_free. apply _. Defined.

(** The state of a mutex that one goroutine holds for writing or for reading. *)
Definition write_held : rwmutex := mkRW 0 true.
Definition read_held : rwmutex := mkRW 1 false.

Section hold.
Context `{Host}.
Implicit Types (l : Locks) (h : rwmutex).

(** [l] with the mutexes of [keys] in state [h]. *)
Definition hold_at (ps : list Z) h l : Locks := imap (λ i m, if decide (Z.of_nat i ∈ ps) then h else m) l.
Definition hold h (keys : list bytes) l : Locks := hold_at ((λ key, GetKeyPos key l) <$> keys) h l.

Lemma hold_at_length ps h l : length (hold_at ps h l) = length l.
Proof. apply length_imap. Qed.
Lemma hold_length h keys l : length (hold h keys l) = length l.
Proof. apply hold_at_length. Qed.
Lemma hold_at_lookup ps h l i :
  hold_at ps h l !! i = (λ m, if decide (Z.of_nat i ∈ ps) then h else m) <$> l !! i.
Proof. apply list_lookup_imap. Qed.

Lemma free_lookup l i m : locks_free l → l !! i = Some m → m = free_mutex.
Proof. intros [_ Hf] E. rewrite Forall_forall in Hf. eapply Hf, list_elem_of_lookup_2, E. Qed.

(** Changing the mutexes at [ps] one after another, when [f] takes the state
    [h] of each to [h']. *)
Lemma on_poses_run f h h' ps qs l :
  f h = Ret h' → NoDup (ps ++ qs) → Forall (λ p, 0 <= p < zlen l) (ps ++ qs) →
  (∀ i m, l !! i = Some m → Z.of_nat i ∈ qs → m = h) →
  mfold (λ _ pos, on_mutex pos f) tt qs (hold_at ps h' l) = (Ret tt, hold_at (ps ++ qs) h' l).
Proof.
  intros Hf. revert ps. induction qs as [|q qs IH]; intros ps Hnd Hr Hh; cbn [mfold].
  { by rewrite app_nil_r. }
  rewrite Forall_app, Forall_cons in Hr. destruct Hr as (Hps & Hq & Hqs).
  apply NoDup_app in Hnd as Hnd'. destruct Hnd' as (_ & Hd & [Hq' _]%NoDup_cons).
  destruct (lookup_lt_is_Some_2 l (Z.to_nat q)) as [m Hm]; [unfold zlen in Hq; lia|].
  assert (q ∉ ps) as Hqps. { intros Hin. apply (Hd q Hin). left. }
  assert (hold_at ps h' l !! Z.to_nat q = Some h) as Hl.
  { rewrite hold_at_lookup, Hm. cbn. rewrite Z2Nat.id by lia. rewrite decide_False by done.
    f_equal. eapply Hh; [done|]. rewrite Z2Nat.id by lia. left. }
  erewrite bind_Ret by (eapply on_mutex_ok; [lia|exact Hl|exact Hf]).
  assert (<[Z.to_nat q := h']> (hold_at ps h' l) = hold_at (ps ++ [q]) h' l) as ->.
  { apply list_eq. intros i. rewrite list_lookup_insert, !hold_at_lookup, hold_at_length.
    destruct (decide (Z.to_nat q = i)) as [<-|Hne].
    - rewrite decide_True by (by apply lookup_lt_Some in Hm). rewrite Hm. cbn.
      rewrite decide_True; [done|]. rewrite Z2Nat.id by lia. set_solver.
    - rewrite decide_False by naive_solver. destruct (l !! i); [|done]. cbn. f_equal.
      destruct (decide (Z.of_nat i ∈ ps)); [by rewrite decide_True by set_solver|].
      rewrite decide_False; [done|]. rewrite elem_of_app, list_elem_of_singleton. intros [?|?]; [done|lia]. }
  rewrite IH.
  - by rewrite <- app_assoc.
  - by rewrite <- app_assoc.
  - rewrite <- app_assoc. apply Forall_app. split; [done|by constructor].
  - intros i m' Hi Hin. eapply Hh; [done|by right].
Qed.

Lemma hold_at_ext ps qs h l : (∀ p, p ∈ ps ↔ p ∈ qs) → hold_at ps h l = hold_at qs h l.
Proof.
  intros E. apply list_eq. intros i. rewrite !hold_at_lookup. destruct (l !! i); [|done]. cbn.
  f_equal. destruct (decide (Z.of_nat i ∈ ps)) as [Hi|Hi]; rewrite E in Hi; by case_decide.
Qed.
Lemma hold_at_nil h l : hold_at [] h l = l.
Proof.
  apply list_eq. intros i. rewrite hold_at_lookup. destruct (l !! i); [|done]. cbn.
  by rewrite decide_False by apply not_elem_of_nil.
Qed.
Lemma hold_at_twice ps h h' l : hold_at ps h' (hold_at ps h l) = hold_at ps h' l.
Proof.
  apply list_eq. intros i. rewrite !hold_at_lookup. destruct (l !! i); [|done]. cbn. by case_decide.
Qed.
Lemma hold_at_free ps l : locks_free l → hold_at ps free_mutex l = l.
Proof.
  intros Hl. apply list_eq. intros i. rewrite hold_at_lookup. destruct (l !! i) eqn:E; [|done].
  cbn. apply (free_lookup l) in E as ->; [|done]. by case_decide.
Qed.

Lemma StronglySorted_lt_NoDup (ps : list Z) : StronglySorted Z.lt ps → NoDup ps.
Proof.
  induction 1 as [|p ps Hs IH Hf]; constructor; [|done]. intros Hin.
  rewrite Forall_forall in Hf. specialize (Hf p Hin). lia.
Qed.

(** An operation on the mutexes of several keys, all in state [h]. *)
Lemma on_poses_spec f h h' keys l :
  l ≠ [] → f h = Ret h' →
  (∀ key m, key ∈ keys → l !! Z.to_nat (GetKeyPos key l) = Some m → m = h) →
  on_poses f keys l = (Ret tt, hold h' keys l).
Proof.
  intros Hl Hf Hh. unfold on_poses.
  destruct (sortedLockPoses_spec keys l Hl) as (ps & -> & Hs & Hps).
  rewrite <- (hold_at_nil h' l) at 1. erewrite on_poses_run with (ps := []); cbn [app]; [|exact Hf|..].
  - do 2 f_equal. apply hold_at_ext. intros p. rewrite Hps, list_elem_of_fmap. naive_solver.
  - by apply StronglySorted_lt_NoDup.
  - apply Forall_forall. intros p Hp. apply Hps in Hp as (key & _ & ->). by apply GetKeyPos_range.
  - intros i m Hi Hin. apply Hps in Hin as (key & Hk & E). apply (Hh key); [done|].
    rewrite <- E, Nat2Z.id. done.
Qed.

Lemma GetKeyPos_hold key h keys l : GetKeyPos key (hold h keys l) = GetKeyPos key l.
Proof. apply GetKeyPos_length, hold_length. Qed.

Lemma hold_lookup key h keys l m :
  key ∈ keys → hold h keys l !! Z.to_nat (GetKeyPos key l) = Some m → l ≠ [] → m = h.
Proof.
  intros Hk E Hl. unfold hold in E. rewrite hold_at_lookup in E.
  pose proof (GetKeyPos_range key l Hl). rewrite Z2Nat.id in E by lia.
  destruct (l !! _); [|done]. cbn in E. rewrite decide_True in E; [congruence|].
  apply list_elem_of_fmap. eauto.
Qed.

Lemma acquire_free f h keys l :
  locks_free l → f free_mutex = Ret h → on_poses f keys l = (Ret tt, hold h keys l).
Proof.
  intros Hl Hf. apply (on_poses_spec f free_mutex); [apply Hl|done|].
  intros key m _. by apply free_lookup.
Qed.
Lemma release_held f h keys l :
  locks_free l → f h = Ret free_mutex → on_poses f keys (hold h keys l) = (Ret tt, l).
Proof.
  intros Hl Hf. erewrite on_poses_spec; [|..|exact Hf|].
  - f_equal. unfold hold at 1. rewrite (list_fmap_ext _ (λ key, GetKeyPos key l) keys)
      by (intros; apply GetKeyPos_hold).
    unfold hold. rewrite hold_at_twice. by apply hold_at_free.
  - destruct Hl as [Hl _]. intros E. apply Hl, nil_length_inv. by rewrite <- (hold_length h keys), E.
  - intros key m Hk. rewrite GetKeyPos_hold. intros E. eapply hold_lookup; [done..|apply Hl].
Qed.

(** One key: the same positions. *)
Lemma on_mutex_poses key f l : l ≠ [] → on_mutex (GetKeyPos key l) f l = on_poses f [key] l.
Proof.
  intros Hl. pose proof (GetKeyPos_range key l Hl) as Hr. unfold on_poses, sortedLockPoses. cbn.
  destruct (Z.eqb_spec (GetKeyPos key l) (-1)); [lia|].
  destruct (decide_rel _ _ _) as [Hin|_]; [by apply not_elem_of_nil in Hin|].
  cbn. unfold mbind, M_bind. by destruct (on_mutex _ _ _) as [[[]| | |] ?].
Qed.
Lemma Lock_poses key l : l ≠ [] → Lock key l = on_poses rw_Lock [key] l.
Proof.
  intros Hl. unfold Lock. pose proof (GetKeyPos_range key l Hl) as Hr.
  destruct (Z.eqb_spec (GetKeyPos key l) (-1)); [lia|]. by apply on_mutex_poses.
Qed.
Lemma hold_nonempty h keys l : l ≠ [] → hold h keys l ≠ [].
Proof. intros Hl E. apply Hl, nil_length_inv. by rewrite <- (hold_length h keys), E. Qed.

Lemma LockMulti_free keys l : locks_free l → LockMulti keys l = (Ret tt, hold write_held keys l).
Proof. intros Hl. by apply acquire_free. Qed.
Lemma RLockMulti_free keys l : locks_free l → RLockMulti keys l = (Ret tt, hold read_held keys l).
Proof. intros Hl. by apply acquire_free. Qed.
Lemma UnLockMulti_held keys l : locks_free l → UnLockMulti keys (hold write_held keys l) = (Ret tt, l).
Proof. intros Hl. by apply release_held. Qed.
Lemma RUnLockMulti_held keys l : locks_free l → RUnLockMulti keys (hold read_held keys l) = (Ret tt, l).
Proof. intros Hl. by apply release_held. Qed.
Lemma Lock_free key l : locks_free l → Lock key l = (Ret tt, hold write_held [key] l).
Proof. intros Hl. rewrite Lock_poses by apply Hl. by apply LockMulti_free. Qed.
Lemma RLock_free key l : locks_free l → RLock key l = (Ret tt, hold read_held [key] l).
Proof. intros Hl. unfold RLock. rewrite on_mutex_poses by apply Hl. by apply RLockMulti_free. Qed.
Lemma UnLock_held key l : locks_free l → UnLock key (hold write_held [key] l) = (Ret tt, l).
Proof.
  intros Hl. unfold UnLock. rewrite on_mutex_poses by (apply hold_nonempty, Hl). by apply UnLockMulti_held.
Qed.
Lemma RUnLock_held key l : locks_free l → RUnLock key (hold read_held [key] l) = (Ret tt, l).
Proof.
  intros Hl. unfold RUnLock. rewrite on_mutex_poses by (apply hold_nonempty, Hl). by apply RUnLockMulti_held.
Qed.
Lemma lock_table_free n : 0 < n → locks_free (lock_table n).
Proof.
  intros Hn. unfold lock_table. split.
  - intros E. apply (f_equal length) in E. rewrite length_replicate in E. cbn in E. lia.
  - by apply Forall_replicate.
Qed.
End hold.
