(* ===== verification/LockOrder.v ===== *)
(** * Goroutines on the table of key locks

    [LockMulti]/[UnLockMulti] and their read versions ([src/pkg/memdb/dblock.go])
    run by many goroutines at once, interleaved at the single mutex operations.
    A [sync.RWMutex] prefers writers: a writer first announces itself, which
    keeps new readers out, then waits for the readers to leave.  The single-key
    operations are the case of one key. *)

From Stdlib Require Import Ascii String ZArith Lia.
From stdpp Require Import prelude gmap list relations sorting.
From S2P Require Import Prelude Util Locks.
Open Scope Z_scope.

(** A goroutine inside [LockMulti] ([g_write]) or [RLockMulti]: positions it
    holds, positions it has yet to lock, whether it has announced itself at the
    first of these.  With nothing left to lock it runs its command and then
    releases what it holds, in order. *)
Record goroutine := mkG {
  g_write : bool;
  g_held : list Z;
  g_todo : list Z;
  g_pending : bool;
}.

Definition finished (g : goroutine) : Prop := g_held g = [] ∧ g_todo g = [].

Section LockOrder.
Context `{Host}.

(** The goroutine about to lock [keys]. *)
Definition spawn (l : Locks) (job : bool * list bytes) : goroutine :=
  mkG job.1 [] (default [] (sortedLockPoses job.2 l)) false.

Definition waiting_at (p : Z) (g : goroutine) : Prop :=
  g_pending g = true ∧ head (g_todo g) = Some p.
Definition writing_at (p : Z) (g : goroutine) : Prop := g_write g = true ∧ p ∈ g_held g.

Inductive step : Locks * list goroutine → Locks * list goroutine → Prop :=
  | step_announce l gs i p todo g :
      gs !! i = Some g → g_write g = true → g_todo g = p :: todo → g_pending g = false →
      (∀ j g', gs !! j = Some g' → ¬ waiting_at p g' ∧ ¬ writing_at p g') →
      step (l, gs) (l, <[i := mkG true (g_held g) (p :: todo) true]> gs)
  | step_lock l l' gs i p todo g :
      gs !! i = Some g → g_write g = true → g_todo g = p :: todo → g_pending g = true →
      on_mutex p rw_Lock l = (Ret tt, l') →
      step (l, gs) (l', <[i := mkG true (g_held g ++ [p]) todo false]> gs)
  | step_rlock l l' gs i p todo g :
      gs !! i = Some g → g_write g = false → g_todo g = p :: todo →
      (∀ j g', gs !! j = Some g' → ¬ waiting_at p g') →
      on_mutex p rw_RLock l = (Ret tt, l') →
      step (l, gs) (l', <[i := mkG false (g_held g ++ [p]) todo false]> gs)
  | step_unlock l l' gs i p held g :
      gs !! i = Some g → g_todo g = [] → g_held g = p :: held →
      on_mutex p (if g_write g then rw_Unlock else rw_RUnlock) l = (Ret tt, l') →
      step (l, gs) (l', <[i := mkG (g_write g) held [] false]> gs).

(** ** Invariant

    The table counts the holders of each mutex; a goroutine's positions are in
    range and increasing. *)
Definition g_ok (l : Locks) (g : goroutine) : Prop :=
  StronglySorted Z.lt (g_held g ++ g_todo g) ∧
  Forall (λ p, 0 <= p < zlen l) (g_held g ++ g_todo g) ∧
  (g_write g = false → g_pending g = false).

Definition holds (w : bool) (p : Z) (g : goroutine) : nat :=
  if bool_decide (g_write g = w ∧ p ∈ g_held g) then 1%nat else 0%nat.
Definition holders (w : bool) (p : Z) (gs : list goroutine) : nat :=
  foldr (λ g n, (holds w p g + n)%nat) 0%nat gs.

Definition sched_ok (st : Locks * list goroutine) : Prop :=
  Forall (g_ok st.1) st.2 ∧
  ∀ i m, st.1 !! i = Some m →
    readers m = holders false (Z.of_nat i) st.2 ∧
    Nat.b2n (writer m) = holders true (Z.of_nat i) st.2 ∧
    (writer m = true → readers m = 0%nat).

Lemma holders_insert w p gs i g g' :
  gs !! i = Some g → (holders w p (<[i := g']> gs) + holds w p g = holders w p gs + holds w p g')%nat.
Proof.
  revert i. induction gs as [|x gs IH]; intros [|i]; [done..| |].
  - intros [= ->]. cbn. lia.
  - intros E. specialize (IH i E).
    change (holders w p (<[S i := g']> (x :: gs))) with (holds w p x + holders w p (<[i := g']> gs))%nat.
    change (holders w p (x :: gs)) with (holds w p x + holders w p gs)%nat. lia.
Qed.
Lemma holders_pos w p gs : (0 < holders w p gs)%nat → ∃ i g, gs !! i = Some g ∧ g_write g = w ∧ p ∈ g_held g.
Proof.
  unfold holders. induction gs as [|x gs IH]; cbn; [lia|]. unfold holds at 1.
  case_bool_decide as Hx; [exists 0%nat; naive_solver|]. intros Hp.
  destruct IH as (i & g & ? & ?); [lia|]. by exists (S i), g.
Qed.
Lemma holders_ge w p gs i g : gs !! i = Some g → (holds w p g <= holders w p gs)%nat.
Proof.
  unfold holders. revert i. induction gs as [|x gs IH]; intros [|i]; cbn; [done..| |].
  - intros [= ->]. lia.
  - intros E. specialize (IH i E). lia.
Qed.

Lemma zlen_insert {A} (l : list A) i x : zlen (<[i := x]> l) = zlen l.
Proof. unfold zlen. by rewrite length_insert. Qed.

Lemma on_mutex_inv p f l l' :
  on_mutex p f l = (Ret tt, l') →
  ∃ m m', 0 <= p ∧ l !! Z.to_nat p = Some m ∧ f m = Ret m' ∧ l' = <[Z.to_nat p := m']> l.
Proof.
  unfold on_mutex. destruct (Z.ltb_spec p 0); [done|]. destruct (l !! _) as [m|]; [|done].
  destruct (f m) as [m'| | |] eqn:E; [|done..]. intros [= <-]. by exists m, m'.
Qed.

(** A step replaces one goroutine and at most one mutex; the invariant is
    re-established from the counts at that mutex. *)
Lemma sched_ok_update l gs i g g' p m m' :
  sched_ok (l, gs) → gs !! i = Some g → 0 <= p → l !! Z.to_nat p = Some m → g_ok l g' →
  (∀ q w, q ≠ p → holds w q g' = holds w q g) →
  (readers m' + holds false p g = readers m + holds false p g')%nat →
  (Nat.b2n (writer m') + holds true p g = Nat.b2n (writer m) + holds true p g')%nat →
  (writer m' = true → readers m' = 0%nat) →
  sched_ok (<[Z.to_nat p := m']> l, <[i := g']> gs).
Proof.
  intros [Hg Hc] Hi Hp Hm Hg' Hq Hr Hw Hx. cbn [fst snd] in *. split; cbn [fst snd].
  - apply Forall_insert; [|by unfold g_ok; rewrite zlen_insert].
    eapply Forall_impl; [exact Hg|]. intros x. unfold g_ok. by rewrite zlen_insert.
  - intros j n Hn. pose proof (λ w, holders_insert w (Z.of_nat j) gs i g g' Hi) as Hh.
    rewrite list_lookup_insert in Hn. destruct (decide (Z.to_nat p = j)) as [<-|Hne].
    + rewrite decide_True in Hn by (by apply lookup_lt_Some in Hm). injection Hn as <-.
      destruct (Hc _ _ Hm) as (Hcr & Hcw & _). rewrite Z2Nat.id in * by done.
      pose proof (Hh false). pose proof (Hh true). split_and!; [lia|lia|done].
    + rewrite decide_False in Hn by naive_solver. destruct (Hc _ _ Hn) as (Hcr & Hcw & ?).
      pose proof (Hh false) as H1. pose proof (Hh true) as H2.
      rewrite Hq in H1, H2 by lia. split_and!; [lia|lia|done].
Qed.

Lemma holds_ne w q b h t d h' t' d' :
  (q ∈ h ↔ q ∈ h') → holds w q (mkG b h t d) = holds w q (mkG b h' t' d').
Proof. intros E. unfold holds. cbn. repeat case_bool_decide; naive_solver. Qed.
Lemma holds_is w b h t d p :
  holds w p (mkG b h t d) = if bool_decide (b = w ∧ p ∈ h) then 1%nat else 0%nat.
Proof. done. Qed.

Lemma sorted_snoc_not (hs : list Z) p ts : StronglySorted Z.lt (hs ++ p :: ts) → p ∉ hs.
Proof.
  induction hs as [|h hs IH]; cbn; [by intros _ ?%not_elem_of_nil|].
  intros [Hs Hf]%StronglySorted_inv. rewrite not_elem_of_cons. split; [|auto].
  intros ->. rewrite Forall_forall in Hf. assert (h < h); [|lia]. apply Hf. set_solver.
Qed.

(** Taking or releasing the mutex [p] changes only the holders of [p]. *)
Lemma holds_acquire w b h t d t' d' p q :
  q ≠ p → holds w q (mkG b (h ++ [p]) t' d') = holds w q (mkG b h t d).
Proof. intros Hne. apply holds_ne. rewrite elem_of_app, list_elem_of_singleton. naive_solver. Qed.
Lemma holds_release w b h t d t' d' p q :
  q ≠ p → holds w q (mkG b h t' d') = holds w q (mkG b (p :: h) t d).
Proof. intros Hne. apply holds_ne. rewrite elem_of_cons. naive_solver. Qed.

(** The counters of a mutex that is taken and of one that is released. *)
Lemma acquire_counts (w : bool) m m' :
  (if w then rw_Lock else rw_RLock) m = Ret m' →
  readers m' = (readers m + Nat.b2n (negb w))%nat ∧
  Nat.b2n (writer m') = (Nat.b2n (writer m) + Nat.b2n w)%nat ∧
  (writer m' = true → readers m' = 0%nat).
Proof.
  destruct m as [r []], w; unfold rw_Lock, rw_RLock; cbn; [done..| |].
  - destruct (Nat.eqb_spec r 0); [|done]. intros [= <-]. cbn. split_and!; [lia|done..].
  - intros [= <-]. cbn. split_and!; [lia|done..].
Qed.
Lemma release_counts (w : bool) m m' :
  (if w then rw_Unlock else rw_RUnlock) m = Ret m' →
  (readers m' + Nat.b2n (negb w))%nat = readers m ∧
  (Nat.b2n (writer m') + Nat.b2n w)%nat = Nat.b2n (writer m) ∧
  ((writer m = true → readers m = 0%nat) → writer m' = true → readers m' = 0%nat).
Proof.
  destruct m as [r b], w; unfold rw_Unlock, rw_RUnlock; cbn.
  - destruct b; [|done]. intros [= <-]. cbn. split_and!; [lia|done..].
  - destruct r; [done|]. intros [= <-]. cbn. split_and!; [lia|lia|naive_solver].
Qed.

Lemma holds_in w b h t d p : p ∈ h → holds w p (mkG b h t d) = Nat.b2n (Bool.eqb b w).
Proof. intros Hp. rewrite holds_is. by destruct b, w; case_bool_decide; naive_solver. Qed.
Lemma holds_notin w b h t d p : p ∉ h → holds w p (mkG b h t d) = 0%nat.
Proof. intros Hp. rewrite holds_is. case_bool_decide; naive_solver. Qed.

Lemma sched_ok_acquire l l' gs i (w : bool) held p todo d :
  sched_ok (l, gs) → gs !! i = Some (mkG w held (p :: todo) d) →
  on_mutex p (if w then rw_Lock else rw_RLock) l = (Ret tt, l') →
  sched_ok (l', <[i := mkG w (held ++ [p]) todo false]> gs).
Proof.
  intros Hok Hi (m & m' & H0 & Hm & (Er & Ew & Hx)%acquire_counts & ->)%on_mutex_inv.
  pose proof Hok as [Hgs _]. rewrite Forall_lookup in Hgs.
  specialize (Hgs _ _ Hi) as (Hsort & Hrange & _). cbn [g_held g_todo fst] in *.
  pose proof (sorted_snoc_not _ _ _ Hsort) as Hp.
  assert (p ∈ held ++ [p]) as Hp' by set_solver.
  eapply sched_ok_update; [done|exact Hi|done|exact Hm|..]; rewrite ?(holds_in _ _ _ _ _ _ Hp'), ?(holds_notin _ _ _ _ _ _ Hp).
  - unfold g_ok. cbn. by rewrite <- app_assoc.
  - intros q w' ?. by apply holds_acquire.
  - destruct w; cbn in *; lia.
  - destruct w; cbn in *; lia.
  - done.
Qed.
Lemma sched_ok_release l l' gs i (w : bool) held p d :
  sched_ok (l, gs) → gs !! i = Some (mkG w (p :: held) [] d) →
  on_mutex p (if w then rw_Unlock else rw_RUnlock) l = (Ret tt, l') →
  sched_ok (l', <[i := mkG w held [] false]> gs).
Proof.
  intros Hok Hi (m & m' & H0 & Hm & (Er & Ew & Hx)%release_counts & ->)%on_mutex_inv.
  pose proof Hok as [Hgs Hc]. rewrite Forall_lookup in Hgs.
  specialize (Hgs _ _ Hi) as (Hsort & Hrange & _). cbn [g_held g_todo fst] in *.
  rewrite app_nil_r in *. apply Forall_cons in Hrange as [_ Hrange].
  apply StronglySorted_inv in Hsort as [Hsort Hlt].
  assert (p ∉ held) as Hp. { intros Hin. rewrite Forall_forall in Hlt. specialize (Hlt p Hin). lia. }
  assert (p ∈ p :: held) as Hp' by left.
  eapply sched_ok_update; [done|exact Hi|done|exact Hm|..]; rewrite ?(holds_in _ _ _ _ _ _ Hp'), ?(holds_notin _ _ _ _ _ _ Hp).
  - unfold g_ok. cbn. by rewrite app_nil_r.
  - intros q w' ?. by apply holds_release.
  - destruct w; cbn in *; lia.
  - destruct w; cbn in *; lia.
  - apply Hx, (Hc _ _ Hm).
Qed.

Lemma sched_ok_step st st' : sched_ok st → step st st' → sched_ok st'.
Proof.
  intros Hok Hs. destruct Hs as
    [l gs i p todo [w held td pd] Hi Hw Ht Hp Hn|l l' gs i p todo [w held td pd] Hi Hw Ht Hp Ho
    |l l' gs i p todo [w held td pd] Hi Hw Ht Hn Ho|l l' gs i p held' [w held td pd] Hi Ht Hh Ho];
    cbn [g_write g_held g_todo g_pending] in *; subst.
  - destruct Hok as [Hgs Hc]. cbn [fst snd] in *. pose proof Hgs as Hg. rewrite Forall_lookup in Hg.
    specialize (Hg _ _ Hi) as (? & ? & ?). split; cbn [fst snd]; [apply Forall_insert; [done|by split_and!]|].
    intros j m Hj. specialize (Hc j m Hj).
    pose proof (λ w, holders_insert w (Z.of_nat j) gs i _ (mkG true held (p :: todo) true) Hi) as Hh.
    pose proof (Hh false). pose proof (Hh true).
    rewrite !(holds_ne _ _ _ held (p :: todo) true held (p :: todo) false) in * by done.
    split_and!; [lia|lia|apply Hc].
  - by eapply (sched_ok_acquire _ _ _ _ true).
  - by eapply (sched_ok_acquire _ _ _ _ false).
  - by eapply sched_ok_release.
Qed.

(** ** Progress *)
Definition g_work (g : goroutine) : nat :=
  3 * length (g_todo g) - Nat.b2n (g_pending g) + length (g_held g).
Definition work (st : Locks * list goroutine) : nat := foldr (λ g n, (g_work g + n)%nat) 0%nat st.2.

Lemma work_insert l l' gs i g g' :
  gs !! i = Some g → (work (l', <[i := g']> gs) + g_work g = work (l, gs) + g_work g')%nat.
Proof.
  unfold work. cbn [snd]. revert i. induction gs as [|x gs IH]; intros [|i]; [done..| |].
  - intros [= ->]. cbn. lia.
  - intros E. specialize (IH i E). change (<[S i := g']> (x :: gs)) with (x :: <[i := g']> gs).
    cbn [foldr]. lia.
Qed.

(** Every step is progress, so no run is infinite. *)
Lemma step_work st st' : step st st' → (work st' < work st)%nat.
Proof.
  intros Hs. destruct Hs as
    [l gs i p todo [w held td pd] Hi Hw Ht Hp Hn|l l' gs i p todo [w held td pd] Hi Hw Ht Hp Ho
    |l l' gs i p todo [w held td pd] Hi Hw Ht Hn Ho|l l' gs i p held' [w held td pd] Hi Ht Hh Ho];
    cbn [g_write g_held g_todo g_pending] in *; subst;
    match goal with |- (work (?l', <[_ := ?g']> _) < work (?l, _))%nat =>
      pose proof (work_insert l l' gs i _ g' Hi) as Hwk end;
    unfold g_work in Hwk; cbn [g_held g_todo g_pending] in Hwk; rewrite ?length_app in Hwk;
    cbn [length Nat.b2n] in Hwk; try (destruct pd; cbn [Nat.b2n] in Hwk); lia.
Qed.

Lemma max_head (gs : list goroutine) :
  (∃ g, g ∈ gs ∧ g_todo g ≠ []) →
  ∃ i g p, gs !! i = Some g ∧ head (g_todo g) = Some p ∧
    ∀ g' q, g' ∈ gs → head (g_todo g') = Some q → q <= p.
Proof.
  induction gs as [|x gs IH]; intros (g & Hg & Ht); [by apply not_elem_of_nil in Hg|].
  destruct (decide (Exists (λ g, g_todo g ≠ []) gs)) as [He|Hn].
  - apply Exists_exists in He. destruct (IH He) as (i & g0 & p & Hi & Hp & Hmax).
    destruct (head (g_todo x)) as [q|] eqn:Eq; [destruct (decide (p <= q))|].
    + exists 0%nat, x, q. split_and!; [done|done|]. intros g' q' [->|Hin]%elem_of_cons E; [naive_solver lia|].
      specialize (Hmax _ _ Hin E). lia.
    + exists (S i), g0, p. split_and!; [done|done|]. intros g' q' [->|Hin]%elem_of_cons E; [|eauto].
      assert (q = q') by congruence. lia.
    + exists (S i), g0, p. split_and!; [done|done|]. intros g' q' [->|Hin]%elem_of_cons E; [congruence|eauto].
  - assert (Forall (λ g, g_todo g = []) gs) as Hall.
    { apply Forall_forall. intros g' Hg'. destruct (g_todo g') eqn:E; [done|].
      destruct Hn. apply Exists_exists. exists g'. by rewrite E. }
    rewrite Forall_forall in Hall. apply elem_of_cons in Hg as [->|Hg]; [|by destruct Ht; apply Hall].
    destruct (g_todo x) as [|p t] eqn:E; [done|]. exists 0%nat, x, p. rewrite E. split_and!; [done|done|].
    intros g' q' [->|Hin]%elem_of_cons E'; [rewrite E in E'; naive_solver lia|]. by rewrite Hall in E'.
Qed.

#[local] Instance waiting_at_dec p g : Decision (waiting_at p g).
Proof. unfold waiting_at. apply _. Defined.

Lemma sorted_lt (hs : list Z) p q ts : StronglySorted Z.lt (hs ++ q :: ts) → p ∈ hs → p < q.
Proof.
  induction hs as [|h hs IH]; cbn; intros Hs Hin; [by apply not_elem_of_nil in Hin|].
  apply StronglySorted_inv in Hs as [Hs Hf]. apply elem_of_cons in Hin as [->|Hin]; [|auto].
  rewrite Forall_forall in Hf. apply Hf. set_solver.
Qed.

(** A mutex nobody holds is free. *)
Lemma mutex_free l gs p m :
  sched_ok (l, gs) → 0 <= p → l !! Z.to_nat p = Some m →
  (∀ j g, gs !! j = Some g → p ∉ g_held g) → m = free_mutex.
Proof.
  intros [_ Hc] Hp Hm Hfree. destruct (Hc _ _ Hm) as (Hr & Hw & _). cbn [snd] in *.
  rewrite Z2Nat.id in * by done.
  assert (∀ w, holders w p gs = 0%nat) as H0.
  { intros w. destruct (holders w p gs) eqn:E; [done|].
    destruct (holders_pos w p gs) as (j & g & Hj & _ & Hin); [lia|]. by destruct (Hfree j g Hj). }
  rewrite H0 in *. destruct m as [r []]; cbn in *; [done|by subst].
Qed.

(** A goroutine with nothing left to lock can release. *)
Lemma release_step l gs i g p held :
  sched_ok (l, gs) → gs !! i = Some g → g_todo g = [] → g_held g = p :: held → ∃ st', step (l, gs) st'.
Proof.
  intros [Hgs Hc] Hi Ht Hh. cbn [fst snd] in *. rewrite Forall_lookup in Hgs.
  destruct (Hgs _ _ Hi) as (_ & Hrange & _). rewrite Hh in Hrange. cbn in Hrange.
  apply Forall_cons in Hrange as [Hp _].
  destruct (lookup_lt_is_Some_2 l (Z.to_nat p)) as [m Hm]; [unfold zlen in Hp; lia|].
  destruct (Hc _ _ Hm) as (Hr & Hw & _). rewrite Z2Nat.id in * by lia.
  assert (∃ m', (if g_write g then rw_Unlock else rw_RUnlock) m = Ret m') as [m' Hm'].
  { pose proof (holders_ge (g_write g) p gs i g Hi) as Hge. unfold holds in Hge.
    rewrite bool_decide_eq_true_2 in Hge by (split; [done|rewrite Hh; left]).
    destruct (g_write g); unfold rw_Unlock, rw_RUnlock.
    - destruct (writer m); [eauto|cbn in Hw; lia].
    - destruct (readers m); [lia|eauto]. }
  eexists. eapply step_unlock; [done..|]. eapply on_mutex_ok; [lia|done..].
Qed.

(** A mutex that somebody wants and nobody holds will be taken. *)
Lemma unheld_step l gs i g p t :
  sched_ok (l, gs) → gs !! i = Some g → g_todo g = p :: t →
  (∀ j g', gs !! j = Some g' → p ∉ g_held g') → ∃ st', step (l, gs) st'.
Proof.
  intros Hok Hi Ht Hfree. pose proof Hok as [Hgs _]. cbn [fst snd] in *. rewrite Forall_lookup in Hgs.
  destruct (Hgs _ _ Hi) as (_ & Hrange & _).
  rewrite Ht in Hrange. apply Forall_app in Hrange as [_ [Hrange _]%Forall_cons].
  destruct (lookup_lt_is_Some_2 l (Z.to_nat p)) as [m Hm]; [unfold zlen in Hrange; lia|].
  assert (m = free_mutex) as ->. { apply (mutex_free l gs p); [exact Hok|lia|done|done]. }
  destruct (decide (Exists (waiting_at p) gs)) as [Hw|Hnw].
  - apply Exists_exists in Hw as (g' & Hg' & Hpd & Hhd). apply list_elem_of_lookup in Hg' as [j Hj].
    apply head_Some in Hhd as [t' Ht']. eexists. eapply (step_lock _ _ _ j); [done| |done|done|].
    + destruct (Hgs _ _ Hj) as (_ & _ & Hr). destruct (g_write g'); [done|]. rewrite Hr in Hpd; done.
    + eapply on_mutex_ok; [lia|done|done].
  - assert (∀ j g', gs !! j = Some g' → ¬ waiting_at p g') as Hnw'.
    { intros j g' Hj Hw. apply Hnw, Exists_exists. exists g'. split; [by eapply list_elem_of_lookup_2|done]. }
    destruct (g_write g) eqn:Ew.
    + eexists. eapply (step_announce _ _ i); [done..| |].
      * destruct (g_pending g) eqn:Epd; [|done]. destruct (Hnw' i g Hi). split; [done|by rewrite Ht].
      * intros j g' Hj. split; [eauto|]. intros [_ Hin]. by eapply Hfree.
    + eexists. eapply (step_rlock _ _ _ i); [done..|]. eapply on_mutex_ok; [lia|done|done].
Qed.

(** Deadlock freedom: as long as a goroutine is not finished, some goroutine can
    take a step.  Otherwise all wait for a mutex; take the one that waits for
    the highest position.  Its holder would wait for a higher one. *)
Lemma progress l gs :
  sched_ok (l, gs) → Forall finished gs ∨ ∃ st', step (l, gs) st'.
Proof.
  intros Hok. destruct (decide (Exists (λ g, g_todo g = [] ∧ g_held g ≠ []) gs)) as [He|Hn].
  { apply Exists_exists in He as (g & Hg & Ht & Hh). apply list_elem_of_lookup in Hg as [i Hi].
    destruct (g_held g) as [|p held] eqn:E; [done|]. right. by eapply release_step. }
  assert (∀ g, g ∈ gs → g_todo g = [] → g_held g = []) as Hidle.
  { intros g Hg Ht. destruct (g_held g) eqn:E; [done|]. destruct Hn. apply Exists_exists. exists g.
    by rewrite E. }
  destruct (decide (Exists (λ g, g_todo g ≠ []) gs)) as [He|Hf].
  2:{ left. apply Forall_forall. intros g Hg. assert (g_todo g = []) as Ht.
      { destruct (g_todo g) eqn:E; [done|]. destruct Hf. apply Exists_exists. exists g. by rewrite E. }
      split; auto. }
  right. apply Exists_exists in He. destruct (max_head gs He) as (i & g & p & Hi & Hp & Hmax).
  pose proof Hok as [Hgs Hc]. cbn [fst snd] in *. rewrite Forall_lookup in Hgs.
  assert (∀ j g', gs !! j = Some g' → p ∉ g_held g') as Hfree.
  { intros j g' Hj Hin. destruct (g_todo g') as [|q t] eqn:E.
    { rewrite (Hidle g') in Hin by (done || by eapply list_elem_of_lookup_2). by apply not_elem_of_nil in Hin. }
    destruct (Hgs _ _ Hj) as (Hs & _). rewrite E in Hs.
    assert (p < q) by (by eapply sorted_lt). 
    assert (q <= p); [|lia]. apply (Hmax g'); [by eapply list_elem_of_lookup_2|by rewrite E]. }
  apply head_Some in Hp as [t Ht]. by eapply unheld_step.
Qed.

(** Two goroutines never hold the same mutex, unless both read. *)
Lemma exclusion st i j g g' p :
  sched_ok st → st.2 !! i = Some g → st.2 !! j = Some g' → i ≠ j →
  p ∈ g_held g → p ∈ g_held g' → g_write g = false ∧ g_write g' = false.
Proof.
  destruct st as [l gs]. cbn [snd]. intros [Hgs Hc] Hi Hj Hne Hin Hin'. cbn [fst snd] in *.
  rewrite Forall_lookup in Hgs. pose proof (Hgs _ _ Hi) as (_ & [Hr _]%Forall_app & _).
  rewrite Forall_forall in Hr. specialize (Hr p Hin).
  destruct (lookup_lt_is_Some_2 l (Z.to_nat p)) as [m Hm]; [unfold zlen in Hr; lia|].
  destruct (Hc _ _ Hm) as (Er & Ew & Hx). rewrite Z2Nat.id in * by lia.
  assert (∀ w, holds w p g + holds w p g' <= holders w p gs)%nat as H2.
  { intros w. pose proof (holders_insert w p gs i g (mkG w [] [] false) Hi) as E.
    pose proof (holders_ge w p (<[i := mkG w [] [] false]> gs) j g') as Hge.
    rewrite list_lookup_insert_ne in Hge by done. specialize (Hge Hj).
    rewrite (holds_notin _ _ _ _ _ p (not_elem_of_nil p)) in E. lia. }
  pose proof (H2 true) as Ht. pose proof (H2 false) as Hf. destruct g as [b h], g' as [b' h'].
  cbn [g_held g_write] in *. rewrite !holds_in in * by done.
  destruct (writer m), b, b'; cbn in *; try lia; try done; rewrite (Hx eq_refl) in Er; lia.
Qed.

(** The goroutines start on a free table. *)
Lemma spawn_ok l jobs : locks_free l → sched_ok (l, spawn l <$> jobs).
Proof.
  intros Hl. split; cbn [fst snd].
  - apply Forall_fmap, Forall_forall. intros [w keys] _.
    destruct (sortedLockPoses_spec keys l) as (ps & Eps & Hs & Hps); [apply Hl|].
    unfold spawn, g_ok. cbn. rewrite Eps. cbn. split_and!; [done| |done].
    apply Forall_forall. intros p Hp. apply Hps in Hp as (key & _ & ->). apply GetKeyPos_range, Hl.
  - intros i m Hm. apply (free_lookup l) in Hm as ->; [|done].
    assert (∀ w, holders w (Z.of_nat i) (spawn l <$> jobs) = 0%nat) as E.
    { intros w. induction jobs as [|x jobs IH]; [done|]. rewrite fmap_cons. cbn [holders foldr].
      fold (holders w (Z.of_nat i) (spawn l <$> jobs)). unfold spawn at 1.
      rewrite holds_notin by apply not_elem_of_nil. done. }
    by rewrite !E.
Qed.
Lemma reachable_ok l jobs st : locks_free l → rtc step (l, spawn l <$> jobs) st → sched_ok st.
Proof.
  intros Hl Hr. remember (l, spawn l <$> jobs) as st0 eqn:E.
  assert (sched_ok st0) as Hok by (subst; by apply spawn_ok). clear E Hl.
  induction Hr; [done|]. eauto using sched_ok_step.
Qed.
Lemma steps_bound n st st' : nsteps step n st st' → (n + work st' <= work st)%nat.
Proof. induction 1 as [|n st1 st2 st3 Hs _ IH]; [lia|]. apply step_work in Hs. lia. Qed.

(** When all goroutines are finished the table is free again. *)
Lemma finished_free st :
  sched_ok st → Forall finished st.2 → Forall (λ m, m = free_mutex) st.1.
Proof.
  destruct st as [l gs]. intros Hok Hfin. cbn [fst snd] in *. rewrite Forall_lookup in Hfin.
  apply Forall_lookup. intros i m Hm. eapply (mutex_free l gs (Z.of_nat i)); [done|lia|by rewrite Nat2Z.id|].
  intros j g Hj. destruct (Hfin _ _ Hj) as [-> _]. apply not_elem_of_nil.
Qed.

(** C28: Goroutines that lock any sets of keys with [LockMulti] or [RLockMulti], run
    and release them never deadlock: in every reachable state either all are
    finished, and then every mutex is free, or one of them can take its next
    step; and every run ends, after at most [work] steps. *)
Theorem LockMulti_deadlock_free l jobs st n :
  locks_free l → nsteps step n (l, spawn l <$> jobs) st →
  (Forall finished st.2 ∧ Forall (λ m, m = free_mutex) st.1 ∨ ∃ st', step st st') ∧
  (n <= work (l, spawn l <$> jobs))%nat.
Proof.
  intros Hl Hn. assert (sched_ok st) as Hok.
  { apply (reachable_ok l jobs); [done|]. by eapply rtc_nsteps_2. }
  split.
  - destruct st as [l' gs]. destruct (progress l' gs Hok) as [Hf|Hs]; [left|by right].
    split; [done|]. by apply (finished_free (l', gs)).
  - apply steps_bound in Hn. lia.
Qed.

(** [Lock] and [LockMulti] exclude: in every reachable state a mutex held by a
    writer is held by no other goroutine, readers share it only with readers. *)
Theorem LockMulti_exclusion l jobs st i j g g' p :
  locks_free l → rtc step (l, spawn l <$> jobs) st →
  st.2 !! i = Some g → st.2 !! j = Some g' → i ≠ j →
  p ∈ g_held g → p ∈ g_held g' → g_write g = false ∧ g_write g' = false.
Proof. intros Hl Hr. apply exclusion. by eapply reachable_ok. Qed.

(** For one goroutine on a free table, [LockMulti] (and [Lock], [RLock],
    [RLockMulti]) takes exactly the mutexes of its keys, each once even when keys
    collide or repeat, never blocks, and the matching release restores the
    table. *)
Theorem LockMulti_balanced keys key l :
  locks_free l →
  (LockMulti keys l = (Ret tt, hold write_held keys l) ∧
   UnLockMulti keys (hold write_held keys l) = (Ret tt, l)) ∧
  (RLockMulti keys l = (Ret tt, hold read_held keys l) ∧
   RUnLockMulti keys (hold read_held keys l) = (Ret tt, l)) ∧
  (Lock key l = (Ret tt, hold write_held [key] l) ∧
   UnLock key (hold write_held [key] l) = (Ret tt, l)) ∧
  (RLock key l = (Ret tt, hold read_held [key] l) ∧
   RUnLock key (hold read_held [key] l) = (Ret tt, l)).
Proof.
  intros Hl. split_and!; auto using LockMulti_free, UnLockMulti_held, RLockMulti_free,
    RUnLockMulti_held, Lock_free, UnLock_held, RLock_free, RUnLock_held.
Qed.
End LockOrder.

(** ** Concrete runs *)
Definition demo_locks : Locks := lock_table 1.
Definition demo_jobs : list (bool * list bytes) := [(false, [lit "a"]); (false, [lit "b"; lit "a"])].
Definition demo_reading : Locks * list goroutine :=
  ([mkRW 2 false], [mkG false [0] [] false; mkG false [0] [] false]).

Lemma demo_run : nsteps step 2 (demo_locks, spawn (H := demo_host) demo_locks <$> demo_jobs) demo_reading.
Proof.
  eapply nsteps_l; [|eapply nsteps_once].
  - apply (step_rlock _ [mkRW 1 false] _ 0 0 [] (mkG false [] [0] false)); try reflexivity.
    intros [|[|j]] g'; [intros [= <-] [? _]; done..|done].
  - apply (step_rlock [mkRW 1 false] [mkRW 2 false] [mkG false [0] [] false; mkG false [] [0] false] 1 0 []
      (mkG false [] [0] false)); try reflexivity.
    intros [|[|j]] g'; [intros [= <-] [? _]; done..|done].
Qed.
Lemma demo_locks_free : locks_free demo_locks.
Proof. by apply lock_table_free. Qed.

Lemma LockMulti_deadlock_free_witness :
  locks_free demo_locks ∧ (∃ st', step demo_reading st').
Proof.
  pose proof (LockMulti_deadlock_free (H := demo_host) demo_locks demo_jobs demo_reading 2 demo_locks_free demo_run)
    as [[[Hf _]|Hs] _].
  - apply Forall_cons in Hf as [[Hh _] _]. discriminate Hh.
  - split; [exact demo_locks_free|exact Hs].
Defined.
Lemma LockMulti_exclusion_witness :
  g_write (mkG false [0] [] false) = false ∧ g_write (mkG false [0] [] false) = false.
Proof.
  apply (LockMulti_exclusion (H := demo_host) demo_locks demo_jobs demo_reading 0 1 _ _ 0 demo_locks_free);
    [eapply rtc_nsteps_2, demo_run|reflexivity|reflexivity|discriminate|left|left].
Defined.
Lemma LockMulti_balanced_witness :
  LockMulti (H := demo_host) [lit "b"; lit "a"; lit "b"] demo_locks = (Ret tt, [write_held]).
Proof.
  destruct (LockMulti_balanced (H := demo_host) [lit "b"; lit "a"; lit "b"] (lit "a") demo_locks demo_locks_free)
    as [[E _] _].
  rewrite E. reflexivity.
Defined.
