(* ===== verification/ListStruct.v ===== *)
(** * The doubly linked list

    [src/pkg/memdb/list_struct.go]: [List] and [ListNode] with sentinels [Head]
    and [Tail].  Nodes are objects with mutable [Prev] and [Next] pointers: a
    list has a store of nodes by location and every operation reads and writes
    it in the order of the code, a nil pointer panics.  A loop that does not
    reach its sentinel within the number of nodes has run into a cycle and never
    returns ([Blocks]); on a well-formed list this does not happen. *)

From S2P Require Import Prelude.
From Stdlib Require Import Ascii String ZArith Lia.
From stdpp Require Import prelude gmap list.
Open Scope Z_scope.

Record ListNode := mkNode { Prev : option positive; Next : option positive; Val : slice }.
Record List := mkList { nodes : gmap positive ListNode; Head : positive; Tail : positive; len : Z }.

Definition NewList : List :=
  mkList (<[1%positive := mkNode None (Some 2%positive) None]>
          (<[2%positive := mkNode (Some 1%positive) None None]> ∅)) 1%positive 2%positive 0.

(** ** Reading and writing nodes *)
Abbreviation LM := (M List).

Definition deref (p : option positive) : LM ListNode := λ l,
  match p ≫= λ p, nodes l !! p with Some n => (Ret n, l) | None => (Panics, l) end.

Definition write_node (p : option positive) (f : ListNode → ListNode) : LM unit := λ l,
  match p with
  | Some p =>
      match nodes l !! p with
      | Some n => (Ret tt, mkList (<[p := f n]> (nodes l)) (Head l) (Tail l) (len l))
      | None => (Panics, l)
      end
  | None => (Panics, l)
  end.

(** [p.Prev = q], [p.Next = q], [p.Val = v] *)
Definition set_Prev (p q : option positive) : LM unit :=
  write_node p (λ n, mkNode q (Next n) (Val n)).
Definition set_Next (p q : option positive) : LM unit :=
  write_node p (λ n, mkNode (Prev n) q (Val n)).
Definition set_Val (p : option positive) (v : slice) : LM unit :=
  write_node p (λ n, mkNode (Prev n) (Next n) v).

Definition get_Next (p : option positive) : LM (option positive) := n ← deref p; mret (Next n).
Definition get_Prev (p : option positive) : LM (option positive) := n ← deref p; mret (Prev n).

Definition head : LM (option positive) := λ l, (Ret (Some (Head l)), l).
Definition tail : LM (option positive) := λ l, (Ret (Some (Tail l)), l).

(** [&ListNode{Prev: p, Next: n, Val: v}] *)
Definition new_node (p n : option positive) (v : slice) : LM (option positive) := λ l,
  let q := fresh (dom (nodes l)) in
  (Ret (Some q), mkList (<[q := mkNode p n v]> (nodes l)) (Head l) (Tail l) (len l)).

(** [atomic.AddInt64(&l.len, d)] and [atomic.StoreInt64(&l.len, n)] *)
Definition add_len (d : Z) : LM unit := λ l,
  (Ret tt, mkList (nodes l) (Head l) (Tail l) (int64 (len l + d))).
Definition store_len (n : Z) : LM unit := λ l,
  (Ret tt, mkList (nodes l) (Head l) (Tail l) n).

(** A bound on the length of any walk along distinct nodes. *)
Definition walk_fuel : LM nat := λ l, (Ret (size (nodes l)), l).
Definition diverges {A} : LM A := λ l, (Blocks, l).

(** ** Operations *)
Definition List_Len : LM Z := λ l, (Ret (len l), l).

Fixpoint walk (step : option positive → LM (option positive)) (n : nat) (p : option positive)
    : LM (option positive) :=
  match n with
  | O => mret p
  | S n => q ← step p; walk step n q
  end.

Definition List_Index (index : Z) : LM (option positive) :=
  len ← List_Len;
  let index' := if index <? 0 then int64 (len + index) else index in
  if ((index <? 0) && (len <? int64 (- index))) || ((len <=? index') || (index' <? 0)) then mret None
  else if index' <=? Z.quot len 2 then
    h ← head; p ← get_Next h; walk get_Next (Z.to_nat index') p
  else
    t ← tail; p ← get_Prev t; walk get_Prev (Z.to_nat (len - 1 - index')) p.

Fixpoint Pos_loop (fuel : nat) (val : slice) (now t : option positive) (pos : Z) : LM Z :=
  if decide (now = t) then mret (-1)
  else match fuel with
       | O => diverges
       | S fuel =>
           n ← deref now;
           if beq (str (Val n)) (str val) then mret pos
           else Pos_loop fuel val (Next n) t (pos + 1)
       end.

Definition List_Pos (val : slice) : LM Z :=
  h ← head; t ← tail; fuel ← walk_fuel; now ← get_Next h; Pos_loop fuel val now t 0.

Definition List_LPush (val : slice) : LM unit :=
  h ← head;
  hn ← get_Next h;
  node ← new_node h hn val;
  set_Next h node;;
  nn ← get_Next node;
  set_Prev nn node;;
  add_len 1.

Definition List_RPush (val : slice) : LM unit :=
  t ← tail;
  tp ← get_Prev t;
  node ← new_node tp t val;
  set_Prev t node;;
  np ← get_Prev node;
  set_Next np node;;
  add_len 1.

Definition List_LPop : LM (option positive) :=
  len ← List_Len;
  if len =? 0 then mret None
  else
    h ← head;
    node ← get_Next h;
    nn ← get_Next node;
    set_Next h nn;;
    nn ← get_Next node;
    set_Prev nn h;;
    set_Prev node None;;
    set_Next node None;;
    add_len (-1);;
    mret node.

Definition List_RPop : LM (option positive) :=
  len ← List_Len;
  if len =? 0 then mret None
  else
    t ← tail;
    node ← get_Prev t;
    np ← get_Prev node;
    set_Prev t np;;
    np ← get_Prev node;
    set_Next np t;;
    set_Prev node None;;
    set_Next node None;;
    add_len (-1);;
    mret node.

Definition List_Set (index : Z) (val : slice) : LM bool :=
  node ← List_Index index;
  match node with
  | None => mret false
  | _ => set_Val node val;; mret true
  end.

(** The normalisation of [start] and [end] that [Range] and [Trim] share:
    [None] when the range is empty. *)
Definition norm_range (len start stop : Z) : option (Z * Z) :=
  let start := if start <? 0 then int64 (len + start) else start in
  let stop := if stop <? 0 then int64 (len + stop) else stop in
  if (stop <? start) || (len <=? start) || (stop <? 0) then None
  else
    let start := if start <? 0 then 0 else start in
    let stop := if len <=? stop then len - 1 else stop in
    Some (start, stop).

Fixpoint Range_loop (fuel : nat) (i start stop : Z) (node t : option positive) (res : list slice)
    : LM (list slice) :=
  if (i <=? stop) && negb (bool_decide (node = t)) then
    match fuel with
    | O => diverges
    | S fuel =>
        n ← deref node;
        Range_loop fuel (i + 1) start stop (Next n) t
          (if start <=? i then res ++ [Val n] else res)
    end
  else mret res.

(** [None] is the nil slice. *)
Definition List_Range (start stop : Z) : LM (option (list slice)) :=
  len ← List_Len;
  match norm_range len start stop with
  | None => mret None
  | Some (start, stop) =>
      h ← head; t ← tail; fuel ← walk_fuel;
      node ← get_Next h;
      res ← Range_loop fuel 0 start stop node t [];
      mret (Some res)
  end.

Fixpoint InsertBefore_loop (fuel : nat) (val tar : slice) (now t : option positive) (pos : Z) : LM Z :=
  if decide (now = t) then mret (-1)
  else match fuel with
       | O => diverges
       | S fuel =>
           n ← deref now;
           if beq (str (Val n)) (str tar) then
             np ← get_Prev now;
             node ← new_node np now val;
             set_Prev now node;;
             np ← get_Prev node;
             set_Next np node;;
             add_len 1;;
             mret pos
           else InsertBefore_loop fuel val tar (Next n) t (pos + 1)
       end.
Definition List_InsertBefore (val tar : slice) : LM Z :=
  h ← head; t ← tail; fuel ← walk_fuel; now ← get_Next h; InsertBefore_loop fuel val tar now t 0.

Fixpoint InsertAfter_loop (fuel : nat) (val tar : slice) (now t : option positive) (pos : Z) : LM Z :=
  if decide (now = t) then mret (-1)
  else match fuel with
       | O => diverges
       | S fuel =>
           n ← deref now;
           if beq (str (Val n)) (str tar) then
             nn ← get_Next now;
             node ← new_node now nn val;
             set_Next now node;;
             nn ← get_Next node;
             set_Prev nn node;;
             add_len 1;;
             mret (pos + 1)
           else InsertAfter_loop fuel val tar (Next n) t (pos + 1)
       end.
Definition List_InsertAfter (val tar : slice) : LM Z :=
  h ← head; t ← tail; fuel ← walk_fuel; now ← get_Next h; InsertAfter_loop fuel val tar now t 0.

(** Unlinking [now] as in the body of [RemoveElement]. *)
Definition unlink (now : option positive) : LM unit :=
  p ← get_Prev now; n ← get_Next now; set_Next p n;;
  n ← get_Next now; p ← get_Prev now; set_Prev n p;;
  set_Prev now None;;
  set_Next now None.

(** One loop of [RemoveElement]; [dir] is [get_Next] from the head, or
    [get_Prev] from the tail, [lim] how many elements may still be removed. *)
Fixpoint Remove_loop (dir : option positive → LM (option positive)) (fuel : nat) (val : slice)
    (count removed : Z) (now stop : option positive) : LM Z :=
  if bool_decide (now = stop) || (count <=? removed) then mret removed
  else match fuel with
       | O => diverges
       | S fuel =>
           n ← deref now;
           if beq (str (Val n)) (str val) then
             tem ← dir now;
             unlink now;;
             add_len (-1);;
             Remove_loop dir fuel val count (removed + 1) tem stop
           else
             now ← dir now;
             Remove_loop dir fuel val count removed now stop
       end.

Definition List_RemoveElement (val : slice) (count : Z) : LM Z :=
  len ← List_Len;
  if len =? 0 then mret 0
  else
    let count := if count =? 0 then len else count in
    h ← head; t ← tail; fuel ← walk_fuel;
    if 0 <=? count then
      now ← get_Next h; Remove_loop get_Next fuel val count 0 now t
    else
      now ← get_Prev t; Remove_loop get_Prev fuel val (int64 (- count)) 0 now h.

Definition List_Clear : LM unit :=
  len ← List_Len;
  if len =? 0 then mret tt
  else
    h ← head; t ← tail;
    fist ← get_Next h;
    last ← get_Prev t;
    set_Next h t;;
    set_Prev t h;;
    store_len 0;;
    set_Prev fist None;;
    set_Next last None.

(** The search of [Trim] for the nodes at [start] and [stop]. *)
Fixpoint Trim_find (fuel : nat) (start stop pos : Z) (now t startNode : option positive)
    : LM (option positive * option positive) :=
  if decide (now = t) then mret (startNode, None)
  else match fuel with
       | O => diverges
       | S fuel =>
           let startNode := if pos =? start then now else startNode in
           if pos =? stop then mret (startNode, now)
           else nn ← get_Next now; Trim_find fuel start stop (pos + 1) nn t startNode
       end.

(** "remove discarded nodes for gc" *)
Definition Trim_cut (h t startNode endNode : option positive) : LM unit :=
  hn ← get_Next h; set_Prev hn None;;
  tp ← get_Prev t; set_Next tp None;;
  sp ← get_Prev startNode;
  (match sp with None => mret tt | _ => set_Next sp None end);;
  en ← get_Next endNode;
  match en with None => mret tt | _ => set_Prev en None end.

(** "link trimmed nodes to head and tail" *)
Definition Trim_link (h t startNode endNode : option positive) (n : Z) : LM unit :=
  set_Next h startNode;;
  set_Prev startNode h;;
  set_Prev t endNode;;
  set_Next endNode t;;
  store_len n.

Definition List_Trim (start stop : Z) : LM unit :=
  len ← List_Len;
  if len =? 0 then mret tt
  else
    match norm_range len start stop with
    | None => List_Clear
    | Some (start, stop) =>
        h ← head; t ← tail; fuel ← walk_fuel;
        now ← get_Next h;
        '(startNode, endNode) ← Trim_find fuel start stop 0 now t None;
        Trim_cut h t startNode endNode;;
        Trim_link h t startNode endNode (stop - start + 1)
    end.

(** The value of a node, as [e.Val] in the commands. *)
Definition node_Val (p : option positive) : LM slice := n ← deref p; mret (Val n).

(** ** Pointers as functions of the store *)
Section links.
Implicit Types (nd : gmap positive ListNode) (c ps : list positive).

Definition nxt nd (p : positive) : option positive := nd !! p ≫= Next.
Definition prv nd (p : positive) : option positive := nd !! p ≫= Prev.
Definition vl nd (p : positive) : option slice := Val <$> nd !! p.

Definition upd_next (p : positive) (v : option positive) nd :=
  alter (λ n, mkNode (Prev n) v (Val n)) p nd.
Definition upd_prev (p : positive) (v : option positive) nd :=
  alter (λ n, mkNode v (Next n) (Val n)) p nd.

Lemma nxt_upd_next p v nd x :
  p ∈ dom nd → nxt (upd_next p v nd) x = if decide (x = p) then v else nxt nd x.
Proof.
  intros [n Hn]%elem_of_dom. unfold nxt, upd_next. rewrite lookup_alter.
  repeat case_decide; subst; try done. by rewrite Hn.
Qed.
Lemma prv_upd_next p v nd x : prv (upd_next p v nd) x = prv nd x.
Proof.
  unfold prv, upd_next. rewrite lookup_alter. case_decide; subst; [|done]. by destruct (nd !! x).
Qed.
Lemma vl_upd_next p v nd x : vl (upd_next p v nd) x = vl nd x.
Proof.
  unfold vl, upd_next. rewrite lookup_alter. case_decide; subst; [|done]. by destruct (nd !! x).
Qed.
Lemma prv_upd_prev p v nd x :
  p ∈ dom nd → prv (upd_prev p v nd) x = if decide (x = p) then v else prv nd x.
Proof.
  intros [n Hn]%elem_of_dom. unfold prv, upd_prev. rewrite lookup_alter.
  repeat case_decide; subst; try done. by rewrite Hn.
Qed.
Lemma nxt_upd_prev p v nd x : nxt (upd_prev p v nd) x = nxt nd x.
Proof.
  unfold nxt, upd_prev. rewrite lookup_alter. case_decide; subst; [|done]. by destruct (nd !! x).
Qed.
Lemma vl_upd_prev p v nd x : vl (upd_prev p v nd) x = vl nd x.
Proof.
  unfold vl, upd_prev. rewrite lookup_alter. case_decide; subst; [|done]. by destruct (nd !! x).
Qed.
Lemma dom_upd_next p v nd : dom (upd_next p v nd) = dom nd.
Proof. apply dom_alter_L. Qed.
Lemma dom_upd_prev p v nd : dom (upd_prev p v nd) = dom nd.
Proof. apply dom_alter_L. Qed.

Lemma nxt_insert q n nd x : nxt (<[q := n]> nd) x = if decide (x = q) then Next n else nxt nd x.
Proof. unfold nxt. rewrite lookup_insert. repeat case_decide; subst; done. Qed.
Lemma prv_insert q n nd x : prv (<[q := n]> nd) x = if decide (x = q) then Prev n else prv nd x.
Proof. unfold prv. rewrite lookup_insert. repeat case_decide; subst; done. Qed.
Lemma vl_insert q n nd x : vl (<[q := n]> nd) x = if decide (x = q) then Some (Val n) else vl nd x.
Proof. unfold vl. rewrite lookup_insert. repeat case_decide; subst; done. Qed.

Lemma nxt_dom nd p x : nxt nd p = Some x → p ∈ dom nd.
Proof. unfold nxt. rewrite elem_of_dom. destruct (nd !! p); [eauto|done]. Qed.
Lemma prv_dom nd p x : prv nd p = Some x → p ∈ dom nd.
Proof. unfold prv. rewrite elem_of_dom. destruct (nd !! p); [eauto|done]. Qed.

(** Consecutive nodes of [c] point at each other. *)
Fixpoint links nd c : Prop :=
  match c with
  | a :: ((b :: _) as c) => nxt nd a = Some b ∧ prv nd b = Some a ∧ links nd c
  | _ => True
  end.

Lemma links_app nd c1 x c2 :
  links nd (c1 ++ x :: c2) ↔ links nd (c1 ++ [x]) ∧ links nd (x :: c2).
Proof.
  induction c1 as [|a [|b c1] IH]; cbn [app].
  - cbn. naive_solver.
  - cbn [links]. cbn. tauto.
  - cbn [app] in IH. cbn [links]. rewrite IH. cbn [links]. tauto.
Qed.

Lemma links_mono nd nd' c :
  links nd c →
  (∀ y z, y ∈ c → z ∈ c → nxt nd y = Some z → prv nd z = Some y →
     nxt nd' y = Some z ∧ prv nd' z = Some y) →
  links nd' c.
Proof.
  induction c as [|a [|b c] IH]; intros Hl Hm; [done..|].
  destruct Hl as (Hn & Hp & Hl). destruct (Hm a b) as [? ?]; [set_solver..|].
  cbn [links]. split_and!; [done..|]. apply IH; [done|]. intros y z Hy Hz. apply Hm; set_solver.
Qed.

Lemma links_middle nd c1 a b c2 :
  links nd (c1 ++ a :: b :: c2) ↔
  links nd (c1 ++ [a]) ∧ nxt nd a = Some b ∧ prv nd b = Some a ∧ links nd (b :: c2).
Proof. rewrite links_app. cbn [links]. tauto. Qed.

(** A new node between two neighbours. *)
Lemma links_insert nd nd' c1 a b c2 q :
  NoDup (c1 ++ a :: b :: c2) → q ∉ c1 ++ a :: b :: c2 → links nd (c1 ++ a :: b :: c2) →
  nxt nd' a = Some q → prv nd' q = Some a → nxt nd' q = Some b → prv nd' b = Some q →
  (∀ x, x ≠ a → x ≠ q → nxt nd' x = nxt nd x) → (∀ x, x ≠ b → x ≠ q → prv nd' x = prv nd x) →
  links nd' (c1 ++ a :: q :: b :: c2).
Proof.
  intros Hnd Hq Hl H1 H2 H3 H4 Hn Hp. apply links_middle in Hl as (L1 & Na & Pb & L2).
  apply NoDup_app in Hnd as (Hnd1 & Hdis & Hnd2).
  rewrite !NoDup_cons in Hnd2. destruct Hnd2 as (Ha & Hb & Hnd2).
  apply links_middle. split_and!; [|done..|].
  - eapply links_mono; [done|]. intros y z Hy Hz Hny Hpz. rewrite Hn, Hp; [done|..]; set_solver.
  - change (links nd' ([q] ++ b :: c2)). apply links_app. split; [done|].
    eapply links_mono; [done|]. intros y z Hy Hz Hny Hpz. rewrite Hn, Hp; [done|..]; set_solver.
Qed.

(** Taking a node out. *)
Lemma links_delete nd nd' c1 a x b c2 :
  NoDup (c1 ++ a :: x :: b :: c2) → links nd (c1 ++ a :: x :: b :: c2) →
  nxt nd' a = Some b → prv nd' b = Some a →
  (∀ y, y ≠ a → y ≠ x → nxt nd' y = nxt nd y) → (∀ y, y ≠ b → y ≠ x → prv nd' y = prv nd y) →
  links nd' (c1 ++ a :: b :: c2).
Proof.
  intros Hnd Hl H1 H2 Hn Hp. apply links_middle in Hl as (L1 & Na & Px & (Nx & Pb & L2)).
  apply NoDup_app in Hnd as (Hnd1 & Hdis & Hnd2).
  rewrite !NoDup_cons in Hnd2. destruct Hnd2 as (Ha & Hx & Hb & Hnd2).
  apply links_middle. split_and!; [|done..|].
  - eapply links_mono; [done|]. intros y z Hy Hz Hny Hpz. rewrite Hn, Hp; [done|..]; set_solver.
  - eapply links_mono; [done|]. intros y z Hy Hz Hny Hpz. rewrite Hn, Hp; [done|..]; set_solver.
Qed.
End links.

Create Rewrite HintDb nodes.
#[export] Hint Rewrite nxt_upd_prev prv_upd_next vl_upd_next vl_upd_prev dom_upd_next dom_upd_prev
  nxt_insert prv_insert vl_insert : nodes.

(** ** Representation: a well-formed list holds the values [vs] *)
Definition chain (l : List) (ps : list positive) : list positive := Head l :: ps ++ [Tail l].

Definition rep_at (l : List) (ps : list positive) (vs : list slice) : Prop :=
  NoDup (chain l ps) ∧ links (nodes l) (chain l ps) ∧
  vl (nodes l) <$> ps = Some <$> vs ∧ len l = zlen vs ∧ zlen vs <= MaxInt64.

Definition rep (l : List) (vs : list slice) : Prop := ∃ ps, rep_at l ps vs.

Definition with_nodes (l : List) (nd : gmap positive ListNode) : List :=
  mkList nd (Head l) (Tail l) (len l).

Lemma get_Next_ok l p : p ∈ dom (nodes l) → get_Next (Some p) l = (Ret (nxt (nodes l) p), l).
Proof. intros [n Hn]%elem_of_dom. unfold get_Next, nxt.
  erewrite bind_Ret by (unfold deref; cbn; by rewrite Hn). by rewrite Hn. Qed.
Lemma get_Prev_ok l p : p ∈ dom (nodes l) → get_Prev (Some p) l = (Ret (prv (nodes l) p), l).
Proof. intros [n Hn]%elem_of_dom. unfold get_Prev, prv.
  erewrite bind_Ret by (unfold deref; cbn; by rewrite Hn). by rewrite Hn. Qed.
Lemma set_Next_ok l p v :
  p ∈ dom (nodes l) → set_Next (Some p) v l = (Ret tt, with_nodes l (upd_next p v (nodes l))).
Proof.
  intros [n Hn]%elem_of_dom. unfold set_Next, write_node. rewrite Hn. unfold with_nodes, upd_next.
  do 2 f_equal. apply map_eq. intros i.
  rewrite lookup_insert, lookup_alter. case_decide; subst; [by rewrite Hn|done].
Qed.
Lemma set_Prev_ok l p v :
  p ∈ dom (nodes l) → set_Prev (Some p) v l = (Ret tt, with_nodes l (upd_prev p v (nodes l))).
Proof.
  intros [n Hn]%elem_of_dom. unfold set_Prev, write_node. rewrite Hn. unfold with_nodes, upd_prev.
  do 2 f_equal. apply map_eq. intros i.
  rewrite lookup_insert, lookup_alter. case_decide; subst; [by rewrite Hn|done].
Qed.

(** Every node of the chain is allocated. *)
Lemma links_dom nd a c x : links nd (a :: c) → c ≠ [] → x ∈ a :: c → x ∈ dom nd.
Proof.
  revert a. induction c as [|b c IH]; intros a Hl Hc Hx; [done|].
  destruct Hl as (Hn & Hp & Hl). apply elem_of_cons in Hx as [->|Hx]; [by eapply nxt_dom|].
  destruct c; [|by apply (IH b)]. apply list_elem_of_singleton in Hx as ->. by eapply prv_dom.
Qed.

Lemma chain_dom l ps vs x : rep_at l ps vs → x ∈ chain l ps → x ∈ dom (nodes l).
Proof. intros (_ & Hl & _). apply links_dom; [done|by destruct ps]. Qed.

Lemma rep_length l ps vs : rep_at l ps vs → length ps = length vs.
Proof. intros (_ & _ & Hv & _). apply (f_equal length) in Hv. by rewrite !length_fmap in Hv. Qed.

Lemma rep_insert l l' ps1 ps2 vs1 vs2 c1 a b c2 q v :
  rep_at l (ps1 ++ ps2) (vs1 ++ vs2) → length ps1 = length vs1 →
  Head l :: ps1 = c1 ++ [a] → ps2 ++ [Tail l] = b :: c2 → q ∉ dom (nodes l) →
  zlen (vs1 ++ vs2) < MaxInt64 →
  Head l' = Head l → Tail l' = Tail l → len l' = int64 (len l + 1) →
  nxt (nodes l') a = Some q → prv (nodes l') q = Some a →
  nxt (nodes l') q = Some b → prv (nodes l') b = Some q →
  (∀ x, x ≠ a → x ≠ q → nxt (nodes l') x = nxt (nodes l) x) →
  (∀ x, x ≠ b → x ≠ q → prv (nodes l') x = prv (nodes l) x) →
  (∀ x, vl (nodes l') x = if decide (x = q) then Some v else vl (nodes l) x) →
  rep_at l' (ps1 ++ q :: ps2) (vs1 ++ v :: vs2).
Proof.
  intros Hr Hlen E1 E2 Hq Hmax HH HT Hl H1 H2 H3 H4 Hn Hp Hv.
  assert (q ∉ chain l (ps1 ++ ps2)) as Hqc by (intros ?; by eapply Hq, chain_dom).
  pose proof Hr as (Hnd & Hlinks & Hvals & Hlen' & Hmx).
  assert (chain l (ps1 ++ ps2) = c1 ++ a :: b :: c2) as Ec.
  { unfold chain. rewrite <- app_assoc, E2, app_comm_cons, E1. by rewrite <- app_assoc. }
  assert (chain l' (ps1 ++ q :: ps2) = c1 ++ a :: q :: b :: c2) as Ec'.
  { unfold chain. rewrite HH, HT, <- app_assoc. cbn [app]. rewrite E2, app_comm_cons, E1.
    by rewrite <- app_assoc. }
  rewrite Ec in *. rewrite zlen_app in *.
  split_and!.
  - rewrite Ec'.
    assert (c1 ++ a :: q :: b :: c2 ≡ₚ q :: c1 ++ a :: b :: c2) as ->.
    { rewrite (cons_middle a c1), (cons_middle a c1 (b :: c2)), !app_assoc.
      symmetry. apply Permutation_middle. }
    by apply NoDup_cons.
  - rewrite Ec'. by eapply (links_insert (nodes l)).
  - assert (∀ x, x ∈ ps1 ++ ps2 → x ≠ q) as Hne.
    { intros x Hx ->. apply Hqc. rewrite <- Ec. unfold chain. set_solver. }
    rewrite !fmap_app in *. cbn. rewrite Hv, decide_True by done.
    apply app_inj_1 in Hvals as [Hv1 Hv2]; [|by rewrite !length_fmap].
    f_equal; [rewrite <- Hv1|f_equal; rewrite <- Hv2]; apply list_fmap_ext; intros i x Hx;
      apply list_elem_of_lookup_2 in Hx; rewrite Hv, decide_False; (done || apply Hne; set_solver).
  - rewrite Hl, Hlen', int64_id; autorewrite with zlen; [lia|].
    pose proof (zlen_nonneg vs1). pose proof (zlen_nonneg vs2). unfold in_int64, MinInt64. lia.
  - autorewrite with zlen. lia.
Qed.

Lemma rep_delete l l' ps1 x ps2 vs1 v vs2 c1 a b c2 :
  rep_at l (ps1 ++ x :: ps2) (vs1 ++ v :: vs2) → length ps1 = length vs1 →
  Head l :: ps1 = c1 ++ [a] → ps2 ++ [Tail l] = b :: c2 →
  Head l' = Head l → Tail l' = Tail l → len l' = int64 (len l + -1) →
  nxt (nodes l') a = Some b → prv (nodes l') b = Some a →
  (∀ y, y ≠ a → y ≠ x → nxt (nodes l') y = nxt (nodes l) y) →
  (∀ y, y ≠ b → y ≠ x → prv (nodes l') y = prv (nodes l) y) →
  (∀ y, vl (nodes l') y = vl (nodes l) y) →
  rep_at l' (ps1 ++ ps2) (vs1 ++ vs2).
Proof.
  intros Hr Hlen E1 E2 HH HT Hl H1 H2 Hn Hp Hv.
  pose proof Hr as (Hnd & Hlinks & Hvals & Hlen' & Hmx).
  assert (chain l (ps1 ++ x :: ps2) = c1 ++ a :: x :: b :: c2) as Ec.
  { unfold chain. rewrite <- app_assoc. cbn [app]. rewrite E2, app_comm_cons, E1.
    by rewrite <- app_assoc. }
  assert (chain l' (ps1 ++ ps2) = c1 ++ a :: b :: c2) as Ec'.
  { unfold chain. rewrite HH, HT, <- app_assoc, E2, app_comm_cons, E1. by rewrite <- app_assoc. }
  rewrite Ec in *. autorewrite with zlen in *. pose proof (zlen_nonneg vs1). pose proof (zlen_nonneg vs2).
  split_and!.
  - rewrite Ec'.
    assert (c1 ++ a :: x :: b :: c2 ≡ₚ x :: c1 ++ a :: b :: c2) as Hp'.
    { rewrite (cons_middle a c1), (cons_middle a c1 (b :: c2)), !app_assoc.
      symmetry. apply Permutation_middle. }
    rewrite Hp' in Hnd. by apply NoDup_cons in Hnd as [_ Hnd].
  - rewrite Ec'. by eapply (links_delete (nodes l)).
  - rewrite !fmap_app in *. cbn in Hvals.
    apply app_inj_1 in Hvals as [Hv1 Hv2]; [|by rewrite !length_fmap]. injection Hv2 as _ Hv2.
    f_equal; [rewrite <- Hv1|rewrite <- Hv2]; apply list_fmap_ext; intros; apply Hv.
  - rewrite Hl, Hlen', int64_id; autorewrite with zlen; [lia|].
    unfold in_int64, MinInt64. lia.
  - autorewrite with zlen. lia.
Qed.

(** Side conditions of the node operations. *)
Ltac ldom := cbn [nodes with_nodes]; autorewrite with nodes; rewrite ?dom_insert; set_solver.

Ltac lstep :=
  first
    [ erewrite bind_Ret by (apply get_Next_ok; ldom)
    | erewrite bind_Ret by (apply get_Prev_ok; ldom)
    | erewrite bind_Ret by (apply set_Next_ok; ldom)
    | erewrite bind_Ret by (apply set_Prev_ok; ldom) ];
  cbn [nodes with_nodes Head Tail len].

(** Evaluation of the pointer functions after a sequence of updates. *)
Ltac lsolve :=
  cbn [nodes with_nodes Head Tail len Prev Next Val];
  repeat first
    [ progress autorewrite with nodes
    | rewrite nxt_upd_next by ldom
    | rewrite prv_upd_prev by ldom
    | case_decide ]; try done; try congruence.

Lemma fresh_node l : fresh (dom (nodes l)) ∉ dom (nodes l).
Proof. apply is_fresh. Qed.

(** The neighbours of the sentinels. *)
Lemma chain_first l ps : ∃ b c2, ps ++ [Tail l] = b :: c2 ∧ b ∈ chain l ps.
Proof. destruct ps as [|b ps]; eexists _, _; (split; [done|]); unfold chain; set_solver. Qed.
Lemma chain_last l ps : ∃ c1 a, Head l :: ps = c1 ++ [a] ∧ a ∈ chain l ps.
Proof.
  destruct (exists_last (l := Head l :: ps)) as (c1 & a & E); [done|]. exists c1, a.
  split; [done|]. unfold chain. rewrite app_comm_cons, E. set_solver.
Qed.

Lemma links_neighbours nd c1 a b c2 :
  links nd (c1 ++ a :: b :: c2) → nxt nd a = Some b ∧ prv nd b = Some a.
Proof. rewrite links_middle. tauto. Qed.

Lemma chain_split l ps1 ps2 c1 a b c2 :
  Head l :: ps1 = c1 ++ [a] → ps2 ++ [Tail l] = b :: c2 →
  chain l (ps1 ++ ps2) = c1 ++ a :: b :: c2.
Proof.
  intros E1 E2. unfold chain. by rewrite <- app_assoc, E2, app_comm_cons, E1, <- app_assoc.
Qed.

Lemma LPush_spec l ps vs v :
  rep_at l ps vs → zlen vs < MaxInt64 →
  ∃ l' q, List_LPush v l = (Ret tt, l') ∧ rep_at l' (q :: ps) (v :: vs).
Proof.
  intros Hr Hmax. destruct (chain_first l ps) as (b & c2 & E2 & Hb).
  pose proof (chain_dom _ _ _ _ Hr Hb) as Hbd.
  assert (Head l ∈ dom (nodes l)) as Hhd by (eapply chain_dom; [done|left]).
  pose proof Hr as (Hnd & Hlinks & _).
  assert (chain l ps = [] ++ Head l :: b :: c2) as Ec by (by apply (chain_split l [])).
  rewrite Ec in Hlinks, Hnd.
  destruct (links_neighbours _ _ _ _ _ Hlinks) as [Hn Hp].
  assert (Head l ≠ b) as Hne by (intros E; rewrite E in Hnd; cbn in Hnd; apply NoDup_cons in Hnd as [? _]; set_solver).
  pose proof (fresh_node l) as Hq. unfold List_LPush.
  erewrite bind_Ret by done. lstep. rewrite Hn. erewrite bind_Ret by done.
  set (q := fresh (dom (nodes l))) in *. clearbody q.
  assert (q ≠ Head l ∧ q ≠ b) as [? ?] by set_solver.
  do 2 lstep. replace (nxt _ q) with (Some b) by (symmetry; lsolve). lstep.
  eexists _, q. split; [done|].
  eapply (rep_insert l _ [] ps [] vs [] (Head l) b c2 q v); cbn [nodes Head Tail len]; try done;
    intros; lsolve.
Qed.

(** What the neighbours [a] and [b] of a gap know about each other. *)
Lemma gap_facts l ps1 ps2 vs c1 a b c2 :
  rep_at l (ps1 ++ ps2) vs → Head l :: ps1 = c1 ++ [a] → ps2 ++ [Tail l] = b :: c2 →
  a ∈ dom (nodes l) ∧ b ∈ dom (nodes l) ∧ a ≠ b ∧
  nxt (nodes l) a = Some b ∧ prv (nodes l) b = Some a.
Proof.
  intros Hr E1 E2. pose proof (chain_split l ps1 ps2 c1 a b c2 E1 E2) as Ec.
  pose proof Hr as (Hnd & Hlinks & _). rewrite Ec in Hnd, Hlinks.
  destruct (links_neighbours _ _ _ _ _ Hlinks). split_and!; try done.
  - eapply chain_dom; [done|]. rewrite Ec. set_solver.
  - eapply chain_dom; [done|]. rewrite Ec. set_solver.
  - intros ->. apply NoDup_app in Hnd as (_ & _ & Hnd). apply NoDup_cons in Hnd as [? _]. set_solver.
Qed.

Lemma RPush_spec l ps vs v :
  rep_at l ps vs → zlen vs < MaxInt64 →
  ∃ l' q, List_RPush v l = (Ret tt, l') ∧ rep_at l' (ps ++ [q]) (vs ++ [v]).
Proof.
  intros Hr Hmax. destruct (chain_last l ps) as (c1 & a & E1 & _).
  pose proof Hr as Hr0. rewrite <- (app_nil_r ps), <- (app_nil_r vs) in Hr.
  destruct (gap_facts l ps [] _ c1 a (Tail l) [] Hr E1 eq_refl) as (Had & Htd & Hne & Hn & Hp).
  pose proof (fresh_node l) as Hq. unfold List_RPush.
  erewrite bind_Ret by done. lstep. rewrite Hp. erewrite bind_Ret by done.
  set (q := fresh (dom (nodes l))) in *. clearbody q.
  assert (q ≠ Tail l ∧ q ≠ a) as [? ?] by set_solver.
  do 2 lstep. replace (prv _ q) with (Some a) by (symmetry; lsolve). lstep.
  eexists _, q. split; [done|].
  eapply (rep_insert l _ ps [] vs [] c1 a (Tail l) [] q v); cbn [nodes Head Tail len]; try done;
    try (intros; lsolve); by (rewrite ?app_nil_r; eauto using rep_length).
Qed.

(** The neighbours of a node of the list. *)
Lemma node_facts l ps1 x ps2 vs c1 a b c2 :
  rep_at l (ps1 ++ x :: ps2) vs → Head l :: ps1 = c1 ++ [a] → ps2 ++ [Tail l] = b :: c2 →
  a ∈ dom (nodes l) ∧ x ∈ dom (nodes l) ∧ b ∈ dom (nodes l) ∧ a ≠ x ∧ x ≠ b ∧ a ≠ b ∧
  nxt (nodes l) a = Some x ∧ prv (nodes l) x = Some a ∧
  nxt (nodes l) x = Some b ∧ prv (nodes l) b = Some x.
Proof.
  intros Hr E1 E2.
  destruct (gap_facts l ps1 (x :: ps2) vs c1 a x (b :: c2) Hr E1) as (Ha & Hx & Hax & Hn & Hp); [by rewrite <- E2|].
  destruct (gap_facts l (ps1 ++ [x]) ps2 vs (c1 ++ [a]) x b c2) as (_ & Hb & Hxb & Hn' & Hp').
  { by rewrite <- app_assoc. } { by rewrite app_comm_cons, E1. } { done. }
  split_and!; try done. intros ->. pose proof Hr as (Hnd & _).
  rewrite (chain_split l ps1 (x :: ps2) c1 b x (b :: c2)) in Hnd; [|done|by rewrite <- E2].
  apply NoDup_app in Hnd as (_ & _ & Hnd). apply NoDup_cons in Hnd as [? _]. set_solver.
Qed.

Lemma LPop_spec l x ps v vs :
  rep_at l (x :: ps) (v :: vs) →
  ∃ l', List_LPop l = (Ret (Some x), l') ∧ rep_at l' ps vs ∧ vl (nodes l') x = Some v.
Proof.
  intros Hr. destruct (chain_first l ps) as (b & c2 & E2 & _).
  destruct (node_facts l [] x ps _ [] (Head l) b c2 Hr eq_refl E2)
    as (Ha & Hx & Hb & Hax & Hxb & Hab & Hna & Hpx & Hnx & Hpb).
  pose proof Hr as (_ & _ & Hvals & Hlen & _). cbn in Hvals. injection Hvals as Hv _.
  unfold List_LPop. erewrite bind_Ret by done. rewrite Hlen, zlen_cons.
  pose proof (zlen_nonneg vs). destruct (Z.eqb_spec (1 + zlen vs) 0); [lia|].
  erewrite bind_Ret by done. lstep. rewrite Hna. lstep. rewrite Hnx. do 2 lstep.
  replace (nxt _ x) with (Some b) by (symmetry; lsolve). do 3 lstep.
  erewrite bind_Ret by done. eexists. split; [done|]. split; [|lsolve].
  eapply (rep_delete l _ [] x ps [] v vs [] (Head l) b c2); try done; intros; lsolve.
Qed.

Lemma RPop_spec l x ps v vs :
  rep_at l (ps ++ [x]) (vs ++ [v]) →
  ∃ l', List_RPop l = (Ret (Some x), l') ∧ rep_at l' ps vs ∧ vl (nodes l') x = Some v.
Proof.
  intros Hr. destruct (chain_last l ps) as (c1 & a & E1 & _).
  destruct (node_facts l ps x [] _ c1 a (Tail l) [] Hr E1 eq_refl)
    as (Ha & Hx & Hb & Hax & Hxb & Hab & Hna & Hpx & Hnx & Hpb).
  pose proof Hr as (_ & _ & Hvals & Hlen & _). rewrite !fmap_app in Hvals.
  apply app_inj_tail in Hvals as [_ Hv].
  unfold List_RPop. erewrite bind_Ret by done. rewrite Hlen. autorewrite with zlen.
  pose proof (zlen_nonneg vs). destruct (Z.eqb_spec (zlen vs + (1 + 0)) 0); [lia|].
  erewrite bind_Ret by done. lstep. rewrite Hpb. lstep. rewrite Hpx. do 2 lstep.
  replace (prv _ x) with (Some a) by (symmetry; lsolve). do 3 lstep.
  erewrite bind_Ret by done. eexists. split; [done|]. split; [|lsolve].
  pose proof (rep_length _ _ _ Hr) as Hl. rewrite !length_app in Hl. cbn in Hl.
  rewrite <- (app_nil_r ps), <- (app_nil_r vs).
  eapply (rep_delete l _ ps x [] vs v [] c1 a (Tail l) []); try done; try (intros; lsolve). lia.
Qed.

Lemma LPop_nil l ps : rep_at l ps [] → List_LPop l = (Ret None, l).
Proof. intros (_ & _ & _ & Hlen & _). unfold List_LPop. erewrite bind_Ret by done. by rewrite Hlen. Qed.
Lemma RPop_nil l ps : rep_at l ps [] → List_RPop l = (Ret None, l).
Proof. intros (_ & _ & _ & Hlen & _). unfold List_RPop. erewrite bind_Ret by done. by rewrite Hlen. Qed.

(** [unlink] and the length update remove one node. *)
Lemma unlink_spec l ps1 x ps2 vs1 v vs2 :
  rep_at l (ps1 ++ x :: ps2) (vs1 ++ v :: vs2) → length ps1 = length vs1 →
  ∃ l', (unlink (Some x);; add_len (-1)) l = (Ret tt, l') ∧ rep_at l' (ps1 ++ ps2) (vs1 ++ vs2) ∧
    Head l' = Head l ∧ Tail l' = Tail l.
Proof.
  intros Hr Hlen. destruct (chain_first l ps2) as (b & c2 & E2 & _).
  destruct (chain_last l ps1) as (c1 & a & E1 & _).
  destruct (node_facts l ps1 x ps2 _ c1 a b c2 Hr E1 E2)
    as (Ha & Hx & Hb & Hax & Hxb & Hab & Hna & Hpx & Hnx & Hpb).
  unfold unlink. rewrite !bind_assoc. lstep. rewrite Hpx. rewrite bind_assoc. lstep. rewrite Hnx.
  rewrite bind_assoc. lstep. rewrite bind_assoc. lstep.
  replace (nxt _ x) with (Some b) by (symmetry; lsolve).
  rewrite bind_assoc. lstep. replace (prv _ x) with (Some a) by (symmetry; lsolve).
  rewrite bind_assoc. lstep. rewrite bind_assoc. do 2 lstep.
  eexists. split; [done|]. split; [|done].
  eapply (rep_delete l _ ps1 x ps2 vs1 v vs2 c1 a b c2); try done; intros; lsolve.
Qed.

(** ** Walking along the list *)
Definition first (t : positive) (ps : list positive) : option positive := Some (List.hd t ps).
Definition final (h : positive) (ps : list positive) : option positive := Some (default h (last ps)).

Lemma final_snoc h ps x : final h (ps ++ [x]) = Some x.
Proof. unfold final. by rewrite last_snoc. Qed.

Lemma node_at l ps1 x ps2 vs1 v vs2 :
  rep_at l (ps1 ++ x :: ps2) (vs1 ++ v :: vs2) → length ps1 = length vs1 →
  ∃ n, nodes l !! x = Some n ∧ Val n = v ∧ Next n = first (Tail l) ps2 ∧ Prev n = final (Head l) ps1 ∧
    x ≠ Tail l ∧ x ≠ Head l.
Proof.
  intros Hr Hlen. destruct (chain_first l ps2) as (b & c2 & E2 & _).
  destruct (chain_last l ps1) as (c1 & a & E1 & _).
  destruct (node_facts l ps1 x ps2 _ c1 a b c2 Hr E1 E2) as (_ & Hx & _ & _ & _ & _ & _ & Hpx & Hnx & _).
  apply elem_of_dom in Hx as [n Hn]. exists n. unfold nxt, prv in *. rewrite Hn in *. cbn in *.
  pose proof Hr as (Hnd & _ & Hvals & _). rewrite !fmap_app in Hvals. cbn in Hvals.
  apply app_inj_1 in Hvals as [_ Hv]; [|by rewrite !length_fmap]. injection Hv as Hv _.
  unfold vl in Hv. rewrite Hn in Hv. cbn in Hv. split_and!; [done|congruence|..].
  - rewrite Hnx. unfold first. by destruct ps2; simplify_eq/=.
  - rewrite Hpx. unfold final. destruct ps1 as [|p ps1 _] using rev_ind.
    + by destruct c1 as [|? []]; simplify_eq/=.
    + rewrite last_snoc, app_comm_cons in *. by apply app_inj_tail in E1 as [_ ->].
  - intros ->. unfold chain in Hnd. rewrite NoDup_cons, NoDup_app in Hnd. set_solver.
  - intros ->. unfold chain in Hnd. rewrite NoDup_cons in Hnd. set_solver.
Qed.

Lemma deref_ok l p n : nodes l !! p = Some n → deref (Some p) l = (Ret n, l).
Proof. intros E. unfold deref. cbn. by rewrite E. Qed.

Lemma walk_fuel_ok l ps vs : rep_at l ps vs → (length ps <= size (nodes l))%nat.
Proof.
  intros Hr. pose proof Hr as (Hnd & _).
  assert (length (chain l ps) = size (list_to_set (C := gset positive) (chain l ps))) as E
    by (by rewrite size_list_to_set).
  assert (list_to_set (chain l ps) ⊆ dom (nodes l)) as Hsub.
  { intros x Hx%elem_of_list_to_set. by eapply chain_dom. }
  apply subseteq_size in Hsub. rewrite size_dom, <- E in Hsub.
  unfold chain in Hsub. cbn [length] in Hsub. rewrite length_app in Hsub. lia.
Qed.

(** Starting points of the loops. *)
Lemma head_next l ps vs : rep_at l ps vs → get_Next (Some (Head l)) l = (Ret (first (Tail l) ps), l).
Proof.
  intros Hr. destruct (chain_first l ps) as (b & c2 & E2 & _).
  destruct (gap_facts l [] ps vs [] (Head l) b c2 Hr eq_refl E2) as (Hd & _ & _ & Hn & _).
  rewrite get_Next_ok by done. rewrite Hn. unfold first. by destruct ps; simplify_eq/=.
Qed.
Lemma tail_prev l ps vs : rep_at l ps vs → get_Prev (Some (Tail l)) l = (Ret (final (Head l) ps), l).
Proof.
  intros Hr. destruct (chain_last l ps) as (c1 & a & E1 & _). rewrite <- (app_nil_r ps) in Hr.
  destruct (gap_facts l ps [] vs c1 a (Tail l) [] Hr E1 eq_refl) as (_ & Hd & _ & _ & Hp).
  rewrite get_Prev_ok by done. rewrite Hp. unfold final. destruct ps as [|p ps _] using rev_ind.
  - by destruct c1 as [|? []]; simplify_eq/=.
  - rewrite last_snoc, app_comm_cons in *. by apply app_inj_tail in E1 as [_ ->].
Qed.

(** ** Reading operations *)

(** The position of the first element equal to [val], counted from [i]. *)
Fixpoint find_pos (val : slice) (vs : list slice) (i : Z) : Z :=
  match vs with
  | [] => -1
  | v :: vs => if beq (str v) (str val) then i else find_pos val vs (i + 1)
  end.

Lemma Pos_loop_spec l val : ∀ ps2 vs2 fuel ps1 vs1 pos,
  rep_at l (ps1 ++ ps2) (vs1 ++ vs2) → length ps1 = length vs1 → (length ps2 <= fuel)%nat →
  Pos_loop fuel val (first (Tail l) ps2) (Some (Tail l)) pos l = (Ret (find_pos val vs2 pos), l).
Proof.
  induction ps2 as [|x ps2 IH]; intros vs2 fuel ps1 vs1 pos Hr Hlen Hf;
    pose proof (rep_length _ _ _ Hr) as Hl; rewrite !length_app in Hl;
    destruct vs2 as [|v vs2]; try (cbn in Hl; lia).
  - destruct fuel; cbn; by rewrite decide_True.
  - destruct fuel as [|fuel]; [cbn in Hf; lia|]. cbn [Pos_loop find_pos].
    destruct (node_at _ _ _ _ _ _ _ Hr Hlen) as (n & Hn & Hv & Hnx & _ & Ht & _).
    rewrite decide_False by (unfold first; cbn; congruence). erewrite bind_Ret by (by apply deref_ok).
    rewrite Hv. destruct (beq (str v) (str val)); [done|]. rewrite Hnx.
    apply (IH vs2 fuel (ps1 ++ [x]) (vs1 ++ [v])); [by rewrite <- !app_assoc| |cbn in Hf; lia].
    rewrite !length_app. cbn. lia.
Qed.

Lemma Pos_spec l vs val : rep l vs → List_Pos val l = (Ret (find_pos val vs 0), l).
Proof.
  intros [ps Hr]. unfold List_Pos. do 3 (erewrite bind_Ret by done).
  erewrite bind_Ret by (by eapply head_next).
  apply (Pos_loop_spec l val ps vs _ [] []); [done..|]. by eapply walk_fuel_ok.
Qed.

(** The elements at positions [start..stop], when the first has position [i]. *)
Fixpoint sel (i start stop : Z) (vs : list slice) : list slice :=
  match vs with
  | [] => []
  | v :: vs => if i <=? stop then (if start <=? i then [v] else []) ++ sel (i + 1) start stop vs else []
  end.

Lemma Range_loop_spec l start stop : ∀ ps2 vs2 fuel ps1 vs1 i res,
  rep_at l (ps1 ++ ps2) (vs1 ++ vs2) → length ps1 = length vs1 → (length ps2 <= fuel)%nat →
  Range_loop fuel i start stop (first (Tail l) ps2) (Some (Tail l)) res l =
  (Ret (res ++ sel i start stop vs2), l).
Proof.
  induction ps2 as [|x ps2 IH]; intros vs2 fuel ps1 vs1 i res Hr Hlen Hf;
    pose proof (rep_length _ _ _ Hr) as Hl; rewrite !length_app in Hl;
    destruct vs2 as [|v vs2]; try (cbn in Hl; lia).
  - destruct fuel; cbn [Range_loop sel first List.hd]; rewrite bool_decide_true by done;
      by rewrite andb_false_r, app_nil_r.
  - destruct fuel as [|fuel]; [cbn in Hf; lia|]. cbn [Range_loop sel].
    destruct (node_at _ _ _ _ _ _ _ Hr Hlen) as (n & Hn & Hv & Hnx & _ & Ht & _).
    rewrite bool_decide_false by (unfold first; cbn; congruence). rewrite andb_true_r.
    destruct (i <=? stop); [|by rewrite app_nil_r]. erewrite bind_Ret by (by apply deref_ok).
    rewrite Hv, Hnx. rewrite (IH vs2 fuel (ps1 ++ [x]) (vs1 ++ [v])).
    + destruct (start <=? i); [by rewrite <- app_assoc|done].
    + by rewrite <- !app_assoc.
    + rewrite !length_app. cbn. lia.
    + cbn in Hf. lia.
Qed.

Lemma sel_take_drop vs start stop i :
  0 <= start → i <= start →
  sel i start stop vs = take (Z.to_nat (stop - start + 1)) (drop (Z.to_nat (start - i)) vs).
Proof.
  revert i. induction vs as [|v vs IH]; intros i Hs Hi; [by rewrite drop_nil, take_nil|].
  cbn [sel]. destruct (Z.leb_spec i stop).
  - destruct (Z.leb_spec start i).
    + assert (i = start) as -> by lia. replace (Z.to_nat (start - start)) with 0%nat by lia. cbn.
      replace (Z.to_nat (stop - start + 1)) with (S (Z.to_nat (stop - start))) by lia. cbn. f_equal.
      clear IH Hi. assert (∀ vs j, start <= j → sel j start stop vs = take (Z.to_nat (stop - j + 1)) vs) as Hsel.
      { clear. induction vs as [|v vs IH]; intros j Hj; cbn; [by rewrite take_nil|].
        destruct (Z.leb_spec j stop); [|by replace (Z.to_nat (stop - j + 1)) with 0%nat by lia].
        destruct (Z.leb_spec start j); [|lia]. rewrite IH by lia.
        replace (Z.to_nat (stop - j + 1)) with (S (Z.to_nat (stop - (j + 1) + 1))) by lia. done. }
      rewrite Hsel by lia. f_equal. lia.
    + cbn. rewrite IH by lia.
      replace (Z.to_nat (start - i)) with (S (Z.to_nat (start - (i + 1)))) by lia. done.
  - replace (Z.to_nat (stop - start + 1)) with 0%nat by lia. done.
Qed.

(** [LRANGE]'s reference: negative positions count from the end, the range is
    clipped to the list. *)
Definition range_spec (vs : list slice) (start stop : Z) : list slice :=
  let n := zlen vs in
  let s := Z.max 0 (if start <? 0 then n + start else start) in
  let e := Z.min (n - 1) (if stop <? 0 then n + stop else stop) in
  take (Z.to_nat (e - s + 1)) (drop (Z.to_nat s) vs).

(** [norm_range] computes the clipped bounds of [range_spec]. *)
Lemma norm_range_spec vs start stop :
  zlen vs <= MaxInt64 → in_int64 start → in_int64 stop →
  match norm_range (zlen vs) start stop with
  | None => range_spec vs start stop = []
  | Some (s, e) => 0 <= s ∧ e < zlen vs ∧ (0 < zlen vs → s <= e) ∧
      range_spec vs start stop = take (Z.to_nat (e - s + 1)) (drop (Z.to_nat s) vs)
  end.
Proof.
  intros Hn Hs He. unfold norm_range, range_spec. pose proof (zlen_nonneg vs) as Hpos.
  unfold in_int64, MinInt64, MaxInt64 in *.
  assert (∀ x, x < 0 → - 2 ^ 63 <= x → int64 (zlen vs + x) = zlen vs + x) as Hw.
  { intros x Hx Hx'. apply int64_id. unfold in_int64, MinInt64, MaxInt64. lia. }
  set (s := if start <? 0 then int64 (zlen vs + start) else start).
  set (e := if stop <? 0 then int64 (zlen vs + stop) else stop).
  assert (s = if start <? 0 then zlen vs + start else start) as <-.
  { unfold s. destruct (Z.ltb_spec start 0); [|done]. apply Hw; lia. }
  assert (e = if stop <? 0 then zlen vs + stop else stop) as <-.
  { unfold e. destruct (Z.ltb_spec stop 0); [|done]. apply Hw; lia. }
  clearbody s e. destruct (Z.ltb_spec e s), (Z.leb_spec (zlen vs) s), (Z.ltb_spec e 0); cbn [orb].
  all: try (destruct (decide (Z.max 0 s < zlen vs));
    [replace (Z.to_nat _) with 0%nat by lia; done|
     rewrite drop_ge by (unfold zlen in *; lia); by rewrite take_nil]).
  replace (if s <? 0 then 0 else s) with (Z.max 0 s) by (case_bool; lia).
  replace (if zlen vs <=? e then zlen vs - 1 else e) with (Z.min (zlen vs - 1) e) by (case_bool; lia).
  split_and!; [lia..|done].
Qed.

Lemma Range_spec l vs start stop :
  rep l vs → in_int64 start → in_int64 stop →
  List_Range start stop l =
    (Ret (if norm_range (zlen vs) start stop is Some _ then Some (range_spec vs start stop) else None), l).
Proof.
  intros [ps Hr] Hs He. pose proof Hr as (_ & _ & _ & Hlen & Hmax). unfold List_Range.
  erewrite bind_Ret by done. rewrite Hlen. pose proof (norm_range_spec vs start stop Hmax Hs He) as Hn.
  destruct (norm_range (zlen vs) start stop) as [[s e]|]; [|done].
  destruct Hn as (Hse & He' & _ & ->). do 3 (erewrite bind_Ret by done).
  erewrite bind_Ret by (by eapply head_next).
  erewrite bind_Ret by (by apply (Range_loop_spec l s e ps vs _ [] []); [..|eapply walk_fuel_ok]).
  cbn [app]. rewrite sel_take_drop by lia. by rewrite Z.sub_0_r.
Qed.

(** The position [index] denotes in a list of [n] elements. *)
Definition index_spec (n index : Z) : option nat :=
  let i := if index <? 0 then n + index else index in
  if (0 <=? i) && (i <? n) then Some (Z.to_nat i) else None.

Lemma walk_next_spec l vs : ∀ k ps1 ps2 x,
  rep_at l (ps1 ++ ps2) vs → ps2 !! k = Some x →
  walk get_Next k (first (Tail l) ps2) l = (Ret (Some x), l).
Proof.
  induction k as [|k IH]; intros ps1 [|y ps2] x Hr Hx; try done.
  - by injection Hx as ->.
  - cbn [walk]. destruct (chain_first l ps2) as (b & c2 & E2 & _).
    destruct (chain_last l ps1) as (c1 & a & E1 & _).
    destruct (node_facts l ps1 y ps2 _ c1 a b c2 Hr E1 E2) as (_ & Hy & _ & _ & _ & _ & _ & _ & Hn & _).
    change (first (Tail l) (y :: ps2)) with (Some y).
    erewrite bind_Ret by (by apply get_Next_ok). rewrite Hn.
    replace (Some b) with (first (Tail l) ps2) by (unfold first; by destruct ps2; simplify_eq/=).
    apply (IH (ps1 ++ [y])); [by rewrite <- app_assoc|done].
Qed.

Lemma walk_prev_spec l vs : ∀ k ps1 ps2 x,
  rep_at l (ps1 ++ ps2) vs → (k < length ps1)%nat → ps1 !! (length ps1 - 1 - k)%nat = Some x →
  walk get_Prev k (final (Head l) ps1) l = (Ret (Some x), l).
Proof.
  induction k as [|k IH]; intros ps1 ps2 x Hr Hk Hx;
    destruct ps1 as [|y ps1 _] using rev_ind; try (cbn in Hk; lia);
    rewrite length_app in Hk, Hx; cbn in Hk, Hx; rewrite final_snoc.
  - rewrite lookup_app_r in Hx by lia. by replace (_ - _)%nat with 0%nat in Hx by lia; injection Hx as ->.
  - cbn [walk]. rewrite <- app_assoc in Hr. cbn in Hr.
    destruct (chain_first l ps2) as (b & c2 & E2 & _). destruct (chain_last l ps1) as (c1 & a & E1 & _).
    destruct (node_facts l ps1 y ps2 _ c1 a b c2 Hr E1 E2) as (_ & Hy & _ & _ & _ & _ & _ & Hp & _).
    erewrite bind_Ret by (by apply get_Prev_ok). rewrite Hp.
    replace (Some a) with (final (Head l) ps1).
    { apply (IH ps1 (y :: ps2)); [done|lia|]. rewrite <- Hx, lookup_app_l by lia. f_equal. lia. }
    unfold final. destruct ps1 as [|p ps1 _] using rev_ind.
    + by destruct c1 as [|? []]; simplify_eq/=.
    + rewrite last_snoc, app_comm_cons in *. by apply app_inj_tail in E1 as [_ ->].
Qed.

Lemma Index_spec l ps vs index :
  rep_at l ps vs → in_int64 index →
  List_Index index l = (Ret (index_spec (zlen vs) index ≫= λ i, ps !! i), l).
Proof.
  intros Hr Hi. pose proof Hr as (_ & _ & _ & Hlen & Hmax). pose proof (rep_length _ _ _ Hr) as Hl.
  unfold List_Index. erewrite bind_Ret by done. rewrite Hlen. unfold index_spec.
  pose proof (zlen_nonneg vs). unfold in_int64, MinInt64, MaxInt64 in *.
  replace (if index <? 0 then int64 (zlen vs + index) else index)
    with (if index <? 0 then zlen vs + index else index).
  2:{ case_bool; [|done]. rewrite int64_id; [done|]. unfold in_int64, MinInt64, MaxInt64. lia. }
  set (i := if index <? 0 then zlen vs + index else index).
  assert (((index <? 0) && (zlen vs <? int64 (- index)) || ((zlen vs <=? i) || (i <? 0))) =
          negb ((0 <=? i) && (i <? zlen vs))) as ->.
  { destruct (Z.ltb_spec index 0).
    - destruct (decide (index = - 2 ^ 63)) as [->|].
      + change (int64 (- - 2 ^ 63)) with (- 2 ^ 63).
        destruct (Z.ltb_spec (zlen vs) (- 2 ^ 63)); [lia|]. cbn [andb orb]. repeat case_bool; cbn; lia.
      + rewrite int64_id by (unfold in_int64, MinInt64, MaxInt64; lia).
        destruct (Z.ltb_spec (zlen vs) (- index)); cbn [andb orb]; [|repeat case_bool; cbn; lia].
        assert (i < 0) by (subst i; try case_bool; cbn; lia). repeat case_bool; cbn; lia.
    - cbn [andb orb]. repeat case_bool; cbn; lia. }
  destruct (Z.leb_spec 0 i), (Z.ltb_spec i (zlen vs)); cbn [andb negb]; try done.
  cbn. destruct (lookup_lt_is_Some_2 ps (Z.to_nat i)) as [x Hx]; [unfold zlen in *; lia|].
  rewrite Hx. destruct (Z.leb_spec i (Z.quot (zlen vs) 2)).
  - erewrite bind_Ret by done. erewrite bind_Ret by (by eapply head_next).
    by apply (walk_next_spec l vs _ [] ps).
  - erewrite bind_Ret by done. erewrite bind_Ret by (by eapply tail_prev).
    apply (walk_prev_spec l vs _ ps []); [by rewrite app_nil_r|unfold zlen in *; lia|].
    rewrite <- Hx. f_equal. unfold zlen in *. lia.
Qed.

(** ** Updates *)
Lemma List_Set_spec l ps vs index val :
  rep_at l ps vs → in_int64 index →
  ∃ l', List_Set index val l = (Ret (if index_spec (zlen vs) index is Some _ then true else false), l') ∧
    rep_at l' ps (match index_spec (zlen vs) index with Some i => <[i := val]> vs | None => vs end).
Proof.
  intros Hr Hi. unfold List_Set. erewrite bind_Ret by (by eapply Index_spec).
  pose proof (rep_length _ _ _ Hr) as Hl.
  destruct (index_spec (zlen vs) index) as [i|] eqn:Ei; cbn; [|by exists l].
  assert (i < length vs)%nat as Hlt.
  { unfold index_spec in Ei. revert Ei. unfold zlen. repeat case_bool; cbn; intros; simplify_eq; lia. }
  destruct (lookup_lt_is_Some_2 ps i) as [x Hx]; [lia|]. rewrite Hx.
  destruct Hr as (Hnd & Hlinks & Hvals & Hlen & Hmax).
  assert (x ∈ dom (nodes l)) as [n Hn]%elem_of_dom.
  { eapply links_dom; [done|by destruct ps|]. right. apply elem_of_app. left. by eapply list_elem_of_lookup_2. }
  erewrite bind_Ret by (unfold set_Val, write_node; by rewrite Hn).
  eexists. split; [done|]. split_and!; cbn [nodes len]; [done| | |..].
  - eapply links_mono; [done|]. intros y z _ _. cbn. rewrite nxt_insert, prv_insert. cbn.
    intros Hy Hz. unfold nxt, prv in *. split; case_decide; subst; try done; by rewrite Hn in *.
  - rewrite list_fmap_insert, <- Hvals. apply list_eq. intros j.
    rewrite list_lookup_insert, !list_lookup_fmap, length_fmap.
    destruct (decide (i = j ∧ (i < length ps)%nat)) as [[<- _]|Hne].
    + rewrite Hx. cbn. rewrite vl_insert, decide_True by done. done.
    + destruct (ps !! j) as [y|] eqn:Hy; [|done]. cbn. rewrite vl_insert, decide_False; [done|].
      intros ->. apply Hne. split; [|lia].
      apply NoDup_cons in Hnd as [_ Hnd]. apply NoDup_app in Hnd as [Hnd _].
      by eapply NoDup_lookup.
  - rewrite Hlen. unfold zlen. by rewrite length_insert.
  - unfold zlen in *. by rewrite length_insert.
Qed.

(** [vs] with [val] inserted before (after) the first element equal to [tar]. *)
Fixpoint insert_spec (after : bool) (val tar : slice) (vs : list slice) : list slice :=
  match vs with
  | [] => []
  | v :: vs =>
      if beq (str v) (str tar) then if after then v :: val :: vs else val :: v :: vs
      else v :: insert_spec after val tar vs
  end.

Lemma InsertBefore_loop_spec val tar : ∀ ps2 vs2 fuel l ps1 vs1 pos,
  rep_at l (ps1 ++ ps2) (vs1 ++ vs2) → length ps1 = length vs1 → (length ps2 <= fuel)%nat →
  zlen (vs1 ++ vs2) < MaxInt64 →
  ∃ l', InsertBefore_loop fuel val tar (first (Tail l) ps2) (Some (Tail l)) pos l =
    (Ret (find_pos tar vs2 pos), l') ∧ rep l' (vs1 ++ insert_spec false val tar vs2).
Proof.
  induction ps2 as [|x ps2 IH]; intros vs2 fuel l ps1 vs1 pos Hr Hlen Hf Hmax;
    pose proof (rep_length _ _ _ Hr) as Hl; rewrite !length_app in Hl;
    destruct vs2 as [|v vs2]; try (cbn in Hl; lia).
  - exists l. destruct fuel; cbn; rewrite decide_True by done; (split; [done|by eexists]).
  - destruct fuel as [|fuel]; [cbn in Hf; lia|]. cbn [InsertBefore_loop find_pos insert_spec].
    destruct (node_at _ _ _ _ _ _ _ Hr Hlen) as (n & Hn & Hv & Hnx & Hpv & Ht & _).
    rewrite decide_False by (unfold first; cbn; congruence). erewrite bind_Ret by (by apply deref_ok).
    rewrite Hv. destruct (beq (str v) (str tar)).
    + destruct (chain_last l ps1) as (c1 & a & E1 & _).
      destruct (gap_facts l ps1 (x :: ps2) _ c1 a x (ps2 ++ [Tail l]) Hr E1 eq_refl) as (Had & Hxd & Hne & Hna & Hpx).
      change (first (Tail l) (x :: ps2)) with (Some x). lstep. rewrite Hpx. erewrite bind_Ret by done.
      pose proof (fresh_node l) as Hq. set (q := fresh (dom (nodes l))) in *. clearbody q.
      assert (q ≠ x ∧ q ≠ a) as [? ?] by set_solver.
      do 2 lstep. replace (prv _ q) with (Some a) by (symmetry; lsolve). lstep.
      erewrite bind_Ret by done. eexists. split; [done|]. exists (ps1 ++ q :: x :: ps2).
      eapply (rep_insert l _ ps1 (x :: ps2) vs1 (v :: vs2) c1 a x (ps2 ++ [Tail l]) q val); try done;
        intros; lsolve.
    + rewrite Hnx. destruct (IH vs2 fuel l (ps1 ++ [x]) (vs1 ++ [v]) (pos + 1)) as (l' & E & Hrep).
      * by rewrite <- !app_assoc.
      * rewrite !length_app. cbn. lia.
      * cbn in Hf. lia.
      * by rewrite <- app_assoc.
      * exists l'. rewrite <- app_assoc in Hrep. done.
Qed.

Lemma InsertAfter_loop_spec val tar : ∀ ps2 vs2 fuel l ps1 vs1 pos,
  rep_at l (ps1 ++ ps2) (vs1 ++ vs2) → length ps1 = length vs1 → (length ps2 <= fuel)%nat →
  zlen (vs1 ++ vs2) < MaxInt64 → 0 <= pos →
  ∃ l', InsertAfter_loop fuel val tar (first (Tail l) ps2) (Some (Tail l)) pos l =
    (Ret (if find_pos tar vs2 pos =? -1 then -1 else find_pos tar vs2 pos + 1), l') ∧
    rep l' (vs1 ++ insert_spec true val tar vs2).
Proof.
  induction ps2 as [|x ps2 IH]; intros vs2 fuel l ps1 vs1 pos Hr Hlen Hf Hmax Hpos;
    pose proof (rep_length _ _ _ Hr) as Hl; rewrite !length_app in Hl;
    destruct vs2 as [|v vs2]; try (cbn in Hl; lia).
  - exists l. destruct fuel; cbn; rewrite decide_True by done; (split; [done|by eexists]).
  - destruct fuel as [|fuel]; [cbn in Hf; lia|]. cbn [InsertAfter_loop find_pos insert_spec].
    destruct (node_at _ _ _ _ _ _ _ Hr Hlen) as (n & Hn & Hv & Hnx & Hpv & Ht & _).
    rewrite decide_False by (unfold first; cbn; congruence). erewrite bind_Ret by (by apply deref_ok).
    rewrite Hv. destruct (beq (str v) (str tar)).
    + destruct (chain_first l ps2) as (b & c2 & E2 & _).
      assert (rep_at l ((ps1 ++ [x]) ++ ps2) ((vs1 ++ [v]) ++ vs2)) as Hr' by (by rewrite <- !app_assoc).
      destruct (gap_facts l (ps1 ++ [x]) ps2 _ (Head l :: ps1) x b c2 Hr' eq_refl E2) as (Had & Hxd & Hne & Hnb & Hpb).
      change (first (Tail l) (x :: ps2)) with (Some x). lstep. rewrite Hnb. erewrite bind_Ret by done.
      pose proof (fresh_node l) as Hq. set (q := fresh (dom (nodes l))) in *. clearbody q.
      assert (q ≠ x ∧ q ≠ b) as [? ?] by set_solver.
      do 2 lstep. replace (nxt _ q) with (Some b) by (symmetry; lsolve). lstep.
      erewrite bind_Ret by done. destruct (Z.eqb_spec pos (-1)); [lia|].
      eexists. split; [done|]. exists ((ps1 ++ [x]) ++ q :: ps2).
      change (vs1 ++ v :: val :: vs2) with (vs1 ++ [v] ++ val :: vs2). rewrite app_assoc.
      eapply (rep_insert l _ (ps1 ++ [x]) ps2 (vs1 ++ [v]) vs2 (Head l :: ps1) x b c2 q val); try done;
        try (intros; lsolve).
      * rewrite !length_app. cbn. lia.
      * by rewrite <- app_assoc.
    + rewrite Hnx. destruct (IH vs2 fuel l (ps1 ++ [x]) (vs1 ++ [v]) (pos + 1)) as (l' & E & Hrep).
      * by rewrite <- !app_assoc.
      * rewrite !length_app. cbn. lia.
      * cbn in Hf. lia.
      * by rewrite <- app_assoc.
      * lia.
      * exists l'. rewrite <- app_assoc in Hrep. done.
Qed.

(** [InsertBefore] and [InsertAfter] return the position of the new element and
    insert it next to the first element equal to [tar]; without one they return
    -1 and change nothing. *)
Lemma Insert_spec l vs val tar :
  rep l vs → zlen vs < MaxInt64 →
  (∃ l', List_InsertBefore val tar l = (Ret (find_pos tar vs 0), l') ∧ rep l' (insert_spec false val tar vs)) ∧
  (∃ l', List_InsertAfter val tar l =
     (Ret (if find_pos tar vs 0 =? -1 then -1 else find_pos tar vs 0 + 1), l') ∧
     rep l' (insert_spec true val tar vs)).
Proof.
  intros [ps Hr] Hmax. pose proof (walk_fuel_ok _ _ _ Hr).
  split; [unfold List_InsertBefore|unfold List_InsertAfter]; do 3 (erewrite bind_Ret by done);
    erewrite bind_Ret by (by eapply head_next).
  - by apply (InsertBefore_loop_spec val tar ps vs _ l [] []).
  - by apply (InsertAfter_loop_spec val tar ps vs _ l [] []).
Qed.

(** The first [count] elements equal to [val] removed, and how many there were. *)
Fixpoint remove_spec (val : slice) (count : Z) (vs : list slice) : list slice * Z :=
  match vs with
  | [] => ([], 0)
  | v :: vs =>
      if count <=? 0 then (v :: vs, 0)
      else if beq (str v) (str val) then
        let '(vs, n) := remove_spec val (count - 1) vs in (vs, n + 1)
      else let '(vs, n) := remove_spec val count vs in (v :: vs, n)
  end.

Lemma remove_spec_stop val count vs : count <= 0 → remove_spec val count vs = (vs, 0).
Proof. intros Hc. destruct vs; cbn; [done|]. by destruct (Z.leb_spec count 0); [|lia]. Qed.

Lemma Remove_next_spec val count : ∀ ps2 vs2 fuel l ps1 vs1 removed,
  rep_at l (ps1 ++ ps2) (vs1 ++ vs2) → length ps1 = length vs1 → (length ps2 <= fuel)%nat →
  ∃ l', Remove_loop get_Next fuel val count removed (first (Tail l) ps2) (Some (Tail l)) l =
    (Ret (removed + (remove_spec val (count - removed) vs2).2), l') ∧
    rep l' (vs1 ++ (remove_spec val (count - removed) vs2).1).
Proof.
  induction ps2 as [|x ps2 IH]; intros vs2 fuel l ps1 vs1 removed Hr Hlen Hf;
    pose proof (rep_length _ _ _ Hr) as Hl; rewrite !length_app in Hl;
    destruct vs2 as [|v vs2]; try (cbn in Hl; lia).
  - exists l. rewrite Z.add_0_r. destruct fuel; cbn; rewrite bool_decide_true by done; (split; [done|by eexists]).
  - destruct fuel as [|fuel]; [cbn in Hf; lia|]. cbn [Remove_loop remove_spec].
    destruct (node_at _ _ _ _ _ _ _ Hr Hlen) as (n & Hn & Hv & Hnx & Hpv & Ht & _).
    rewrite bool_decide_false by (unfold first; cbn; congruence). cbn [orb].
    destruct (Z.leb_spec count removed), (Z.leb_spec (count - removed) 0); try lia.
    { exists l. rewrite Z.add_0_r. split; [done|by eexists]. }
    change (first (Tail l) (x :: ps2)) with (Some x). erewrite bind_Ret by (by apply deref_ok).
    assert (x ∈ dom (nodes l)) as Hd by (by eapply elem_of_dom_2).
    assert (nxt (nodes l) x = first (Tail l) ps2) as Hnx' by (unfold nxt; by rewrite Hn).
    rewrite Hv. destruct (beq (str v) (str val)).
    + erewrite bind_Ret by (by apply get_Next_ok). rewrite Hnx'.
      destruct (unlink_spec l ps1 x ps2 vs1 v vs2 Hr Hlen) as (l1 & E1 & Hr1 & HH & HT).
      destruct (IH vs2 fuel l1 ps1 vs1 (removed + 1) Hr1 Hlen) as (l' & E & Hrep); [cbn in Hf; lia|].
      exists l'. rewrite HT in E. replace (count - (removed + 1)) with (count - removed - 1) in * by lia.
      destruct (remove_spec val (count - removed - 1) vs2) as [vs3 m]. cbn in *. split; [|done].
      rewrite <- bind_assoc. erewrite bind_Ret by done. rewrite E. do 2 f_equal. lia.
    + erewrite bind_Ret by (by apply get_Next_ok). rewrite Hnx'.
      destruct (IH vs2 fuel l (ps1 ++ [x]) (vs1 ++ [v]) removed) as (l' & E & Hrep).
      * by rewrite <- !app_assoc.
      * rewrite !length_app. cbn. lia.
      * cbn in Hf. lia.
      * exists l'. destruct (remove_spec val (count - removed) vs2) as [vs3 m]. cbn in *.
        rewrite <- app_assoc in Hrep. done.
Qed.

Lemma Remove_prev_spec val count : ∀ ps1 vs1 fuel l ps2 vs2 removed,
  rep_at l (ps1 ++ ps2) (vs1 ++ vs2) → length ps1 = length vs1 → (length ps1 <= fuel)%nat →
  ∃ l', Remove_loop get_Prev fuel val count removed (final (Head l) ps1) (Some (Head l)) l =
    (Ret (removed + (remove_spec val (count - removed) (reverse vs1)).2), l') ∧
    rep l' (reverse (remove_spec val (count - removed) (reverse vs1)).1 ++ vs2).
Proof.
  induction ps1 as [|x ps1 IH] using rev_ind; intros vs1 fuel l ps2 vs2 removed Hr Hlen Hf.
  - destruct vs1; [|done]. exists l. rewrite Z.add_0_r.
    destruct fuel; cbn; rewrite bool_decide_true by done; (split; [done|by eexists]).
  - destruct vs1 as [|v vs1 _] using rev_ind; rewrite !length_app in *; cbn in Hlen, Hf; [lia|].
    destruct fuel as [|fuel]; [lia|]. rewrite reverse_snoc. cbn [Remove_loop remove_spec].
    rewrite <- !app_assoc in Hr. cbn in Hr. assert (length ps1 = length vs1) as Hlen' by lia.
    destruct (node_at _ _ _ _ _ _ _ Hr Hlen') as (n & Hn & Hv & Hnx & Hpv & _ & Hh).
    rewrite final_snoc, bool_decide_false by congruence. cbn [orb].
    destruct (Z.leb_spec count removed), (Z.leb_spec (count - removed) 0); try lia.
    { exists l. rewrite Z.add_0_r. split; [done|]. cbn [fst]. rewrite reverse_cons, reverse_involutive, <- app_assoc. by eexists. }
    erewrite bind_Ret by (by apply deref_ok).
    assert (x ∈ dom (nodes l)) as Hd by (by eapply elem_of_dom_2).
    assert (prv (nodes l) x = final (Head l) ps1) as Hpv' by (unfold prv; by rewrite Hn).
    rewrite Hv. destruct (beq (str v) (str val)).
    + erewrite bind_Ret by (by apply get_Prev_ok). rewrite Hpv'.
      destruct (unlink_spec l ps1 x ps2 vs1 v vs2 Hr Hlen') as (l1 & E1 & Hr1 & HH & HT).
      destruct (IH vs1 fuel l1 ps2 vs2 (removed + 1) Hr1 Hlen') as (l' & E & Hrep); [lia|].
      exists l'. rewrite HH in E. replace (count - (removed + 1)) with (count - removed - 1) in * by lia.
      destruct (remove_spec val (count - removed - 1) (reverse vs1)) as [vs3 m]. cbn [fst snd] in *. split; [|done].
      rewrite <- bind_assoc. erewrite bind_Ret by done. rewrite E. do 2 f_equal. lia.
    + erewrite bind_Ret by (by apply get_Prev_ok). rewrite Hpv'.
      destruct (IH vs1 fuel l (x :: ps2) (v :: vs2) removed Hr Hlen') as (l' & E & Hrep); [lia|].
      exists l'. destruct (remove_spec val (count - removed) (reverse vs1)) as [vs3 m]. cbn [fst snd] in *.
      rewrite reverse_cons, <- app_assoc. done.
Qed.

(** [LREM]'s reference: from the head for [count >= 0] (all of them for 0), from
    the tail for [count < 0] (none for the least integer, whose negation
    overflows to itself). *)
Definition lrem_spec (val : slice) (count : Z) (vs : list slice) : list slice * Z :=
  if count =? 0 then remove_spec val (zlen vs) vs
  else if 0 <? count then remove_spec val count vs
  else let '(r, n) := remove_spec val (int64 (- count)) (reverse vs) in (reverse r, n).

Lemma RemoveElement_spec l vs val count :
  rep l vs → in_int64 count →
  ∃ l', List_RemoveElement val count l = (Ret (lrem_spec val count vs).2, l') ∧
    rep l' (lrem_spec val count vs).1.
Proof.
  intros [ps Hr] Hc. pose proof Hr as (_ & _ & _ & Hlen & Hmax). unfold List_RemoveElement.
  pose proof (zlen_nonneg vs). pose proof (walk_fuel_ok _ _ _ Hr). pose proof (rep_length _ _ _ Hr).
  erewrite bind_Ret by done. rewrite Hlen. destruct (Z.eqb_spec (zlen vs) 0) as [E|Hne].
  { apply zlen_0 in E as ->. exists l. split; [|exists ps]; unfold lrem_spec; cbn; by repeat case_match. }
  do 3 (erewrite bind_Ret by done). unfold lrem_spec.
  assert (∀ c, 0 <= c → ∃ l',
    (now ← get_Next (Some (Head l)); Remove_loop get_Next (size (nodes l)) val c 0 now (Some (Tail l))) l =
      (Ret (remove_spec val c vs).2, l') ∧ rep l' (remove_spec val c vs).1) as Hfwd.
  { intros c Hc0. erewrite bind_Ret by (by eapply head_next).
    destruct (Remove_next_spec val c ps vs (size (nodes l)) l [] [] 0 Hr) as (l' & E & Hrep); [done..|].
    rewrite Z.sub_0_r in *. by exists l'. }
  destruct (Z.eqb_spec count 0) as [->|].
  { destruct (Z.leb_spec 0 (zlen vs)); [|lia]. by apply Hfwd. }
  destruct (Z.leb_spec 0 count), (Z.ltb_spec 0 count); try lia.
  { apply Hfwd. lia. }
  erewrite bind_Ret by (by eapply tail_prev).
  destruct (Remove_prev_spec val (int64 (- count)) ps vs (size (nodes l)) l [] [] 0) as (l' & E & Hrep);
    [by rewrite !app_nil_r|done..|].
  rewrite Z.sub_0_r in *. rewrite app_nil_r in Hrep. exists l'. rewrite E.
  by destruct (remove_spec val (int64 (- count)) (reverse vs)).
Qed.

Lemma NewList_rep : rep NewList [].
Proof.
  exists []. split_and!; try done. apply NoDup_cons. split; [set_solver|]. apply NoDup_singleton.
Qed.

Lemma List_Clear_spec l vs : rep l vs → ∃ l', List_Clear l = (Ret tt, l') ∧ rep l' [].
Proof.
  intros [ps Hr]. pose proof Hr as (Hnd & Hlinks & _ & Hlen & _). unfold List_Clear.
  erewrite bind_Ret by done. rewrite Hlen. destruct (Z.eqb_spec (zlen vs) 0) as [E|Hne].
  { apply zlen_0 in E as ->. exists l. split; [done|by exists ps]. }
  assert (∀ x, x ∈ chain l ps → x ∈ dom (nodes l)) as Hdom by (intros x; by apply (chain_dom _ _ vs)).
  destruct ps as [|x ps].
  { pose proof (rep_length _ _ _ Hr) as Hl. by destruct vs. }
  destruct (exists_last (l := x :: ps)) as (ps' & y & Ey); [done|].
  assert (final (Head l) (x :: ps) = Some y) as Hy by (by rewrite Ey, final_snoc).
  assert (x ∈ chain l (x :: ps) ∧ y ∈ chain l (x :: ps) ∧ Head l ∈ chain l (x :: ps) ∧ Tail l ∈ chain l (x :: ps))
    as (Hx%Hdom & Hyd%Hdom & Hh%Hdom & Ht%Hdom).
  { assert (y ∈ x :: ps) by (rewrite Ey; set_solver). unfold chain. set_solver. }
  assert (Head l ≠ Tail l ∧ Head l ≠ y ∧ Tail l ≠ x) as (Hht & Hhy & Htx).
  { assert (y ∈ x :: ps) by (rewrite Ey; set_solver). unfold chain in Hnd.
    rewrite NoDup_cons, NoDup_app in Hnd. set_solver. }
  do 2 (erewrite bind_Ret by done).
  erewrite bind_Ret by (by eapply head_next). change (first (Tail l) (x :: ps)) with (Some x).
  erewrite bind_Ret by (by eapply tail_prev). rewrite Hy.
  do 2 lstep. erewrite bind_Ret by done. lstep. rewrite set_Next_ok by ldom.
  eexists. split; [done|]. exists []. cbn [with_nodes nodes Head Tail len].
  split_and!; try done.
  - cbn. apply NoDup_cons. split; [set_solver|]. apply NoDup_singleton.
  - cbn [chain app Head Tail links nodes]. split_and!; [lsolve|lsolve|done].
Qed.

Lemma Trim_find_spec l start stop : ∀ ps2 fuel ps1 vs startNode x y,
  rep_at l (ps1 ++ ps2) vs → (length ps2 <= fuel)%nat →
  (Z.of_nat (length ps1) <= start ∨ startNode = Some x) →
  start <= stop → Z.of_nat (length ps1) <= stop →
  (ps1 ++ ps2) !! Z.to_nat start = Some x → (ps1 ++ ps2) !! Z.to_nat stop = Some y →
  0 <= start →
  Trim_find fuel start stop (Z.of_nat (length ps1)) (first (Tail l) ps2) (Some (Tail l)) startNode l =
  (Ret (Some x, Some y), l).
Proof.
  induction ps2 as [|z ps2 IH]; intros fuel ps1 vs sn x y Hr Hf Hsn Hse Hpos Hx Hy Hs0.
  - rewrite app_nil_r in Hy. apply lookup_lt_Some in Hy. lia.
  - destruct fuel as [|fuel]; [cbn in Hf; lia|]. cbn [Trim_find].
    destruct (chain_first l ps2) as (b & c2 & E2 & _). destruct (chain_last l ps1) as (c1 & a & E1 & _).
    destruct (node_facts l ps1 z ps2 _ c1 a b c2 Hr E1 E2) as (_ & Hzd & _ & _ & _ & _ & _ & _ & Hn & _).
    assert (z ≠ Tail l).
    { intros ->. destruct Hr as (Hnd & _). unfold chain in Hnd. rewrite NoDup_cons, NoDup_app in Hnd. set_solver. }
    rewrite decide_False by (unfold first; cbn; congruence).
    change (first (Tail l) (z :: ps2)) with (Some z). cbv zeta.
    assert (∀ i w, (ps1 ++ z :: ps2) !! Z.to_nat i = Some w → Z.of_nat (length ps1) = i → w = z) as Hz.
    { intros i w Hw <-. rewrite Nat2Z.id, lookup_app_r, Nat.sub_diag in Hw by lia. by injection Hw. }
    assert ((if Z.of_nat (length ps1) =? start then Some z else sn) = Some x ∨
            Z.of_nat (length ps1) < start) as Hsn'.
    { destruct (Z.eqb_spec (Z.of_nat (length ps1)) start) as [E|]; [left; f_equal; symmetry; by eapply Hz|].
      destruct Hsn as [?| ->]; [right; lia|by left]. }
    destruct (Z.eqb_spec (Z.of_nat (length ps1)) stop) as [E|Hne].
    + destruct Hsn' as [->|]; [|lia]. by rewrite (Hz stop y Hy E).
    + erewrite bind_Ret by (by apply get_Next_ok). rewrite Hn.
      replace (Some b) with (first (Tail l) ps2) by (unfold first; by destruct ps2; simplify_eq/=).
      replace (Z.of_nat (length ps1) + 1) with (Z.of_nat (length (ps1 ++ [z]))) by (rewrite length_app; cbn; lia).
      eapply (IH fuel (ps1 ++ [z]) vs); rewrite <- ?app_assoc; try done; rewrite ?length_app; cbn in *;
        [lia| |lia].
      destruct Hsn' as [->|]; [by right|left; lia].
Qed.

Lemma split3 {A} (ps : list A) (s e : nat) x y :
  (s <= e)%nat → ps !! s = Some x → ps !! e = Some y →
  ∃ ps1 mid ps3, ps = ps1 ++ mid ++ ps3 ∧ length ps1 = s ∧ length mid = (e - s + 1)%nat ∧
    (∃ m, mid = x :: m) ∧ (∃ m, mid = m ++ [y]).
Proof.
  intros Hse Hx Hy. exists (take s ps), (take (e - s + 1) (drop s ps)), (drop (e - s + 1) (drop s ps)).
  pose proof (lookup_lt_Some _ _ _ Hx). pose proof (lookup_lt_Some _ _ _ Hy). split_and!.
  - by rewrite !take_drop.
  - rewrite length_take. lia.
  - rewrite length_take, length_drop. lia.
  - rewrite (drop_S _ _ _ Hx), Nat.add_1_r. by eexists.
  - exists (take (e - s) (drop s ps)). rewrite Nat.add_1_r. apply take_S_r.
    rewrite lookup_drop. rewrite <- Hy. f_equal. lia.
Qed.

(** The pointers after [Trim] make a list of the nodes in the middle. *)
Lemma rep_trim l l' ps1 mid ps3 vs1 vmid vs3 x m y m' :
  rep_at l (ps1 ++ mid ++ ps3) (vs1 ++ vmid ++ vs3) → length ps1 = length vs1 → length mid = length vmid →
  mid = x :: m → mid = m' ++ [y] →
  Head l' = Head l → Tail l' = Tail l → len l' = zlen vmid →
  nxt (nodes l') (Head l) = Some x → prv (nodes l') x = Some (Head l) →
  nxt (nodes l') y = Some (Tail l) → prv (nodes l') (Tail l) = Some y →
  (∀ z, z ∈ m' → nxt (nodes l') z = nxt (nodes l) z) →
  (∀ z, z ∈ m → prv (nodes l') z = prv (nodes l) z) →
  (∀ z, vl (nodes l') z = vl (nodes l) z) →
  rep l' vmid.
Proof.
  intros Hr Hl1 Hlm Ex Ey HH HT Hl' H1 H2 H3 H4 Hn Hp Hv.
  pose proof Hr as (Hnd & Hlinks & Hvals & Hlen & Hmax).
  assert (NoDup (Head l :: mid ++ [Tail l])) as Hnd'.
  { unfold chain in Hnd. rewrite !NoDup_cons, !NoDup_app in Hnd. apply NoDup_cons. split; [set_solver|].
    apply NoDup_app. set_solver. }
  assert (links (nodes l) mid) as Lmid.
  { assert (chain l (ps1 ++ mid ++ ps3) = (Head l :: ps1) ++ x :: (m ++ ps3 ++ [Tail l])) as E1.
    { unfold chain. rewrite Ex, <- app_assoc. cbn. by rewrite <- app_assoc. }
    assert (x :: m ++ ps3 ++ [Tail l] = m' ++ y :: ps3 ++ [Tail l]) as E2.
    { rewrite app_comm_cons, <- Ex, Ey. by rewrite <- app_assoc. }
    rewrite E1 in Hlinks. apply links_app in Hlinks as [_ Hlinks]. rewrite E2 in Hlinks.
    apply links_app in Hlinks as [Hlinks _]. by rewrite Ey. }
  assert (∀ b, nxt (nodes l) y = Some b → b ∉ mid) as Hy.
  { destruct (chain_first l ps3) as (b & c2 & E2 & _).
    destruct (gap_facts l (ps1 ++ mid) ps3 (vs1 ++ vmid ++ vs3) (Head l :: ps1 ++ m') y b c2) as (_ & _ & _ & Hb & _).
    { by rewrite <- app_assoc. } { by rewrite Ey, app_assoc. } { done. }
    rewrite Hb. intros ? [= <-] Hin. assert (b ∈ ps3 ++ [Tail l]) by (rewrite E2; left).
    unfold chain in Hnd. rewrite NoDup_cons, !NoDup_app in Hnd. set_solver. }
  assert (∀ a, prv (nodes l) x = Some a → a ∉ mid) as Hx.
  { destruct (chain_last l ps1) as (c1 & a & E1 & _).
    destruct (gap_facts l ps1 (mid ++ ps3) (vs1 ++ vmid ++ vs3) c1 a x ((m ++ ps3) ++ [Tail l])) as (_ & _ & _ & _ & Ha).
    { done. } { done. } { by rewrite Ex. }
    rewrite Ha. intros ? [= <-] Hin. assert (a ∈ Head l :: ps1) by (rewrite E1; set_solver).
    unfold chain in Hnd. rewrite NoDup_cons, !NoDup_app in Hnd. set_solver. }
  exists mid. unfold rep_at, chain. rewrite HH, HT. split_and!; [done| | |done|].
  - assert (links (nodes l') mid) as Lmid'.
    { eapply links_mono; [done|]. intros a b Ha Hb Hna Hpb. split.
      - rewrite Hn; [done|]. rewrite Ey in Ha. apply elem_of_app in Ha as [?|Ha]; [done|].
        apply list_elem_of_singleton in Ha as ->. by destruct (Hy b).
      - rewrite Hp; [done|]. rewrite Ex in Hb. apply elem_of_cons in Hb as [->|?]; [by destruct (Hx a)|done]. }
    assert (Head l :: mid ++ [Tail l] = [] ++ Head l :: x :: m ++ [Tail l]) as -> by (by rewrite Ex).
    apply links_middle. split_and!; [done..|].
    assert (x :: m ++ [Tail l] = m' ++ y :: [Tail l]) as ->.
    { by rewrite app_comm_cons, <- Ex, Ey, <- app_assoc. }
    apply links_app. rewrite <- Ey. done.
  - rewrite !fmap_app in Hvals. apply app_inj_1 in Hvals as [_ Hvals]; [|by rewrite !length_fmap].
    apply app_inj_1 in Hvals as [Hvals _]; [|by rewrite !length_fmap].
    rewrite <- Hvals. apply list_fmap_ext. intros; apply Hv.
  - rewrite !zlen_app in Hmax. pose proof (zlen_nonneg vs1). pose proof (zlen_nonneg vs3). lia.
Qed.

(** A pointer that is set to nil only when it is not nil already. *)
Lemma clear_next_ok l (sp : option positive) :
  (∀ a, sp = Some a → a ∈ dom (nodes l)) →
  (match sp with None => mret tt | _ => set_Next sp None end) l =
  (Ret tt, with_nodes l (match sp with Some a => upd_next a None (nodes l) | None => nodes l end)).
Proof. intros H. destruct sp as [a|]; [by rewrite set_Next_ok by auto|]. by destruct l. Qed.
Lemma clear_prev_ok l (sp : option positive) :
  (∀ a, sp = Some a → a ∈ dom (nodes l)) →
  (match sp with None => mret tt | _ => set_Prev sp None end) l =
  (Ret tt, with_nodes l (match sp with Some a => upd_prev a None (nodes l) | None => nodes l end)).
Proof. intros H. destruct sp as [a|]; [by rewrite set_Prev_ok by auto|]. by destruct l. Qed.

(** Where the nodes of [mid] are not, in a list of [ps1 ++ mid ++ ps3]. *)
Lemma chain3_NoDup l ps1 mid ps3 :
  NoDup (chain l (ps1 ++ mid ++ ps3)) →
  (∀ z, z ∈ mid → z ≠ Head l ∧ z ≠ Tail l ∧ (z ∉ ps1) ∧ z ∉ ps3) ∧ NoDup mid ∧
  Head l ≠ Tail l ∧ (Head l ∉ ps1) ∧ (Head l ∉ ps3) ∧ (Tail l ∉ ps1) ∧ (Tail l ∉ ps3) ∧
  (∀ z, z ∈ ps1 → z ∉ ps3).
Proof.
  unfold chain. rewrite NoDup_cons, !NoDup_app, !elem_of_app, list_elem_of_singleton.
  intros (Hh & (N1 & D1 & N2 & D2 & N3) & Dt & _).
  assert (∀ z, z ∈ ps1 ++ mid ++ ps3 → z ≠ Tail l) as Ht.
  { intros z Hz ->. apply (Dt _ Hz). left. }
  setoid_rewrite elem_of_app in Ht. setoid_rewrite elem_of_app in Ht.
  setoid_rewrite elem_of_app in D1.
  split_and!; [|done|naive_solver..].
  intros z Hz. split_and!; [naive_solver..|]. by apply D2.
Qed.

(** Around the kept nodes [mid] from [x] to [y]: the neighbours [a] and [b], and the
    ends [p0] and [pz] of the list; none of them is an inner node of [mid]. *)
Record trim_border (l : List) (m m' : list positive) (x y a b p0 pz : positive) : Prop := {
  tb_dom : (a ∈ dom (nodes l)) ∧ (b ∈ dom (nodes l)) ∧ (p0 ∈ dom (nodes l)) ∧ (pz ∈ dom (nodes l)) ∧
           (x ∈ dom (nodes l)) ∧ (y ∈ dom (nodes l)) ∧ Tail l ∈ dom (nodes l);
  tb_head : get_Next (Some (Head l)) l = (Ret (Some p0), l);
  tb_tail : prv (nodes l) (Tail l) = Some pz;
  tb_prv : prv (nodes l) x = Some a;
  tb_nxt : nxt (nodes l) y = Some b;
  tb_y : y ≠ a;
  tb_p0 : Tail l ≠ p0;
  tb_m : ∀ z, z ∈ m → z ≠ b ∧ z ≠ p0;
  tb_m' : ∀ z, z ∈ m' → z ≠ a ∧ z ≠ pz;
}.
Lemma Trim_border l ps1 mid ps3 vs x m y m' :
  rep_at l (ps1 ++ mid ++ ps3) vs → mid = x :: m → mid = m' ++ [y] → ∃ a b p0 pz, trim_border l m m' x y a b p0 pz.
Proof.
  intros Hr Ex Ey. pose proof Hr as (Hnd & _).
  assert (∀ z, z ∈ chain l (ps1 ++ mid ++ ps3) → z ∈ dom (nodes l)) as Hdom by (intros z; by eapply chain_dom).
  apply chain3_NoDup in Hnd as (Hmid & Hndm & Hht & _ & _ & Ht1 & _ & H13).
  destruct (chain_last l ps1) as (c1 & a & E1 & _). destruct (chain_first l ps3) as (b & c2 & E2 & _).
  destruct (gap_facts l ps1 (mid ++ ps3) vs c1 a x ((m ++ ps3) ++ [Tail l])) as (Ha & Hxd & _ & _ & Hpx); [done|done|by rewrite Ex|].
  destruct (gap_facts l (ps1 ++ mid) ps3 vs (Head l :: ps1 ++ m') y b c2) as (Hyd & Hb & _ & Hny & _);
    [by rewrite <- app_assoc|by rewrite Ey, app_assoc|done|].
  assert (∃ p0, first (Tail l) (ps1 ++ mid ++ ps3) = Some p0 ∧ p0 ∈ x :: ps1 ∧ p0 ∈ dom (nodes l)) as (p0 & Ep0 & Hp0 & Hp0d).
  { destruct ps1 as [|p0 ps1']; unfold first; cbn; [rewrite Ex; exists x; split_and!; [done|left|done]|].
    exists p0. split_and!; [done|right; left|apply Hdom; right; left]. }
  assert (∃ pz, final (Head l) (ps1 ++ mid ++ ps3) = Some pz ∧ pz ∈ y :: ps3 ∧ pz ∈ dom (nodes l)) as (pz & Epz & Hpz & Hpzd).
  { destruct ps3 as [|pz ps3' _] using rev_ind.
    - rewrite app_nil_r, Ey, app_assoc, final_snoc. exists y. split_and!; [done|left|done].
    - exists pz. rewrite !app_assoc, final_snoc. split_and!; [done|set_solver|].
      apply Hdom. unfold chain. rewrite !app_assoc. set_solver. }
  assert (a ∈ Head l :: ps1) as Hain by (rewrite E1; set_solver).
  assert (b ∈ ps3 ++ [Tail l]) as Hbin by (rewrite E2; left).
  assert (x ∈ mid ∧ y ∈ mid) as [Hxm Hym] by (split; [rewrite Ex; left|rewrite Ey; set_solver]).
  assert (∀ z, z ∈ m → z ∈ mid ∧ z ≠ x) as Hm.
  { intros z Hz. rewrite Ex in Hndm. apply NoDup_cons in Hndm as [? _]. rewrite Ex. split; [by right|by intros ->]. }
  assert (∀ z, z ∈ m' → z ∈ mid ∧ z ≠ y) as Hm'.
  { intros z Hz. rewrite Ey in Hndm. apply NoDup_app in Hndm as (_ & Hd & _). rewrite Ey.
    split; [set_solver|]. intros ->. apply (Hd y Hz). left. }
  assert (∀ z, z ∈ mid → z ≠ a ∧ z ≠ b ∧ (z ≠ x → z ≠ p0) ∧ (z ≠ y → z ≠ pz)) as Hne.
  { intros z Hz. destruct (Hmid z Hz) as (? & ? & ? & ?). split_and!.
    - intros ->. by apply elem_of_cons in Hain as [?|?].
    - intros ->. apply elem_of_app in Hbin as [?|?%list_elem_of_singleton]; done.
    - intros Hzx ->. by apply elem_of_cons in Hp0 as [?|?].
    - intros Hzy ->. by apply elem_of_cons in Hpz as [?|?]. }
  assert (Tail l ≠ p0) as Htp.
  { intros E. rewrite <- E in Hp0. apply elem_of_cons in Hp0 as [?|?]; [|done]. by destruct (Hmid x Hxm) as (_ & ? & _). }
  assert (prv (nodes l) (Tail l) = Some pz ∧ Tail l ∈ dom (nodes l)) as [Hpt Htd].
  { pose proof (tail_prev l _ vs Hr) as Ht. assert (Tail l ∈ dom (nodes l)) as Htd.
    { eapply chain_dom; [done|]. unfold chain. rewrite app_comm_cons. apply elem_of_app. right. left. }
    rewrite get_Prev_ok in Ht by done. rewrite <- Epz. split; [congruence|done]. }
  pose proof (head_next l _ vs Hr) as Hhead. rewrite Ep0 in Hhead.
  exists a, b, p0, pz. split; try done.
  - apply (Hne y Hym).
  - intros z [Hz Hzx]%Hm. destruct (Hne z Hz) as (_ & ? & ? & _). auto.
  - intros z [Hz Hzy]%Hm'. destruct (Hne z Hz) as (? & _ & _ & ?). auto.
Qed.

(** [Trim_cut] leaves the nodes between [x] and [y] linked to each other. *)
Lemma Trim_cut_run l x m y m' a b p0 pz :
  trim_border l m m' x y a b p0 pz →
  ∃ l1, Trim_cut (Some (Head l)) (Some (Tail l)) (Some x) (Some y) l = (Ret tt, l1) ∧
    Head l1 = Head l ∧ Tail l1 = Tail l ∧ dom (nodes l1) = dom (nodes l) ∧
    (∀ z, z ∈ m' → nxt (nodes l1) z = nxt (nodes l) z) ∧
    (∀ z, z ∈ m → prv (nodes l1) z = prv (nodes l) z) ∧
    (∀ z, vl (nodes l1) z = vl (nodes l) z).
Proof.
  intros [(Ha & Hb & Hp0d & Hpzd & Hxd & Hyd & Htd) Hhead Hpt Hpx Hny Hya Htp Hm Hm'].
  unfold Trim_cut. erewrite bind_Ret by exact Hhead.
  erewrite bind_Ret by (by apply set_Prev_ok).
  erewrite bind_Ret by (apply get_Prev_ok; cbn [nodes with_nodes]; by rewrite dom_upd_prev).
  cbn [nodes with_nodes Head Tail len].
  rewrite prv_upd_prev, decide_False, Hpt by done.
  erewrite bind_Ret by (apply set_Next_ok; cbn [nodes with_nodes]; by autorewrite with nodes).
  cbn [nodes with_nodes Head Tail len].
  set (nd0 := upd_next pz None (upd_prev p0 None (nodes l))).
  assert (dom nd0 = dom (nodes l)) as Hd0 by (unfold nd0; by autorewrite with nodes).
  assert (∀ z, nxt nd0 z = if decide (z = pz) then None else nxt (nodes l) z) as Hn0.
  { intros z. unfold nd0. rewrite nxt_upd_next by (by rewrite dom_upd_prev). by rewrite nxt_upd_prev. }
  assert (∀ z, prv nd0 z = if decide (z = p0) then None else prv (nodes l) z) as Hp0.
  { intros z. unfold nd0. by rewrite prv_upd_next, prv_upd_prev. }
  assert (∀ z, vl nd0 z = vl (nodes l) z) as Hv0 by (intros z; unfold nd0; by autorewrite with nodes).
  clearbody nd0.
  erewrite bind_Ret by (apply get_Prev_ok; cbn [nodes with_nodes]; by rewrite Hd0).
  cbn [nodes with_nodes Head Tail len]. rewrite Hp0, Hpx. set (sp := if decide (x = p0) then _ else _).
  assert (∀ w, sp = Some w → w = a) as Hsp by (unfold sp; intros w; case_decide; naive_solver).
  erewrite bind_Ret by (apply clear_next_ok; cbn [nodes with_nodes]; rewrite Hd0; by intros w ->%Hsp).
  cbn [nodes with_nodes Head Tail len]. clearbody sp.
  set (nd1 := match sp with Some _ => _ | None => _ end).
  assert (dom nd1 = dom (nodes l)) as Hd1 by (unfold nd1; destruct sp; rewrite ?dom_upd_next; done).
  assert (∀ z, z ≠ a → nxt nd1 z = nxt nd0 z) as Hn1.
  { intros z Hz. unfold nd1. destruct sp as [w|]; [|done]. rewrite (Hsp w eq_refl).
    rewrite nxt_upd_next by (by rewrite Hd0). by rewrite decide_False. }
  assert (∀ z, prv nd1 z = prv nd0 z) as Hp1 by (intros z; unfold nd1; destruct sp; rewrite ?prv_upd_next; done).
  assert (∀ z, vl nd1 z = vl nd0 z) as Hv1 by (intros z; unfold nd1; destruct sp; rewrite ?vl_upd_next; done).
  clearbody nd1.
  erewrite bind_Ret by (apply get_Next_ok; cbn [nodes with_nodes]; by rewrite Hd1).
  cbn [nodes with_nodes Head Tail len]. rewrite Hn1, Hn0, Hny by done.
  set (en := if decide (y = pz) then _ else _).
  assert (∀ w, en = Some w → w = b) as Hen by (unfold en; intros w; case_decide; naive_solver).
  clearbody en. rewrite clear_prev_ok by (cbn [nodes with_nodes]; rewrite Hd1; by intros w ->%Hen).
  eexists. split; [done|]. cbn [nodes with_nodes Head Tail len].
  split_and!; [done..| | | |].
  - destruct en; rewrite ?dom_upd_prev; done.
  - intros z [Hza Hzp]%Hm'.
    transitivity (nxt nd1 z); [destruct en; by rewrite ?nxt_upd_prev|].
    rewrite Hn1, Hn0 by done. by rewrite decide_False by auto.
  - intros z [Hzb Hzp]%Hm.
    transitivity (prv nd1 z); [|by rewrite Hp1, Hp0, decide_False by auto].
    destruct en as [w|]; [|done]. rewrite (Hen w eq_refl), prv_upd_prev by (by rewrite Hd1). by rewrite decide_False.
  - intros z. rewrite <- Hv0, <- Hv1. destruct en; by rewrite ?vl_upd_prev.
Qed.

Lemma Trim_spec l vs start stop :
  rep l vs → in_int64 start → in_int64 stop →
  ∃ l', List_Trim start stop l = (Ret tt, l') ∧ rep l' (range_spec vs start stop).
Proof.
  intros [ps Hr] Hs He. pose proof Hr as (Hnd & _ & _ & Hlen & Hmax). unfold List_Trim.
  erewrite bind_Ret by done. rewrite Hlen. pose proof (zlen_nonneg vs).
  destruct (Z.eqb_spec (zlen vs) 0) as [E|Hne].
  { apply zlen_0 in E as ->. exists l. split; [done|]. unfold range_spec. rewrite drop_nil, take_nil. by exists ps. }
  pose proof (norm_range_spec vs start stop Hmax Hs He) as Hn.
  destruct (norm_range (zlen vs) start stop) as [[s e]|]; [|rewrite Hn; by eapply List_Clear_spec; eexists].
  destruct Hn as (Hs0 & Hez & Hse & ->). specialize (Hse ltac:(lia)).
  pose proof (rep_length _ _ _ Hr) as Hl. unfold zlen in Hez.
  destruct (lookup_lt_is_Some_2 ps (Z.to_nat s)) as [x Hx]; [lia|].
  destruct (lookup_lt_is_Some_2 ps (Z.to_nat e)) as [y Hy]; [lia|].
  do 3 (erewrite bind_Ret by done). erewrite bind_Ret by (by eapply head_next).
  erewrite bind_Ret.
  2:{ apply (Trim_find_spec l s e ps (size (nodes l)) [] vs None x y); try done; cbn; [|lia..].
      by eapply walk_fuel_ok. }
  cbn beta iota.
  destruct (split3 ps (Z.to_nat s) (Z.to_nat e) x y) as (ps1 & mid & ps3 & -> & L1 & Lm & (m & Ex) & (m' & Ey)); [lia|done..|].
  destruct (Trim_border l ps1 mid ps3 vs x m y m' Hr Ex Ey) as (a & b & p0 & pz & Hborder).
  destruct (Trim_cut_run l x m y m' a b p0 pz Hborder) as (l1 & Hcut & HH & HT & Hd & Hn1 & Hp1 & Hv1).
  erewrite bind_Ret by done.
  assert (∀ z, z ∈ chain l (ps1 ++ mid ++ ps3) → z ∈ dom (nodes l1)) as Hdom by (intros z; rewrite Hd; by eapply chain_dom).
  apply chain3_NoDup in Hnd as (Hmid & Hndm & Hht & _).
  assert (x ∈ mid ∧ y ∈ mid) as [Hxm Hym] by (split; [rewrite Ex; left|rewrite Ey; set_solver]).
  assert (Head l ∈ dom (nodes l1) ∧ Tail l ∈ dom (nodes l1) ∧ x ∈ dom (nodes l1) ∧ y ∈ dom (nodes l1)) as (Hhd & Htd & Hxd & Hyd).
  { unfold chain in Hdom. split_and!; apply Hdom; [left|right; rewrite !elem_of_app..];
      rewrite ?list_elem_of_singleton; tauto. }
  destruct (Hmid x Hxm) as (Hxh & Hxt & _). destruct (Hmid y Hym) as (Hyh & Hyt & _).
  unfold Trim_link. do 3 lstep.
  erewrite bind_Ret by (apply set_Next_ok; cbn [nodes with_nodes]; by autorewrite with nodes).
  eexists. split; [done|].
  eapply (rep_trim l _ ps1 mid ps3 (take (Z.to_nat s) vs) _ (drop (Z.to_nat (e - s + 1)) (drop (Z.to_nat s) vs))
    x m y m'); cbn [nodes with_nodes Head Tail len]; try done; try lsolve.
  - by rewrite !take_drop.
  - rewrite length_take. lia.
  - rewrite length_take, length_drop. lia.
  - unfold zlen. rewrite length_take, length_drop. lia.
  - intros z Hz. rewrite <- Hn1 by done. assert (z ∈ mid) as Hzm by (rewrite Ey; set_solver).
    destruct (Hmid z Hzm) as (? & _). assert (z ≠ y).
    { intros ->. rewrite Ey in Hndm. apply NoDup_app in Hndm as (_ & Hdj & _). apply (Hdj y Hz). left. }
    lsolve.
  - intros z Hz. rewrite <- Hp1 by done. assert (z ∈ mid) as Hzm by (rewrite Ex; by right).
    destruct (Hmid z Hzm) as (_ & ? & _). assert (z ≠ x).
    { intros ->. rewrite Ex in Hndm. by apply NoDup_cons in Hndm as [? _]. }
    lsolve.
  - intros z. rewrite <- Hv1. by autorewrite with nodes.
Qed.
