(* ===== verification/ListPos.v ===== *)
(** * Searching a list with options

    The part of [lPosList] ([src/pkg/memdb/list.go], lines 560-690) that walks the
    nodes of the list: it finds the [rank]-th match from either end and collects up
    to [count] matches within [maxlen] comparisons.  The reference definition
    [lpos_spec] filters the sequence of values. *)

From S2P Require Import Prelude ListStruct.
From Stdlib Require Import Ascii String ZArith Lia.
From stdpp Require Import prelude gmap list.
Open Scope Z_scope.

(** ** Walks over nodes *)
Section loops.
Context {A : Type} (pre : A → bool) (body : A → slice → A * bool).

(** [for ; now != stop && pre; now = now.Next { body }] (or [now.Prev]); [body] may
    break.  The result has the node where the loop ended. *)
Fixpoint node_loop (fuel : nat) (next : ListNode → option positive) (stop now : option positive) (a : A)
    : LM (A * option positive) :=
  if decide (now = stop) then mret (a, now)
  else if negb (pre a) then mret (a, now)
  else match fuel with
       | O => diverges
       | S fuel =>
           n ← deref now;
           let '(a, go) := body a (Val n) in
           if go : bool then node_loop fuel next stop (next n) a else mret (a, now)
       end.

(** The same on the values; the rest of the sequence starts with the current one. *)
Fixpoint list_loop (a : A) (vs : list slice) : A * list slice :=
  match vs with
  | [] => (a, [])
  | v :: vs' =>
      if negb (pre a) then (a, vs)
      else let '(a, go) := body a v in if go : bool then list_loop a vs' else (a, vs)
  end.

Lemma list_loop_suffix a vs : ∃ vs1, vs = vs1 ++ (list_loop a vs).2.
Proof.
  revert a. induction vs as [|v vs IH]; intros a; cbn [list_loop]; [by exists []|].
  destruct (negb (pre a)); [by exists []|]. destruct (body a v) as [a' []]; [|by exists []].
  destruct (IH a') as [vs1 E]. exists (v :: vs1). cbn. by f_equal.
Qed.

Lemma node_loop_next l : ∀ ps2 vs2 fuel ps1 vs1 a,
  rep_at l (ps1 ++ ps2) (vs1 ++ vs2) → length ps1 = length vs1 → (length ps2 <= fuel)%nat →
  ∃ ps1' ps2' vs1', ps1 ++ ps2 = ps1' ++ ps2' ∧ vs1 ++ vs2 = vs1' ++ (list_loop a vs2).2 ∧
    length ps1' = length vs1' ∧
    node_loop fuel Next (Some (Tail l)) (first (Tail l) ps2) a l
      = (Ret ((list_loop a vs2).1, first (Tail l) ps2'), l).
Proof.
  induction ps2 as [|x ps2 IH]; intros vs2 fuel ps1 vs1 a Hr Hlen Hf;
    pose proof (rep_length _ _ _ Hr) as Hl; rewrite !length_app in Hl;
    destruct vs2 as [|v vs2]; try (cbn in Hl; lia).
  - exists ps1, [], vs1. split; [done|]. split; [done|]. split; [done|].
    destruct fuel; cbn; by rewrite decide_True.
  - destruct fuel as [|fuel]; [cbn in Hf; lia|]. cbn [node_loop list_loop].
    destruct (node_at _ _ _ _ _ _ _ Hr Hlen) as (n & Hn & Hv & Hnx & _ & Ht & _).
    rewrite decide_False by (unfold first; cbn; congruence).
    assert (∀ b : A, ∃ ps1' ps2' vs1', ps1 ++ x :: ps2 = ps1' ++ ps2' ∧ vs1 ++ v :: vs2 = vs1' ++ (b, v :: vs2).2 ∧
      length ps1' = length vs1' ∧
      (Ret (b, first (Tail l) (x :: ps2)), l) = (Ret ((b, v :: vs2).1, first (Tail l) ps2'), l)) as Hstop
      by (intros b; exists ps1, (x :: ps2), vs1; done).
    destruct (negb (pre a)); [apply Hstop|]. erewrite bind_Ret by (by apply deref_ok).
    rewrite Hv. destruct (body a v) as [a' []]; [|apply Hstop]. rewrite Hnx.
    destruct (IH vs2 fuel (ps1 ++ [x]) (vs1 ++ [v]) a') as (ps1' & ps2' & vs1' & Hp & Hvs & Hl' & Hrun).
    + by rewrite <- !app_assoc.
    + rewrite !length_app. cbn. lia.
    + cbn in Hf. lia.
    + rewrite <- !app_assoc in *. exists ps1', ps2', vs1'. done.
Qed.

Lemma node_loop_prev l : ∀ ps1 vs1 fuel ps2 vs2 a,
  rep_at l (ps1 ++ ps2) (vs1 ++ vs2) → length ps1 = length vs1 → (length ps1 <= fuel)%nat →
  ∃ ps1' ps2' vs2', ps1 ++ ps2 = ps1' ++ ps2' ∧ vs1 ++ vs2 = reverse (list_loop a (reverse vs1)).2 ++ vs2' ∧
    length ps1' = length (list_loop a (reverse vs1)).2 ∧
    node_loop fuel Prev (Some (Head l)) (final (Head l) ps1) a l
      = (Ret ((list_loop a (reverse vs1)).1, final (Head l) ps1'), l).
Proof.
  induction ps1 as [|x ps1 IH] using rev_ind; intros vs1 fuel ps2 vs2 a Hr Hlen Hf.
  - destruct vs1; [|done]. exists [], ps2, vs2. split; [done|]. split; [done|]. split; [done|].
    destruct fuel; cbn; by rewrite decide_True.
  - destruct vs1 as [|v vs1 _] using rev_ind; [rewrite length_app in Hlen; cbn in Hlen; lia|].
    rewrite !length_app in Hlen. rewrite length_app in Hf. cbn in Hlen, Hf. destruct fuel as [|fuel]; [lia|].
    rewrite reverse_snoc. cbn [node_loop list_loop]. rewrite final_snoc.
    rewrite <- !app_assoc in Hr. cbn [app] in Hr.
    assert (length ps1 = length vs1) as Hlen' by lia.
    destruct (node_at _ _ _ _ _ _ _ Hr Hlen') as (n & Hn & Hv & _ & Hpv & _ & Hh).
    rewrite decide_False by congruence.
    assert (∀ b : A, ∃ ps1' ps2' vs2', (ps1 ++ [x]) ++ ps2 = ps1' ++ ps2' ∧
      (vs1 ++ [v]) ++ vs2 = reverse (b, v :: reverse vs1).2 ++ vs2' ∧
      length ps1' = length (b, v :: reverse vs1).2 ∧
      (Ret (b, Some x), l) = (Ret ((b, v :: reverse vs1).1, final (Head l) ps1'), l)) as Hstop.
    { intros b. exists (ps1 ++ [x]), ps2, vs2. cbn [fst snd]. rewrite reverse_cons, reverse_involutive, final_snoc.
      rewrite length_app. cbn. rewrite length_reverse. split; [done|]. split; [done|]. split; [lia|done]. }
    destruct (negb (pre a)); [apply Hstop|]. erewrite bind_Ret by (by apply deref_ok).
    rewrite Hv. destruct (body a v) as [a' []]; [|apply Hstop]. rewrite Hpv.
    destruct (IH vs1 fuel (x :: ps2) (v :: vs2) a') as (ps1' & ps2' & vs2' & Hp & Hvs & Hl' & Hrun); [done|done|lia|].
    exists ps1', ps2', vs2'. rewrite <- !app_assoc. done.
Qed.
End loops.

(** ** The search *)
Inductive lpos_reply := PNil | PInt (n : Z) | PInts (ns : list Z).

Section lpos.
Context (elem : slice).
Definition same_val (v : slice) : bool := beq (str v) (str elem).

(** [if maxLen { maxLenVal--; ... }]: the comparisons left, [None] without the option. *)
Definition left_dec (m : option Z) : option Z := m ← m; Some (m - 1).

(** Looking for the [rank]-th match; [d] is 1 forwards and -1 backwards. *)
Definition rank_body (d : Z) (a : Z * Z * option Z) (v : slice) : (Z * Z * option Z) * bool :=
  let '(pos, rankVal, m) := a in
  let pos := pos + d in
  let rankVal := if same_val v then rankVal - d else rankVal in
  let m := left_dec m in
  ((pos, rankVal, m), negb (bool_decide (m = Some 0)) && negb (rankVal =? 0)).

(** [if maxLenVal <= 0 { break }; maxLenVal--] *)
Definition more_left (m : option Z) : bool := match m with Some m => negb (m <=? 0) | None => true end.

(** The first match from here on. *)
Definition first_body (a : Z * option Z * option Z) (v : slice) : (Z * option Z * option Z) * bool :=
  let '(pos, m, res) := a in
  if same_val v then ((pos, m, Some pos), false)
  else if more_left m then ((pos + 1, left_dec m, None), true) else ((pos + 1, m, None), false).

(** Up to [count] matches from here on. *)
Definition count_body (d : Z) (a : list Z * Z * Z * option Z) (v : slice) : (list Z * Z * Z * option Z) * bool :=
  let '(res, countVal, pos, m) := a in
  let '(res, countVal) := if same_val v then (res ++ [pos], countVal - 1) else (res, countVal) in
  let pos := pos + d in
  if more_left m then ((res, countVal, pos, left_dec m), true) else ((res, countVal, pos, m), false).
Definition count_pre (a : list Z * Z * Z * option Z) : bool := negb (a.1.1.2 =? 0).

Definition lpos (rank count maxLen : option Z) : LM lpos_reply :=
  n ← List_Len;
  if n =? 0 then mret PNil
  else
    let count := if bool_decide (count = Some 0) then Some n else count in
    let maxLen := if bool_decide (maxLen = Some 0) then Some n else maxLen in
    if bool_decide (rank = None) && bool_decide (count = None) && bool_decide (maxLen = None) then
      pos ← List_Pos elem; mret (if pos =? -1 then PNil else PInt pos)
    else
      h ← ListStruct.head; t ← ListStruct.tail; fuel ← walk_fuel;
      '(pos, rankVal, m, now) ←
        (match rank with
         | Some r =>
             if 0 <? r then
               now ← get_Next h;
               node_loop (λ _, true) (rank_body 1) fuel Next t now (-1, r, maxLen)
             else
               now ← get_Prev t;
               node_loop (λ _, true) (rank_body (-1)) fuel Prev h now (n, r, maxLen)
         | None => now ← get_Next h; mret ((0, 0, left_dec maxLen), now)
         end);
      if negb (rankVal =? 0) || bool_decide (now = t) || bool_decide (now = h) then mret PNil
      else
        match count with
        | None =>
            '(_, _, res, _) ← node_loop (λ _, true) first_body fuel Next t now (pos, m, None);
            mret (if res is Some p then PInt p else PNil)
        | Some c =>
            '(res, _, _, _, _) ←
              (if default 1 rank <? 0
               then node_loop count_pre (count_body (-1)) fuel Prev h now ([], c, pos, m)
               else node_loop count_pre (count_body 1) fuel Next t now ([], c, pos, m));
            mret (match res with [] => PNil | _ => PInts res end)
        end.

(** ** The reference *)
(** The positions of the matches, from position [i] on in direction [d]. *)
Fixpoint positions (i d : Z) (vs : list slice) : list Z :=
  match vs with
  | [] => []
  | v :: vs => if same_val v then i :: positions (i + d) d vs else positions (i + d) d vs
  end.
(** The values compared when at most [m] are. *)
Definition window (m : option Z) (vs : list slice) : list slice :=
  match m with Some m => take (Z.to_nat m) vs | None => vs end.

Definition lpos_spec (rank count maxLen : option Z) (vs : list slice) : lpos_reply :=
  let m := if bool_decide (maxLen = Some 0) then None else maxLen in
  let r := default 1 rank in
  let found :=
    if 0 <? r then drop (Z.to_nat (r - 1)) (positions 0 1 (window m vs))
    else drop (Z.to_nat (- r - 1)) (positions (zlen vs - 1) (-1) (window m (reverse vs))) in
  match count with
  | None => match found with p :: _ => PInt p | [] => PNil end
  | Some c =>
      match (if c =? 0 then found else take (Z.to_nat c) found) with [] => PNil | ps => PInts ps end
  end.
End lpos.

(** ** Correctness *)
Section lpos_correct.
Context (elem : slice).
Abbreviation same := (same_val elem).
Abbreviation posns := (positions elem).

Definition inc (m : option Z) : option Z := m ← m; Some (m + 1).
Definition nonneg (m : option Z) : Prop := ∀ x, m = Some x → 0 <= x.

Lemma window_cons m v vs :
  (∀ x, m = Some x → 0 < x) → window m (v :: vs) = v :: window (left_dec m) vs.
Proof.
  intros Hm. destruct m as [x|]; [|done]. specialize (Hm x eq_refl). cbn.
  by replace (Z.to_nat x) with (S (Z.to_nat (x - 1))) by lia.
Qed.
Lemma window_inc m v vs : nonneg m → window (inc m) (v :: vs) = v :: window m vs.
Proof.
  intros Hm. rewrite window_cons.
  - destruct m as [x|]; [|done]. cbn. by replace (x + 1 - 1) with x by lia.
  - intros x Hx. destruct m as [y|]; [|done]. injection Hx as <-. specialize (Hm y eq_refl). lia.
Qed.
Lemma window_nil m : window m [] = [].
Proof. destruct m; cbn; by rewrite ?take_nil. Qed.
Lemma inc_dec m : inc (left_dec m) = m.
Proof. destruct m as [x|]; [|done]. cbn. f_equal. lia. Qed.

Lemma rank_loop d vs pos r m pos' r' m' vs' :
  (d = 1 ∨ d = -1) → 0 < r * d → (∀ x, m = Some x → 0 < x) →
  list_loop (λ _, true) (rank_body elem d) (pos, r, m) vs = ((pos', r', m'), vs') →
  let found := drop (Z.to_nat (r * d - 1)) (posns (pos + d) d (window m vs)) in
  (r' = 0 ∧ nonneg m' ∧ ∃ v rest, vs' = v :: rest ∧ same v = true ∧
     found = pos' :: posns (pos' + d) d (window m' rest)) ∨
  (r' ≠ 0 ∧ found = []).
Proof.
  intros Hd. revert pos r m. induction vs as [|v vs IH]; intros pos r m Hr Hm E.
  { injection E as <- <- <- <-. right. split; [lia|]. cbv zeta. rewrite window_nil. apply drop_nil. }
  cbn [list_loop negb rank_body] in E. rewrite window_cons by done. cbv zeta. cbn [positions].
  assert (nonneg (left_dec m)) as Hn.
  { intros x Hx. destruct m as [y|]; [|done]. injection Hx as <-. specialize (Hm y eq_refl). lia. }
  set (r1 := if same v then r - d else r) in E.
  destruct (negb (bool_decide (left_dec m = Some 0)) && negb (r1 =? 0)) eqn:Ego.
  - apply andb_true_iff in Ego as [Hm1 Hr1]. rewrite negb_true_iff in Hm1, Hr1.
    apply bool_decide_eq_false in Hm1. apply Z.eqb_neq in Hr1.
    assert (0 < r1 * d) as Hr1' by (unfold r1 in *; destruct (same v), Hd; subst d; lia).
    assert (∀ x, left_dec m = Some x → 0 < x) as Hm'.
    { intros x Hx. specialize (Hn x Hx). rewrite Hx in Hm1. assert (x ≠ 0) by congruence. lia. }
    destruct (IH (pos + d) r1 (left_dec m) Hr1' Hm' E) as [H|H]; [left|right]; cbv zeta in H.
    all: unfold r1 in *; destruct (same v); [|done].
    all: replace (Z.to_nat (r * d - 1)) with (S (Z.to_nat ((r - d) * d - 1))) by (destruct Hd; subst d; lia); exact H.
  - injection E as <- <- <- <-. unfold r1 in *. clear r1. apply andb_false_iff in Ego.
    rewrite !negb_false_iff, bool_decide_eq_true, Z.eqb_eq in Ego. destruct (same v) eqn:Ev.
    + destruct (decide (r - d = 0)) as [Hz|Hz].
      * left. split; [done|]. split; [done|]. exists v, vs. split; [done|]. split; [done|].
        by replace (Z.to_nat (r * d - 1)) with 0%nat by (destruct Hd; subst d; lia).
      * right. split; [done|]. destruct Ego as [Hz'|]; [|done]. rewrite Hz'. cbn [window]. cbn.
        replace (Z.to_nat (r * d - 1)) with (S (Z.to_nat (r * d - 2))) by (destruct Hd; subst d; lia). by apply drop_nil.
    + right. assert (r ≠ 0) by lia. split; [done|]. destruct Ego as [Hz'|]; [|done]. rewrite Hz'. apply drop_nil.
Qed.

Lemma count_loop d vs res c pos m :
  0 <= c → nonneg m →
  (list_loop count_pre (count_body elem d) (res, c, pos, m) vs).1.1.1.1
    = res ++ take (Z.to_nat c) (posns pos d (window (inc m) vs)).
Proof.
  revert res c pos m. induction vs as [|v vs IH]; intros res c pos m Hc Hm.
  { rewrite window_nil. cbn. by rewrite take_nil, app_nil_r. }
  rewrite window_inc by done. cbn [list_loop count_pre fst snd positions]. unfold count_pre at 1. cbn [fst snd].
  destruct (Z.eqb_spec c 0) as [->|Hc0]; cbn [negb]; [by rewrite app_nil_r|].
  unfold count_body at 1. destruct (same v) eqn:Ev.
  all: destruct (more_left m) eqn:Em; cbn [fst].
  - rewrite IH; [|lia|destruct m as [x|]; [|done]; cbn in Em; intros y Hy; injection Hy as <-; lia].
    rewrite inc_dec, <- app_assoc. cbn [app]. replace (Z.to_nat c) with (S (Z.to_nat (c - 1))) by lia. done.
  - destruct m as [x|]; [|done]. specialize (Hm x eq_refl). cbn in Em. replace x with 0 by lia. cbn [window].
    replace (Z.to_nat c) with (S (Z.to_nat (c - 1))) by lia. change (Z.to_nat 0) with 0%nat. rewrite take_0. cbn. by rewrite take_nil.
  - rewrite IH; [|lia|destruct m as [x|]; [|done]; cbn in Em; intros y Hy; injection Hy as <-; lia].
    by rewrite inc_dec.
  - destruct m as [x|]; [|done]. specialize (Hm x eq_refl). cbn in Em. replace x with 0 by lia. cbn [window].
    change (Z.to_nat 0) with 0%nat. rewrite take_0. cbn. by rewrite take_nil, app_nil_r.
Qed.

Lemma first_loop vs pos m :
  nonneg m →
  (list_loop (λ _, true) (first_body elem) (pos, m, None) vs).1.2
    = match posns pos 1 (window (inc m) vs) with p :: _ => Some p | [] => None end.
Proof.
  revert pos m. induction vs as [|v vs IH]; intros pos m Hm.
  { by rewrite window_nil. }
  rewrite window_inc by done. cbn [list_loop negb positions first_body].
  destruct (same v) eqn:Ev; [done|]. destruct (more_left m) eqn:Em.
  - rewrite IH; [by rewrite inc_dec|]. destruct m as [x|]; [|done]. cbn in Em. intros y Hy. injection Hy as <-. lia.
  - destruct m as [x|]; [|done]. specialize (Hm x eq_refl). cbn in Em. by replace x with 0 by lia.
Qed.

Lemma find_pos_positions vs i :
  find_pos elem vs i = match posns i 1 vs with p :: _ => p | [] => -1 end.
Proof.
  revert i. induction vs as [|v vs IH]; intros i; cbn; [done|]. unfold same_val. destruct (beq _ _); [done|apply IH].
Qed.
Lemma positions_nonneg vs i : 0 <= i → Forall (λ p, 0 <= p) (posns i 1 vs).
Proof.
  revert i. induction vs as [|v vs IH]; intros i Hi; cbn; [constructor|].
  destruct (same v); [constructor; [done|]|]; apply IH; lia.
Qed.
Lemma positions_length vs i d : (length (posns i d vs) ≤ length vs)%nat.
Proof.
  revert i. induction vs as [|v vs IH]; intros i; cbn; [done|]. specialize (IH (i + d)). destruct (same v); cbn; lia.
Qed.
Lemma window_all n vs : n = zlen vs → window (Some n) vs = vs.
Proof. intros ->. cbn. apply take_ge. unfold zlen. lia. Qed.
Lemma window_length m vs : (length (window m vs) ≤ length vs)%nat.
Proof. destruct m; cbn; [|done]. rewrite length_take. lia. Qed.

(** What follows a walk that found its first match: the two ways to reply. *)
Definition reply (count : option Z) (found : list Z) : lpos_reply :=
  match count with
  | None => match found with p :: _ => PInt p | [] => PNil end
  | Some c => match take (Z.to_nat c) found with [] => PNil | ps => PInts ps end
  end.

Lemma reply_nil count : reply count [] = PNil.
Proof. destruct count as [c|]; [|done]. unfold reply. by rewrite take_nil. Qed.
Lemma inner_node l ps1 x ps2 vs1 v vs2 :
  rep_at l (ps1 ++ x :: ps2) (vs1 ++ v :: vs2) → length ps1 = length vs1 → x ≠ Tail l ∧ x ≠ Head l.
Proof. intros Hr Hlen. destruct (node_at _ _ _ _ _ _ _ Hr Hlen) as (n & _ & _ & _ & _ & ? & ?). done. Qed.

(** The last loops, forwards from the node of [v]. *)
Lemma finish_next l ps1 x ps2 vs1 v vs2 fuel count pos m :
  rep_at l (ps1 ++ x :: ps2) (vs1 ++ v :: vs2) → length ps1 = length vs1 → (length (x :: ps2) <= fuel)%nat →
  nonneg m → nonneg count →
  (match count with
   | None =>
       '(_, _, res, _) ← node_loop (λ _, true) (first_body elem) fuel Next (Some (Tail l)) (Some x) (pos, m, None);
       mret (if res is Some p then PInt p else PNil)
   | Some c =>
       '(res, _, _, _, _) ← node_loop count_pre (count_body elem 1) fuel Next (Some (Tail l)) (Some x) ([], c, pos, m);
       mret (match res with [] => PNil | _ => PInts res end)
   end) l = (Ret (reply count (posns pos 1 (window (inc m) (v :: vs2)))), l).
Proof.
  intros Hr Hlen Hf Hm Hc. change (Some x) with (first (Tail l) (x :: ps2)). destruct count as [c|].
  - destruct (node_loop_next count_pre (count_body elem 1) l (x :: ps2) (v :: vs2) fuel ps1 vs1 ([], c, pos, m) Hr Hlen Hf)
      as (ps1' & ps2' & vs1' & _ & _ & _ & Hrun). rewrite (bind_Ret _ _ _ _ _ Hrun).
    pose proof (count_loop 1 (v :: vs2) [] c pos m (Hc c eq_refl) Hm) as Hl.
    destruct (list_loop _ _ _ _) as [[[[res c'] pos'] m'] vs']. cbn [fst snd app reply] in *. rewrite Hl. by destruct (take _ _).
  - destruct (node_loop_next (λ _, true) (first_body elem) l (x :: ps2) (v :: vs2) fuel ps1 vs1 (pos, m, None) Hr Hlen Hf)
      as (ps1' & ps2' & vs1' & _ & _ & _ & Hrun). rewrite (bind_Ret _ _ _ _ _ Hrun).
    pose proof (first_loop (v :: vs2) pos m Hm) as Hl.
    destruct (list_loop _ _ _ _) as [[[pos' m'] res] vs']. cbn [fst snd reply] in *. rewrite Hl. by destruct (posns _ _ _).
Qed.

(** The matches in the order they are reported. *)
Definition found (rank m : option Z) (vs : list slice) : list Z :=
  let r := default 1 rank in
  if 0 <? r then drop (Z.to_nat (r - 1)) (posns 0 1 (window m vs))
  else drop (Z.to_nat (- r - 1)) (posns (zlen vs - 1) (-1) (window m (reverse vs))).
Definition or_all (n : Z) (o : option Z) : option Z := if bool_decide (o = Some 0) then Some n else o.

Lemma found_length rank m vs : (length (found rank m vs) ≤ length vs)%nat.
Proof.
  unfold found. destruct (_ <? _); rewrite length_drop.
  - pose proof (positions_length (window m vs) 0 1). pose proof (window_length m vs). lia.
  - pose proof (positions_length (window m (reverse vs)) (zlen vs - 1) (-1)).
    pose proof (window_length m (reverse vs)) as Hw. rewrite length_reverse in Hw. lia.
Qed.
Lemma spec_reply rank count maxLen vs :
  lpos_spec elem rank count maxLen vs
    = reply (or_all (zlen vs) count) (found rank (or_all (zlen vs) maxLen) vs).
Proof.
  assert (found rank (or_all (zlen vs) maxLen) vs
    = found rank (if bool_decide (maxLen = Some 0) then None else maxLen) vs) as ->.
  { unfold or_all. case_bool_decide; [|done]. unfold found.
    rewrite !window_all by (unfold zlen; by rewrite ?length_reverse). done. }
  unfold lpos_spec. fold (found rank (if bool_decide (maxLen = Some 0) then None else maxLen) vs).
  set (f := found _ _ _). assert (length f ≤ length vs)%nat by apply found_length.
  destruct count as [c|]; [|done]. unfold or_all. case_bool_decide as Hc.
  - injection Hc as ->. cbn [reply Z.eqb]. by rewrite take_ge by (unfold zlen; lia).
  - cbn [reply]. destruct (Z.eqb_spec c 0); [congruence|]. done.
Qed.

Lemma rank_next_run l ps vs r m count fuel :
  rep_at l ps vs → 0 < r → (∀ x, m = Some x → 0 < x) → nonneg count → (length ps <= fuel)%nat →
  ('(pos, rankVal, m, now) ←
     node_loop (λ _, true) (rank_body elem 1) fuel Next (Some (Tail l)) (first (Tail l) ps) (-1, r, m);
   if negb (rankVal =? 0) || bool_decide (now = Some (Tail l)) || bool_decide (now = Some (Head l)) then mret PNil
   else match count with
        | None =>
            '(_, _, res, _) ← node_loop (λ _, true) (first_body elem) fuel Next (Some (Tail l)) now (pos, m, None);
            mret (if res is Some p then PInt p else PNil)
        | Some c =>
            '(res, _, _, _, _) ← node_loop count_pre (count_body elem 1) fuel Next (Some (Tail l)) now ([], c, pos, m);
            mret (match res with [] => PNil | _ => PInts res end)
        end) l = (Ret (reply count (drop (Z.to_nat (r - 1)) (posns 0 1 (window m vs)))), l).
Proof.
  intros Hr Hr0 Hm Hc Hf.
  destruct (node_loop_next (λ _, true) (rank_body elem 1) l ps vs fuel [] [] (-1, r, m) Hr eq_refl Hf)
    as (ps1' & ps2' & vs1' & Hps & Hvs & Hlen & Hrun). rewrite (bind_Ret _ _ _ _ _ Hrun). clear Hrun. cbn [app] in *.
  destruct (list_loop _ _ _ _) as [[[pos rankVal] m'] vs'] eqn:El. cbn [fst snd] in *.
  apply (rank_loop 1) in El; [|by left|lia|done]. cbv zeta in El. rewrite Z.mul_1_r in El. change (-1 + 1) with 0 in El.
  destruct El as [(-> & Hm' & v & rest & -> & Hv & Hfound)|(Hne & Hfound)]; rewrite Hfound; cycle 1.
  { destruct (Z.eqb_spec rankVal 0); [done|]. cbn [negb orb]. by rewrite reply_nil. }
  rewrite Hps, Hvs in Hr. pose proof (rep_length _ _ _ Hr) as Hll. rewrite !length_app in Hll. cbn in Hll.
  destruct ps2' as [|x ps2']; [cbn in Hll; lia|].
  destruct (inner_node _ _ _ _ _ _ _ Hr Hlen) as [Ht Hh]. unfold first. cbn [List.hd negb Z.eqb orb].
  rewrite !bool_decide_eq_false_2 by congruence. cbn [orb].
  rewrite (finish_next l ps1' x ps2' vs1' v rest); [|done|done| |done|done].
  - rewrite window_inc by done. cbn [positions]. by rewrite Hv.
  - rewrite Hps, length_app in Hf. lia.
Qed.

Lemma rank_prev_run l ps vs r m count fuel :
  rep_at l ps vs → r < 0 → (∀ x, m = Some x → 0 < x) → nonneg count → (∀ c, count = Some c → 0 < c) →
  (length ps <= fuel)%nat →
  ('(pos, rankVal, m, now) ←
     node_loop (λ _, true) (rank_body elem (-1)) fuel Prev (Some (Head l)) (final (Head l) ps) (zlen vs, r, m);
   if negb (rankVal =? 0) || bool_decide (now = Some (Tail l)) || bool_decide (now = Some (Head l)) then mret PNil
   else match count with
        | None =>
            '(_, _, res, _) ← node_loop (λ _, true) (first_body elem) fuel Next (Some (Tail l)) now (pos, m, None);
            mret (if res is Some p then PInt p else PNil)
        | Some c =>
            '(res, _, _, _, _) ← node_loop count_pre (count_body elem (-1)) fuel Prev (Some (Head l)) now ([], c, pos, m);
            mret (match res with [] => PNil | _ => PInts res end)
        end) l = (Ret (reply count (drop (Z.to_nat (- r - 1)) (posns (zlen vs - 1) (-1) (window m (reverse vs))))), l).
Proof.
  intros Hr Hr0 Hm Hc Hc0 Hf.
  destruct (node_loop_prev (λ _, true) (rank_body elem (-1)) l ps vs fuel [] [] (zlen vs, r, m))
    as (ps1' & ps2' & vs2' & Hps & Hvs & Hlen & Hrun); [by rewrite !app_nil_r|by eapply rep_length|done|].
  rewrite (bind_Ret _ _ _ _ _ Hrun). clear Hrun. rewrite !app_nil_r in *.
  destruct (list_loop _ _ _ _) as [[[pos rankVal] m'] vs'] eqn:El. cbn [fst snd] in *.
  apply (rank_loop (-1)) in El; [|by right|lia|done]. cbv zeta in El.
  replace (r * -1 - 1) with (- r - 1) in El by lia. replace (zlen vs + -1) with (zlen vs - 1) in El by lia.
  destruct El as [(-> & Hm' & v & rest & -> & Hv & Hfound)|(Hne & Hfound)]; rewrite Hfound; cycle 1.
  { destruct (Z.eqb_spec rankVal 0); [done|]. cbn [negb orb]. by rewrite reply_nil. }
  destruct ps1' as [|x ps1' _] using rev_ind; [done|]. rewrite length_app in Hlen. cbn in Hlen.
  rewrite Hps, Hvs, reverse_cons, <- !app_assoc in Hr. cbn [app] in Hr.
  assert (length ps1' = length (reverse rest)) as Hlen' by (rewrite length_reverse; lia).
  destruct (inner_node _ _ _ _ _ _ _ Hr Hlen') as [Ht Hh]. rewrite final_snoc. cbn [negb Z.eqb orb].
  rewrite !bool_decide_eq_false_2 by congruence. cbn [orb].
  assert (length ps1' + S (length ps2') <= fuel)%nat as Hf'
    by (rewrite Hps, !length_app in Hf; cbn in Hf; lia).
  destruct count as [c|].
  - rewrite <- (final_snoc (Head l) ps1' x).
    destruct (node_loop_prev count_pre (count_body elem (-1)) l (ps1' ++ [x]) (reverse rest ++ [v]) fuel ps2' vs2' ([], c, pos, m'))
      as (q1 & q2 & u2 & _ & _ & _ & Hrun2); [by rewrite <- !app_assoc|rewrite !length_app; cbn; lia|rewrite length_app; cbn; lia|].
    rewrite (bind_Ret _ _ _ _ _ Hrun2). clear Hrun2. rewrite reverse_snoc, reverse_involutive.
    pose proof (count_loop (-1) (v :: rest) [] c pos m' (Hc c eq_refl) Hm') as Hl.
    rewrite window_inc in Hl by done. cbn [positions] in Hl. rewrite Hv in Hl.
    destruct (list_loop _ _ _ _) as [[[[res c'] pos'] m''] vs'']. cbn [fst snd app reply] in *. rewrite Hl. by destruct (take _ _).
  - rewrite (finish_next l ps1' x ps2' (reverse rest) v vs2' fuel None pos m'); [|done|done|cbn; lia|done|done].
    rewrite window_inc by done. cbn [positions]. by rewrite Hv.
Qed.

Lemma lpos_run l vs rank count maxLen :
  rep l vs → rank ≠ Some 0 → nonneg count → nonneg maxLen →
  lpos elem rank count maxLen l = (Ret (lpos_spec elem rank count maxLen vs), l).
Proof.
  intros [ps Hr] Hrank Hc Hm. pose proof Hr as (_ & _ & _ & Hlen & _). pose proof (rep_length _ _ _ Hr) as Hpl.
  unfold lpos, List_Len at 1. erewrite bind_Ret by reflexivity. cbv beta. rewrite Hlen.
  destruct (Z.eqb_spec (zlen vs) 0) as [Hz|Hz].
  { apply zlen_0 in Hz. subst vs. rewrite spec_reply. unfold found.
    cbn [reverse zlen length]. rewrite !window_nil. cbn [positions]. rewrite !drop_nil.
    by destruct (_ <? _); rewrite reply_nil. }
  rewrite spec_reply. cbv zeta. fold (or_all (zlen vs) count) (or_all (zlen vs) maxLen).
  assert (∀ o, nonneg o → ∀ x, or_all (zlen vs) o = Some x → 0 < x) as Hpos.
  { intros o Ho x. unfold or_all. pose proof (zlen_nonneg vs). case_bool_decide as Hb; [intros [= <-]; lia|].
    intros Hx. specialize (Ho x Hx). assert (x ≠ 0) by congruence. lia. }
  pose proof (Hpos _ Hc) as Hc'. pose proof (Hpos _ Hm) as Hm'.
  generalize dependent (or_all (zlen vs) count). generalize dependent (or_all (zlen vs) maxLen). clear count maxLen Hc Hm Hpos.
  intros m Hm count Hc. assert (nonneg count) as Hcn by (intros x Hx; specialize (Hc x Hx); lia).
  destruct (bool_decide (rank = None) && bool_decide (count = None) && bool_decide (m = None)) eqn:Eo.
  { apply andb_true_iff in Eo as [[E1 E2]%andb_true_iff E3].
    apply bool_decide_eq_true in E1, E2, E3. subst.
    erewrite bind_Ret by (eapply Pos_spec; by eexists). rewrite find_pos_positions. unfold found. cbn.
    pose proof (positions_nonneg vs 0 ltac:(lia)) as Hp. destruct (posns 0 1 vs) as [|p qs]; [done|].
    apply Forall_cons in Hp as [Hp _]. destruct (Z.eqb_spec p (-1)); [lia|done]. }
  clear Eo. do 3 (erewrite bind_Ret by done).
  assert (length ps <= size (nodes l))%nat as Hf by (by eapply walk_fuel_ok).
  destruct rank as [r|].
  - unfold found. change (default 1 (Some r)) with r. destruct (Z.ltb_spec 0 r) as [Hr0|Hr0].
    + rewrite bind_assoc, (bind_Ret _ _ _ _ _ (head_next _ _ _ Hr)).
      assert ((r <? 0) = false) as -> by lia. by apply rank_next_run.
    + rewrite bind_assoc, (bind_Ret _ _ _ _ _ (tail_prev _ _ _ Hr)).
      assert (r ≠ 0) by congruence. assert ((r <? 0) = true) as -> by lia. apply rank_prev_run; try done. lia.
  - rewrite bind_assoc, (bind_Ret _ _ _ _ _ (head_next _ _ _ Hr)). change (default 1 None) with 1.
    destruct ps as [|x ps], vs as [|v vs]; try done.
    destruct (inner_node l [] x ps [] v vs Hr eq_refl) as [Ht Hh].
    rewrite (bind_Ret _ _ _ ((0, 0, left_dec m), first (Tail l) (x :: ps)) l) by done. cbv beta iota.
    unfold first. cbn [List.hd Z.eqb negb orb].
    rewrite !bool_decide_eq_false_2 by congruence. cbn [orb]. change (1 <? 0) with false.
    unfold found. change (default 1 None) with 1. change (0 <? 1) with true. change (Z.to_nat (1 - 1)) with 0%nat. rewrite drop_0.
    rewrite (finish_next l [] x ps [] v vs); try done; [by rewrite inc_dec|].
    intros y Hy. destruct m as [z|]; [|done]. injection Hy as <-. specialize (Hm z eq_refl). lia.
Qed.
End lpos_correct.

(** C33: The search of LPOS over the linked list returns what its options ask for:
    the positions of the matches among the first MAXLEN elements (the last ones,
    from the end, for a negative RANK; 0 means all), from the RANK-th match on,
    at most COUNT of them; without COUNT the first of these or nil. *)
Theorem LPOS_equiv elem rank count maxLen l vs :
  rep l vs → rank ≠ Some 0 → nonneg count → nonneg maxLen →
  lpos elem rank count maxLen l = (Ret (lpos_spec elem rank count maxLen vs), l).
Proof. apply lpos_run. Qed.

Lemma LPOS_equiv_witness :
  let v s := Some (lit s) in
  ∃ l, rep l [v "a"; v "b"; v "a"]%string ∧
    lpos (v "a"%string) (Some (-1)) (Some 0) (Some 0) l = (Ret (PInts [2; 0]), l).
Proof.
  destruct NewList_rep as [ps0 H0].
  destruct (RPush_spec NewList ps0 [] (Some (lit "a")) H0) as (l1 & q1 & _ & H1); [done|].
  destruct (RPush_spec l1 _ _ (Some (lit "b")) H1) as (l2 & q2 & _ & H2); [done|].
  destruct (RPush_spec l2 _ _ (Some (lit "a")) H2) as (l3 & q3 & _ & H3); [done|].
  exists l3. split; [eexists; exact H3|].
  etransitivity; [apply (LPOS_equiv _ _ _ _ l3 [Some (lit "a"); Some (lit "b"); Some (lit "a")])|reflexivity].
  - eexists; exact H3.
  - discriminate.
  - intros x [= <-]. done.
  - intros x [= <-]. done.
Defined.
