(* ===== verification/ListOps.v ===== *)
(** * Operations on lists as values

    The operations of [ListStruct.v] and the search of [ListPos.v] as one type, with
    their meaning on the sequence of values, and the theorem that the linked list
    implements it. *)

From S2P Require Import Prelude ListStruct ListPos.
From Stdlib Require Import Ascii String ZArith Lia.
From stdpp Require Import prelude gmap list.
Open Scope Z_scope.

(** ** The abstract specification: operations on a sequence of values *)
Inductive list_op :=
  | OLPush (v : slice) | ORPush (v : slice) | OLPop | ORPop
  | OLen | OIndex (i : Z) | OPos (v : slice) | OSet (i : Z) (v : slice)
  | ORange (start stop : Z) | OInsertBefore (v tar : slice) | OInsertAfter (v tar : slice)
  | ORemove (v : slice) (count : Z) | OTrim (start stop : Z) | OClear
  | OLPos (elem : slice) (rank count maxLen : option Z).

Inductive list_reply :=
  | LUnit | LInt (n : Z) | LBool (b : bool) | LVal (o : option slice)
  | LVals (vs : option (list slice))   (* [None]: the nil slice *)
  | LPos (r : lpos_reply).

Definition list_spec (o : list_op) (vs : list slice) : list_reply * list slice :=
  match o with
  | OLPush v => (LUnit, v :: vs)
  | ORPush v => (LUnit, vs ++ [v])
  | OLPop => (LVal (vs !! 0%nat), drop 1 vs)
  | ORPop => (LVal (last vs), take (length vs - 1) vs)
  | OLen => (LInt (zlen vs), vs)
  | OIndex i => (LVal (index_spec (zlen vs) i ≫= λ i, vs !! i), vs)
  | OPos v => (LInt (find_pos v vs 0), vs)
  | OSet i v =>
      match index_spec (zlen vs) i with
      | Some i => (LBool true, <[i := v]> vs)
      | None => (LBool false, vs)
      end
  | ORange start stop =>
      (LVals (if norm_range (zlen vs) start stop is Some _ then Some (range_spec vs start stop) else None), vs)
  | OInsertBefore v tar => (LInt (find_pos tar vs 0), insert_spec false v tar vs)
  | OInsertAfter v tar =>
      (LInt (if find_pos tar vs 0 =? -1 then -1 else find_pos tar vs 0 + 1), insert_spec true v tar vs)
  | ORemove v count => (LInt (lrem_spec v count vs).2, (lrem_spec v count vs).1)
  | OTrim start stop => (LUnit, range_spec vs start stop)
  | OClear => (LUnit, [])
  | OLPos elem rank count maxLen => (LPos (lpos_spec elem rank count maxLen vs), vs)
  end.

(** The value of a returned node; nil gives [None]. *)
Definition node_reply (p : option positive) : LM list_reply :=
  match p with
  | None => mret (LVal None)
  | _ => v ← node_Val p; mret (LVal (Some v))
  end.

Definition list_step (o : list_op) : LM list_reply :=
  match o with
  | OLPush v => List_LPush v;; mret LUnit
  | ORPush v => List_RPush v;; mret LUnit
  | OLPop => p ← List_LPop; node_reply p
  | ORPop => p ← List_RPop; node_reply p
  | OLen => n ← List_Len; mret (LInt n)
  | OIndex i => p ← List_Index i; node_reply p
  | OPos v => n ← List_Pos v; mret (LInt n)
  | OSet i v => b ← List_Set i v; mret (LBool b)
  | ORange start stop => r ← List_Range start stop; mret (LVals r)
  | OInsertBefore v tar => n ← List_InsertBefore v tar; mret (LInt n)
  | OInsertAfter v tar => n ← List_InsertAfter v tar; mret (LInt n)
  | ORemove v count => n ← List_RemoveElement v count; mret (LInt n)
  | OTrim start stop => List_Trim start stop;; mret LUnit
  | OClear => List_Clear;; mret LUnit
  | OLPos elem rank count maxLen => r ← lpos elem rank count maxLen; mret (LPos r)
  end.

(** The integer arguments are Go [int]s. *)
Definition list_op_ok (o : list_op) : Prop :=
  match o with
  | OIndex i | OSet i _ => in_int64 i
  | ORange a b | OTrim a b => in_int64 a ∧ in_int64 b
  | ORemove _ c => in_int64 c
  | OLPos _ rank count maxLen => rank ≠ Some 0 ∧ 0 <= default 0 count ∧ 0 <= default 0 maxLen
  | _ => True
  end.

Lemma node_reply_ok l p v : vl (nodes l) p = Some v → node_reply (Some p) l = (Ret (LVal (Some v)), l).
Proof.
  unfold vl. intros E. destruct (nodes l !! p) as [n|] eqn:En; [|done]. injection E as <-.
  unfold node_reply, node_Val. rewrite bind_assoc. by erewrite bind_Ret by (by apply deref_ok).
Qed.

Lemma list_step_spec o l vs :
  rep l vs → list_op_ok o → zlen vs < MaxInt64 →
  ∃ l', list_step o l = (Ret (list_spec o vs).1, l') ∧ rep l' (list_spec o vs).2.
Proof.
  intros Hrep Hok Hmax. pose proof Hrep as [ps Hr].
  destruct o as [v|v| | | |i|v|i v|a b|v tar|v tar|v c|a b| |elem rank count maxLen]; cbn [list_step list_spec].
  - destruct (LPush_spec l ps vs v Hr Hmax) as (l' & q & E & Hr'). exists l'.
    erewrite bind_Ret by done. split; [done|by eexists].
  - destruct (RPush_spec l ps vs v Hr Hmax) as (l' & q & E & Hr'). exists l'.
    erewrite bind_Ret by done. split; [done|by eexists].
  - destruct vs as [|v vs], ps as [|x ps]; try (by pose proof (rep_length _ _ _ Hr)).
    { exists l. by erewrite bind_Ret by (by eapply LPop_nil). }
    destruct (LPop_spec l x ps v vs Hr) as (l' & E & Hr' & Hv). exists l'.
    erewrite bind_Ret by done. rewrite (node_reply_ok _ _ _ Hv). split; [done|by eexists].
  - destruct vs as [|v vs _] using rev_ind.
    { exists l. by erewrite bind_Ret by (by eapply RPop_nil). }
    destruct ps as [|x ps _] using rev_ind; [pose proof (rep_length _ _ _ Hr) as Hl; rewrite length_app in Hl; cbn in Hl; lia|].
    destruct (RPop_spec l x ps v vs Hr) as (l' & E & Hr' & Hv). exists l'.
    erewrite bind_Ret by done. rewrite (node_reply_ok _ _ _ Hv), last_snoc, length_app. cbn.
    rewrite Nat.add_sub, take_app_length. split; [done|by eexists].
  - exists l. pose proof Hr as (_ & _ & _ & Hlen & _). erewrite bind_Ret by done. by rewrite Hlen.
  - exists l. erewrite bind_Ret by (by eapply Index_spec). split; [|done]. cbn [fst].
    destruct (index_spec (zlen vs) i) as [k|] eqn:Ei; [|done]. cbn.
    pose proof (rep_length _ _ _ Hr) as Hl. destruct Hr as (_ & _ & Hvals & _).
    apply (f_equal (lookup k)) in Hvals. rewrite !list_lookup_fmap in Hvals.
    destruct (ps !! k) as [x|], (vs !! k) as [v|]; try done. injection Hvals as Hv. by apply node_reply_ok.
  - exists l. erewrite bind_Ret by (by eapply Pos_spec). done.
  - destruct (List_Set_spec l ps vs i v Hr Hok) as (l' & E & Hr'). exists l'.
    erewrite bind_Ret by done. destruct (index_spec (zlen vs) i); (split; [done|by eexists]).
  - destruct Hok as [Ha Hb]. exists l. by erewrite bind_Ret by (by apply Range_spec).
  - destruct (Insert_spec l vs v tar Hrep Hmax) as [(l' & E & Hr') _]. exists l'. by erewrite bind_Ret by done.
  - destruct (Insert_spec l vs v tar Hrep Hmax) as [_ (l' & E & Hr')]. exists l'. by erewrite bind_Ret by done.
  - destruct (RemoveElement_spec l vs v c Hrep Hok) as (l' & E & Hr'). exists l'.
    by erewrite bind_Ret by done.
  - destruct Hok as [Ha Hb]. destruct (Trim_spec l vs a b Hrep Ha Hb) as (l' & E & Hr'). exists l'.
    by erewrite bind_Ret by done.
  - destruct (List_Clear_spec l vs Hrep) as (l' & E & Hr'). exists l'. by erewrite bind_Ret by done.
  - exists l. destruct Hok as (H1 & H2 & H3). erewrite bind_Ret by (apply lpos_run; [done|done|by intros x ->|by intros x ->]). done.
Qed.

Fixpoint list_spec_run (ops : list list_op) (vs : list slice) : list list_reply * list slice :=
  match ops with
  | [] => ([], vs)
  | o :: ops =>
      let '(r, vs) := list_spec o vs in
      let '(rs, vs) := list_spec_run ops vs in (r :: rs, vs)
  end.
Fixpoint list_run (ops : list list_op) : LM (list list_reply) :=
  match ops with
  | [] => mret []
  | o :: ops => r ← list_step o; rs ← list_run ops; mret (r :: rs)
  end.

Lemma remove_spec_length val c vs : (length (remove_spec val c vs).1 <= length vs)%nat.
Proof.
  revert c. induction vs as [|v vs IH]; intros c; cbn; [done|]. repeat case_match; simplify_eq/=; try lia.
  - specialize (IH (c - 1)). rewrite H1 in IH. cbn in IH. lia.
  - specialize (IH c). rewrite H1 in IH. cbn in IH. lia.
Qed.

Lemma list_spec_length o vs : (length (list_spec o vs).2 <= S (length vs))%nat.
Proof.
  destruct o as [v|v| | | |i|v|i v|a b|v tar|v tar|v c|a b| |elem rank count maxLen]; cbn; try lia.
  - rewrite length_app. cbn. lia.
  - rewrite length_drop. lia.
  - rewrite length_take. lia.
  - destruct (index_spec _ _); cbn; rewrite ?length_insert; lia.
  - induction vs as [|w vs IH]; cbn; [lia|]. destruct (beq _ _); cbn in *; lia.
  - induction vs as [|w vs IH]; cbn; [lia|]. destruct (beq _ _); cbn in *; lia.
  - unfold lrem_spec. pose proof (remove_spec_length v (zlen vs) vs). pose proof (remove_spec_length v c vs).
    pose proof (remove_spec_length v (int64 (- c)) (reverse vs)) as Hr. rewrite length_reverse in Hr.
    destruct (remove_spec v (int64 (- c)) (reverse vs)) as [r n]. cbn [fst] in Hr.
    repeat case_bool; cbn [fst]; rewrite ?length_reverse; lia.
  - unfold range_spec. rewrite length_take, length_drop. lia.
Qed.

Lemma list_run_spec ops : ∀ l vs,
  rep l vs → Forall list_op_ok ops → zlen vs + zlen ops <= MaxInt64 →
  ∃ l', list_run ops l = (Ret (list_spec_run ops vs).1, l') ∧ rep l' (list_spec_run ops vs).2.
Proof.
  induction ops as [|o ops IH]; intros l vs Hrep Hok Hmax; [by exists l|].
  rewrite zlen_cons in Hmax. pose proof (zlen_nonneg ops). apply Forall_cons in Hok as [Ho Hok].
  destruct (list_step_spec o l vs Hrep Ho) as (l1 & E1 & Hrep1); [lia|].
  pose proof (list_spec_length o vs) as Hl. cbn [list_run list_spec_run].
  destruct (list_spec o vs) as [r vs1]. cbn [fst snd] in *.
  destruct (IH l1 vs1 Hrep1 Hok) as (l' & E & Hrep'); [unfold zlen in *; lia|].
  destruct (list_spec_run ops vs1) as [rs vs2]. exists l'. cbn [fst snd] in *.
  erewrite bind_Ret by done. by erewrite bind_Ret by done.
Qed.

(** C7: any sequence of list operations on a new list, with pointers rewired and
    nodes allocated as in the code, returns what the same operations on a
    sequence of values return (pushes, pops, indexing from either end, search,
    ranges with negative positions, insertion, removal from either end,
    trimming), never dereferences nil and never loops. *)
Theorem List_refines (ops : list list_op) :
  Forall list_op_ok ops → zlen ops <= MaxInt64 →
  ∃ l', list_run ops NewList = (Ret (list_spec_run ops []).1, l') ∧ rep l' (list_spec_run ops []).2.
Proof. intros Hok Hmax. apply list_run_spec; [apply NewList_rep|done|done]. Qed.

Lemma List_refines_witness :
  let a := Some (lit "a") in let b := Some (lit "b") in
  ∃ l', list_run [ORPush a; ORPush b; ORPush a; OTrim 1 (-1); ORemove a (-1); OLPop] NewList =
    (Ret [LUnit; LUnit; LUnit; LUnit; LInt 1; LVal (Some b)], l') ∧ rep l' [].
Proof.
  cbv zeta.
  destruct (List_refines [ORPush (Some (lit "a")); ORPush (Some (lit "b")); ORPush (Some (lit "a"));
    OTrim 1 (-1); ORemove (Some (lit "a")) (-1); OLPop]) as (l' & E & Hrep).
  - repeat constructor; done.
  - by vm_compute.
  - exists l'. split; [exact E|exact Hrep].
Defined.
