(* ===== verification/SetStruct.v ===== *)
(** * The set object

    [src/pkg/memdb/set_struct.go]: [Set], a Go map used as a set with a separate
    element count.  Where the code ranges over the map, the visiting order is an
    argument; results that do not depend on it are folds over the elements. *)

From S2P Require Import Prelude.
From Stdlib Require Import Ascii String ZArith Lia.
From stdpp Require Import prelude gmap list sets fin_sets.
Open Scope Z_scope.

Record GoSet := mkSet { table : gset bytes; ssize : Z }.

Definition NewSet : GoSet := mkSet ∅ 0.

Definition Set_Add (key : bytes) (s : GoSet) : Z * GoSet :=
  if decide (key ∈ table s) then (0, s) else (1, mkSet ({[key]} ∪ table s) (ssize s + 1)).

Definition Set_Remove (key : bytes) (s : GoSet) : Z * GoSet :=
  if decide (key ∈ table s) then (1, mkSet (table s ∖ {[key]}) (ssize s - 1)) else (0, s).

Definition Set_Len (s : GoSet) : Z := ssize s.
Definition Set_Has (key : bytes) (s : GoSet) : bool := bool_decide (key ∈ table s).

(** [order] is the order in which [range s.table] visits the keys. *)
Definition Set_Pop (order : list bytes → list bytes) (s : GoSet) : bytes * GoSet :=
  match order (elements (table s)) with
  | key :: _ => (key, (Set_Remove key s).2)
  | [] => ([], s)
  end.

Definition Set_Clear (s : GoSet) : GoSet := mkSet ∅ 0.

Definition Set_Members (order : list bytes → list bytes) (s : GoSet) : list bytes :=
  order (elements (table s)).

(** Adding the elements of another set, one by one. *)
Definition union_into (res set : GoSet) : GoSet :=
  foldl (λ res key, if decide (key ∈ table res) then res
                    else mkSet ({[key]} ∪ table res) (ssize res + 1)) res (elements (table set)).
Definition Set_Union (s : GoSet) (sets : list GoSet) : GoSet :=
  foldl union_into (mkSet (table s) (Z.of_nat (size (table s)))) sets.

(** Sets are compared as pointers in [Intersect]: an operand is a location with
    the set stored there. *)
Definition smallest_of (s : positive * GoSet) (sets : list (positive * GoSet)) : positive * GoSet :=
  foldl (λ smallest set, if Set_Len set.2 <? Set_Len smallest.2 then set else smallest) s sets.

Definition Set_Intersect (s : positive * GoSet) (sets : list (positive * GoSet)) : GoSet :=
  match sets with
  | [] => mkSet (table s.2) (Z.of_nat (size (table s.2)))
  | _ =>
      let smallest := smallest_of s sets in
      foldl (λ res key,
        if bool_decide (smallest.1 ≠ s.1) && negb (Set_Has key s.2) then res
        else if forallb (λ set, bool_decide (set.1 = smallest.1) || Set_Has key set.2) sets
        then mkSet ({[key]} ∪ table res) (ssize res + 1) else res)
      NewSet (elements (table smallest.2))
  end.

Definition Set_Difference (s : GoSet) (sets : list GoSet) : GoSet :=
  let res := foldl (λ res key, (Set_Add key res).2) NewSet (elements (table s)) in
  foldl (λ res set, foldl (λ res key, (Set_Remove key res).2) res (elements (table set))) res sets.

Definition Set_IsSubset (s set : GoSet) : bool :=
  forallb (λ key, Set_Has key set) (elements (table s)).

(** [Random]: reservoir sampling for a small positive count; [rnd i n] is the
    [i]-th call of [rand.Intn(n)]. *)
Fixpoint reservoir (rnd : nat → Z → Z) (count : Z) (i : nat) (keys res : list bytes) : list bytes :=
  match keys with
  | [] => res
  | key :: keys =>
      reservoir rnd count (S i) keys
        (if Z.of_nat i <? count then res ++ [key]
         else
           let j := rnd i (Z.of_nat i + 1) in
           if j <? count then <[Z.to_nat j := key]> res else res)
  end.

(** [res[i] = members[rand.Intn(size)]] for [n] values of [i]; an index outside
    [members] panics. *)
Fixpoint sample (rnd : nat → Z → Z) (members : list bytes) (size : Z) (n : nat) : outcome (list bytes) :=
  match n with
  | O => Ret []
  | S n' =>
      rest ← sample rnd members size n';
      match members !! Z.to_nat (rnd n' size) with
      | Some m => Ret (rest ++ [m])
      | None => Panics
      end
  end.

Definition Set_Random (order : list bytes → list bytes) (rnd : nat → Z → Z) (count : Z) (s : GoSet)
    : outcome (list bytes) :=
  let size := Set_Len s in
  if (count =? 0) || (size =? 0) then Ret []
  else if 0 <? count then
    if size <=? count then Ret (Set_Members order s)
    else Ret (reservoir rnd count 0 (order (elements (table s))) [])
  else
    let count := int64 (- count) in
    if make_ok 16 count then sample rnd (Set_Members order s) size (Z.to_nat count) else Panics.

(** ** Invariant: the count is the number of elements *)
Definition set_ok (s : GoSet) : Prop := ssize s = Z.of_nat (size (table s)).

Lemma NewSet_ok : set_ok NewSet.
Proof. unfold set_ok. cbn. by rewrite size_empty. Qed.

Lemma size_add (X : gset bytes) k : k ∉ X → size ({[k]} ∪ X) = S (size X).
Proof. intros Hk. rewrite size_union by set_solver. by rewrite size_singleton. Qed.

Lemma Set_Add_spec key s :
  set_ok s → set_ok (Set_Add key s).2 ∧ table (Set_Add key s).2 = {[key]} ∪ table s ∧
  (Set_Add key s).1 = if decide (key ∈ table s) then 0 else 1.
Proof.
  unfold set_ok, Set_Add. intros Hok. case_decide; cbn; split_and!; try done; [set_solver|].
  rewrite size_add by done. lia.
Qed.

Lemma Set_Remove_spec key s :
  set_ok s → set_ok (Set_Remove key s).2 ∧ table (Set_Remove key s).2 = table s ∖ {[key]} ∧
  (Set_Remove key s).1 = if decide (key ∈ table s) then 1 else 0.
Proof.
  unfold set_ok, Set_Remove. intros Hok. case_decide; cbn; split_and!; try done; [|set_solver].
  assert (table s = {[key]} ∪ table s ∖ {[key]}) as E.
  { apply set_eq. intros x. destruct (decide (x = key)); set_solver. }
  rewrite Hok. rewrite E at 1. rewrite size_add by set_solver. lia.
Qed.

(** The fold behind [Union]: only membership matters, not the visiting order. *)
Lemma union_into_spec keys res :
  set_ok res →
  let r := foldl (λ res key, if decide (key ∈ table res) then res
                    else mkSet ({[key]} ∪ table res) (ssize res + 1)) res keys in
  set_ok r ∧ table r = table res ∪ list_to_set keys.
Proof.
  revert res. induction keys as [|k keys IH]; intros res Hok; cbn; [split; [done|set_solver]|].
  destruct (IH (if decide (k ∈ table res) then res else mkSet ({[k]} ∪ table res) (ssize res + 1))) as [Hok' ->].
  - case_decide; [done|]. unfold set_ok in *. cbn. rewrite size_add by done. lia.
  - split; [done|]. case_decide; cbn; set_solver.
Qed.

Lemma Set_Union_spec s sets :
  set_ok (Set_Union s sets) ∧
  ∀ x, x ∈ table (Set_Union s sets) ↔ x ∈ table s ∨ ∃ t, t ∈ sets ∧ x ∈ table t.
Proof.
  unfold Set_Union. set (r0 := mkSet (table s) _).
  assert (set_ok r0) as Hok by done. assert (table r0 = table s) as <- by done.
  clearbody r0. revert r0 Hok. induction sets as [|t sets IH]; intros r0 Hok; cbn; [split; [done|set_solver]|].
  destruct (union_into_spec (elements (table t)) r0 Hok) as [Hok' E].
  destruct (IH (union_into r0 t) Hok') as [Hok'' Hx]. split; [done|]. intros x.
  rewrite Hx. unfold union_into. rewrite E. set_solver.
Qed.

Lemma Set_Difference_spec s sets :
  set_ok (Set_Difference s sets) ∧
  ∀ x, x ∈ table (Set_Difference s sets) ↔ x ∈ table s ∧ ∀ t, t ∈ sets → x ∉ table t.
Proof.
  assert (∀ keys r, set_ok r → set_ok (foldl (λ res key, (Set_Add key res).2) r keys) ∧
    table (foldl (λ res key, (Set_Add key res).2) r keys) = table r ∪ list_to_set keys) as Hadd.
  { induction keys as [|k keys IH]; intros r Hr; cbn; [split; [done|set_solver]|].
    destruct (Set_Add_spec k r Hr) as (Hr' & E & _). destruct (IH _ Hr') as [? ->]. split; [done|set_solver]. }
  assert (∀ keys r, set_ok r → set_ok (foldl (λ res key, (Set_Remove key res).2) r keys) ∧
    table (foldl (λ res key, (Set_Remove key res).2) r keys) = table r ∖ list_to_set keys) as Hrem.
  { induction keys as [|k keys IH]; intros r Hr; cbn; [split; [done|set_solver]|].
    destruct (Set_Remove_spec k r Hr) as (Hr' & E & _). destruct (IH _ Hr') as [? ->]. split; [done|set_solver]. }
  unfold Set_Difference. destruct (Hadd (elements (table s)) NewSet NewSet_ok) as [Hok E].
  cbv zeta. set (r0 := foldl _ NewSet _) in *.
  assert (table r0 = table s) as <- by (rewrite E; cbn; set_solver). clearbody r0. clear E.
  revert r0 Hok. induction sets as [|t sets IH]; intros r0 Hok; cbn; [split; [done|set_solver]|].
  destruct (Hrem (elements (table t)) r0 Hok) as [Hok' E].
  destruct (IH _ Hok') as [Hok'' Hx]. split; [done|]. intros x. rewrite Hx, E. set_solver.
Qed.

Lemma smallest_of_elem s sets : smallest_of s sets = s ∨ smallest_of s sets ∈ sets.
Proof.
  unfold smallest_of. revert s. induction sets as [|t sets IH]; intros s; cbn; [by left|].
  destruct (IH (if Set_Len t.2 <? Set_Len s.2 then t else s)) as [E|Hin]; [|right; by right].
  rewrite E. destruct (_ <? _); [right; left|by left].
Qed.

(** Every operand is the object at its location: equal locations, equal sets. *)
Definition operands_ok (l : list (positive * GoSet)) : Prop :=
  ∀ a b, a ∈ l → b ∈ l → a.1 = b.1 → a.2 = b.2.

(** [Intersect] iterates over the smallest operand and skips it when it checks
    the others; the result is the intersection all the same. *)
Lemma Set_Intersect_spec s sets :
  operands_ok (s :: sets) →
  set_ok (Set_Intersect s sets) ∧
  ∀ x, x ∈ table (Set_Intersect s sets) ↔ ∀ t, t ∈ s :: sets → x ∈ table t.2.
Proof.
  intros Hops. unfold Set_Intersect. destruct sets as [|t0 sets'] eqn:Es.
  { split; [done|]. cbn. intros x. split; [|intros Ht; apply Ht; left].
    intros Hx t Ht%list_elem_of_singleton. by subst. }
  rewrite <- Es in *. clear Es t0 sets'.
  pose proof (smallest_of_elem s sets) as Hsm. set (sm := smallest_of s sets) in *. clearbody sm. cbv zeta.
  assert (sm ∈ s :: sets) as Hin by (destruct Hsm as [->|]; [left|by right]).
  set (keep := λ key, negb (bool_decide (sm.1 ≠ s.1) && negb (Set_Has key s.2)) &&
     forallb (λ set, bool_decide (set.1 = sm.1) || Set_Has key set.2) sets).
  assert (∀ key, keep key = true ↔ (∀ t, t ∈ s :: sets → t.1 ≠ sm.1 → key ∈ table t.2)) as Hkeep.
  { intros key. unfold keep. rewrite andb_true_iff, negb_true_iff, andb_false_iff, bool_decide_eq_false,
      negb_false_iff, forallb_forall. unfold Set_Has. rewrite bool_decide_eq_true. split.
    - intros [Hs Ht] t [->|Htin]%elem_of_cons Hne; [destruct Hs as [Hs|]; [|done]; by apply dec_stable in Hs|].
      apply list_elem_of_In in Htin. specialize (Ht t Htin). rewrite orb_true_iff, !bool_decide_eq_true in Ht. naive_solver.
    - intros Ht. split.
      + destruct (decide (sm.1 = s.1)); [by left; intros []|right]. apply Ht; [left|done].
      + intros t Htin%list_elem_of_In. rewrite orb_true_iff, !bool_decide_eq_true.
        destruct (decide (t.1 = sm.1)); [by left|right]. apply Ht; [by right|done]. }
  assert (∀ keys r, NoDup keys → set_ok r → (∀ k, k ∈ keys → k ∉ table r) →
    let r' := foldl (λ res key,
        if bool_decide (sm.1 ≠ s.1) && negb (Set_Has key s.2) then res
        else if forallb (λ set, bool_decide (set.1 = sm.1) || Set_Has key set.2) sets
        then mkSet ({[key]} ∪ table res) (ssize res + 1) else res) r keys in
    set_ok r' ∧ ∀ x, x ∈ table r' ↔ x ∈ table r ∨ x ∈ keys ∧ keep x = true) as Hfold.
  { induction keys as [|k keys IH]; intros r Hnd Hr Hdis; cbn [foldl]; [split; [done|set_solver]|].
    apply NoDup_cons in Hnd as [Hk Hnd].
    set (r1 := if bool_decide (sm.1 ≠ s.1) && negb (Set_Has k s.2) then r else _).
    assert (r1 = if keep k then mkSet ({[k]} ∪ table r) (ssize r + 1) else r) as Er1.
    { unfold r1, keep. destruct (bool_decide (sm.1 ≠ s.1) && negb (Set_Has k s.2)); [done|]. cbn.
      by destruct (forallb _ sets). }
    clearbody r1. destruct (IH r1 Hnd) as [Hr' Hx].
    - rewrite Er1. destruct (keep k); [|done]. unfold set_ok in *. cbn. rewrite size_add by (apply Hdis; left). lia.
    - intros k' Hk'. rewrite Er1. destruct (keep k); cbn; [|apply Hdis; by right].
      rewrite elem_of_union, elem_of_singleton. intros [->|Hin']; [done|]. by apply (Hdis k'); [right|].
    - split; [done|]. intros x. rewrite Hx, Er1, elem_of_cons. destruct (keep k) eqn:Ek; cbn;
        rewrite ?elem_of_union, ?elem_of_singleton; naive_solver congruence. }
  destruct (Hfold (elements (table sm.2)) NewSet) as [Hok Hx]; [apply NoDup_elements|apply NewSet_ok|set_solver|].
  split; [done|]. intros x. rewrite Hx, elem_of_elements, Hkeep. split.
  - intros [Hf|[Hxm Ht]] t Htin; [cbn in Hf; set_solver|]. destruct (decide (t.1 = sm.1)) as [E|]; [|by apply Ht].
    by rewrite (Hops t sm Htin Hin E).
  - intros Ht. right. split; [by apply Ht|]. intros t Htin _. by apply Ht.
Qed.

(** ** [Pop], [Members] and [Random] *)
Lemma Set_Pop_spec order s :
  (∀ ks, order ks ≡ₚ ks) → set_ok s → table s ≠ ∅ →
  let '(key, s') := Set_Pop order s in
  key ∈ table s ∧ set_ok s' ∧ table s' = table s ∖ {[key]}.
Proof.
  intros Hord Hok Hne. unfold Set_Pop. destruct (order (elements (table s))) as [|key ks] eqn:E.
  - assert (elements (table s) ≡ₚ []) as Hn by (by rewrite <- Hord, E).
    apply Permutation_nil_r, elements_empty_inv in Hn. by apply leibniz_equiv in Hn.
  - destruct (Set_Remove_spec key s Hok) as (Hok' & Et & _). split_and!; [|done..].
    apply elem_of_elements. rewrite <- Hord, E. left.
Qed.

Lemma NoDup_insert {A} (l : list A) i x : NoDup l → x ∉ l → NoDup (<[i := x]> l).
Proof.
  intros Hnd Hx. apply NoDup_alt. intros j k y. rewrite !list_lookup_insert.
  rewrite NoDup_alt in Hnd. repeat case_decide; try naive_solver.
  - intros [= <-] Hk. apply list_elem_of_lookup_2 in Hk. done.
  - intros Hj [= <-]. apply list_elem_of_lookup_2 in Hj. done.
Qed.

Lemma reservoir_spec rnd count : ∀ keys i res (X : list bytes),
  0 < count → NoDup keys → NoDup res → (∀ k, k ∈ res → k ∈ X) → (∀ k, k ∈ keys → k ∉ X) →
  zlen res = Z.min (Z.of_nat i) count →
  let r := reservoir rnd count i keys res in
  NoDup r ∧ (∀ k, k ∈ r → k ∈ X ∨ k ∈ keys) ∧ zlen r = Z.min (Z.of_nat i + zlen keys) count.
Proof.
  induction keys as [|key keys IH]; intros i res X Hc Hnd Hr Hin Hdis Hlen; cbn [reservoir].
  { rewrite zlen_nil, Z.add_0_r. split_and!; try done. intros; left; auto. }
  apply NoDup_cons in Hnd as [Hk Hnd].
  assert (key ∉ res) as Hkr by (intros H%Hin; by apply (Hdis key); [left|]).
  set (res' := if Z.of_nat i <? count then _ else _).
  destruct (IH (S i) res' (key :: X)) as (Hnd' & Hin' & Hlen').
  - done.
  - done.
  - unfold res'. case_bool; [|case_bool; [by apply NoDup_insert|done]].
    apply NoDup_app. split_and!; [done|set_solver|apply NoDup_singleton].
  - intros k. unfold res'. case_bool; [set_solver|]. case_bool; [|intros; right; auto].
    intros [j Hj]%list_elem_of_lookup. rewrite list_lookup_insert in Hj. case_decide.
    + injection Hj as <-. left.
    + right. apply Hin. by eapply list_elem_of_lookup_2.
  - intros k Hkk. rewrite not_elem_of_cons. split; [by intros ->|]. apply Hdis. by right.
  - unfold res'. case_bool; [autorewrite with zlen; lia|]. case_bool; unfold zlen in *; rewrite ?length_insert; lia.
  - cbv zeta. split_and!; [done| |].
    + intros k Hkr'. destruct (Hin' k Hkr') as [Hk'|]; [|right; by right].
      apply elem_of_cons in Hk' as [->|]; [right; left|by left].
    + rewrite Hlen', zlen_cons. lia.
Qed.

Lemma sample_spec rnd members size n :
  (∀ i, 0 <= rnd i size < zlen members) →
  ∃ r, sample rnd members size n = Ret r ∧ length r = n ∧ ∀ k, k ∈ r → k ∈ members.
Proof.
  intros Hr. induction n as [|n IH]; cbn [sample]; [exists []; split_and!; [done..|set_solver]|].
  destruct IH as (r & -> & Hl & Hin). cbn.
  destruct (lookup_lt_is_Some_2 members (Z.to_nat (rnd n size))) as [m Hm].
  { specialize (Hr n). unfold zlen in Hr. lia. }
  rewrite Hm. eexists. split_and!; [done|rewrite length_app; cbn; lia|].
  intros k. rewrite elem_of_app, list_elem_of_singleton. intros [?| ->]; [auto|by eapply list_elem_of_lookup_2].
Qed.

(** for any visiting order and any random generator within its range,
    [Random] with a positive count returns that many distinct members (all of
    them when the set is smaller), and with a negative count exactly [|count|]
    members, possibly repeated. *)
Theorem Set_Random_members order rnd count s :
  (∀ ks, order ks ≡ₚ ks) → (∀ i n, 0 < n → 0 <= rnd i n < n) →
  set_ok s → 0 < ssize s → count ≠ 0 → - 2 ^ 43 <= count <= MaxInt64 →
  ∃ r, Set_Random order rnd count s = Ret r ∧ (∀ k, k ∈ r → k ∈ table s) ∧
    (0 < count → NoDup r ∧ zlen r = Z.min count (ssize s)) ∧
    (count < 0 → zlen r = - count).
Proof.
  intros Hord Hrnd Hok Hpos Hc Hcr. unfold Set_Random, Set_Len.
  assert (zlen (order (elements (table s))) = ssize s) as Hlen.
  { unfold zlen. by rewrite Hord, Hok. }
  assert (∀ k, k ∈ order (elements (table s)) ↔ k ∈ table s) as Hel by (intros k; by rewrite Hord, elem_of_elements).
  destruct (Z.eqb_spec count 0); [done|]. destruct (Z.eqb_spec (ssize s) 0); [lia|]. cbn [orb].
  destruct (Z.ltb_spec 0 count).
  - destruct (Z.leb_spec (ssize s) count).
    + eexists. split; [done|]. unfold Set_Members. split_and!; [by intros k; rewrite Hel| |lia].
      intros _. split; [|lia]. rewrite Hord. apply NoDup_elements.
    + destruct (reservoir_spec rnd count (order (elements (table s))) 0 [] []) as (Hnd & Hin & Hl);
        [done|rewrite Hord; apply NoDup_elements|apply NoDup_nil_2|set_solver|set_solver|rewrite zlen_nil; lia|].
      eexists. split; [done|]. split_and!; [|intros _; split; [done|rewrite Hl; cbn; lia]|lia].
      intros k Hk. apply Hel. destruct (Hin k Hk) as [[]%not_elem_of_nil|]; done.
  - rewrite int64_id by (unfold in_int64, MinInt64, MaxInt64 in *; lia).
    assert (make_ok 16 (- count) = true) as ->.
    { unfold make_ok, maxAlloc. apply andb_true_iff. split; [lia|].
      apply Z.leb_le. change (2 ^ 48) with (2 ^ 43 * 32). lia. }
    destruct (sample_spec rnd (Set_Members order s) (ssize s) (Z.to_nat (- count))) as (r & E & Hl & Hin).
    { intros i. unfold Set_Members. rewrite Hlen. by apply Hrnd. }
    exists r. split_and!; [done| |lia|unfold zlen; lia]. intros k Hk. by apply Hel, Hin.
Qed.

Lemma Set_Random_members_witness :
  ∃ r, Set_Random (λ ks, ks) (λ i n, Z.of_nat i mod n) 2
    (mkSet {[lit "a"; lit "b"; lit "c"]} 3) = Ret r ∧ zlen r = 2.
Proof.
  destruct (Set_Random_members (λ ks, ks) (λ i n, Z.of_nat i mod n) 2
    (mkSet {[lit "a"; lit "b"; lit "c"]} 3)) as (r & E & _ & Hp & _).
  - done.
  - intros i n Hn. apply Z.mod_pos_bound. done.
  - by vm_compute.
  - done.
  - done.
  - done.
  - exists r. split; [exact E|]. destruct (Hp eq_refl) as [_ ->]. reflexivity.
Defined.

(** [Union], [Intersect] and [Difference] compute the set-theoretic results
    whatever the order in which the maps are visited, with the element count
    right; [Intersect] also when an operand occurs more than once. *)
Theorem Set_algebra (s : positive * GoSet) (sets : list (positive * GoSet)) :
  operands_ok (s :: sets) →
  (set_ok (Set_Union s.2 sets.*2) ∧
   ∀ x, x ∈ table (Set_Union s.2 sets.*2) ↔ ∃ t, t ∈ s :: sets ∧ x ∈ table t.2) ∧
  (set_ok (Set_Intersect s sets) ∧
   ∀ x, x ∈ table (Set_Intersect s sets) ↔ ∀ t, t ∈ s :: sets → x ∈ table t.2) ∧
  (set_ok (Set_Difference s.2 sets.*2) ∧
   ∀ x, x ∈ table (Set_Difference s.2 sets.*2) ↔ x ∈ table s.2 ∧ ∀ t, t ∈ sets → x ∉ table t.2).
Proof.
  intros Hops. destruct (Set_Union_spec s.2 sets.*2) as [Hu Hux].
  destruct (Set_Difference_spec s.2 sets.*2) as [Hd Hdx].
  split_and!; try done; try (by apply Set_Intersect_spec).
  - intros x. rewrite Hux. setoid_rewrite elem_of_cons. setoid_rewrite list_elem_of_fmap. naive_solver.
  - intros x. rewrite Hdx. setoid_rewrite list_elem_of_fmap. naive_solver.
Qed.

Lemma Set_algebra_witness :
  let a := mkSet {[lit "x"; lit "y"]} 2 in let b := mkSet {[lit "y"; lit "z"]} 2 in
  lit "y" ∈ table (Set_Intersect (1%positive, a) [(2%positive, b); (1%positive, a)]).
Proof.
  cbv zeta.
  destruct (Set_algebra (1%positive, mkSet {[lit "x"; lit "y"]} 2)
    [(2%positive, mkSet {[lit "y"; lit "z"]} 2); (1%positive, mkSet {[lit "x"; lit "y"]} 2)]) as (_ & (_ & Hi) & _).
  - intros a b Ha Hb. repeat (apply elem_of_cons in Ha as [->|Ha]); repeat (apply elem_of_cons in Hb as [->|Hb]);
      try (by apply not_elem_of_nil in Ha); try (by apply not_elem_of_nil in Hb); done.
  - apply Hi. intros t Ht. repeat (apply elem_of_cons in Ht as [->|Ht]);
      try (by apply not_elem_of_nil in Ht); by apply (bool_decide_unpack _).
Defined.
