(* ===== verification/HashStruct.v ===== *)
(** * The hash object

    [src/pkg/memdb/hash_struct.go]: [Hash], a Go map from fields to values with a
    separate count.  The text of floating-point numbers is a parameter ([Host]). *)

From S2P Require Import Prelude Float.
From Stdlib Require Import Ascii String ZArith Lia.
From stdpp Require Import prelude gmap list fin_maps.
Open Scope Z_scope.

Record Hash := mkHash { htable : gmap bytes slice; hsize : Z }.

Definition NewHash : Hash := mkHash ∅ 0.

Definition Hash_Set (key : bytes) (value : slice) (h : Hash) : Hash :=
  mkHash (<[key := value]> (htable h)) (if htable h !! key is Some _ then hsize h else hsize h + 1).

(** [h.table[key]]: nil when the field is missing. *)
Definition Hash_Get (key : bytes) (h : Hash) : slice := default None (htable h !! key).

Definition Hash_Del (key : bytes) (h : Hash) : Z * Hash :=
  match htable h !! key with
  | Some _ => (1, mkHash (delete key (htable h)) (hsize h - 1))
  | None => (0, h)
  end.

Definition Hash_Len (h : Hash) : Z := hsize h.

Definition fields (h : Hash) : list bytes := (map_to_list (htable h)).*1.

(** [order] is the order in which [range h.table] visits the fields. *)
Definition Hash_Keys (order : list bytes → list bytes) (h : Hash) : list bytes := order (fields h).
Definition Hash_Values (order : list bytes → list bytes) (h : Hash) : list slice :=
  (λ k, Hash_Get k h) <$> order (fields h).
Definition Hash_Clear (h : Hash) : Hash := mkHash ∅ 0.
Definition Hash_IsEmpty (h : Hash) : bool := hsize h =? 0.
Definition Hash_Exist (key : bytes) (h : Hash) : bool := bool_decide (is_Some (htable h !! key)).
Definition Hash_StrLen (key : bytes) (h : Hash) : Z := slen (Hash_Get key h).

(** The endless part of [Random] and [RandomWithValue]: the table is visited
    again and again until [count] fields are collected; [orders i] is the order
    of the [i]-th visit.  A visit of an empty table collects nothing: the loop
    never ends. *)
Fixpoint cycle (orders : nat → list bytes → list bytes) (h : Hash) (fuel : nat) (count : nat)
    (res : list bytes) : outcome (list bytes) :=
  if (count <=? length res)%nat then Ret res
  else match fuel with
       | O => Blocks
       | S fuel => cycle orders h fuel count (take count (res ++ orders fuel (fields h)))
       end.

(** The fields [Random(count)] and [RandomWithValue(count)] return; a visit
    collects at least one field of a table that is not empty, so [count] visits
    are enough. *)
Definition Hash_Random (orders : nat → list bytes → list bytes) (count : Z) (h : Hash)
    : outcome (list bytes) :=
  let size := Hash_Len h in
  if (count =? 0) || (size =? 0) then Ret []
  else if 0 <? count then
    let count := if size <? count then size else count in
    Ret (take (Z.to_nat count) (orders 0%nat (fields h)))
  else
    let n := int64 (- count) in
    if make_ok 16 n then cycle orders h (Z.to_nat n) (Z.to_nat n) [] else Panics.

(** With values, [make([][]byte, 0, 2*count)] has elements of 24 bytes. *)
Definition Hash_RandomWithValue (orders : nat → list bytes → list bytes) (count : Z) (h : Hash)
    : outcome (list slice) :=
  let size := Hash_Len h in
  if (count =? 0) || (size =? 0) then Ret []
  else if 0 <? count then
    let count := if size <? count then size else count in
    if make_ok 24 (int64 (count * 2)) then
      Ret (flat_map (λ k, [Some k; Hash_Get k h]) (take (Z.to_nat count) (orders 0%nat (fields h))))
    else Panics
  else
    let n := int64 (int64 (- count) * 2) in
    if make_ok 24 n then
      ks ← cycle orders h (Z.to_nat n) (Z.to_nat (n / 2)) [];
      Ret (flat_map (λ k, [Some k; Hash_Get k h]) ks)
    else Panics.

(** [IncrBy]: the new value, or [None] when the field is not an integer. *)
Definition Hash_IncrBy (key : bytes) (incr : Z) (h : Hash) : option Z * Hash :=
  let currentVal := Hash_Get key h in
  if slen currentVal =? 0 then
    (Some incr, mkHash (<[key := Some (FormatInt incr)]> (htable h)) (hsize h + 1))
  else
    match Atoi (str currentVal) with
    | inr _ => (None, h)
    | inl value =>
        let value := int64 (value + incr) in
        (Some value, mkHash (<[key := Some (FormatInt value)]> (htable h)) (hsize h))
    end.

Definition Hash_IncrByFloat `{Host} (key : bytes) (incr : float64) (h : Hash) : option float64 * Hash :=
  let currentVal := Hash_Get key h in
  if slen currentVal =? 0 then
    (Some incr, mkHash (<[key := Some (FormatFloat incr)]> (htable h)) (hsize h + 1))
  else
    match ParseFloat (str currentVal) with
    | None => (None, h)
    | Some value =>
        let value := fadd value incr in
        (Some value, mkHash (<[key := Some (FormatFloat value)]> (htable h)) (hsize h))
    end.

(** ** Invariant *)
Definition hash_ok (h : Hash) : Prop := hsize h = Z.of_nat (size (htable h)).

Lemma NewHash_ok : hash_ok NewHash.
Proof. done. Qed.

Lemma Hash_Set_ok key v h : hash_ok h → hash_ok (Hash_Set key v h).
Proof.
  unfold hash_ok, Hash_Set. cbn. intros ->. rewrite map_size_insert.
  destruct (htable h !! key); cbn; lia.
Qed.

Lemma Hash_Del_ok key h : hash_ok h → hash_ok (Hash_Del key h).2.
Proof.
  unfold hash_ok, Hash_Del. intros Hok. destruct (htable h !! key) eqn:E; cbn; [|done].
  rewrite map_size_delete, E. cbn. rewrite Hok.
  assert (size (htable h) ≠ 0%nat); [|lia]. intros H0%map_size_empty_iff. by rewrite H0 in E.
Qed.

Lemma Hash_Get_Set key key' v h :
  Hash_Get key' (Hash_Set key v h) = if decide (key = key') then v else Hash_Get key' h.
Proof. unfold Hash_Get, Hash_Set. cbn. rewrite lookup_insert. by case_decide. Qed.

Lemma fields_elem k h : k ∈ fields h ↔ is_Some (htable h !! k).
Proof.
  unfold fields. rewrite list_elem_of_fmap. split.
  - intros ([k' v] & -> & Hin%elem_of_map_to_list). cbn. eauto.
  - intros [v Hv]. exists (k, v). split; [done|]. by apply elem_of_map_to_list.
Qed.

(** [IncrBy] counts a field again when the field exists with an empty value:
    the count then exceeds the number of fields for good. *)
Theorem Hash_IncrBy_size key incr h :
  hash_ok h →
  (hash_ok (Hash_IncrBy key incr h).2 ↔ htable h !! key = None ∨ slen (Hash_Get key h) ≠ 0).
Proof.
  unfold hash_ok, Hash_IncrBy. intros Hok. pose proof (zlen_nonneg (str (Hash_Get key h))).
  destruct (Z.eqb_spec (slen (Hash_Get key h)) 0) as [E|Hne]; cbn.
  - rewrite map_size_insert. destruct (htable h !! key) eqn:Ek; cbn.
    + split; [lia|]. by intros [?|?].
    + split; [by left|lia].
  - assert (htable h !! key = None ∨ slen (Hash_Get key h) ≠ 0) by (by right).
    destruct (Atoi _) as [v|]; cbn; [|done]. rewrite map_size_insert.
    unfold Hash_Get in Hne. destruct (htable h !! key) eqn:Ek; [|done]. cbn. split; [done|lia].
Qed.

Lemma Hash_IncrBy_size_witness :
  hash_ok (Hash_IncrBy (lit "f") 5 (mkHash {[lit "f" := Some (lit "37")]} 1)).2.
Proof. apply Hash_IncrBy_size; [reflexivity|]. right. vm_compute. discriminate. Defined.

Lemma cycle_empty orders h fuel count :
  (∀ i, orders i (fields h) = []) → (0 < count)%nat → cycle orders h fuel count [] = Blocks.
Proof.
  intros He Hc. induction fuel as [|fuel IH]; cbn; destruct (Nat.leb_spec count 0); try lia; [done|].
  rewrite He. cbn. by rewrite take_nil.
Qed.

Lemma cycle_spec orders h count : (∀ i, orders i (fields h) ≡ₚ fields h) → fields h ≠ [] →
  ∀ fuel res, (∀ k, k ∈ res → k ∈ fields h) → (length res <= count)%nat → (count <= fuel + length res)%nat →
  ∃ r, cycle orders h fuel count res = Ret r ∧ length r = count ∧ ∀ k, k ∈ r → k ∈ fields h.
Proof.
  intros Hord Hne. induction fuel as [|fuel IH]; intros res Hin Hle Hf; cbn.
  - destruct (Nat.leb_spec count (length res)); [|lia]. exists res. split_and!; [done|lia|done].
  - destruct (Nat.leb_spec count (length res)); [exists res; split_and!; [done|lia|done]|].
    assert (0 < length (orders fuel (fields h)))%nat.
    { rewrite Hord. destruct (fields h); [done|cbn; lia]. }
    apply IH.
    + intros k Hk. apply subseteq_take, elem_of_app in Hk as [?|Hk]; [auto|]. by rewrite Hord in Hk.
    + rewrite length_take. lia.
    + rewrite length_take, length_app. lia.
Qed.

(** [HRANDFIELD]'s loop for a negative count ends with exactly [|count|]
    fields of the hash when its table has a field; when the table is empty
    although the count says otherwise, it never ends. *)
Theorem Hash_Random_negative orders count h :
  (∀ i ks, orders i ks ≡ₚ ks) → hsize h ≠ 0 → - 2 ^ 43 <= count < 0 →
  (htable h ≠ ∅ → ∃ r, Hash_Random orders count h = Ret r ∧ zlen r = - count ∧ ∀ k, k ∈ r → is_Some (htable h !! k)) ∧
  (htable h = ∅ → Hash_Random orders count h = Blocks).
Proof.
  intros Hord Hsz Hc. unfold Hash_Random, Hash_Len.
  destruct (Z.eqb_spec count 0); [lia|]. destruct (Z.eqb_spec (hsize h) 0); [done|]. cbn [orb].
  destruct (Z.ltb_spec 0 count); [lia|].
  rewrite int64_id by (unfold in_int64, MinInt64, MaxInt64 in *; lia).
  assert (make_ok 16 (- count) = true) as ->.
  { unfold make_ok, maxAlloc. apply andb_true_iff. split; [lia|].
    apply Z.leb_le. change (2 ^ 48) with (2 ^ 43 * 32). lia. }
  split; intros Ht.
  - destruct (cycle_spec orders h (Z.to_nat (- count)) (λ i, Hord i _)) with (fuel := Z.to_nat (- count)) (res := @nil bytes)
      as (r & E & Hl & Hin).
    + destruct (map_choose _ Ht) as (k & v & Hk). intros Hn.
      assert (k ∈ fields h) as Hin by (apply fields_elem; eauto). rewrite Hn in Hin. by apply not_elem_of_nil in Hin.
    + intros k []%not_elem_of_nil.
    + cbn. lia.
    + lia.
    + exists r. split_and!; [done|unfold zlen; lia|]. intros k Hk. by apply fields_elem, Hin.
  - apply cycle_empty; [|lia]. intros i. assert (fields h = []) as -> by (unfold fields; by rewrite Ht, map_to_list_empty).
    by apply Permutation_nil_r.
Qed.

Lemma Hash_Random_negative_witness :
  Hash_Random (λ _ ks, ks) (-1) (mkHash ∅ 1) = Blocks.
Proof.
  destruct (Hash_Random_negative (λ _ ks, ks) (-1) (mkHash ∅ 1)) as [_ He].
  - done.
  - done.
  - done.
  - apply He. reflexivity.
Defined.
