(* ===== verification/ZSetStruct.v ===== *)
(** * The sorted set object

    [src/pkg/memdb/zset_struct.go]: a skip list with a dictionary.  Nodes live in
    an arena of locations; each has an array of [MaxLevel] forward pointers and
    one of spans.  A method is a program over the object; a nil dereference
    panics, and a walk that does not end is [Blocks]. *)

From S2P Require Import Prelude Float.
From Stdlib Require Import Ascii String ZArith Lia SpecFloat.
From stdpp Require Import prelude gmap list fin_maps sorting.
Open Scope Z_scope.

Definition MaxLevel : nat := 32.
Definition Probability : float64 := quarter.

Record zSetNode := mkZSetNode {
  zn_member : bytes;
  zn_score : float64;
  zn_level : nat;
  zn_forward : list (option positive);
  zn_span : list Z;
}.

Record ZSet := mkZSet {
  z_nodes : gmap positive zSetNode;
  z_header : positive;
  z_tail : option positive;
  z_level : nat;
  z_length : Z;
  z_dict : gmap bytes float64;
}.

Abbreviation ZM := (M ZSet).

Definition newZSetNode (level : nat) (member : bytes) (score : float64) : zSetNode :=
  mkZSetNode member score level (replicate MaxLevel None) (replicate MaxLevel 0).

Definition NewZSet : ZSet :=
  mkZSet {[ 1%positive := newZSetNode MaxLevel [] (S754_zero false) ]} 1 None 1 0 ∅.

(** [rand.Float64() < Probability && level < MaxLevel]; the level reaches
    [MaxLevel] after at most 31 rounds. *)
Fixpoint randomLevel_loop (rnd : nat → float64) (fuel i level : nat) : nat :=
  match fuel with
  | O => level
  | S fuel =>
      if flt (rnd i) Probability && (level <? MaxLevel)%nat then randomLevel_loop rnd fuel (S i) (S level)
      else level
  end.
Definition randomLevel (rnd : nat → float64) : nat := randomLevel_loop rnd MaxLevel 0 1.

(** ** Access to nodes *)
Definition z_load (p : positive) : ZM zSetNode := λ z,
  match z_nodes z !! p with Some n => (Ret n, z) | None => (Panics, z) end.
Definition z_store (p : positive) (n : zSetNode) : ZM unit := λ z,
  (Ret tt, mkZSet (<[p := n]> (z_nodes z)) (z_header z) (z_tail z) (z_level z) (z_length z) (z_dict z)).

Definition get_forward (i : nat) (p : positive) : ZM (option positive) := n ← z_load p; Prelude.index (zn_forward n) i.
Definition get_span (i : nat) (p : positive) : ZM Z := n ← z_load p; Prelude.index (zn_span n) i.
Definition set_forward (i : nat) (p : positive) (q : option positive) : ZM unit :=
  n ← z_load p;
  if (i <? length (zn_forward n))%nat then
    z_store p (mkZSetNode (zn_member n) (zn_score n) (zn_level n) (<[i := q]> (zn_forward n)) (zn_span n))
  else mpanic.
Definition set_span (i : nat) (p : positive) (s : Z) : ZM unit :=
  n ← z_load p;
  if (i <? length (zn_span n))%nat then
    z_store p (mkZSetNode (zn_member n) (zn_score n) (zn_level n) (zn_forward n) (<[i := s]> (zn_span n)))
  else mpanic.

Definition z_get {A} (f : ZSet → A) : ZM A := λ z, (Ret (f z), z).
Definition set_tail (t : option positive) : ZM unit := λ z,
  (Ret tt, mkZSet (z_nodes z) (z_header z) t (z_level z) (z_length z) (z_dict z)).
Definition set_level (l : nat) : ZM unit := λ z,
  (Ret tt, mkZSet (z_nodes z) (z_header z) (z_tail z) l (z_length z) (z_dict z)).
Definition set_length (l : Z) : ZM unit := λ z,
  (Ret tt, mkZSet (z_nodes z) (z_header z) (z_tail z) (z_level z) l (z_dict z)).
Definition set_dict (d : gmap bytes float64) : ZM unit := λ z,
  (Ret tt, mkZSet (z_nodes z) (z_header z) (z_tail z) (z_level z) (z_length z) d).
Definition z_alloc (n : zSetNode) : ZM positive := λ z,
  let p := fresh (dom (z_nodes z)) in
  (Ret p, mkZSet (<[p := n]> (z_nodes z)) (z_header z) (z_tail z) (z_level z) (z_length z) (z_dict z)).

(** ** The descent

    The four searches of the code walk every level from the top down to 0; they
    differ in the condition to go on, and in what they record.  [walk] goes along
    level [i] while the next node exists and [cond] holds of the spans added up so
    far, the span to the next node, and the next node.  A level has fewer steps
    than there are nodes. *)
Fixpoint zwalk (fuel i : nat) (cond : Z → Z → zSetNode → bool) (current : positive) (acc : Z) : ZM (positive * Z) :=
  match fuel with
  | O => λ z, (Blocks, z)
  | S fuel =>
      next ← get_forward i current;
      match next with
      | None => mret (current, acc)
      | Some p =>
          n ← z_load p;
          s ← get_span i current;
          if cond acc s n then zwalk fuel i cond p (acc + s) else mret (current, acc)
      end
  end.

(** Levels [i - 1] to 0; the results are the last node, the spans added up, and for
    each level the node and the sum where its walk ended ([update] and [rank]). *)
Fixpoint descend (i : nat) (cond : Z → Z → zSetNode → bool) (current : positive) (acc : Z)
    : ZM (positive * Z * list positive * list Z) :=
  match i with
  | O => mret (current, acc, [], [])
  | S i =>
      fuel ← z_get (λ z, size (z_nodes z));
      '(current, acc) ← zwalk fuel i cond current acc;
      '(c, a, update, rank) ← descend i cond current acc;
      mret (c, a, update ++ [current], rank ++ [acc])
  end.

(** [score < s || (score == s && member < m)] *)
Definition before (score : float64) (member : bytes) (n : zSetNode) : bool :=
  flt (zn_score n) score || (feq (zn_score n) score && str_ltb (zn_member n) member).
Definition not_after (score : float64) (member : bytes) (n : zSetNode) : bool :=
  flt (zn_score n) score || (feq (zn_score n) score && str_leb (zn_member n) member).

(** ** deleteNode *)
Fixpoint unlink_levels (i fuel : nat) (update : list positive) (current : positive) : ZM unit :=
  match fuel with
  | O => mret tt
  | S fuel =>
      u ← Prelude.index update i;
      f ← get_forward i u;
      if bool_decide (f = Some current) then
        su ← get_span i u;
        sc ← get_span i current;
        set_span i u (su + (sc - 1));;
        fc ← get_forward i current;
        set_forward i u fc;;
        unlink_levels (S i) fuel update current
      else mret tt
  end.

(** The second loop: [update[i].span[i]--] where the level ends there. *)
Fixpoint shorten_ends (i : nat) (update : list positive) : ZM unit :=
  match i with
  | O => mret tt
  | S i =>
      u ← Prelude.index update i;
      f ← get_forward i u;
      match f with
      | None => s ← get_span i u; set_span i u (s - 1)
      | Some _ => mret tt
      end;;
      shorten_ends i update
  end.

Fixpoint shrink_level (level : nat) : ZM unit :=
  match level with
  | S ((S _) as l) =>
      h ← z_get z_header;
      f ← get_forward l h;
      match f with
      | None => set_level l;; shrink_level l
      | Some _ => mret tt
      end
  | _ => mret tt
  end.

(** The body of the [if]: the node [c] was found. *)
Definition unlink_node (level : nat) (header : positive) (update : list positive) (c : positive) (member : bytes)
    : ZM unit :=
  unlink_levels 0 level update c;;
  shorten_ends level update;;
  f0 ← get_forward 0 c;
  (match f0 with
   | None =>
       u0 ← Prelude.index update 0;
       if bool_decide (u0 = header) then set_tail None else set_tail (Some u0)
   | Some _ => mret tt
   end);;
  shrink_level level;;
  d ← z_get z_dict;
  set_dict (delete member d);;
  len ← z_get z_length;
  set_length (len - 1).

Definition deleteNode (member : bytes) (score : float64) : ZM unit :=
  level ← z_get z_level;
  header ← z_get z_header;
  '(current, _, update, _) ← descend level (λ _ _, before score member) header 0;
  current ← get_forward 0 current;
  match current with
  | None => mret tt
  | Some c =>
      n ← z_load c;
      if feq (zn_score n) score && beq (zn_member n) member then
        unlink_node level header update c member
      else mret tt
  end.

(** ** Add *)
(** [for i := z.level; i < newLevel; i++]: the header is the predecessor. *)
Fixpoint raise_levels (i n : nat) (header : positive) (length : Z) : ZM unit :=
  match n with
  | O => mret tt
  | S n => set_span i header length;; raise_levels (S i) n header length
  end.

Fixpoint link_levels (i n : nat) (update : list positive) (rank : list Z) (newNode : positive) : ZM unit :=
  match n with
  | O => mret tt
  | S n =>
      u ← Prelude.index update i;
      f ← get_forward i u;
      set_forward i newNode f;;
      set_forward i u (Some newNode);;
      r0 ← Prelude.index rank 0;
      ri ← Prelude.index rank i;
      su ← get_span i u;
      set_span i newNode (su - (r0 - ri));;
      set_span i u (r0 - ri + 1);;
      link_levels (S i) n update rank newNode
  end.

Fixpoint widen_levels (i n : nat) (update : list positive) : ZM unit :=
  match n with
  | O => mret tt
  | S n =>
      u ← Prelude.index update i;
      s ← get_span i u;
      set_span i u (s + 1);;
      widen_levels (S i) n update
  end.

(** [Add] after the check of an existing member. *)
Definition Add_insert (rnd : nat → float64) (member : bytes) (score : float64) : ZM bool :=
  level ← z_get z_level;
  header ← z_get z_header;
  '(_, _, update, rank) ← descend level (λ _ _, before score member) header 0;
  let newLevel := randomLevel rnd in
  len ← z_get z_length;
  (if (level <? newLevel)%nat then
     raise_levels level (newLevel - level) header len;; set_level newLevel
   else mret tt);;
  let update := update ++ replicate (newLevel - level) header in
  let rank := rank ++ replicate (newLevel - level) 0 in
  newNode ← z_alloc (newZSetNode newLevel member score);
  link_levels 0 newLevel update rank newNode;;
  level ← z_get z_level;
  widen_levels newLevel (level - newLevel) update;;
  f0 ← get_forward 0 newNode;
  (match f0 with None => set_tail (Some newNode) | Some _ => mret tt end);;
  d ← z_get z_dict;
  set_dict (<[member := score]> d);;
  len ← z_get z_length;
  set_length (len + 1);;
  mret true.

Definition ZSet_Add (rnd : nat → float64) (member : bytes) (score : float64) : ZM bool :=
  d ← z_get z_dict;
  match d !! member with
  | Some oldScore =>
      if feq oldScore score then mret false
      else deleteNode member oldScore;; Add_insert rnd member score
  | None => Add_insert rnd member score
  end.

Definition ZSet_Get (member : bytes) : ZM float64 :=
  d ← z_get z_dict; mret (default NaN (d !! member)).

Definition ZSet_Remove (member : bytes) : ZM bool :=
  d ← z_get z_dict;
  match d !! member with
  | None => mret false
  | Some score => deleteNode member score;; mret true
  end.

Definition ZSet_Len : ZM Z := z_get z_length.

(** A loop over level 0 from [current] on; [f] returns the new result and whether to
    go on. *)
Fixpoint level0 {A} (fuel : nat) (f : A → zSetNode → A * bool) (current : option positive) (a : A) : ZM A :=
  match current with
  | None => mret a
  | Some p =>
      match fuel with
      | O => λ z, (Blocks, z)
      | S fuel =>
          n ← z_load p;
          let '(a, go) := f a n in
          if go : bool then next ← get_forward 0 p; level0 fuel f next a else mret a
      end
  end.
Definition from_header {A} (f : A → zSetNode → A * bool) (a : A) : ZM A :=
  fuel ← z_get (λ z, size (z_nodes z));
  header ← z_get z_header;
  first ← get_forward 0 header;
  level0 fuel f first a.

Definition ZSet_Count (min max : float64) : ZM Z :=
  from_header (λ count n,
    if fgt (zn_score n) max then (count, false)
    else (if fge (zn_score n) min then count + 1 else count, true)) 0.

Definition ZSet_RangeByScore (min max : float64) (offset count : Z) : ZM (list (bytes * float64)) :=
  let offset := if offset <? 0 then 0 else offset in
  r ← from_header (λ '(res, skipped) n,
    if fgt (zn_score n) max then ((res, skipped), false)
    else if fge (zn_score n) min then
      if offset <=? skipped then
        let res := res ++ [(zn_member n, zn_score n)] in
        ((res, skipped), negb ((0 <? count) && (count <=? zlen res)))
      else ((res, skipped + 1), true)
    else ((res, skipped), true)) ([], 0);
  mret r.1.

Definition ZSet_IncrBy (rnd : nat → float64) (member : bytes) (increment : float64) : ZM float64 :=
  d ← z_get z_dict;
  newScore ← (match d !! member with
              | Some oldScore => deleteNode member oldScore;; mret (fadd oldScore increment)
              | None => mret increment
              end);
  ZSet_Add rnd member newScore;;
  mret newScore.

Definition ZSet_Rank (member : bytes) : ZM Z :=
  d ← z_get z_dict;
  match d !! member with
  | None => mret (-1)
  | Some score =>
      level ← z_get z_level;
      header ← z_get z_header;
      '(current, rank, _, _) ← descend level (λ _ _, not_after score member) header 0;
      n ← z_load current;
      if beq (zn_member n) member then mret (rank - 1) else mret (-1)
  end.

Definition ZSet_RevRank (member : bytes) : ZM Z :=
  rank ← ZSet_Rank member;
  if rank =? -1 then mret (-1) else len ← z_get z_length; mret (len - rank - 1).

(** The bounds of a range of ranks; [None] is an empty range. *)
Definition rank_bounds (len start stop : Z) : option (Z * Z) :=
  let start := if start <? 0 then len + start else start in
  let stop := if stop <? 0 then len + stop else stop in
  let start := if start <? 0 then 0 else start in
  let stop := if len <=? stop then len - 1 else stop in
  if (stop <? start) || (len <=? start) then None else Some (start, stop).

(** [None] is a nil result. *)
Definition ZSet_Range (start stop : Z) : ZM (option (list (bytes * float64))) :=
  len ← z_get z_length;
  match rank_bounds len start stop with
  | None => mret None
  | Some (start, stop) =>
      level ← z_get z_level;
      header ← z_get z_header;
      '(current, _, _, _) ← descend level (λ traversed span _, traversed + span <=? start) header 0;
      first ← get_forward 0 current;
      fuel ← z_get (λ z, size (z_nodes z));
      r ← level0 fuel (λ '(res, i) n,
            ((res ++ [(zn_member n, zn_score n)], i + 1), i + 1 <=? stop)) first ([], start);
      mret (Some r.1)
  end.

Definition ZSet_RevRange (start stop : Z) : ZM (option (list (bytes * float64))) :=
  len ← z_get z_length;
  match rank_bounds len start stop with
  | None => mret None
  | Some (start, stop) =>
      r ← ZSet_Range (len - stop - 1) (len - start - 1);
      mret (reverse <$> r)
  end.

Definition remove_all (members : list bytes) : ZM Z :=
  mfold (λ removed member, b ← ZSet_Remove member; mret (if b : bool then removed + 1 else removed)) 0 members.

Definition ZSet_RemRangeByRank (start stop : Z) : ZM Z :=
  len ← z_get z_length;
  match rank_bounds len start stop with
  | None => mret 0
  | Some (start, stop) =>
      r ← ZSet_Range start stop;
      remove_all (default [] r).*1
  end.

Definition ZSet_RemRangeByScore (min max : float64) : ZM Z :=
  toRemove ← from_header (λ res n,
    if fgt (zn_score n) max then (res, false)
    else (if fge (zn_score n) min then res ++ [zn_member n] else res, true)) [];
  remove_all toRemove.
