(* ===== verification/ZSetSpec.v ===== *)
(** * Correctness of the sorted set object

    The skip list of [ZSetStruct.v] is represented by the sequence of its nodes in
    level-0 order.  The links of every level are determined by that sequence and
    the levels of the nodes; spans are counted separately, because [deleteNode]
    does not keep them. *)

From S2P Require Import Prelude Float ZSetStruct.
From Stdlib Require Import Ascii String ZArith Lia SpecFloat.
From stdpp Require Import prelude gmap list fin_maps sorting.
Open Scope Z_scope.

(** ** Views of a skip list *)
Definition fwd (z : ZSet) (i : nat) (p : positive) : option positive :=
  n ← z_nodes z !! p; q ← zn_forward n !! i; q.
Definition spn (z : ZSet) (i : nat) (p : positive) : Z :=
  default 0 (n ← z_nodes z !! p; zn_span n !! i).

(** What the pointer updates leave alone. *)
Definition static (n : zSetNode) : bytes * float64 * nat := (zn_member n, zn_score n, zn_level n).
Definition meta (z : ZSet) : gmap positive (bytes * float64 * nat) := static <$> z_nodes z.
Definition lev (z : ZSet) (p : positive) : nat := default 0%nat (snd <$> meta z !! p).
Definition ent (z : ZSet) (p : positive) : bytes * float64 := default ([], NaN) (fst <$> meta z !! p).
Definition frame (z : ZSet) := (meta z, z_header z, z_tail z, z_level z, z_length z, z_dict z).

Definition arrays (z : ZSet) : Prop :=
  map_Forall (λ _ n, length (zn_forward n) = MaxLevel ∧ length (zn_span n) = MaxLevel) (z_nodes z).

Lemma meta_node z p x : meta z !! p = Some x → ∃ n, z_nodes z !! p = Some n ∧ static n = x.
Proof. unfold meta. rewrite lookup_fmap, fmap_Some. naive_solver. Qed.
Lemma meta_is_Some z p : is_Some (meta z !! p) ↔ is_Some (z_nodes z !! p).
Proof. unfold meta. by rewrite lookup_fmap, fmap_is_Some. Qed.
Lemma ent_node z p n : z_nodes z !! p = Some n → ent z p = (zn_member n, zn_score n).
Proof. intros E. unfold ent, meta. by rewrite lookup_fmap, E. Qed.
Lemma lev_node z p n : z_nodes z !! p = Some n → lev z p = zn_level n.
Proof. intros E. unfold lev, meta. by rewrite lookup_fmap, E. Qed.

Section access.
Context (z : ZSet) (Harr : arrays z) (p : positive) (Hp : is_Some (meta z !! p)).

Lemma z_load_run : ∃ n, z_nodes z !! p = Some n ∧ z_load p z = (Ret n, z).
Proof.
  apply meta_is_Some in Hp as [n E]. exists n. unfold z_load. by rewrite E.
Qed.
Lemma get_forward_run i : (i < MaxLevel)%nat → get_forward i p z = (Ret (fwd z i p), z).
Proof.
  intros Hi. destruct z_load_run as (n & E & Hl). unfold get_forward. rewrite (bind_Ret _ _ _ _ _ Hl).
  unfold fwd, Prelude.index. rewrite E. cbn. destruct (Harr _ _ E) as [Hf _].
  destruct (lookup_lt_is_Some_2 (zn_forward n) i) as [q ->]; [lia|done].
Qed.
Lemma get_span_run i : (i < MaxLevel)%nat → get_span i p z = (Ret (spn z i p), z).
Proof.
  intros Hi. destruct z_load_run as (n & E & Hl). unfold get_span. rewrite (bind_Ret _ _ _ _ _ Hl).
  unfold spn, Prelude.index. rewrite E. cbn. destruct (Harr _ _ E) as [_ Hs].
  destruct (lookup_lt_is_Some_2 (zn_span n) i) as [q ->]; [lia|done].
Qed.

Lemma set_forward_run i q : (i < MaxLevel)%nat →
  ∃ z', set_forward i p q z = (Ret tt, z') ∧ arrays z' ∧ frame z' = frame z ∧
    (∀ j r, fwd z' j r = if decide (j = i ∧ r = p) then q else fwd z j r) ∧
    (∀ j r, spn z' j r = spn z j r).
Proof.
  intros Hi. destruct z_load_run as (n & E & Hl). destruct (Harr _ _ E) as [Hf Hs].
  unfold set_forward. rewrite (bind_Ret _ _ _ _ _ Hl). rewrite Hf.
  destruct (Nat.ltb_spec i MaxLevel); [|lia]. eexists; split; [done|].
  split; [|split; [|split]].
  - apply map_Forall_insert_2; [cbn; by rewrite length_insert|done].
  - unfold frame, meta. cbn. rewrite fmap_insert, insert_id; [done|]. by rewrite lookup_fmap, E.
  - intros j r. unfold fwd. cbn. rewrite lookup_insert. case_decide as Hr; [subst r|].
    + cbn. rewrite E. cbn. destruct (decide (j = i)) as [->|Hj].
      * rewrite list_lookup_insert_eq by lia. cbn. by rewrite decide_True.
      * rewrite list_lookup_insert_ne by done. rewrite decide_False; [done|]. naive_solver.
    + rewrite (decide_False (P := j = i ∧ r = p)); [done|]. naive_solver.
  - intros j r. unfold spn. cbn. rewrite lookup_insert. case_decide; [|done]. subst. by rewrite E.
Qed.
Lemma set_span_run i s : (i < MaxLevel)%nat →
  ∃ z', set_span i p s z = (Ret tt, z') ∧ arrays z' ∧ frame z' = frame z ∧
    (∀ j r, spn z' j r = if decide (j = i ∧ r = p) then s else spn z j r) ∧
    (∀ j r, fwd z' j r = fwd z j r).
Proof.
  intros Hi. destruct z_load_run as (n & E & Hl). destruct (Harr _ _ E) as [Hf Hs].
  unfold set_span. rewrite (bind_Ret _ _ _ _ _ Hl). rewrite Hs.
  destruct (Nat.ltb_spec i MaxLevel); [|lia]. eexists; split; [done|].
  split; [|split; [|split]].
  - apply map_Forall_insert_2; [cbn; by rewrite length_insert|done].
  - unfold frame, meta. cbn. rewrite fmap_insert, insert_id; [done|]. by rewrite lookup_fmap, E.
  - intros j r. unfold spn. cbn. rewrite lookup_insert. case_decide as Hr; [subst r|].
    + cbn. rewrite E. cbn. destruct (decide (j = i)) as [->|Hj].
      * rewrite list_lookup_insert_eq by lia. cbn. by rewrite decide_True.
      * rewrite list_lookup_insert_ne by done. rewrite decide_False; [done|]. naive_solver.
    + rewrite (decide_False (P := j = i ∧ r = p)); [done|]. naive_solver.
  - intros j r. unfold fwd. cbn. rewrite lookup_insert. case_decide; [|done]. subst. by rewrite E.
Qed.
End access.

(** ** The structural invariant *)
(** The node a search at the end of the prefix [X] stands on. *)
Definition lst (h : positive) (X : list positive) : positive := default h (last X).
(** A level-[i] search can stand at the end of [X]. *)
Definition stop (z : ZSet) (i : nat) (X : list positive) : Prop :=
  ∀ p, last X = Some p → (i < lev z p)%nat.
Definition first_hi (z : ZSet) (i : nat) (Y : list positive) : option positive :=
  head (filter (λ p, i < lev z p)%nat Y).
Definition all_lo (z : ZSet) (i : nat) (C : list positive) : Prop :=
  Forall (λ p, ¬ (i < lev z p)%nat) C.

Record skip (z : ZSet) (ps : list positive) : Prop := {
  sk_arrays : arrays z;
  sk_nodup : NoDup (z_header z :: ps);
  sk_nodes p : p ∈ z_header z :: ps → is_Some (meta z !! p);
  sk_levels p : p ∈ ps → (1 ≤ lev z p ≤ z_level z)%nat;
  sk_level : (1 ≤ z_level z ≤ MaxLevel)%nat;
  sk_tail : z_tail z = last ps;
  sk_length : z_length z = zlen ps;
  sk_links i X Y :
    (i < MaxLevel)%nat → ps = X ++ Y → stop z i X → fwd z i (lst (z_header z) X) = first_hi z i Y;
}.

(** Every span with a forward link is the distance to the next node. *)
Definition spans_ok (z : ZSet) (ps : list positive) : Prop :=
  ∀ i X C q Y,
    (i < z_level z)%nat → ps = X ++ C ++ q :: Y → stop z i X → all_lo z i C → (i < lev z q)%nat →
    spn z i (lst (z_header z) X) = zlen C + 1.

Lemma lst_snoc h X p : lst h (X ++ [p]) = p.
Proof. unfold lst. by rewrite last_snoc. Qed.
Lemma stop_snoc z i X p : (i < lev z p)%nat → stop z i (X ++ [p]).
Proof. intros H q. rewrite last_snoc. by intros [= <-]. Qed.
Lemma stop_le z i j X : (j ≤ i)%nat → stop z i X → stop z j X.
Proof. intros Hj Hs p Hp. specialize (Hs p Hp). lia. Qed.
Lemma stop_nil z i : stop z i [].
Proof. by intros p. Qed.
Lemma lst_elem h X : lst h X ∈ h :: X.
Proof.
  unfold lst. destruct (last X) as [p|] eqn:E; cbn; [|left].
  right. apply last_Some_elem_of in E. done.
Qed.
Lemma first_hi_Some z i Y q :
  first_hi z i Y = Some q → ∃ C D, Y = C ++ q :: D ∧ all_lo z i C ∧ (i < lev z q)%nat.
Proof.
  unfold first_hi. induction Y as [|y Y IH]; [done|]. rewrite filter_cons. case_decide as Hy.
  - intros [= <-]. exists [], Y. split; [done|]. split; [by constructor|done].
  - intros E. destruct (IH E) as (C & D & -> & HC & Hq). exists (y :: C), D.
    split; [done|]. split; [by constructor|done].
Qed.
Lemma first_hi_None z i Y : first_hi z i Y = None ↔ all_lo z i Y.
Proof.
  unfold first_hi, all_lo. induction Y as [|y Y IH]; [done|].
  rewrite filter_cons. case_decide as Hy; [|rewrite Forall_cons; naive_solver].
  rewrite Forall_cons. naive_solver.
Qed.
Lemma first_hi_app z i C D : all_lo z i C → first_hi z i (C ++ D) = first_hi z i D.
Proof.
  unfold first_hi. induction 1 as [|y C Hy HC IH]; [done|]. cbn [app]. rewrite filter_cons.
  by rewrite decide_False.
Qed.
Lemma first_hi_cons z i q D : (i < lev z q)%nat → first_hi z i (q :: D) = Some q.
Proof. intros H. unfold first_hi. rewrite filter_cons. by rewrite decide_True. Qed.

(** Access to the node at the end of a prefix. *)
Lemma sk_at z ps X Y : skip z ps → ps = X ++ Y → is_Some (meta z !! lst (z_header z) X).
Proof.
  intros Hsk ->. apply (sk_nodes _ _ Hsk). pose proof (lst_elem (z_header z) X).
  set_solver.
Qed.
Lemma sk_size z ps : skip z ps → (length ps < size (z_nodes z))%nat.
Proof.
  intros Hsk. pose proof (sk_nodup _ _ Hsk) as Hnd.
  assert (list_to_set (z_header z :: ps) ⊆@{gset positive} dom (z_nodes z)) as Hsub.
  { intros p. rewrite elem_of_list_to_set, elem_of_dom. intros Hp.
    by apply meta_is_Some, (sk_nodes _ _ Hsk). }
  apply subseteq_size in Hsub. rewrite size_list_to_set in Hsub by done.
  rewrite size_dom in Hsub. cbn in Hsub. lia.
Qed.

(** ** The descent
    [good q] is the condition of the search as a property of the next node, [accok]
    what is known about the spans added up. *)
Section descend.
Context (z : ZSet) (ps : list positive) (Hsk : skip z ps).
Context (cond : Z → Z → zSetNode → bool) (good : positive → bool) (accok : list positive → Z → Prop).
Abbreviation h := (z_header z).
Context (Hcond : ∀ i X C q Y acc n,
  (i < z_level z)%nat → ps = X ++ C ++ q :: Y → stop z i X → all_lo z i C → (i < lev z q)%nat →
  accok X acc → z_nodes z !! q = Some n →
  cond acc (spn z i (lst h X)) n = good q ∧ accok (X ++ C ++ [q]) (acc + spn z i (lst h X))).

Definition ends_good (X : list positive) : Prop := ∀ q, last X = Some q → good q = true.

Lemma zwalk_run fuel i X Y acc :
  (i < z_level z)%nat → ps = X ++ Y → stop z i X → accok X acc → ends_good X → (length Y < fuel)%nat →
  ∃ C D acc', Y = C ++ D ∧ zwalk fuel i cond (lst h X) acc z = (Ret (lst h (X ++ C), acc'), z) ∧
    stop z i (X ++ C) ∧ accok (X ++ C) acc' ∧ ends_good (X ++ C) ∧
    (∀ q, q ∈ C → (i < lev z q)%nat → good q = true) ∧
    (∀ q, first_hi z i D = Some q → good q = false).
Proof.
  pose proof (sk_level _ _ Hsk) as Hml. pose proof (sk_arrays _ _ Hsk) as Harr.
  revert X Y acc. induction fuel as [|fuel IH]; intros X Y acc Hi Hps HX Hacc Hg Hfuel; [lia|].
  pose proof (sk_at _ _ _ _ Hsk Hps) as Hat.
  cbn [zwalk]. rewrite (bind_Ret _ _ _ _ _ (get_forward_run z Harr _ Hat i ltac:(lia))).
  rewrite (sk_links _ _ Hsk i X Y) by (done || lia).
  destruct (first_hi z i Y) as [q|] eqn:Eq; cycle 1.
  { exists [], Y, acc. rewrite app_nil_r. repeat split; try done; set_solver. }
  destruct (first_hi_Some _ _ _ _ Eq) as (C & D & -> & HC & Hq).
  assert (is_Some (meta z !! q)) as Hqs by (apply (sk_nodes _ _ Hsk); set_solver).
  destruct (z_load_run z q Hqs) as (n & En & Hl). rewrite (bind_Ret _ _ _ _ _ Hl).
  rewrite (bind_Ret _ _ _ _ _ (get_span_run z Harr _ Hat i ltac:(lia))).
  destruct (Hcond i X C q D acc n) as [-> Hacc']; [done..|].
  destruct (good q) eqn:Hgq; cycle 1.
  { exists [], (C ++ q :: D), acc. rewrite app_nil_r. repeat split; try done; [set_solver|].
    intros q'. rewrite Eq. by intros [= <-]. }
  destruct (IH (X ++ C ++ [q]) D (acc + spn z i (lst h X))) as (C' & D' & acc' & -> & Hrun & Hst & Ha & Hg' & HC' & HD').
  - done.
  - by rewrite Hps, <- !app_assoc.
  - rewrite app_assoc. by apply stop_snoc.
  - done.
  - intros q'. rewrite app_assoc, last_snoc. by intros [= <-].
  - rewrite length_app in Hfuel. cbn in Hfuel. lia.
  - rewrite app_assoc, lst_snoc in Hrun.
    exists (C ++ q :: C'), D', acc'. replace (X ++ C ++ q :: C') with ((X ++ C ++ [q]) ++ C') by by rewrite <- !app_assoc.
    split; [by rewrite <- !app_assoc|]. split; [rewrite Hrun; by rewrite <- !app_assoc|].
    split; [done|]. split; [done|]. split; [done|]. split; [|done].
    intros q'. rewrite elem_of_app, elem_of_cons. intros [Hin|[->|Hin]] Hlv; [|done|by apply HC'].
    unfold all_lo in HC. rewrite Forall_forall in HC. by destruct (HC _ Hin).
Qed.

Lemma descend_run i X Y acc :
  (i ≤ z_level z)%nat → ps = X ++ Y → stop z i X → accok X acc → ends_good X →
  ∃ C D acc' update rank,
    Y = C ++ D ∧ descend i cond (lst h X) acc z = (Ret (lst h (X ++ C), acc', update, rank), z) ∧
    accok (X ++ C) acc' ∧ ends_good (X ++ C) ∧
    (∀ q, q ∈ C → (i ≤ lev z q)%nat → good q = true) ∧
    (i ≠ 0%nat → ∀ q, head D = Some q → good q = false) ∧
    length update = i ∧ length rank = i ∧
    ∀ k, (k < i)%nat → ∃ E F r, C = E ++ F ∧ update !! k = Some (lst h (X ++ E)) ∧ rank !! k = Some r ∧
      accok (X ++ E) r ∧ stop z k (X ++ E) ∧ all_lo z k F.
Proof.
  revert X Y acc. induction i as [|i IH]; intros X Y acc Hi Hps HX Hacc Hg.
  { exists [], Y, acc, [], []. rewrite !app_nil_r. cbn. repeat split; try done; [set_solver|lia]. }
  pose proof (sk_size _ _ Hsk) as Hsz.
  destruct (zwalk_run (size (z_nodes z)) i X Y acc) as (C & D & acc1 & -> & Hrun & Hst & Ha & Hge & HC & HD);
    [lia|done|by apply (stop_le _ (S i)); [lia|]|done|done|rewrite Hps, length_app in Hsz; lia|].
  destruct (IH (X ++ C) D acc1) as (C2 & D2 & acc2 & update & rank & -> & Hrun2 & Ha2 & Hge2 & HC2 & HD2 & Hlu & Hlr & Hupd);
    [lia|by rewrite Hps, app_assoc|done..|].
  assert (all_lo z i C2) as Hlo.
  { apply first_hi_None. destruct (first_hi z i C2) as [q|] eqn:Eq; [|done]. exfalso.
    destruct (first_hi_Some _ _ _ _ Eq) as (C3 & C4 & -> & H3 & Hq).
    assert (good q = false) as Hno.
    { apply HD. rewrite <- app_assoc, first_hi_app by done. by apply first_hi_cons. }
    rewrite HC2 in Hno; [done|set_solver|lia]. }
  cbn [descend]. unfold z_get at 1. erewrite bind_Ret by reflexivity. cbv beta.
  rewrite (bind_Ret _ _ _ _ _ Hrun). cbv beta iota. rewrite (bind_Ret _ _ _ _ _ Hrun2).
  exists (C ++ C2), D2, acc2, (update ++ [lst h (X ++ C)]), (rank ++ [acc1]).
  rewrite !length_app, Hlu, Hlr, (app_assoc X C C2). cbn.
  split; [by rewrite app_assoc|]. split; [done|]. split; [done|]. split; [done|].
  split; [|split; [|split; [lia|split; [lia|]]]].
  - intros q. rewrite elem_of_app. intros [Hq|Hq] Hl; [by apply HC; [|lia]|]. apply HC2; [done|lia].
  - intros _. destruct i as [|i]; [|by apply HD2].
    (* level 0: every node is on it *)
    intros q Hq. apply HD. rewrite first_hi_app by done. destruct D2 as [|d D2]; [done|].
    injection Hq as ->. apply first_hi_cons. apply (sk_levels _ _ Hsk). set_solver.
  - intros k Hk. destruct (decide (k = i)) as [->|Hne].
    + exists C, C2, acc1. rewrite !lookup_app_r, Hlu, Hlr, Nat.sub_diag by lia. cbn. done.
    + destruct (Hupd k ltac:(lia)) as (E & F & r & -> & Hu & Hr & HaE & HsE & HF).
      exists (C ++ E), F, r. rewrite !lookup_app_l by lia. rewrite <- !app_assoc in *.
      split; [done|]. split; [done|]. done.
Qed.
End descend.

(** ** The loops that change links and spans *)
Lemma frame_meta z z' : frame z' = frame z → meta z' = meta z.
Proof. by intros [= ? ? ? ? ? ?]. Qed.

(** The entries [i .. i+n) of [update] are nodes other than [new]. *)
Definition update_ok (z : ZSet) (update : list positive) (i n : nat) (new : positive) : Prop :=
  (i + n ≤ MaxLevel)%nat ∧
  ∀ k, (i ≤ k < i + n)%nat →
    update !! k = Some (update !!! k) ∧ is_Some (meta z !! (update !!! k)) ∧ update !!! k ≠ new.

Lemma update_ok_S z update i n new :
  update_ok z update i (S n) new →
  (i < MaxLevel)%nat ∧ update !! i = Some (update !!! i) ∧ is_Some (meta z !! (update !!! i)) ∧
  update !!! i ≠ new ∧ ∀ z', meta z' = meta z → update_ok z' update (S i) n new.
Proof.
  intros [Hm Hu]. destruct (Hu i ltac:(lia)) as (H1 & H2 & H3). split_and!; [lia|done..|].
  intros z' Hz. split; [lia|]. intros k Hk. rewrite Hz. apply Hu. lia.
Qed.

Lemma index_run {S A} (l : list A) i x (s : S) : l !! i = Some x → Prelude.index l i s = (Ret x, s).
Proof. intros E. unfold Prelude.index. by rewrite E. Qed.

Ltac loop_case :=
  repeat (case_decide || (progress destruct_and!)); subst; try done; try lia; try (exfalso; lia); try tauto.

Lemma link_levels_run n i z update rank new :
  arrays z → is_Some (meta z !! new) → update_ok z update i n new →
  (∀ k, (k = 0 ∨ i ≤ k < i + n)%nat → rank !! k = Some (rank !!! k)) →
  ∃ z', link_levels i n update rank new z = (Ret tt, z') ∧ arrays z' ∧ frame z' = frame z ∧
    (∀ k p, fwd z' k p =
       if decide (i ≤ k < i + n)%nat then
         if decide (p = update !!! k) then Some new
         else if decide (p = new) then fwd z k (update !!! k) else fwd z k p
       else fwd z k p) ∧
    (∀ k p, spn z' k p =
       if decide (i ≤ k < i + n)%nat then
         if decide (p = update !!! k) then rank !!! 0%nat - rank !!! k + 1
         else if decide (p = new) then spn z k (update !!! k) - (rank !!! 0%nat - rank !!! k) else spn z k p
       else spn z k p).
Proof.
  revert i z. induction n as [|n IH]; intros i z Harr Hnew Hupd Hrank.
  { exists z. split_and!; try done; intros k p; by rewrite decide_False by lia. }
  destruct (update_ok_S _ _ _ _ _ Hupd) as (Hi & Eu & Hu & Hun & Hupd').
  cbn [link_levels]. rewrite (bind_Ret _ _ _ _ _ (index_run _ _ _ _ Eu)).
  rewrite (bind_Ret _ _ _ _ _ (get_forward_run z Harr _ Hu i Hi)).
  destruct (set_forward_run z Harr new Hnew i (fwd z i (update !!! i)) Hi) as (z1 & E1 & A1 & F1 & W1 & S1).
  rewrite (bind_Ret _ _ _ _ _ E1). pose proof (frame_meta _ _ F1) as M1.
  destruct (set_forward_run z1 A1 (update !!! i) ltac:(by rewrite M1) i (Some new) Hi) as (z2 & E2 & A2 & F2 & W2 & S2).
  rewrite (bind_Ret _ _ _ _ _ E2). pose proof (frame_meta _ _ F2) as M2. rewrite M1 in M2.
  rewrite (bind_Ret _ _ _ _ _ (index_run _ _ _ _ (Hrank 0%nat ltac:(lia)))).
  rewrite (bind_Ret _ _ _ _ _ (index_run _ _ _ _ (Hrank i ltac:(lia)))).
  rewrite (bind_Ret _ _ _ _ _ (get_span_run z2 A2 _ ltac:(by rewrite M2) i Hi)).
  destruct (set_span_run z2 A2 new ltac:(by rewrite M2) i (spn z2 i (update !!! i) - (rank !!! 0%nat - rank !!! i)) Hi)
    as (z3 & E3 & A3 & F3 & S3 & W3).
  rewrite (bind_Ret _ _ _ _ _ E3). pose proof (frame_meta _ _ F3) as M3. rewrite M2 in M3.
  destruct (set_span_run z3 A3 (update !!! i) ltac:(by rewrite M3) i (rank !!! 0%nat - rank !!! i + 1) Hi)
    as (z4 & E4 & A4 & F4 & S4 & W4).
  rewrite (bind_Ret _ _ _ _ _ E4). pose proof (frame_meta _ _ F4) as M4. rewrite M3 in M4.
  destruct (IH (S i) z4) as (z' & E & A & F & W & Sp); [done|by rewrite M4|by apply Hupd'|intros k Hk; apply Hrank; lia|].
  exists z'. split; [done|]. split; [done|]. split; [congruence|]. split.
  - intros k p. rewrite W, !W4, !W3, !W2, !W1. destruct (decide (k = i)); subst; loop_case.
  - intros k p. rewrite Sp, !S4, !S3, !S2, !S1. destruct (decide (k = i)); subst; loop_case.
Qed.

Lemma raise_levels_run n i z header len :
  arrays z → is_Some (meta z !! header) → (i + n ≤ MaxLevel)%nat →
  ∃ z', raise_levels i n header len z = (Ret tt, z') ∧ arrays z' ∧ frame z' = frame z ∧
    (∀ k p, fwd z' k p = fwd z k p) ∧
    (∀ k p, spn z' k p = if decide ((i ≤ k < i + n)%nat ∧ p = header) then len else spn z k p).
Proof.
  revert i z. induction n as [|n IH]; intros i z Harr Hh Hi.
  { exists z. split_and!; try done. intros k p. by rewrite decide_False by lia. }
  cbn [raise_levels].
  destruct (set_span_run z Harr header Hh i len ltac:(lia)) as (z1 & E1 & A1 & F1 & S1 & W1).
  rewrite (bind_Ret _ _ _ _ _ E1).
  destruct (IH (S i) z1) as (z' & E & A & F & W & Sp); [done|by rewrite (frame_meta _ _ F1)|lia|].
  exists z'. split; [done|]. split; [done|]. split; [congruence|]. split; intros k p.
  - by rewrite W, W1.
  - rewrite Sp, S1. destruct (decide (k = i)); subst; loop_case.
Qed.

Lemma widen_levels_run n i z update new :
  arrays z → update_ok z update i n new →
  ∃ z', widen_levels i n update z = (Ret tt, z') ∧ arrays z' ∧ frame z' = frame z ∧
    (∀ k p, fwd z' k p = fwd z k p) ∧
    (∀ k p, spn z' k p = if decide ((i ≤ k < i + n)%nat ∧ p = update !!! k) then spn z k p + 1 else spn z k p).
Proof.
  revert i z. induction n as [|n IH]; intros i z Harr Hupd.
  { exists z. split_and!; try done. intros k p. by rewrite decide_False by lia. }
  destruct (update_ok_S _ _ _ _ _ Hupd) as (Hi & Eu & Hu & Hun & Hupd').
  cbn [widen_levels]. rewrite (bind_Ret _ _ _ _ _ (index_run _ _ _ _ Eu)).
  rewrite (bind_Ret _ _ _ _ _ (get_span_run z Harr _ Hu i Hi)).
  destruct (set_span_run z Harr _ Hu i (spn z i (update !!! i) + 1) Hi) as (z1 & E1 & A1 & F1 & S1 & W1).
  rewrite (bind_Ret _ _ _ _ _ E1).
  destruct (IH (S i) z1) as (z' & E & A & F & W & Sp); [done|apply Hupd'; by apply frame_meta|].
  exists z'. split; [done|]. split; [done|]. split; [congruence|]. split; intros k p.
  - by rewrite W, W1.
  - rewrite Sp, !S1. destruct (decide (k = i)); subst; loop_case.
Qed.

(** [lc] is the level of the node [c] that is unlinked. *)
Lemma unlink_levels_run n i z update c lc :
  arrays z → is_Some (meta z !! c) → update_ok z update i n c → (i ≤ lc ≤ i + n)%nat →
  (∀ k, (i ≤ k < i + n)%nat → fwd z k (update !!! k) = Some c ↔ (k < lc)%nat) →
  ∃ z', unlink_levels i n update c z = (Ret tt, z') ∧ arrays z' ∧ frame z' = frame z ∧
    (∀ k p, fwd z' k p = if decide ((i ≤ k < lc)%nat ∧ p = update !!! k) then fwd z k c else fwd z k p) ∧
    (∀ k p, spn z' k p =
       if decide ((i ≤ k < lc)%nat ∧ p = update !!! k) then spn z k p + (spn z k c - 1) else spn z k p).
Proof.
  revert i z. induction n as [|n IH]; intros i z Harr Hc Hupd Hlc Hf.
  { exists z. split_and!; try done; intros k p; by rewrite decide_False by lia. }
  destruct (update_ok_S _ _ _ _ _ Hupd) as (Hi & Eu & Hu & Hun & Hupd').
  cbn [unlink_levels]. rewrite (bind_Ret _ _ _ _ _ (index_run _ _ _ _ Eu)).
  rewrite (bind_Ret _ _ _ _ _ (get_forward_run z Harr _ Hu i Hi)).
  case_bool_decide as Hfc.
  2:{ assert (¬ (i < lc)%nat) by (rewrite <- (Hf i ltac:(lia)); done).
      exists z. split_and!; try done; intros k p; by rewrite decide_False by lia. }
  apply Hf in Hfc; [|lia].
  rewrite (bind_Ret _ _ _ _ _ (get_span_run z Harr _ Hu i Hi)).
  rewrite (bind_Ret _ _ _ _ _ (get_span_run z Harr _ Hc i Hi)).
  destruct (set_span_run z Harr _ Hu i (spn z i (update !!! i) + (spn z i c - 1)) Hi) as (z1 & E1 & A1 & F1 & S1 & W1).
  rewrite (bind_Ret _ _ _ _ _ E1). pose proof (frame_meta _ _ F1) as M1.
  rewrite (bind_Ret _ _ _ _ _ (get_forward_run z1 A1 c ltac:(by rewrite M1) i Hi)).
  destruct (set_forward_run z1 A1 (update !!! i) ltac:(by rewrite M1) i (fwd z1 i c) Hi) as (z2 & E2 & A2 & F2 & W2 & S2).
  rewrite (bind_Ret _ _ _ _ _ E2). pose proof (frame_meta _ _ F2) as M2. rewrite M1 in M2.
  destruct (IH (S i) z2) as (z' & E & A & F & W & Sp); [done|by rewrite M2|by apply Hupd'|lia| |].
  { intros k Hk. rewrite W2, decide_False, W1 by lia. apply Hf. lia. }
  exists z'. split; [done|]. split; [done|]. split; [congruence|]. split; intros k p.
  - rewrite W, !W2, !W1. destruct (decide (k = i)); subst; loop_case.
  - rewrite Sp, !S2, !S1. destruct (decide (k = i)); subst; loop_case.
Qed.

Lemma shorten_ends_run i z update new :
  arrays z → update_ok z update 0 i new →
  ∃ z', shorten_ends i update z = (Ret tt, z') ∧ arrays z' ∧ frame z' = frame z ∧
    (∀ k p, fwd z' k p = fwd z k p) ∧
    (∀ k p, fwd z k p ≠ None → spn z' k p = spn z k p).
Proof.
  revert z. induction i as [|i IH]; intros z Harr Hupd; [by exists z|].
  destruct Hupd as [Hm Hu]. destruct (Hu i ltac:(lia)) as (Eu & Hui & Hne).
  cbn [shorten_ends]. rewrite (bind_Ret _ _ _ _ _ (index_run _ _ _ _ Eu)).
  rewrite (bind_Ret _ _ _ _ _ (get_forward_run z Harr _ Hui i ltac:(lia))).
  destruct (fwd z i (update !!! i)) as [q|] eqn:Eq.
  { cbn. apply IH; [done|]. split; [lia|]. intros k Hk. apply Hu. lia. }
  rewrite bind_assoc. rewrite (bind_Ret _ _ _ _ _ (get_span_run z Harr _ Hui i ltac:(lia))).
  destruct (set_span_run z Harr _ Hui i (spn z i (update !!! i) - 1) ltac:(lia)) as (z1 & E1 & A1 & F1 & S1 & W1).
  rewrite (bind_Ret _ _ _ _ _ E1).
  destruct (IH z1) as (z' & E & A & F & W & Sp); [done| |].
  { split; [lia|]. intros k Hk. rewrite (frame_meta _ _ F1). apply Hu. lia. }
  exists z'. split; [done|]. split; [done|]. split; [congruence|]. split; intros k p; rewrite ?W, ?W1; [done|].
  intros Hf. rewrite Sp, S1 by (by rewrite W1). rewrite decide_False; [done|]. intros [-> ->]. done.
Qed.

Lemma shrink_level_run l z :
  arrays z → is_Some (meta z !! z_header z) → (1 ≤ l ≤ MaxLevel)%nat → z_level z = l →
  ∃ l', shrink_level l z = (Ret tt, mkZSet (z_nodes z) (z_header z) (z_tail z) l' (z_length z) (z_dict z)) ∧
    (1 ≤ l' ≤ l)%nat ∧ ∀ j, (l' ≤ j < l)%nat → fwd z j (z_header z) = None.
Proof.
  revert z. induction l as [|[|l] IH]; intros z Harr Hh Hl Hz; [lia| |].
  { exists 1%nat. cbn. split; [by rewrite <- Hz; destruct z|]. split; [lia|]. lia. }
  cbn [shrink_level]. unfold z_get at 1. erewrite bind_Ret by reflexivity. cbv beta.
  rewrite (bind_Ret _ _ _ _ _ (get_forward_run z Harr _ Hh (S l) ltac:(lia))).
  destruct (fwd z (S l) (z_header z)) as [q|] eqn:Eq.
  { exists (S (S l)). split; [by rewrite <- Hz; destruct z|]. split; [lia|]. lia. }
  erewrite bind_Ret by reflexivity.
  set (z1 := mkZSet (z_nodes z) (z_header z) (z_tail z) (S l) (z_length z) (z_dict z)).
  destruct (IH z1) as (l' & E & Hl' & Hj); [done|done|lia|done|].
  exists l'. split; [exact E|]. split; [lia|]. intros j Hj'.
  destruct (decide (j = S l)) as [->|]; [done|]. apply (Hj j). lia.
Qed.

(** ** Links after an insertion and after a deletion *)
Lemma lst_lookup h X Y : (h :: X ++ Y) !! length X = Some (lst h X).
Proof.
  unfold lst. destruct (decide (X = [])) as [->|Hne]; [done|].
  destruct (exists_last Hne) as (X' & p & ->). rewrite last_snoc, length_app. cbn.
  rewrite Nat.add_1_r, <- app_assoc. by apply list_lookup_middle.
Qed.
Lemma app_inj_length {A} (X Y E F : list A) : X ++ Y = E ++ F → length X = length E → X = E ∧ Y = F.
Proof. intros. by apply app_inj_1. Qed.
Lemma lst_inj h X Y E F :
  NoDup (h :: X ++ Y) → X ++ Y = E ++ F → lst h X = lst h E → X = E ∧ Y = F.
Proof.
  intros Hnd Heq Hl. apply app_inj_length; [done|].
  pose proof (lst_lookup h X Y) as H1. pose proof (lst_lookup h E F) as H2. rewrite <- Heq, <- Hl in H2.
  by apply (NoDup_lookup _ _ _ _ Hnd H1 H2).
Qed.
Lemma first_hi_app_Some z i B W q : first_hi z i B = Some q → first_hi z i (B ++ W) = Some q.
Proof. unfold first_hi. rewrite filter_app. by destruct (filter _ B). Qed.
Lemma first_hi_ext z z' i Y : (∀ p, p ∈ Y → lev z' p = lev z p) → first_hi z' i Y = first_hi z i Y.
Proof.
  induction Y as [|y Y IH]; intros H; [done|]. unfold first_hi in *. rewrite !filter_cons, (H y) by set_solver.
  case_decide; [done|]. apply IH. set_solver.
Qed.
Lemma first_hi_skip z i B c A : ¬ (i < lev z c)%nat → first_hi z i (B ++ c :: A) = first_hi z i (B ++ A).
Proof. intros H. unfold first_hi. rewrite !filter_app, filter_cons. by rewrite decide_False. Qed.

(** Two prefixes of [B] where a level-[i] search can stand, the second the last such. *)
Lemma stop_cases z i B X B2 E F :
  B = X ++ B2 → B = E ++ F → stop z i X → stop z i E → all_lo z i F →
  (X = E ∧ B2 = F) ∨ (∃ q, first_hi z i B2 = Some q).
Proof.
  intros -> HEF HX HE HF. destruct (first_hi z i B2) as [q|] eqn:Eq; [eauto|left].
  apply first_hi_None in Eq. unfold all_lo in *.
  apply app_eq_inv in HEF as [(k & -> & ->)|(k & -> & ->)];
    (destruct (decide (k = [])) as [->|Hk]; [by rewrite !app_nil_r|]);
    destruct (exists_last Hk) as (k' & q & ->); exfalso.
  - specialize (HX q). rewrite app_assoc, last_snoc in HX.
    rewrite !Forall_app, Forall_singleton in HF. naive_solver.
  - specialize (HE q). rewrite app_assoc, last_snoc in HE.
    rewrite !Forall_app, Forall_singleton in Eq. naive_solver.
Qed.

(** [U] is the predecessor on level [i] of the place after [B], and stands [n] nodes
    after the header. *)
Definition pred_at (z : ZSet) (i : nat) (B : list positive) (U : positive) (n : Z) : Prop :=
  ∃ E F, B = E ++ F ∧ U = lst (z_header z) E ∧ stop z i E ∧ all_lo z i F ∧ n = zlen E.
Definition is_pred (z : ZSet) (i : nat) (B : list positive) (U : positive) : Prop := ∃ n, pred_at z i B U n.

Lemma lst_before h E F q : NoDup (h :: E ++ F) → q ∈ F → lst h E ≠ q.
Proof.
  intros Hnd Hq He. pose proof (lst_elem h E) as Hl. rewrite He in Hl.
  change (h :: E ++ F) with ((h :: E) ++ F) in Hnd. apply NoDup_app in Hnd as (_ & Hd & _).
  by apply (Hd q).
Qed.
Lemma lst_not_in h X W q : q ∉ h :: X ++ W → lst h X ≠ q.
Proof.
  intros Hq <-. apply Hq. change (h :: X ++ W) with ((h :: X) ++ W). apply elem_of_app. left. apply lst_elem.
Qed.

(** A split of [B ++ new :: A] is one of [B], or one of [A]. *)
Lemma split_middle {T} (B A X Y : list T) (new : T) :
  B ++ new :: A = X ++ Y →
  (∃ B2, B = X ++ B2 ∧ Y = B2 ++ new :: A) ∨ (∃ A1, X = B ++ new :: A1 ∧ A = A1 ++ Y).
Proof.
  intros H. apply app_eq_inv in H as [(k & -> & ->)|(k & -> & H)]; [left; eauto|].
  destruct k as [|x k]; cbn in H.
  - left. exists []. by rewrite !app_nil_r, <- H.
  - injection H as <- ->. right. eauto.
Qed.

Section insert.
Context (z z' : ZSet) (B A : list positive) (new : positive) (nl : nat) (U : nat → positive).
Context (N sU : nat → Z).
Context (Hsk : skip z (B ++ A)) (Hnew : new ∉ z_header z :: B ++ A).
Context (Hlev : ∀ p, lev z' p = if decide (p = new) then nl else lev z p).
Context (Hh : z_header z' = z_header z).
Context (HU : ∀ k, (k < nl)%nat → is_pred z k B (U k)).
Context (Hfwd : ∀ k p, (k < MaxLevel)%nat →
  fwd z' k p = if decide (k < nl)%nat then
                 if decide (p = U k) then Some new else if decide (p = new) then fwd z k (U k) else fwd z k p
               else fwd z k p).

Lemma lev_old p : p ∈ B ++ A → lev z' p = lev z p.
Proof. intros Hp. rewrite Hlev, decide_False; [done|]. intros ->. apply Hnew. by right. Qed.
Lemma stop_old i X Y : B ++ A = X ++ Y → stop z' i X → stop z i X.
Proof.
  intros E Hs p Hp. specialize (Hs p Hp). rewrite lev_old in Hs; [done|].
  rewrite E. apply last_Some_elem_of in Hp. apply elem_of_app. by left.
Qed.
Lemma pred_not_after i q : (i < nl)%nat → q ∈ A → U i ≠ q.
Proof.
  intros Hi Hq. destruct (HU i Hi) as (n & E & F & HB & -> & _).
  apply (lst_before _ _ (F ++ A)); [|apply elem_of_app; by right].
  pose proof (sk_nodup _ _ Hsk) as Hnd. by rewrite HB, <- app_assoc in Hnd.
Qed.
Lemma pred_not_new i : (i < nl)%nat → U i ≠ new.
Proof.
  intros Hi. destruct (HU i Hi) as (n & E & F & HB & -> & _).
  apply (lst_not_in _ _ (F ++ A)). by rewrite app_assoc, <- HB.
Qed.

Lemma insert_links i X Y :
  (i < MaxLevel)%nat → B ++ new :: A = X ++ Y → stop z' i X →
  fwd z' i (lst (z_header z') X) = first_hi z' i Y.
Proof.
  intros Hi Heq Hst. rewrite Hh, Hfwd by done. pose proof (sk_nodup _ _ Hsk) as Hnd.
  assert (∀ W, (∀ p, p ∈ W → p ∈ B ++ A) → first_hi z' i W = first_hi z i W) as Hext.
  { intros W HW. apply first_hi_ext. intros p Hp. by apply lev_old, HW. }
  destruct (split_middle _ _ _ _ _ Heq) as [(B2 & HB & ->)|(A1 & -> & HA)].
  - (* [X] ends in [B] *)
    assert (lst (z_header z) X ≠ new) as Hxn.
    { apply (lst_not_in _ _ (B2 ++ A)). by rewrite app_assoc, <- HB. }
    assert (∀ p, p ∈ B2 ++ A → p ∈ B ++ A) as HBA by (intros p; rewrite HB, !elem_of_app; tauto).
    assert (stop z i X) as HsX by (apply (stop_old i X (B2 ++ A)); [by rewrite HB, app_assoc|done]).
    rewrite (sk_links _ _ Hsk i X (B2 ++ A)) by (done || by rewrite HB, app_assoc).
    case_decide as Hlt; cycle 1.
    { rewrite first_hi_skip by (by rewrite Hlev, decide_True). symmetry. by apply Hext. }
    rewrite (decide_False (P := _ = new)) by done.
    destruct (HU i Hlt) as (n & E & F & HEF & -> & HsE & HF & _).
    assert (first_hi z' i B2 = first_hi z i B2) as Hx2 by (apply Hext; intros p Hp; apply HBA, elem_of_app; by left).
    destruct (stop_cases z i B X B2 E F) as [[-> ->]|[q Hq]]; try done.
    + rewrite decide_True by done. rewrite first_hi_app.
      * rewrite first_hi_cons; [done|]. by rewrite Hlev, decide_True.
      * apply first_hi_None. rewrite Hx2. by apply first_hi_None.
    + rewrite (first_hi_app_Some _ _ _ _ _ Hq). rewrite Hq in Hx2. rewrite (first_hi_app_Some _ _ _ _ _ Hx2).
      rewrite decide_False; [done|]. intros He.
      destruct (lst_inj (z_header z) X (B2 ++ A) E (F ++ A)) as [-> HFA]; [by rewrite app_assoc, <- HB|by rewrite !app_assoc, <- HB, HEF|done|].
      apply app_inv_tail in HFA as ->. apply first_hi_None in HF. congruence.
  - rewrite Hext by (intros p Hp; rewrite HA, !elem_of_app; tauto).
    destruct (decide (A1 = [])) as [->|HA1].
    + (* the new node *)
      rewrite lst_snoc. assert (i < nl)%nat as Hlt.
      { specialize (Hst new). rewrite last_snoc, Hlev, decide_True in Hst by done. by apply Hst. }
      rewrite decide_True, (decide_False (P := new = _)), decide_True by (done || by apply not_eq_sym, pred_not_new).
      destruct (HU i Hlt) as (n & E & F & HB & -> & HsE & HF & _).
      rewrite (sk_links _ _ Hsk i E (F ++ A)), first_hi_app by (done || by rewrite HB, app_assoc). by rewrite HA.
    + destruct (exists_last HA1) as (A2 & q & ->).
      assert (q ∈ A) as Hq by (rewrite HA, !elem_of_app, list_elem_of_singleton; tauto).
      replace (B ++ new :: A2 ++ [q]) with ((B ++ new :: A2) ++ [q]) in * by (by rewrite <- app_assoc).
      rewrite lst_snoc. rewrite (decide_False (P := q = new)) by (intros ->; apply Hnew; right; apply elem_of_app; by right).
      assert (fwd z i q = first_hi z i Y) as Hq'.
      { rewrite <- (lst_snoc (z_header z) (B ++ A2) q).
        apply (sk_links _ _ Hsk i ((B ++ A2) ++ [q]) Y); [done|by rewrite HA, <- !app_assoc|].
        apply stop_snoc. rewrite <- lev_old by (apply elem_of_app; by right). apply Hst. by rewrite last_snoc. }
      case_decide; [|done]. rewrite decide_False; [done|]. intros He. by apply (pred_not_after i q).
Qed.

Context (HUs : ∀ k, (k < Nat.max nl (z_level z))%nat → pred_at z k B (U k) (N k)).
Context (Hspn_low : ∀ k p, (k < nl)%nat →
  spn z' k p = if decide (p = U k) then zlen B - N k + 1
               else if decide (p = new) then sU k - (zlen B - N k) else spn z k p).
Context (HsU : ∀ k, (k < z_level z)%nat → sU k = spn z k (U k)).
Context (Hspn_high : ∀ k p, (nl ≤ k < z_level z)%nat →
  spn z' k p = if decide (p = U k) then spn z k p + 1 else spn z k p).
Context (Hlevel : z_level z' = Nat.max nl (z_level z)).

Lemma all_lo_old i C : (∀ p, p ∈ C → p ∈ B ++ A) → all_lo z' i C → all_lo z i C.
Proof.
  unfold all_lo. rewrite !Forall_forall. intros HC H p Hp. rewrite <- lev_old by auto. auto.
Qed.
Lemma pred_unique i X C :
  (i < Nat.max nl (z_level z))%nat → B = X ++ C → stop z i X → all_lo z i C →
  U i = lst (z_header z) X ∧ N i = zlen X.
Proof.
  intros Hi HB HX HC. destruct (HUs i Hi) as (E & F & HEF & -> & HsE & HF & ->).
  destruct (stop_cases z i B X C E F) as [[-> ->]|[q Hq]]; try done.
  apply first_hi_None in HC. congruence.
Qed.

Lemma span_other i p :
  (i < z_level z)%nat → p ≠ U i → p ≠ new → spn z' i p = spn z i p.
Proof.
  intros Hi Hp Hn. destruct (decide (i < nl)%nat).
  - by rewrite Hspn_low, !decide_False.
  - by rewrite Hspn_high, decide_False by (done || lia).
Qed.
Lemma level_of q i : q ∈ B ++ A → (i < lev z q)%nat → (i < z_level z)%nat.
Proof. intros Hq Hi. pose proof (sk_levels _ _ Hsk q Hq). lia. Qed.

Lemma insert_spans : spans_ok z (B ++ A) → spans_ok z' (B ++ new :: A).
Proof.
  intros Hok i X C q Y Hi Heq HX HC Hq. rewrite Hh. rewrite Hlevel in Hi.
  pose proof (sk_nodup _ _ Hsk) as Hnd.
  destruct (split_middle _ _ _ _ _ Heq) as [(B2 & HB & HCY)|(A1 & -> & HA)].
  - assert (stop z i X) as HsX by (apply (stop_old i X (B2 ++ A)); [by rewrite HB, app_assoc|done]).
    apply split_middle in HCY as [(C2 & -> & HA)|(B3 & -> & ->)].
    + assert (all_lo z i B2) as HB2.
      { apply all_lo_old; [intros p Hp; rewrite HB, !elem_of_app; tauto|]. unfold all_lo in *.
        by apply Forall_app in HC as [? _]. }
      destruct (pred_unique i X B2 Hi HB HsX HB2) as [HUX HN]. rewrite <- HUX.
      destruct C2 as [|x C2]; cbn in HA; injection HA as <- HA.
      * (* to the new node *)
        rewrite Hlev, decide_True in Hq by done.
        rewrite Hspn_low, decide_True, HN, HB, app_nil_r, zlen_app by done. lia.
      * (* over the new node *)
        unfold all_lo in HC. rewrite Forall_app, Forall_cons in HC. destruct HC as (_ & Hn & HC2).
        rewrite Hlev, decide_True in Hn by done.
        assert (q ∈ B ++ A) as HqA by (rewrite HA, !elem_of_app, elem_of_cons; tauto).
        rewrite lev_old in Hq by done. assert (i < z_level z)%nat by (by apply (level_of q)).
        rewrite Hspn_high, decide_True, HUX by (done || lia).
        rewrite (Hok i X (B2 ++ C2) q Y), !zlen_app, zlen_cons; try done; [lia|by rewrite HB, HA, <- !app_assoc|].
        apply Forall_app. split; [done|]. apply all_lo_old; [|done]. intros p Hp. rewrite HA, !elem_of_app. tauto.
    + (* before the new node *)
      rewrite lev_old in Hq by (rewrite HB, !elem_of_app, elem_of_cons; tauto).
      assert (all_lo z i C) as HC' by (apply all_lo_old; [intros p Hp; rewrite HB, !elem_of_app; tauto|done]).
      assert (i < z_level z)%nat by (apply (level_of q); [rewrite HB, !elem_of_app, elem_of_cons; tauto|done]).
      rewrite span_other; [apply (Hok i X C q (B3 ++ A)); try done; by rewrite HB, <- !app_assoc|done| |].
      * destruct (HUs i Hi) as (E & F & HEF & -> & HsE & HF & _). intros He.
        destruct (lst_inj (z_header z) X (C ++ q :: B3 ++ A) E (F ++ A)) as [-> HFA];
          [by rewrite HB, <- !app_assoc in Hnd|by rewrite !app_assoc, <- HEF, HB, <- !app_assoc|done|].
        rewrite HB in HEF. apply app_inv_head in HEF as <-. unfold all_lo in HF.
        rewrite Forall_app, Forall_cons in HF. naive_solver.
      * apply (lst_not_in _ _ (C ++ q :: B3 ++ A)). by rewrite HB, <- !app_assoc in Hnew.
  - assert (∀ p, p ∈ A → p ∈ B ++ A) as HinA by (intros p; rewrite elem_of_app; tauto).
    assert (q ∈ A) as HqA by (rewrite HA, !elem_of_app, elem_of_cons; tauto).
    rewrite lev_old in Hq by auto.
    assert (all_lo z i C) as HC' by (apply all_lo_old; [intros p Hp; apply HinA; rewrite HA, !elem_of_app; tauto|done]).
    assert (i < z_level z)%nat as Hi' by (by apply (level_of q); auto).
    destruct (decide (A1 = [])) as [->|HA1].
    + (* from the new node *)
      rewrite lst_snoc. assert (i < nl)%nat as Hlt.
      { specialize (HX new). rewrite last_snoc, Hlev, decide_True in HX by done. by apply HX. }
      rewrite Hspn_low, decide_False, decide_True, HsU by (done || by apply not_eq_sym, pred_not_new).
      destruct (HUs i Hi) as (E & F & HEF & -> & HsE & HF & ->). cbn in HA.
      rewrite (Hok i E (F ++ C) q Y), HEF, !zlen_app; try done; [lia|by rewrite HEF, HA, <- !app_assoc|].
      by apply Forall_app.
    + (* after the new node *)
      destruct (exists_last HA1) as (A2 & r & ->).
      assert (r ∈ A) as HrA by (rewrite HA, !elem_of_app, list_elem_of_singleton; tauto).
      replace (B ++ new :: A2 ++ [r]) with ((B ++ new :: A2) ++ [r]) in * by (by rewrite <- app_assoc).
      rewrite lst_snoc, span_other; [|done| |].
      * rewrite <- (lst_snoc (z_header z) (B ++ A2) r).
        apply (Hok i _ C q Y); try done; [by rewrite HA, <- !app_assoc|]. apply stop_snoc.
        rewrite <- lev_old by auto. apply HX. by rewrite last_snoc.
      * destruct (HUs i Hi) as (E & F & HEF & -> & _). apply not_eq_sym.
        apply (lst_before _ _ (F ++ A)); [by rewrite app_assoc, <- HEF|apply elem_of_app; by right].
      * intros ->. apply Hnew. right. auto.
Qed.
End insert.

(** A split of [B ++ A] is one of [B], or one inside [A]. *)
Lemma split_app {T} (B A X Y : list T) :
  B ++ A = X ++ Y →
  (∃ B2, B = X ++ B2 ∧ Y = B2 ++ A) ∨ (∃ A1 r, X = B ++ A1 ++ [r] ∧ A = A1 ++ r :: Y).
Proof.
  intros H. apply app_eq_inv in H as [(k & -> & ->)|(k & -> & ->)]; [left; eauto|].
  destruct (decide (k = [])) as [->|Hk].
  - left. exists []. by rewrite !app_nil_r.
  - destruct (exists_last Hk) as (k' & r & ->). right. exists k', r. by rewrite <- !app_assoc.
Qed.

Section delete.
Context (z z' : ZSet) (B A : list positive) (c : positive) (U : nat → positive).
Context (Hsk : skip z (B ++ c :: A)).
Context (Hmeta : meta z' = meta z) (Hh : z_header z' = z_header z).
Context (HU : ∀ k, (k < z_level z)%nat → is_pred z k B (U k)).
Context (Hfwd : ∀ k p, fwd z' k p = if decide ((k < lev z c)%nat ∧ p = U k) then fwd z k c else fwd z k p).

Lemma del_lev p : lev z' p = lev z p.
Proof. unfold lev. by rewrite Hmeta. Qed.
Lemma del_stop i X : stop z' i X ↔ stop z i X.
Proof. unfold stop. by setoid_rewrite del_lev. Qed.
Lemma del_all_lo i C : all_lo z' i C ↔ all_lo z i C.
Proof. unfold all_lo. rewrite !Forall_forall. by setoid_rewrite del_lev. Qed.
Lemma del_level i : (i < lev z c)%nat → (i < z_level z)%nat.
Proof. intros Hi. destruct (sk_levels _ _ Hsk c); [rewrite elem_of_app, elem_of_cons; tauto|lia]. Qed.

(** The predecessor of [c] is not in [A], and is not a place from which a higher
    node of [B] follows. *)
Lemma del_not_after i q : (i < lev z c)%nat → q ∈ A → q ≠ U i.
Proof.
  intros Hi Hq. destruct (HU i (del_level i Hi)) as (n & E & F & HB & -> & _). apply not_eq_sym.
  apply (lst_before _ _ (F ++ c :: A)); [|rewrite elem_of_app, elem_of_cons; tauto].
  rewrite app_assoc, <- HB. apply (sk_nodup _ _ Hsk).
Qed.
Lemma del_not_before i X B2 q :
  (i < lev z c)%nat → B = X ++ B2 → first_hi z i B2 = Some q → lst (z_header z) X ≠ U i.
Proof.
  intros Hi HB Hq He. destruct (HU i (del_level i Hi)) as (n & E & F & HEF & HUi & HsE & HF & _).
  rewrite HUi in He.
  destruct (lst_inj (z_header z) X (B2 ++ c :: A) E (F ++ c :: A)) as [-> HFA];
    [rewrite app_assoc, <- HB; apply (sk_nodup _ _ Hsk)|by rewrite !app_assoc, <- HB, HEF|done|].
  apply app_inv_tail in HFA as ->. apply first_hi_None in HF. congruence.
Qed.
Lemma del_pred i X B2 :
  (i < lev z c)%nat → B = X ++ B2 → stop z i X → all_lo z i B2 → lst (z_header z) X = U i.
Proof.
  intros Hi HB HX HB2. destruct (HU i (del_level i Hi)) as (n & E & F & HEF & -> & HsE & HF & _).
  destruct (stop_cases z i B X B2 E F) as [[-> ->]|[q Hq]]; try done.
  apply first_hi_None in HB2. congruence.
Qed.
Lemma del_after i A1 W r :
  A = A1 ++ r :: W → stop z i (B ++ A1 ++ [r]) →
  lst (z_header z) (B ++ A1 ++ [r]) = lst (z_header z) (B ++ c :: A1 ++ [r]) ∧
  stop z i (B ++ c :: A1 ++ [r]) ∧ (lst (z_header z) (B ++ A1 ++ [r]) = U i → ¬ (i < lev z c)%nat).
Proof.
  intros HA Hs. rewrite app_comm_cons, !app_assoc, !lst_snoc. split; [done|]. split.
  - apply stop_snoc. apply Hs. by rewrite app_assoc, last_snoc.
  - intros He Hlt. apply (del_not_after i r Hlt); [|done]. rewrite HA, elem_of_app, elem_of_cons. tauto.
Qed.

Lemma delete_links i X Y :
  (i < MaxLevel)%nat → B ++ A = X ++ Y → stop z' i X →
  fwd z' i (lst (z_header z') X) = first_hi z' i Y.
Proof.
  intros Hi Heq HX. rewrite Hh, Hfwd. apply del_stop in HX.
  rewrite (first_hi_ext z z' i Y) by (intros; apply del_lev).
  apply split_app in Heq as [(B2 & HB & ->)|(A1 & r & -> & HA)].
  - rewrite (sk_links _ _ Hsk i X (B2 ++ c :: A)) by (done || by rewrite HB, app_assoc).
    case_decide as Hc; [destruct Hc as [Hlt HUX]|].
    + rewrite <- (lst_snoc (z_header z) B c).
      rewrite (sk_links _ _ Hsk i (B ++ [c]) A); [|done|by rewrite <- app_assoc|by apply stop_snoc].
      destruct (first_hi z i B2) as [q|] eqn:Eq; [by destruct (del_not_before i X B2 q)|].
      by rewrite first_hi_app by (by apply first_hi_None).
    + destruct (decide (i < lev z c)%nat) as [Hlt|]; [|by rewrite first_hi_skip].
      destruct (first_hi z i B2) as [q|] eqn:Eq; [by rewrite !(first_hi_app_Some _ _ _ _ _ Eq)|].
      apply first_hi_None in Eq. destruct Hc. split; [done|]. by apply (del_pred i X B2).
  - destruct (del_after i A1 Y r) as (Hl & Hs & Hn); [done..|].
    rewrite decide_False by tauto. rewrite Hl. apply (sk_links _ _ Hsk i); [done| |done].
    rewrite HA, <- app_assoc. cbn [app]. by rewrite <- app_assoc.
Qed.

(** Spans survive when no later node is higher than [c]. *)
Context (Hspn : ∀ k p, fwd z' k p ≠ None →
  spn z' k p = if decide ((k < lev z c)%nat ∧ p = U k) then spn z k p + (spn z k c - 1) else spn z k p).
Context (Hlevel : (z_level z' ≤ z_level z)%nat).
Context (Hlow : ∀ p, p ∈ A → (lev z p ≤ lev z c)%nat).

Lemma delete_spans : spans_ok z (B ++ c :: A) → spans_ok z' (B ++ A).
Proof.
  intros Hok i X C q Y Hi Heq HX HC Hq. pose proof (sk_level _ _ Hsk) as Hml.
  rewrite Hspn; cycle 1.
  { rewrite (delete_links i X (C ++ q :: Y)) by (done || lia). rewrite first_hi_app, first_hi_cons by done. done. }
  rewrite del_lev in Hq. apply del_stop in HX. apply del_all_lo in HC. rewrite Hh.
  apply split_app in Heq as [(B2 & HB & HCY)|(A1 & r & -> & HA)].
  - apply split_middle in HCY as [(C2 & -> & HA)|(B3 & -> & ->)].
    + assert (i < lev z c)%nat as Hlt.
      { specialize (Hlow q). rewrite HA, elem_of_app, elem_of_cons in Hlow. lia. }
      unfold all_lo in HC. apply Forall_app in HC as [HB2 HC2].
      rewrite decide_True by (split; [done|by apply (del_pred i X B2)]).
      rewrite (Hok i X B2 c A); try done; [|lia|by rewrite HB, <- app_assoc].
      rewrite <- (lst_snoc (z_header z) B c) at 1.
      rewrite (Hok i (B ++ [c]) C2 q Y); try done; [rewrite zlen_app; lia|lia|by rewrite HA, <- app_assoc|by apply stop_snoc].
    + rewrite decide_False.
      * apply (Hok i X C q (B3 ++ c :: A)); try done; [lia|by rewrite HB, <- !app_assoc].
      * intros [Hlt He]. eapply (del_not_before i X (C ++ q :: B3) q); [done..| |done].
        by rewrite first_hi_app, first_hi_cons.
  - destruct (del_after i A1 (C ++ q :: Y) r) as (Hl & Hs & Hn); [done..|].
    rewrite decide_False by tauto. rewrite Hl. apply (Hok i _ C q Y); try done; [lia|].
    rewrite HA, <- app_assoc. cbn [app]. by rewrite <- app_assoc.
Qed.
End delete.

(** ** The searches by score and member *)
(** The order of entries: by score, then by member. *)
Definition elt (a b : bytes * float64) : bool := flt a.2 b.2 || (feq a.2 b.2 && str_ltb a.1 b.1).

Lemma before_elt score member n : before score member n = elt (zn_member n, zn_score n) (member, score).
Proof. done. Qed.

Lemma search_run z ps (f : bytes * float64 → bool) :
  skip z ps →
  ∃ B A update rank r,
    ps = B ++ A ∧
    descend (z_level z) (λ _ _ n, f (zn_member n, zn_score n)) (z_header z) 0 z
      = (Ret (lst (z_header z) B, r, update, rank), z) ∧
    (spans_ok z ps → r = zlen B) ∧
    (∀ q, last B = Some q → f (ent z q) = true) ∧ (∀ q, head A = Some q → f (ent z q) = false) ∧
    length update = z_level z ∧ length rank = z_level z ∧
    ∀ k, (k < z_level z)%nat → ∃ n, pred_at z k B (update !!! k) n ∧ (spans_ok z ps → rank !!! k = n).
Proof.
  intros Hsk. pose proof (sk_level _ _ Hsk) as Hml.
  destruct (descend_run z ps Hsk (λ _ _ n, f (zn_member n, zn_score n)) (λ q, f (ent z q))
    (λ X acc, spans_ok z ps → acc = zlen X)) with (i := z_level z) (X := @nil positive) (Y := ps) (acc := 0)
    as (B & A & r & update & rank & -> & Hrun & Hr & HB & _ & HA & Hlu & Hlr & Hupd).
  - intros i X C q Y acc n Hi Hps HX HC Hq Hacc Hn. rewrite (ent_node _ _ _ Hn). split; [done|].
    intros Hok. rewrite (Hok i X C q Y), (Hacc Hok) by done. autorewrite with zlen. lia.
  - done.
  - done.
  - apply stop_nil.
  - done.
  - done.
  - exists B, A, update, rank, r. split; [done|]. split; [exact Hrun|]. split; [done|]. split; [done|].
    split; [intros q Hq; apply HA; [lia|done]|]. split; [done|]. split; [done|].
    intros k Hk. destruct (Hupd k Hk) as (E & F & x & HEF & Hu & Hx & Hok & Hs & Hlo). exists (zlen E). split.
    + exists E, F. rewrite (list_lookup_total_correct _ _ _ Hu). done.
    + by rewrite (list_lookup_total_correct _ _ _ Hx).
Qed.

Lemma pred_at_node z ps B A k U n :
  skip z ps → ps = B ++ A → pred_at z k B U n → is_Some (meta z !! U).
Proof.
  intros Hsk -> (E & F & -> & -> & _). rewrite <- app_assoc in Hsk. by apply (sk_at _ _ E (F ++ A) Hsk).
Qed.
Lemma pred_at_ne z B A k U n c : NoDup (z_header z :: B ++ A) → c ∈ A → pred_at z k B U n → U ≠ c.
Proof.
  intros Hnd Hc (E & F & -> & -> & _). rewrite <- app_assoc in Hnd.
  apply (lst_before _ _ (F ++ A)); [done|]. apply elem_of_app. by right.
Qed.

Lemma all_lo_0 z ps C : skip z ps → C ⊆ ps → all_lo z 0 C → C = [].
Proof.
  intros Hsk HC Hlo. destruct C as [|c C]; [done|]. unfold all_lo in Hlo. apply Forall_cons in Hlo as [Hc _].
  destruct Hc. apply (sk_levels _ _ Hsk). apply HC. left.
Qed.
Lemma first_hi_0 z ps Y : skip z ps → Y ⊆ ps → first_hi z 0 Y = head Y.
Proof.
  intros Hsk HY. destruct Y as [|y Y]; [done|]. apply first_hi_cons. apply (sk_levels _ _ Hsk). apply HY. left.
Qed.
Lemma pred_at_0 z B A U n : skip z (B ++ A) → pred_at z 0 B U n → U = lst (z_header z) B ∧ n = zlen B.
Proof.
  intros Hsk (E & F & -> & -> & _ & HF & ->).
  rewrite (all_lo_0 z _ F Hsk) by (done || (intros p; rewrite !elem_of_app; tauto)). by rewrite app_nil_r.
Qed.

Lemma search_update_ok z B A update c :
  skip z (B ++ A) → c ∈ A → length update = z_level z →
  (∀ k, (k < z_level z)%nat → is_pred z k B (update !!! k)) →
  update_ok z update 0 (z_level z) c.
Proof.
  intros Hsk Hc Hlu HU. pose proof (sk_level _ _ Hsk) as Hml. split; [lia|]. intros k Hk.
  destruct (HU k ltac:(lia)) as [n Hn]. split_and!.
  - apply list_lookup_lookup_total_lt. lia.
  - by apply (pred_at_node z _ B A k _ n Hsk).
  - apply (pred_at_ne z B A k _ n); [apply (sk_nodup _ _ Hsk)|done..].
Qed.

(** The unlinked node is the successor of its predecessors exactly on its levels. *)
Lemma search_next z B c A k U n :
  skip z (B ++ c :: A) → (k < z_level z)%nat → pred_at z k B U n →
  fwd z k U = Some c ↔ (k < lev z c)%nat.
Proof.
  intros Hsk Hk (E & F & HB & -> & HE & HF & _). pose proof (sk_level _ _ Hsk) as Hml.
  rewrite (sk_links _ _ Hsk k E (F ++ c :: A)) by (done || lia || by rewrite HB, app_assoc).
  rewrite first_hi_app by done. destruct (decide (k < lev z c)%nat) as [Hlt|Hge].
  - by rewrite first_hi_cons.
  - split; [|done]. intros Hf. pose proof (first_hi_skip z k [] c A Hge) as Hs. cbn [app] in Hs. rewrite Hs in Hf.
    apply first_hi_Some in Hf as (C & D & -> & _). exfalso.
    pose proof (sk_nodup _ _ Hsk) as Hnd. rewrite NoDup_cons, NoDup_app, NoDup_cons in Hnd.
    destruct Hnd as (_ & _ & _ & Hnd & _). apply Hnd. rewrite !elem_of_app, elem_of_cons. tauto.
Qed.

(** What deleting the node [c] between [B] and [A] does. *)
Definition deleted (z z' : ZSet) (B : list positive) (c : positive) (A : list positive) (member : bytes) : Prop :=
  skip z' (B ++ A) ∧ meta z' = meta z ∧ z_dict z' = delete member (z_dict z) ∧
  ((∀ p, p ∈ A → (lev z p ≤ lev z c)%nat) → spans_ok z (B ++ c :: A) → spans_ok z' (B ++ A)).

Lemma NoDup_middle {T} (h : T) B c A : NoDup (h :: B ++ c :: A) → NoDup (h :: B ++ A) ∧ c ∉ h :: B ++ A.
Proof.
  intros Hnd. assert (h :: B ++ c :: A ≡ₚ c :: h :: B ++ A) as Hp by (rewrite <- Permutation_middle; constructor).
  rewrite Hp in Hnd. by apply NoDup_cons in Hnd as [? ?].
Qed.

Section deleted.
Context (z z2 : ZSet) (B : list positive) (c : positive) (A : list positive) (member : bytes).
Context (U : nat → positive).
Context (Hsk : skip z (B ++ c :: A)).
Context (HU : ∀ k, (k < z_level z)%nat → is_pred z k B (U k)).
Context (Harr : arrays z2) (Hframe : frame z2 = frame z).
Context (Hfwd : ∀ k p, fwd z2 k p = if decide ((k < lev z c)%nat ∧ p = U k) then fwd z k c else fwd z k p).
Context (Hspn : ∀ k p, fwd z2 k p ≠ None →
  spn z2 k p = if decide ((k < lev z c)%nat ∧ p = U k) then spn z k p + (spn z k c - 1) else spn z k p).

(** The tail the code sets. *)
Definition new_tail : option positive :=
  match fwd z2 0 c with
  | None => if bool_decide (U 0%nat = z_header z) then None else Some (U 0%nat)
  | Some _ => z_tail z
  end.

Lemma new_tail_last : new_tail = last (B ++ A).
Proof.
  pose proof (sk_level _ _ Hsk) as Hml. pose proof (sk_nodup _ _ Hsk) as Hnd.
  destruct (HU 0%nat ltac:(lia)) as [n0 Hn0]. destruct (pred_at_0 _ _ _ _ _ Hsk Hn0) as [HU0 _].
  assert (fwd z2 0 c = head A) as Hf0.
  { rewrite Hfwd, decide_False.
    - rewrite <- (lst_snoc (z_header z) B c). rewrite (sk_links _ _ Hsk 0%nat (B ++ [c]) A).
      + apply (first_hi_0 z _ A Hsk). intros p. rewrite elem_of_app, elem_of_cons. tauto.
      + unfold MaxLevel. lia.
      + by rewrite <- app_assoc.
      + apply stop_snoc. apply (sk_levels _ _ Hsk). rewrite elem_of_app, elem_of_cons. tauto.
    - intros [_ He]. rewrite HU0 in He. symmetry in He. revert He. apply (lst_before _ _ (c :: A)); [done|left]. }
  unfold new_tail. rewrite Hf0. destruct A as [|a A']; cbn; cycle 1.
  { rewrite (sk_tail _ _ Hsk). rewrite !last_app. cbn. done. }
  rewrite app_nil_r, HU0. unfold lst. destruct (last B) as [b|] eqn:Eb; cbn.
  - rewrite bool_decide_eq_false_2; [done|]. intros ->. apply last_Some_elem_of in Eb.
    apply NoDup_cons in Hnd as [Hn _]. apply Hn. apply elem_of_app. by left.
  - by rewrite bool_decide_eq_true_2.
Qed.

Lemma deleted_intro l' :
  (1 ≤ l' ≤ z_level z)%nat → (∀ j, (l' ≤ j < z_level z)%nat → fwd z2 j (z_header z) = None) →
  deleted z (mkZSet (z_nodes z2) (z_header z) new_tail l' (z_length z - 1) (delete member (z_dict z))) B c A member.
Proof.
  intros Hl' Hnone. set (z' := mkZSet _ _ _ _ _ _). pose proof (sk_level _ _ Hsk) as Hml.
  pose proof (sk_nodup _ _ Hsk) as Hnd.
  assert (meta z' = meta z) as Hmeta by (by apply frame_meta in Hframe).
  assert (∀ p, lev z' p = lev z p) as Hlev by (intros p; unfold lev; by rewrite Hmeta).
  pose proof (delete_links z z' B A c U Hsk Hmeta eq_refl HU Hfwd) as Hlinks.
  split; [|split; [done|split; [done|]]].
  - constructor.
    + done.
    + by apply NoDup_middle in Hnd as [? _].
    + intros p Hp. rewrite Hmeta. apply (sk_nodes _ _ Hsk). cbn in Hp.
      rewrite elem_of_cons, elem_of_app in *. rewrite elem_of_cons. tauto.
    + intros p Hp. rewrite Hlev. cbn.
      destruct (sk_levels _ _ Hsk p); [rewrite elem_of_app, elem_of_cons in *; tauto|]. split; [done|].
      destruct (decide (l' = z_level z)) as [->|]; [done|]. destruct (decide (lev z p ≤ l')%nat); [done|]. exfalso.
      specialize (Hlinks l' [] (B ++ A) ltac:(lia) eq_refl (stop_nil _ _)). cbn in Hlinks.
      replace (fwd z' l' (z_header z)) with (@None positive) in Hlinks by (symmetry; apply (Hnone l'); lia).
      symmetry in Hlinks. apply first_hi_None in Hlinks. unfold all_lo in Hlinks. rewrite Forall_forall in Hlinks.
      specialize (Hlinks p Hp). rewrite Hlev in Hlinks. lia.
    + cbn. lia.
    + apply new_tail_last.
    + cbn. rewrite (sk_length _ _ Hsk). autorewrite with zlen. lia.
    + done.
  - intros Hlow. apply (delete_spans z z' B A c U); try done. cbn. lia.
Qed.
End deleted.

Lemma z_get_run {A B} (f : ZSet → A) (k : A → ZM B) z : (z_get f ≫= k) z = k (f z) z.
Proof. done. Qed.

(** The part of [deleteNode] after the search found the node. *)
Lemma unlink_run z B c A member update :
  skip z (B ++ c :: A) → length update = z_level z →
  (∀ k, (k < z_level z)%nat → is_pred z k B (update !!! k)) →
  ∃ z',
    unlink_node (z_level z) (z_header z) update c member z = (Ret tt, z') ∧ deleted z z' B c A member.
Proof.
  unfold unlink_node.
  intros Hsk Hlu HU. pose proof (sk_level _ _ Hsk) as Hml. pose proof (sk_arrays _ _ Hsk) as Harr.
  assert (is_Some (meta z !! c)) as Hc by (apply (sk_nodes _ _ Hsk); rewrite elem_of_cons, elem_of_app, elem_of_cons; tauto).
  assert (1 ≤ lev z c ≤ z_level z)%nat as Hlc by (apply (sk_levels _ _ Hsk); rewrite elem_of_app, elem_of_cons; tauto).
  pose proof (search_update_ok z B (c :: A) update c Hsk ltac:(left) Hlu HU) as Hok.
  destruct (unlink_levels_run (z_level z) 0 z update c (lev z c) Harr Hc Hok ltac:(lia)) as (z1 & E1 & A1 & F1 & W1 & S1).
  { intros k Hk. destruct (HU k ltac:(lia)) as [n Hn]. apply (search_next z B c A k _ n); [done|lia|done]. }
  rewrite (bind_Ret _ _ _ _ _ E1).
  assert (update_ok z1 update 0 (z_level z) c) as Hok1.
  { destruct Hok as [H1 H2]. split; [done|]. by rewrite (frame_meta _ _ F1). }
  destruct (shorten_ends_run (z_level z) z1 update c A1 Hok1) as (z2 & E2 & A2 & F2 & W2 & S2).
  rewrite (bind_Ret _ _ _ _ _ E2). assert (frame z2 = frame z) as F by congruence.
  assert (∀ k p, fwd z2 k p = if decide ((k < lev z c)%nat ∧ p = update !!! k) then fwd z k c else fwd z k p) as W.
  { intros k p. rewrite W2, W1. repeat case_decide; try done; naive_solver lia. }
  assert (is_Some (meta z2 !! c)) as Hc2 by (by rewrite (frame_meta _ _ F)).
  rewrite (bind_Ret _ _ _ _ _ (get_forward_run z2 A2 c Hc2 0 ltac:(lia))).
  injection F as Fm Fh Ft Fl Fn Fd.
  set (z3 := mkZSet (z_nodes z2) (z_header z) (new_tail z z2 c (λ k, update !!! k)) (z_level z) (z_length z) (z_dict z)).
  assert ((match fwd z2 0 c with
           | Some _ => mret tt
           | None => u0 ← Prelude.index update 0;
                     if bool_decide (u0 = z_header z) then set_tail None else set_tail (Some u0)
           end) z2 = (Ret tt, z3)) as E3.
  { unfold z3, new_tail. destruct (fwd z2 0 c); [rewrite <- Fh, <- Ft, <- Fl, <- Fn, <- Fd; by destruct z2|].
    rewrite (bind_Ret _ _ _ _ _ (index_run update 0 (update !!! 0%nat) z2 (proj1 (proj2 Hok1 0%nat ltac:(lia))))).
    rewrite <- Fh, <- Fl, <- Fn, <- Fd. by case_bool_decide. }
  rewrite (bind_Ret _ _ _ _ _ E3).
  destruct (shrink_level_run (z_level z) z3) as (l' & E4 & Hl' & Hnone); [done| |lia|done|].
  { change (is_Some (meta z2 !! z_header z)). rewrite Fm. apply (sk_nodes _ _ Hsk). left. }
  rewrite (bind_Ret _ _ _ _ _ E4). eexists. split; [reflexivity|]. cbn.
  apply (deleted_intro z z2 B c A member (λ k, update !!! k)); try done.
  - unfold frame. congruence.
  - intros k p Hf. rewrite S2, S1 by (by rewrite <- W2). repeat case_decide; try done; naive_solver lia.
Qed.

Lemma deleteNode_run z ps member score :
  skip z ps →
  ∃ B A, ps = B ++ A ∧
    (∀ q, last B = Some q → elt (ent z q) (member, score) = true) ∧
    (∀ q, head A = Some q → elt (ent z q) (member, score) = false) ∧
    match A with
    | c :: A' =>
        if feq (ent z c).2 score && beq (ent z c).1 member
        then ∃ z', deleteNode member score z = (Ret tt, z') ∧ deleted z z' B c A' member
        else deleteNode member score z = (Ret tt, z)
    | [] => deleteNode member score z = (Ret tt, z)
    end.
Proof.
  intros Hsk. pose proof (sk_level _ _ Hsk) as Hml.
  destruct (search_run z ps (λ e, elt e (member, score)) Hsk)
    as (B & A & update & rank & r & -> & Hrun & _ & HB & HA & Hlu & _ & Hupd).
  exists B, A. split; [done|]. split; [done|]. split; [done|].
  assert (deleteNode member score z =
    (match head A with
     | None => mret tt
     | Some c =>
       n ← z_load c;
       if feq (zn_score n) score && beq (zn_member n) member then
         unlink_node (z_level z) (z_header z) update c member
       else mret tt
     end) z) as ->.
  { unfold deleteNode. rewrite !z_get_run.
    change (λ _ _, before score member) with (λ (_ _ : Z) n, elt (zn_member n, zn_score n) (member, score)).
    rewrite (bind_Ret _ _ _ _ _ Hrun). cbv beta iota.
    rewrite (bind_Ret _ _ _ _ _ (get_forward_run z (sk_arrays _ _ Hsk) _ (sk_at _ _ B A Hsk eq_refl) 0 ltac:(lia))).
    rewrite (sk_links _ _ Hsk 0%nat B A), (first_hi_0 z _ A Hsk);
      [done|intros p; rewrite elem_of_app; tauto|lia|done|].
    intros p Hp. apply (sk_levels _ _ Hsk). apply elem_of_app. left. by apply last_Some_elem_of. }
  destruct A as [|c A]; [done|]. cbn [head].
  assert (is_Some (meta z !! c)) as Hc by (apply (sk_nodes _ _ Hsk); rewrite elem_of_cons, elem_of_app, elem_of_cons; tauto).
  destruct (z_load_run z c Hc) as (n & En & Hl). rewrite (bind_Ret _ _ _ _ _ Hl), (ent_node _ _ _ En). cbn [fst snd].
  destruct (feq (zn_score n) score && beq (zn_member n) member); [|done].
  apply unlink_run; [done|done|]. intros k Hk. destruct (Hupd k Hk) as (x & Hx & _). by exists x.
Qed.

(** ** Insertion *)
Lemma randomLevel_loop_bounds rnd fuel i level :
  (1 ≤ level ≤ MaxLevel → 1 ≤ randomLevel_loop rnd fuel i level ≤ MaxLevel)%nat.
Proof.
  revert i level. induction fuel as [|fuel IH]; intros i level H; cbn [randomLevel_loop]; [done|].
  destruct (flt _ _); cbn [andb]; [|done]. destruct (Nat.ltb_spec level MaxLevel); [|done]. apply IH. lia.
Qed.
Lemma randomLevel_bounds rnd : (1 ≤ randomLevel rnd ≤ MaxLevel)%nat.
Proof. apply randomLevel_loop_bounds. unfold MaxLevel. lia. Qed.

Lemma arrays_alloc z new m s l :
  arrays z → map_Forall (λ _ n, length (zn_forward n) = MaxLevel ∧ length (zn_span n) = MaxLevel)
    (<[new := newZSetNode l m s]> (z_nodes z)).
Proof. intros H. by apply map_Forall_insert_2. Qed.
Lemma replicate_join {T} n i (x : option T) : x = None → (q ← replicate n x !! i; q) = None.
Proof.
  intros ->. destruct (replicate n None !! i) as [q|] eqn:E; [|done].
  by apply lookup_replicate in E as [-> _].
Qed.

(** What inserting the node [new] between [B] and [A] does. *)
Definition inserted (z z' : ZSet) (B : list positive) (new : positive) (A : list positive)
    (member : bytes) (score : float64) (nl : nat) : Prop :=
  skip z' (B ++ new :: A) ∧ meta z !! new = None ∧ meta z' = <[new := (member, score, nl)]> (meta z) ∧
  z_dict z' = <[member := score]> (z_dict z) ∧
  (spans_ok z (B ++ A) → spans_ok z' (B ++ new :: A)).

Section inserted.
Context (z z' : ZSet) (B A : list positive) (new : positive) (member : bytes) (score : float64) (nl : nat).
Context (U : nat → positive) (N sU : nat → Z).
Context (Hsk : skip z (B ++ A)) (Hnew : meta z !! new = None) (Hnl : (1 ≤ nl ≤ MaxLevel)%nat).
Context (HU : ∀ k, (k < Nat.max nl (z_level z))%nat → ∃ n, pred_at z k B (U k) n ∧ (spans_ok z (B ++ A) → N k = n)).
Context (Harr : arrays z') (Hmeta : meta z' = <[new := (member, score, nl)]> (meta z)).
Context (Hhead : z_header z' = z_header z) (Hdict : z_dict z' = <[member := score]> (z_dict z)).
Context (Hlevel : z_level z' = Nat.max nl (z_level z)) (Hlength : z_length z' = z_length z + 1).
Context (Htail : z_tail z' = if fwd z' 0 new is None then Some new else z_tail z).
Context (Hfwd : ∀ k p,
  fwd z' k p = if decide (k < nl)%nat then
                 if decide (p = U k) then Some new else if decide (p = new) then fwd z k (U k) else fwd z k p
               else fwd z k p).
Context (Hspn_low : ∀ k p, (k < nl)%nat → spans_ok z (B ++ A) →
  spn z' k p = if decide (p = U k) then zlen B - N k + 1
               else if decide (p = new) then sU k - (zlen B - N k) else spn z k p).
Context (HsU : ∀ k, (k < z_level z)%nat → sU k = spn z k (U k)).
Context (Hspn_high : ∀ k p, (nl ≤ k < z_level z)%nat →
  spn z' k p = if decide (p = U k) then spn z k p + 1 else spn z k p).

Lemma ins_fresh : new ∉ z_header z :: B ++ A.
Proof. intros Hin. destruct (sk_nodes _ _ Hsk _ Hin) as [x Hx]. congruence. Qed.
Lemma ins_lev p : lev z' p = if decide (p = new) then nl else lev z p.
Proof. unfold lev. rewrite Hmeta, lookup_insert. repeat case_decide; congruence || done. Qed.

Lemma ins_tail : z_tail z' = last (B ++ new :: A).
Proof.
  pose proof (sk_level _ _ Hsk) as Hml. destruct (HU 0%nat ltac:(lia)) as (n & Hn & _).
  destruct (pred_at_0 _ _ _ _ _ Hsk Hn) as [HU0 _].
  assert (fwd z' 0 new = head A) as Hf.
  { rewrite Hfwd, decide_True, decide_False, decide_True by (done || lia || (rewrite HU0; by apply not_eq_sym, (lst_not_in _ _ A), ins_fresh)).
    rewrite HU0, (sk_links _ _ Hsk 0%nat B A); [|lia|done|].
    - apply (first_hi_0 z _ A Hsk). intros p. rewrite elem_of_app. tauto.
    - intros p Hp. apply (sk_levels _ _ Hsk). apply elem_of_app. left. by apply last_Some_elem_of. }
  rewrite Htail, Hf, (sk_tail _ _ Hsk), !last_app. by destruct A.
Qed.

Lemma inserted_intro : inserted z z' B new A member score nl.
Proof.
  pose proof (sk_level _ _ Hsk) as Hml. pose proof ins_fresh as Hfresh.
  assert (∀ k, (k < nl)%nat → is_pred z k B (U k)) as HU'.
  { intros k Hk. destruct (HU k ltac:(lia)) as (n & Hn & _). by exists n. }
  split; [|split; [done|split; [done|split; [done|]]]].
  - constructor.
    + done.
    + rewrite Hhead. assert (z_header z :: B ++ new :: A ≡ₚ new :: z_header z :: B ++ A) as ->
        by (rewrite <- Permutation_middle; constructor).
      apply NoDup_cons. split; [done|]. apply (sk_nodup _ _ Hsk).
    + intros p Hp. rewrite Hmeta, lookup_insert. case_decide; [done|]. apply (sk_nodes _ _ Hsk).
      rewrite Hhead, elem_of_cons, elem_of_app, elem_of_cons in Hp. rewrite elem_of_cons, elem_of_app. naive_solver.
    + intros p Hp. rewrite ins_lev, Hlevel. case_decide; [lia|].
      assert (p ∈ B ++ A) as Hin by (rewrite elem_of_app, elem_of_cons in Hp; rewrite elem_of_app; naive_solver).
      pose proof (sk_levels _ _ Hsk p Hin). lia.
    + rewrite Hlevel. lia.
    + apply ins_tail.
    + rewrite Hlength, (sk_length _ _ Hsk). autorewrite with zlen. lia.
    + intros i X Y. apply (insert_links z z' B A new nl U); try done; intros; apply ins_lev || apply Hfwd.
  - intros Hok. apply (insert_spans z z' B A new nl U N sU); try done; [intros; apply ins_lev| |by intros; apply Hspn_low].
    intros k Hk. destruct (HU k Hk) as (n & Hn & HN). by rewrite (HN Hok).
Qed.
End inserted.

(** The levels above the highest: raised before the node is linked. *)
Lemma raise_run z ps nl :
  skip z ps → (1 ≤ nl ≤ MaxLevel)%nat →
  ∃ z1, (if (z_level z <? nl)%nat
         then raise_levels (z_level z) (nl - z_level z) (z_header z) (z_length z);; set_level nl
         else mret tt) z = (Ret tt, z1) ∧ arrays z1 ∧
    frame z1 = (meta z, z_header z, z_tail z, Nat.max nl (z_level z), z_length z, z_dict z) ∧
    (∀ k p, fwd z1 k p = fwd z k p) ∧ (∀ k p, (k < z_level z)%nat ∨ p ≠ z_header z → spn z1 k p = spn z k p).
Proof.
  intros Hsk Hnl. pose proof (sk_level _ _ Hsk) as Hml. destruct (Nat.ltb_spec (z_level z) nl).
  - destruct (raise_levels_run (nl - z_level z) (z_level z) z (z_header z) (z_length z))
      as (z1 & E1 & A1 & F1 & W1 & S1); [apply (sk_arrays _ _ Hsk)|apply (sk_nodes _ _ Hsk); left|lia|].
    rewrite (bind_Ret _ _ _ _ _ E1). eexists; split; [reflexivity|]. injection F1 as ? ? ? ? ? ?.
    split; [done|]. split; [unfold frame; cbn; rewrite Nat.max_l by lia; unfold meta in *; cbn; congruence|].
    split; [done|]. intros k p Hk. etrans; [apply (S1 k p)|]. rewrite decide_False; [done|]. intros [? ?]. destruct Hk; [lia|done].
  - exists z. split; [done|]. split; [apply (sk_arrays _ _ Hsk)|]. rewrite Nat.max_r by lia. done.
Qed.

(** The predecessors of all levels up to the new one. *)
Lemma extend_pred z B A update rank nl :
  skip z (B ++ A) → length update = z_level z → length rank = z_level z →
  (∀ k, (k < z_level z)%nat → ∃ n, pred_at z k B (update !!! k) n ∧ (spans_ok z (B ++ A) → rank !!! k = n)) →
  let update' := update ++ replicate (nl - z_level z) (z_header z) in
  let rank' := rank ++ replicate (nl - z_level z) 0 in
  ∀ k, (k < Nat.max nl (z_level z))%nat →
    update' !! k = Some (update' !!! k) ∧ rank' !! k = Some (rank' !!! k) ∧
    ∃ n, pred_at z k B (update' !!! k) n ∧ (spans_ok z (B ++ A) → rank' !!! k = n).
Proof.
  intros Hsk Hlu Hlr HU update' rank' k Hk. split_and!.
  1,2: apply list_lookup_lookup_total_lt; unfold update', rank'; rewrite length_app, length_replicate; lia.
  unfold update', rank'. destruct (decide (k < z_level z)%nat) as [Hlt|Hge].
  - rewrite !lookup_total_app_l by lia. auto.
  - rewrite !lookup_total_app_r, Hlu, Hlr by lia. rewrite !lookup_total_replicate_2 by lia.
    exists 0. split; [|done]. exists [], B. split; [done|]. split; [done|]. split; [apply stop_nil|].
    split; [|done]. unfold all_lo. apply Forall_forall. intros p Hp.
    pose proof (sk_levels _ _ Hsk p ltac:(apply elem_of_app; by left)). lia.
Qed.

Lemma pred_at_high z ps B A k U n :
  skip z ps → ps = B ++ A → pred_at z k B U n → ¬ (k < z_level z)%nat → U = z_header z.
Proof.
  intros Hsk -> (E & F & -> & -> & HE & _) Hk. unfold lst. destruct (last E) as [p|] eqn:Ep; [|done]. exfalso.
  specialize (HE p Ep). apply last_Some_elem_of in Ep.
  pose proof (sk_levels _ _ Hsk p ltac:(rewrite !elem_of_app; tauto)). lia.
Qed.
Lemma z_alloc_run z m s l :
  arrays z →
  ∃ new z', z_alloc (newZSetNode l m s) z = (Ret new, z') ∧ meta z !! new = None ∧ arrays z' ∧
    frame z' = (<[new := (m, s, l)]> (meta z), z_header z, z_tail z, z_level z, z_length z, z_dict z) ∧
    (∀ k p, fwd z' k p = fwd z k p) ∧ (∀ k p, spn z' k p = spn z k p).
Proof.
  intros Harr. set (new := fresh (dom (z_nodes z))).
  assert (z_nodes z !! new = None) as Hnew by apply not_elem_of_dom, is_fresh.
  exists new. eexists. split; [reflexivity|]. fold new. split; [|split; [|split; [|split]]].
  - unfold meta. by rewrite lookup_fmap, Hnew.
  - by apply arrays_alloc.
  - unfold frame, meta. cbn. by rewrite fmap_insert.
  - intros k p. unfold fwd. cbn [z_nodes]. rewrite lookup_insert. case_decide as Hp; [subst p|done].
    rewrite Hnew. exact (replicate_join MaxLevel k None eq_refl).
  - intros k p. unfold spn. cbn [z_nodes]. rewrite lookup_insert. case_decide as Hp; [subst p|done].
    rewrite Hnew. cbn [mbind option_bind newZSetNode zn_span].
    destruct (replicate MaxLevel 0 !! k) as [x|] eqn:E; [|done]. by apply lookup_replicate in E as [-> _].
Qed.

(** Linking the new node and widening the levels above it. *)
Lemma link_run z update rank new nl l :
  arrays z → is_Some (meta z !! new) → z_level z = l → (1 ≤ nl ≤ l)%nat →
  update_ok z update 0 l new → (∀ k, (k < l)%nat → rank !! k = Some (rank !!! k)) →
  ∃ z', (∀ T (rest : ZM T),
           (link_levels 0 nl update rank new;;
            level ← z_get z_level; widen_levels nl (level - nl) update;; rest) z = rest z') ∧
    arrays z' ∧ frame z' = frame z ∧
    (∀ k p, fwd z' k p =
       if decide (k < nl)%nat then
         if decide (p = update !!! k) then Some new
         else if decide (p = new) then fwd z k (update !!! k) else fwd z k p
       else fwd z k p) ∧
    (∀ k p, (k < nl)%nat → spn z' k p =
       if decide (p = update !!! k) then rank !!! 0%nat - rank !!! k + 1
       else if decide (p = new) then spn z k (update !!! k) - (rank !!! 0%nat - rank !!! k) else spn z k p) ∧
    (∀ k p, (nl ≤ k < l)%nat → spn z' k p = if decide (p = update !!! k) then spn z k p + 1 else spn z k p).
Proof.
  intros Harr Hnew Hl Hnl [Hm Hu] Hrank.
  destruct (link_levels_run nl 0 z update rank new) as (z1 & E1 & A1 & F1 & W1 & S1); [done|done| |intros; apply Hrank; lia|].
  { split; [lia|]. intros k Hk. apply Hu. lia. }
  pose proof F1 as F1'. injection F1' as M1 _ _ L1 _ _.
  destruct (widen_levels_run (l - nl) nl z1 update new) as (z2 & E2 & A2 & F2 & W2 & S2); [done| |].
  { split; [lia|]. intros k Hk. rewrite M1. apply Hu. lia. }
  exists z2. split.
  { intros T rest. by rewrite (bind_Ret _ _ _ _ _ E1), z_get_run, L1, Hl, (bind_Ret _ _ _ _ _ E2). }
  split; [done|]. split; [congruence|]. split; [|split].
  - intros k p. rewrite W2, W1. destruct (decide (k < nl)%nat) as [Hk|Hk];
      [by rewrite decide_True by lia|by rewrite decide_False by lia].
  - intros k p Hk. rewrite S2, S1, decide_False, decide_True by lia. done.
  - intros k p Hk. rewrite S2, S1. rewrite (decide_False (P := (0 ≤ k < 0 + nl)%nat)) by lia.
    repeat case_decide; try done; naive_solver lia.
Qed.

Lemma Add_insert_run rnd z ps member score :
  skip z ps →
  ∃ B A z' new, ps = B ++ A ∧
    (∀ q, last B = Some q → elt (ent z q) (member, score) = true) ∧
    (∀ q, head A = Some q → elt (ent z q) (member, score) = false) ∧
    Add_insert rnd member score z = (Ret true, z') ∧
    inserted z z' B new A member score (randomLevel rnd).
Proof.
  intros Hsk. pose proof (sk_level _ _ Hsk) as Hml. pose proof (randomLevel_bounds rnd) as Hnl.
  destruct (search_run z ps (λ e, elt e (member, score)) Hsk)
    as (B & A & update & rank & r & -> & Hrun & Hr & HB & HA & Hlu & Hlr & Hupd).
  set (nl := randomLevel rnd) in *.
  pose proof (extend_pred z B A update rank nl Hsk Hlu Hlr Hupd) as Hext. cbv zeta in Hext.
  unfold Add_insert. rewrite !z_get_run.
  change (λ _ _, before score member) with (λ (_ _ : Z) n, elt (zn_member n, zn_score n) (member, score)).
  rewrite (bind_Ret _ _ _ _ _ Hrun). cbv beta iota zeta. rewrite z_get_run. fold nl. clearbody nl.
  set (update' := update ++ _) in *. set (rank' := rank ++ _) in *.
  destruct (raise_run z (B ++ A) nl Hsk Hnl) as (z1 & E1 & A1 & F1 & W1 & S1).
  rewrite (bind_Ret _ _ _ _ _ E1). injection F1 as M1 H1 T1 L1 N1 D1.
  destruct (z_alloc_run z1 member score nl A1) as (new & z2 & E2 & Hnew & A2 & F2 & W2 & S2).
  rewrite (bind_Ret _ _ _ _ _ E2). rewrite M1, H1, T1, L1, N1, D1 in *. injection F2 as M2 H2 T2 L2 N2 D2.
  assert (∀ k, (k < Nat.max nl (z_level z))%nat → update' !!! k ≠ new ∧ is_Some (meta z !! (update' !!! k))) as HUn.
  { intros k Hk. destruct (Hext k Hk) as (_ & _ & n & Hn & _).
    pose proof (pred_at_node z _ B A k _ n Hsk eq_refl Hn) as Hs. split; [|done]. intros He. rewrite He, Hnew in Hs. by destruct Hs. }
  destruct (link_run z2 update' rank' new nl (Nat.max nl (z_level z))) as (z3 & E3 & A3 & F3 & W3 & S3 & S3').
  - done.
  - rewrite M2, lookup_insert_eq. done.
  - done.
  - lia.
  - split; [lia|]. intros k Hk. destruct (Hext k) as (Hx & _); [lia|]. destruct (HUn k) as [Hne Hs]; [lia|].
    rewrite M2, lookup_insert_ne by done. done.
  - intros k Hk. by apply Hext.
  - rewrite E3. injection F3 as M3 H3 T3 L3 N3 D3.
    assert (is_Some (meta z3 !! new)) as Hn3 by (rewrite M3, M2, lookup_insert_eq; done).
    rewrite (bind_Ret _ _ _ _ _ (get_forward_run z3 A3 new Hn3 0 ltac:(lia))).
    set (z4 := mkZSet (z_nodes z3) (z_header z3) (if fwd z3 0 new is None then Some new else z_tail z3)
                 (z_level z3) (z_length z3 + 1) (<[member := score]> (z_dict z3))).
    exists B, A, z4, new. split; [done|]. split; [done|]. split; [done|].
    split; [unfold z4; by destruct (fwd z3 0 new); destruct z3|].
    apply (inserted_intro z z4 B A new member score nl (λ k, update' !!! k) (λ k, rank' !!! k) (λ k, spn z2 k (update' !!! k)));
      try done; try (unfold z4; cbn [z_header z_level z_length z_dict]; congruence).
    + intros k Hk. by apply Hext.
    + change (meta z4 = <[new := (member, score, nl)]> (meta z)). transitivity (meta z3); [done|congruence].
    + change (fwd z4) with (fwd z3). unfold z4. cbn [z_tail]. by rewrite T3, T2.
    + intros k p. change (fwd z4 k p) with (fwd z3 k p). by rewrite W3, !W2, !W1.
    + intros k p Hk Hok. change (spn z4 k p) with (spn z3 k p).
      destruct (Hext 0%nat ltac:(lia)) as (_ & _ & n & Hn & Hr0). destruct (pred_at_0 _ _ _ _ _ Hsk Hn) as [_ HnB].
      rewrite S3, (Hr0 Hok), HnB by done. repeat case_decide; try done. rewrite S2, S1; [done|].
      destruct (Hext k ltac:(lia)) as (_ & _ & x & Hx & _). destruct (decide (k < z_level z)%nat); [by left|right].
      by rewrite <- (pred_at_high z (B ++ A) B A k (update' !!! k) x).
    + intros k Hk. rewrite S2, S1; [done|by left].
    + intros k p Hk. change (spn z4 k p) with (spn z3 k p). rewrite S3', S2, S1 by lia. done.
Qed.
