(* ===== verification/ZSetRefine.v ===== *)
(** * The sorted set object refines a sorted sequence of entries

    The reference is the sequence of (member, score) pairs in the order of score,
    then member.  Every operation of [ZSetStruct.v] computes on it what it should,
    with two provisos the code needs: scores are not NaN, and the operations that
    use ranks are only right while the spans are, which [deleteNode] breaks. *)

From S2P Require Import Prelude Float ZSetStruct ZSetSpec.
From Stdlib Require Import Ascii String ZArith Lia SpecFloat.
From stdpp Require Import prelude gmap list fin_maps sorting.
Open Scope Z_scope.

Create HintDb zset.
#[export] Hint Constants Opaque : zset.

Abbreviation entry := (bytes * float64)%type.

(** ** The order of entries *)
Definition num (e : entry) : Prop := IsNaN e.2 = false.

Lemma elt_key a b : num a → num b →
  elt a b = true ↔ key_lt (fkey a.2) (fkey b.2) ∨ (fkey a.2 = fkey b.2 ∧ str_ltb a.1 b.1 = true).
Proof. intros Ha Hb. unfold elt. rewrite orb_true_iff, andb_true_iff, flt_key, feq_key by done. done. Qed.
Lemma key_lt_trans a b c : key_lt a b → key_lt b c → key_lt a c.
Proof. unfold key_lt. lia. Qed.
Lemma key_lt_irrefl a : ¬ key_lt a a.
Proof. unfold key_lt. lia. Qed.
Lemma key_lt_total a b : key_lt a b ∨ a = b ∨ key_lt b a.
Proof.
  destruct a as [[a1 a2] a3], b as [[b1 b2] b3]. unfold key_lt. cbn.
  destruct (Z.lt_trichotomy a1 b1) as [?|[->|?]]; [lia| |lia].
  destruct (Z.lt_trichotomy a2 b2) as [?|[->|?]]; [lia| |lia].
  destruct (Z.lt_trichotomy a3 b3) as [?|[->|?]]; [lia| |lia]. auto.
Qed.

Lemma elt_irrefl a : elt a a = false.
Proof.
  unfold elt. rewrite str_ltb_irrefl, andb_false_r, orb_false_r. unfold flt.
  destruct (IsNaN a.2) eqn:Hn; [by destruct a as [m []]|].
  pose proof (SFcompare_key a.2 a.2 Hn Hn) as H. destruct (SFcompare _ _) as [[]|]; try done. by apply key_lt_irrefl in H.
Qed.
Lemma elt_trans a b c : num a → num b → num c → elt a b = true → elt b c = true → elt a c = true.
Proof.
  intros Ha Hb Hc. rewrite !elt_key by done. intros [H1|[E1 S1]] [H2|[E2 S2]].
  - left. by eapply key_lt_trans.
  - left. by rewrite <- E2.
  - left. by rewrite E1.
  - right. split; [congruence|]. by eapply str_ltb_trans.
Qed.
Lemma elt_total a b : num a → num b → a.1 ≠ b.1 → elt a b = false → elt b a = true.
Proof.
  intros Ha Hb Hne H. apply elt_key; [done..|]. rewrite <- not_true_iff_false, elt_key in H by done.
  destruct (key_lt_total (fkey a.2) (fkey b.2)) as [?|[E|?]]; [tauto| |by left].
  right. split; [done|]. destruct (str_ltb_total a.1 b.1 Hne) as [?|?]; [tauto|done].
Qed.

(** ** Sorted sequences *)
Abbreviation sorted := (StronglySorted (λ a b, elt a b = true)).

(** A set of members with scores, in order. *)
Record entries (l : list entry) : Prop := {
  es_sorted : sorted l;
  es_num : Forall num l;
  es_members : NoDup l.*1;
}.

(** The reference operations. *)
Definition score_of (m : bytes) (l : list entry) : option float64 := (list_to_map l : gmap bytes float64) !! m.
Definition without (m : bytes) (l : list entry) : list entry := filter (λ e, e.1 ≠ m) l.
Fixpoint insert_entry (e : entry) (l : list entry) : list entry :=
  match l with
  | [] => [e]
  | x :: l' => if elt x e then x :: insert_entry e l' else e :: x :: l'
  end.
Definition in_range (min max : float64) (e : entry) : bool := fge e.2 min && negb (fgt e.2 max).
Definition select (min max : float64) (l : list entry) : list entry := filter (λ e, in_range min max e = true) l.

Lemma sorted_app_inv l k : sorted (l ++ k) → ∀ x y, x ∈ l → y ∈ k → elt x y = true.
Proof.
  induction l as [|a l IH]; intros H x y Hx Hy; [by apply elem_of_nil in Hx|].
  apply StronglySorted_inv in H as [H1 H2]. apply elem_of_cons in Hx as [->|Hx]; [|by eapply IH].
  rewrite Forall_forall in H2. apply H2. apply elem_of_app. by right.
Qed.
Lemma sorted_app l k :
  sorted (l ++ k) ↔ sorted l ∧ sorted k ∧ ∀ x y, x ∈ l → y ∈ k → elt x y = true.
Proof.
  split.
  - intros H. split; [|split; [|by apply sorted_app_inv]].
    + induction l as [|a l IH]; [constructor|]. apply StronglySorted_inv in H as [H1 H2].
      constructor; [auto|]. by apply Forall_app in H2 as [? _].
    + induction l as [|a l IH]; [done|]. apply StronglySorted_inv in H as [H1 _]. auto.
  - intros (H1 & H2 & H3). induction l as [|a l IH]; [done|]. apply StronglySorted_inv in H1 as [H1 H4].
    constructor.
    + apply IH; [done|]. intros x y Hx. apply H3. by right.
    + apply Forall_app. split; [done|]. apply Forall_forall. intros y Hy. apply H3; [left|done].
Qed.

Lemma score_of_elem l m s : entries l → score_of m l = Some s ↔ (m, s) ∈ l.
Proof. intros Hl. unfold score_of. symmetry. apply elem_of_list_to_map. apply Hl. Qed.
Lemma score_of_None l m : score_of m l = None ↔ m ∉ l.*1.
Proof. unfold score_of. symmetry. apply not_elem_of_list_to_map. Qed.

Lemma entries_without m l : entries l → entries (without m l).
Proof.
  intros [H1 H2 H3]. unfold without. constructor.
  - clear H2 H3. induction H1 as [|x l H1 IH Hx]; [constructor|]. rewrite filter_cons. case_decide; [|done].
    constructor; [done|]. apply Forall_forall. intros y Hy. apply list_elem_of_filter in Hy as [_ Hy].
    rewrite Forall_forall in Hx. auto.
  - apply Forall_forall. intros x Hx. apply list_elem_of_filter in Hx as [_ Hx]. rewrite Forall_forall in H2. auto.
  - clear H1 H2. induction l as [|x l IH]; [constructor|]. cbn in H3. apply NoDup_cons in H3 as [H3 H4].
    rewrite filter_cons. case_decide; [|auto]. cbn. apply NoDup_cons. split; [|auto].
    intros Hin. apply H3. apply list_elem_of_fmap in Hin as (y & -> & Hy). apply list_elem_of_filter in Hy as [_ Hy].
    by apply list_elem_of_fmap_2.
Qed.
Lemma without_absent m l : m ∉ l.*1 → without m l = l.
Proof.
  intros H. unfold without. induction l as [|x l IH]; [done|]. cbn in H. rewrite not_elem_of_cons in H.
  rewrite filter_cons, decide_True by naive_solver. f_equal. tauto.
Qed.
Lemma without_middle B m s A : NoDup (B ++ (m, s) :: A).*1 → without m (B ++ (m, s) :: A) = B ++ A.
Proof.
  intros H. rewrite fmap_app, fmap_cons in H. apply NoDup_app in H as (_ & H1 & H2). apply NoDup_cons in H2 as [H2 _].
  unfold without. rewrite filter_app, filter_cons, decide_False by naive_solver.
  fold (without m B). fold (without m A). rewrite !without_absent; [done|done|].
  intros Hin. apply (H1 m Hin). left.
Qed.

(** The place a search finds: everything before it is smaller. *)
Lemma sorted_before l k e :
  sorted (l ++ k) → Forall num (l ++ k) → num e →
  (∀ x, last l = Some x → elt x e = true) → Forall (λ x, elt x e = true) l.
Proof.
  intros Hs Hn He Hlast. destruct (decide (l = [])) as [->|Hne]; [constructor|].
  destruct (exists_last Hne) as (l' & x & ->). specialize (Hlast x). rewrite last_snoc in Hlast.
  apply Forall_forall. intros y Hy. apply elem_of_app in Hy as [Hy|Hy].
  - apply sorted_app in Hs as (Hs & _). apply sorted_app in Hs as (_ & _ & Hs).
    rewrite Forall_forall in Hn. apply (elt_trans y x e); auto.
    + apply Hn. rewrite !elem_of_app. tauto.
    + apply Hn. rewrite !elem_of_app, list_elem_of_singleton. tauto.
    + apply Hs; [done|left].
  - apply list_elem_of_singleton in Hy as ->. auto.
Qed.
Lemma sorted_after l k e :
  sorted (l ++ k) → Forall num (l ++ k) → num e → e.1 ∉ k.*1 →
  (∀ x, head k = Some x → elt x e = false) → Forall (λ x, elt e x = true) k.
Proof.
  intros Hs Hn He Hm Hh. destruct k as [|x k]; [constructor|]. specialize (Hh x eq_refl).
  apply Forall_app in Hn as [_ Hn]. apply Forall_cons in Hn as [Hx Hn]. cbn in Hm. rewrite not_elem_of_cons in Hm.
  assert (elt e x = true) as Hex by (apply elt_total; naive_solver).
  apply sorted_app in Hs as (_ & Hs & _). apply StronglySorted_inv in Hs as [_ Hs].
  constructor; [done|]. rewrite Forall_forall in *. intros y Hy. apply (elt_trans e x y); auto.
Qed.
Lemma insert_entry_split B A e :
  Forall (λ x, elt x e = true) B → (∀ x, head A = Some x → elt x e = false) →
  insert_entry e (B ++ A) = B ++ e :: A.
Proof.
  intros HB HA. induction HB as [|x B Hx HB IH]; cbn.
  - destruct A as [|a A]; [done|]. cbn. by rewrite (HA a).
  - by rewrite Hx, IH.
Qed.
Lemma entries_insert B A e :
  entries (B ++ A) → num e → e.1 ∉ (B ++ A).*1 →
  (∀ x, last B = Some x → elt x e = true) → (∀ x, head A = Some x → elt x e = false) →
  entries (B ++ e :: A) ∧ insert_entry e (B ++ A) = B ++ e :: A.
Proof.
  intros [Hs Hn Hm] He Hem HB HA. pose proof (sorted_before B A e Hs Hn He HB) as HB'.
  rewrite fmap_app in Hem, Hm. rewrite elem_of_app in Hem.
  pose proof (sorted_after B A e Hs Hn He ltac:(tauto) HA) as HA'.
  split; [|by apply insert_entry_split]. apply sorted_app in Hs as (H1 & H2 & H3). apply Forall_app in Hn as [Hn1 Hn2].
  rewrite Forall_forall in HB'. constructor.
  - apply sorted_app. split; [done|]. split; [by constructor|]. intros x y Hx Hy.
    apply elem_of_cons in Hy as [->|Hy]; auto.
  - apply Forall_app. split; [done|]. by constructor.
  - rewrite fmap_app, fmap_cons. assert (B.*1 ++ e.1 :: A.*1 ≡ₚ e.1 :: B.*1 ++ A.*1) as ->
      by (by rewrite <- Permutation_middle).
    apply NoDup_cons. rewrite elem_of_app. tauto.
Qed.

(** ** The representation *)
(** [z] holds the entries [l]; with [b], its spans are right. *)
Definition zrep (b : bool) (z : ZSet) (l : list entry) : Prop :=
  ∃ ps, skip z ps ∧ ent z <$> ps = l ∧ entries l ∧ z_dict z = list_to_map l ∧ (b = true → spans_ok z ps).

Lemma NewZSet_skip : skip NewZSet [].
Proof.
  constructor.
  - by apply map_Forall_singleton.
  - repeat constructor. apply not_elem_of_nil.
  - intros p Hp. apply list_elem_of_singleton in Hp as ->. done.
  - intros p Hp. by apply elem_of_nil in Hp.
  - cbn. unfold MaxLevel. lia.
  - done.
  - done.
  - intros i X Y Hi HXY _. symmetry in HXY. apply app_eq_nil in HXY as [-> ->]. exact (replicate_join MaxLevel i None eq_refl).
Qed.
Lemma NewZSet_rep : zrep true NewZSet [].
Proof.
  exists []. split; [apply NewZSet_skip|]. split; [done|]. split; [repeat constructor|]. split; [done|].
  intros _ i X C q Y _ H. exfalso. symmetry in H. apply app_eq_nil in H as [_ H]. by apply app_eq_nil in H as [_ ?].
Qed.

Lemma zrep_score b z l m : zrep b z l → z_dict z !! m = score_of m l.
Proof. intros (ps & _ & _ & _ & -> & _). done. Qed.

Lemma head_fmap {A B} (f : A → B) l : head (f <$> l) = f <$> head l.
Proof. by destruct l. Qed.
Lemma ent_meta z z' (ps : list positive) : meta z' = meta z → ent z' <$> ps = ent z <$> ps.
Proof. intros H. apply list_fmap_ext. intros i p _. unfold ent. by rewrite H. Qed.

(** [m] is the member with the highest score. *)
Definition is_last (m : bytes) (l : list entry) : bool :=
  match last l with Some e => bool_decide (e.1 = m) | None => false end.

(** What the search of [deleteNode] finds for a member of the set. *)
Lemma search_found B A m s :
  entries (B ++ A) → (m, s) ∈ B ++ A →
  (∀ x, last B = Some x → elt x (m, s) = true) → (∀ x, head A = Some x → elt x (m, s) = false) →
  ∃ A', A = (m, s) :: A'.
Proof.
  intros [Hs Hn Hm] Hin HB HA.
  assert (num (m, s)) as He by (rewrite Forall_forall in Hn; by apply Hn).
  pose proof (sorted_before B A (m, s) Hs Hn He HB) as HB'. rewrite Forall_forall in HB'.
  apply elem_of_app in Hin as [Hin|Hin]; [apply HB' in Hin; by rewrite elt_irrefl in Hin|].
  destruct A as [|x A]; [by apply elem_of_nil in Hin|]. exists A. f_equal.
  apply elem_of_cons in Hin as [->|Hin]; [done|]. exfalso.
  apply sorted_app in Hs as (_ & Hs & _). apply StronglySorted_inv in Hs as [_ Hs]. rewrite Forall_forall in Hs.
  apply Hs in Hin. by rewrite (HA x eq_refl) in Hin.
Qed.

Lemma delete_without m (l : list entry) :
  delete m (list_to_map l : gmap bytes float64) = list_to_map (without m l).
Proof.
  unfold without. induction l as [|[k s] l IH]; [apply delete_empty|]. rewrite filter_cons. cbn.
  destruct (decide (k = m)) as [->|Hne].
  - rewrite decide_False by naive_solver. by rewrite delete_insert_eq.
  - rewrite decide_True by done. cbn. by rewrite delete_insert_ne, IH.
Qed.
Lemma is_last_middle B m s A : A ≠ [] → is_last m (B ++ (m, s) :: A) = true → ¬ NoDup (B ++ (m, s) :: A).*1.
Proof.
  intros HA. destruct (exists_last HA) as (A' & [k x] & ->). unfold is_last.
  rewrite app_comm_cons, app_assoc, last_snoc. cbn. intros ->%bool_decide_eq_true Hnd.
  rewrite <- app_assoc, fmap_app in Hnd. apply NoDup_app in Hnd as (_ & _ & Hnd). cbn in Hnd.
  apply NoDup_cons in Hnd as [Hnd _]. apply Hnd. rewrite fmap_app. apply elem_of_app. right. left.
Qed.

Lemma deleteNode_spec b z l m s :
  zrep b z l → score_of m l = Some s →
  ∃ z', deleteNode m s z = (Ret tt, z') ∧ zrep (b && is_last m l) z' (without m l).
Proof.
  intros (ps & Hsk & <- & Hes & Hd & Hsp) Hsc. apply score_of_elem in Hsc; [|done].
  destruct (deleteNode_run z ps m s Hsk) as (B & A & -> & HB & HA & Hdel).
  rewrite fmap_app in *.
  destruct (search_found (ent z <$> B) (ent z <$> A) m s) as (A' & HA'); [done|done| | |].
  { intros x. rewrite fmap_last. intros (q & Hq & ->)%fmap_Some. auto. }
  { intros x. rewrite head_fmap. intros (q & Hq & ->)%fmap_Some. auto. }
  destruct A as [|c A]; [done|]. injection HA' as Hc <-. rewrite Hc in Hdel. cbn [fst snd] in Hdel.
  pose proof (es_num _ Hes) as Hnum. rewrite fmap_cons, Hc in Hnum. apply Forall_app in Hnum as [_ Hnum].
  apply Forall_cons in Hnum as [Hnum _].
  rewrite feq_refl in Hdel by done. unfold beq in Hdel. rewrite bool_decide_eq_true_2 in Hdel by done.
  destruct Hdel as (z' & Hrun & Hsk' & Hmeta & Hd' & Hsp'). exists z'. split; [done|].
  assert (without m ((ent z <$> B) ++ (ent z <$> c :: A)) = (ent z <$> B) ++ (ent z <$> A)) as Hw.
  { rewrite fmap_cons, Hc. apply without_middle. rewrite <- Hc, <- fmap_cons. apply (es_members _ Hes). }
  exists (B ++ A). split; [done|]. split; [by rewrite (ent_meta z z'), fmap_app, Hw|].
  split; [by apply entries_without|]. split.
  - by rewrite Hd', Hd, delete_without.
  - intros [Hb Hl]%andb_true_iff. apply Hsp'; [|auto]. intros p Hp. exfalso.
    pose proof (es_members _ Hes) as Hm. rewrite fmap_cons, Hc in Hl, Hm. revert Hl Hm.
    apply (is_last_middle _ m s). destruct A; [by apply elem_of_nil in Hp|done].
Qed.

Lemma Add_insert_spec rnd b z l m s :
  zrep b z l → score_of m l = None → IsNaN s = false →
  ∃ z', Add_insert rnd m s z = (Ret true, z') ∧ zrep b z' (insert_entry (m, s) l).
Proof.
  intros (ps & Hsk & <- & Hes & Hd & Hsp) Hsc Hn. apply score_of_None in Hsc.
  destruct (Add_insert_run rnd z ps m s Hsk) as (B & A & z' & new & -> & HB & HA & Hrun & Hsk' & Hnew & Hmeta & Hd' & Hsp').
  exists z'. split; [done|]. rewrite fmap_app in *.
  destruct (entries_insert (ent z <$> B) (ent z <$> A) (m, s)) as [Hes' Hins]; [done|done|done| | |].
  { intros x. rewrite fmap_last. intros (q & Hq & ->)%fmap_Some. auto. }
  { intros x. rewrite head_fmap. intros (q & Hq & ->)%fmap_Some. auto. }
  exists (B ++ new :: A). rewrite Hins.
  assert (ent z' <$> B ++ new :: A = (ent z <$> B) ++ (m, s) :: (ent z <$> A)) as Hent.
  { assert (∀ W, W ⊆ B ++ A → ent z' <$> W = ent z <$> W) as HW.
    { intros W HW. apply list_fmap_ext. intros i p Hp. unfold ent. rewrite Hmeta, lookup_insert_ne; [done|].
      intros ->. apply list_elem_of_lookup_2 in Hp. destruct (sk_nodes _ _ Hsk p) as [x Hx]; [right; auto|congruence]. }
    rewrite fmap_app, fmap_cons, !HW by (intros p; rewrite elem_of_app; tauto).
    unfold ent at 2. by rewrite Hmeta, lookup_insert_eq. }
  split; [done|]. split; [done|]. split; [done|]. split; [|auto].
  rewrite Hd', Hd. etrans; [symmetry; apply list_to_map_cons|].
  apply list_to_map_proper; [|by rewrite <- Permutation_middle].
  pose proof (es_members _ Hes') as Hm. by rewrite <- Permutation_middle in Hm.
Qed.

(** ** Walks along level 0 *)
Fixpoint fold_while {T} (g : T → entry → T * bool) (a : T) (l : list entry) : T :=
  match l with
  | [] => a
  | e :: l => let '(a, go) := g a e in if go : bool then fold_while g a l else a
  end.

Lemma level0_run {T} (f : T → zSetNode → T * bool) g z ps X Y fuel a :
  (∀ a n, f a n = g a (zn_member n, zn_score n)) →
  skip z ps → ps = X ++ Y → (length Y < fuel)%nat →
  level0 fuel f (head Y) a z = (Ret (fold_while g a (ent z <$> Y)), z).
Proof.
  intros Hfg Hsk. pose proof (sk_level _ _ Hsk) as Hml.
  revert X Y a. induction fuel as [|fuel IH]; intros X Y a Hps Hfuel; [lia|].
  destruct Y as [|y Y]; [done|]. cbn [level0 head fmap list_fmap fold_while].
  assert (y ∈ ps) as Hy by (rewrite Hps, elem_of_app, elem_of_cons; tauto).
  assert (is_Some (meta z !! y)) as Hs by (apply (sk_nodes _ _ Hsk); by right).
  destruct (z_load_run z y Hs) as (n & En & Hl).
  rewrite (bind_Ret _ _ _ _ _ Hl), Hfg, (ent_node _ _ _ En). destruct (g a _) as [a' []]; [|done].
  rewrite (bind_Ret _ _ _ _ _ (get_forward_run z (sk_arrays _ _ Hsk) y Hs 0 ltac:(lia))).
  rewrite <- (lst_snoc (z_header z) X y), (sk_links _ _ Hsk 0%nat (X ++ [y]) Y);
    [|lia|by rewrite Hps, <- app_assoc|by apply stop_snoc, (sk_levels _ _ Hsk)].
  rewrite (first_hi_0 z ps) by (done || (intros p Hp; rewrite Hps, elem_of_app, elem_of_cons; tauto)).
  apply (IH (X ++ [y])); [by rewrite Hps, <- app_assoc|cbn in Hfuel; lia].
Qed.
Lemma from_header_run {T} (f : T → zSetNode → T * bool) g b z l a :
  (∀ a n, f a n = g a (zn_member n, zn_score n)) →
  zrep b z l → from_header f a z = (Ret (fold_while g a l), z).
Proof.
  intros Hfg (ps & Hsk & <- & _). pose proof (sk_level _ _ Hsk) as Hml. unfold from_header. rewrite !z_get_run.
  assert (is_Some (meta z !! z_header z)) as Hs by (apply (sk_nodes _ _ Hsk); left).
  rewrite (bind_Ret _ _ _ _ _ (get_forward_run z (sk_arrays _ _ Hsk) _ Hs 0 ltac:(lia))).
  change (fwd z 0 (z_header z)) with (fwd z 0 (lst (z_header z) [])).
  rewrite (sk_links _ _ Hsk 0%nat [] ps) by (done || lia || apply stop_nil).
  rewrite (first_hi_0 z ps) by done. apply (level0_run f g z ps []); [done..|]. by apply sk_size.
Qed.

(** ** Operations by score *)
Lemma fgt_mono max a b : num a → num b → elt a b = true → fgt a.2 max = true → fgt b.2 max = true.
Proof.
  intros Ha Hb Hab Hgt. unfold fgt in *. destruct (IsNaN max) eqn:Hm.
  { destruct (flt_nan max a.2) as [H _]; [by left|]. congruence. }
  rewrite flt_key in * by done. apply elt_key in Hab; [|done..].
  destruct Hab as [H|[H _]]; [by eapply key_lt_trans|by rewrite <- H].
Qed.
Lemma select_above min max x l : entries (x :: l) → fgt x.2 max = true → select min max (x :: l) = [].
Proof.
  intros [Hs Hn _] Hgt. apply StronglySorted_inv in Hs as [_ Hs]. apply Forall_cons in Hn as [Hx Hn].
  apply elem_of_nil_inv. intros y Hy. apply list_elem_of_filter in Hy as [Hr Hy].
  unfold in_range in Hr. apply andb_true_iff in Hr as [_ Hr]. rewrite negb_true_iff in Hr.
  apply elem_of_cons in Hy as [->|Hy]; [congruence|]. rewrite Forall_forall in Hs, Hn.
  rewrite (fgt_mono max x y) in Hr by auto. done.
Qed.
Lemma select_cons min max x l :
  select min max (x :: l) = if in_range min max x then x :: select min max l else select min max l.
Proof. unfold select. rewrite filter_cons. by destruct (in_range min max x). Qed.
Lemma entries_tail x l : entries (x :: l) → entries l.
Proof.
  intros [Hs Hn Hm]. apply StronglySorted_inv in Hs as [? _]. apply Forall_cons in Hn as [_ ?].
  cbn in Hm. apply NoDup_cons in Hm as [_ ?]. by constructor.
Qed.

(** A walk that stops above [max] and uses the entries from [min] on is a fold over
    the selected entries. *)
Lemma fold_while_select {T} (step : T → entry → T * bool) min max l a :
  entries l →
  fold_while (λ a e, if fgt e.2 max then (a, false) else if fge e.2 min then step a e else (a, true)) a l
    = fold_while step a (select min max l).
Proof.
  revert a. induction l as [|x l IH]; intros a Hl; [done|]. cbn [fold_while]. destruct (fgt x.2 max) eqn:Hgt.
  - by rewrite select_above.
  - pose proof (entries_tail _ _ Hl). rewrite select_cons. unfold in_range. rewrite Hgt, andb_true_r.
    destruct (fge x.2 min); [|by apply IH]. cbn [fold_while]. destruct (step a x) as [a' []]; [by apply IH|done].
Qed.

Lemma ZSet_Count_spec b z l min max :
  zrep b z l → ZSet_Count min max z = (Ret (zlen (select min max l)), z).
Proof.
  intros Hz. pose proof Hz as (_ & _ & _ & Hes & _). unfold ZSet_Count.
  rewrite (from_header_run _ (λ a e, if fgt e.2 max then (a, false) else if fge e.2 min then (a + 1, true) else (a, true)) b z l)
    by (done || (intros a n; cbn; by destruct (fge _ _))).
  rewrite fold_while_select by done. do 2 f_equal.
  assert (∀ k a, fold_while (λ (a : Z) (_ : entry), (a + 1, true)) a k = a + zlen k) as Hc.
  { induction k as [|x k IH]; intros a; cbn; [rewrite zlen_nil; lia|]. rewrite IH, zlen_cons. lia. }
  by rewrite Hc.
Qed.

(** The entries at [offset] and after, at most [count] of them if it is positive. *)
Definition limit (offset count : Z) (l : list entry) : list entry :=
  let l := drop (Z.to_nat offset) l in if 0 <? count then take (Z.to_nat count) l else l.

Definition limit_step (offset count : Z) (a : list entry * Z) (e : entry) : (list entry * Z) * bool :=
  let '(res, skipped) := a in
  if offset <=? skipped then ((res ++ [e], skipped), negb ((0 <? count) && (count <=? zlen (res ++ [e]))))
  else ((res, skipped + 1), true).

Lemma limit_taken offset count l res :
  (0 < count → zlen res < count) →
  (fold_while (limit_step offset count) (res, offset) l).1
    = res ++ (if 0 <? count then take (Z.to_nat (count - zlen res)) l else l).
Proof.
  revert res. induction l as [|x l IH]; intros res Hres; cbn [fold_while].
  { rewrite take_nil. destruct (0 <? count); by rewrite app_nil_r. }
  unfold limit_step at 1. rewrite Z.leb_refl. autorewrite with zlen.
  destruct (Z.ltb_spec 0 count) as [Hc|Hc]; cbn [andb negb].
  - replace (Z.to_nat (count - zlen res)) with (S (Z.to_nat (count - zlen res - 1))) by lia. cbn [take].
    destruct (Z.leb_spec count (zlen res + (1 + 0))); cbn [negb].
    + replace (Z.to_nat (count - zlen res - 1)) with 0%nat by lia. by rewrite take_0.
    + rewrite IH by (autorewrite with zlen; lia).
      autorewrite with zlen. rewrite <- app_assoc. cbn [app].
      destruct (Z.ltb_spec 0 count); [|lia]. do 3 f_equal. lia.
  - rewrite IH by lia. rewrite <- app_assoc. by destruct (Z.ltb_spec 0 count); [lia|].
Qed.
Lemma limit_skipped offset count l skipped :
  0 <= skipped <= offset →
  (fold_while (limit_step offset count) ([], skipped) l).1 = limit (offset - skipped) count l.
Proof.
  revert skipped. induction l as [|x l IH]; intros skipped Hs.
  { cbn. unfold limit. rewrite drop_nil, take_nil. by destruct (0 <? count). }
  destruct (decide (skipped = offset)) as [->|Hne].
  { rewrite limit_taken by (autorewrite with zlen; lia). unfold limit. rewrite Z.sub_diag. autorewrite with zlen. by rewrite Z.sub_0_r. }
  cbn [fold_while]. unfold limit_step at 1. destruct (Z.leb_spec offset skipped); [lia|].
  rewrite IH by lia. unfold limit. by replace (Z.to_nat (offset - skipped)) with (S (Z.to_nat (offset - (skipped + 1)))) by lia.
Qed.

Lemma ZSet_RangeByScore_spec b z l min max offset count :
  zrep b z l →
  ZSet_RangeByScore min max offset count z = (Ret (limit (Z.max 0 offset) count (select min max l)), z).
Proof.
  intros Hz. pose proof Hz as (_ & _ & _ & Hes & _). unfold ZSet_RangeByScore.
  replace (if offset <? 0 then 0 else offset) with (Z.max 0 offset) by (destruct (Z.ltb_spec offset 0); lia).
  erewrite bind_Ret; cycle 1.
  { apply (from_header_run _ (λ a e, if fgt e.2 max then (a, false) else if fge e.2 min
      then limit_step (Z.max 0 offset) count a e else (a, true)) b z l); [|done].
    intros [res skipped] n. cbn. destruct (fgt _ _); [done|]. destruct (fge _ _); [|done]. by destruct (_ <=? skipped). }
  rewrite fold_while_select, limit_skipped, Z.sub_0_r by (done || lia). done.
Qed.

(** ** Changes *)
Lemma zrep_weaken b b' z l : zrep b z l → (b' = true → b = true) → zrep b' z l.
Proof. intros (ps & H1 & H2 & H3 & H4 & H5) Hb. exists ps. auto 10. Qed.

Lemma ZSet_Remove_spec b z l m :
  zrep b z l →
  ∃ z', ZSet_Remove m z = (Ret (bool_decide (is_Some (score_of m l))), z') ∧
    zrep (b && (is_last m l || bool_decide (score_of m l = None))) z' (without m l).
Proof.
  intros Hz. unfold ZSet_Remove. rewrite z_get_run, (zrep_score b z l) by done.
  destruct (score_of m l) as [s|] eqn:E.
  - destruct (deleteNode_spec b z l m s Hz E) as (z' & Hrun & Hz'). rewrite (bind_Ret _ _ _ _ _ Hrun).
    exists z'. split; [done|]. cbn. by rewrite orb_false_r.
  - exists z. split; [done|]. apply score_of_None in E. rewrite without_absent by done.
    apply (zrep_weaken b); [done|]. by destruct b.
Qed.

Lemma ZSet_Add_spec rnd b z l m s :
  zrep b z l → IsNaN s = false →
  let r := match score_of m l with
           | Some old => if feq old s then (false, b, l) else (true, b && is_last m l, insert_entry (m, s) (without m l))
           | None => (true, b, insert_entry (m, s) l)
           end in
  ∃ z', ZSet_Add rnd m s z = (Ret r.1.1, z') ∧ zrep r.1.2 z' r.2.
Proof.
  intros Hz Hs r. subst r. unfold ZSet_Add. rewrite z_get_run, (zrep_score b z l) by done.
  destruct (score_of m l) as [old|] eqn:E; [|by apply Add_insert_spec].
  destruct (feq old s); [by exists z|].
  destruct (deleteNode_spec b z l m old Hz E) as (z1 & Hrun & Hz1). rewrite (bind_Ret _ _ _ _ _ Hrun).
  apply Add_insert_spec; [done| |done]. apply score_of_None. intros Hin.
  apply list_elem_of_fmap in Hin as (y & -> & Hy). apply list_elem_of_filter in Hy as [Hy _]. done.
Qed.

Definition drop_members (ms : list bytes) (l : list entry) : list entry := filter (λ e, e.1 ∉ ms) l.

Lemma drop_members_nil l : drop_members [] l = l.
Proof.
  unfold drop_members. induction l as [|x l IH]; [done|].
  rewrite filter_cons, decide_True by apply not_elem_of_nil. by rewrite IH.
Qed.
Lemma drop_members_cons m ms l : drop_members (m :: ms) l = drop_members ms (without m l).
Proof.
  unfold drop_members, without. rewrite list_filter_filter. apply list_filter_iff. intros e.
  rewrite not_elem_of_cons. tauto.
Qed.
Lemma remove_all_spec ms b z l n :
  zrep b z l → NoDup ms → ms ⊆ l.*1 →
  ∃ z', mfold (λ removed member, b ← ZSet_Remove member; mret (if b : bool then removed + 1 else removed)) n ms z
      = (Ret (n + zlen ms), z') ∧ zrep (b && bool_decide (ms = [])) z' (drop_members ms l).
Proof.
  revert b z l n. induction ms as [|m ms IH]; intros b z l n Hz Hnd Hsub.
  { exists z. cbn. autorewrite with zlen. rewrite Z.add_0_r, andb_true_r. split; [done|].
    by rewrite drop_members_nil. }
  apply NoDup_cons in Hnd as [Hm Hnd]. assert (is_Some (score_of m l)) as Hs.
  { destruct (score_of m l) eqn:E; [done|]. apply score_of_None in E. destruct E. apply Hsub. left. }
  destruct (ZSet_Remove_spec b z l m Hz) as (z1 & Hrun & Hz1). rewrite bool_decide_eq_true_2 in Hrun by done.
  cbn [mfold]. rewrite bind_assoc, (bind_Ret _ _ _ _ _ Hrun).
  destruct (IH _ z1 (without m l) (n + 1) Hz1 Hnd) as (z' & Hrun' & Hz').
  { intros k Hk. pose proof (Hsub k ltac:(by right)) as Hin. apply list_elem_of_fmap in Hin as (e & -> & He).
    apply list_elem_of_fmap_2. apply list_elem_of_filter. split; [|done]. intros <-. done. }
  exists z'. split; [unfold mret, M_ret, mbind, M_bind in *; rewrite Hrun'; autorewrite with zlen; do 2 f_equal; lia|].
  rewrite drop_members_cons. apply (zrep_weaken _ _ _ _ Hz'). by rewrite andb_false_r.
Qed.

Lemma select_rest min max l :
  NoDup l.*1 → drop_members (select min max l).*1 l = filter (λ e, in_range min max e = false) l.
Proof.
  intros Hnd. unfold drop_members. 
  assert (∀ e, e ∈ l → e.1 ∉ (select min max l).*1 ↔ in_range min max e = false) as H.
  { intros e He. destruct (in_range min max e) eqn:Er; split; intros Hx; try done.
    - destruct Hx. apply list_elem_of_fmap_2. by apply list_elem_of_filter.
    - intros Hin. apply list_elem_of_fmap in Hin as ([k s] & Hk & Hy). apply list_elem_of_filter in Hy as [Hr Hy].
      destruct e as [k' s']. cbn in Hk. subst k'. apply elem_of_list_to_map in He, Hy; [|done..].
      assert (s = s') as -> by congruence. congruence. }
  clear Hnd. revert H. generalize (select min max l).*1 as ms. intros ms H.
  induction l as [|x l IH]; [done|]. rewrite !filter_cons.
  assert (filter (λ e, e.1 ∉ ms) l = filter (λ e, in_range min max e = false) l) as IH' by (apply IH; intros; apply H; by right).
  specialize (H x ltac:(left)). repeat case_decide; try tauto; congruence.
Qed.
Lemma select_members min max l : NoDup l.*1 → NoDup (select min max l).*1 ∧ (select min max l).*1 ⊆ l.*1.
Proof.
  intros Hnd. split.
  - induction l as [|x l IH]; [constructor|]. cbn in Hnd. apply NoDup_cons in Hnd as [Hx Hnd]. rewrite select_cons.
    destruct (in_range min max x); [|auto]. cbn. apply NoDup_cons. split; [|auto]. intros Hin. apply Hx.
    apply list_elem_of_fmap in Hin as (y & -> & Hy). apply list_elem_of_filter in Hy as [_ Hy]. by apply list_elem_of_fmap_2.
  - intros m Hin. apply list_elem_of_fmap in Hin as (y & -> & Hy). apply list_elem_of_filter in Hy as [_ Hy].
    by apply list_elem_of_fmap_2.
Qed.

Lemma ZSet_RemRangeByScore_spec b z l min max :
  zrep b z l →
  ∃ z', ZSet_RemRangeByScore min max z = (Ret (zlen (select min max l)), z') ∧
    zrep (b && bool_decide (select min max l = [])) z' (filter (λ e, in_range min max e = false) l).
Proof.
  intros Hz. pose proof Hz as (_ & _ & _ & Hes & _). unfold ZSet_RemRangeByScore.
  erewrite bind_Ret; cycle 1.
  { apply (from_header_run _ (λ a e, if fgt e.2 max then (a, false) else if fge e.2 min then (a ++ [e.1], true) else (a, true)) b z l);
      [|done]. intros a n. cbn. by destruct (fge _ _). }
  rewrite fold_while_select by done.
  assert (∀ k a, fold_while (λ (a : list bytes) e, (a ++ [e.1], true)) a k = a ++ k.*1) as ->.
  { induction k as [|x k IH]; intros a; cbn; [by rewrite app_nil_r|]. by rewrite IH, <- app_assoc. }
  destruct (select_members min max l (es_members _ Hes)) as [Hnd Hsub].
  destruct (remove_all_spec (select min max l).*1 b z l 0 Hz Hnd Hsub) as (z' & Hrun & Hz').
  exists z'. split; [unfold remove_all; cbn [app]; rewrite Hrun; unfold zlen; by rewrite length_fmap|].
  rewrite <- select_rest by apply Hes. apply (zrep_weaken _ _ _ _ Hz').
  destruct (select min max l); [done|]. by rewrite andb_false_r.
Qed.

Definition increased (m : bytes) (incr : float64) (l : list entry) : float64 :=
  match score_of m l with Some old => fadd old incr | None => incr end.

Lemma ZSet_IncrBy_spec rnd b z l m incr :
  zrep b z l → IsNaN (increased m incr l) = false →
  ∃ z', ZSet_IncrBy rnd m incr z = (Ret (increased m incr l), z') ∧
    zrep (b && (is_last m l || bool_decide (score_of m l = None))) z'
      (insert_entry (m, increased m incr l) (without m l)).
Proof.
  intros Hz Hn. unfold ZSet_IncrBy, increased in *. rewrite z_get_run, (zrep_score b z l) by done.
  assert (score_of m (without m l) = None) as Hw.
  { apply score_of_None. intros Hin. apply list_elem_of_fmap in Hin as (y & -> & Hy).
    apply list_elem_of_filter in Hy as [Hy _]. done. }
  destruct (score_of m l) as [old|] eqn:E.
  - destruct (deleteNode_spec b z l m old Hz E) as (z1 & Hrun & Hz1).
    rewrite bind_assoc, (bind_Ret _ _ _ _ _ Hrun). cbn.
    destruct (ZSet_Add_spec rnd _ z1 _ m (fadd old incr) Hz1 Hn) as (z' & Hrun' & Hz'). rewrite Hw in Hrun', Hz'.
    unfold mbind, M_bind, mret, M_ret. rewrite Hrun'. exists z'. split; [done|]. by rewrite orb_false_r.
  - rewrite without_absent in * by (by apply score_of_None). cbn.
    destruct (ZSet_Add_spec rnd _ z _ m incr Hz Hn) as (z' & Hrun' & Hz'). rewrite E in Hrun', Hz'.
    unfold mbind, M_bind, mret, M_ret. rewrite Hrun'. exists z'. split; [done|]. apply (zrep_weaken _ _ _ _ Hz'). by destruct b.
Qed.

(** ** Operations by rank *)
Definition rank_of (m : bytes) (l : list entry) : Z :=
  match list_find (λ e, e.1 = m) l with Some (i, _) => Z.of_nat i | None => -1 end.

Lemma rank_of_middle B m s A : NoDup (B ++ (m, s) :: A).*1 → rank_of m (B ++ (m, s) :: A) = zlen B.
Proof.
  intros Hnd. unfold rank_of. assert (list_find (λ e, e.1 = m) (B ++ (m, s) :: A) = Some (length B, (m, s))) as ->; [|done].
  apply list_find_Some. split; [by apply list_lookup_middle|]. split; [done|].
  intros j y Hj Hlt He. rewrite lookup_app_l in Hj by done. rewrite fmap_app in Hnd.
  apply NoDup_app in Hnd as (_ & Hd & _). apply (Hd m); [|left]. subst m.
  apply list_elem_of_fmap_2. by eapply list_elem_of_lookup_2.
Qed.
Lemma rank_of_absent m l : m ∉ l.*1 → rank_of m l = -1.
Proof.
  intros H. unfold rank_of. destruct (list_find _ l) as [[i e]|] eqn:E; [|done].
  apply list_find_Some in E as (Hi & He & _). destruct H. rewrite <- He.
  apply list_elem_of_fmap_2. by eapply list_elem_of_lookup_2.
Qed.

(** The condition of [Rank]: not after [e]. *)
Definition ele (a e : entry) : bool := flt a.2 e.2 || (feq a.2 e.2 && str_leb a.1 e.1).
Lemma ele_elt a e : num a → num e → ele a e = true → elt e a = false.
Proof.
  intros Ha He. unfold ele, elt, str_leb. rewrite orb_true_iff, andb_true_iff, flt_key, feq_key, negb_true_iff by done.
  intros H. apply not_true_iff_false. rewrite orb_true_iff, andb_true_iff, flt_key, feq_key by done.
  unfold key_lt in *. destruct (fkey a.2) as [[a1 a2] a3], (fkey e.2) as [[e1 e2] e3]. cbn in *.
  intros H'. destruct H as [H|[Hk H]], H' as [H'|[Hk' H']]; try congruence; try lia; simplify_eq; lia.
Qed.
Lemma elt_ele a e : num a → num e → ele a e = false → elt e a = true.
Proof.
  intros Ha He H. apply elt_key; [done..|]. unfold ele, str_leb in H.
  rewrite orb_false_iff, andb_false_iff, negb_false_iff in H. destruct H as [H1 H2].
  rewrite <- not_true_iff_false, flt_key in H1 by done.
  destruct (key_lt_total (fkey a.2) (fkey e.2)) as [?|[E|?]]; [done| |by left].
  right. split; [done|]. destruct H2 as [H2|H2]; [|done]. rewrite <- not_true_iff_false, feq_key in H2; done.
Qed.
Lemma ele_refl e : num e → ele e e = true.
Proof. intros He. unfold ele, str_leb. rewrite feq_refl, str_ltb_irrefl by done. by rewrite orb_true_r. Qed.

(** The search of [Rank] ends on the node of the member. *)
Lemma search_rank B A m s :
  entries (B ++ A) → (m, s) ∈ B ++ A →
  (∀ x, last B = Some x → ele x (m, s) = true) → (∀ x, head A = Some x → ele x (m, s) = false) →
  ∃ B', B = B' ++ [(m, s)].
Proof.
  intros [Hs Hn Hm] Hin HB HA. rewrite Forall_forall in Hn.
  assert (num (m, s)) as He by (by apply Hn). apply sorted_app in Hs as (Hs1 & Hs2 & _).
  apply elem_of_app in Hin as [Hin|Hin]; cycle 1.
  { exfalso. destruct A as [|y A]; [by apply elem_of_nil in Hin|].
    assert (num y) as Hy by (apply Hn; rewrite elem_of_app, elem_of_cons; tauto).
    pose proof (HA y eq_refl) as Hl. apply elem_of_cons in Hin as [<-|Hin]; [by rewrite ele_refl in Hl|].
    apply elt_ele in Hl; [|done..]. apply StronglySorted_inv in Hs2 as [_ Hs2]. rewrite Forall_forall in Hs2.
    pose proof (elt_trans _ _ _ He Hy He Hl (Hs2 _ Hin)) as Hx. by rewrite elt_irrefl in Hx. }
  apply list_elem_of_split in Hin as (B1 & B2 & ->). destruct (decide (B2 = [])) as [->|Hne]; [by exists B1|].
  exfalso. destruct (exists_last Hne) as (B3 & x & ->). specialize (HB x). rewrite app_comm_cons, app_assoc, last_snoc in HB.
  apply sorted_app in Hs1 as (_ & Hs1 & _). apply StronglySorted_inv in Hs1 as [_ Hs1]. rewrite Forall_forall in Hs1.
  assert (num x) as Hx by (apply Hn; rewrite !elem_of_app, elem_of_cons, elem_of_app, list_elem_of_singleton; tauto).
  pose proof (ele_elt x (m, s) Hx He (HB eq_refl)) as H1. rewrite Hs1 in H1; [done|]. apply elem_of_app. right. left.
Qed.

Lemma ZSet_Rank_spec z l m : zrep true z l → ZSet_Rank m z = (Ret (rank_of m l), z).
Proof.
  intros Hz. pose proof Hz as (ps & Hsk & Hl & Hes & Hd & Hsp). specialize (Hsp eq_refl).
  unfold ZSet_Rank. rewrite z_get_run, (zrep_score true z l) by done.
  destruct (score_of m l) as [s|] eqn:E; cycle 1.
  { apply score_of_None in E. by rewrite rank_of_absent. }
  apply score_of_elem in E; [|done]. rewrite !z_get_run.
  destruct (search_run z ps (λ e, ele e (m, s)) Hsk) as (B & A & update & rank & r & -> & Hrun & Hr & HB & HA & _).
  change (λ _ _, not_after s m) with (λ (_ _ : Z) n, ele (zn_member n, zn_score n) (m, s)).
  rewrite (bind_Ret _ _ _ _ _ Hrun). cbv beta iota. rewrite Hr by done.
  subst l. rewrite fmap_app in *. destruct (search_rank (ent z <$> B) (ent z <$> A) m s) as (B' & HB'); [done|done| | |].
  { intros x. rewrite fmap_last. intros (q & Hq & ->)%fmap_Some. auto. }
  { intros x. rewrite head_fmap. intros (q & Hq & ->)%fmap_Some. auto. }
  assert (∃ q, last B = Some q ∧ ent z q = (m, s)) as (q & Hq & Hqe).
  { pose proof (fmap_last (ent z) B) as H. rewrite HB', last_snoc in H. symmetry in H. apply fmap_Some in H as (q & ? & ?). eauto. }
  unfold lst. rewrite Hq. cbn [default].
  assert (is_Some (meta z !! q)) as Hqs.
  { apply (sk_nodes _ _ Hsk). right. apply elem_of_app. left. by apply last_Some_elem_of. }
  destruct (z_load_run z q Hqs) as (n & En & Hld). rewrite (bind_Ret _ _ _ _ _ Hld).
  rewrite (ent_node _ _ _ En) in Hqe. injection Hqe as -> _. unfold beq. rewrite bool_decide_eq_true_2 by done.
  pose proof (es_members _ Hes) as Hm. rewrite HB', <- app_assoc in *. cbn [app] in *. rewrite rank_of_middle by done.
  assert (zlen B = zlen B' + 1) as ->; [|unfold mret, M_ret; do 2 f_equal; lia].
  unfold zlen. rewrite <- (length_fmap (ent z) B), HB', length_app. cbn. lia.
Qed.

Definition range_of (start stop : Z) (l : list entry) : option (list entry) :=
  match rank_bounds (zlen l) start stop with
  | None => None
  | Some (a, b) => Some (take (Z.to_nat (b - a + 1)) (drop (Z.to_nat a) l))
  end.

Lemma rank_bounds_Some len start stop a b :
  0 <= len → rank_bounds len start stop = Some (a, b) → 0 <= a ∧ a <= b ∧ b < len.
Proof.
  intros Hlen. unfold rank_bounds.
  destruct (Z.ltb_spec start 0), (Z.ltb_spec stop 0); cbv zeta;
    repeat (case_bool; cbn [orb]; try done); intros [= <- <-]; lia.
Qed.
Lemma rank_bounds_inside len a b : 0 <= a <= b → b < len → rank_bounds len a b = Some (a, b).
Proof. intros Ha Hb. unfold rank_bounds. repeat (case_bool; cbn [orb]; try lia). done. Qed.

(** The position of a node. *)
Definition pos_of (ps : list positive) (q : positive) : nat :=
  match list_find (λ p, p = q) ps with Some (i, _) => i | None => 0 end.
Lemma pos_of_middle h X q Y : NoDup (h :: X ++ q :: Y) → pos_of (X ++ q :: Y) q = length X.
Proof.
  intros [_ Hnd]%NoDup_cons. unfold pos_of.
  assert (list_find (λ p, p = q) (X ++ q :: Y) = Some (length X, q)) as ->; [|done].
  apply list_find_Some. split; [by apply list_lookup_middle|]. split; [done|].
  intros j y Hj Hlt ->. rewrite lookup_app_l in Hj by done. apply NoDup_app in Hnd as (_ & Hd & _).
  apply (Hd q); [by eapply list_elem_of_lookup_2|left].
Qed.

(** The search of [Range] skips exactly [start] nodes. *)
Lemma search_position z ps start :
  skip z ps → spans_ok z ps → 0 <= start < zlen ps →
  ∃ B A r update rank, ps = B ++ A ∧ zlen B = start ∧
    descend (z_level z) (λ traversed span _, traversed + span <=? start) (z_header z) 0 z
      = (Ret (lst (z_header z) B, r, update, rank), z).
Proof.
  intros Hsk Hsp Hstart. pose proof (sk_level _ _ Hsk) as Hml. pose proof (sk_nodup _ _ Hsk) as Hnd.
  destruct (descend_run z ps Hsk (λ traversed span _, traversed + span <=? start)
    (λ q, Z.of_nat (pos_of ps q) + 1 <=? start) (λ X acc, acc = zlen X))
    with (i := z_level z) (X := @nil positive) (Y := ps) (acc := 0)
    as (B & A & r & update & rank & -> & Hrun & -> & HB & _ & HA & _); try done.
  - intros i X C q Y acc n Hi Hps HX HC Hq -> Hn. rewrite (Hsp i X C q Y) by done.
    split; [|autorewrite with zlen; lia]. rewrite Hps, app_assoc in Hnd |- *.
    rewrite (pos_of_middle (z_header z)) by done. rewrite length_app. unfold zlen. f_equal. lia.
  - cbn [app] in *. exists B, A, (zlen B), update, rank. split; [done|]. split; [|done].
    assert (zlen B <= start) as H1.
    { destruct (decide (B = [])) as [->|Hne]; [autorewrite with zlen; lia|].
      destruct (exists_last Hne) as (B' & q & ->). specialize (HB q). rewrite last_snoc in HB.
      specialize (HB eq_refl). rewrite <- !app_assoc in HB, Hnd. cbn [app] in HB, Hnd. rewrite (pos_of_middle (z_header z)) in HB by done.
      autorewrite with zlen. unfold zlen. lia. }
    destruct A as [|q A].
    { rewrite app_nil_r in Hstart. lia. }
    specialize (HA ltac:(lia) q eq_refl). rewrite (pos_of_middle (z_header z)) in HA by done. unfold zlen in *. lia.
Qed.

Lemma range_walk k res i stop :
  i <= stop →
  (fold_while (λ '(res, i) (e : entry), ((res ++ [e], i + 1), i + 1 <=? stop)) (res, i) k).1
    = res ++ take (Z.to_nat (stop - i + 1)) k.
Proof.
  revert res i. induction k as [|x k IH]; intros res i Hi; cbn [fold_while].
  { by rewrite take_nil, app_nil_r. }
  replace (Z.to_nat (stop - i + 1)) with (S (Z.to_nat (stop - i))) by lia. cbn [take].
  destruct (Z.leb_spec (i + 1) stop).
  - rewrite IH by lia. rewrite <- app_assoc. do 3 f_equal. lia.
  - by replace (Z.to_nat (stop - i)) with 0%nat by lia.
Qed.

Lemma ZSet_Range_spec z l start stop : zrep true z l → ZSet_Range start stop z = (Ret (range_of start stop l), z).
Proof.
  intros (ps & Hsk & <- & _ & _ & Hsp). specialize (Hsp eq_refl). pose proof (sk_level _ _ Hsk) as Hml.
  unfold ZSet_Range, range_of. rewrite z_get_run, (sk_length _ _ Hsk).
  replace (zlen (ent z <$> ps)) with (zlen ps) by (unfold zlen; by rewrite length_fmap).
  destruct (rank_bounds (zlen ps) start stop) as [[a b]|] eqn:Eb; [|done].
  apply rank_bounds_Some in Eb; [|apply zlen_nonneg]. rewrite !z_get_run.
  destruct (search_position z ps a Hsk Hsp ltac:(lia)) as (B & A & r & update & rank & -> & HB & Hrun).
  rewrite (bind_Ret _ _ _ _ _ Hrun). cbv beta iota.
  rewrite (bind_Ret _ _ _ _ _ (get_forward_run z (sk_arrays _ _ Hsk) _ (sk_at _ _ B A Hsk eq_refl) 0 ltac:(lia))), z_get_run.
  rewrite (sk_links _ _ Hsk 0%nat B A), (first_hi_0 z _ A Hsk);
    [|intros p; rewrite elem_of_app; tauto|lia|done|].
  2: { intros p Hp. apply (sk_levels _ _ Hsk). apply elem_of_app. left. by apply last_Some_elem_of. }
  erewrite bind_Ret; cycle 1.
  { apply (level0_run _ (λ '(res, i) (e : entry), ((res ++ [e], i + 1), i + 1 <=? b)) z (B ++ A) B A);
      [by intros [? ?] ?|done|done|]. pose proof (sk_size _ _ Hsk) as Hsz. rewrite length_app in Hsz. lia. }
  rewrite range_walk by lia. cbn [app]. unfold mret, M_ret. do 3 f_equal.
  rewrite fmap_app, drop_app_length'; [done|]. rewrite length_fmap. unfold zlen in HB. lia.
Qed.

Lemma ZSet_RevRank_spec z l m :
  zrep true z l → ZSet_RevRank m z = (Ret (if rank_of m l =? -1 then -1 else zlen l - rank_of m l - 1), z).
Proof.
  intros Hz. unfold ZSet_RevRank. rewrite (bind_Ret _ _ _ _ _ (ZSet_Rank_spec z l m Hz)).
  destruct (rank_of m l =? -1); [done|]. rewrite z_get_run. destruct Hz as (ps & Hsk & <- & _).
  rewrite (sk_length _ _ Hsk). unfold zlen. by rewrite length_fmap.
Qed.

Definition rev_range_of (start stop : Z) (l : list entry) : option (list entry) :=
  match rank_bounds (zlen l) start stop with
  | None => None
  | Some (a, b) => Some (take (Z.to_nat (b - a + 1)) (drop (Z.to_nat a) (reverse l)))
  end.

Lemma split_range {T} (l : list T) a n : l = take a l ++ take n (drop a l) ++ drop (a + n) l.
Proof. by rewrite <- drop_drop, !take_drop. Qed.
Lemma reverse_range {T} (l : list T) a n :
  (a + n ≤ length l)%nat →
  reverse (take n (drop a l)) = take n (drop (length l - a - n) (reverse l)).
Proof.
  intros Hn. rewrite (split_range l a n) at 3. rewrite !reverse_app, <- app_assoc.
  rewrite drop_app_length' by (rewrite length_reverse, length_drop; lia).
  rewrite take_app_length'; [done|]. rewrite length_reverse, length_take, length_drop. lia.
Qed.

Lemma ZSet_RevRange_spec z l start stop :
  zrep true z l → ZSet_RevRange start stop z = (Ret (rev_range_of start stop l), z).
Proof.
  intros Hz. unfold ZSet_RevRange, rev_range_of. rewrite z_get_run.
  assert (z_length z = zlen l) as ->.
  { destruct Hz as (ps & Hsk & <- & _). rewrite (sk_length _ _ Hsk). unfold zlen. by rewrite length_fmap. }
  destruct (rank_bounds (zlen l) start stop) as [[a b]|] eqn:Eb; [|done].
  apply rank_bounds_Some in Eb; [|apply zlen_nonneg].
  rewrite (bind_Ret _ _ _ _ _ (ZSet_Range_spec z l _ _ Hz)). unfold range_of. rewrite rank_bounds_inside by lia.
  unfold mret, M_ret. cbn [fmap option_fmap option_map]. do 2 f_equal. unfold zlen in *.
  rewrite reverse_range by lia. do 2 f_equal; [lia|]. f_equal; lia.
Qed.

Lemma drop_members_middle L1 M L3 :
  NoDup (L1 ++ M ++ L3).*1 → drop_members M.*1 (L1 ++ M ++ L3) = L1 ++ L3.
Proof.
  rewrite !fmap_app. intros (_ & H1 & H2)%NoDup_app. apply NoDup_app in H2 as (_ & H2 & _).
  setoid_rewrite elem_of_app in H1. unfold drop_members. rewrite !filter_app.
  assert (∀ W : list entry, (∀ m, m ∈ W.*1 → m ∉ M.*1) → filter (λ e, e.1 ∉ M.*1) W = W) as Hkeep.
  { induction W as [|x W IH]; intros HW; [done|]. rewrite filter_cons, decide_True by (apply HW; left).
    rewrite IH; [done|]. intros m Hm. apply HW. by right. }
  rewrite (Hkeep L1), (Hkeep L3) by naive_solver. f_equal.
  replace (filter _ M) with (@nil entry); [done|]. symmetry. apply elem_of_nil_inv. intros x Hx.
  apply list_elem_of_filter in Hx as [Hx Hin]. apply Hx. by apply list_elem_of_fmap_2.
Qed.

Lemma ZSet_RemRangeByRank_spec z l start stop :
  zrep true z l →
  let r := match rank_bounds (zlen l) start stop with
           | None => (0, true, l)
           | Some (a, b) => (b - a + 1, false, take (Z.to_nat a) l ++ drop (Z.to_nat (b + 1)) l)
           end in
  ∃ z', ZSet_RemRangeByRank start stop z = (Ret r.1.1, z') ∧ zrep r.1.2 z' r.2.
Proof.
  intros Hz r. subst r. unfold ZSet_RemRangeByRank. rewrite z_get_run.
  pose proof Hz as (ps & Hsk & Hl & Hes & _).
  assert (z_length z = zlen l) as ->.
  { rewrite <- Hl, (sk_length _ _ Hsk). unfold zlen. by rewrite length_fmap. }
  destruct (rank_bounds (zlen l) start stop) as [[a b]|] eqn:Eb; [|by exists z].
  apply rank_bounds_Some in Eb; [|apply zlen_nonneg].
  rewrite (bind_Ret _ _ _ _ _ (ZSet_Range_spec z l _ _ Hz)). unfold range_of. rewrite rank_bounds_inside by lia.
  cbn [default]. set (M := take _ (drop _ l)). pose proof (split_range l (Z.to_nat a) (Z.to_nat (b - a + 1))) as Hsplit.
  fold M in Hsplit. replace (Z.to_nat a + Z.to_nat (b - a + 1))%nat with (Z.to_nat (b + 1)) in Hsplit by lia.
  assert (zlen M = b - a + 1) as HM by (unfold M, zlen in *; rewrite length_take, length_drop; lia).
  pose proof (es_members _ Hes) as Hm. rewrite Hsplit in Hm.
  pose proof (drop_members_middle _ _ _ Hm) as Hdm. rewrite <- Hsplit in Hdm, Hm.
  destruct (remove_all_spec M.*1 true z l 0 Hz) as (z' & Hrun & Hz').
  - rewrite Hsplit, !fmap_app in Hm. apply NoDup_app in Hm as (_ & _ & Hm). by apply NoDup_app in Hm as (? & _).
  - intros m Hin. rewrite Hsplit, !fmap_app, !elem_of_app. tauto.
  - exists z'. change (id M) with M. unfold remove_all. rewrite Hrun. cbn [fst snd]. split.
    + do 2 f_equal. rewrite <- HM. unfold zlen. by rewrite length_fmap.
    + rewrite <- Hdm. by apply (zrep_weaken _ _ _ _ Hz').
Qed.

(** ** The refinement theorem *)
Inductive zset_op :=
  | ZAdd (rnd : nat → float64) (m : bytes) (s : float64)
  | ZRem (m : bytes)
  | ZIncr (rnd : nat → float64) (m : bytes) (s : float64)
  | ZRemByScore (min max : float64)
  | ZRemByRank (start stop : Z)
  | ZScore (m : bytes)
  | ZLen
  | ZCount (min max : float64)
  | ZByScore (min max : float64) (offset count : Z)
  | ZRank (m : bytes)
  | ZRevRank (m : bytes)
  | ZRange (start stop : Z)
  | ZRevRange (start stop : Z).

Inductive zset_reply :=
  | RBool (b : bool)
  | RInt (n : Z)
  | RFloat (f : float64)
  | REntries (l : option (list entry)).

(** The operations of the object ... *)
Definition zset_step (o : zset_op) : ZM zset_reply :=
  match o with
  | ZAdd rnd m s => b ← ZSet_Add rnd m s; mret (RBool b)
  | ZRem m => b ← ZSet_Remove m; mret (RBool b)
  | ZIncr rnd m s => f ← ZSet_IncrBy rnd m s; mret (RFloat f)
  | ZRemByScore min max => n ← ZSet_RemRangeByScore min max; mret (RInt n)
  | ZRemByRank a b => n ← ZSet_RemRangeByRank a b; mret (RInt n)
  | ZScore m => f ← ZSet_Get m; mret (RFloat f)
  | ZLen => n ← ZSet_Len; mret (RInt n)
  | ZCount min max => n ← ZSet_Count min max; mret (RInt n)
  | ZByScore min max offset count => l ← ZSet_RangeByScore min max offset count; mret (REntries (Some l))
  | ZRank m => n ← ZSet_Rank m; mret (RInt n)
  | ZRevRank m => n ← ZSet_RevRank m; mret (RInt n)
  | ZRange a b => l ← ZSet_Range a b; mret (REntries l)
  | ZRevRange a b => l ← ZSet_RevRange a b; mret (REntries l)
  end.

(** ... and what they mean on the sequence of entries. *)
Definition zset_spec (o : zset_op) (l : list entry) : zset_reply * list entry :=
  match o with
  | ZAdd _ m s =>
      match score_of m l with
      | Some old => if feq old s then (RBool false, l) else (RBool true, insert_entry (m, s) (without m l))
      | None => (RBool true, insert_entry (m, s) l)
      end
  | ZRem m => (RBool (bool_decide (is_Some (score_of m l))), without m l)
  | ZIncr _ m s => (RFloat (increased m s l), insert_entry (m, increased m s l) (without m l))
  | ZRemByScore min max => (RInt (zlen (select min max l)), filter (λ e, in_range min max e = false) l)
  | ZRemByRank start stop =>
      match rank_bounds (zlen l) start stop with
      | None => (RInt 0, l)
      | Some (a, b) => (RInt (b - a + 1), take (Z.to_nat a) l ++ drop (Z.to_nat (b + 1)) l)
      end
  | ZScore m => (RFloat (default NaN (score_of m l)), l)
  | ZLen => (RInt (zlen l), l)
  | ZCount min max => (RInt (zlen (select min max l)), l)
  | ZByScore min max offset count => (REntries (Some (limit (Z.max 0 offset) count (select min max l))), l)
  | ZRank m => (RInt (rank_of m l), l)
  | ZRevRank m => (RInt (if rank_of m l =? -1 then -1 else zlen l - rank_of m l - 1), l)
  | ZRange start stop => (REntries (range_of start stop l), l)
  | ZRevRange start stop => (REntries (rev_range_of start stop l), l)
  end.

(** The operations that need the spans, and whether an operation keeps them: those
    that delete a node only do if it is the last one. *)
Definition by_rank (o : zset_op) : bool :=
  match o with ZRemByRank _ _ | ZRank _ | ZRevRank _ | ZRange _ _ | ZRevRange _ _ => true | _ => false end.
Definition keeps (o : zset_op) (l : list entry) : bool :=
  match o with
  | ZAdd _ m s => match score_of m l with Some old => feq old s || is_last m l | None => true end
  | ZRem m | ZIncr _ m _ => is_last m l || bool_decide (score_of m l = None)
  | ZRemByScore min max => bool_decide (select min max l = [])
  | ZRemByRank start stop => bool_decide (rank_bounds (zlen l) start stop = None)
  | _ => true
  end.

(** [b]: the spans are right before the operation. *)
Definition zset_op_ok (b : bool) (o : zset_op) (l : list entry) : bool :=
  match o with
  | ZAdd _ _ s => negb (IsNaN s)
  | ZIncr _ m s => negb (IsNaN (increased m s l))
  | _ => implb (by_rank o) b
  end.

Lemma zrep_length b z l : zrep b z l → z_length z = zlen l.
Proof. intros (ps & Hsk & <- & _). rewrite (sk_length _ _ Hsk). unfold zlen. by rewrite length_fmap. Qed.
Lemma zrep_idle b b' z l : zrep b z l → zrep (b && b') z l.
Proof. intros H. apply (zrep_weaken _ _ _ _ H). by intros [? _]%andb_true_iff. Qed.

Lemma zset_step_spec o b z l :
  zrep b z l → zset_op_ok b o l = true →
  ∃ z', zset_step o z = (Ret (zset_spec o l).1, z') ∧ zrep (b && keeps o l) z' (zset_spec o l).2.
Proof.
  intros Hz Hok.
  destruct o as [rnd m s|m|rnd m s|min max|a c|m| |min max|min max off cnt|m|m|a c|a c];
    cbn [zset_step zset_spec keeps zset_op_ok by_rank implb] in *; try (destruct b; [|done]).
  - apply negb_true_iff in Hok. destruct (ZSet_Add_spec rnd b z l m s Hz Hok) as (z' & Hrun & Hz').
    rewrite (bind_Ret _ _ _ _ _ Hrun). exists z'. destruct (score_of m l) as [old|]; [destruct (feq old s)|]; cbn in *.
    all: split; [done|]; rewrite ?andb_true_r; done.
  - destruct (ZSet_Remove_spec b z l m Hz) as (z' & Hrun & Hz'). rewrite (bind_Ret _ _ _ _ _ Hrun). by exists z'.
  - apply negb_true_iff in Hok. destruct (ZSet_IncrBy_spec rnd b z l m s Hz Hok) as (z' & Hrun & Hz').
    rewrite (bind_Ret _ _ _ _ _ Hrun). by exists z'.
  - destruct (ZSet_RemRangeByScore_spec b z l min max Hz) as (z' & Hrun & Hz'). rewrite (bind_Ret _ _ _ _ _ Hrun). by exists z'.
  - destruct (ZSet_RemRangeByRank_spec z l a c Hz) as (z' & Hrun & Hz'). rewrite (bind_Ret _ _ _ _ _ Hrun). exists z'.
    by destruct (rank_bounds _ _ _) as [[? ?]|].
  - exists z. split; [|by apply zrep_idle]. unfold ZSet_Get. by rewrite bind_assoc, z_get_run, (zrep_score b z l).
  - exists z. split; [|by apply zrep_idle]. unfold ZSet_Len. by rewrite z_get_run, (zrep_length b z l).
  - exists z. rewrite (bind_Ret _ _ _ _ _ (ZSet_Count_spec b z l min max Hz)). split; [done|by apply zrep_idle].
  - exists z. rewrite (bind_Ret _ _ _ _ _ (ZSet_RangeByScore_spec b z l min max off cnt Hz)). split; [done|by apply zrep_idle].
  - exists z. by rewrite (bind_Ret _ _ _ _ _ (ZSet_Rank_spec z l m Hz)).
  - exists z. by rewrite (bind_Ret _ _ _ _ _ (ZSet_RevRank_spec z l m Hz)).
  - exists z. by rewrite (bind_Ret _ _ _ _ _ (ZSet_Range_spec z l a c Hz)).
  - exists z. by rewrite (bind_Ret _ _ _ _ _ (ZSet_RevRange_spec z l a c Hz)).
Qed.

(** Sequences of operations. *)
Definition zset_run (ops : list zset_op) : ZM (list zset_reply) :=
  mfold (λ rs o, r ← zset_step o; mret (rs ++ [r])) [] ops.
Fixpoint zset_spec_run (ops : list zset_op) (l : list entry) : list zset_reply * list entry :=
  match ops with
  | [] => ([], l)
  | o :: ops => let '(r, l) := zset_spec o l in let '(rs, l) := zset_spec_run ops l in (r :: rs, l)
  end.
Fixpoint zset_ops_ok (b : bool) (ops : list zset_op) (l : list entry) : bool :=
  match ops with
  | [] => true
  | o :: ops => zset_op_ok b o l && zset_ops_ok (b && keeps o l) ops (zset_spec o l).2
  end.

Lemma zset_run_spec ops b z l rs :
  zrep b z l → zset_ops_ok b ops l = true →
  ∃ z' b', mfold (λ rs o, r ← zset_step o; mret (rs ++ [r])) rs ops z = (Ret (rs ++ (zset_spec_run ops l).1), z') ∧
    zrep b' z' (zset_spec_run ops l).2.
Proof.
  revert b z l rs. induction ops as [|o ops IH]; intros b z l rs Hz Hok.
  { exists z, b. cbn. by rewrite app_nil_r. }
  cbn [zset_ops_ok] in Hok. apply andb_true_iff in Hok as [Ho Hops].
  destruct (zset_step_spec o b z l Hz Ho) as (z1 & Hrun & Hz1).
  destruct (IH _ z1 _ (rs ++ [(zset_spec o l).1]) Hz1 Hops) as (z' & b' & Hrun' & Hz').
  exists z', b'. cbn [mfold zset_spec_run]. rewrite bind_assoc, (bind_Ret _ _ _ _ _ Hrun).
  destruct (zset_spec o l) as [r l1]. cbn [fst snd] in *. destruct (zset_spec_run ops l1) as [rs2 l2]. cbn [fst snd] in *.
  split; [|done]. unfold mret, M_ret, mbind, M_bind in *. rewrite Hrun'. by rewrite <- app_assoc.
Qed.

(** ** Without provisos: the structure is kept and no operation fails *)
Definition shaped (z : ZSet) : Prop := ∃ ps, skip z ps.
(** [c] returns from every well-formed skip list, and leaves one. *)
Definition keeps_shape {T} (c : ZM T) : Prop := ∀ z, shaped z → ∃ a z', c z = (Ret a, z') ∧ shaped z'.

Lemma shape_ret {T} (a : T) : keeps_shape (mret a).
Proof. intros z Hz. by exists a, z. Qed.
Lemma shape_bind {T T'} (c : ZM T) (k : T → ZM T') :
  keeps_shape c → (∀ a, keeps_shape (k a)) → keeps_shape (c ≫= k).
Proof.
  intros Hc Hk z Hz. destruct (Hc z Hz) as (a & z1 & E & Hz1). rewrite (bind_Ret _ _ _ _ _ E). by apply Hk.
Qed.
Lemma shape_get {T} (f : ZSet → T) : keeps_shape (z_get f).
Proof. intros z Hz. by exists (f z), z. Qed.
Lemma shape_mfold {A T} (f : T → A → ZM T) b l : (∀ b x, keeps_shape (f b x)) → keeps_shape (mfold f b l).
Proof. intros Hf. revert b. induction l as [|x l IH]; intros b; [apply shape_ret|]. by apply shape_bind. Qed.
Lemma shape_deleteNode m s : keeps_shape (deleteNode m s).
Proof.
  intros z [ps Hsk]. destruct (deleteNode_run z ps m s Hsk) as (B & A & -> & _ & _ & H). exists tt.
  destruct A as [|c A]; [exists z; split; [done|by eexists]|].
  destruct (feq _ _ && _); [destruct H as (z' & Hrun & Hsk' & _); exists z'; split; [done|by eexists]|].
  exists z. split; [done|by eexists].
Qed.
Lemma shape_Add_insert rnd m s : keeps_shape (Add_insert rnd m s).
Proof.
  intros z [ps Hsk]. destruct (Add_insert_run rnd z ps m s Hsk) as (B & A & z' & new & _ & _ & _ & Hrun & Hsk' & _).
  exists true, z'. split; [done|by eexists].
Qed.
Lemma shape_from_header {T} (f : T → zSetNode → T * bool) (g : T → entry → T * bool) a :
  (∀ a n, f a n = g a (zn_member n, zn_score n)) → keeps_shape (from_header f a).
Proof.
  intros Hfg z [ps Hsk]. pose proof (sk_level _ _ Hsk) as Hml. unfold from_header. rewrite !z_get_run.
  assert (is_Some (meta z !! z_header z)) as Hs by (apply (sk_nodes _ _ Hsk); left).
  rewrite (bind_Ret _ _ _ _ _ (get_forward_run z (sk_arrays _ _ Hsk) _ Hs 0 ltac:(lia))).
  change (fwd z 0 (z_header z)) with (fwd z 0 (lst (z_header z) [])).
  rewrite (sk_links _ _ Hsk 0%nat [] ps) by (done || lia || apply stop_nil). rewrite (first_hi_0 z ps) by done.
  rewrite (level0_run f g z ps []) by (done || by apply sk_size). do 2 eexists. split; [done|]. by exists ps.
Qed.

(** A descent with any condition. *)
Lemma zwalk_any z ps cond fuel i X Y acc :
  skip z ps → (i < z_level z)%nat → ps = X ++ Y → stop z i X → (length Y < fuel)%nat →
  ∃ C D acc', Y = C ++ D ∧ stop z i (X ++ C) ∧
    zwalk fuel i cond (lst (z_header z) X) acc z = (Ret (lst (z_header z) (X ++ C), acc'), z).
Proof.
  intros Hsk. pose proof (sk_level _ _ Hsk) as Hml. pose proof (sk_arrays _ _ Hsk) as Harr.
  revert X Y acc. induction fuel as [|fuel IH]; intros X Y acc Hi Hps HX Hfuel; [lia|].
  pose proof (sk_at _ _ _ _ Hsk Hps) as Hat.
  cbn [zwalk]. rewrite (bind_Ret _ _ _ _ _ (get_forward_run z Harr _ Hat i ltac:(lia))).
  rewrite (sk_links _ _ Hsk i X Y) by (done || lia).
  assert (∃ C D acc', Y = C ++ D ∧ stop z i (X ++ C) ∧
    (Ret (lst (z_header z) X, acc), z) = (Ret (lst (z_header z) (X ++ C), acc'), z)) as Hend.
  { exists [], Y, acc. by rewrite app_nil_r. }
  destruct (first_hi z i Y) as [q|] eqn:Eq; [|done].
  destruct (first_hi_Some _ _ _ _ Eq) as (C & D & -> & HC & Hq).
  assert (is_Some (meta z !! q)) as Hqs
    by (apply (sk_nodes _ _ Hsk); rewrite Hps, elem_of_cons, !elem_of_app, elem_of_cons; tauto).
  destruct (z_load_run z q Hqs) as (n & En & Hl). rewrite (bind_Ret _ _ _ _ _ Hl).
  rewrite (bind_Ret _ _ _ _ _ (get_span_run z Harr _ Hat i ltac:(lia))). destruct (cond _ _ n); [|done].
  destruct (IH (X ++ C ++ [q]) D (acc + spn z i (lst (z_header z) X))) as (C' & D' & acc' & -> & Hst & Hrun).
  - done.
  - by rewrite Hps, <- !app_assoc.
  - rewrite app_assoc. by apply stop_snoc.
  - rewrite length_app in Hfuel. cbn in Hfuel. lia.
  - exists (C ++ q :: C'), D', acc'. rewrite app_assoc, lst_snoc in Hrun. rewrite <- !app_assoc in *. done.
Qed.
Lemma descend_any z ps cond i X Y acc :
  skip z ps → (i ≤ z_level z)%nat → ps = X ++ Y → stop z i X →
  ∃ C D acc' update rank, Y = C ++ D ∧
    descend i cond (lst (z_header z) X) acc z = (Ret (lst (z_header z) (X ++ C), acc', update, rank), z).
Proof.
  intros Hsk. revert X Y acc. induction i as [|i IH]; intros X Y acc Hi Hps HX.
  { exists [], Y, acc, [], []. by rewrite !app_nil_r. }
  pose proof (sk_size _ _ Hsk) as Hsz.
  destruct (zwalk_any z ps cond (size (z_nodes z)) i X Y acc) as (C & D & acc1 & -> & Hst & Hrun);
    [done|lia|done|by apply (stop_le _ (S i)); [lia|]|rewrite Hps, length_app in Hsz; lia|].
  destruct (IH (X ++ C) D acc1) as (C2 & D2 & acc2 & update & rank & -> & Hrun2); [lia|by rewrite Hps, app_assoc|done|].
  cbn [descend]. rewrite z_get_run, (bind_Ret _ _ _ _ _ Hrun). cbv beta iota. rewrite (bind_Ret _ _ _ _ _ Hrun2).
  do 5 eexists. split; [apply app_assoc|]. by rewrite (app_assoc X C C2).
Qed.

Lemma shape_Remove m : keeps_shape (ZSet_Remove m).
Proof.
  apply shape_bind; [apply shape_get|]. intros d. destruct (d !! m); [|apply shape_ret].
  apply shape_bind; [apply shape_deleteNode|]. intros _. apply shape_ret.
Qed.
Lemma shape_Add rnd m s : keeps_shape (ZSet_Add rnd m s).
Proof.
  apply shape_bind; [apply shape_get|]. intros d. destruct (d !! m); [|apply shape_Add_insert].
  destruct (feq _ _); [apply shape_ret|]. apply shape_bind; [apply shape_deleteNode|]. intros _. apply shape_Add_insert.
Qed.
Lemma shape_IncrBy rnd m s : keeps_shape (ZSet_IncrBy rnd m s).
Proof.
  apply shape_bind; [apply shape_get|]. intros d. apply shape_bind.
  - destruct (d !! m); [|apply shape_ret]. apply shape_bind; [apply shape_deleteNode|]. intros _. apply shape_ret.
  - intros s'. apply shape_bind; [apply shape_Add|]. intros _. apply shape_ret.
Qed.
Lemma shape_Get m : keeps_shape (ZSet_Get m).
Proof. apply shape_bind; [apply shape_get|]. intros d. apply shape_ret. Qed.
Lemma shape_Len : keeps_shape ZSet_Len.
Proof. apply shape_get. Qed.
Lemma shape_Count min max : keeps_shape (ZSet_Count min max).
Proof.
  apply (shape_from_header _ (λ c e, if fgt e.2 max then (c, false) else (if fge e.2 min then c + 1 else c, true))). done.
Qed.
Lemma shape_RangeByScore min max offset count : keeps_shape (ZSet_RangeByScore min max offset count).
Proof.
  unfold ZSet_RangeByScore. apply shape_bind; [|intros r; apply shape_ret].
  apply (shape_from_header _ (λ a e, if fgt e.2 max then (a, false) else if fge e.2 min
    then limit_step (if offset <? 0 then 0 else offset) count a e else (a, true))).
  intros [res skipped] n. cbn. destruct (fgt _ _); [done|]. destruct (fge _ _); [|done]. by destruct (_ <=? skipped).
Qed.
Lemma shape_RemRangeByScore min max : keeps_shape (ZSet_RemRangeByScore min max).
Proof.
  unfold ZSet_RemRangeByScore. apply shape_bind.
  - by apply (shape_from_header _ (λ a e, if fgt e.2 max then (a, false) else (if fge e.2 min then a ++ [e.1] else a, true))).
  - intros ms. apply shape_mfold. intros n m. apply shape_bind; [apply shape_Remove|]. intros b. apply shape_ret.
Qed.
Lemma shape_Rank m : keeps_shape (ZSet_Rank m).
Proof.
  intros z [ps Hsk]. unfold ZSet_Rank. rewrite z_get_run. destruct (z_dict z !! m) as [s|]; cycle 1.
  { do 2 eexists. split; [done|]. by exists ps. }
  rewrite !z_get_run. destruct (descend_any z ps (λ _ _, not_after s m) (z_level z) [] ps 0) as (C & D & acc & u & r & HCD & Hrun);
    [done|done|done|apply stop_nil|]. cbn [lst last default app] in Hrun. rewrite (bind_Ret _ _ _ _ _ Hrun). cbv beta iota.
  destruct (z_load_run z (lst (z_header z) C) (sk_at _ _ C D Hsk HCD)) as (n & En & Hl).
  rewrite (bind_Ret _ _ _ _ _ Hl). destruct (beq _ m); (do 2 eexists; split; [done|by exists ps]).
Qed.
Lemma shape_RevRank m : keeps_shape (ZSet_RevRank m).
Proof.
  apply shape_bind; [apply shape_Rank|]. intros n. destruct (n =? -1); [apply shape_ret|].
  apply shape_bind; [apply shape_get|]. intros len. apply shape_ret.
Qed.
Lemma shape_Range start stop : keeps_shape (ZSet_Range start stop).
Proof.
  intros z [ps Hsk]. pose proof (sk_level _ _ Hsk) as Hml. unfold ZSet_Range. rewrite z_get_run.
  destruct (rank_bounds _ _ _) as [[a b]|]; [|do 2 eexists; split; [done|by exists ps]].
  rewrite !z_get_run. destruct (descend_any z ps (λ traversed span _, traversed + span <=? a) (z_level z) [] ps 0)
    as (C & D & acc & u & r & HCD & Hrun); [done|done|done|apply stop_nil|].
  cbn [lst last default app] in Hrun. rewrite (bind_Ret _ _ _ _ _ Hrun). cbv beta iota.
  rewrite (bind_Ret _ _ _ _ _ (get_forward_run z (sk_arrays _ _ Hsk) _ (sk_at _ _ C D Hsk HCD) 0 ltac:(lia))), z_get_run.
  rewrite (sk_links _ _ Hsk 0%nat C D), (first_hi_0 z _ D Hsk);
    [|intros p; rewrite HCD, elem_of_app; tauto|lia|done|].
  2: { intros p Hp. apply (sk_levels _ _ Hsk). rewrite HCD, elem_of_app. left. by apply last_Some_elem_of. }
  erewrite bind_Ret; cycle 1.
  { apply (level0_run _ (λ '(res, i) (e : entry), ((res ++ [e], i + 1), i + 1 <=? b)) z ps C D);
      [by intros [? ?] ?|done|done|]. pose proof (sk_size _ _ Hsk) as Hsz. rewrite HCD, length_app in Hsz. lia. }
  do 2 eexists. split; [done|]. by exists ps.
Qed.
Lemma shape_RevRange start stop : keeps_shape (ZSet_RevRange start stop).
Proof.
  apply shape_bind; [apply shape_get|]. intros len. destruct (rank_bounds _ _ _) as [[a b]|]; [|apply shape_ret].
  apply shape_bind; [apply shape_Range|]. intros r. apply shape_ret.
Qed.
Lemma shape_RemRangeByRank start stop : keeps_shape (ZSet_RemRangeByRank start stop).
Proof.
  apply shape_bind; [apply shape_get|]. intros len. destruct (rank_bounds _ _ _) as [[a b]|]; [|apply shape_ret].
  apply shape_bind; [apply shape_Range|]. intros r. apply shape_mfold. intros n m.
  apply shape_bind; [apply shape_Remove|]. intros ok. apply shape_ret.
Qed.
#[export] Hint Resolve shape_ret shape_get shape_Add shape_Remove shape_IncrBy shape_Get shape_Len shape_Count shape_RangeByScore
  shape_RemRangeByScore shape_Rank shape_RevRank shape_Range shape_RevRange shape_RemRangeByRank : zset.

Lemma shape_step o : keeps_shape (zset_step o).
Proof. destruct o; cbn [zset_step]; (apply shape_bind; [auto with zset|intros ?; apply shape_ret]). Qed.

(** ** Claims *)
(** C8: A sorted set built by any sequence of operations answers as the sorted
    sequence of its entries: additions, score updates, removals, counts and ranges by
    score always; ranks and ranges by rank as long as every removed or moved member
    was the one with the highest score.  Scores are not NaN. *)
Theorem ZSet_refines ops :
  zset_ops_ok true ops [] = true →
  ∃ z' b, zset_run ops NewZSet = (Ret (zset_spec_run ops []).1, z') ∧ zrep b z' (zset_spec_run ops []).2.
Proof. intros Hok. by apply (zset_run_spec ops true NewZSet [] [] NewZSet_rep). Qed.

(** C9: No operation on a sorted set panics or loops, and all keep the skip list
    well formed (every level's links follow the level-0 order, the tail and the length
    are right), whatever the scores, NaN included, and whatever the spans. *)
Theorem ZSet_never_fails ops :
  ∃ rs z' ps, zset_run ops NewZSet = (Ret rs, z') ∧ skip z' ps.
Proof.
  assert (keeps_shape (zset_run ops)) as H.
  { apply shape_mfold. intros rs o. apply shape_bind; [apply shape_step|]. intros r. apply shape_ret. }
  destruct (H NewZSet ltac:(exists []; apply NewZSet_skip)) as (rs & z' & Hrun & ps & Hsk). eauto.
Qed.

(** Floats and random sources for examples: [draw k] makes [randomLevel] return [k]. *)
Definition flo (n : Z) : float64 := binary_normalize 53 1024 n 0 false.
Definition draw (k : nat) : nat → float64 := λ i, if (S i <? k)%nat then flo 0 else flo 1.

Definition four_members : list zset_op :=
  [ZAdd (draw 1) (lit "a") (flo 1); ZAdd (draw 3) (lit "b") (flo 2); ZAdd (draw 1) (lit "c") (flo 3);
   ZAdd (draw 2) (lit "d") (flo 4)].

Lemma ZSet_refines_witness :
  ∃ z' b, zset_run (four_members ++ [ZRank (lit "c"); ZRange 1 2; ZRem (lit "d"); ZIncr (draw 1) (lit "a") (flo 7); ZCount (flo 3) (flo 9)]) NewZSet
    = (Ret [RBool true; RBool true; RBool true; RBool true; RInt 2; REntries (Some [(lit "b", flo 2); (lit "c", flo 3)]);
            RBool true; RFloat (flo 8); RInt 2], z') ∧
    zrep b z' [(lit "b", flo 2); (lit "c", flo 3); (lit "a", flo 8)].
Proof.
  set (ops := four_members ++ _). destruct (ZSet_refines ops) as (z' & b & Hrun & Hz); [vm_compute; reflexivity|].
  assert (zset_spec_run ops [] =
    ([RBool true; RBool true; RBool true; RBool true; RInt 2; REntries (Some [(lit "b", flo 2); (lit "c", flo 3)]);
      RBool true; RFloat (flo 8); RInt 2], [(lit "b", flo 2); (lit "c", flo 3); (lit "a", flo 8)])) as E
    by (vm_compute; reflexivity).
  rewrite E in Hrun, Hz. exists z', b. split; [exact Hrun|exact Hz].
Defined.

(** Removing a member that is not the last one breaks the spans: with members
    a to f of scores 1 to 6 and levels 1, 2, 1, 2, 1, 1, the removal of c leaves five
    members of which d, the third, has rank 3, and the last one by rank is e instead
    of f. *)
Theorem Remove_breaks_ranks :
  ∃ z', zset_run
    [ZAdd (draw 1) (lit "a") (flo 1); ZAdd (draw 2) (lit "b") (flo 2); ZAdd (draw 1) (lit "c") (flo 3);
     ZAdd (draw 2) (lit "d") (flo 4); ZAdd (draw 1) (lit "e") (flo 5); ZAdd (draw 1) (lit "f") (flo 6);
     ZRem (lit "c"); ZByScore (flo 1) (flo 6) 0 0; ZRank (lit "d"); ZRange 4 4] NewZSet
  = (Ret [RBool true; RBool true; RBool true; RBool true; RBool true; RBool true; RBool true;
          REntries (Some [(lit "a", flo 1); (lit "b", flo 2); (lit "d", flo 4); (lit "e", flo 5); (lit "f", flo 6)]);
          RInt 3; REntries (Some [(lit "e", flo 5)])], z').
Proof. eexists. vm_compute. reflexivity. Qed.

(** A member whose score is NaN can be added again and again and never removed:
    the removal is reported as done but the member, found by its dictionary, stays in
    the list, and adding it once more makes a second node. *)
Theorem NaN_member_stays :
  ∃ z', zset_run
    [ZAdd (draw 1) (lit "a") NaN; ZRem (lit "a"); ZRem (lit "a"); ZLen; ZAdd (draw 1) (lit "a") NaN; ZLen;
     ZAdd (draw 1) (lit "a") (flo 1); ZLen] NewZSet
  = (Ret [RBool true; RBool true; RBool true; RInt 1; RBool true; RInt 2; RBool true; RInt 3], z').
Proof. eexists. vm_compute. reflexivity. Qed.
