(* ===== verification/Store.v ===== *)
(** * The store interface and the methods of [MemDb]

    [src/pkg/memdb/db.go], lines 269-376, and [command.go].  Command handlers use
    the database through few operations: the concurrent map, the expiry
    manager, the key locks, the clock and the objects that values point to.
    [Store] is that interface; [World.v] implements it with the data structures
    of the program, [Model.v] with finite maps and sequences.  The methods of
    [MemDb], the dispatch and the handlers are written against it once. *)

From Stdlib Require Import Ascii String ZArith Lia.
From stdpp Require Import prelude gmap list fin_maps.
From S2P Require Import Prelude RESP Locks ListStruct ListOps SetStruct HashStruct ZSetStruct.
Open Scope Z_scope.

(** A value of the map ([interface{}] in the code): a byte slice, or a pointer
    to an object of one of the four types.  Stored slices are never written in
    place within their length, so they are values. *)
Inductive value :=
  | VBytes (s : slice)
  | VList (p : positive)
  | VSet (p : positive)
  | VHash (p : positive)
  | VZSet (p : positive).

#[export] Instance value_eq_dec : EqDecision value.
Proof. solve_decision. Defined.

Class Store (S : Type) := {
  (* [m.db] *)
  db_Get : bytes → M S (option value);
  db_Set : bytes → value → M S Z;
  db_Delete : bytes → M S Z;
  db_SetIfNotExist : bytes → value → M S Z;
  db_Keys : M S (option (list bytes));
  (* [m.ttl]; the argument of [CheckTTL] is the current time *)
  ttl_CheckTTL : Z → bytes → M S bool;
  ttl_SetTTL : bytes → Z → M S unit;
  ttl_RemoveTTL : bytes → M S unit;
  ttl_ExpireAt : bytes → M S (option Z);
  (* [m.locks] *)
  on_locks : M Locks unit → M S unit;
  (* the number of the next clock reading, map order or random number *)
  tick : M S nat;
  (* objects *)
  list_new : M S positive;
  list_do : positive → list_op → M S list_reply;
  get_set : positive → M S GoSet;
  put_set : positive → GoSet → M S unit;
  new_set : GoSet → M S positive;
  get_hash : positive → M S Hash;
  put_hash : positive → Hash → M S unit;
  new_hash : M S positive;
  on_zset : ∀ {A : Type}, positive → M ZSet A → M S A;
  new_zset : M S positive;
}.

Section MemDb.
Context `{Host} {S : Type} `{!Store S}.

Definition locks_Lock (key : bytes) : M S unit := on_locks (Lock key).
Definition locks_UnLock (key : bytes) : M S unit := on_locks (UnLock key).
Definition locks_RLock (key : bytes) : M S unit := on_locks (RLock key).
Definition locks_RUnLock (key : bytes) : M S unit := on_locks (RUnLock key).
Definition locks_LockMulti (keys : list bytes) : M S unit := on_locks (LockMulti keys).
Definition locks_UnLockMulti (keys : list bytes) : M S unit := on_locks (UnLockMulti keys).
Definition locks_RLockMulti (keys : list bytes) : M S unit := on_locks (RLockMulti keys).
Definition locks_RUnLockMulti (keys : list bytes) : M S unit := on_locks (RUnLockMulti keys).

(** [time.Now().Unix()], and the order of the next [range] over a map. *)
Definition now : M S Z := n ← tick; mret (unix_now n).
Definition range : M S (list bytes → list bytes) := n ← tick; mret (range_order n).

(** ** Methods of [MemDb] *)
Definition MemDb_CheckTTL (key : bytes) : M S bool :=
  t ← now;
  alive ← ttl_CheckTTL t key;
  if alive : bool then mret true
  else
    locks_Lock key;;
    db_Delete key;;
    locks_UnLock key;;
    mret false.

Definition MemDb_SetTTL (key : bytes) (expireAt : Z) : M S Z :=
  v ← db_Get key;
  match v with
  | None => mret 0
  | Some _ => ttl_SetTTL key expireAt;; mret 1
  end.

Definition MemDb_DelTTL (key : bytes) : M S Z := ttl_RemoveTTL key;; mret 1.

Definition MemDb_GetTTL (key : bytes) : M S Z :=
  e ← ttl_ExpireAt key;
  match e with
  | None => mret (-1)
  | Some expireAt =>
      t ← now;
      let ttl := int64 (expireAt - t) in
      if ttl <=? 0 then mret (-1) else mret ttl
  end.

(** ** Commands *)
(** A handler; [None] is a nil reply, which only ZADD has. *)
Definition executor : Type := list slice → M S (option RedisData).
Definition replies (e : list slice → M S RedisData) : executor := λ cmd, r ← e cmd; mret (Some r).

(** [cmd[i]]; an index out of range panics. *)
Definition arg (cmd : list slice) (i : nat) : M S slice :=
  match cmd !! i with Some s => mret s | None => mpanic end.
Definition sarg (cmd : list slice) (i : nat) : M S bytes := s ← arg cmd i; mret (str s).

Definition err (s : string) : M S RedisData := mret (MakeErrorData (lit s)).
Definition wrong_type : M S RedisData :=
  err "WRONGTYPE Operation against a key holding the wrong kind of value".

(** [CmdTable]: a later registration of a name replaces an earlier one. *)
Definition RegisterCommand (cmdName : bytes) (e : executor) (table : gmap bytes executor)
  : gmap bytes executor := <[cmdName := e]> table.

(** [ExecCommand]; [None] is the nil reply. *)
Definition ExecCommand (CmdTable : gmap bytes executor) (cmd : list slice) : M S (option RedisData) :=
  match cmd with
  | [] => mret None
  | c :: _ =>
      let cmdName := ToLower (str c) in
      match CmdTable !! cmdName with
      | None => mret (Some (MakeErrorData (lit "error: unsupported command")))
      | Some execFunc => execFunc cmd
      end
  end.

(** The guard every handler opens with: it was registered under [name]. *)
Definition is_cmd (cmd : list slice) (name : string) : M S bool :=
  c ← sarg cmd 0; mret (beq (ToLower c) (lit name)).
End MemDb.
