(* ===== verification/World.v ===== *)
(** * The store of the program

    The instance of [Store] built from the program's own data structures: the
    sharded map of [CMap.v], the expiry manager of [TTL.v], the lock table of
    [Locks.v], linked lists, sets, hashes and sorted sets at locations. *)

From Stdlib Require Import Ascii String ZArith Lia.
From stdpp Require Import prelude gmap list fin_maps.
From S2P Require Import Prelude RESP Util CMap Heap TTL Locks ListStruct ListOps SetStruct HashStruct ZSetStruct Store.
Open Scope Z_scope.

(** [MemDb] with the heap objects its values point to; [w_tick] counts the
    readings of the clock, of map orders and of random numbers. *)
Record World (tree : Type → Type) := mkWorld {
  w_db : ConcurrentMap tree value;
  w_ttl : TTLManager;
  w_locks : Locks;
  w_tick : nat;
  w_lists : gmap positive List;
  w_sets : gmap positive GoSet;
  w_hashes : gmap positive Hash;
  w_zsets : gmap positive ZSet;
}.
Arguments mkWorld {tree}.
Arguments w_db {tree}.
Arguments w_ttl {tree}.
Arguments w_locks {tree}.
Arguments w_tick {tree}.
Arguments w_lists {tree}.
Arguments w_sets {tree}.
Arguments w_hashes {tree}.
Arguments w_zsets {tree}.

Section World.
Context `{Host} {tree : Type → Type} `{!RBTree tree}.
Implicit Type (w : World tree).

Definition with_db (db : ConcurrentMap tree value) w : World tree :=
  mkWorld db (w_ttl w) (w_locks w) (w_tick w) (w_lists w) (w_sets w) (w_hashes w) (w_zsets w).
Definition with_ttl (tm : TTLManager) w : World tree :=
  mkWorld (w_db w) tm (w_locks w) (w_tick w) (w_lists w) (w_sets w) (w_hashes w) (w_zsets w).
Definition with_locks (l : Locks) w : World tree :=
  mkWorld (w_db w) (w_ttl w) l (w_tick w) (w_lists w) (w_sets w) (w_hashes w) (w_zsets w).
Definition with_tick (n : nat) w : World tree :=
  mkWorld (w_db w) (w_ttl w) (w_locks w) n (w_lists w) (w_sets w) (w_hashes w) (w_zsets w).
Definition with_lists (m : gmap positive List) w : World tree :=
  mkWorld (w_db w) (w_ttl w) (w_locks w) (w_tick w) m (w_sets w) (w_hashes w) (w_zsets w).
Definition with_sets (m : gmap positive GoSet) w : World tree :=
  mkWorld (w_db w) (w_ttl w) (w_locks w) (w_tick w) (w_lists w) m (w_hashes w) (w_zsets w).
Definition with_hashes (m : gmap positive Hash) w : World tree :=
  mkWorld (w_db w) (w_ttl w) (w_locks w) (w_tick w) (w_lists w) (w_sets w) m (w_zsets w).
Definition with_zsets (m : gmap positive ZSet) w : World tree :=
  mkWorld (w_db w) (w_ttl w) (w_locks w) (w_tick w) (w_lists w) (w_sets w) (w_hashes w) m.

(** Running a method of one component. *)
Definition lift {C A} (get : World tree → C) (set : C → World tree → World tree) (c : M C A)
    : M (World tree) A := λ w, let '(o, s) := c (get w) in (o, set s w).

Definition lift_db {A} (f : ConcurrentMap tree value → outcome (A * ConcurrentMap tree value))
    : M (World tree) A := λ w,
  match f (w_db w) with
  | Ret (a, db) => (Ret a, with_db db w)
  | Panics => (Panics, w)
  | Fatals => (Fatals, w)
  | Blocks => (Blocks, w)
  end.

Definition lift_list {A} (p : positive) (c : M List A) : M (World tree) A := λ w,
  match w_lists w !! p with
  | Some l => let '(o, l') := c l in (o, with_lists (<[p := l']> (w_lists w)) w)
  | None => (Panics, w)
  end.

Definition lift_zset {A} (p : positive) (c : M ZSet A) : M (World tree) A := λ w,
  match w_zsets w !! p with
  | Some z => let '(o, z') := c z in (o, with_zsets (<[p := z']> (w_zsets w)) w)
  | None => (Panics, w)
  end.

#[export] Instance World_Store : Store (World tree) := {
  db_Get key := lift_db (λ db, r ← Get key db; Ret (r, db));
  db_Set key v := lift_db (Set_ key v);
  db_Delete key := lift_db (CMap.Delete key);
  db_SetIfNotExist key v := lift_db (SetIfNotExist key v);
  db_Keys := λ w, (Ret (Keys (w_db w)), w);
  ttl_CheckTTL t key := lift w_ttl with_ttl (TTLManager_CheckTTL t key);
  ttl_SetTTL key e := lift w_ttl with_ttl (TTLManager_SetTTL key e);
  ttl_RemoveTTL key := lift w_ttl with_ttl (TTLManager_RemoveTTL key);
  ttl_ExpireAt key := lift w_ttl with_ttl (TTLManager_ExpireAt key);
  on_locks c := lift w_locks with_locks c;
  tick := λ w, (Ret (w_tick w), with_tick (S (w_tick w)) w);
  list_new := λ w,
    let p := fresh (dom (w_lists w)) in (Ret p, with_lists (<[p := NewList]> (w_lists w)) w);
  list_do p o := lift_list p (list_step o);
  get_set p := λ w, match w_sets w !! p with Some s => (Ret s, w) | None => (Panics, w) end;
  put_set p s := λ w, (Ret tt, with_sets (<[p := s]> (w_sets w)) w);
  new_set s := λ w,
    let p := fresh (dom (w_sets w)) in (Ret p, with_sets (<[p := s]> (w_sets w)) w);
  get_hash p := λ w, match w_hashes w !! p with Some h => (Ret h, w) | None => (Panics, w) end;
  put_hash p h := λ w, (Ret tt, with_hashes (<[p := h]> (w_hashes w)) w);
  new_hash := λ w,
    let p := fresh (dom (w_hashes w)) in (Ret p, with_hashes (<[p := NewHash]> (w_hashes w)) w);
  on_zset A p c := lift_zset p c;
  new_zset := λ w,
    let p := fresh (dom (w_zsets w)) in (Ret p, with_zsets (<[p := NewZSet]> (w_zsets w)) w);
}.

(** [NewMemDb], for the configured number of shards. *)
Definition NewMemDb (ShardNum : Z) : outcome (World tree) :=
  locks ← NewLocks (int64 (ShardNum * 2));
  Ret (mkWorld (NewConcurrentMap ShardNum) (NewTTLManager ShardNum) locks 0 ∅ ∅ ∅ ∅).

(** The new database when it can be made. *)
Definition new_world (ShardNum : Z) : World tree :=
  mkWorld (NewConcurrentMap ShardNum) (NewTTLManager ShardNum) (lock_table (int64 (ShardNum * 2))) 0 ∅ ∅ ∅ ∅.
Lemma NewMemDb_new_world n :
  NewMemDb n = if make_ok 8 (int64 (n * 2)) then Ret (new_world n) else Panics.
Proof. unfold NewMemDb, NewLocks. by destruct (make_ok 8 _). Qed.
Lemma NewMemDb_Ret n w : NewMemDb n = Ret w → w = new_world n.
Proof. rewrite NewMemDb_new_world. destruct (make_ok 8 _); [by intros [= <-]|done]. Qed.

(** [Get], [Set], [Keys] and [Size] of [MemDb]. *)
Definition MemDb_Get (key : bytes) : M (World tree) (option value) := db_Get key.
Definition MemDb_Set (key : bytes) (v : value) : M (World tree) unit := db_Set key v;; mret tt.
Definition MemDb_Keys : M (World tree) (option (list bytes)) := db_Keys.
Definition MemDb_Size : M (World tree) Z := λ w, (Ret (Len (w_db w)), w).
End World.
