(* ===== verification/Model.v ===== *)
(** * The reference store and the simulation

    [Model] implements [Store] with mathematical objects: finite maps for the
    database and the expiry times, sequences for lists.  The simulation theorem
    says that any program written against [Store] behaves on the program's data
    structures ([World]) as on the reference store: it is proved once for every
    operation of the interface and for the ways of composing them, so that each
    command handler inherits it. *)

From Stdlib Require Import Ascii String ZArith Lia.
From stdpp Require Import prelude gmap list fin_maps.
From S2P Require Import Prelude RESP Util CMap Heap TTL Locks ListStruct ListOps SetStruct HashStruct ZSetStruct Store World.
Open Scope Z_scope.

Record Model := mkModel {
  m_db : gmap bytes value;
  m_exp : gmap bytes Z;
  m_locks : Locks;
  m_tick : nat;
  m_lists : gmap positive (list slice);
  m_sets : gmap positive GoSet;
  m_hashes : gmap positive Hash;
  m_zsets : gmap positive ZSet;
}.

Definition set_db (x : gmap bytes value) (m : Model) : Model :=
  mkModel x (m_exp m) (m_locks m) (m_tick m) (m_lists m) (m_sets m) (m_hashes m) (m_zsets m).
Definition set_exp (x : gmap bytes Z) (m : Model) : Model :=
  mkModel (m_db m) x (m_locks m) (m_tick m) (m_lists m) (m_sets m) (m_hashes m) (m_zsets m).
Definition set_locks (x : Locks) (m : Model) : Model :=
  mkModel (m_db m) (m_exp m) x (m_tick m) (m_lists m) (m_sets m) (m_hashes m) (m_zsets m).
Definition set_tick (x : nat) (m : Model) : Model :=
  mkModel (m_db m) (m_exp m) (m_locks m) x (m_lists m) (m_sets m) (m_hashes m) (m_zsets m).
Definition set_lists (x : gmap positive (list slice)) (m : Model) : Model :=
  mkModel (m_db m) (m_exp m) (m_locks m) (m_tick m) x (m_sets m) (m_hashes m) (m_zsets m).
Definition set_sets (x : gmap positive GoSet) (m : Model) : Model :=
  mkModel (m_db m) (m_exp m) (m_locks m) (m_tick m) (m_lists m) x (m_hashes m) (m_zsets m).
Definition set_hashes (x : gmap positive Hash) (m : Model) : Model :=
  mkModel (m_db m) (m_exp m) (m_locks m) (m_tick m) (m_lists m) (m_sets m) x (m_zsets m).
Definition set_zsets (x : gmap positive ZSet) (m : Model) : Model :=
  mkModel (m_db m) (m_exp m) (m_locks m) (m_tick m) (m_lists m) (m_sets m) (m_hashes m) x.

#[export] Instance in_int64_dec n : Decision (in_int64 n).
Proof. unfold in_int64. apply _. Defined.
#[export] Instance list_op_ok_dec o : Decision (list_op_ok o).
Proof. destruct o; cbn; apply _. Defined.

(** The clock, time as [Unix] seconds: [e] has passed at time [t]. *)
Definition expired (t : Z) (e : option Z) : bool :=
  match e with Some e => e <=? t | None => false end.

(** The order in which the shards list the keys is unspecified as well: the
    reference store does not answer [Keys] (KEYS has a theorem of its own).

    A list operation outside the range of the implementation (positions that
    are not 64-bit, a list of 2^63 - 1 elements) is left unspecified: the model
    does not answer. *)
#[export] Instance Model_Store : Store Model := {
  db_Get key := λ m, (Ret (m_db m !! key), m);
  db_Set key v := λ m,
    (Ret (if m_db m !! key is Some _ then 0 else 1), set_db (<[key := v]> (m_db m)) m);
  db_Delete key := λ m,
    (Ret (if m_db m !! key is Some _ then 1 else 0), set_db (delete key (m_db m)) m);
  db_SetIfNotExist key v := λ m,
    (Ret (if m_db m !! key is Some _ then 0 else 1),
     set_db (if m_db m !! key is Some _ then m_db m else <[key := v]> (m_db m)) m);
  db_Keys := λ m, (Blocks, m);
  ttl_CheckTTL t key := λ m,
    if expired t (m_exp m !! key) then (Ret false, set_exp (delete key (m_exp m)) m) else (Ret true, m);
  ttl_SetTTL key e := λ m, (Ret tt, set_exp (<[key := e]> (m_exp m)) m);
  ttl_RemoveTTL key := λ m, (Ret tt, set_exp (delete key (m_exp m)) m);
  ttl_ExpireAt key := λ m, (Ret (m_exp m !! key), m);
  on_locks c := λ m, let '(o, l) := c (m_locks m) in (o, set_locks l m);
  tick := λ m, (Ret (m_tick m), set_tick (S (m_tick m)) m);
  list_new := λ m,
    let p := fresh (dom (m_lists m)) in (Ret p, set_lists (<[p := []]> (m_lists m)) m);
  list_do p o := λ m,
    match m_lists m !! p with
    | Some vs =>
        if decide (list_op_ok o ∧ zlen vs < MaxInt64)
        then (Ret (list_spec o vs).1, set_lists (<[p := (list_spec o vs).2]> (m_lists m)) m)
        else (Blocks, m)
    | None => (Panics, m)
    end;
  get_set p := λ m, match m_sets m !! p with Some s => (Ret s, m) | None => (Panics, m) end;
  put_set p s := λ m, (Ret tt, set_sets (<[p := s]> (m_sets m)) m);
  new_set s := λ m,
    let p := fresh (dom (m_sets m)) in (Ret p, set_sets (<[p := s]> (m_sets m)) m);
  get_hash p := λ m, match m_hashes m !! p with Some h => (Ret h, m) | None => (Panics, m) end;
  put_hash p h := λ m, (Ret tt, set_hashes (<[p := h]> (m_hashes m)) m);
  new_hash := λ m,
    let p := fresh (dom (m_hashes m)) in (Ret p, set_hashes (<[p := NewHash]> (m_hashes m)) m);
  on_zset A p c := λ m,
    match m_zsets m !! p with
    | Some z => let '(o, z') := c z in (o, set_zsets (<[p := z']> (m_zsets m)) m)
    | None => (Panics, m)
    end;
  new_zset := λ m,
    let p := fresh (dom (m_zsets m)) in (Ret p, set_zsets (<[p := NewZSet]> (m_zsets m)) m);
}.

Section simulation.
Context `{Host} {tree : Type → Type} `{!RBTree tree, !RBTreeLaws tree}.

(** The reference state a program state stands for. *)
Definition represents (w : World tree) (m : Model) : Prop :=
  (cm_wf (w_db w) ∧ abs (w_db w) = m_db m) ∧
  (tm_ok (w_ttl w) ∧ ∀ k, expiry (w_ttl w) k = m_exp m !! k) ∧
  w_locks w = m_locks m ∧ w_tick w = m_tick m ∧
  (dom (w_lists w) = dom (m_lists m) ∧
   ∀ p vs, m_lists m !! p = Some vs → ∃ l, w_lists w !! p = Some l ∧ rep l vs) ∧
  w_sets w = m_sets m ∧ w_hashes w = m_hashes m ∧ w_zsets w = m_zsets m.

(** [c] on the program's store does what [c'] does on the reference store,
    unless the latter does not answer. *)
Definition sim {A} (c : M (World tree) A) (c' : M Model A) : Prop :=
  ∀ w m, represents w m →
    match c' m with
    | (Blocks, _) => True
    | (o, m') => ∃ w', c w = (o, w') ∧ represents w' m'
    end.

Lemma sim_ret {A} (a : A) : sim (mret a) (mret a).
Proof. intros w m Hr. by exists w. Qed.
Lemma sim_panic {A} : sim (mpanic (A := A)) mpanic.
Proof. intros w m Hr. by exists w. Qed.

Lemma sim_bind {A B} (c : M (World tree) A) c' (f : A → M (World tree) B) f' :
  sim c c' → (∀ a, sim (f a) (f' a)) → sim (c ≫= f) (c' ≫= f').
Proof.
  intros Hc Hf w m Hr. specialize (Hc w m Hr). unfold mbind, M_bind.
  destruct (c' m) as [[a| | |] m']; try done; destruct Hc as (w' & -> & Hr'); [|eauto..].
  by apply Hf.
Qed.

Lemma sim_defer {A} (f : M (World tree) unit) f' (c : M (World tree) A) c' :
  sim f f' → sim c c' → sim (mdefer f c) (mdefer f' c').
Proof.
  intros Hf Hc w m Hr. specialize (Hc w m Hr). unfold mdefer.
  destruct (c' m) as [[a| | |] m']; try done; destruct Hc as (w' & -> & Hr'); [..|eauto];
    specialize (Hf w' m' Hr'); destruct (f' m') as [[]]; try done; destruct Hf as (w'' & -> & ?); eauto.
Qed.

Lemma sim_mfold {A B} (f : B → A → M (World tree) B) f' b l :
  (∀ b x, sim (f b x) (f' b x)) → sim (mfold f b l) (mfold f' b l).
Proof.
  intros Hf. revert b. induction l as [|x l IH]; intros b; cbn [mfold]; [apply sim_ret|].
  apply sim_bind; auto.
Qed.

(** ** The operations of the interface *)
Lemma sim_db_Get key : sim (db_Get key) (db_Get key).
Proof.
  intros w m ([Hwf Habs] & Hrest). cbn. unfold lift_db. rewrite Get_spec by done. cbn.
  exists (with_db (w_db w) w). rewrite Habs. split; [done|]. split; [done|]. apply Hrest.
Qed.
Lemma sim_db_Set key v : sim (db_Set key v) (db_Set key v).
Proof.
  intros w m ([Hwf Habs] & Hrest). cbn. unfold lift_db.
  destruct (Set_spec (w_db w) key v Hwf) as (db' & -> & Hwf' & Habs').
  exists (with_db db' w). rewrite Habs in *. split; [done|]. split; [done|]. apply Hrest.
Qed.
Lemma sim_db_Delete key : sim (db_Delete key) (db_Delete key).
Proof.
  intros w m ([Hwf Habs] & Hrest). cbn. unfold lift_db.
  destruct (Delete_spec (w_db w) key Hwf) as (db' & -> & Hwf' & Habs').
  exists (with_db db' w). rewrite Habs in *. split; [done|]. split; [done|]. apply Hrest.
Qed.
Lemma sim_db_SetIfNotExist key v : sim (db_SetIfNotExist key v) (db_SetIfNotExist key v).
Proof.
  intros w m ([Hwf Habs] & Hrest). cbn. unfold lift_db.
  destruct (SetIfNotExist_spec (w_db w) key v Hwf) as (db' & -> & Hwf' & Habs').
  exists (with_db db' w). rewrite Habs in *. split; [done|]. split; [done|]. apply Hrest.
Qed.

Lemma sim_db_Keys : sim db_Keys db_Keys.
Proof. done. Qed.

Lemma sim_ttl_CheckTTL t key : sim (ttl_CheckTTL t key) (ttl_CheckTTL t key).
Proof.
  intros w m (Hdb & [Htm Hexp] & Hrest). cbn. unfold lift.
  destruct (CheckTTL_spec (w_ttl w) t key Htm) as (tm' & E & Htm' & _ & Hexp'). rewrite E, Hexp in *.
  unfold expired. destruct (m_exp m !! key) as [e|] eqn:Ee; [destruct (e <=? t)|]; cbn;
    (eexists; split; [done|]; split; [done|]; split; [|apply Hrest]; split; [done|]);
    intros k; rewrite Hexp', Hexp; cbn; [|done..].
  rewrite lookup_delete. case_bool_decide; by repeat case_decide.
Qed.
Lemma sim_ttl_SetTTL key e : sim (ttl_SetTTL key e) (ttl_SetTTL key e).
Proof.
  intros w m (Hdb & [Htm Hexp] & Hrest). cbn. unfold lift.
  destruct (SetTTL_spec (w_ttl w) key e Htm) as (tm' & -> & Htm' & _ & Hexp').
  eexists; split; [done|]; split; [done|]; split; [|apply Hrest]; split; [done|].
  intros k. rewrite Hexp', Hexp. cbn. rewrite lookup_insert. by repeat case_decide.
Qed.
Lemma sim_ttl_RemoveTTL key : sim (ttl_RemoveTTL key) (ttl_RemoveTTL key).
Proof.
  intros w m (Hdb & [Htm Hexp] & Hrest). cbn. unfold lift.
  destruct (RemoveTTL_spec (w_ttl w) key Htm) as (tm' & -> & Htm' & _ & Hexp').
  eexists; split; [done|]; split; [done|]; split; [|apply Hrest]; split; [done|].
  intros k. rewrite Hexp', Hexp. cbn. rewrite lookup_delete. by repeat case_decide.
Qed.
Lemma sim_ttl_ExpireAt key : sim (ttl_ExpireAt key) (ttl_ExpireAt key).
Proof.
  intros w m Hr. pose proof Hr as (Hdb & [Htm Hexp] & Hrest). cbn. unfold lift.
  rewrite ExpireAt_spec, Hexp by done. eexists; split; [done|]. by destruct w.
Qed.
Lemma sim_on_locks c : sim (on_locks c) (on_locks c).
Proof.
  intros w m (Hdb & Hexp & Hl & Hrest). cbn. unfold lift. rewrite Hl.
  destruct (c (m_locks m)) as [[] l]; try done;
    (eexists; split; [done|]; split; [done|]; split; [done|]; split; [done|apply Hrest]).
Qed.
Lemma sim_tick : sim tick tick.
Proof.
  intros w m (Hdb & Hexp & Hl & Ht & Hrest). cbn. rewrite Ht. eexists; split; [done|].
  split; [done|]; split; [done|]; split; [done|]; split; [done|apply Hrest].
Qed.
Lemma sim_list_new : sim list_new list_new.
Proof.
  intros w m (Hdb & Hexp & Hl & Ht & [Hd Hls] & Hrest). cbn. rewrite Hd. eexists; split; [done|].
  split; [done|]; split; [done|]; split; [done|]; split; [done|]; split; [|apply Hrest]. cbn.
  split; [by rewrite !dom_insert_L, Hd|]. intros p vs. rewrite !lookup_insert.
  case_decide; [|apply Hls]. intros [= <-]. eexists; split; [done|apply NewList_rep].
Qed.
Lemma sim_list_do p o : sim (list_do p o) (list_do p o).
Proof.
  intros w m Hr. pose proof Hr as (Hdb & Hexp & Hl & Ht & [Hd Hls] & Hrest). cbn. unfold lift_list.
  destruct (m_lists m !! p) as [vs|] eqn:Ep.
  - case_decide as Hc; [|done]. destruct Hc as [Hok Hmax]. destruct (Hls p vs Ep) as (l & -> & Hrep).
    destruct (list_step_spec o l vs Hrep Hok Hmax) as (l' & -> & Hrep').
    eexists; split; [done|]. split; [done|]; split; [done|]; split; [done|]; split; [done|]; split; [|apply Hrest].
    cbn. split; [by rewrite !dom_insert_L, Hd|]. intros q us. rewrite !lookup_insert.
    case_decide; [|apply Hls]. intros [= <-]. eauto.
  - assert (w_lists w !! p = None) as ->.
    { apply not_elem_of_dom. rewrite Hd. by apply not_elem_of_dom. }
    by exists w.
Qed.
Lemma sim_get_set p : sim (get_set p) (get_set p).
Proof.
  intros w m Hr. pose proof Hr as (_ & _ & _ & _ & _ & Hs & _). cbn. rewrite Hs.
  destruct (m_sets m !! p); eauto.
Qed.
Lemma sim_put_set p s : sim (put_set p s) (put_set p s).
Proof.
  intros w m (Hdb & Hexp & Hl & Ht & Hls & Hs & Hh). cbn. eexists; split; [done|].
  repeat (split; [done|]). split; [cbn; by rewrite Hs|done].
Qed.
Lemma sim_new_set s : sim (new_set s) (new_set s).
Proof.
  intros w m (Hdb & Hexp & Hl & Ht & Hls & Hs & Hh). cbn. rewrite Hs. eexists; split; [done|].
  repeat (split; [done|]). done.
Qed.
Lemma sim_get_hash p : sim (get_hash p) (get_hash p).
Proof.
  intros w m Hr. pose proof Hr as (_ & _ & _ & _ & _ & _ & Hh & _). cbn. rewrite Hh.
  destruct (m_hashes m !! p); eauto.
Qed.
Lemma sim_put_hash p h : sim (put_hash p h) (put_hash p h).
Proof.
  intros w m (Hdb & Hexp & Hl & Ht & Hls & Hs & Hh & Hz). cbn. eexists; split; [done|].
  repeat (split; [done|]). split; [cbn; by rewrite Hh|done].
Qed.
Lemma sim_new_hash : sim new_hash new_hash.
Proof.
  intros w m (Hdb & Hexp & Hl & Ht & Hls & Hs & Hh & Hz). cbn. rewrite Hh. eexists; split; [done|].
  repeat (split; [done|]). done.
Qed.
Lemma sim_on_zset {A} p (c : M ZSet A) : sim (on_zset p c) (on_zset p c).
Proof.
  intros w m Hr. pose proof Hr as (Hdb & Hexp & Hl & Ht & Hls & Hs & Hh & Hz). cbn. unfold lift_zset. rewrite Hz.
  destruct (m_zsets m !! p) as [z|]; [|by exists w].
  destruct (c z) as [[] z']; try done; (eexists; split; [done|]; by repeat (split; [done|])).
Qed.
Lemma sim_new_zset : sim new_zset new_zset.
Proof.
  intros w m (Hdb & Hexp & Hl & Ht & Hls & Hs & Hh & Hz). cbn. rewrite Hz. eexists; split; [done|].
  repeat (split; [done|]). done.
Qed.
End simulation.

Create HintDb sim.
#[export] Hint Resolve sim_ret sim_panic sim_db_Get sim_db_Set sim_db_Delete sim_db_SetIfNotExist sim_db_Keys
  sim_ttl_CheckTTL sim_ttl_SetTTL sim_ttl_RemoveTTL sim_ttl_ExpireAt sim_on_locks sim_tick
  sim_list_new sim_list_do sim_get_set sim_put_set sim_new_set sim_get_hash sim_put_hash
  sim_new_hash sim_on_zset sim_new_zset : sim.

(** Simulation of a program by structure: the same operations in both stores
    return the same values, so both take the same branches. *)
Ltac sim_step :=
  first
    [ solve [auto with sim]
    | apply sim_bind; [|intros ?]
    | apply sim_defer
    | apply sim_mfold; intros ? ?
    | match goal with |- sim (match ?x with _ => _ end) _ => destruct x end
    | match goal with |- sim (let '(_, _) := ?x in _) _ => destruct x end
    | progress cbv zeta ].
Ltac sim_auto := repeat sim_step.

Section methods.
Context `{Host} {tree : Type → Type} `{!RBTree tree, !RBTreeLaws tree}.

Lemma sim_now : sim (tree := tree) now now.
Proof. unfold now. sim_auto. Qed.
Lemma sim_range : sim (tree := tree) range range.
Proof. unfold range. sim_auto. Qed.
Lemma sim_arg cmd i : sim (tree := tree) (arg cmd i) (arg cmd i).
Proof. unfold arg. sim_auto. Qed.
#[local] Hint Resolve sim_now sim_arg : sim.
Lemma sim_sarg cmd i : sim (tree := tree) (sarg cmd i) (sarg cmd i).
Proof. unfold sarg. sim_auto. Qed.
#[local] Hint Resolve sim_sarg : sim.
Lemma sim_is_cmd cmd name : sim (tree := tree) (is_cmd cmd name) (is_cmd cmd name).
Proof. unfold is_cmd. sim_auto. Qed.
Lemma sim_err s : sim (tree := tree) (err s) (err s).
Proof. unfold err. sim_auto. Qed.
Lemma sim_wrong_type : sim (tree := tree) wrong_type wrong_type.
Proof. apply sim_err. Qed.
Lemma sim_Lock key : sim (tree := tree) (locks_Lock key) (locks_Lock key).
Proof. apply sim_on_locks. Qed.
Lemma sim_UnLock key : sim (tree := tree) (locks_UnLock key) (locks_UnLock key).
Proof. apply sim_on_locks. Qed.
Lemma sim_RLock key : sim (tree := tree) (locks_RLock key) (locks_RLock key).
Proof. apply sim_on_locks. Qed.
Lemma sim_RUnLock key : sim (tree := tree) (locks_RUnLock key) (locks_RUnLock key).
Proof. apply sim_on_locks. Qed.
Lemma sim_LockMulti keys : sim (tree := tree) (locks_LockMulti keys) (locks_LockMulti keys).
Proof. apply sim_on_locks. Qed.
Lemma sim_UnLockMulti keys : sim (tree := tree) (locks_UnLockMulti keys) (locks_UnLockMulti keys).
Proof. apply sim_on_locks. Qed.
Lemma sim_RLockMulti keys : sim (tree := tree) (locks_RLockMulti keys) (locks_RLockMulti keys).
Proof. apply sim_on_locks. Qed.
Lemma sim_RUnLockMulti keys : sim (tree := tree) (locks_RUnLockMulti keys) (locks_RUnLockMulti keys).
Proof. apply sim_on_locks. Qed.
#[local] Hint Resolve sim_Lock sim_UnLock : sim.

Lemma sim_CheckTTL key : sim (tree := tree) (MemDb_CheckTTL key) (MemDb_CheckTTL key).
Proof. unfold MemDb_CheckTTL. sim_auto. Qed.
Lemma sim_SetTTL key e : sim (tree := tree) (MemDb_SetTTL key e) (MemDb_SetTTL key e).
Proof. unfold MemDb_SetTTL. sim_auto. Qed.
Lemma sim_DelTTL key : sim (tree := tree) (MemDb_DelTTL key) (MemDb_DelTTL key).
Proof. unfold MemDb_DelTTL. sim_auto. Qed.
Lemma sim_GetTTL key : sim (tree := tree) (MemDb_GetTTL key) (MemDb_GetTTL key).
Proof. unfold MemDb_GetTTL. sim_auto. Qed.

(** The new database represents the empty reference store. *)
Definition NewModel (ShardNum : Z) : Model :=
  mkModel ∅ ∅ (lock_table (int64 (ShardNum * 2))) 0 ∅ ∅ ∅ ∅.
Lemma new_world_represents n : represents (tree := tree) (new_world n) (NewModel n).
Proof.
  destruct (NewTTLManager_spec n) as [Htm Hexp].
  destruct (NewConcurrentMap_spec (V := value) (tree := tree) n) as [Hwf Habs].
  by split_and!.
Qed.
Lemma NewMemDb_represents n w : NewMemDb n = Ret w → represents (tree := tree) w (NewModel n).
Proof. intros ->%NewMemDb_Ret. apply new_world_represents. Qed.
End methods.

#[export] Hint Resolve sim_now sim_range sim_arg sim_sarg sim_is_cmd sim_err sim_wrong_type sim_Lock sim_UnLock
  sim_RLock sim_RUnLock sim_LockMulti sim_UnLockMulti sim_RLockMulti sim_RUnLockMulti
  sim_CheckTTL sim_SetTTL sim_DelTTL sim_GetTTL : sim.
