(* ===== verification/Strings.v ===== *)
(** * String commands

    [src/pkg/memdb/string.go]: the handlers of SET, GET, SETRANGE, GETRANGE,
    MSET, MGET, SETEX, SETNX, STRLEN, INCR, INCRBY, INCRBYFLOAT, DECR, DECRBY and
    APPEND.  A [defer] is [mdefer]; an early return ends the function. *)

From Stdlib Require Import Ascii String ZArith Lia.
From stdpp Require Import prelude gmap list fin_maps.
From S2P Require Import Prelude Float RESP Util CMap Heap TTL Locks ListStruct ListOps SetStruct HashStruct Store World Model.
Open Scope Z_scope.

(** The option flags of SET. *)
Record set_opts := mkSetOpts {
  o_nx : bool; o_xx : bool; o_get : bool; o_ex : bool; o_keepttl : bool; o_exval : Z;
}.

Section Strings.
Context `{Host} {S : Type} `{!Store S}.

(** The option loop of SET over [cmd[3:]]; an error is the reply. *)
Fixpoint set_parse_opts (args : list slice) (o : set_opts) : set_opts + RedisData :=
  match args with
  | [] => inl o
  | a :: args =>
      let opt := ToLower (str a) in
      if beq opt (lit "nx") then
        set_parse_opts args (mkSetOpts true (o_xx o) (o_get o) (o_ex o) (o_keepttl o) (o_exval o))
      else if beq opt (lit "xx") then
        set_parse_opts args (mkSetOpts (o_nx o) true (o_get o) (o_ex o) (o_keepttl o) (o_exval o))
      else if beq opt (lit "get") then
        set_parse_opts args (mkSetOpts (o_nx o) (o_xx o) true (o_ex o) (o_keepttl o) (o_exval o))
      else if beq opt (lit "keepttl") then
        set_parse_opts args (mkSetOpts (o_nx o) (o_xx o) (o_get o) (o_ex o) true (o_exval o))
      else if beq opt (lit "ex") then
        match args with
        | [] => inr (MakeErrorData (lit "error: commands is invalid"))
        | v :: args =>
            match ParseInt (str v) with
            | inr _ =>
                inr (MakeErrorData (lit "error: commands is invalid, " ++ str v ++ lit " is not interger"))
            | inl n => set_parse_opts args (mkSetOpts (o_nx o) (o_xx o) (o_get o) true (o_keepttl o) n)
            end
        end
      else inr (MakeErrorData (lit "Error unsupported option: " ++ str a))
  end.

Definition no_opts : set_opts := mkSetOpts false false false false false 0.

Definition setString (cmd : list slice) : M S RedisData :=
  ok ← is_cmd cmd "set";
  if negb ok then err "server error "
  else if zlen cmd <? 3 then err "error: commands is invalid"
  else
    key ← sarg cmd 1;
    MemDb_CheckTTL key;;
    match set_parse_opts (drop 3 cmd) no_opts with
    | inr e => mret e
    | inl o =>
        if (o_nx o && o_xx o) || (o_ex o && o_keepttl o) then err "error: commands is invalid"
        else
          locks_Lock key;;
          mdefer (locks_UnLock key) (
            val ← arg cmd 2;
            old ← db_Get key;
            match old with
            | Some (VList _ | VSet _ | VHash _ | VZSet _) => wrong_type
            | _ =>
                let set := db_Set key (VBytes val);; mret (MakeStringData (lit "OK")) in
                res ← (if o_nx o || o_xx o then
                         if o_nx o then
                           match old with Some _ => mret MakeNullBulkData | None => set end
                         else
                           match old with Some _ => set | None => mret MakeNullBulkData end
                       else set);
                let res :=
                  if o_get o then
                    match old with
                    | Some (VBytes v) => MakeBulkData v
                    | _ => MakeNullBulkData
                    end
                  else res in
                (if negb (o_keepttl o) then MemDb_DelTTL key;; mret tt else mret tt);;
                (if o_ex o then t ← now; MemDb_SetTTL key (int64 (o_exval o + t));; mret tt
                 else mret tt);;
                mret res
            end)
    end.

Definition getString (cmd : list slice) : M S RedisData :=
  ok ← is_cmd cmd "get";
  if negb ok then err "server error"
  else if negb (zlen cmd =? 2) then err "error: commands is invalid"
  else
    key ← sarg cmd 1;
    alive ← MemDb_CheckTTL key;
    if negb alive then mret MakeNullBulkData
    else
      locks_RLock key;;
      mdefer (locks_RUnLock key) (
        v ← db_Get key;
        match v with
        | None => mret MakeNullBulkData
        | Some (VBytes b) => mret (MakeBulkData b)
        | Some _ => wrong_type
        end).

(** [copy(dst[offset:], src)] within the bounds of [dst]. *)
Definition copy_at (dst : bytes) (offset : nat) (src : bytes) : bytes :=
  take offset dst ++ take (length dst - offset) src ++ drop (offset + length src) dst.

Definition setRangeString (cmd : list slice) : M S RedisData :=
  ok ← is_cmd cmd "setrange";
  if negb ok then err "server error"
  else if negb (zlen cmd =? 4) then err "error: commands is invalid"
  else
    off ← sarg cmd 2;
    match Atoi off with
    | inr _ => err "error: offset is not a integer or less than 0"
    | inl offset =>
        if offset <? 0 then err "error: offset is not a integer or less than 0"
        else
          key ← sarg cmd 1;
          MemDb_CheckTTL key;;
          locks_Lock key;;
          mdefer (locks_UnLock key) (
            v ← db_Get key;
            match v with
            | Some (VList _ | VSet _ | VHash _ | VZSet _) => wrong_type
            | _ =>
                let oldVal := match v with Some (VBytes b) => str b | _ => [] end in
                src ← arg cmd 3;
                let requiredLen := int64 (offset + slen src) in
                let requiredLen := if requiredLen <? zlen oldVal then zlen oldVal else requiredLen in
                if negb (make_ok 1 requiredLen) then mpanic
                else
                  let newVal := oldVal ++ replicate (Z.to_nat requiredLen - length oldVal) "000"%char in
                  if requiredLen <? offset then mpanic
                  else
                    let newVal := copy_at newVal (Z.to_nat offset) (str src) in
                    db_Set key (VBytes (Some newVal));;
                    mret (MakeIntData (zlen newVal))
            end)
    end.

Definition getRangeString (cmd : list slice) : M S RedisData :=
  ok ← is_cmd cmd "getrange";
  if negb ok then err "Server error"
  else if negb (zlen cmd =? 4) then err "error: commands is not invalid"
  else
    key ← sarg cmd 1;
    alive ← MemDb_CheckTTL key;
    if negb alive then mret MakeNullBulkData
    else
      locks_RLock key;;
      mdefer (locks_RUnLock key) (
        v ← db_Get key;
        match v with
        | None => mret MakeNullBulkData
        | Some (VBytes b) =>
            a2 ← sarg cmd 2;
            match Atoi a2 with
            | inr _ => err "error: commands is invalid"
            | inl start =>
                a3 ← sarg cmd 3;
                match Atoi a3 with
                | inr _ => err "error: commands is invalid"
                | inl stop =>
                    let length := slen b in
                    if length =? 0 then mret (MakeBulkData (Some []))
                    else
                      let start := if start <? 0 then int64 (length + start) else start in
                      let stop := if stop <? 0 then int64 (length + stop) else stop in
                      let start := if start <? 0 then 0 else start in
                      if length <? start then mret (MakeBulkData (Some []))
                      else
                        let stop := if length <=? stop then length - 1 else stop in
                        if stop <? start then mret (MakeBulkData (Some []))
                        else mret (MakeBulkData
                          (Some (take (Z.to_nat (stop + 1 - start)) (drop (Z.to_nat start) (str b)))))
                end
            end
        | Some _ => wrong_type
        end).

(** The pairs [(cmd[i], cmd[i+1])] for [i = 1, 3, ...]. *)
Fixpoint pairs_of (args : list slice) : list (bytes * slice) :=
  match args with
  | k :: v :: args => (str k, v) :: pairs_of args
  | _ => []
  end.

Definition mSetString (cmd : list slice) : M S RedisData :=
  ok ← is_cmd cmd "mset";
  if negb ok then err "Server error"
  else if (zlen cmd <? 3) || negb (Z.odd (zlen cmd)) then err "error; commands is invalid"
  else
    let kvs := pairs_of (drop 1 cmd) in
    locks_LockMulti kvs.*1;;
    mdefer (locks_UnLockMulti kvs.*1) (
      mfold (λ _ kv, MemDb_DelTTL kv.1;; db_Set kv.1 (VBytes kv.2);; mret tt) tt kvs;;
      mret (MakeStringData (lit "OK"))).

Definition mGetString (cmd : list slice) : M S RedisData :=
  ok ← is_cmd cmd "mget";
  if negb ok then err "Server error"
  else if zlen cmd <? 2 then err "error: commands is invalid"
  else
    res ← mfold (λ res a,
      let key := str a in
      alive ← MemDb_CheckTTL key;
      if negb alive then mret (res ++ [MakeNullBulkData])
      else
        locks_RLock key;;
        v ← db_Get key;
        locks_RUnLock key;;
        match v with
        | Some (VBytes b) => mret (res ++ [MakeBulkData b])
        | _ => mret (res ++ [MakeNullBulkData])
        end) [] (drop 1 cmd);
    mret (MakeArrayData (Some res)).

Definition setExString (cmd : list slice) : M S RedisData :=
  ok ← is_cmd cmd "setex";
  if negb ok then err "Server error"
  else if negb (zlen cmd =? 4) then err "error; commands is invalid"
  else
    a2 ← sarg cmd 2;
    match ParseInt a2 with
    | inr _ => mret (MakeErrorData (lit "error: " ++ a2 ++ lit " is not a integer"))
    | inl ex =>
        t ← now;
        let ttl := int64 (t + ex) in
        key ← sarg cmd 1;
        val ← arg cmd 3;
        locks_Lock key;;
        mdefer (locks_UnLock key) (
          db_Set key (VBytes val);;
          MemDb_SetTTL key ttl;;
          mret (MakeStringData (lit "OK")))
    end.

Definition setNxString (cmd : list slice) : M S RedisData :=
  ok ← is_cmd cmd "setnx";
  if negb ok then err "Server"
  else if negb (zlen cmd =? 3) then err "error: commands is in valid"
  else
    key ← sarg cmd 1;
    val ← arg cmd 2;
    MemDb_CheckTTL key;;
    locks_Lock key;;
    mdefer (locks_UnLock key) (
      res ← db_SetIfNotExist key (VBytes val);
      mret (MakeIntData res)).

Definition strLenString (cmd : list slice) : M S RedisData :=
  ok ← is_cmd cmd "strlen";
  if negb ok then err "Server error"
  else if negb (zlen cmd =? 2) then err "error: commands is invalid"
  else
    key ← sarg cmd 1;
    MemDb_CheckTTL key;;
    locks_RLock key;;
    mdefer (locks_RUnLock key) (
      v ← db_Get key;
      match v with
      | None => mret MakeNullBulkData
      | Some (VBytes b) => mret (MakeIntData (slen b))
      | Some _ => err "WRONGTYPE Operation against a key holding the wrong kind of val"
      end).

(** The common part of INCR, INCRBY, DECR and DECRBY from the read of the key
    on: [init] is stored in a missing key, [f] updates the integer. *)
Definition incr_body (key : bytes) (init : Z) (f : Z → Z) : M S RedisData :=
  locks_Lock key;;
  mdefer (locks_UnLock key) (
    v ← db_Get key;
    match v with
    | None =>
        db_Set key (VBytes (Some (FormatInt init)));;
        mret (MakeIntData init)
    | Some (VBytes b) =>
        match ParseInt (str b) with
        | inr _ => err "value is not an integer"
        | inl intVal =>
            let intVal := f intVal in
            db_Set key (VBytes (Some (FormatInt intVal)));;
            mret (MakeIntData intVal)
        end
    | Some _ => wrong_type
    end).

Definition incrString (cmd : list slice) : M S RedisData :=
  ok ← is_cmd cmd "incr";
  if negb ok then err "Server error"
  else if negb (zlen cmd =? 2) then err "error: commands is invalid"
  else
    key ← sarg cmd 1;
    MemDb_CheckTTL key;;
    incr_body key 1 (λ n, int64 (n + 1)).

Definition incrByString (cmd : list slice) : M S RedisData :=
  ok ← is_cmd cmd "incrby";
  if negb ok then err "Server error"
  else if negb (zlen cmd =? 3) then err "error: commands is invalid"
  else
    key ← sarg cmd 1;
    a2 ← sarg cmd 2;
    match ParseInt a2 with
    | inr _ => err "commands invalid: increment value is not an integer"
    | inl inc => MemDb_CheckTTL key;; incr_body key inc (λ n, int64 (n + inc))
    end.

Definition decrString (cmd : list slice) : M S RedisData :=
  ok ← is_cmd cmd "decr";
  if negb ok then err "Server error"
  else if negb (zlen cmd =? 2) then err "error: commands is invalid"
  else
    key ← sarg cmd 1;
    MemDb_CheckTTL key;;
    incr_body key (-1) (λ n, int64 (n - 1)).

Definition decrByString (cmd : list slice) : M S RedisData :=
  ok ← is_cmd cmd "decrby";
  if negb ok then err "Server error"
  else if negb (zlen cmd =? 3) then err "error: commands is invalid"
  else
    key ← sarg cmd 1;
    a2 ← sarg cmd 2;
    match ParseInt a2 with
    | inr _ => err "commands invalid: increment value is not an integer"
    | inl dec => MemDb_CheckTTL key;; incr_body key (int64 (- dec)) (λ n, int64 (n - dec))
    end.

Definition appendString (cmd : list slice) : M S RedisData :=
  ok ← is_cmd cmd "append";
  if negb ok then err "Server error"
  else if negb (zlen cmd =? 3) then err "error: commands is invalid"
  else
    key ← sarg cmd 1;
    val ← arg cmd 2;
    MemDb_CheckTTL key;;
    locks_Lock key;;
    mdefer (locks_UnLock key) (
      v ← db_Get key;
      match v with
      | None => db_Set key (VBytes val);; mret (MakeIntData (slen val))
      | Some (VBytes b) =>
          let newVal := sappend b val in
          db_Set key (VBytes newVal);;
          mret (MakeIntData (slen newVal))
      | Some _ => wrong_type
      end).

Definition incrByFloatString (cmd : list slice) : M S RedisData :=
  ok ← is_cmd cmd "incrbyfloat";
  if negb ok then err "Server error"
  else if negb (zlen cmd =? 3) then err "error: commands is invalid"
  else
    key ← sarg cmd 1;
    a2 ← sarg cmd 2;
    match ParseFloat a2 with
    | None => err "commands invalid: increment value is not an float"
    | Some inc =>
        MemDb_CheckTTL key;;
        locks_Lock key;;
        mdefer (locks_UnLock key) (
          val ← db_Get key;
          match val with
          | None =>
              db_Set key (VBytes (Some (FormatFloat inc)));;
              mret (MakeBulkData (Some (FormatFloat inc)))
          | Some (VBytes typeVal) =>
              match ParseFloat (str typeVal) with
              | None => err "value is not an float"
              | Some floatVal =>
                  let floatVal := fadd floatVal inc in
                  db_Set key (VBytes (Some (FormatFloat floatVal)));;
                  mret (MakeBulkData (Some (FormatFloat floatVal)))
              end
          | Some _ => wrong_type
          end)
    end.

Definition RegisterStringCommands (t : gmap bytes (executor (S := S))) : gmap bytes executor :=
  foldr (λ '(name, e), RegisterCommand (lit name) (replies e)) t
    [("set", setString); ("get", getString); ("setrange", setRangeString);
     ("getrange", getRangeString); ("mset", mSetString); ("mget", mGetString);
     ("setex", setExString); ("setnx", setNxString); ("strlen", strLenString);
     ("incr", incrString); ("incrby", incrByString); ("decr", decrString);
     ("decrby", decrByString); ("incrbyfloat", incrByFloatString); ("append", appendString)]%string.
End Strings.

(** ** Every handler is simulated by itself on the reference store *)
Section sim.
Context `{Host} {tree : Type → Type} `{!RBTree tree, !RBTreeLaws tree}.
Lemma sim_setString cmd : sim (tree := tree) (setString cmd) (setString cmd).
Proof. unfold setString. sim_auto. Qed.
Lemma sim_getString cmd : sim (tree := tree) (getString cmd) (getString cmd).
Proof. unfold getString. sim_auto. Qed.
Lemma sim_setRangeString cmd : sim (tree := tree) (setRangeString cmd) (setRangeString cmd).
Proof. unfold setRangeString. sim_auto. Qed.
Lemma sim_getRangeString cmd : sim (tree := tree) (getRangeString cmd) (getRangeString cmd).
Proof. unfold getRangeString. sim_auto. Qed.
Lemma sim_mSetString cmd : sim (tree := tree) (mSetString cmd) (mSetString cmd).
Proof. unfold mSetString. sim_auto. Qed.
Lemma sim_mGetString cmd : sim (tree := tree) (mGetString cmd) (mGetString cmd).
Proof. unfold mGetString. sim_auto. Qed.
Lemma sim_setExString cmd : sim (tree := tree) (setExString cmd) (setExString cmd).
Proof. unfold setExString. sim_auto. Qed.
Lemma sim_setNxString cmd : sim (tree := tree) (setNxString cmd) (setNxString cmd).
Proof. unfold setNxString. sim_auto. Qed.
Lemma sim_strLenString cmd : sim (tree := tree) (strLenString cmd) (strLenString cmd).
Proof. unfold strLenString. sim_auto. Qed.
Lemma sim_incr_body key init f : sim (tree := tree) (incr_body key init f) (incr_body key init f).
Proof. unfold incr_body. sim_auto. Qed.
#[local] Hint Resolve sim_incr_body : sim.
Lemma sim_incrString cmd : sim (tree := tree) (incrString cmd) (incrString cmd).
Proof. unfold incrString. sim_auto. Qed.
Lemma sim_incrByString cmd : sim (tree := tree) (incrByString cmd) (incrByString cmd).
Proof. unfold incrByString. sim_auto. Qed.
Lemma sim_decrString cmd : sim (tree := tree) (decrString cmd) (decrString cmd).
Proof. unfold decrString. sim_auto. Qed.
Lemma sim_decrByString cmd : sim (tree := tree) (decrByString cmd) (decrByString cmd).
Proof. unfold decrByString. sim_auto. Qed.
Lemma sim_incrByFloatString cmd : sim (tree := tree) (incrByFloatString cmd) (incrByFloatString cmd).
Proof. unfold incrByFloatString. sim_auto. Qed.
Lemma sim_appendString cmd : sim (tree := tree) (appendString cmd) (appendString cmd).
Proof. unfold appendString. sim_auto. Qed.
End sim.
