(* ===== verification/Keys.v ===== *)
(** * Key commands

    [src/pkg/memdb/keys.go]: PING, DEL, EXISTS, KEYS, EXPIRE, PERSIST, TTL, TYPE
    and RENAME. *)

From Stdlib Require Import Ascii String ZArith Lia.
From stdpp Require Import prelude gmap list fin_maps.
From S2P Require Import Prelude RESP Util CMap Heap TTL Locks ListStruct ListOps SetStruct HashStruct Store World Model.
Open Scope Z_scope.

Section Keys.
Context `{Host} {S : Type} `{!Store S}.

Definition pingKeys (cmd : list slice) : M S RedisData :=
  ok ← is_cmd cmd "ping";
  if negb ok then err "server error"
  else if 2 <? zlen cmd then err "error: command args number is invalid"
  else if zlen cmd =? 1 then mret (MakeStringData (lit "PONG"))
  else a ← arg cmd 1; mret (MakeBulkData a).

Definition delKey (cmd : list slice) : M S RedisData :=
  ok ← is_cmd cmd "del";
  if negb ok then err "Protocol error: command is not del"
  else
    dKeyCount ← mfold (λ dKeyCount a,
      let k := str a in
      alive ← MemDb_CheckTTL k;
      if negb alive then mret dKeyCount
      else
        locks_Lock k;;
        n ← db_Delete k;
        ttl_RemoveTTL k;;
        locks_UnLock k;;
        mret (dKeyCount + n)) 0 (drop 1 cmd);
    mret (MakeIntData dKeyCount).

Definition existsKey (cmd : list slice) : M S RedisData :=
  ok ← is_cmd cmd "exists";
  if negb ok || (zlen cmd <? 2) then err "protocol error: command is not exists"
  else
    eKeyCount ← mfold (λ eKeyCount a,
      let key := str a in
      alive ← MemDb_CheckTTL key;
      if alive : bool then
        locks_RLock key;;
        v ← db_Get key;
        locks_RUnLock key;;
        mret (match v with Some _ => eKeyCount + 1 | None => eKeyCount end)
      else mret eKeyCount) 0 (drop 1 cmd);
    mret (MakeIntData eKeyCount).

Definition expireKey (cmd : list slice) : M S RedisData :=
  ok ← is_cmd cmd "expire";
  if negb ok || (zlen cmd <? 3) || (4 <? zlen cmd)
  then err "error: cmdName is not expire or command args number is invalid"
  else
    a2 ← sarg cmd 2;
    match ParseInt a2 with
    | inr _ => mret (MakeErrorData (lit "error: " ++ a2 ++ lit " is not int"))
    | inl v =>
        t ← now;
        let ttl := int64 (t + v) in
        opt ← (if zlen cmd =? 4 then a3 ← sarg cmd 3; mret (ToLower a3) else mret []);
        key ← sarg cmd 1;
        alive ← MemDb_CheckTTL key;
        if negb alive then mret (MakeIntData 0)
        else
          locks_Lock key;;
          mdefer (locks_UnLock key) (
            current ← ttl_ExpireAt key;
            let set := r ← MemDb_SetTTL key ttl; mret (MakeIntData r) in
            let skip := mret (MakeIntData 0) in
            if beq opt (lit "nx") then
              match current with None => set | Some _ => skip end
            else if beq opt (lit "xx") then
              match current with Some _ => set | None => skip end
            else if beq opt (lit "gt") then
              match current with Some e => if e <? ttl then set else skip | None => skip end
            else if beq opt (lit "lt") then
              match current with Some e => if ttl <? e then set else skip | None => skip end
            else if negb (beq opt []) then
              mret (MakeErrorData (lit "error: unsupport " ++ opt ++ lit ", except nx, xx, gt, lt"))
            else set)
    end.

Definition persistKey (cmd : list slice) : M S RedisData :=
  ok ← is_cmd cmd "persist";
  if negb ok || negb (zlen cmd =? 2)
  then err "error: cmdName is not persist or command args number is invalid"
  else
    key ← sarg cmd 1;
    alive ← MemDb_CheckTTL key;
    if negb alive then mret (MakeIntData 0)
    else
      locks_Lock key;;
      mdefer (locks_UnLock key) (
        res ← MemDb_DelTTL key;
        mret (MakeIntData res)).

Definition ttlKey (cmd : list slice) : M S RedisData :=
  ok ← is_cmd cmd "ttl";
  if negb ok || negb (zlen cmd =? 2)
  then err "error: cmdName is not ttl or command args number is invalid"
  else
    key ← sarg cmd 1;
    locks_RLock key;;
    mdefer (locks_RUnLock key) (
      v ← db_Get key;
      match v with
      | None => mret (MakeIntData (-2))
      | Some _ =>
          e ← ttl_ExpireAt key;
          match e with
          | None => mret (MakeIntData (-1))
          | Some expireAt => t ← now; mret (MakeIntData (int64 (expireAt - t)))
          end
      end).

Definition typeKey (cmd : list slice) : M S RedisData :=
  ok ← is_cmd cmd "type";
  if negb ok || negb (zlen cmd =? 2)
  then err "error: cmdName is not type or command args number is invalid"
  else
    key ← sarg cmd 1;
    alive ← MemDb_CheckTTL key;
    if negb alive then mret (MakeBulkData (Some (lit "none")))
    else
      locks_RLock key;;
      mdefer (locks_RUnLock key) (
        v ← db_Get key;
        mret (MakeStringData (lit
          match v with
          | None => "none"
          | Some (VBytes _) => "string"
          | Some (VList _) => "list"
          | Some (VSet _) => "set"
          | Some (VHash _) => "hash"
          | Some (VZSet _) => "zset"
          end))).

Definition renameKey (cmd : list slice) : M S RedisData :=
  ok ← is_cmd cmd "rename";
  if negb ok || negb (zlen cmd =? 3)
  then err "error: cmdName is not rename or command args number is not invalid"
  else
    oldName ← sarg cmd 1;
    newName ← sarg cmd 2;
    let missing := mret (MakeErrorData (lit "error: " ++ oldName ++ lit " not exist")) in
    alive ← MemDb_CheckTTL oldName;
    if negb alive then missing
    else
      locks_LockMulti [oldName; newName];;
      mdefer (locks_UnLockMulti [oldName; newName]) (
        v ← db_Get oldName;
        match v with
        | None => missing
        | Some oldValue =>
            db_Delete oldName;;
            ttl_RemoveTTL oldName;;
            db_Delete newName;;
            ttl_RemoveTTL newName;;
            db_Set newName oldValue;;
            mret (MakeStringData (lit "OK"))
        end).

(** KEYS reads the shards of the concurrent map in order; [PatternMatch] may
    panic (a slice bound out of range), and a nil key list is an empty range. *)
Definition keys_body (pattern : bytes) (res : list RedisData) (key : bytes) : M S (list RedisData) :=
  alive ← MemDb_CheckTTL key;
  if alive : bool then
    match PatternMatch pattern key with
    | Ret true => mret (res ++ [MakeBulkData (Some key)])
    | Ret false => mret res
    | _ => mpanic
    end
  else mret res.
Definition keysKey (cmd : list slice) : M S RedisData :=
  if negb (zlen cmd =? 2)
  then mret (MakeErrorData (lit "error: keys function requires exactly 2 arguments, got " ++ FormatInt (zlen cmd)))
  else
    c ← sarg cmd 0;
    if negb (beq (ToLower c) (lit "keys"))
    then mret (MakeErrorData (lit "error: keys function got invalid command " ++ c))
    else
      allKeys ← db_Keys;
      pattern ← sarg cmd 1;
      res ← mfold (keys_body pattern) [] (default [] allKeys);
      mret (MakeArrayData (Some res)).

Definition RegisterKeyCommand (t : gmap bytes (executor (S := S))) : gmap bytes executor :=
  foldr (λ '(name, e), RegisterCommand (lit name) (replies e)) t
    [("ping", pingKeys); ("del", delKey); ("exists", existsKey); ("keys", keysKey); ("expire", expireKey);
     ("persist", persistKey); ("ttl", ttlKey); ("type", typeKey); ("rename", renameKey)]%string.
End Keys.

(** ** Every handler is simulated by itself on the reference store *)
Section sim.
Context `{Host} {tree : Type → Type} `{!RBTree tree, !RBTreeLaws tree}.
Lemma sim_pingKeys cmd : sim (tree := tree) (pingKeys cmd) (pingKeys cmd).
Proof. unfold pingKeys. sim_auto. Qed.
Lemma sim_delKey cmd : sim (tree := tree) (delKey cmd) (delKey cmd).
Proof. unfold delKey. sim_auto. Qed.
Lemma sim_existsKey cmd : sim (tree := tree) (existsKey cmd) (existsKey cmd).
Proof. unfold existsKey. sim_auto. Qed.
Lemma sim_keys_body pattern res key :
  sim (tree := tree) (keys_body pattern res key) (keys_body pattern res key).
Proof. unfold keys_body. sim_auto. Qed.
#[local] Hint Resolve sim_keys_body : sim.
Lemma sim_keysKey cmd : sim (tree := tree) (keysKey cmd) (keysKey cmd).
Proof. unfold keysKey. sim_auto. Qed.
Lemma sim_expireKey cmd : sim (tree := tree) (expireKey cmd) (expireKey cmd).
Proof. unfold expireKey. sim_auto. Qed.
Lemma sim_persistKey cmd : sim (tree := tree) (persistKey cmd) (persistKey cmd).
Proof. unfold persistKey. sim_auto. Qed.
Lemma sim_ttlKey cmd : sim (tree := tree) (ttlKey cmd) (ttlKey cmd).
Proof. unfold ttlKey. sim_auto. Qed.
Lemma sim_typeKey cmd : sim (tree := tree) (typeKey cmd) (typeKey cmd).
Proof. unfold typeKey. sim_auto. Qed.
Lemma sim_renameKey cmd : sim (tree := tree) (renameKey cmd) (renameKey cmd).
Proof. unfold renameKey. sim_auto. Qed.
End sim.
