(* ===== verification/ListCmds.v ===== *)
(** * List commands

    [src/pkg/memdb/list.go]: LLEN, LINDEX, LPOP, RPOP, LPUSH, LPUSHX, RPUSH,
    RPUSHX, LSET, LREM, LTRIM, LRANGE, LPOS and LMOVE.  The
    list is an object shared through its pointer; deferred functions run in
    reverse order of registration. *)

From Stdlib Require Import Ascii String ZArith Lia.
From stdpp Require Import prelude gmap list fin_maps.
From S2P Require Import Prelude RESP Util CMap Heap TTL Locks ListStruct ListPos ListOps SetStruct HashStruct Store World Model.
Open Scope Z_scope.

Section ListCmds.
Context `{Host} {S : Type} `{!Store S}.

(** Typed views of [list_do]. *)
Definition list_Len (p : positive) : M S Z :=
  r ← list_do p OLen; match r with LInt n => mret n | _ => mpanic end.
Definition list_pop (p : positive) (o : list_op) : M S (option slice) :=
  r ← list_do p o; match r with LVal v => mret v | _ => mpanic end.

(** [defer func() { if list.Len() == 0 { m.db.Delete(key); m.DelTTL(key) } }()] *)
Definition drop_if_empty (p : positive) (key : bytes) : M S unit :=
  n ← list_Len p;
  if n =? 0 then db_Delete key;; MemDb_DelTTL key;; mret tt else mret tt.

Definition lMoveList (cmd : list slice) : M S RedisData :=
  ok ← is_cmd cmd "lmove";
  if negb ok then err "Server error"
  else if negb (zlen cmd =? 5) then err "wrong number of arguments for 'lmove' command"
  else
    src ← sarg cmd 1;
    des ← sarg cmd 2;
    a3 ← sarg cmd 3;
    a4 ← sarg cmd 4;
    let srcDrc := ToLower a3 in
    let desDrc := ToLower a4 in
    if (negb (beq srcDrc (lit "left")) && negb (beq srcDrc (lit "right"))) ||
       (negb (beq desDrc (lit "left")) && negb (beq desDrc (lit "right")))
    then err "options must be left or right"
    else
      alive ← MemDb_CheckTTL src;
      if negb alive then mret MakeNullBulkData
      else
        MemDb_CheckTTL des;;
        locks_LockMulti [src; des];;
        mdefer (locks_UnLockMulti [src; des]) (
          srcTem ← db_Get src;
          match srcTem with
          | None => mret MakeNullBulkData
          | Some (VList srcList) =>
              mdefer (drop_if_empty srcList src) (
                n ← list_Len srcList;
                if n =? 0 then mret MakeNullBulkData
                else
                  desTem ← db_Get des;
                  desTem ← (match desTem with
                            | Some v => mret v
                            | None => p ← list_new; db_Set des (VList p);; mret (VList p)
                            end);
                  match desTem with
                  | VList desList =>
                      popElem ← list_pop srcList (if beq srcDrc (lit "left") then OLPop else ORPop);
                      match popElem with
                      | None => mpanic
                      | Some val =>
                          list_do desList (if beq desDrc (lit "left") then OLPush val else ORPush val);;
                          mret (MakeBulkData val)
                      end
                  | _ => wrong_type
                  end)
          | Some _ => wrong_type
          end).

Definition lRangeList (cmd : list slice) : M S RedisData :=
  ok ← is_cmd cmd "lrange";
  if negb ok then err "Server error"
  else if negb (zlen cmd =? 4) then err "wrong number of arguments for 'lrange' command"
  else
    a2 ← sarg cmd 2;
    a3 ← sarg cmd 3;
    match Atoi a2, Atoi a3 with
    | inl start, inl stop =>
        key ← sarg cmd 1;
        alive ← MemDb_CheckTTL key;
        if negb alive then mret MakeEmptyArrayData
        else
          locks_RLock key;;
          mdefer (locks_RUnLock key) (
            tem ← db_Get key;
            match tem with
            | None => mret MakeEmptyArrayData
            | Some (VList p) =>
                r ← list_do p (ORange start stop);
                match r with
                | LVals None => mret MakeEmptyArrayData
                | LVals (Some vs) => mret (MakeArrayData (Some (MakeBulkData <$> vs)))
                | _ => mpanic
                end
            | Some _ => wrong_type
            end)
    | _, _ => err "index must be an integer"
    end.

Definition lTrimList (cmd : list slice) : M S RedisData :=
  ok ← is_cmd cmd "ltrim";
  if negb ok then err "Server error"
  else if negb (zlen cmd =? 4) then err "wrong number of arguments for 'ltrim' command"
  else
    a2 ← sarg cmd 2;
    a3 ← sarg cmd 3;
    match Atoi a2, Atoi a3 with
    | inl start, inl stop =>
        key ← sarg cmd 1;
        alive ← MemDb_CheckTTL key;
        if negb alive then mret (MakeStringData (lit "OK"))
        else
          locks_Lock key;;
          mdefer (locks_UnLock key) (
            tem ← db_Get key;
            match tem with
            | None => mret (MakeStringData (lit "OK"))
            | Some (VList p) =>
                mdefer (drop_if_empty p key) (
                  list_do p (OTrim start stop);;
                  mret (MakeStringData (lit "OK")))
            | Some _ => wrong_type
            end)
    | _, _ => err "start and end must be an integer"
    end.

Definition lRemList (cmd : list slice) : M S RedisData :=
  ok ← is_cmd cmd "lrem";
  if negb ok then err "Server error"
  else if negb (zlen cmd =? 4) then err "wrong number of arguments for 'lrem' command"
  else
    a2 ← sarg cmd 2;
    match Atoi a2 with
    | inr _ => err "count must be an integer"
    | inl count =>
        key ← sarg cmd 1;
        alive ← MemDb_CheckTTL key;
        if negb alive then mret (MakeIntData 0)
        else
          locks_Lock key;;
          mdefer (locks_UnLock key) (
            tem ← db_Get key;
            match tem with
            | None => mret (MakeIntData 0)
            | Some (VList p) =>
                mdefer (drop_if_empty p key) (
                  val ← arg cmd 3;
                  r ← list_do p (ORemove val count);
                  match r with LInt n => mret (MakeIntData n) | _ => mpanic end)
            | Some _ => wrong_type
            end)
    end.

Definition lSetList (cmd : list slice) : M S RedisData :=
  ok ← is_cmd cmd "lset";
  if negb ok then err "server error"
  else if negb (zlen cmd =? 4) then err "wrong number of arguments for 'lset' command"
  else
    a2 ← sarg cmd 2;
    match Atoi a2 with
    | inr _ => err "index must be an integer"
    | inl index =>
        key ← sarg cmd 1;
        alive ← MemDb_CheckTTL key;
        if negb alive then err "key not exist"
        else
          locks_Lock key;;
          mdefer (locks_UnLock key) (
            tem ← db_Get key;
            match tem with
            | None => err "key not exist"
            | Some (VList p) =>
                val ← arg cmd 3;
                r ← list_do p (OSet index val);
                match r with
                | LBool true => mret (MakeStringData (lit "OK"))
                | LBool false => err "index out of range"
                | _ => mpanic
                end
            | Some _ => wrong_type
            end)
    end.

(** The push loop over [cmd[2:]] and the reply of the four push commands. *)
Definition push_all (push : slice → list_op) (p : positive) (args : list slice) : M S RedisData :=
  mfold (λ _ v, list_do p (push v);; mret tt) tt args;;
  n ← list_Len p;
  mret (MakeIntData n).

(** LPUSHX and RPUSHX from the lock on: only an existing list. *)
Definition pushx_body (push : slice → list_op) (key : bytes) (args : list slice) : M S RedisData :=
  locks_Lock key;;
  mdefer (locks_UnLock key) (
    tem ← db_Get key;
    match tem with
    | None => mret (MakeIntData 0)
    | Some (VList p) => push_all push p args
    | Some _ => wrong_type
    end).

(** LPUSH and RPUSH from the lock on: a missing list is created. *)
Definition push_body (push : slice → list_op) (key : bytes) (args : list slice) : M S RedisData :=
  locks_Lock key;;
  mdefer (locks_UnLock key) (
    tem ← db_Get key;
    match tem with
    | None => p ← list_new; db_Set key (VList p);; push_all push p args
    | Some (VList p) => push_all push p args
    | Some _ => wrong_type
    end).

Definition rPushXList (cmd : list slice) : M S RedisData :=
  ok ← is_cmd cmd "rpushx";
  if negb ok then err "server error"
  else if zlen cmd <? 3 then err "wrong number of arguments for 'rpushX' command"
  else key ← sarg cmd 1; MemDb_CheckTTL key;; pushx_body ORPush key (drop 2 cmd).

Definition rPushList (cmd : list slice) : M S RedisData :=
  ok ← is_cmd cmd "rpush";
  if negb ok then err "Server error"
  else if zlen cmd <? 3 then err "wrong number of arguments for 'rpush' command"
  else key ← sarg cmd 1; MemDb_CheckTTL key;; push_body ORPush key (drop 2 cmd).

Definition lPushXList (cmd : list slice) : M S RedisData :=
  ok ← is_cmd cmd "lpushx";
  if negb ok then err "Server Error"
  else if zlen cmd <? 3 then err "wrong number of arguments for 'lpushx' command"
  else key ← sarg cmd 1; MemDb_CheckTTL key;; pushx_body OLPush key (drop 2 cmd).

Definition lPushList (cmd : list slice) : M S RedisData :=
  ok ← is_cmd cmd "lpush";
  if negb ok then err "Server Error"
  else if zlen cmd <? 3 then err "wrong number of arguments for 'lpush' command"
  else key ← sarg cmd 1; MemDb_CheckTTL key;; push_body OLPush key (drop 2 cmd).

(** [cnt] elements, or as many as there are. *)
Fixpoint pop_many (pop : list_op) (p : positive) (cnt : nat) (res : list RedisData) : M S (list RedisData) :=
  match cnt with
  | O => mret res
  | Datatypes.S cnt =>
      e ← list_pop p pop;
      match e with
      | None => mret res
      | Some val => pop_many pop p cnt (res ++ [MakeBulkData val])
      end
  end.

(** RPOP and LPOP after the argument check; [cnt = 0] is the form without a
    count.  [pop_many] runs at most [cnt] times and stops at the end of the
    list, so the length of the list bounds it as well. *)
Definition pop_body (pop : list_op) (cmd : list slice) (cnt : Z) : M S RedisData :=
  key ← sarg cmd 1;
  alive ← MemDb_CheckTTL key;
  if negb alive then mret (MakeBulkData None)
  else
    locks_Lock key;;
    mdefer (locks_UnLock key) (
      tem ← db_Get key;
      match tem with
      | None => mret (MakeBulkData None)
      | Some (VList p) =>
          mdefer (drop_if_empty p key) (
            if cnt =? 0 then
              e ← list_pop p pop;
              match e with
              | None => mret (MakeBulkData None)
              | Some val => mret (MakeBulkData val)
              end
            else
              n ← list_Len p;
              res ← pop_many pop p (Z.to_nat (Z.min cnt (n + 1))) [];
              mret (MakeArrayData (Some res)))
      | Some _ => wrong_type
      end).

(** The optional count: 0 when absent, an error unless it is positive. *)
Definition pop_count (cmd : list slice) : M S (Z + RedisData) :=
  if zlen cmd =? 3 then
    a2 ← sarg cmd 2;
    match Atoi a2 with
    | inl cnt =>
        if cnt <=? 0 then mret (inr (MakeErrorData (lit "count value must be a positive integer")))
        else mret (inl cnt)
    | inr _ => mret (inr (MakeErrorData (lit "count value must be a positive integer")))
    end
  else mret (inl 0).

Definition rPopList (cmd : list slice) : M S RedisData :=
  ok ← is_cmd cmd "rpop";
  if negb ok then err "Server error"
  else if negb (zlen cmd =? 2) && negb (zlen cmd =? 3) then err "wrong number of arguments for 'rpop' command"
  else
    c ← pop_count cmd;
    match c with inr e => mret e | inl cnt => pop_body ORPop cmd cnt end.

Definition lPopList (cmd : list slice) : M S RedisData :=
  ok ← is_cmd cmd "lpop";
  if negb ok then err "Server error"
  else if negb (zlen cmd =? 2) && negb (zlen cmd =? 3) then err "wrong number of arguments for 'lpop' command"
  else
    c ← pop_count cmd;
    match c with inr e => mret e | inl cnt => pop_body OLPop cmd cnt end.

Definition lIndexList (cmd : list slice) : M S RedisData :=
  ok ← is_cmd cmd "lindex";
  if negb ok then err "Server error"
  else if negb (zlen cmd =? 3) then err "wrong number of arguments for 'lindex' command"
  else
    key ← sarg cmd 1;
    a2 ← sarg cmd 2;
    match Atoi a2 with
    | inr _ => err "index is not an integer"
    | inl index =>
        alive ← MemDb_CheckTTL key;
        if negb alive then mret (MakeBulkData None)
        else
          locks_RLock key;;
          mdefer (locks_RUnLock key) (
            v ← db_Get key;
            match v with
            | None => mret (MakeBulkData None)
            | Some (VList p) =>
                e ← list_pop p (OIndex index);
                match e with
                | None => mret MakeNullBulkData
                | Some val => mret (MakeBulkData val)
                end
            | Some _ => wrong_type
            end)
    end.

Definition lLenList (cmd : list slice) : M S RedisData :=
  ok ← is_cmd cmd "llen";
  if negb ok then err "Server error"
  else if negb (zlen cmd =? 2) then err "wrong number of arguments for 'llen' command"
  else
    key ← sarg cmd 1;
    alive ← MemDb_CheckTTL key;
    if negb alive then mret (MakeIntData 0)
    else
      locks_RLock key;;
      mdefer (locks_RUnLock key) (
        v ← db_Get key;
        match v with
        | None => mret (MakeIntData 0)
        | Some (VList p) => n ← list_Len p; mret (MakeIntData n)
        | Some _ => wrong_type
        end).

(** The options of LPOS, in pairs; an error is its text. *)
Fixpoint lpos_options (args : list slice) (rank count maxLen : option Z) : (option Z * option Z * option Z) + bytes :=
  match args with
  | o :: v :: args =>
      let name := ToLower (str o) in
      if beq name (lit "rank") then
        match Atoi (str v) with
        | inl rankVal =>
            if rankVal =? 0 then inr (lit "rank value should 1,2,3... or -1,-2,-3...")
            else lpos_options args (Some rankVal) count maxLen
        | inr _ => inr (lit "rank value should 1,2,3... or -1,-2,-3...")
        end
      else if beq name (lit "count") then
        match Atoi (str v) with
        | inl countVal =>
            if countVal <? 0 then inr (lit "count value is not an positive integer")
            else lpos_options args rank (Some countVal) maxLen
        | inr _ => inr (lit "count value is not an positive integer")
        end
      else if beq name (lit "maxlen") then
        match Atoi (str v) with
        | inl maxLenVal =>
            if maxLenVal <? 0 then inr (lit "maxlen value is not an positive integer")
            else lpos_options args rank count (Some maxLenVal)
        | inr _ => inr (lit "maxlen value is not an positive integer")
        end
      else inr (lit "unsupported option " ++ str o)
  | _ => inl (rank, count, maxLen)
  end.

Definition lpos_data (r : lpos_reply) : RedisData :=
  match r with
  | PNil => MakeNullBulkData
  | PInt n => MakeIntData n
  | PInts ns => MakeArrayData (Some (MakeIntData <$> ns))
  end.

Definition lPosList (cmd : list slice) : M S RedisData :=
  ok ← is_cmd cmd "lpos";
  if negb ok then err "Server error"
  else if (zlen cmd <? 3) || negb (Z.odd (zlen cmd)) then err "wrong number of arguments for 'lpos' command"
  else
    key ← sarg cmd 1;
    elem ← arg cmd 2;
    match lpos_options (drop 3 cmd) None None None with
    | inr e => mret (MakeErrorData e)
    | inl (rank, count, maxLen) =>
        alive ← MemDb_CheckTTL key;
        if negb alive then mret MakeNullBulkData
        else
          locks_RLock key;;
          mdefer (locks_RUnLock key) (
            tem ← db_Get key;
            match tem with
            | None => mret MakeNullBulkData
            | Some (VList p) =>
                r ← list_do p (OLPos elem rank count maxLen);
                match r with LPos r => mret (lpos_data r) | _ => mpanic end
            | Some _ => wrong_type
            end)
    end.

Definition RegisterListCommands (t : gmap bytes (executor (S := S))) : gmap bytes executor :=
  foldr (λ '(name, e), RegisterCommand (lit name) (replies e)) t
    [("llen", lLenList); ("lindex", lIndexList); ("lpop", lPopList); ("rpop", rPopList);
     ("lpush", lPushList); ("lpushx", lPushXList); ("rpush", rPushList); ("rpushx", rPushXList);
     ("lset", lSetList); ("lrem", lRemList); ("ltrim", lTrimList); ("lrange", lRangeList);
     ("lpos", lPosList); ("lmove", lMoveList)]%string.
End ListCmds.

(** ** Every handler is simulated by itself on the reference store *)
Section sim.
Context `{Host} {tree : Type → Type} `{!RBTree tree, !RBTreeLaws tree}.
Lemma sim_list_Len p : sim (tree := tree) (list_Len p) (list_Len p).
Proof. unfold list_Len. sim_auto. Qed.
Lemma sim_list_pop p o : sim (tree := tree) (list_pop p o) (list_pop p o).
Proof. unfold list_pop. sim_auto. Qed.
#[local] Hint Resolve sim_list_Len sim_list_pop : sim.
Lemma sim_drop_if_empty p key : sim (tree := tree) (drop_if_empty p key) (drop_if_empty p key).
Proof. unfold drop_if_empty. sim_auto. Qed.
Lemma sim_push_all push p args : sim (tree := tree) (push_all push p args) (push_all push p args).
Proof. unfold push_all. sim_auto. Qed.
Lemma sim_pop_many pop p cnt res : sim (tree := tree) (pop_many pop p cnt res) (pop_many pop p cnt res).
Proof. revert res. induction cnt; intros res; cbn [pop_many]; sim_auto. Qed.
#[local] Hint Resolve sim_drop_if_empty sim_push_all sim_pop_many : sim.
Lemma sim_pushx_body push key args : sim (tree := tree) (pushx_body push key args) (pushx_body push key args).
Proof. unfold pushx_body. sim_auto. Qed.
Lemma sim_push_body push key args : sim (tree := tree) (push_body push key args) (push_body push key args).
Proof. unfold push_body. sim_auto. Qed.
Lemma sim_pop_body pop cmd cnt : sim (tree := tree) (pop_body pop cmd cnt) (pop_body pop cmd cnt).
Proof. unfold pop_body. sim_auto. Qed.
Lemma sim_pop_count cmd : sim (tree := tree) (pop_count cmd) (pop_count cmd).
Proof. unfold pop_count. sim_auto. Qed.
#[local] Hint Resolve sim_pushx_body sim_push_body sim_pop_body sim_pop_count : sim.

Lemma sim_lMoveList cmd : sim (tree := tree) (lMoveList cmd) (lMoveList cmd).
Proof. unfold lMoveList. sim_auto. Qed.
Lemma sim_lRangeList cmd : sim (tree := tree) (lRangeList cmd) (lRangeList cmd).
Proof. unfold lRangeList. sim_auto. Qed.
Lemma sim_lTrimList cmd : sim (tree := tree) (lTrimList cmd) (lTrimList cmd).
Proof. unfold lTrimList. sim_auto. Qed.
Lemma sim_lRemList cmd : sim (tree := tree) (lRemList cmd) (lRemList cmd).
Proof. unfold lRemList. sim_auto. Qed.
Lemma sim_lSetList cmd : sim (tree := tree) (lSetList cmd) (lSetList cmd).
Proof. unfold lSetList. sim_auto. Qed.
Lemma sim_rPushXList cmd : sim (tree := tree) (rPushXList cmd) (rPushXList cmd).
Proof. unfold rPushXList. sim_auto. Qed.
Lemma sim_rPushList cmd : sim (tree := tree) (rPushList cmd) (rPushList cmd).
Proof. unfold rPushList. sim_auto. Qed.
Lemma sim_lPushXList cmd : sim (tree := tree) (lPushXList cmd) (lPushXList cmd).
Proof. unfold lPushXList. sim_auto. Qed.
Lemma sim_lPushList cmd : sim (tree := tree) (lPushList cmd) (lPushList cmd).
Proof. unfold lPushList. sim_auto. Qed.
Lemma sim_rPopList cmd : sim (tree := tree) (rPopList cmd) (rPopList cmd).
Proof. unfold rPopList. sim_auto. Qed.
Lemma sim_lPopList cmd : sim (tree := tree) (lPopList cmd) (lPopList cmd).
Proof. unfold lPopList. sim_auto. Qed.
Lemma sim_lPosList cmd : sim (tree := tree) (lPosList cmd) (lPosList cmd).
Proof. unfold lPosList. sim_auto. Qed.
Lemma sim_lIndexList cmd : sim (tree := tree) (lIndexList cmd) (lIndexList cmd).
Proof. unfold lIndexList. sim_auto. Qed.
Lemma sim_lLenList cmd : sim (tree := tree) (lLenList cmd) (lLenList cmd).
Proof. unfold lLenList. sim_auto. Qed.
End sim.
