(* ===== verification/SetCmds.v ===== *)
(** * Set commands

    [src/pkg/memdb/set.go]: SADD, SCARD, SDIFF, SDIFFSTORE, SINTER, SINTERSTORE,
    SISMEMBER, SMEMBERS, SMOVE, SPOP, SRANDMEMBER, SREM, SUNION and SUNIONSTORE.
    Set objects are shared through their pointers; a method that updates one
    reads the object, and writes it back. *)

From Stdlib Require Import Ascii String ZArith Lia.
From stdpp Require Import prelude gmap list fin_maps.
From S2P Require Import Prelude RESP Util CMap Heap TTL Locks ListStruct ListOps SetStruct HashStruct Store World Model.
Open Scope Z_scope.

Section SetCmds.
Context `{Host} {S : Type} `{!Store S}.

(** Methods of a set object that update it. *)
Definition set_Add (p : positive) (key : bytes) : M S Z :=
  s ← get_set p; let '(n, s) := Set_Add key s in put_set p s;; mret n.
Definition set_Remove (p : positive) (key : bytes) : M S Z :=
  s ← get_set p; let '(n, s) := Set_Remove key s in put_set p s;; mret n.
Definition set_Pop (p : positive) : M S bytes :=
  s ← get_set p; order ← range; let '(key, s) := Set_Pop order s in put_set p s;; mret key.
Definition set_Members (p : positive) : M S (list bytes) :=
  s ← get_set p; order ← range; mret (Set_Members order s).

Definition bulks (ks : list bytes) : RedisData :=
  MakeArrayData (Some ((λ k, MakeBulkData (Some k)) <$> ks)).

(** [defer func() { if set.Len() == 0 { m.db.Delete(key); m.DelTTL(key) } }()] *)
Definition drop_if_empty_set (p : positive) (key : bytes) : M S unit :=
  s ← get_set p;
  if Set_Len s =? 0 then db_Delete key;; MemDb_DelTTL key;; mret tt else mret tt.

(** The keys of [args] that [CheckTTL] reports alive. *)
Definition live_keys (args : list slice) : M S (list bytes) :=
  mfold (λ keys a, alive ← MemDb_CheckTTL (str a);
                   if alive : bool then mret (keys ++ [str a]) else mret keys) [] args.

(** The loop that collects the set objects of [keys]; a missing key is skipped,
    a value of another type ends it ([None]). *)
Fixpoint collect_sets (keys : list bytes) (sets : list positive) : M S (option (list positive)) :=
  match keys with
  | [] => mret (Some sets)
  | key :: keys =>
      tem ← db_Get key;
      match tem with
      | None => collect_sets keys sets
      | Some (VSet p) => collect_sets keys (sets ++ [p])
      | Some _ => mret None
      end
  end.

(** Reading the objects the pointers refer to. *)
Definition load_sets (ps : list positive) : M S (list (positive * GoSet)) :=
  mfold (λ acc p, s ← get_set p; mret (acc ++ [(p, s)])) [] ps.

(** The check that opens every ...STORE command: the destination, when it
    exists, is a set. *)
Definition dest_ok (desKey : bytes) : M S bool :=
  tem ← db_Get desKey;
  match tem with
  | None | Some (VSet _) => mret true
  | Some _ => mret false
  end.

(** Storing a result that is not empty. *)
Definition store_set (desKey : bytes) (res : GoSet) : M S RedisData :=
  (if negb (Set_Len res =? 0) then p ← new_set res; db_Set desKey (VSet p);; mret tt else mret tt);;
  mret (MakeIntData (Set_Len res)).

Definition sUnionStoreSet (cmd : list slice) : M S RedisData :=
  ok ← is_cmd cmd "sunionstore";
  if negb ok then err "Server error"
  else if zlen cmd <? 3 then err "wrong number of arguments for 'sunionstore' command"
  else
    desKey ← sarg cmd 1;
    MemDb_CheckTTL desKey;;
    d ← dest_ok desKey;
    if negb d then wrong_type
    else
      keys ← live_keys (drop 2 cmd);
      if zlen keys =? 0 then mret (MakeIntData 0)
      else
        locks_RLockMulti keys;;
        sets ← collect_sets keys [];
        match sets with
        | None => locks_RUnLockMulti keys;; wrong_type
        | Some [] => locks_RUnLockMulti keys;; mret MakeEmptyArrayData
        | Some (p :: ps) =>
            s ← get_set p;
            rest ← load_sets ps;
            let resSet := Set_Union s rest.*2 in
            locks_RUnLockMulti keys;;
            MemDb_CheckTTL desKey;;
            locks_Lock desKey;;
            locks_UnLock desKey;;
            d ← dest_ok desKey;
            if negb d then wrong_type else store_set desKey resSet
        end.

Definition sUnionSet (cmd : list slice) : M S RedisData :=
  ok ← is_cmd cmd "sunion";
  if negb ok then err "Server error"
  else if zlen cmd <? 2 then err "wrong number of arguments for 'sunion' command"
  else
    keys ← live_keys (drop 1 cmd);
    if zlen keys =? 0 then mret MakeEmptyArrayData
    else
      locks_RLockMulti keys;;
      mdefer (locks_RUnLockMulti keys) (
        sets ← collect_sets keys [];
        match sets with
        | None => wrong_type
        | Some [] => mret MakeEmptyArrayData
        | Some (p :: ps) =>
            s ← get_set p;
            rest ← load_sets ps;
            order ← range;
            mret (bulks (Set_Members order (Set_Union s rest.*2)))
        end).

Definition sRemSet (cmd : list slice) : M S RedisData :=
  ok ← is_cmd cmd "srem";
  if negb ok then err "Server error"
  else if zlen cmd <? 3 then err "wrong number of arguments for 'srem' command"
  else
    key ← sarg cmd 1;
    alive ← MemDb_CheckTTL key;
    if negb alive then mret (MakeIntData 0)
    else
      locks_Lock key;;
      mdefer (locks_UnLock key) (
        tem ← db_Get key;
        match tem with
        | None => mret (MakeIntData 0)
        | Some (VSet p) =>
            mdefer (drop_if_empty_set p key) (
              res ← mfold (λ res a, n ← set_Remove p (str a); mret (res + n)) 0 (drop 2 cmd);
              mret (MakeIntData res))
        | Some _ => wrong_type
        end).

(** [n] further random numbers: [Random] calls the generator at most once per
    element it returns or visits. *)
Definition random_source (n : nat) : M S (nat → Z → Z) :=
  base ← tick;
  mfold (λ _ _, tick;; mret tt) tt (seq 0 n);;
  mret (λ i, rand_Intn (base + i)).

Definition sRandMemberSet (cmd : list slice) : M S RedisData :=
  ok ← is_cmd cmd "srandmember";
  if negb ok then err "Server error"
  else if negb (zlen cmd =? 2) && negb (zlen cmd =? 3)
  then err "wrong number of arguments for 'srandmember' command"
  else
    c ← (if zlen cmd =? 3 then a2 ← sarg cmd 2; mret (Atoi a2) else mret (inl 1));
    match c with
    | inr _ => err "count value must be an integer"
    | inl count =>
        key ← sarg cmd 1;
        alive ← MemDb_CheckTTL key;
        if negb alive then mret MakeNullBulkData
        else
          locks_RLock key;;
          mdefer (locks_RUnLock key) (
            tem ← db_Get key;
            match tem with
            | None => mret MakeNullBulkData
            | Some (VSet p) =>
                s ← get_set p;
                order ← range;
                rnd ← random_source (size (table s) + Z.to_nat (Z.min (Z.abs count) maxAlloc));
                match Set_Random order rnd count s with
                | Ret [] => mret MakeNullBulkData
                | Ret members => mret (bulks members)
                | _ => mpanic
                end
            | Some _ => wrong_type
            end)
    end.

(** The pops of SPOP with a count; an empty string ends them.  Every pop that
    does not end them removes an element, so one more than the size bounds the
    loop. *)
Fixpoint spop_many (p : positive) (n : nat) (res : list bytes) : M S (list bytes) :=
  match n with
  | O => mret res
  | Datatypes.S n =>
      val ← set_Pop p;
      if beq val [] then mret res else spop_many p n (res ++ [val])
  end.

Definition sPopSet (cmd : list slice) : M S RedisData :=
  ok ← is_cmd cmd "spop";
  if negb ok then err "Server error"
  else if negb (zlen cmd =? 2) && negb (zlen cmd =? 3)
  then err "wrong number of arguments for 'spop' command"
  else
    c ← (if zlen cmd =? 3 then a2 ← sarg cmd 2; mret (Atoi a2) else mret (inl 1));
    match c with
    | inr _ => err "count value must be a positive integer"
    | inl count =>
        if count <? 0 then err "count value must be a positive integer"
        else
          key ← sarg cmd 1;
          alive ← MemDb_CheckTTL key;
          if negb alive then mret MakeNullBulkData
          else
            locks_Lock key;;
            mdefer (locks_UnLock key) (
              tem ← db_Get key;
              match tem with
              | None => mret MakeNullBulkData
              | Some (VSet p) =>
                  if count =? 0 then mret MakeEmptyArrayData
                  else
                    mdefer (drop_if_empty_set p key) (
                      if count =? 1 then val ← set_Pop p; mret (MakeBulkData (Some val))
                      else
                        s ← get_set p;
                        res ← spop_many p (Z.to_nat (Z.min count (Z.of_nat (size (table s)) + 1))) [];
                        mret (bulks res))
              | Some _ => wrong_type
              end)
    end.

Definition sMoveSet (cmd : list slice) : M S RedisData :=
  ok ← is_cmd cmd "smove";
  if negb ok then err "Server error"
  else if negb (zlen cmd =? 4) then err "wrong number of arguments for 'smove' command"
  else
    srcKey ← sarg cmd 1;
    desKey ← sarg cmd 2;
    val ← sarg cmd 3;
    MemDb_CheckTTL desKey;;
    alive ← MemDb_CheckTTL srcKey;
    if negb alive then mret (MakeIntData 0)
    else
      locks_LockMulti [srcKey; desKey];;
      mdefer (locks_UnLockMulti [srcKey; desKey]) (
        tem ← db_Get srcKey;
        match tem with
        | None => mret (MakeIntData 0)
        | Some (VSet srcSet) =>
            tem ← db_Get desKey;
            match tem with
            | None | Some (VSet _) =>
                '(desSet, desExist) ← (match tem with
                                       | Some (VSet p) => mret (p, true)
                                       | _ => p ← new_set NewSet; mret (p, false)
                                       end);
                res ← set_Remove srcSet val;
                if res =? 0 then mret (MakeIntData 0)
                else
                  set_Add desSet val;;
                  (if desExist : bool then mret tt else db_Set desKey (VSet desSet);; mret tt);;
                  mret (MakeIntData 1)
            | Some _ => wrong_type
            end
        | Some _ => wrong_type
        end).

Definition sMembersSet (cmd : list slice) : M S RedisData :=
  ok ← is_cmd cmd "smembers";
  if negb ok then err "Server error"
  else if negb (zlen cmd =? 2) then err "wrong number of arguments for 'smembers' command"
  else
    key ← sarg cmd 1;
    alive ← MemDb_CheckTTL key;
    if negb alive then mret MakeEmptyArrayData
    else
      locks_RLock key;;
      mdefer (locks_RUnLock key) (
        tem ← db_Get key;
        match tem with
        | None => mret MakeEmptyArrayData
        | Some (VSet p) => members ← set_Members p; mret (bulks members)
        | Some _ => wrong_type
        end).

Definition sIsMemberSet (cmd : list slice) : M S RedisData :=
  ok ← is_cmd cmd "sismember";
  if negb ok then err "Server error"
  else if negb (zlen cmd =? 3) then err "wrong number of arguments for 'sismember' command"
  else
    key ← sarg cmd 1;
    val ← sarg cmd 2;
    alive ← MemDb_CheckTTL key;
    if negb alive then mret (MakeIntData 0)
    else
      locks_RLock key;;
      mdefer (locks_RUnLock key) (
        tem ← db_Get key;
        match tem with
        | None => mret (MakeIntData 0)
        | Some (VSet p) =>
            s ← get_set p; mret (MakeIntData (if Set_Has val s then 1 else 0))
        | Some _ => wrong_type
        end).

(** The position of the shortest set, 0 when there is none. *)
Fixpoint shortest_from (i idx : nat) (n : Z) (sets : list (positive * GoSet)) : nat :=
  match sets with
  | [] => idx
  | s :: sets =>
      if Set_Len s.2 <? n then shortest_from (Datatypes.S i) i (Set_Len s.2) sets
      else shortest_from (Datatypes.S i) idx n sets
  end.
Definition shortest (sets : list (positive * GoSet)) : nat := shortest_from 0 0 MaxInt64 sets.

(** [primSet.Intersect(...)] over the collected sets; [sets[shortestSet]] panics
    when no key holds a set. *)
Definition intersect_sets (ps : list positive) : M S GoSet :=
  sets ← load_sets ps;
  let i := shortest sets in
  primSet ← Prelude.index sets i;
  mret (Set_Intersect primSet (take i sets ++ drop (Datatypes.S i) sets)).

Definition sInterStoreSet (cmd : list slice) : M S RedisData :=
  ok ← is_cmd cmd "sinterstore";
  if negb ok then err "Server error"
  else if zlen cmd <? 3 then err "wrong number of arguments for 'sinterstore' command"
  else
    desKey ← sarg cmd 1;
    MemDb_CheckTTL desKey;;
    d ← dest_ok desKey;
    if negb d then wrong_type
    else
      keys ← live_keys (drop 2 cmd);
      if zlen keys =? 0 then mret (MakeIntData 0)
      else
        locks_RLockMulti keys;;
        sets ← collect_sets keys [];
        match sets with
        | None => locks_RUnLockMulti keys;; wrong_type
        | Some ps =>
            interSet ← intersect_sets ps;
            locks_RUnLockMulti keys;;
            MemDb_CheckTTL desKey;;
            locks_Lock desKey;;
            mdefer (locks_UnLock desKey) (
              d ← dest_ok desKey;
              if negb d then wrong_type else store_set desKey interSet)
        end.

Definition sInterSet (cmd : list slice) : M S RedisData :=
  ok ← is_cmd cmd "sinter";
  if negb ok then err "Server error"
  else if zlen cmd <? 2 then err "wrong number of arguments for 'sinter' command"
  else
    let keys := str <$> drop 1 cmd in
    mfold (λ _ key, MemDb_CheckTTL key;; mret tt) tt keys;;
    locks_RLockMulti keys;;
    mdefer (locks_RUnLockMulti keys) (
      sets ← collect_sets keys [];
      match sets with
      | None => wrong_type
      | Some ps =>
          interSet ← intersect_sets ps;
          order ← range;
          mret (bulks (Set_Members order interSet))
      end).

Definition sDiffStoreSet (cmd : list slice) : M S RedisData :=
  ok ← is_cmd cmd "sdiffstore";
  if negb ok then err "Server error"
  else if zlen cmd <? 3 then err "wrong number of arguments for 'sdiffstore' command"
  else
    desKey ← sarg cmd 1;
    MemDb_CheckTTL desKey;;
    d ← dest_ok desKey;
    if negb d then wrong_type
    else
      keys ← live_keys (drop 2 cmd);
      match keys with
      | [] => mret (MakeIntData 0)
      | key0 :: keys' =>
          locks_RLockMulti keys;;
          tem ← db_Get key0;
          diffRes ← (match tem with
                     | None => mret (Some NewSet)
                     | Some (VSet p) =>
                         sets ← collect_sets keys' [];
                         match sets with
                         | None => mret None
                         | Some ps =>
                             primSet ← get_set p;
                             rest ← load_sets ps;
                             mret (Some (Set_Difference primSet rest.*2))
                         end
                     | Some _ => mret None
                     end);
          locks_RUnLockMulti keys;;
          match diffRes with
          | None => wrong_type
          | Some diffRes =>
              MemDb_CheckTTL desKey;;
              locks_Lock desKey;;
              mdefer (locks_UnLock desKey) (
                d ← dest_ok desKey;
                if negb d then wrong_type else store_set desKey diffRes)
          end
      end.

Definition sDiffSet (cmd : list slice) : M S RedisData :=
  ok ← is_cmd cmd "sdiff";
  if negb ok then err "Server error"
  else if zlen cmd <? 2 then err "wrong number of arguments for 'sdiff' command"
  else
    let keys := str <$> drop 1 cmd in
    mfold (λ _ key, MemDb_CheckTTL key;; mret tt) tt keys;;
    locks_RLockMulti keys;;
    mdefer (locks_RUnLockMulti keys) (
      key0 ← Prelude.index keys 0;
      tem ← db_Get key0;
      match tem with
      | None => mret MakeEmptyArrayData
      | Some (VSet p) =>
          if zlen keys =? 1 then members ← set_Members p; mret (bulks members)
          else
            sets ← collect_sets (drop 1 keys) [];
            match sets with
            | None => wrong_type
            | Some ps =>
                primSet ← get_set p;
                rest ← load_sets ps;
                order ← range;
                mret (bulks (Set_Members order (Set_Difference primSet rest.*2)))
            end
      | Some _ => wrong_type
      end).

Definition sCardSet (cmd : list slice) : M S RedisData :=
  ok ← is_cmd cmd "scard";
  if negb ok then err "Server error"
  else if negb (zlen cmd =? 2) then err "wrong number of arguments for 'scard' command"
  else
    key ← sarg cmd 1;
    alive ← MemDb_CheckTTL key;
    if negb alive then mret (MakeIntData 0)
    else
      locks_RLock key;;
      mdefer (locks_RUnLock key) (
        tem ← db_Get key;
        match tem with
        | None => mret (MakeIntData 0)
        | Some (VSet p) => s ← get_set p; mret (MakeIntData (Set_Len s))
        | Some _ => wrong_type
        end).

Definition sAddSet (cmd : list slice) : M S RedisData :=
  ok ← is_cmd cmd "sadd";
  if negb ok then err "Server error"
  else if zlen cmd <? 3 then err "wrong number of arguments for 'sadd' command"
  else
    key ← sarg cmd 1;
    MemDb_CheckTTL key;;
    locks_Lock key;;
    mdefer (locks_UnLock key) (
      tem ← db_Get key;
      tem ← (match tem with
             | Some v => mret v
             | None => p ← new_set NewSet; db_Set key (VSet p);; mret (VSet p)
             end);
      match tem with
      | VSet p =>
          res ← mfold (λ res a, n ← set_Add p (str a); mret (res + n)) 0 (drop 2 cmd);
          mret (MakeIntData res)
      | _ => wrong_type
      end).

Definition RegisterSetCommands (t : gmap bytes (executor (S := S))) : gmap bytes executor :=
  foldr (λ '(name, e), RegisterCommand (lit name) (replies e)) t
    [("sadd", sAddSet); ("scard", sCardSet); ("sdiff", sDiffSet); ("sdiffstore", sDiffStoreSet);
     ("sinter", sInterSet); ("sinterstore", sInterStoreSet); ("sismember", sIsMemberSet);
     ("smembers", sMembersSet); ("smove", sMoveSet); ("spop", sPopSet);
     ("srandmember", sRandMemberSet); ("srem", sRemSet); ("sunion", sUnionSet);
     ("sunionstore", sUnionStoreSet)]%string.
End SetCmds.

(** ** Every handler is simulated by itself on the reference store *)
Section sim.
Context `{Host} {tree : Type → Type} `{!RBTree tree, !RBTreeLaws tree}.
Lemma sim_index {A} (l : list A) i : sim (tree := tree) (Prelude.index l i) (Prelude.index l i).
Proof. unfold Prelude.index. sim_auto. Qed.
Lemma sim_set_Add p key : sim (tree := tree) (set_Add p key) (set_Add p key).
Proof. unfold set_Add. sim_auto. Qed.
Lemma sim_set_Remove p key : sim (tree := tree) (set_Remove p key) (set_Remove p key).
Proof. unfold set_Remove. sim_auto. Qed.
Lemma sim_set_Pop p : sim (tree := tree) (set_Pop p) (set_Pop p).
Proof. unfold set_Pop. sim_auto. Qed.
Lemma sim_set_Members p : sim (tree := tree) (set_Members p) (set_Members p).
Proof. unfold set_Members. sim_auto. Qed.
Lemma sim_drop_if_empty_set p key : sim (tree := tree) (drop_if_empty_set p key) (drop_if_empty_set p key).
Proof. unfold drop_if_empty_set. sim_auto. Qed.
Lemma sim_live_keys args : sim (tree := tree) (live_keys args) (live_keys args).
Proof. unfold live_keys. sim_auto. Qed.
Lemma sim_collect_sets keys sets : sim (tree := tree) (collect_sets keys sets) (collect_sets keys sets).
Proof. revert sets. induction keys; intros sets; cbn [collect_sets]; sim_auto. Qed.
Lemma sim_load_sets ps : sim (tree := tree) (load_sets ps) (load_sets ps).
Proof. unfold load_sets. sim_auto. Qed.
Lemma sim_dest_ok key : sim (tree := tree) (dest_ok key) (dest_ok key).
Proof. unfold dest_ok. sim_auto. Qed.
Lemma sim_store_set key s : sim (tree := tree) (store_set key s) (store_set key s).
Proof. unfold store_set. sim_auto. Qed.
Lemma sim_random_source n : sim (tree := tree) (random_source n) (random_source n).
Proof. unfold random_source. sim_auto. Qed.
#[local] Hint Resolve sim_index sim_set_Add sim_set_Remove sim_set_Pop sim_set_Members
  sim_drop_if_empty_set sim_live_keys sim_collect_sets sim_load_sets sim_dest_ok sim_store_set
  sim_random_source : sim.
Lemma sim_spop_many p n res : sim (tree := tree) (spop_many p n res) (spop_many p n res).
Proof. revert res. induction n; intros res; cbn [spop_many]; sim_auto. Qed.
Lemma sim_intersect_sets ps : sim (tree := tree) (intersect_sets ps) (intersect_sets ps).
Proof. unfold intersect_sets. sim_auto. Qed.
#[local] Hint Resolve sim_spop_many sim_intersect_sets : sim.

Lemma sim_sUnionStoreSet cmd : sim (tree := tree) (sUnionStoreSet cmd) (sUnionStoreSet cmd).
Proof. unfold sUnionStoreSet. sim_auto. Qed.
Lemma sim_sUnionSet cmd : sim (tree := tree) (sUnionSet cmd) (sUnionSet cmd).
Proof. unfold sUnionSet. sim_auto. Qed.
Lemma sim_sRemSet cmd : sim (tree := tree) (sRemSet cmd) (sRemSet cmd).
Proof. unfold sRemSet. sim_auto. Qed.
Lemma sim_sRandMemberSet cmd : sim (tree := tree) (sRandMemberSet cmd) (sRandMemberSet cmd).
Proof. unfold sRandMemberSet. sim_auto. Qed.
Lemma sim_sPopSet cmd : sim (tree := tree) (sPopSet cmd) (sPopSet cmd).
Proof. unfold sPopSet. sim_auto. Qed.
Lemma sim_sMoveSet cmd : sim (tree := tree) (sMoveSet cmd) (sMoveSet cmd).
Proof. unfold sMoveSet. sim_auto. Qed.
Lemma sim_sMembersSet cmd : sim (tree := tree) (sMembersSet cmd) (sMembersSet cmd).
Proof. unfold sMembersSet. sim_auto. Qed.
Lemma sim_sIsMemberSet cmd : sim (tree := tree) (sIsMemberSet cmd) (sIsMemberSet cmd).
Proof. unfold sIsMemberSet. sim_auto. Qed.
Lemma sim_sInterStoreSet cmd : sim (tree := tree) (sInterStoreSet cmd) (sInterStoreSet cmd).
Proof. unfold sInterStoreSet. sim_auto. Qed.
Lemma sim_sInterSet cmd : sim (tree := tree) (sInterSet cmd) (sInterSet cmd).
Proof. unfold sInterSet. sim_auto. Qed.
Lemma sim_sDiffStoreSet cmd : sim (tree := tree) (sDiffStoreSet cmd) (sDiffStoreSet cmd).
Proof. unfold sDiffStoreSet. sim_auto. Qed.
Lemma sim_sDiffSet cmd : sim (tree := tree) (sDiffSet cmd) (sDiffSet cmd).
Proof. unfold sDiffSet. sim_auto. Qed.
Lemma sim_sCardSet cmd : sim (tree := tree) (sCardSet cmd) (sCardSet cmd).
Proof. unfold sCardSet. sim_auto. Qed.
Lemma sim_sAddSet cmd : sim (tree := tree) (sAddSet cmd) (sAddSet cmd).
Proof. unfold sAddSet. sim_auto. Qed.
End sim.
