(* ===== verification/HashCmds.v ===== *)
(** * Hash commands

    [src/pkg/memdb/hash.go]: HDEL, HEXISTS, HGET, HGETALL, HINCRBY, HKEYS, HLEN,
    HINCRBYFLOAT, HMGET, HSET, HSETNX, HVALS, HSTRLEN and HRANDFIELD. *)

From Stdlib Require Import Ascii String ZArith Lia.
From stdpp Require Import prelude gmap list fin_maps.
From S2P Require Import Prelude RESP Util CMap Heap TTL Locks ListStruct ListOps SetStruct HashStruct Store World Model.
Open Scope Z_scope.

(** A loop that never ends keeps its goroutine, and the locks it holds. *)
Definition mblock {S A} : M S A := λ s, (Blocks, s).
Definition of_outcome {S A} (o : outcome A) : M S A :=
  match o with Ret a => mret a | Blocks => mblock | _ => mpanic end.

Section HashCmds.
Context `{Host} {S : Type} `{!Store S}.

(** The hash of [key], created and stored when it is missing; [None] when the
    key holds another type. *)
Definition hash_for_update (key : bytes) : M S (option positive) :=
  tem ← db_Get key;
  match tem with
  | None => p ← new_hash; db_Set key (VHash p);; mret (Some p)
  | Some (VHash p) => mret (Some p)
  | Some _ => mret None
  end.

(** The frame of the reading commands: [missing] is the reply for an absent or
    expired key, [body] reads the hash under the read lock. *)
Definition hash_read (key : bytes) (missing : RedisData) (body : Hash → M S RedisData) : M S RedisData :=
  alive ← MemDb_CheckTTL key;
  if negb alive then mret missing
  else
    locks_RLock key;;
    mdefer (locks_RUnLock key) (
      tem ← db_Get key;
      match tem with
      | None => mret missing
      | Some (VHash p) => h ← get_hash p; body h
      | Some _ => wrong_type
      end).

(** The orders of the next [n] visits of a map. *)
Definition orders_source (n : nat) : M S (nat → list bytes → list bytes) :=
  base ← tick;
  mfold (λ _ _, tick;; mret tt) tt (seq 0 n);;
  mret (λ i, range_order (base + i)).

Definition hRandFieldHash (cmd : list slice) : M S RedisData :=
  ok ← is_cmd cmd "hrandfield";
  if negb ok then err "server error"
  else if negb (zlen cmd =? 2) && negb (zlen cmd =? 3) && negb (zlen cmd =? 4)
  then err "wrong number of arguments for 'hrandfield' command"
  else
    key ← sarg cmd 1;
    c ← (if 3 <=? zlen cmd then a2 ← sarg cmd 2; mret (Atoi a2) else mret (inl 1));
    match c with
    | inr _ => err "err: count value must be integer"
    | inl count =>
        opt ← (if zlen cmd =? 4 then
                 a3 ← sarg cmd 3;
                 if beq (ToLower a3) (lit "withvalues") then mret (inl true)
                 else mret (inr (MakeErrorData (lit "command option error, not support " ++ a3 ++ lit " option")))
               else mret (inl false));
        match opt with
        | inr e => mret e
        | inl withValues =>
            hash_read key MakeEmptyArrayData (λ h,
              orders ← orders_source (Z.to_nat (Z.min (Z.abs count) maxAlloc));
              if withValues : bool then
                fields ← of_outcome (Hash_RandomWithValue orders count h);
                mret (MakeArrayData (Some (MakeBulkData <$> fields)))
              else
                fields ← of_outcome (Hash_Random orders count h);
                mret (MakeArrayData (Some ((λ v, MakeBulkData (Some v)) <$> fields))))
        end
    end.

Definition hStrLenHash (cmd : list slice) : M S RedisData :=
  ok ← is_cmd cmd "hstrlen";
  if negb ok then err "server error"
  else if negb (zlen cmd =? 3) then err "wrong number of arguments for 'hstrlen' command"
  else
    key ← sarg cmd 1;
    field ← sarg cmd 2;
    hash_read key (MakeIntData 0) (λ h, mret (MakeIntData (Hash_StrLen field h))).

Definition hSetNxHash (cmd : list slice) : M S RedisData :=
  ok ← is_cmd cmd "hsetnx";
  if negb ok then err "server error"
  else if negb (zlen cmd =? 4) then err "wrong number of arguments for 'hsetnx' command"
  else
    key ← sarg cmd 1;
    field ← sarg cmd 2;
    value ← arg cmd 3;
    MemDb_CheckTTL key;;
    locks_Lock key;;
    mdefer (locks_UnLock key) (
      r ← hash_for_update key;
      match r with
      | None => wrong_type
      | Some p =>
          h ← get_hash p;
          if Hash_Exist field h then mret (MakeIntData 0)
          else put_hash p (Hash_Set field value h);; mret (MakeIntData 1)
      end).

Definition hIncrByHash (cmd : list slice) : M S RedisData :=
  ok ← is_cmd cmd "hincrby";
  if negb ok then err "server error"
  else if negb (zlen cmd =? 4) then err "wrong number of arguments for 'hincrby' command"
  else
    key ← sarg cmd 1;
    field ← sarg cmd 2;
    a3 ← sarg cmd 3;
    match Atoi a3 with
    | inr _ => err "incr value must be an integer"
    | inl incr =>
        MemDb_CheckTTL key;;
        locks_Lock key;;
        mdefer (locks_UnLock key) (
          r ← hash_for_update key;
          match r with
          | None => wrong_type
          | Some p =>
              h ← get_hash p;
              let '(res, h) := Hash_IncrBy field incr h in
              put_hash p h;;
              match res with
              | None => err "value is not an integer"
              | Some n => mret (MakeIntData n)
              end
          end)
    end.

Definition hValsHash (cmd : list slice) : M S RedisData :=
  ok ← is_cmd cmd "hvals";
  if negb ok then err "server error"
  else if negb (zlen cmd =? 2) then err "wrong number of arguments for 'hvals' command"
  else
    key ← sarg cmd 1;
    hash_read key MakeEmptyArrayData (λ h,
      order ← range;
      mret (MakeArrayData (Some (MakeBulkData <$> Hash_Values order h)))).

Definition hKeysHash (cmd : list slice) : M S RedisData :=
  ok ← is_cmd cmd "hkeys";
  if negb ok then err "server error"
  else if negb (zlen cmd =? 2) then err "wrong number of arguments for 'hkeys' command"
  else
    key ← sarg cmd 1;
    hash_read key MakeEmptyArrayData (λ h,
      order ← range;
      mret (MakeArrayData (Some ((λ v, MakeBulkData (Some v)) <$> Hash_Keys order h)))).

Definition hLenHash (cmd : list slice) : M S RedisData :=
  ok ← is_cmd cmd "hlen";
  if negb ok then err "Server error"
  else if negb (zlen cmd =? 2) then err "wrong number of arguments for 'hlen' command"
  else key ← sarg cmd 1; hash_read key (MakeIntData 0) (λ h, mret (MakeIntData (Hash_Len h))).

(** The pairs of HSET; [i+1] is in range because the number of arguments is even. *)
Fixpoint hset_loop (args : list slice) (added : Z) (h : Hash) : Z * Hash :=
  match args with
  | f :: v :: args =>
      hset_loop args (if htable h !! str f is Some _ then added else added + 1) (Hash_Set (str f) v h)
  | _ => (added, h)
  end.

Definition hSetHash (cmd : list slice) : M S RedisData :=
  ok ← is_cmd cmd "hset";
  if negb ok then err "Server error"
  else if (zlen cmd <? 4) || Z.odd (zlen cmd) then err "wrong number of arguments for 'hset' command"
  else
    key ← sarg cmd 1;
    MemDb_CheckTTL key;;
    locks_Lock key;;
    mdefer (locks_UnLock key) (
      r ← hash_for_update key;
      match r with
      | None => wrong_type
      | Some p =>
          h ← get_hash p;
          let '(addedCount, h) := hset_loop (drop 2 cmd) 0 h in
          put_hash p h;;
          mret (MakeIntData addedCount)
      end).

(** A value of HGET and HMGET: an empty one is reported as nil. *)
Definition hash_bulk (data : slice) : RedisData :=
  if slen data =? 0 then MakeBulkData None else MakeBulkData data.

Definition hGetHash (cmd : list slice) : M S RedisData :=
  ok ← is_cmd cmd "hget";
  if negb ok then err "Server error"
  else if negb (zlen cmd =? 3) then err "wrong number of arguments for 'hget' command"
  else
    key ← sarg cmd 1;
    hash_read key MakeNullBulkData (λ h,
      field ← sarg cmd 2;
      mret (hash_bulk (Hash_Get field h))).

Definition hMGetHash (cmd : list slice) : M S RedisData :=
  ok ← is_cmd cmd "hmget";
  if negb ok then err "Server error"
  else if zlen cmd <? 3 then err "wrong number of arguments for 'hmget' command"
  else
    key ← sarg cmd 1;
    hash_read key (MakeArrayData (Some ((λ _, MakeBulkData None) <$> drop 2 cmd))) (λ h,
      mret (MakeArrayData (Some ((λ f, hash_bulk (Hash_Get (str f) h)) <$> drop 2 cmd)))).

Definition hDelHash (cmd : list slice) : M S RedisData :=
  ok ← is_cmd cmd "hdel";
  if negb ok then err "Server error"
  else if zlen cmd <? 3 then err "wrong number of arguments for 'hdel' command"
  else
    key ← sarg cmd 1;
    alive ← MemDb_CheckTTL key;
    if negb alive then mret (MakeIntData 0)
    else
      locks_Lock key;;
      mdefer (locks_UnLock key) (
        tem ← db_Get key;
        match tem with
        | None => mret (MakeIntData 0)
        | Some (VHash p) =>
            mdefer (h ← get_hash p;
                    if Hash_IsEmpty h then db_Delete key;; MemDb_DelTTL key;; mret tt else mret tt)
              (res ← mfold (λ res a,
                 h ← get_hash p;
                 let '(n, h) := Hash_Del (str a) h in
                 put_hash p h;;
                 mret (res + n)) 0 (drop 2 cmd);
               mret (MakeIntData res))
        | Some _ => wrong_type
        end).

Definition hExistsHash (cmd : list slice) : M S RedisData :=
  ok ← is_cmd cmd "hexists";
  if negb ok then err "Server error"
  else if negb (zlen cmd =? 3) then err "wrong number of arguments for 'hexists' command"
  else
    key ← sarg cmd 1;
    hash_read key (MakeIntData 0) (λ h,
      field ← sarg cmd 2;
      mret (MakeIntData (if Hash_Exist field h then 1 else 0))).

Definition hGetAllHash (cmd : list slice) : M S RedisData :=
  ok ← is_cmd cmd "hgetall";
  if negb ok then err "Server error"
  else if negb (zlen cmd =? 2) then err "wrong number of arguments for 'hgetall' command"
  else
    key ← sarg cmd 1;
    hash_read key MakeEmptyArrayData (λ h,
      order ← range;
      mret (MakeArrayData (Some (flat_map (λ k, [MakeBulkData (Some k); MakeBulkData (Hash_Get k h)])
                                   (Hash_Keys order h))))).

Definition hIncrByFloatHash (cmd : list slice) : M S RedisData :=
  ok ← is_cmd cmd "hincrbyfloat";
  if negb ok then err "server error"
  else if negb (zlen cmd =? 4) then err "wrong number of arguments for 'hincrbyfloat' command"
  else
    key ← sarg cmd 1;
    field ← sarg cmd 2;
    a3 ← sarg cmd 3;
    match ParseFloat a3 with
    | None => err "incr value must be a float"
    | Some incr =>
        MemDb_CheckTTL key;;
        locks_Lock key;;
        mdefer (locks_UnLock key) (
          r ← hash_for_update key;
          match r with
          | None => wrong_type
          | Some p =>
              h ← get_hash p;
              let '(res, h) := Hash_IncrByFloat field incr h in
              put_hash p h;;
              match res with
              | None => err "value is not a float"
              | Some f => mret (MakeBulkData (Some (FormatFloat f)))
              end
          end)
    end.

Definition RegisterHashCommands (t : gmap bytes (executor (S := S))) : gmap bytes executor :=
  foldr (λ '(name, e), RegisterCommand (lit name) (replies e)) t
    [("hdel", hDelHash); ("hexists", hExistsHash); ("hget", hGetHash); ("hgetall", hGetAllHash);
     ("hincrby", hIncrByHash); ("hincrbyfloat", hIncrByFloatHash); ("hkeys", hKeysHash); ("hlen", hLenHash); ("hmget", hMGetHash);
     ("hset", hSetHash); ("hsetnx", hSetNxHash); ("hvals", hValsHash); ("hstrlen", hStrLenHash);
     ("hrandfield", hRandFieldHash)]%string.
End HashCmds.

(** ** Every handler is simulated by itself on the reference store *)
Section sim.
Context `{Host} {tree : Type → Type} `{!RBTree tree, !RBTreeLaws tree}.
Lemma sim_of_outcome {A} (o : outcome A) : sim (tree := tree) (of_outcome o) (of_outcome o).
Proof. destruct o; unfold of_outcome; [sim_auto..|]. by intros w m Hr. Qed.
Lemma sim_hash_for_update key : sim (tree := tree) (hash_for_update key) (hash_for_update key).
Proof. unfold hash_for_update. sim_auto. Qed.
Lemma sim_hash_read key missing (b : Hash → M (World tree) RedisData) b' :
  (∀ h, sim (b h) (b' h)) → sim (tree := tree) (hash_read key missing b) (hash_read key missing b').
Proof. intros Hb. unfold hash_read. sim_auto. Qed.
Lemma sim_orders_source n : sim (tree := tree) (orders_source n) (orders_source n).
Proof. unfold orders_source. sim_auto. Qed.
#[local] Hint Resolve sim_of_outcome sim_hash_for_update sim_orders_source : sim.
#[local] Hint Extern 1 (sim (hash_read _ _ _) _) => (apply sim_hash_read; intros ?; sim_auto) : sim.

Lemma sim_hRandFieldHash cmd : sim (tree := tree) (hRandFieldHash cmd) (hRandFieldHash cmd).
Proof. unfold hRandFieldHash. sim_auto. Qed.
Lemma sim_hStrLenHash cmd : sim (tree := tree) (hStrLenHash cmd) (hStrLenHash cmd).
Proof. unfold hStrLenHash. sim_auto. Qed.
Lemma sim_hSetNxHash cmd : sim (tree := tree) (hSetNxHash cmd) (hSetNxHash cmd).
Proof. unfold hSetNxHash. sim_auto. Qed.
Lemma sim_hIncrByHash cmd : sim (tree := tree) (hIncrByHash cmd) (hIncrByHash cmd).
Proof. unfold hIncrByHash. sim_auto. Qed.
Lemma sim_hIncrByFloatHash cmd : sim (tree := tree) (hIncrByFloatHash cmd) (hIncrByFloatHash cmd).
Proof. unfold hIncrByFloatHash. sim_auto. Qed.
Lemma sim_hValsHash cmd : sim (tree := tree) (hValsHash cmd) (hValsHash cmd).
Proof. unfold hValsHash. sim_auto. Qed.
Lemma sim_hKeysHash cmd : sim (tree := tree) (hKeysHash cmd) (hKeysHash cmd).
Proof. unfold hKeysHash. sim_auto. Qed.
Lemma sim_hLenHash cmd : sim (tree := tree) (hLenHash cmd) (hLenHash cmd).
Proof. unfold hLenHash. sim_auto. Qed.
Lemma sim_hSetHash cmd : sim (tree := tree) (hSetHash cmd) (hSetHash cmd).
Proof. unfold hSetHash. sim_auto. Qed.
Lemma sim_hGetHash cmd : sim (tree := tree) (hGetHash cmd) (hGetHash cmd).
Proof. unfold hGetHash. sim_auto. Qed.
Lemma sim_hMGetHash cmd : sim (tree := tree) (hMGetHash cmd) (hMGetHash cmd).
Proof. unfold hMGetHash. sim_auto. Qed.
Lemma sim_hDelHash cmd : sim (tree := tree) (hDelHash cmd) (hDelHash cmd).
Proof. unfold hDelHash. sim_auto. Qed.
Lemma sim_hExistsHash cmd : sim (tree := tree) (hExistsHash cmd) (hExistsHash cmd).
Proof. unfold hExistsHash. sim_auto. Qed.
Lemma sim_hGetAllHash cmd : sim (tree := tree) (hGetAllHash cmd) (hGetAllHash cmd).
Proof. unfold hGetAllHash. sim_auto. Qed.
End sim.
