(* ===== verification/ZSetCmds.v ===== *)
(** * Sorted set commands

    [src/pkg/memdb/zset.go]: all thirteen commands. *)

From S2P Require Import Prelude Float ZSetStruct RESP Util CMap Heap TTL Locks ListStruct ListOps SetStruct HashStruct Store World Model.
From Stdlib Require Import Ascii String ZArith Lia SpecFloat.
From stdpp Require Import prelude gmap list fin_maps.
Open Scope Z_scope.

Section ZSetCmds.
Context `{Host} {S : Type} `{!Store S}.

(** The random numbers of one [randomLevel]: at most [MaxLevel] are drawn. *)
Definition level_source : M S (nat → float64) :=
  base ← tick;
  mfold (λ _ _, tick;; mret tt) tt (seq 1 (MaxLevel - 1));;
  mret (λ i, rand_Float64 (base + i)).

(** The sorted set of [key], created and stored when it is missing; [None] when the
    key holds another type. *)
Definition zset_for_update (key : bytes) : M S (option positive) :=
  temp ← db_Get key;
  match temp with
  | None => p ← new_zset; db_Set key (VZSet p);; mret (Some p)
  | Some (VZSet p) => mret (Some p)
  | Some _ => mret None
  end.

(** The body of the commands that need the key to exist. *)
Definition with_zset (key : bytes) (missing : RedisData) (body : positive → M S RedisData) : M S RedisData :=
  temp ← db_Get key;
  match temp with
  | None => mret missing
  | Some (VZSet p) => body p
  | Some _ => wrong_type
  end.
Definition zset_read (key : bytes) (missing : RedisData) (body : positive → M S RedisData) : M S RedisData :=
  locks_RLock key;; mdefer (locks_RUnLock key) (with_zset key missing body).
Definition zset_write (key : bytes) (missing : RedisData) (body : positive → M S RedisData) : M S RedisData :=
  locks_Lock key;; mdefer (locks_UnLock key) (with_zset key missing body).

(** The members, each followed by its score if asked for. *)
Definition entries_data (withScores : bool) (l : list (bytes * float64)) : RedisData :=
  if withScores then
    MakeArrayData (Some (flat_map (λ e, [MakeBulkData (Some e.1); MakeBulkData (Some (Sprintf_v e.2))]) l))
  else MakeArrayData (Some ((λ e, MakeBulkData (Some e.1)) <$> l)).

(** The pairs of ZADD; [i+1] is in range because the number of arguments is even.
    An invalid score ends the command after the earlier pairs were added. *)
Fixpoint zadd_loop (p : positive) (args : list slice) (res : Z) : M S RedisData :=
  match args with
  | s :: m :: args =>
      match ParseFloat (str s) with
      | None => err "ERR value is not a valid float"
      | Some score =>
          rnd ← level_source;
          added ← on_zset p (ZSet_Add rnd (str m) score);
          zadd_loop p args (if added : bool then res + 1 else res)
      end
  | _ => mret (MakeIntData res)
  end.

Definition zAddZset (cmd : list slice) : M S (option RedisData) :=
  ok ← is_cmd cmd "zadd";
  if negb ok then mret None
  else
    r ← (if (zlen cmd <? 3) || Z.odd (zlen cmd) then err "wrong number of arguments for 'zadd' command"
         else
           key ← sarg cmd 1;
           MemDb_CheckTTL key;;
           locks_Lock key;;
           mdefer (locks_UnLock key) (
             r ← zset_for_update key;
             match r with
             | None => wrong_type
             | Some p => zadd_loop p (drop 2 cmd) 0
             end));
    mret (Some r).

Definition zCardZset (cmd : list slice) : M S RedisData :=
  ok ← is_cmd cmd "zcard";
  if negb ok || negb (zlen cmd =? 2) then err "ERR wrong number of arguments for 'zcard' command"
  else
    key ← sarg cmd 1;
    alive ← MemDb_CheckTTL key;
    if negb alive then mret (MakeIntData 0)
    else zset_read key (MakeIntData 0) (λ p, n ← on_zset p ZSet_Len; mret (MakeIntData n)).

Definition zCountZset (cmd : list slice) : M S RedisData :=
  ok ← is_cmd cmd "zcount";
  if negb ok || negb (zlen cmd =? 4) then err "ERR wrong number of arguments for 'zcount' command"
  else
    key ← sarg cmd 1;
    alive ← MemDb_CheckTTL key;
    if negb alive then mret (MakeIntData 0)
    else
      a2 ← sarg cmd 2;
      match ParseFloat a2 with
      | None => err "ERR min value is not a valid float"
      | Some min =>
          a3 ← sarg cmd 3;
          match ParseFloat a3 with
          | None => err "ERR max value is not a valid float"
          | Some max => zset_read key (MakeIntData 0) (λ p, n ← on_zset p (ZSet_Count min max); mret (MakeIntData n))
          end
      end.

(** ZRANGE and ZREVRANGE differ in the method they call. *)
Definition range_cmd (name : string) (error : string)
    (method : Z → Z → ZM (option (list (bytes * float64)))) (cmd : list slice) : M S RedisData :=
  ok ← is_cmd cmd name;
  if negb ok || (zlen cmd <? 4) then err error
  else
    key ← sarg cmd 1;
    alive ← MemDb_CheckTTL key;
    if negb alive then mret (MakeArrayData None)
    else
      a2 ← sarg cmd 2;
      match Atoi a2 with
      | inr _ => err "ERR start value is not an integer"
      | inl start =>
          a3 ← sarg cmd 3;
          match Atoi a3 with
          | inr _ => err "ERR stop value is not an integer"
          | inl stop =>
              withScores ← (if zlen cmd =? 5 then a4 ← sarg cmd 4; mret (beq (ToLower a4) (lit "withscores")) else mret false);
              zset_read key (MakeArrayData None) (λ p,
                r ← on_zset p (method start stop);
                mret (entries_data withScores (default [] r)))
          end
      end.
Definition zRangeZset : list slice → M S RedisData :=
  range_cmd "zrange" "ERR wrong number of arguments for 'zrange' command" ZSet_Range.
Definition zRevRangeZset : list slice → M S RedisData :=
  range_cmd "zrevrange" "ERR wrong number of arguments for 'zrevrange' command" ZSet_RevRange.

(** ZRANK and ZREVRANK differ in the method they call. *)
Definition rank_cmd (name : string) (error : string) (method : bytes → ZM Z) (cmd : list slice) : M S RedisData :=
  ok ← is_cmd cmd name;
  if negb ok || negb (zlen cmd =? 3) then err error
  else
    key ← sarg cmd 1;
    alive ← MemDb_CheckTTL key;
    if negb alive then mret MakeNullBulkData
    else
      member ← sarg cmd 2;
      zset_read key MakeNullBulkData (λ p,
        rank ← on_zset p (method member);
        mret (if rank =? -1 then MakeNullBulkData else MakeIntData rank)).
Definition zRankZset : list slice → M S RedisData :=
  rank_cmd "zrank" "ERR wrong number of arguments for 'zrank' command" ZSet_Rank.
Definition zRevRankZset : list slice → M S RedisData :=
  rank_cmd "zrevrank" "ERR wrong number of arguments for 'zrevrank' command" ZSet_RevRank.

Definition zRemZset (cmd : list slice) : M S RedisData :=
  ok ← is_cmd cmd "zrem";
  if negb ok || (zlen cmd <? 3) then err "ERR wrong number of arguments for 'zrem' command"
  else
    key ← sarg cmd 1;
    alive ← MemDb_CheckTTL key;
    if negb alive then mret (MakeIntData 0)
    else
      zset_write key (MakeIntData 0) (λ p,
        removed ← mfold (λ removed a,
          b ← on_zset p (ZSet_Remove (str a));
          mret (if b : bool then removed + 1 else removed)) 0 (drop 2 cmd);
        mret (MakeIntData removed)).

Definition zScoreZset (cmd : list slice) : M S RedisData :=
  ok ← is_cmd cmd "zscore";
  if negb ok || negb (zlen cmd =? 3) then err "ERR wrong number of arguments for 'zscore' command"
  else
    key ← sarg cmd 1;
    alive ← MemDb_CheckTTL key;
    if negb alive then mret MakeNullBulkData
    else
      member ← sarg cmd 2;
      zset_read key MakeNullBulkData (λ p,
        score ← on_zset p (ZSet_Get member);
        mret (if IsNaN score then MakeNullBulkData else MakeBulkData (Some (Sprintf_v score)))).

(** The bounds of a range of scores, as ZRANGEBYSCORE and ZREMRANGEBYSCORE read them. *)
Definition parse_min (s : bytes) : option float64 := if beq s (lit "-inf") then Some (Inf false) else ParseFloat s.
Definition parse_max (s : bytes) : option float64 :=
  if beq s (lit "+inf") || beq s (lit "inf") then Some (Inf true) else ParseFloat s.

(** [None] are the two error replies. *)
Definition score_bounds (cmd : list slice) (body : float64 → float64 → M S RedisData) : M S RedisData :=
  minStr ← sarg cmd 2;
  match parse_min minStr with
  | None => err "ERR min value is not a valid float"
  | Some min =>
      maxStr ← sarg cmd 3;
      match parse_max maxStr with
      | None => err "ERR max value is not a valid float"
      | Some max => body min max
      end
  end.

(** The optional arguments of ZRANGEBYSCORE, from index 4 on; an error is its text. *)
Fixpoint range_options (args : list slice) (withScores : bool) (offset count : Z) : (bool * Z * Z) + string :=
  match args with
  | [] => inl (withScores, offset, count)
  | a :: args =>
      let arg := ToLower (str a) in
      if beq arg (lit "withscores") then range_options args true offset count
      else if beq arg (lit "limit") then
        match args with
        | o :: c :: args' =>
            match Atoi (str o), Atoi (str c) with
            | inr _, _ => inr "ERR offset value is not an integer"%string
            | inl _, inr _ => inr "ERR count value is not an integer"%string
            | inl offset, inl count => range_options args' withScores offset count
            end
        | _ => range_options args withScores offset count
        end
      else range_options args withScores offset count
  end.

Definition zRangeByScoreZset (cmd : list slice) : M S RedisData :=
  ok ← is_cmd cmd "zrangebyscore";
  if negb ok || (zlen cmd <? 4) then err "ERR wrong number of arguments for 'zrangebyscore' command"
  else
    key ← sarg cmd 1;
    alive ← MemDb_CheckTTL key;
    if negb alive then mret (MakeArrayData None)
    else
      score_bounds cmd (λ min max,
        match range_options (drop 4 cmd) false 0 (-1) with
        | inr e => err e
        | inl (withScores, offset, count) =>
            zset_read key (MakeArrayData None) (λ p,
              r ← on_zset p (ZSet_RangeByScore min max offset count);
              mret (entries_data withScores r))
        end).

Definition zIncrByZset (cmd : list slice) : M S RedisData :=
  ok ← is_cmd cmd "zincrby";
  if negb ok || negb (zlen cmd =? 4) then err "ERR wrong number of arguments for 'zincrby' command"
  else
    key ← sarg cmd 1;
    a2 ← sarg cmd 2;
    match ParseFloat a2 with
    | None => err "ERR increment value is not a valid float"
    | Some incr =>
        member ← sarg cmd 3;
        MemDb_CheckTTL key;;
        locks_Lock key;;
        mdefer (locks_UnLock key) (
          r ← zset_for_update key;
          match r with
          | None => wrong_type
          | Some p =>
              rnd ← level_source;
              newScore ← on_zset p (ZSet_IncrBy rnd member incr);
              mret (MakeBulkData (Some (Sprintf_v newScore)))
          end)
    end.

Definition zRemRangeByRankZset (cmd : list slice) : M S RedisData :=
  ok ← is_cmd cmd "zremrangebyrank";
  if negb ok || negb (zlen cmd =? 4) then err "ERR wrong number of arguments for 'zremrangebyrank' command"
  else
    key ← sarg cmd 1;
    alive ← MemDb_CheckTTL key;
    if negb alive then mret (MakeIntData 0)
    else
      a2 ← sarg cmd 2;
      match Atoi a2 with
      | inr _ => err "ERR start value is not an integer"
      | inl start =>
          a3 ← sarg cmd 3;
          match Atoi a3 with
          | inr _ => err "ERR stop value is not an integer"
          | inl stop =>
              zset_write key (MakeIntData 0) (λ p, n ← on_zset p (ZSet_RemRangeByRank start stop); mret (MakeIntData n))
          end
      end.

Definition zRemRangeByScoreZset (cmd : list slice) : M S RedisData :=
  ok ← is_cmd cmd "zremrangebyscore";
  if negb ok || negb (zlen cmd =? 4) then err "ERR wrong number of arguments for 'zremrangebyscore' command"
  else
    key ← sarg cmd 1;
    alive ← MemDb_CheckTTL key;
    if negb alive then mret (MakeIntData 0)
    else
      score_bounds cmd (λ min max,
        zset_write key (MakeIntData 0) (λ p, n ← on_zset p (ZSet_RemRangeByScore min max); mret (MakeIntData n))).

Definition RegisterZSetCommands (t : gmap bytes (executor (S := S))) : gmap bytes executor :=
  RegisterCommand (lit "zadd") zAddZset (
  foldr (λ '(name, e), RegisterCommand (lit name) (replies e)) t
    [("zcard", zCardZset); ("zcount", zCountZset); ("zrange", zRangeZset); ("zrevrange", zRevRangeZset);
     ("zrangebyscore", zRangeByScoreZset); ("zrank", zRankZset); ("zrevrank", zRevRankZset); ("zrem", zRemZset);
     ("zremrangebyrank", zRemRangeByRankZset); ("zremrangebyscore", zRemRangeByScoreZset);
     ("zscore", zScoreZset); ("zincrby", zIncrByZset)]%string).
End ZSetCmds.

(** ** Every handler is simulated by itself on the reference store *)
Section sim.
Context `{Host} {tree : Type → Type} `{!RBTree tree, !RBTreeLaws tree}.
Lemma sim_level_source : sim (tree := tree) level_source level_source.
Proof. unfold level_source. sim_auto. Qed.
Lemma sim_zset_for_update key : sim (tree := tree) (zset_for_update key) (zset_for_update key).
Proof. unfold zset_for_update. sim_auto. Qed.
Lemma sim_with_zset key missing (b : positive → M (World tree) RedisData) b' :
  (∀ p, sim (b p) (b' p)) → sim (tree := tree) (with_zset key missing b) (with_zset key missing b').
Proof. intros Hb. unfold with_zset. sim_auto. Qed.
#[local] Hint Resolve sim_level_source sim_zset_for_update : sim.
#[local] Hint Extern 1 (sim (with_zset _ _ _) _) => (apply sim_with_zset; intros ?; sim_auto) : sim.
#[local] Hint Extern 1 (sim (zset_read _ _ _) _) => (unfold zset_read; sim_auto) : sim.
#[local] Hint Extern 1 (sim (zset_write _ _ _) _) => (unfold zset_write; sim_auto) : sim.
#[local] Hint Extern 1 (sim (score_bounds _ _) _) => (unfold score_bounds; sim_auto) : sim.
Lemma sim_zadd_loop p args n : sim (tree := tree) (zadd_loop p args n) (zadd_loop p args n).
Proof.
  revert n. induction args as [args IH] using (induction_ltof1 _ (@length _)); intros n.
  destruct args as [|s [|m args]]; cbn [zadd_loop]; [apply sim_ret..|].
  destruct (ParseFloat (str s)); [|sim_auto]. apply sim_bind; [sim_auto|]. intros rnd.
  apply sim_bind; [sim_auto|]. intros b. apply IH. unfold ltof. cbn. lia.
Qed.
#[local] Hint Resolve sim_zadd_loop : sim.
Lemma sim_zAddZset cmd : sim (tree := tree) (zAddZset cmd) (zAddZset cmd).
Proof. unfold zAddZset. sim_auto. Qed.
Lemma sim_zCardZset cmd : sim (tree := tree) (zCardZset cmd) (zCardZset cmd).
Proof. unfold zCardZset. sim_auto. Qed.
Lemma sim_zCountZset cmd : sim (tree := tree) (zCountZset cmd) (zCountZset cmd).
Proof. unfold zCountZset. sim_auto. Qed.
Lemma sim_zRangeZset cmd : sim (tree := tree) (zRangeZset cmd) (zRangeZset cmd).
Proof. unfold zRangeZset, range_cmd. sim_auto. Qed.
Lemma sim_zRevRangeZset cmd : sim (tree := tree) (zRevRangeZset cmd) (zRevRangeZset cmd).
Proof. unfold zRevRangeZset, range_cmd. sim_auto. Qed.
Lemma sim_zRankZset cmd : sim (tree := tree) (zRankZset cmd) (zRankZset cmd).
Proof. unfold zRankZset, rank_cmd. sim_auto. Qed.
Lemma sim_zRevRankZset cmd : sim (tree := tree) (zRevRankZset cmd) (zRevRankZset cmd).
Proof. unfold zRevRankZset, rank_cmd. sim_auto. Qed.
Lemma sim_zRemZset cmd : sim (tree := tree) (zRemZset cmd) (zRemZset cmd).
Proof. unfold zRemZset. sim_auto. Qed.
Lemma sim_zScoreZset cmd : sim (tree := tree) (zScoreZset cmd) (zScoreZset cmd).
Proof. unfold zScoreZset. sim_auto. Qed.
Lemma sim_zRangeByScoreZset cmd : sim (tree := tree) (zRangeByScoreZset cmd) (zRangeByScoreZset cmd).
Proof. unfold zRangeByScoreZset. sim_auto. Qed.
Lemma sim_zIncrByZset cmd : sim (tree := tree) (zIncrByZset cmd) (zIncrByZset cmd).
Proof. unfold zIncrByZset. sim_auto. Qed.
Lemma sim_zRemRangeByRankZset cmd : sim (tree := tree) (zRemRangeByRankZset cmd) (zRemRangeByRankZset cmd).
Proof. unfold zRemRangeByRankZset. sim_auto. Qed.
Lemma sim_zRemRangeByScoreZset cmd : sim (tree := tree) (zRemRangeByScoreZset cmd) (zRemRangeByScoreZset cmd).
Proof. unfold zRemRangeByScoreZset. sim_auto. Qed.
End sim.
