(* ===== verification/Info.v ===== *)
(** * Administrative commands

    [src/pkg/memdb/info.go]: CLIENT, CONFIG, SCAN, INFO and QUIT.  The replication
    section comes from a callback that the node installs; what it returns, the
    process and the configuration belong to [Host]. *)

From Stdlib Require Import Ascii String ZArith Lia.
From stdpp Require Import prelude gmap list fin_maps.
From S2P Require Import Prelude Text RESP Util CMap Heap TTL Locks ListStruct ListOps SetStruct HashStruct Store World Model.
Open Scope Z_scope.

Definition line (s : bytes) : bytes := s ++ [LF].

(** [r[0] = unicode.ToTitle(r[0])]; ASCII letters have no title case of their own. *)
Definition Title `{Host} (s : bytes) : bytes :=
  if is_ascii s then match s with c :: s => upper c :: s | [] => [] end else unicode_Title s.

Definition configPairs (cfg : option ShownConfig) : list (bytes * bytes) :=
  [(lit "appendonly", lit "no"); (lit "save", []); (lit "databases", lit "16"); (lit "maxmemory", lit "0");
   (lit "maxclients", lit "4096")] ++
  match cfg with
  | Some cfg =>
      [(lit "bind", c_Host cfg); (lit "port", FormatInt (c_Port cfg)); (lit "dir", c_LogDir cfg);
       (lit "loglevel", c_LogLevel cfg); (lit "node-id", c_NodeID cfg)]
  | None =>
      [(lit "bind", lit "0.0.0.0"); (lit "port", FormatInt 6379); (lit "dir", lit "./");
       (lit "loglevel", lit "info"); (lit "node-id", lit "node-1")]
  end.

Definition matchConfigPattern `{Host} (pattern key : bytes) : bool :=
  if beq pattern (lit "*") then true
  else match filepath_Match pattern key with Some ok => ok | None => beq key pattern end.

(** The text of the replication section; [data] is what the callback returned. *)
Definition replication_text (fetched : option (option slice)) : bytes :=
  let head := line (lit "# Replication") in
  match fetched with
  | None => head ++ line (lit "role:unknown") ++ line (lit "detail:replication_metadata_unavailable")
  | Some None => head ++ line (lit "role:loading")
  | Some (Some data) =>
      let payload := str data in
      if beq (TrimSpace payload) [] then head ++ line (lit "role:loading")
      else
        let trimmed := TrimLeft payload [CR; LF; "009"%char; " "%char] in
        if HasPrefix trimmed (lit "# Replication") then trimmed
        else head ++ trimmed ++ (if HasSuffix trimmed [LF] then [] else [LF])
  end.

Section Info.
Context `{Host} {S : Type} `{!Store S}.

Definition client (cmd : list slice) : M S RedisData := mret (MakeBulkData (Some (lit "OK"))).
Definition scan (cmd : list slice) : M S RedisData := mret MakeNullBulkData.
Definition quit (cmd : list slice) : M S RedisData := mret (MakeBulkData (Some (lit "OK"))).

Definition infoConfig (cmd : list slice) : M S RedisData :=
  if zlen cmd <? 2 then err "ERR wrong number of arguments for 'config' command"
  else
    c ← sarg cmd 1;
    let sub := ToLower c in
    if beq sub (lit "get") then
      if negb (zlen cmd =? 3) then err "ERR wrong number of arguments for 'config get'"
      else
        a ← sarg cmd 2;
        let pattern := ToLower a in
        mret (MakeArrayData (Some (flat_map (λ pair : bytes * bytes,
          if matchConfigPattern pattern pair.1 then [MakeBulkData (Some pair.1); MakeBulkData (Some pair.2)] else [])
          (configPairs (Configures process)))))
    else if beq sub (lit "set") then
      if negb (zlen cmd =? 4) then err "ERR wrong number of arguments for 'config set'"
      else mret (MakeStringData (lit "OK"))
    else if beq sub (lit "resetstat") then
      if negb (zlen cmd =? 2) then err "ERR wrong number of arguments for 'config resetstat'"
      else mret (MakeStringData (lit "OK"))
    else err "ERR unsupported CONFIG subcommand".

Definition formatServerSection : M S bytes :=
  t ← now;
  mret (line (lit "# Server") ++ line (lit "redis_mode:cluster") ++
        line (lit "os:" ++ GOOS process ++ lit " " ++ GOARCH process) ++
        line (lit "go_version:" ++ go_Version process) ++
        line (lit "process_id:" ++ FormatInt (Getpid process)) ++
        line (lit "server_time_unix:" ++ FormatInt t)).

Definition formatReplicationSection : M S bytes :=
  match replicationFetcher process with
  | None => mret (replication_text None)
  | Some fetch => n ← tick; mret (replication_text (Some (fetch n)))
  end.

Definition info (cmd : list slice) : M S RedisData :=
  if zlen cmd =? 0 then err "error: command args number is invalid"
  else
    c ← sarg cmd 0;
    if negb (beq (ToLower c) (lit "info")) then err "server error"
    else if 2 <? zlen cmd then err "error: command args number is invalid"
    else
      section ← (if zlen cmd =? 2 then a ← sarg cmd 1; mret (ToLower a) else mret []);
      text ← (if beq section [] then
                server ← formatServerSection;
                replication ← formatReplicationSection;
                mret (server ++ [LF] ++ replication)
              else if beq section (lit "replication") then formatReplicationSection
              else mret (lit "# " ++ line (Title section) ++
                         line (lit "warning:section_" ++ section ++ lit "_not_available")));
      mret (MakeBulkData (Some text)).

Definition RegisterInfoCommands (t : gmap bytes (executor (S := S))) : gmap bytes executor :=
  foldr (λ '(name, e), RegisterCommand (lit name) (replies e)) t
    [("client", client); ("config", infoConfig); ("scan", scan); ("info", info); ("quit", quit)]%string.
End Info.

(** ** Every handler is simulated by itself on the reference store *)
Section sim.
Context `{Host} {tree : Type → Type} `{!RBTree tree, !RBTreeLaws tree}.
Lemma sim_client cmd : sim (tree := tree) (client cmd) (client cmd).
Proof. apply sim_ret. Qed.
Lemma sim_scan cmd : sim (tree := tree) (scan cmd) (scan cmd).
Proof. apply sim_ret. Qed.
Lemma sim_quit cmd : sim (tree := tree) (quit cmd) (quit cmd).
Proof. apply sim_ret. Qed.
Lemma sim_infoConfig cmd : sim (tree := tree) (infoConfig cmd) (infoConfig cmd).
Proof. unfold infoConfig. sim_auto. Qed.
Lemma sim_formatServerSection : sim (tree := tree) formatServerSection formatServerSection.
Proof. unfold formatServerSection. sim_auto. Qed.
Lemma sim_formatReplicationSection : sim (tree := tree) formatReplicationSection formatReplicationSection.
Proof. unfold formatReplicationSection. sim_auto. Qed.
#[local] Hint Resolve sim_formatServerSection sim_formatReplicationSection : sim.
Lemma sim_info cmd : sim (tree := tree) (info cmd) (info cmd).
Proof. unfold info. sim_auto. Qed.
End sim.
