(* ===== verification/Refine.v ===== *)
(** * The database refines the reference store

    The command table of [src/cmd/init.go], sequences of commands, and the simulation of [Model.v] lifted to them. *)

From Stdlib Require Import Ascii String ZArith Lia.
From stdpp Require Import prelude gmap list fin_maps.
From S2P Require Import Prelude RESP Util CMap Heap TTL Locks ListStruct ListOps SetStruct HashStruct ZSetStruct Store World Model.
From S2P Require Import Strings Keys ListCmds SetCmds HashCmds ZSetCmds Info.
Open Scope Z_scope.

Section table.
Context `{Host} {S : Type} `{!Store S}.

(** [init]: the table after all registrations. *)
Definition CmdTable : gmap bytes (executor (S := S)) :=
  RegisterInfoCommands (RegisterZSetCommands (RegisterSetCommands (RegisterListCommands (RegisterHashCommands
    (RegisterStringCommands (RegisterKeyCommand ∅)))))).

(** One client: commands executed one after another, with their replies. *)
Definition run_commands (cmds : list (list slice)) : M S (list (option RedisData)) :=
  mfold (λ replies cmd, r ← ExecCommand CmdTable cmd; mret (replies ++ [r])) [] cmds.
End table.

Section refine.
Context `{Host} {tree : Type → Type} `{!RBTree tree, !RBTreeLaws tree}.

(** Tables with the same names whose handlers simulate each other. *)
Definition table_sim (t : gmap bytes (executor (S := World tree))) (t' : gmap bytes (executor (S := Model))) : Prop :=
  ∀ name,
    match t !! name, t' !! name with
    | Some e, Some e' => ∀ cmd, sim (e cmd) (e' cmd)
    | None, None => True
    | _, _ => False
    end.

Lemma table_sim_empty : table_sim ∅ ∅.
Proof. intros name. by rewrite !lookup_empty. Qed.
Lemma table_sim_register name e e' t t' :
  (∀ cmd, sim (e cmd) (e' cmd)) → table_sim t t' →
  table_sim (RegisterCommand name e t) (RegisterCommand name e' t').
Proof.
  intros He Ht n. unfold RegisterCommand. rewrite !lookup_insert. case_decide; [done|apply Ht].
Qed.

Lemma sim_replies (e : list slice → M (World tree) RedisData) e' cmd :
  sim (e cmd) (e' cmd) → sim (replies e cmd) (replies e' cmd).
Proof. intros He. apply sim_bind; [done|]. intros r. apply sim_ret. Qed.

#[local] Hint Resolve sim_setString sim_getString sim_setRangeString sim_getRangeString sim_mSetString
  sim_mGetString sim_setExString sim_setNxString sim_strLenString sim_incrString sim_incrByString
  sim_decrString sim_decrByString sim_appendString sim_incrByFloatString sim_lPosList sim_hIncrByFloatHash sim_client sim_infoConfig sim_scan sim_info sim_quit sim_keysKey sim_pingKeys sim_delKey sim_existsKey sim_expireKey
  sim_persistKey sim_ttlKey sim_typeKey sim_renameKey sim_lMoveList sim_lRangeList sim_lTrimList
  sim_lRemList sim_lSetList sim_rPushXList sim_rPushList sim_lPushXList sim_lPushList sim_rPopList
  sim_lPopList sim_lIndexList sim_lLenList sim_hRandFieldHash sim_hStrLenHash sim_hSetNxHash
  sim_hIncrByHash sim_hValsHash sim_hKeysHash sim_hLenHash sim_hSetHash sim_hGetHash sim_hMGetHash
  sim_hDelHash sim_hExistsHash sim_hGetAllHash sim_sUnionStoreSet sim_sUnionSet sim_sRemSet
  sim_sRandMemberSet sim_sPopSet sim_sMoveSet sim_sMembersSet sim_sIsMemberSet sim_sInterStoreSet
  sim_sInterSet sim_sDiffStoreSet sim_sDiffSet sim_sCardSet sim_sAddSet sim_zAddZset sim_zCardZset
  sim_zCountZset sim_zRangeZset sim_zRevRangeZset sim_zRankZset sim_zRevRankZset sim_zRemZset sim_zScoreZset
  sim_zRangeByScoreZset sim_zIncrByZset sim_zRemRangeByRankZset sim_zRemRangeByScoreZset sim_replies : sim.

Lemma CmdTable_sim : table_sim CmdTable CmdTable.
Proof.
  unfold CmdTable, RegisterInfoCommands, RegisterZSetCommands, RegisterSetCommands, RegisterListCommands, RegisterHashCommands,
    RegisterStringCommands, RegisterKeyCommand. cbn [foldr].
  repeat (apply table_sim_register; [intros cmd; auto with sim|]). apply table_sim_empty.
Qed.

Lemma sim_ExecCommand cmd : sim (tree := tree) (ExecCommand CmdTable cmd) (ExecCommand CmdTable cmd).
Proof.
  unfold ExecCommand. destruct cmd as [|c cmd]; [apply sim_ret|]. cbv zeta.
  pose proof (CmdTable_sim (ToLower (str c))) as Ht.
  destruct (CmdTable (S := World tree) !! _), (CmdTable (S := Model) !! _); try done; apply sim_ret.
Qed.
Lemma sim_run_commands cmds : sim (tree := tree) (run_commands cmds) (run_commands cmds).
Proof.
  apply sim_mfold. intros replies cmd. apply sim_bind; [apply sim_ExecCommand|]. intros r. apply sim_ret.
Qed.

(** C2: The database refines its specification: for every number of shards with which
    [NewMemDb] returns (it panics for a negative one) and
    every sequence of commands, the sharded map, the expiry heaps and the linked
    lists of the program answer what finite maps and sequences answer, and end
    in a state that represents theirs; a panic or fatal error occurs exactly
    where it does in the specification.  ([Blocks] is a list longer than 2^63 - 2,
    the endless loop of HRANDFIELD, or KEYS, whose order is left open.) *)
Theorem MemDb_refines ShardNum (w : World tree) cmds o m' :
  NewMemDb ShardNum = Ret w → run_commands cmds (NewModel ShardNum) = (o, m') → o ≠ Blocks →
  ∃ w' : World tree, run_commands cmds w = (o, w') ∧ represents w' m'.
Proof.
  intros Hn E Ho. pose proof (sim_run_commands cmds _ _ (NewMemDb_represents ShardNum w Hn)) as Hs.
  rewrite E in Hs. by destruct o.
Qed.
End refine.

(** ** A concrete session *)
#[local] Existing Instance demo_host.

Definition command (args : list string) : list slice := (λ s, Some (lit s)) <$> args.

Definition demo_session : list (list slice) :=
  [command ["SET"; "k"; "41"]; command ["INCR"; "k"]; command ["RPUSH"; "l"; "a"; "b"];
   command ["LPUSH"; "l"; "z"]; command ["LRANGE"; "l"; "0"; "-1"]; command ["SETEX"; "e"; "10"; "v"];
   command ["TTL"; "e"]; command ["SADD"; "s"; "x"; "y"; "x"]; command ["HSET"; "h"; "f"; "v"];
   command ["HGET"; "h"; "f"]; command ["GET"; "l"]; command ["NOSUCH"];
   command ["ZADD"; "z"; "2"; "b"; "1"; "a"]; command ["ZRANGE"; "z"; "0"; "-1"; "WITHSCORES"]]%string.

Definition demo_replies : list (option RedisData) :=
  [Some (MakeStringData (lit "OK")); Some (MakeIntData 42); Some (MakeIntData 2); Some (MakeIntData 3);
   Some (MakeArrayData (Some (MakeBulkData <$> command ["z"; "a"; "b"]%string)));
   Some (MakeStringData (lit "OK")); Some (MakeIntData 9); Some (MakeIntData 2); Some (MakeIntData 1);
   Some (MakeBulkData (Some (lit "v")));
   Some (MakeErrorData (lit "WRONGTYPE Operation against a key holding the wrong kind of value"));
   Some (MakeErrorData (lit "error: unsupported command"));
   Some (MakeIntData 2); Some (MakeArrayData (Some (MakeBulkData <$> command ["a"; "1"; "b"; "2"]%string)))].

Lemma MemDb_refines_witness :
  ∃ w w' : World sorted_tree,
    NewMemDb 2 = Ret w ∧ run_commands demo_session w = (Ret demo_replies, w').
Proof.
  destruct (MemDb_refines (H := demo_host) (tree := sorted_tree) 2 (new_world 2) demo_session (Ret demo_replies)
    (run_commands demo_session (NewModel 2)).2) as (w' & E & _).
  - reflexivity.
  - vm_compute. reflexivity.
  - discriminate.
  - exists (new_world 2), w'. split; [reflexivity|exact E].
Defined.
