(* ===== verification/Safety.v ===== *)
(** * Memory and lock safety of the command handlers

    A small program logic for handlers on the reference store.  Its assertions
    say that every value of the database points to a live object, which objects
    the handler has obtained, and which locks are held; so a triple shows that a
    handler never dereferences a missing object, indexes its arguments in range,
    keeps the database well formed and releases its locks on every path. *)

From Stdlib Require Import Ascii String ZArith Lia.
From stdpp Require Import prelude gmap list fin_maps.
From S2P Require Import Prelude RESP Util CMap Heap TTL Locks ListStruct ListPos ListOps SetStruct HashStruct ZSetStruct ZSetSpec ZSetRefine Store World Model.
From S2P Require Import Strings Keys ListCmds SetCmds HashCmds ZSetCmds Info Refine.
Open Scope Z_scope.

(** ** Assertions *)
Definition valid (m : Model) (v : value) : Prop :=
  match v with
  | VBytes _ => True
  | VList p => is_Some (m_lists m !! p)
  | VSet p => is_Some (m_sets m !! p)
  | VHash p => is_Some (m_hashes m !! p)
  | VZSet p => ∃ z, m_zsets m !! p = Some z ∧ shaped z
  end.

(** No value of the database dangles. *)
Definition heap_ok (m : Model) : Prop := map_Forall (λ _ v, valid m v) (m_db m).

(** A list too long for the counters of the implementation. *)
Definition overlong (m : Model) : Prop := ∃ p vs, m_lists m !! p = Some vs ∧ MaxInt64 <= zlen vs.

(** The exceptional endings a handler may have. *)
Record mode := mkMode { may_panic : bool; may_loop : bool }.
Definition strict : mode := mkMode false false.

(** From a state with objects [V] and locks [L], [c] returns with a result [a]
    that satisfies [Φ], further objects [r a] and locks [L'], or panics with
    locks [LP] where [md] allows it. *)
Definition spec {A} (V : list value) (L : Locks) (md : mode) (LP : Locks) (c : M Model A)
    (Φ : A → Prop) (r : A → list value) (L' : Locks) : Prop :=
  ∀ m, heap_ok m → Forall (valid m) V → m_locks m = L →
    match c m with
    | (Ret a, m') => Φ a ∧ heap_ok m' ∧ Forall (valid m') (r a ++ V) ∧ m_locks m' = L'
    | (Panics, m') => may_panic md = true ∧ heap_ok m' ∧ Forall (valid m') V ∧ m_locks m' = LP
    | (Fatals, _) => False
    | (Blocks, m') => overlong m' ∨ may_loop md = true
    end.

Abbreviation safe V L md LP c L' := (spec V L md LP c (λ _, True) (λ _, []) L').

Section rules.
Implicit Types (V : list value) (L : Locks) (md : mode).

Lemma spec_ret {A} V L md LP (a : A) : safe V L md LP (mret a) L.
Proof. intros m Hh Hv HL. by split_and!. Qed.
Lemma safe_panic {A} V L LP loop : L = LP → safe V L (mkMode true loop) LP (mpanic (A := A)) L.
Proof. intros <- m Hh Hv HL. by split_and!. Qed.

Lemma spec_bind {A B} V L md LP (c : M Model A) Φ r L1 (f : A → M Model B) L' :
  spec V L md LP c Φ r L1 → (∀ a, Φ a → safe (r a ++ V) L1 md LP (f a) L') →
  safe V L md LP (c ≫= f) L'.
Proof.
  intros Hc Hf m Hh Hv HL. specialize (Hc m Hh Hv HL). unfold mbind, M_bind.
  destruct (c m) as [[a| | |] m']; try done. destruct Hc as (Ha & Hh' & Hv' & HL').
  specialize (Hf a Ha m' Hh' Hv' HL'). destruct (f a m') as [[b| | |] m'']; [|..|done|done];
    destruct Hf as (? & ? & Hv'' & ?); cbn in Hv''; apply Forall_app in Hv'' as [_ Hv'']; by split_and!.
Qed.

Lemma spec_tail {A} V L md LP (c : M Model A) Φ r L' : spec V L md LP c Φ r L' → safe V L md LP c L'.
Proof.
  intros Hc m Hh Hv HL. specialize (Hc m Hh Hv HL). destruct (c m) as [[a| | |] m']; try done.
  destruct Hc as (_ & Hh' & Hv' & HL'). apply Forall_app in Hv' as [_ Hv']. done.
Qed.

Lemma safe_eq {A} V L md LP (c c' : M Model A) L' : (∀ m, c m = c' m) → safe V L md LP c' L' → safe V L md LP c L'.
Proof. intros E Hc m. rewrite E. apply Hc. Qed.
Lemma safe_ret_bind {A B} V L md LP (a : A) (f : A → M Model B) L' :
  safe V L md LP (f a) L' → safe V L md LP (mret a ≫= f) L'.
Proof. intros Hc. eapply safe_eq; [|exact Hc]. done. Qed.
Lemma safe_assoc {A B C} V L md LP (c : M Model C) (g : C → M Model A) (f : A → M Model B) L' :
  safe V L md LP (c ≫= λ x, g x ≫= f) L' → safe V L md LP ((c ≫= g) ≫= f) L'.
Proof. intros Hc. eapply safe_eq; [|exact Hc]. intros m. apply bind_assoc. Qed.
Lemma safe_panic_bind {A B} V L md LP (f : A → M Model B) L' :
  safe V L md LP (mpanic (A := B)) L' → safe V L md LP (mpanic ≫= f) L'.
Proof. intros Hc. eapply safe_eq; [|exact Hc]. done. Qed.

(** [f] runs after a return and after a panic of [body]. *)
Lemma safe_defer {A} V L md (f : M Model unit) (body : M Model A) L' :
  safe V L strict L f L' → safe V L md L body L → safe V L md L' (mdefer f body) L'.
Proof.
  intros Hf Hb m Hh Hv HL. specialize (Hb m Hh Hv HL). unfold mdefer.
  destruct (body m) as [[a| | |] m']; try done; [destruct Hb as (_ & Hh' & Hv' & HL')|destruct Hb as (Hp & Hh' & Hv' & HL')];
    specialize (Hf m' Hh' Hv' HL'); destruct (f m') as [[[]| | |] m'']; cbn in Hf;
    try done; try (by destruct Hf as [? _]); try (destruct Hf as [?|?]; [by left|done]);
    destruct Hf as (_ & ? & ? & ?); by split_and!.
Qed.

(** Loops. *)
Lemma safe_mfold_in {A B} V L md LP (f : B → A → M Model B) b l :
  (∀ b x, x ∈ l → safe V L md LP (f b x) L) → safe V L md LP (mfold f b l) L.
Proof.
  revert b. induction l as [|x l IH]; intros b Hf; cbn [mfold]; [apply spec_ret|].
  eapply spec_bind; [apply Hf; left|]. intros b' _. apply IH. intros b'' y Hy. apply Hf. by right.
Qed.
Lemma safe_mfold {A B} V L md LP (f : B → A → M Model B) b l :
  (∀ b x, safe V L md LP (f b x) L) → safe V L md LP (mfold f b l) L.
Proof. intros Hf. apply safe_mfold_in. auto. Qed.

(** A result for every mode. *)
Lemma spec_weaken {A} V L md LP LP' (c : M Model A) Φ r L' :
  spec V L strict LP' c Φ r L' → spec V L md LP c Φ r L'.
Proof.
  intros Hc m Hh Hv HL. specialize (Hc m Hh Hv HL). destruct (c m) as [[a| | |] m']; cbn in Hc;
    try done; [by destruct Hc as [? _]|]. destruct Hc as [?|?]; [by left|done].
Qed.
End rules.

(** ** The operations of the store *)
(** The sorted sets of [m] are still there, and well formed. *)
Definition zsets_grow (m m' : Model) : Prop :=
  ∀ p z, m_zsets m !! p = Some z → shaped z → ∃ z', m_zsets m' !! p = Some z' ∧ shaped z'.
Lemma zsets_grow_same m m' : m_zsets m' = m_zsets m → zsets_grow m m'.
Proof. intros E p z. rewrite E. eauto. Qed.
Lemma zsets_grow_insert m m' p z : m_zsets m' = <[p := z]> (m_zsets m) → shaped z → zsets_grow m m'.
Proof. intros E Hz q y Hq Hy. rewrite E, lookup_insert. case_decide; eauto. Qed.

Lemma valid_mono m m' v :
  dom (m_lists m) ⊆ dom (m_lists m') → dom (m_sets m) ⊆ dom (m_sets m') →
  dom (m_hashes m) ⊆ dom (m_hashes m') → zsets_grow m m' → valid m v → valid m' v.
Proof. destruct v; cbn; intros ? ? ? Hz; rewrite <- ?elem_of_dom; auto. intros (z & ? & ?). by eapply Hz. Qed.

Section ops.
Context `{Host}.
Implicit Types (V : list value) (L : Locks) (md : mode).

Lemma spec_db_Get V L md LP key :
  spec V L md LP (db_Get key) (λ _, True) (λ r, match r with Some v => [v] | None => [] end) L.
Proof.
  intros m Hh Hv HL. cbn. split_and!; [done..| |done]. apply Forall_app. split; [|done].
  destruct (m_db m !! key) eqn:E; [|done]. cbn. apply Forall_singleton. by apply (Hh key).
Qed.
Lemma spec_db_Set V L md LP key v :
  (∀ m, Forall (valid m) V → valid m v) → safe V L md LP (db_Set key v) L.
Proof.
  intros Hval m Hh Hv HL. cbn. split_and!; [done| |done|done].
  apply map_Forall_insert_2; [by apply Hval|done].
Qed.
Lemma spec_db_SetIfNotExist V L md LP key b : safe V L md LP (db_SetIfNotExist key (VBytes b)) L.
Proof.
  intros m Hh Hv HL. cbn. split_and!; [done| |done|done].
  unfold heap_ok. cbn. destruct (m_db m !! key); [done|]. by apply map_Forall_insert_2.
Qed.
Lemma spec_db_Delete V L md LP key : safe V L md LP (db_Delete key) L.
Proof.
  intros m Hh Hv HL. cbn. split_and!; [done| |done|done]. by apply map_Forall_delete.
Qed.
Lemma spec_ttl_CheckTTL V L md LP t key : safe V L md LP (ttl_CheckTTL t key) L.
Proof. intros m Hh Hv HL. cbn. by destruct (expired _ _). Qed.
Lemma spec_ttl_SetTTL V L md LP key e : safe V L md LP (ttl_SetTTL key e) L.
Proof. by intros m Hh Hv HL. Qed.
Lemma spec_ttl_RemoveTTL V L md LP key : safe V L md LP (ttl_RemoveTTL key) L.
Proof. by intros m Hh Hv HL. Qed.
Lemma spec_ttl_ExpireAt V L md LP key : safe V L md LP (ttl_ExpireAt key) L.
Proof. by intros m Hh Hv HL. Qed.
Lemma spec_tick V L md LP : safe V L md LP tick L.
Proof. by intros m Hh Hv HL. Qed.

(** Growing the heap keeps everything valid. *)
Lemma grow m m' V :
  m_db m' = m_db m → dom (m_lists m) ⊆ dom (m_lists m') → dom (m_sets m) ⊆ dom (m_sets m') →
  dom (m_hashes m) ⊆ dom (m_hashes m') → zsets_grow m m' → heap_ok m → Forall (valid m) V →
  heap_ok m' ∧ Forall (valid m') V.
Proof.
  intros E ? ? ? ? Hh Hv. split.
  - intros k v Hk. rewrite E in Hk. by eapply valid_mono, Hh.
  - eapply Forall_impl; [exact Hv|]. intros v. by apply valid_mono.
Qed.

Lemma spec_list_new V L md LP : spec V L md LP list_new (λ _, True) (λ p, [VList p]) L.
Proof.
  intros m Hh Hv HL. cbn. destruct (grow m (set_lists (<[fresh (dom (m_lists m)) := []]> (m_lists m)) m) V)
    as [? ?]; cbn; [done|set_solver|done|done|by apply zsets_grow_same|done|done|]. split_and!; [done|done| |done].
  constructor; [|done]. cbn. by rewrite lookup_insert_eq.
Qed.
Lemma spec_new_set V L md LP s : spec V L md LP (new_set s) (λ _, True) (λ p, [VSet p]) L.
Proof.
  intros m Hh Hv HL. cbn. destruct (grow m (set_sets (<[fresh (dom (m_sets m)) := s]> (m_sets m)) m) V)
    as [? ?]; cbn; [done|done|set_solver|done|by apply zsets_grow_same|done|done|]. split_and!; [done|done| |done].
  constructor; [|done]. cbn. by rewrite lookup_insert_eq.
Qed.
Lemma spec_new_hash V L md LP : spec V L md LP new_hash (λ _, True) (λ p, [VHash p]) L.
Proof.
  intros m Hh Hv HL. cbn. destruct (grow m (set_hashes (<[fresh (dom (m_hashes m)) := NewHash]> (m_hashes m)) m) V)
    as [? ?]; cbn; [done|done|done|set_solver|by apply zsets_grow_same|done|done|]. split_and!; [done|done| |done].
  constructor; [|done]. cbn. by rewrite lookup_insert_eq.
Qed.
Lemma spec_get_set V L md LP p : VSet p ∈ V → safe V L md LP (get_set p) L.
Proof.
  intros Hp m Hh Hv HL. cbn. rewrite Forall_forall in Hv. destruct (Hv _ Hp) as [s ->].
  split_and!; [done|done| |done]. by apply Forall_forall.
Qed.
Lemma spec_get_hash V L md LP p : VHash p ∈ V → safe V L md LP (get_hash p) L.
Proof.
  intros Hp m Hh Hv HL. cbn. rewrite Forall_forall in Hv. destruct (Hv _ Hp) as [s ->].
  split_and!; [done|done| |done]. by apply Forall_forall.
Qed.
Lemma spec_put_set V L md LP p s : safe V L md LP (put_set p s) L.
Proof.
  intros m Hh Hv HL. cbn. destruct (grow m (set_sets (<[p := s]> (m_sets m)) m) V);
    cbn; [done|done|set_solver|done|by apply zsets_grow_same|done|done|done].
Qed.
Lemma spec_put_hash V L md LP p h : safe V L md LP (put_hash p h) L.
Proof.
  intros m Hh Hv HL. cbn. destruct (grow m (set_hashes (<[p := h]> (m_hashes m)) m) V);
    cbn; [done|done|done|set_solver|by apply zsets_grow_same|done|done|done].
Qed.
Lemma spec_list_do V L md LP p o :
  VList p ∈ V → list_op_ok o → spec V L md LP (list_do p o) (λ r, ∃ vs, r = (list_spec o vs).1) (λ _, []) L.
Proof.
  intros Hp Ho m Hh Hv HL. cbn. pose proof Hv as Hv'. rewrite Forall_forall in Hv'.
  destruct (Hv' _ Hp) as [vs Ep]. rewrite Ep. case_decide as Hd.
  - destruct (grow m (set_lists (<[p := (list_spec o vs).2]> (m_lists m)) m) V);
      cbn; [done|set_solver|done|done|by apply zsets_grow_same|done|done|]. split_and!; eauto.
  - left. exists p, vs. split; [done|]. apply not_and_r in Hd as [?|?]; [done|lia].
Qed.

Lemma spec_new_zset V L md LP : spec V L md LP new_zset (λ _, True) (λ p, [VZSet p]) L.
Proof.
  intros m Hh Hv HL. cbn. assert (shaped NewZSet) as Hs by (exists []; apply NewZSet_skip).
  destruct (grow m (set_zsets (<[fresh (dom (m_zsets m)) := NewZSet]> (m_zsets m)) m) V)
    as [? ?]; cbn; [done|done|done|done|by eapply zsets_grow_insert|done|done|]. split_and!; [done|done| |done].
  constructor; [|done]. cbn. rewrite lookup_insert_eq. eauto.
Qed.
Lemma spec_on_zset {A} V L md LP p (c : M ZSet A) : VZSet p ∈ V → keeps_shape c → safe V L md LP (on_zset p c) L.
Proof.
  intros Hp Hc m Hh Hv HL. cbn. pose proof Hv as Hv'. rewrite Forall_forall in Hv'.
  destruct (Hv' _ Hp) as (z & -> & Hz). destruct (Hc z Hz) as (a & z' & -> & Hz').
  destruct (grow m (set_zsets (<[p := z']> (m_zsets m)) m) V); cbn; [done|done|done|done|by eapply zsets_grow_insert|done..].
Qed.

(** Locks, from a free table. *)
Lemma spec_on_locks V L md LP c L' : c L = (Ret tt, L') → safe V L md LP (on_locks c) L'.
Proof. intros E m Hh Hv HL. cbn. rewrite HL, E. by split_and!. Qed.
Lemma spec_Lock V L md LP key : locks_free L → safe V L md LP (locks_Lock key) (hold write_held [key] L).
Proof. intros Hl. by apply spec_on_locks, Lock_free. Qed.
Lemma spec_UnLock V L md LP key : locks_free L → safe V (hold write_held [key] L) md LP (locks_UnLock key) L.
Proof. intros Hl. by apply spec_on_locks, UnLock_held. Qed.
Lemma spec_RLock V L md LP key : locks_free L → safe V L md LP (locks_RLock key) (hold read_held [key] L).
Proof. intros Hl. by apply spec_on_locks, RLock_free. Qed.
Lemma spec_RUnLock V L md LP key : locks_free L → safe V (hold read_held [key] L) md LP (locks_RUnLock key) L.
Proof. intros Hl. by apply spec_on_locks, RUnLock_held. Qed.
Lemma spec_LockMulti V L md LP keys : locks_free L → safe V L md LP (locks_LockMulti keys) (hold write_held keys L).
Proof. intros Hl. by apply spec_on_locks, LockMulti_free. Qed.
Lemma spec_UnLockMulti V L md LP keys : locks_free L → safe V (hold write_held keys L) md LP (locks_UnLockMulti keys) L.
Proof. intros Hl. by apply spec_on_locks, UnLockMulti_held. Qed.
Lemma spec_RLockMulti V L md LP keys : locks_free L → safe V L md LP (locks_RLockMulti keys) (hold read_held keys L).
Proof. intros Hl. by apply spec_on_locks, RLockMulti_free. Qed.
Lemma spec_RUnLockMulti V L md LP keys : locks_free L → safe V (hold read_held keys L) md LP (locks_RUnLockMulti keys) L.
Proof. intros Hl. by apply spec_on_locks, RUnLockMulti_held. Qed.

(** Arguments in range. *)
Lemma spec_arg V L md LP cmd i : Z.of_nat i < zlen cmd → safe V L md LP (arg cmd i) L.
Proof.
  intros Hi. unfold arg. destruct (lookup_lt_is_Some_2 cmd i) as [x ->]; [unfold zlen in Hi; lia|].
  apply spec_ret.
Qed.
Lemma spec_sarg V L md LP cmd i : Z.of_nat i < zlen cmd → safe V L md LP (sarg cmd i) L.
Proof. intros Hi. unfold sarg. eapply spec_bind; [by apply spec_arg|]. intros a _. apply spec_ret. Qed.
Lemma spec_is_cmd V L md LP cmd name : 0 < zlen cmd → safe V L md LP (is_cmd cmd name) L.
Proof. intros Hi. unfold is_cmd. eapply spec_bind; [by apply spec_sarg|]. intros a _. apply spec_ret. Qed.
Lemma spec_index {A} V L md LP (l : list A) i : Z.of_nat i < zlen l → safe V L md LP (Prelude.index l i) L.
Proof.
  intros Hi. unfold Prelude.index. destruct (lookup_lt_is_Some_2 l i) as [x ->]; [unfold zlen in Hi; lia|].
  apply spec_ret.
Qed.
Lemma spec_err V L md LP s : safe V L md LP (err s) L.
Proof. apply spec_ret. Qed.
Lemma spec_wrong_type V L md LP : safe V L md LP wrong_type L.
Proof. apply spec_ret. Qed.
End ops.

(** ** Automation *)
Create HintDb spec.
#[export] Hint Resolve spec_ret spec_db_Get spec_db_SetIfNotExist spec_db_Delete spec_ttl_CheckTTL
  spec_ttl_SetTTL spec_ttl_RemoveTTL spec_ttl_ExpireAt spec_tick spec_list_new spec_new_set spec_new_hash
  spec_put_set spec_put_hash spec_Lock spec_UnLock spec_RLock spec_RUnLock spec_LockMulti
  spec_UnLockMulti spec_RLockMulti spec_RUnLockMulti spec_err spec_wrong_type : spec.

Ltac solve_mem := solve [repeat first [apply list_elem_of_here | apply list_elem_of_further | apply elem_of_app; right]].
#[export] Hint Extern 1 (_ ∈ _) => solve_mem : spec.
#[export] Hint Resolve spec_new_zset : spec.
#[export] Hint Extern 1 (keeps_shape _) => auto with zset : spec.
#[export] Hint Resolve spec_get_set spec_get_hash spec_on_zset spec_list_do spec_arg spec_sarg spec_is_cmd spec_index : spec.
#[export] Hint Extern 1 (_ < zlen _) => lia : spec.
#[export] Hint Extern 1 (_ < zlen (_ <$> drop _ _)) =>
  (unfold zlen in *; rewrite length_fmap, length_drop; lia) : spec.
#[export] Hint Extern 1 (list_op_ok _) => first [assumption | cbn; by eauto using ParseInt_in] : spec.
#[export] Hint Extern 1 (spec _ _ _ _ (db_Set _ _) _ _ _) =>
  (apply spec_db_Set; intros ? ?Hv; rewrite ?Forall_cons in Hv; cbn in *; tauto) : spec.

(** Case analysis on the head of the program. *)
Ltac split_head x :=
  match x with
  | context [?a <? ?b] => destruct (Z.ltb_spec a b)
  | context [?a <=? ?b] => destruct (Z.leb_spec a b)
  | context [?a =? ?b] => destruct (Z.eqb_spec a b)
  | context [negb ?a] => lazymatch a with true => fail | false => fail | _ => destruct a eqn:? end
  | context [match ?y with _ => _ end] => destruct y eqn:?
  | _ => destruct x eqn:?
  end; cbn [negb andb orb fst snd app] in *;
  try match goal with H : _ = _ |- _ => discriminate H end.

Ltac spec_op := solve [eauto with spec].

Ltac spec_intro :=
  intros; cbv beta in *;
  repeat match goal with
  | H : True |- _ => clear H
  | H : ∃ vs : list slice, _ |- _ => destruct H as [? ->]
  end; cbn [app list_spec fst] in *.

Ltac spec_step :=
  cbv beta zeta;
  lazymatch goal with
  | |- spec _ _ _ _ (mret _ ≫= _) _ _ _ => apply safe_ret_bind
  | |- spec _ _ _ _ (mpanic ≫= _) _ _ _ => apply safe_panic_bind
  | |- spec _ _ _ _ ((_ ≫= _) ≫= _) _ _ _ => apply safe_assoc
  | |- spec _ _ _ _ ((match ?x with _ => _ end) ≫= _) _ _ _ => split_head x
  | |- spec _ _ _ _ (match ?x with _ => _ end) _ _ _ => split_head x
  | |- spec _ _ _ _ (mfold _ _ _ ≫= _) _ _ _ =>
      eapply spec_bind; [apply safe_mfold; intros|spec_intro]
  | |- spec _ _ _ _ (mfold _ _ _) _ _ _ => apply safe_mfold; intros
  | |- spec _ _ _ _ (_ ≫= _) _ _ _ => eapply spec_bind; [spec_op|spec_intro]
  | |- spec _ _ _ _ (mdefer _ _) _ _ _ => apply safe_defer
  | |- spec _ _ _ _ mpanic _ _ _ => by apply safe_panic
  | |- spec _ _ _ _ _ _ _ _ => first [spec_op | eapply spec_tail; spec_op]
  end.
Ltac spec_auto := repeat spec_step.

Section handlers.
Context `{Host}.
Variable L : Locks.
Hypothesis HL : locks_free L.
Implicit Types (V : list value) (md : mode).

Lemma safe_now V L0 md LP : safe V L0 md LP now L0.
Proof. unfold now. spec_auto. Qed.
Lemma safe_range V L0 md LP : safe V L0 md LP range L0.
Proof. unfold range. spec_auto. Qed.
#[local] Hint Resolve safe_now safe_range : spec.
Lemma safe_CheckTTL V md LP key : safe V L md LP (MemDb_CheckTTL key) L.
Proof. unfold MemDb_CheckTTL. spec_auto. Qed.
Lemma safe_SetTTL V L0 md LP key e : safe V L0 md LP (MemDb_SetTTL key e) L0.
Proof. unfold MemDb_SetTTL. spec_auto. Qed.
Lemma safe_DelTTL V L0 md LP key : safe V L0 md LP (MemDb_DelTTL key) L0.
Proof. unfold MemDb_DelTTL. spec_auto. Qed.
#[local] Hint Resolve safe_CheckTTL safe_SetTTL safe_DelTTL : spec.

(** String commands. *)
Lemma safe_setString cmd : 0 < zlen cmd → safe [] L strict L (setString cmd) L.
Proof. intros Hc. unfold setString. spec_auto. Qed.
Lemma safe_getString cmd : 0 < zlen cmd → safe [] L strict L (getString cmd) L.
Proof. intros Hc. unfold getString. spec_auto. Qed.
Lemma safe_setRangeString cmd : 0 < zlen cmd → safe [] L (mkMode true false) L (setRangeString cmd) L.
Proof. intros Hc. unfold setRangeString. spec_auto. Qed.
Lemma safe_getRangeString cmd : 0 < zlen cmd → safe [] L strict L (getRangeString cmd) L.
Proof. intros Hc. unfold getRangeString. spec_auto. Qed.
Lemma safe_mSetString cmd : 0 < zlen cmd → safe [] L strict L (mSetString cmd) L.
Proof. intros Hc. unfold mSetString. spec_auto. Qed.
Lemma safe_mGetString cmd : 0 < zlen cmd → safe [] L strict L (mGetString cmd) L.
Proof. intros Hc. unfold mGetString. spec_auto. Qed.
Lemma safe_setExString cmd : 0 < zlen cmd → safe [] L strict L (setExString cmd) L.
Proof. intros Hc. unfold setExString. spec_auto. Qed.
Lemma safe_setNxString cmd : 0 < zlen cmd → safe [] L strict L (setNxString cmd) L.
Proof. intros Hc. unfold setNxString. spec_auto. Qed.
Lemma safe_strLenString cmd : 0 < zlen cmd → safe [] L strict L (strLenString cmd) L.
Proof. intros Hc. unfold strLenString. spec_auto. Qed.
Lemma safe_incr_body V key init f : safe V L strict L (incr_body key init f) L.
Proof. unfold incr_body. spec_auto. Qed.
#[local] Hint Resolve safe_incr_body : spec.
Lemma safe_incrString cmd : 0 < zlen cmd → safe [] L strict L (incrString cmd) L.
Proof. intros Hc. unfold incrString. spec_auto. Qed.
Lemma safe_incrByString cmd : 0 < zlen cmd → safe [] L strict L (incrByString cmd) L.
Proof. intros Hc. unfold incrByString. spec_auto. Qed.
Lemma safe_decrString cmd : 0 < zlen cmd → safe [] L strict L (decrString cmd) L.
Proof. intros Hc. unfold decrString. spec_auto. Qed.
Lemma safe_decrByString cmd : 0 < zlen cmd → safe [] L strict L (decrByString cmd) L.
Proof. intros Hc. unfold decrByString. spec_auto. Qed.
Lemma safe_incrByFloatString cmd : 0 < zlen cmd → safe [] L strict L (incrByFloatString cmd) L.
Proof. intros Hc. unfold incrByFloatString. spec_auto. Qed.
Lemma safe_appendString cmd : 0 < zlen cmd → safe [] L strict L (appendString cmd) L.
Proof. intros Hc. unfold appendString. spec_auto. Qed.

(** Key commands. *)
Lemma safe_client cmd : 0 < zlen cmd → safe [] L strict L (client cmd) L.
Proof. intros _. apply spec_ret. Qed.
Lemma safe_scan cmd : 0 < zlen cmd → safe [] L strict L (scan cmd) L.
Proof. intros _. apply spec_ret. Qed.
Lemma safe_quit cmd : 0 < zlen cmd → safe [] L strict L (quit cmd) L.
Proof. intros _. apply spec_ret. Qed.
Lemma safe_infoConfig cmd : 0 < zlen cmd → safe [] L strict L (infoConfig cmd) L.
Proof. intros Hc. unfold infoConfig. spec_auto. Qed.
Lemma safe_formatServerSection V LP : safe V L strict LP formatServerSection L.
Proof. unfold formatServerSection. spec_auto. Qed.
Lemma safe_formatReplicationSection V LP : safe V L strict LP formatReplicationSection L.
Proof. unfold formatReplicationSection. spec_auto. Qed.
#[local] Hint Resolve safe_formatServerSection safe_formatReplicationSection : spec.
Lemma safe_info cmd : 0 < zlen cmd → safe [] L strict L (info cmd) L.
Proof. intros Hc. unfold info. spec_auto. Qed.
Lemma safe_pingKeys cmd : 0 < zlen cmd → safe [] L strict L (pingKeys cmd) L.
Proof. intros Hc. unfold pingKeys. spec_auto. Qed.
Lemma safe_delKey cmd : 0 < zlen cmd → safe [] L strict L (delKey cmd) L.
Proof. intros Hc. unfold delKey. spec_auto. Qed.
Lemma safe_existsKey cmd : 0 < zlen cmd → safe [] L strict L (existsKey cmd) L.
Proof. intros Hc. unfold existsKey. spec_auto. Qed.
Lemma safe_expireKey cmd : 0 < zlen cmd → safe [] L strict L (expireKey cmd) L.
Proof. intros Hc. unfold expireKey. spec_auto. Qed.
Lemma safe_persistKey cmd : 0 < zlen cmd → safe [] L strict L (persistKey cmd) L.
Proof. intros Hc. unfold persistKey. spec_auto. Qed.
Lemma safe_ttlKey cmd : 0 < zlen cmd → safe [] L strict L (ttlKey cmd) L.
Proof. intros Hc. unfold ttlKey. spec_auto. Qed.
Lemma safe_typeKey cmd : 0 < zlen cmd → safe [] L strict L (typeKey cmd) L.
Proof. intros Hc. unfold typeKey. spec_auto. Qed.
Lemma safe_renameKey cmd : 0 < zlen cmd → safe [] L strict L (renameKey cmd) L.
Proof. intros Hc. unfold renameKey. spec_auto. Qed.

(** List commands. *)
Lemma safe_list_Len V L0 md LP p : VList p ∈ V → safe V L0 md LP (list_Len p) L0.
Proof. intros Hp. unfold list_Len. spec_auto. Qed.
Lemma safe_list_pop V L0 md LP p o :
  VList p ∈ V → list_op_ok o → (∀ vs, ∃ v, (list_spec o vs).1 = LVal v) → safe V L0 md LP (list_pop p o) L0.
Proof.
  intros Hp Ho Hr. unfold list_pop. spec_step. destruct (Hr x) as [v ->]. spec_auto.
Qed.
#[local] Hint Resolve safe_list_Len safe_list_pop : spec.
#[local] Hint Extern 1 (∀ _, ∃ _, (list_spec _ _).1 = _) => (intros ?; by eexists) : spec.
Lemma safe_drop_if_empty V L0 md LP p key : VList p ∈ V → safe V L0 md LP (drop_if_empty p key) L0.
Proof. intros Hp. unfold drop_if_empty. spec_auto. Qed.
Lemma safe_push_all V L0 md LP push p args :
  (∀ v, list_op_ok (push v)) → VList p ∈ V → safe V L0 md LP (push_all push p args) L0.
Proof. intros Ho Hp. unfold push_all. spec_auto. Qed.
#[local] Hint Resolve safe_drop_if_empty safe_push_all : spec.
Lemma safe_pop_many V L0 md LP pop p cnt res :
  VList p ∈ V → list_op_ok pop → (∀ vs, ∃ v, (list_spec pop vs).1 = LVal v) →
  safe V L0 md LP (pop_many pop p cnt res) L0.
Proof. intros Hp Ho Hr. revert res. induction cnt; intros res; cbn [pop_many]; spec_auto. Qed.
#[local] Hint Resolve safe_pop_many : spec.
Lemma safe_pushx_body V push key args :
  (∀ v, list_op_ok (push v)) → safe V L strict L (pushx_body push key args) L.
Proof. intros Ho. unfold pushx_body. spec_auto. Qed.
Lemma safe_push_body V push key args :
  (∀ v, list_op_ok (push v)) → safe V L strict L (push_body push key args) L.
Proof. intros Ho. unfold push_body. spec_auto. Qed.
#[local] Hint Extern 1 (∀ _, list_op_ok _) => done : spec.
#[local] Hint Resolve safe_pushx_body safe_push_body : spec.
Lemma safe_pop_body V pop cmd cnt :
  1 < zlen cmd → list_op_ok pop → (∀ vs, ∃ v, (list_spec pop vs).1 = LVal v) →
  safe V L strict L (pop_body pop cmd cnt) L.
Proof. intros Hc Ho Hr. unfold pop_body. spec_auto. Qed.
#[local] Hint Resolve safe_pop_body : spec.
Lemma safe_pop_count V md LP cmd : safe V L md LP (pop_count cmd) L.
Proof. unfold pop_count. spec_auto. Qed.
#[local] Hint Resolve safe_pop_count : spec.
Lemma safe_lRangeList cmd : 0 < zlen cmd → safe [] L strict L (lRangeList cmd) L.
Proof. intros Hc. unfold lRangeList. spec_auto. Qed.
Lemma safe_lTrimList cmd : 0 < zlen cmd → safe [] L strict L (lTrimList cmd) L.
Proof. intros Hc. unfold lTrimList. spec_auto. Qed.
Lemma safe_lRemList cmd : 0 < zlen cmd → safe [] L strict L (lRemList cmd) L.
Proof. intros Hc. unfold lRemList. spec_auto. Qed.
Lemma safe_lSetList cmd : 0 < zlen cmd → safe [] L strict L (lSetList cmd) L.
Proof. intros Hc. unfold lSetList. spec_auto. Qed.
Lemma safe_rPushXList cmd : 0 < zlen cmd → safe [] L strict L (rPushXList cmd) L.
Proof. intros Hc. unfold rPushXList. spec_auto. Qed.
Lemma safe_rPushList cmd : 0 < zlen cmd → safe [] L strict L (rPushList cmd) L.
Proof. intros Hc. unfold rPushList. spec_auto. Qed.
Lemma safe_lPushXList cmd : 0 < zlen cmd → safe [] L strict L (lPushXList cmd) L.
Proof. intros Hc. unfold lPushXList. spec_auto. Qed.
Lemma safe_lPushList cmd : 0 < zlen cmd → safe [] L strict L (lPushList cmd) L.
Proof. intros Hc. unfold lPushList. spec_auto. Qed.
Lemma safe_rPopList cmd : 0 < zlen cmd → safe [] L strict L (rPopList cmd) L.
Proof. intros Hc. unfold rPopList. spec_auto. Qed.
Lemma safe_lPopList cmd : 0 < zlen cmd → safe [] L strict L (lPopList cmd) L.
Proof. intros Hc. unfold lPopList. spec_auto. Qed.
Lemma lpos_options_ok args e rank count maxLen r c m :
  list_op_ok (OLPos e rank count maxLen) → lpos_options args rank count maxLen = inl (r, c, m) →
  list_op_ok (OLPos e r c m).
Proof.
  revert rank count maxLen. induction args as [args IH] using (induction_ltof1 _ (@length _)).
  intros rank count maxLen Hok. destruct args as [|o [|v args]]; cbn [lpos_options]; [by intros [= <- <- <-]..|].
  assert (ltof _ length args (o :: v :: args)) as Hlt by (unfold ltof; cbn; lia). cbn in Hok.
  destruct (beq _ _); [|destruct (beq _ _); [|destruct (beq _ _); [|done]]].
  all: destruct (Atoi (str v)) as [n|]; [|done].
  - destruct (Z.eqb_spec n 0); [done|]. apply (IH args Hlt). cbn. split; [congruence|]. tauto.
  - destruct (Z.ltb_spec n 0); [done|]. apply (IH args Hlt). cbn. split; [tauto|]. split; [lia|]. tauto.
  - destruct (Z.ltb_spec n 0); [done|]. apply (IH args Hlt). cbn. split; [tauto|]. split; [tauto|]. lia.
Qed.
Lemma safe_lPosList cmd : 0 < zlen cmd → safe [] L strict L (lPosList cmd) L.
Proof.
  intros Hc. unfold lPosList. spec_auto.
  assert (list_op_ok (OLPos a1 o0 o1 o)) by (eapply lpos_options_ok; [|exact Heqs]; cbn; lia || done).
  spec_auto.
Qed.
Lemma safe_lIndexList cmd : 0 < zlen cmd → safe [] L strict L (lIndexList cmd) L.
Proof. intros Hc. unfold lIndexList. spec_auto. Qed.
Lemma safe_lLenList cmd : 0 < zlen cmd → safe [] L strict L (lLenList cmd) L.
Proof. intros Hc. unfold lLenList. spec_auto. Qed.


(** LMOVE pops after it has seen that the list is not empty; creating the
    destination does not change the source. *)
Lemma safe_nonempty {A} V L0 p (z : A) (k : M Model A) :
  VList p ∈ V →
  (∀ m vs, heap_ok m → m_lists m !! p = Some vs → 0 < zlen vs → (k m).1 ≠ Panics) →
  safe V L0 (mkMode true false) L0 k L0 →
  safe V L0 strict L0 (n ← list_Len p; if n =? 0 then mret z else k) L0.
Proof.
  intros Hp Hk Hs m Hh Hv HLm. pose proof Hv as Hv'. rewrite Forall_forall in Hv'.
  destruct (Hv' _ Hp) as [vs Ep].
  pose proof (safe_list_Len V L0 strict L0 p Hp m Hh Hv HLm) as Hlen.
  unfold mbind, M_bind. unfold list_Len, mbind, M_bind in *. cbn [list_do Model_Store] in *. rewrite Ep in *.
  case_decide; [|done]. cbn [list_spec fst snd mret M_ret] in *. destruct Hlen as (_ & Hh' & Hvs & HL').
  destruct (Z.eqb_spec (zlen vs) 0); [by split_and!|].
  set (m1 := set_lists _ m) in *. specialize (Hk m1 vs). specialize (Hs m1 Hh' Hvs HL').
  destruct (k m1) as [[a| | |] m2]; [done| |done..]. destruct Hk; [done| |pose proof (zlen_nonneg vs); lia|done].
  unfold m1. cbn. by rewrite lookup_insert_eq.
Qed.

Lemma list_pop_no_panic m p vs o :
  o = OLPop ∨ o = ORPop → m_lists m !! p = Some vs → 0 < zlen vs →
  (∃ v m', list_pop p o m = (Ret (Some v), m') ∧ dom (m_lists m) ⊆ dom (m_lists m')) ∨ list_pop p o m = (Blocks, m).
Proof.
  intros Ho Ep Hn. unfold list_pop, mbind, M_bind. cbn [list_do Model_Store]. rewrite Ep.
  case_decide; [left|by right]. destruct vs as [|v vs]; [done|].
  assert (∃ w, (list_spec o (v :: vs)).1 = LVal (Some w)) as [w ->].
  { destruct Ho as [->| ->]; cbn [list_spec fst]; [by exists v|].
    destruct (last (v :: vs)) as [w|] eqn:E; [by exists w|by apply last_None in E]. }
  eexists _, _. split; [done|]. cbn. set_solver.
Qed.

Lemma lmove_no_panic des p o (push : slice → list_op) m vs :
  o = OLPop ∨ o = ORPop → heap_ok m → m_lists m !! p = Some vs → 0 < zlen vs →
  ((desTem ← db_Get des;
    desTem ← (match desTem with
              | Some v => mret v
              | None => p ← list_new; db_Set des (VList p);; mret (VList p)
              end);
    match desTem with
    | VList desList =>
        popElem ← list_pop p o;
        match popElem with
        | None => mpanic
        | Some val => list_do desList (push val);; mret (MakeBulkData val)
        end
    | _ => wrong_type
    end) m).1 ≠ Panics.
Proof.
  intros Ho Hh Ep Hn.
  assert (∀ m' d, m_lists m' !! p = Some vs → is_Some (m_lists m' !! d) →
    ((popElem ← list_pop p o;
      match popElem with
      | None => mpanic
      | Some val => list_do d (push val);; mret (MakeBulkData val)
      end) m').1 ≠ Panics) as Hmove.
  { intros m' d Ep' Hd. destruct (list_pop_no_panic m' p vs o Ho Ep' Hn) as [(v & m'' & E & Hdom)|E].
    - erewrite bind_Ret by exact E. unfold mbind, M_bind. cbn [list_do Model_Store].
      assert (is_Some (m_lists m'' !! d)) as [us ->] by (rewrite <- elem_of_dom in *; auto).
      by case_decide.
    - unfold mbind, M_bind. by rewrite E. }
  erewrite bind_Ret by done. destruct (m_db m !! des) as [v|] eqn:Ev.
  - erewrite bind_Ret by done. specialize (Hh des v Ev). destruct v; try done. by apply Hmove.
  - erewrite bind_Ret by done. apply Hmove; cbn.
    + rewrite lookup_insert_ne; [done|]. intros E. apply (is_fresh (dom (m_lists m))). rewrite E.
      by apply elem_of_dom.
    + by rewrite lookup_insert_eq.
Qed.

Lemma safe_lMoveList cmd : 0 < zlen cmd → safe [] L strict L (lMoveList cmd) L.
Proof.
  intros Hc. unfold lMoveList.
  repeat lazymatch goal with |- spec _ _ _ _ (list_Len _ ≫= _) _ _ _ => fail | _ => spec_step end;
    (apply safe_nonempty; [solve_mem| |spec_auto]; intros m vs;
     first [ apply (lmove_no_panic _ _ _ OLPush); by auto
           | apply (lmove_no_panic _ _ _ ORPush); by auto]).
Qed.

(** Set commands. *)
Lemma safe_set_Add V L0 md LP p key : VSet p ∈ V → safe V L0 md LP (set_Add p key) L0.
Proof. intros Hp. unfold set_Add. spec_auto. Qed.
Lemma safe_set_Remove V L0 md LP p key : VSet p ∈ V → safe V L0 md LP (set_Remove p key) L0.
Proof. intros Hp. unfold set_Remove. spec_auto. Qed.
Lemma safe_set_Pop V L0 md LP p : VSet p ∈ V → safe V L0 md LP (set_Pop p) L0.
Proof. intros Hp. unfold set_Pop. spec_auto. Qed.
Lemma safe_set_Members V L0 md LP p : VSet p ∈ V → safe V L0 md LP (set_Members p) L0.
Proof. intros Hp. unfold set_Members. spec_auto. Qed.
Lemma safe_drop_if_empty_set V L0 md LP p key : VSet p ∈ V → safe V L0 md LP (drop_if_empty_set p key) L0.
Proof. intros Hp. unfold drop_if_empty_set. spec_auto. Qed.
Lemma safe_live_keys V md LP args : safe V L md LP (live_keys args) L.
Proof. unfold live_keys. spec_auto. Qed.
Lemma safe_dest_ok V L0 md LP key : safe V L0 md LP (dest_ok key) L0.
Proof. unfold dest_ok. spec_auto. Qed.
Lemma safe_store_set V L0 md LP key s : safe V L0 md LP (store_set key s) L0.
Proof. unfold store_set. spec_auto. Qed.
Lemma safe_random_source V L0 md LP n : safe V L0 md LP (random_source n) L0.
Proof. unfold random_source. spec_auto. Qed.
#[local] Hint Resolve safe_set_Add safe_set_Remove safe_set_Pop safe_set_Members safe_drop_if_empty_set
  safe_live_keys safe_dest_ok safe_store_set safe_random_source : spec.
Lemma safe_spop_many V L0 md LP p n res : VSet p ∈ V → safe V L0 md LP (spop_many p n res) L0.
Proof. intros Hp. revert res. induction n; intros res; cbn [spop_many]; spec_auto. Qed.
#[local] Hint Resolve safe_spop_many : spec.

(** The collected pointers refer to live sets. *)
Lemma collect_sets_run m keys sets :
  heap_ok m → Forall (λ p, valid m (VSet p)) sets →
  ∃ r, collect_sets keys sets m = (Ret r, m) ∧
    match r with Some ps => Forall (λ p, valid m (VSet p)) ps | None => True end.
Proof.
  intros Hh. revert sets. induction keys as [|key keys IH]; intros sets Hs; cbn [collect_sets]; [by exists (Some sets)|].
  rewrite (bind_Ret _ _ m (m_db m !! key) m) by done. destruct (m_db m !! key) as [v|] eqn:Ev; [|by apply IH].
  specialize (Hh key v Ev). destruct v as [| |p| |]; try (by exists None). apply IH,  Forall_app; split; [done|by constructor].
Qed.
Lemma spec_collect_sets V L0 md LP keys :
  spec V L0 md LP (collect_sets keys []) (λ _, True)
    (λ r, match r with Some ps => VSet <$> ps | None => [] end) L0.
Proof.
  intros m Hh Hv HLm. destruct (collect_sets_run m keys []) as (r & -> & Hr); [done..|].
  split_and!; [done|done| |done]. apply Forall_app; split; [|done].
  destruct r as [ps|]; [|done]. by apply Forall_fmap.
Qed.
Lemma safe_load_sets V L0 md LP ps :
  Forall (λ p, VSet p ∈ V) ps → safe V L0 md LP (load_sets ps) L0.
Proof.
  rewrite Forall_forall. intros Hps. unfold load_sets. apply safe_mfold_in. intros acc p Hp%Hps. spec_auto.
Qed.
Lemma collected V ps qs : Forall (λ p, VSet p ∈ (VSet <$> qs ++ ps) ++ V) ps.
Proof. apply Forall_forall. intros p Hp. rewrite elem_of_app, list_elem_of_fmap. set_solver. Qed.
#[local] Hint Resolve spec_collect_sets safe_load_sets : spec.
#[local] Hint Extern 1 (Forall (λ p, VSet p ∈ _) ?ps) =>
  first [apply (collected _ ps []) | match goal with |- context [?p :: ps] => apply (collected _ ps [p]) end] : spec.
Lemma safe_intersect_sets V L0 loop ps :
  Forall (λ p, VSet p ∈ V) ps → safe V L0 (mkMode true loop) L0 (intersect_sets ps) L0.
Proof. intros Hps. unfold intersect_sets. spec_step. unfold Prelude.index. spec_auto. Qed.
#[local] Hint Resolve safe_intersect_sets : spec.

Lemma safe_sUnionStoreSet cmd : 0 < zlen cmd → safe [] L strict L (sUnionStoreSet cmd) L.
Proof. intros Hc. unfold sUnionStoreSet. spec_auto. Qed.
Lemma safe_sUnionSet cmd : 0 < zlen cmd → safe [] L strict L (sUnionSet cmd) L.
Proof. intros Hc. unfold sUnionSet. spec_auto. Qed.
Lemma safe_sRemSet cmd : 0 < zlen cmd → safe [] L strict L (sRemSet cmd) L.
Proof. intros Hc. unfold sRemSet. spec_auto. Qed.
Lemma safe_sPopSet cmd : 0 < zlen cmd → safe [] L strict L (sPopSet cmd) L.
Proof. intros Hc. unfold sPopSet. spec_auto. Qed.
Lemma safe_sMoveSet cmd : 0 < zlen cmd → safe [] L strict L (sMoveSet cmd) L.
Proof. intros Hc. unfold sMoveSet. spec_auto. Qed.
Lemma safe_sMembersSet cmd : 0 < zlen cmd → safe [] L strict L (sMembersSet cmd) L.
Proof. intros Hc. unfold sMembersSet. spec_auto. Qed.
Lemma safe_sIsMemberSet cmd : 0 < zlen cmd → safe [] L strict L (sIsMemberSet cmd) L.
Proof. intros Hc. unfold sIsMemberSet. spec_auto. Qed.
Lemma safe_sDiffStoreSet cmd : 0 < zlen cmd → safe [] L strict L (sDiffStoreSet cmd) L.
Proof. intros Hc. unfold sDiffStoreSet. spec_auto. Qed.
Lemma safe_sDiffSet cmd : 0 < zlen cmd → safe [] L strict L (sDiffSet cmd) L.
Proof. intros Hc. unfold sDiffSet. spec_auto. Qed.
Lemma safe_sCardSet cmd : 0 < zlen cmd → safe [] L strict L (sCardSet cmd) L.
Proof. intros Hc. unfold sCardSet. spec_auto. Qed.
Lemma safe_sAddSet cmd : 0 < zlen cmd → safe [] L strict L (sAddSet cmd) L.
Proof. intros Hc. unfold sAddSet. spec_auto. Qed.
Lemma safe_sRandMemberSet cmd : 0 < zlen cmd → safe [] L (mkMode true false) L (sRandMemberSet cmd) L.
Proof. intros Hc. unfold sRandMemberSet. spec_auto. Qed.
Lemma safe_sInterSet cmd : 0 < zlen cmd → safe [] L (mkMode true false) L (sInterSet cmd) L.
Proof. intros Hc. unfold sInterSet. spec_auto. Qed.

(** Hash commands. *)
Lemma safe_hash_for_update V L0 md LP key :
  spec V L0 md LP (hash_for_update key) (λ _, True) (λ r, match r with Some p => [VHash p] | None => [] end) L0.
Proof.
  intros m Hh Hv HLm. unfold hash_for_update. rewrite (bind_Ret _ _ m (m_db m !! key) m) by done.
  destruct (m_db m !! key) as [v|] eqn:Ev.
  - pose proof (Hh key v Ev). by destruct v; split_and!; try done; apply Forall_cons.
  - pose proof (spec_new_hash V L0 md LP m Hh Hv HLm) as Hn. cbn in Hn |- *.
    destruct Hn as (_ & Hh' & Hv' & ?). split_and!; [done| |done|done].
    apply map_Forall_insert_2; [|done]. by apply Forall_cons in Hv' as [? _].
Qed.
Lemma safe_hash_read md key missing body :
  (∀ p h, safe [VHash p] (hold read_held [key] L) md (hold read_held [key] L) (body h) (hold read_held [key] L)) →
  safe [] L md L (hash_read key missing body) L.
Proof. intros Hb. unfold hash_read. spec_auto; auto with spec. Qed.
Lemma safe_orders_source V L0 md LP n : safe V L0 md LP (orders_source n) L0.
Proof. unfold orders_source. spec_auto. Qed.
Lemma safe_of_outcome {A} V L0 (o : outcome A) : safe V L0 (mkMode true true) L0 (of_outcome o) L0.
Proof. destruct o; unfold of_outcome; [apply spec_ret|by apply safe_panic|by apply safe_panic|]. intros m ? ? ?. by right. Qed.
#[local] Hint Resolve safe_hash_for_update safe_orders_source safe_of_outcome : spec.
#[local] Hint Extern 1 (spec _ _ _ _ (hash_read _ _ _) _ _ _) => (apply safe_hash_read; intros ? ?; spec_auto) : spec.

Lemma safe_hStrLenHash cmd : 0 < zlen cmd → safe [] L strict L (hStrLenHash cmd) L.
Proof. intros Hc. unfold hStrLenHash. spec_auto. Qed.
Lemma safe_hSetNxHash cmd : 0 < zlen cmd → safe [] L strict L (hSetNxHash cmd) L.
Proof. intros Hc. unfold hSetNxHash. spec_auto. Qed.
Lemma safe_hIncrByHash cmd : 0 < zlen cmd → safe [] L strict L (hIncrByHash cmd) L.
Proof. intros Hc. unfold hIncrByHash. spec_auto. Qed.
Lemma safe_hIncrByFloatHash cmd : 0 < zlen cmd → safe [] L strict L (hIncrByFloatHash cmd) L.
Proof. intros Hc. unfold hIncrByFloatHash. spec_auto. Qed.
Lemma safe_hValsHash cmd : 0 < zlen cmd → safe [] L strict L (hValsHash cmd) L.
Proof. intros Hc. unfold hValsHash. spec_auto. Qed.
Lemma safe_hKeysHash cmd : 0 < zlen cmd → safe [] L strict L (hKeysHash cmd) L.
Proof. intros Hc. unfold hKeysHash. spec_auto. Qed.
Lemma safe_hLenHash cmd : 0 < zlen cmd → safe [] L strict L (hLenHash cmd) L.
Proof. intros Hc. unfold hLenHash. spec_auto. Qed.
Lemma safe_hSetHash cmd : 0 < zlen cmd → safe [] L strict L (hSetHash cmd) L.
Proof. intros Hc. unfold hSetHash. spec_auto. Qed.
Lemma safe_hGetHash cmd : 0 < zlen cmd → safe [] L strict L (hGetHash cmd) L.
Proof. intros Hc. unfold hGetHash. spec_auto. Qed.
Lemma safe_hMGetHash cmd : 0 < zlen cmd → safe [] L strict L (hMGetHash cmd) L.
Proof. intros Hc. unfold hMGetHash. spec_auto. Qed.
Lemma safe_hDelHash cmd : 0 < zlen cmd → safe [] L strict L (hDelHash cmd) L.
Proof. intros Hc. unfold hDelHash. spec_auto. Qed.
Lemma safe_hExistsHash cmd : 0 < zlen cmd → safe [] L strict L (hExistsHash cmd) L.
Proof. intros Hc. unfold hExistsHash. spec_auto. Qed.
Lemma safe_hGetAllHash cmd : 0 < zlen cmd → safe [] L strict L (hGetAllHash cmd) L.
Proof. intros Hc. unfold hGetAllHash. spec_auto. Qed.
Lemma safe_hRandFieldHash cmd : 0 < zlen cmd → safe [] L (mkMode true true) L (hRandFieldHash cmd) L.
Proof. intros Hc. unfold hRandFieldHash. spec_auto. Qed.

(** Sorted sets *)
Lemma safe_level_source V L0 md LP : safe V L0 md LP level_source L0.
Proof. unfold level_source. spec_auto. Qed.
Lemma safe_zset_for_update V L0 md LP key :
  spec V L0 md LP (zset_for_update key) (λ _, True) (λ r, match r with Some p => [VZSet p] | None => [] end) L0.
Proof.
  intros m Hh Hv HLm. unfold zset_for_update. rewrite (bind_Ret _ _ m (m_db m !! key) m) by done.
  destruct (m_db m !! key) as [v|] eqn:Ev.
  - pose proof (Hh key v Ev). by destruct v; split_and!; try done; apply Forall_cons.
  - pose proof (spec_new_zset V L0 md LP m Hh Hv HLm) as Hn. cbn in Hn |- *.
    destruct Hn as (_ & Hh' & Hv' & ?). split_and!; [done| |done|done].
    apply map_Forall_insert_2; [|done]. by apply Forall_cons in Hv' as [? _].
Qed.
#[local] Hint Resolve safe_level_source safe_zset_for_update : spec.
Lemma safe_with_zset V L0 md LP key missing body :
  (∀ p, safe (VZSet p :: V) L0 md LP (body p) L0) → safe V L0 md LP (with_zset key missing body) L0.
Proof. intros Hb. unfold with_zset. spec_auto; auto with spec. Qed.
#[local] Hint Extern 1 (spec _ _ _ _ (with_zset _ _ _) _ _ _) => (apply safe_with_zset; intros ?; spec_auto) : spec.
#[local] Hint Extern 1 (spec _ _ _ _ (zset_read _ _ _) _ _ _) => (unfold zset_read; spec_auto) : spec.
#[local] Hint Extern 1 (spec _ _ _ _ (zset_write _ _ _) _ _ _) => (unfold zset_write; spec_auto) : spec.
#[local] Hint Extern 1 (spec _ _ _ _ (score_bounds _ _) _ _ _) => (unfold score_bounds; spec_auto) : spec.
Lemma safe_zadd_loop V L0 md LP p args n : VZSet p ∈ V → safe V L0 md LP (zadd_loop p args n) L0.
Proof.
  intros Hp. revert n. induction args as [args IH] using (induction_ltof1 _ (@length _)); intros n.
  destruct args as [|s [|k args]]; cbn [zadd_loop]; [apply spec_ret..|].
  destruct (ParseFloat (str s)); [|apply spec_err]. eapply spec_bind; [apply safe_level_source|]. intros rnd _.
  eapply spec_bind; [apply spec_on_zset; [done|auto with zset]|]. intros b _. apply IH. unfold ltof. cbn. lia.
Qed.
#[local] Hint Resolve safe_zadd_loop : spec.
Lemma safe_zAddZset cmd : 0 < zlen cmd → safe [] L strict L (zAddZset cmd) L.
Proof.
  intros Hc. unfold zAddZset. eapply spec_bind; [spec_op|]. intros ok _. destruct ok; cbn [negb]; [|apply spec_ret].
  eapply spec_bind; [|intros r _; apply spec_ret]. cbn [app]. spec_auto.
Qed.
Lemma safe_zCardZset cmd : 0 < zlen cmd → safe [] L strict L (zCardZset cmd) L.
Proof. intros Hc. unfold zCardZset. spec_auto. Qed.
Lemma safe_zCountZset cmd : 0 < zlen cmd → safe [] L strict L (zCountZset cmd) L.
Proof. intros Hc. unfold zCountZset. spec_auto. Qed.
Lemma safe_zRangeZset cmd : 0 < zlen cmd → safe [] L strict L (zRangeZset cmd) L.
Proof. intros Hc. unfold zRangeZset, range_cmd. spec_auto. Qed.
Lemma safe_zRevRangeZset cmd : 0 < zlen cmd → safe [] L strict L (zRevRangeZset cmd) L.
Proof. intros Hc. unfold zRevRangeZset, range_cmd. spec_auto. Qed.
Lemma safe_zRankZset cmd : 0 < zlen cmd → safe [] L strict L (zRankZset cmd) L.
Proof. intros Hc. unfold zRankZset, rank_cmd. spec_auto. Qed.
Lemma safe_zRevRankZset cmd : 0 < zlen cmd → safe [] L strict L (zRevRankZset cmd) L.
Proof. intros Hc. unfold zRevRankZset, rank_cmd. spec_auto. Qed.
Lemma safe_zRemZset cmd : 0 < zlen cmd → safe [] L strict L (zRemZset cmd) L.
Proof. intros Hc. unfold zRemZset. spec_auto. Qed.
Lemma safe_zScoreZset cmd : 0 < zlen cmd → safe [] L strict L (zScoreZset cmd) L.
Proof. intros Hc. unfold zScoreZset. spec_auto. Qed.
Lemma safe_zRangeByScoreZset cmd : 0 < zlen cmd → safe [] L strict L (zRangeByScoreZset cmd) L.
Proof. intros Hc. unfold zRangeByScoreZset. spec_auto. Qed.
Lemma safe_zIncrByZset cmd : 0 < zlen cmd → safe [] L strict L (zIncrByZset cmd) L.
Proof. intros Hc. unfold zIncrByZset. spec_auto. Qed.
Lemma safe_zRemRangeByRankZset cmd : 0 < zlen cmd → safe [] L strict L (zRemRangeByRankZset cmd) L.
Proof. intros Hc. unfold zRemRangeByRankZset. spec_auto. Qed.
Lemma safe_zRemRangeByScoreZset cmd : 0 < zlen cmd → safe [] L strict L (zRemRangeByScoreZset cmd) L.
Proof. intros Hc. unfold zRemRangeByScoreZset. spec_auto. Qed.
End handlers.

(** ** All commands *)

(** The commands that can panic (SETRANGE far beyond the end, SINTER of missing
    keys, the random selections), and the one that can loop. *)
Definition may_panic_names : list bytes :=
  lit <$> ["setrange"; "sinter"; "srandmember"; "hrandfield"]%string.
Definition cmd_name `{Host} (cmd : list slice) : bytes :=
  match cmd with [] => [] | c :: _ => ToLower (str c) end.
(** Commands that are treated apart: SINTERSTORE keeps its locks when it panics, and
    the reference store does not answer KEYS. *)
Definition excluded : list bytes := lit <$> ["sinterstore"; "keys"]%string.
Definition mode_of (name : bytes) : mode :=
  mkMode (bool_decide (name ∈ may_panic_names)) (beq name (lit "hrandfield")).

Section all.
Context `{Host}.
Variable L : Locks.
Hypothesis HL : locks_free L.

Definition table_safe (t : gmap bytes (executor (S := Model))) : Prop :=
  ∀ name e cmd, t !! name = Some e → name ∉ excluded → 0 < zlen cmd →
    safe [] L (mode_of name) L (e cmd) L.

Lemma table_safe_register name e t :
  (name ∉ excluded → ∀ cmd, 0 < zlen cmd → safe [] L (mode_of name) L (e cmd) L) →
  table_safe t → table_safe (RegisterCommand name e t).
Proof.
  intros He Ht n e' cmd. unfold RegisterCommand. rewrite lookup_insert.
  case_decide as Hn; [|apply Ht]. subst. intros [= <-]. by intros; apply He.
Qed.

Lemma safe_replies md (e : list slice → M Model RedisData) cmd :
  safe [] L md L (e cmd) L → safe [] L md L (replies e cmd) L.
Proof. intros He. eapply spec_bind; [exact He|]. intros r _. apply spec_ret. Qed.

#[local] Hint Resolve safe_setString safe_getString safe_setRangeString safe_getRangeString safe_mSetString
  safe_mGetString safe_setExString safe_setNxString safe_strLenString safe_incrString safe_incrByString
  safe_decrString safe_decrByString safe_appendString safe_incrByFloatString safe_lPosList safe_hIncrByFloatHash safe_client safe_infoConfig safe_scan safe_info safe_quit safe_pingKeys safe_delKey safe_existsKey safe_expireKey
  safe_persistKey safe_ttlKey safe_typeKey safe_renameKey safe_lMoveList safe_lRangeList safe_lTrimList
  safe_lRemList safe_lSetList safe_rPushXList safe_rPushList safe_lPushXList safe_lPushList safe_rPopList
  safe_lPopList safe_lIndexList safe_lLenList safe_hRandFieldHash safe_hStrLenHash safe_hSetNxHash
  safe_hIncrByHash safe_hValsHash safe_hKeysHash safe_hLenHash safe_hSetHash safe_hGetHash safe_hMGetHash
  safe_hDelHash safe_hExistsHash safe_hGetAllHash safe_sUnionStoreSet safe_sUnionSet safe_sRemSet
  safe_sRandMemberSet safe_sPopSet safe_sMoveSet safe_sMembersSet safe_sIsMemberSet
  safe_sInterSet safe_sDiffStoreSet safe_sDiffSet safe_sCardSet safe_sAddSet safe_zAddZset
  safe_zCardZset safe_zCountZset safe_zRangeZset safe_zRevRangeZset safe_zRankZset safe_zRevRankZset
  safe_zRemZset safe_zScoreZset safe_zRangeByScoreZset safe_zIncrByZset safe_zRemRangeByRankZset safe_zRemRangeByScoreZset : spec.

Lemma CmdTable_safe : table_safe CmdTable.
Proof.
  unfold CmdTable, RegisterInfoCommands, RegisterZSetCommands, RegisterSetCommands, RegisterListCommands, RegisterHashCommands,
    RegisterStringCommands, RegisterKeyCommand. cbn [foldr].
  repeat (apply table_safe_register;
    [intros Hn; try (by destruct Hn; apply (bool_decide_unpack _); vm_compute); intros cmd Hc; clear Hn; try apply safe_replies;
     lazymatch goal with |- spec _ _ ?md _ _ _ _ _ => let md' := eval vm_compute in md in change md with md' end;
     change {| may_panic := false; may_loop := false |} with strict; auto with spec|]).
  intros name e cmd. by rewrite lookup_empty.
Qed.

Lemma safe_ExecCommand cmd :
  cmd_name cmd ∉ excluded →
  safe [] L (mode_of (cmd_name cmd)) L (ExecCommand CmdTable cmd) L.
Proof.
  intros Hn. unfold ExecCommand. destruct cmd as [|c cmd]; [apply spec_ret|]. cbn [cmd_name] in *. cbv zeta.
  destruct (CmdTable !! _) as [e|] eqn:E; [|apply spec_ret].
  eapply CmdTable_safe; [exact E|done|].
  rewrite zlen_cons. pose proof (zlen_nonneg cmd). lia.
Qed.

(** Sessions keep the database well formed and the locks free. *)
Lemma safe_loosen {A} V md LP (c : M Model A) L1 L' :
  safe V L1 md LP c L' → safe V L1 (mkMode true true) LP c L'.
Proof.
  intros Hc m Hh Hv HLm. specialize (Hc m Hh Hv HLm). destruct (c m) as [[a| | |] m']; try done.
  - by destruct Hc as (_ & ?).
  - by right.
Qed.
Lemma safe_run_commands cmds :
  Forall (λ cmd, cmd_name cmd ∉ excluded) cmds →
  safe [] L (mkMode true true) L (run_commands cmds) L.
Proof.
  intros Hc. apply safe_mfold_in. intros rs cmd Hin. rewrite Forall_forall in Hc.
  eapply spec_bind; [eapply safe_loosen, safe_ExecCommand; auto|]. intros r _. apply spec_ret.
Qed.
End all.

Section safety.
Context `{Host} {tree : Type → Type} `{!RBTree tree, !RBTreeLaws tree}.

(** C3: Every command but SINTERSTORE and KEYS is safe on a database whose values point to
    live objects and whose locks are free.  When it returns, the database is again
    of that kind and all locks are released.  It never commits a fatal error of
    the runtime (unlocking a free mutex), and never waits for a lock it holds
    itself.  Only SETRANGE, SINTER, SRANDMEMBER and HRANDFIELD can panic, and then
    the locks are released and no object is lost; only HRANDFIELD can loop.  The
    program's own data structures behave the same way. *)
Theorem ExecCommand_safe (w : World tree) m cmd :
  represents w m → heap_ok m → locks_free (m_locks m) → cmd_name cmd ∉ excluded →
  match ExecCommand CmdTable cmd m with
  | (Ret r, m') =>
      heap_ok m' ∧ m_locks m' = m_locks m ∧
      ∃ w', ExecCommand CmdTable cmd w = (Ret r, w') ∧ represents w' m'
  | (Panics, m') =>
      cmd_name cmd ∈ may_panic_names ∧ heap_ok m' ∧ m_locks m' = m_locks m ∧
      ∃ w', ExecCommand CmdTable cmd w = (Panics, w') ∧ represents w' m'
  | (Fatals, _) => False
  | (Blocks, m') => overlong m' ∨ cmd_name cmd = lit "hrandfield"
  end.
Proof.
  intros Hr Hh Hl Hn. pose proof (safe_ExecCommand _ Hl cmd Hn m Hh (Forall_nil_2 _) eq_refl) as Hs.
  pose proof (sim_ExecCommand cmd w m Hr) as Hsim.
  destruct (ExecCommand CmdTable cmd m) as [[r| | |] m']; [|..|done|].
  - destruct Hs as (_ & ? & _ & ?). by split_and!.
  - destruct Hs as (Hp & ? & _ & ?). split_and!; [|done..]. cbn in Hp. by apply bool_decide_eq_true in Hp.
  - destruct Hs as [?|Hp]; [by left|right]. by apply beq_eq in Hp.
Qed.
End safety.

(** ** Concrete states *)
#[local] Existing Instance demo_host.
Definition demo_model : Model := (run_commands demo_session (NewModel 2)).2.
Definition demo_world : World sorted_tree := (run_commands demo_session (new_world 2)).2.
Lemma demo_represents : represents demo_world demo_model.
Proof.
  pose proof (sim_run_commands (tree := sorted_tree) demo_session _ _ (new_world_represents 2)) as Hs.
  unfold demo_world, demo_model. destruct (run_commands demo_session (NewModel 2)) as [o m'] eqn:E.
  assert (o = (run_commands demo_session (NewModel 2)).1) as -> by (by rewrite E).
  assert ((run_commands demo_session (NewModel 2)).1 = Ret demo_replies) as Ho by (vm_compute; reflexivity).
  rewrite Ho in *. destruct Hs as (w' & -> & Hr). done.
Qed.

Lemma demo_heap_ok : heap_ok demo_model.
Proof.
  assert (locks_free (lock_table 4)) as Hfree by (apply (bool_decide_unpack _); vm_compute; exact I).
  pose proof (safe_run_commands (lock_table 4) Hfree demo_session) as Hs.
  assert (Forall (λ cmd, cmd_name cmd ∉ excluded) demo_session) as Hn by (apply (bool_decide_unpack _); vm_compute; exact I).
  specialize (Hs Hn (NewModel 2) (map_Forall_empty _) (Forall_nil_2 _) eq_refl).
  unfold demo_model. destruct (run_commands demo_session (NewModel 2)) as [o m'] eqn:E.
  assert (o = Ret demo_replies) as -> by (change o with (o, m').1; rewrite <- E; vm_compute; reflexivity).
  by destruct Hs as (_ & ? & _).
Qed.

Lemma ExecCommand_safe_witness :
  (ExecCommand CmdTable (command ["LMOVE"; "l"; "m"; "LEFT"; "RIGHT"]%string) demo_world).1 =
  Ret (Some (MakeBulkData (Some (lit "z")))).
Proof.
  pose proof (ExecCommand_safe demo_world demo_model (command ["LMOVE"; "l"; "m"; "LEFT"; "RIGHT"]%string)
    demo_represents) as Hs.
  destruct (ExecCommand CmdTable _ demo_model) as [o m'] eqn:E.
  assert (o = Ret (Some (MakeBulkData (Some (lit "z"))))) as ->.
  { change o with (o, m').1. rewrite <- E. vm_compute. reflexivity. }
  destruct Hs as (_ & _ & w' & -> & _).
  - apply demo_heap_ok.
  - apply (bool_decide_unpack _). vm_compute. exact I.
  - apply (bool_decide_unpack _). vm_compute. exact I.
  - reflexivity.
Defined.
