(* ===== verification/Commands.v ===== *)
(** * What the commands do

    Functional behaviour of commands on the reference store, to which the
    database refines ([Refine.v]): replies and new contents, expiry included. *)

From Stdlib Require Import Ascii String ZArith Lia.
From stdpp Require Import prelude gmap list fin_maps.
From S2P Require Import Prelude RESP Util CMap Heap TTL Locks ListStruct ListOps SetStruct HashStruct Store World Model.
From S2P Require Import Strings Keys ListCmds SetCmds HashCmds Refine Safety.
Open Scope Z_scope.

(** ** Symbolic execution *)
#[local] Arguments Lock : simpl never.
#[local] Arguments UnLock : simpl never.
#[local] Arguments RLock : simpl never.
#[local] Arguments RUnLock : simpl never.
#[local] Arguments LockMulti : simpl never.
#[local] Arguments UnLockMulti : simpl never.
#[local] Arguments RLockMulti : simpl never.
#[local] Arguments RUnLockMulti : simpl never.
#[local] Arguments hold : simpl never.

Section run.
Context `{Host}.
Implicit Types (m : Model) (key : bytes).

(** The state after [CheckTTL key]: one clock reading, and a key that has
    expired is gone. *)
Definition is_expired key m : bool := expired (unix_now (m_tick m)) (m_exp m !! key).
Definition checked key m : Model :=
  set_tick (S (m_tick m))
    (if is_expired key m then set_db (delete key (m_db m)) (set_exp (delete key (m_exp m)) m) else m).

Lemma run_CheckTTL key m :
  locks_free (m_locks m) → MemDb_CheckTTL key m = (Ret (negb (is_expired key m)), checked key m).
Proof.
  intros Hl. unfold MemDb_CheckTTL, checked, is_expired, now. unfold mbind, M_bind. cbn.
  destruct (expired _ _); [|done]. rewrite Lock_free by done. cbn. rewrite UnLock_held by done. done.
Qed.
Lemma checked_locks key m : m_locks (checked key m) = m_locks m.
Proof. unfold checked. by destruct (is_expired key m). Qed.

Lemma set_locks_id m : set_locks (m_locks m) m = m.
Proof. by destruct m. Qed.
Lemma set_locks_same m L : m_locks m = L → set_locks L m = m.
Proof. intros <-. apply set_locks_id. Qed.

Lemma set_locks_twice m L L' : set_locks L (set_locks L' m) = set_locks L m.
Proof. done. Qed.

(** A body under the lock of its key. *)
Lemma run_locked {A} key (body : M Model A) m o m' :
  locks_free (m_locks m) → m_locks m' = m_locks m → recoverable o →
  body (set_locks (hold write_held [key] (m_locks m)) m) = (o, set_locks (hold write_held [key] (m_locks m)) m') →
  (locks_Lock key;; mdefer (locks_UnLock key) body) m = (o, m').
Proof.
  intros Hl Hm' Ho E. unfold mbind, M_bind, locks_Lock. cbn. rewrite Lock_free by done.
  unfold mdefer. rewrite E. destruct o; [| |done..]; cbn; rewrite UnLock_held by done; cbn;
    f_equal; rewrite set_locks_twice; by apply set_locks_same.
Qed.
Lemma run_rlocked {A} key (body : M Model A) m o m' :
  locks_free (m_locks m) → m_locks m' = m_locks m → recoverable o →
  body (set_locks (hold read_held [key] (m_locks m)) m) = (o, set_locks (hold read_held [key] (m_locks m)) m') →
  (locks_RLock key;; mdefer (locks_RUnLock key) body) m = (o, m').
Proof.
  intros Hl Hm' Ho E. unfold mbind, M_bind, locks_RLock. cbn. rewrite RLock_free by done.
  unfold mdefer. rewrite E. destruct o; [| |done..]; cbn; rewrite RUnLock_held by done; cbn;
    f_equal; rewrite set_locks_twice; by apply set_locks_same.
Qed.

(** A body under the locks of several keys. *)
Lemma run_locked_multi {A} keys (body : M Model A) m o m' :
  locks_free (m_locks m) → m_locks m' = m_locks m → recoverable o →
  body (set_locks (hold write_held keys (m_locks m)) m) = (o, set_locks (hold write_held keys (m_locks m)) m') →
  (locks_LockMulti keys;; mdefer (locks_UnLockMulti keys) body) m = (o, m').
Proof.
  intros Hl Hm' Ho E. unfold mbind, M_bind, locks_LockMulti. cbn. rewrite LockMulti_free by done.
  unfold mdefer. rewrite E. destruct o; [| |done..]; cbn; rewrite UnLockMulti_held by done; cbn;
    f_equal; rewrite set_locks_twice; by apply set_locks_same.
Qed.
End run.

(** One operation at the head of a handler applied to a literal command. *)
Section heads.
Context `{Host} {St : Type}.
Lemma run_is_cmd (m : St) c args name :
  ToLower (str c) = lit name → is_cmd (c :: args) name m = (Ret true, m).
Proof.
  intros E. unfold is_cmd, sarg, arg, mbind, M_bind. cbn. rewrite E. unfold beq.
  by rewrite bool_decide_eq_true_2.
Qed.
Lemma run_arg (m : St) cmd i x : cmd !! i = Some x → arg cmd i m = (Ret x, m).
Proof. intros E. unfold arg. by rewrite E. Qed.
Lemma run_sarg (m : St) cmd i x : cmd !! i = Some x → sarg cmd i m = (Ret (str x), m).
Proof. intros E. unfold sarg, mbind, M_bind. by rewrite (run_arg m cmd i x). Qed.
End heads.

Ltac run_op :=
  first [ apply run_is_cmd; eassumption | apply run_sarg; reflexivity | apply run_arg; reflexivity
        | apply run_CheckTTL; (assumption || (rewrite ?checked_locks; assumption)) | reflexivity ].
Ltac run_len :=
  match goal with
  | |- context [zlen (?x :: ?l) <? ?n] =>
      replace (zlen (x :: l) <? n) with false by (symmetry; apply Z.ltb_ge; unfold zlen in *; cbn [length]; lia)
  | |- context [zlen (?x :: ?l) =? ?n] => change (zlen (x :: l) =? n) with true
  | |- context [?n <? zlen (?x :: ?l)] =>
      replace (n <? zlen (x :: l)) with false by (symmetry; apply Z.ltb_ge; unfold zlen in *; cbn [length]; lia)
  end.
Ltac run_step := first [run_len; cbn [negb orb andb] | erewrite bind_Ret by run_op; cbn [negb orb andb str default from_option id]].
Ltac run := repeat run_step.

Section commands.
Context `{Host}.
Implicit Types (m : Model) (key : bytes).

(** ** SET *)
Definition is_string (v : option value) : bool :=
  match v with None | Some (VBytes _) => true | _ => false end.
Definition wrong_type_reply : RedisData :=
  MakeErrorData (lit "WRONGTYPE Operation against a key holding the wrong kind of value").

(** SET stores unless NX finds or XX misses the key. *)
Definition set_writes (o : set_opts) (old : option value) : bool :=
  if o_nx o then negb (bool_decide (is_Some old)) else if o_xx o then bool_decide (is_Some old) else true.
Definition set_reply (o : set_opts) (old : option value) : RedisData :=
  if o_get o then match old with Some (VBytes v) => MakeBulkData v | _ => MakeNullBulkData end
  else if set_writes o old then MakeStringData (lit "OK") else MakeNullBulkData.

(** The state after SET at clock reading [t]. *)
Definition set_state (o : set_opts) (key : bytes) (val : slice) (m : Model) : Model :=
  let db := if set_writes o (m_db m !! key) then <[key := VBytes val]> (m_db m) else m_db m in
  let exp := if o_keepttl o then m_exp m else delete key (m_exp m) in
  let m1 := set_exp exp (set_db db m) in
  if o_ex o then
    set_tick (S (m_tick m))
      (if db !! key is Some _ then set_exp (<[key := int64 (o_exval o + unix_now (m_tick m))]> exp) m1 else m1)
  else m1.

Lemma set_state_locks o key val m : m_locks (set_state o key val m) = m_locks m.
Proof. unfold set_state. destruct (o_ex o); [|done]. by case_match. Qed.

Lemma setString_run m c key val args :
  locks_free (m_locks m) → ToLower (str c) = lit "set" →
  setString (c :: Some key :: val :: args) m =
    let m0 := checked key m in
    match set_parse_opts args no_opts with
    | inr e => (Ret e, m0)
    | inl o =>
        if (o_nx o && o_xx o) || (o_ex o && o_keepttl o)
        then (Ret (MakeErrorData (lit "error: commands is invalid")), m0)
        else if is_string (m_db m0 !! key)
        then (Ret (set_reply o (m_db m0 !! key)), set_state o key val m0)
        else (Ret wrong_type_reply, m0)
    end.
Proof.
  intros Hl Hc. unfold setString. run. cbv zeta.
  change (drop 3 (c :: Some key :: val :: args)) with args.
  destruct (set_parse_opts args no_opts) as [o|e]; [|done].
  destruct (_ || _) eqn:Hconf; [done|].
  rewrite <- (checked_locks key m) in Hl. set (m0 := checked key m) in *. clearbody m0.
  destruct (is_string _) eqn:Hs; (apply run_locked; [done|by rewrite ?set_state_locks|done|]);
  rewrite (bind_Ret _ _ _ val _) by done; rewrite (bind_Ret _ _ _ (m_db m0 !! key) _) by done.
  2:{ by destruct (m_db m0 !! key) as [[]|]. }
  unfold set_state, set_reply, set_writes, MemDb_DelTTL, MemDb_SetTTL, now, mbind, M_bind.
  destruct o as [nx xx get ex keep n]; cbn in *.
  destruct (m_db m0 !! key) as [[]|] eqn:E; try done; destruct nx, xx, keep, ex; try done; cbn;
    rewrite ?E, ?lookup_insert_eq; cbn; rewrite ?E, ?lookup_insert_eq; done.
Qed.

(** *** The options, as they are written *)
Inductive set_option := NX | XX | GET | KEEPTTL | EX (seconds : Z).
#[local] Instance set_option_eq_dec : EqDecision set_option.
Proof. solve_decision. Defined.

(** [args] are the words of the options [opts], in any mix of cases; EX is followed by a
    number of 64 bits. *)
Inductive spells : list slice → list set_option → Prop :=
  | spells_nil : spells [] []
  | spells_nx a args opts : ToLower (str a) = lit "nx" → spells args opts → spells (a :: args) (NX :: opts)
  | spells_xx a args opts : ToLower (str a) = lit "xx" → spells args opts → spells (a :: args) (XX :: opts)
  | spells_get a args opts : ToLower (str a) = lit "get" → spells args opts → spells (a :: args) (GET :: opts)
  | spells_keepttl a args opts : ToLower (str a) = lit "keepttl" → spells args opts → spells (a :: args) (KEEPTTL :: opts)
  | spells_ex a v n args opts :
      ToLower (str a) = lit "ex" → ParseInt (str v) = inl n → spells args opts → spells (a :: v :: args) (EX n :: opts).

(** The time to live is that of the last EX. *)
Definition seconds_of (o : set_option) : option Z := match o with EX n => Some n | _ => None end.
Definition meaning (opts : list set_option) : set_opts :=
  let ex := last (omap seconds_of opts) in
  mkSetOpts (bool_decide (NX ∈ opts)) (bool_decide (XX ∈ opts)) (bool_decide (GET ∈ opts)) (bool_decide (is_Some ex))
    (bool_decide (KEEPTTL ∈ opts)) (default 0 ex).
(** NX with XX, or EX with KEEPTTL. *)
Definition contradictory (opts : list set_option) : bool :=
  (bool_decide (NX ∈ opts) && bool_decide (XX ∈ opts)) ||
  (bool_decide (is_Some (last (omap seconds_of opts))) && bool_decide (KEEPTTL ∈ opts)).

(** What the loop of SET adds to the options it has seen. *)
Definition add_opts (o : set_opts) (opts : list set_option) : set_opts :=
  let m := meaning opts in
  mkSetOpts (o_nx o || o_nx m) (o_xx o || o_xx m) (o_get o || o_get m) (o_ex o || o_ex m) (o_keepttl o || o_keepttl m)
    (if o_ex m then o_exval m else o_exval o).
Lemma bool_decide_cons (x y : set_option) l : bool_decide (x ∈ y :: l) = bool_decide (x = y) || bool_decide (x ∈ l).
Proof. rewrite <- bool_decide_or. apply bool_decide_ext, elem_of_cons. Qed.
Lemma add_opts_cons o x opts :
  add_opts o (x :: opts) =
    add_opts (match x with
              | NX => mkSetOpts true (o_xx o) (o_get o) (o_ex o) (o_keepttl o) (o_exval o)
              | XX => mkSetOpts (o_nx o) true (o_get o) (o_ex o) (o_keepttl o) (o_exval o)
              | GET => mkSetOpts (o_nx o) (o_xx o) true (o_ex o) (o_keepttl o) (o_exval o)
              | KEEPTTL => mkSetOpts (o_nx o) (o_xx o) (o_get o) (o_ex o) true (o_exval o)
              | EX n => mkSetOpts (o_nx o) (o_xx o) (o_get o) true (o_keepttl o) n
              end) opts.
Proof.
  unfold add_opts, meaning. cbn [o_nx o_xx o_get o_ex o_keepttl o_exval]. rewrite !bool_decide_cons.
  destruct x; cbn [omap list_omap seconds_of o_nx o_xx o_get o_ex o_keepttl o_exval];
    repeat match goal with
    | |- context [bool_decide (?a = ?b)] =>
        first [rewrite (bool_decide_eq_true_2 (a = b)) by reflexivity|rewrite (bool_decide_eq_false_2 (a = b)) by discriminate]
    end;
    cbn [orb]; rewrite ?orb_true_r, ?orb_true_l; try done.
  rewrite last_cons. destruct (last (omap seconds_of opts)); cbn; by rewrite ?orb_true_r.
Qed.
Lemma set_parse_opts_spelled args opts : spells args opts → ∀ o, set_parse_opts args o = inl (add_opts o opts).
Proof.
  induction 1 as [|a args opts Ha _ IH|a args opts Ha _ IH|a args opts Ha _ IH|a args opts Ha _ IH|a v n args opts Ha Hv _ IH];
    intros o; rewrite ?add_opts_cons.
  { destruct o as [[] [] [] [] [] n]; done. }
  all: cbn [set_parse_opts]; rewrite Ha; unfold beq;
    repeat (rewrite bool_decide_eq_false_2 by discriminate); rewrite bool_decide_eq_true_2 by done; rewrite ?Hv; apply IH.
Qed.
Lemma set_parse_opts_unspelled args : ∀ o,
  match set_parse_opts args o with
  | inl _ => ∃ opts, spells args opts
  | inr e => ∃ msg, e = MakeErrorData msg
  end.
Proof.
  remember (length args) as n eqn:En. revert args En. induction n as [n IH] using lt_wf_ind. intros [|a args] -> o.
  { exists []. constructor. }
  cbn [set_parse_opts]. unfold beq.
  assert (∀ o' x, (∀ opts, spells args opts → spells (a :: args) (x :: opts)) →
    match set_parse_opts args o' with inl _ => ∃ opts, spells (a :: args) opts | inr e => ∃ msg, e = MakeErrorData msg end) as Hone.
  { intros o' x Hx. specialize (IH (length args) ltac:(simpl; lia) args eq_refl o').
    destruct (set_parse_opts args o'); [|done]. destruct IH as [opts ?]. eauto. }
  repeat (case_bool_decide; [by eapply Hone; intros; constructor|]).
  case_bool_decide; [|by eexists]. destruct args as [|v args]; [by eexists|].
  destruct (ParseInt (str v)) as [k|] eqn:Ek; [|by eexists].
  specialize (IH (length args) ltac:(simpl; lia) args eq_refl (mkSetOpts (o_nx o) (o_xx o) (o_get o) true (o_keepttl o) k)).
  destruct (set_parse_opts args _); [|done]. destruct IH as [opts ?]. exists (EX k :: opts). by constructor.
Qed.
Lemma add_no_opts opts : add_opts no_opts opts = meaning opts.
Proof.
  unfold add_opts, no_opts, meaning. cbn. by destruct (last (omap seconds_of opts)).
Qed.

(** C30: SET, for every argument list and state of the key.  When the arguments after the
    value spell options, in any order, repeated or not, in any mix of cases: contradictory
    ones (NX with XX, EX with KEEPTTL) and a value of another type are refused and change
    nothing but an expired key; otherwise NX and XX decide whether the value is stored, GET
    returns the old string, the last EX sets the expiry and KEEPTTL keeps the old one (a SET
    that NX or XX refuses still drops the expiry of the key, or sets a new one).  When they
    do not spell options (an unknown word, EX without a number), the reply is an error and
    nothing changes but an expired key. *)
Theorem SET_spec m c key val args :
  locks_free (m_locks m) → ToLower (str c) = lit "set" →
  let m0 := checked key m in
  let set := setString (c :: Some key :: val :: args) m in
  (∀ opts, spells args opts →
    set = if contradictory opts then (Ret (MakeErrorData (lit "error: commands is invalid")), m0)
          else if is_string (m_db m0 !! key)
          then (Ret (set_reply (meaning opts) (m_db m0 !! key)), set_state (meaning opts) key val m0)
          else (Ret wrong_type_reply, m0)) ∧
  ((∀ opts, ¬ spells args opts) → ∃ msg, set = (Ret (MakeErrorData msg), m0)).
Proof.
  intros Hl Hc. cbv zeta. rewrite setString_run by done. cbv zeta. split.
  - intros opts Hs. rewrite (set_parse_opts_spelled _ _ Hs), add_no_opts. unfold contradictory. by destruct (_ || _).
  - intros Hn. pose proof (set_parse_opts_unspelled args no_opts) as Hp. destruct (set_parse_opts args no_opts) as [o|e].
    + destruct Hp as [opts Hs]. by destruct (Hn opts).
    + destruct Hp as [msg ->]. by exists msg.
Qed.

(** ** GET *)
Definition get_reply (v : option value) : RedisData :=
  match v with None => MakeNullBulkData | Some (VBytes b) => MakeBulkData b | Some _ => wrong_type_reply end.

Lemma checked_expired key m : is_expired key m = true → m_db (checked key m) !! key = None.
Proof. intros E. unfold checked. rewrite E. cbn. by rewrite lookup_delete_eq. Qed.

Lemma getString_run m c key :
  locks_free (m_locks m) → ToLower (str c) = lit "get" →
  getString [c; Some key] m = (Ret (get_reply (m_db (checked key m) !! key)), checked key m).
Proof.
  intros Hl Hc. unfold getString. run. destruct (is_expired key m) eqn:Ee; cbn [negb].
  { by rewrite checked_expired. }
  rewrite <- (checked_locks key m) in Hl. set (m0 := checked key m) in *. clearbody m0.
  apply run_rlocked; [done..|]. rewrite (bind_Ret _ _ _ (m_db m0 !! key) _) by done.
  by destruct (m_db m0 !! key) as [[]|].
Qed.

(** A key without expiry is not affected by [CheckTTL]. *)
Lemma is_expired_none key m : m_exp m !! key = None → is_expired key m = false.
Proof. intros E. unfold is_expired. by rewrite E. Qed.
Lemma checked_alive key m : is_expired key m = false → checked key m = set_tick (S (m_tick m)) m.
Proof. intros E. unfold checked. by rewrite E. Qed.
Lemma checked_persistent key m : m_exp m !! key = None → checked key m = set_tick (S (m_tick m)) m.
Proof. intros E. by apply checked_alive, is_expired_none. Qed.

(** ** SETEX *)
Lemma setExString_run m c key val n :
  locks_free (m_locks m) → ToLower (str c) = lit "setex" → in_int64 n →
  setExString [c; Some key; Some (FormatInt n); val] m =
    (Ret (MakeStringData (lit "OK")),
     set_exp (<[key := int64 (unix_now (m_tick m) + n)]> (m_exp m))
       (set_db (<[key := VBytes val]> (m_db m)) (set_tick (S (m_tick m)) m))).
Proof.
  intros Hl Hc Hn. unfold setExString. run. rewrite ParseInt_FormatInt by done. run.
  apply run_locked; [done..|]. unfold MemDb_SetTTL, mbind, M_bind. cbn. by rewrite lookup_insert_eq.
Qed.

(** SETEX then GET: the value is returned until the second in which the clock
    reaches the time of SETEX plus the seconds, then the reply is nil and the key
    is deleted together with its expiry. *)
Theorem SETEX_GET m c c' key val n :
  locks_free (m_locks m) → ToLower (str c) = lit "setex" → ToLower (str c') = lit "get" → in_int64 n →
  let t := unix_now (m_tick m) in
  let t' := unix_now (S (m_tick m)) in
  ∃ m', (setExString [c; Some key; Some (FormatInt n); val];; getString [c'; Some key]) m =
          (Ret (if int64 (t + n) <=? t' then MakeNullBulkData else MakeBulkData val), m') ∧
    m_db m' !! key = (if int64 (t + n) <=? t' then None else Some (VBytes val)) ∧
    m_exp m' !! key = (if int64 (t + n) <=? t' then None else Some (int64 (t + n))).
Proof.
  intros Hl Hc Hc' Hn. cbv zeta. erewrite bind_Ret by (by apply setExString_run).
  rewrite getString_run by done. set (m1 := set_exp _ _).
  assert (is_expired key m1 = (int64 (unix_now (m_tick m) + n) <=? unix_now (S (m_tick m)))) as Ee.
  { unfold is_expired, m1. cbn. by rewrite lookup_insert_eq. }
  unfold checked. rewrite Ee.
  destruct (_ <=? _); (eexists; split; [cbn; rewrite ?lookup_delete_eq, ?lookup_insert_eq; done|]);
    cbn; by rewrite ?lookup_delete_eq, ?lookup_insert_eq.
Qed.

(** ** INCRBY *)
Lemma incrByString_run m c key a b :
  locks_free (m_locks m) → ToLower (str c) = lit "incrby" → in_int64 a → in_int64 b →
  m_exp m !! key = None → m_db m !! key = Some (VBytes (Some (FormatInt a))) →
  incrByString [c; Some key; Some (FormatInt b)] m =
    (Ret (MakeIntData (int64 (a + b))),
     set_db (<[key := VBytes (Some (FormatInt (int64 (a + b))))]> (m_db m)) (set_tick (S (m_tick m)) m)).
Proof.
  intros Hl Hc Ha Hb He Hv. unfold incrByString. run. rewrite ParseInt_FormatInt by done. run.
  rewrite checked_persistent by done. unfold incr_body. apply run_locked; [done..|].
  rewrite (bind_Ret _ _ _ (Some (VBytes (Some (FormatInt a)))) _) by (cbn; by rewrite Hv).
  cbn [str default from_option id]. by rewrite ParseInt_FormatInt.
Qed.

(** The increments [bs], one INCRBY each; the replies in order. *)
Definition incrby_all (c : slice) (key : bytes) (bs : list Z) (acc : list RedisData) : M Model (list RedisData) :=
  mfold (λ rs b, r ← incrByString [c; Some key; Some (FormatInt b)]; mret (rs ++ [r])) acc bs.

(** C32: INCRBY adds in 64-bit arithmetic: after any sequence of increments the key
    holds the decimal form of the starting value plus their sum, and the last
    reply is that number; it wraps around silently where it leaves the range. *)
Theorem INCRBY_sum m c key a bs b acc :
  locks_free (m_locks m) → ToLower (str c) = lit "incrby" → in_int64 a → Forall in_int64 (bs ++ [b]) →
  m_exp m !! key = None → m_db m !! key = Some (VBytes (Some (FormatInt a))) →
  let total := int64 (a + foldr Z.add 0 (bs ++ [b])) in
  ∃ rs m', incrby_all c key (bs ++ [b]) acc m = (Ret (rs ++ [MakeIntData total]), m') ∧
    m_db m' !! key = Some (VBytes (Some (FormatInt total))) ∧ m_exp m' = m_exp m ∧ m_locks m' = m_locks m.
Proof.
  intros Hl Hc Ha Hbs He Hv. cbv zeta. unfold incrby_all. revert m a acc Hl Ha He Hv.
  induction bs as [|b0 bs IH]; intros m a acc Hl Ha He Hv; cbn [app mfold foldr] in *;
    apply Forall_cons in Hbs as [Hb Hbs]; rewrite bind_assoc; erewrite bind_Ret by (by apply incrByString_run).
  - eexists acc, _. rewrite Z.add_0_r. split_and!; [done|apply lookup_insert_eq|done|done].
  - erewrite bind_Ret by reflexivity.
    destruct (IH Hbs (set_db (<[key := VBytes (Some (FormatInt (int64 (a + b0))))]> (m_db m)) (set_tick (S (m_tick m)) m))
      (int64 (a + b0)) (acc ++ [MakeIntData (int64 (a + b0))]) Hl (int64_in _) He (lookup_insert_eq _ _ _))
      as (rs & m' & E & Hv' & ? & ?).
    exists rs, m'. unfold int64 in * |-. rewrite wrap_add, <- Z.add_assoc in * by lia. done.
Qed.

(** ** SETRANGE and GETRANGE *)
Definition string_of (v : option value) : bytes :=
  match v with Some (VBytes b) => str b | _ => [] end.

(** [old] with [src] written from [offset] on, the gap filled with zeros. *)
Definition overwrite (old : bytes) (offset : Z) (src : bytes) : bytes :=
  copy_at (old ++ replicate (Z.to_nat (offset + zlen src) - length old) "000"%char) (Z.to_nat offset) src.

Lemma overwrite_length old offset src :
  0 <= offset → zlen (overwrite old offset src) = Z.max (zlen old) (offset + zlen src).
Proof.
  intros Ho. unfold overwrite, copy_at, zlen. rewrite !length_app, !length_take, length_drop, length_app, length_replicate. lia.
Qed.

Lemma overwrite_read old offset src :
  0 <= offset →
  take (length src) (drop (Z.to_nat offset) (overwrite old offset src)) = src.
Proof.
  intros Ho. unfold overwrite, copy_at. set (buf := old ++ _).
  assert (Z.to_nat offset + length src <= length buf)%nat as Hb.
  { unfold buf, zlen. rewrite length_app, length_replicate. lia. }
  rewrite drop_app_length' by (rewrite length_take; lia).
  rewrite (take_ge src) by lia. by rewrite take_app_length.
Qed.

(** Bytes outside the written range are kept, the gap reads as zero. *)
Lemma overwrite_lookup old offset src i :
  0 <= offset → (i < Z.to_nat offset ∨ Z.to_nat offset + length src <= i)%nat → (i < length old)%nat →
  overwrite old offset src !! i = old !! i.
Proof.
  intros Ho Hi Hlt. unfold overwrite, copy_at. set (buf := old ++ _).
  assert (Z.to_nat offset + length src <= length buf)%nat as Hb.
  { unfold buf, zlen. rewrite length_app, length_replicate. lia. }
  assert (buf !! i = old !! i) as <- by (unfold buf; by rewrite lookup_app_l).
  destruct Hi as [Hi|Hi].
  - rewrite lookup_app_l by (rewrite length_take; lia). by apply lookup_take_lt.
  - rewrite lookup_app_r by (rewrite length_take; lia). rewrite (take_ge src) by lia.
    rewrite lookup_app_r by (rewrite length_take; lia). rewrite lookup_drop, length_take. f_equal. lia.
Qed.

Lemma setRangeString_run m c key offset src :
  locks_free (m_locks m) → ToLower (str c) = lit "setrange" → 0 <= offset → offset + zlen src <= maxAlloc →
  m_exp m !! key = None → is_string (m_db m !! key) = true → zlen (string_of (m_db m !! key)) <= maxAlloc →
  setRangeString [c; Some key; Some (FormatInt offset); Some src] m =
    (Ret (MakeIntData (Z.max (zlen (string_of (m_db m !! key))) (offset + zlen src))),
     set_db (<[key := VBytes (Some (overwrite (string_of (m_db m !! key)) offset src))]> (m_db m))
       (set_tick (S (m_tick m)) m)).
Proof.
  intros Hl Hc Ho Hmax He Hs Hold. unfold maxAlloc in *. unfold setRangeString. run.
  pose proof (zlen_nonneg src). pose proof (zlen_nonneg (string_of (m_db m !! key))).
  assert (in_int64 offset) by (unfold in_int64, MinInt64, MaxInt64; lia).
  assert (in_int64 (offset + zlen src)) by (unfold in_int64, MinInt64, MaxInt64; lia).
  unfold Atoi. rewrite ParseInt_FormatInt by done. destruct (Z.ltb_spec offset 0); [lia|]. run.
  rewrite checked_persistent by done. apply run_locked; [done..|].
  erewrite bind_Ret by reflexivity. cbn [m_db set_tick set_locks].
  set (required := Z.max (zlen (string_of (m_db m !! key))) (offset + zlen src)).
  assert (∀ old : bytes, zlen old = zlen (string_of (m_db m !! key)) →
    (if offset + zlen src <? zlen old then zlen old else offset + zlen src) = required) as Er.
  { intros old Eo. rewrite Eo. unfold required. case_bool; lia. }
  assert (∀ old : bytes, zlen old = zlen (string_of (m_db m !! key)) →
    Z.to_nat required - length old = Z.to_nat (offset + zlen src) - length old)%nat as Ec.
  { intros old Eo. unfold required. unfold zlen in *. lia. }
  destruct (m_db m !! key) as [[b| | | |]|]; try done; cbn [string_of] in *; erewrite bind_Ret by run_op;
    unfold slen; cbn [str default from_option id]; rewrite int64_id by done; rewrite Er by done;
    unfold make_ok, maxAlloc; (replace ((0 <=? required) && (required * 1 <=? 2 ^ 48)) with true
      by (unfold required; symmetry; apply andb_true_iff; lia)); cbn [negb];
    (replace (required <? offset) with false by (unfold required; lia)); rewrite Ec by done;
    erewrite bind_Ret by reflexivity; cbn [mret M_ret];
    [change (copy_at _ _ src) with (overwrite (str b) offset src)|change (copy_at _ _ src) with (overwrite [] offset src)];
    by rewrite overwrite_length.
Qed.

(** GETRANGE inside the string. *)
Lemma getRangeString_run m c key b start stop :
  locks_free (m_locks m) → ToLower (str c) = lit "getrange" → m_exp m !! key = None →
  m_db m !! key = Some (VBytes (Some b)) → 0 <= start <= stop → stop < zlen b → zlen b <= MaxInt64 →
  getRangeString [c; Some key; Some (FormatInt start); Some (FormatInt stop)] m =
    (Ret (MakeBulkData (Some (take (Z.to_nat (stop + 1 - start)) (drop (Z.to_nat start) b)))),
     set_tick (S (m_tick m)) m).
Proof.
  intros Hl Hc He Hv Hs Hlt Hmax. unfold getRangeString. run. rewrite is_expired_none, checked_persistent by done.
  cbn [negb]. apply run_rlocked; [done..|]. erewrite bind_Ret by reflexivity. cbn [m_db set_tick set_locks]. rewrite Hv.
  assert (in_int64 start ∧ in_int64 stop) as [? ?] by (unfold in_int64, MinInt64, MaxInt64 in *; lia).
  erewrite bind_Ret by run_op. unfold Atoi. cbn [str default from_option id]. rewrite ParseInt_FormatInt by done.
  erewrite bind_Ret by run_op. cbn [str default from_option id]. rewrite ParseInt_FormatInt by done.
  unfold slen. cbn [str default from_option id].
  repeat (case_bool; try lia). done.
Qed.

(** SETRANGE then GETRANGE of the same range reads back the bytes written,
    whatever the key held before; the reply is the new length, the other bytes of
    the old string are kept. *)
Theorem SETRANGE_GETRANGE m c c' key offset src :
  locks_free (m_locks m) → ToLower (str c) = lit "setrange" → ToLower (str c') = lit "getrange" →
  0 <= offset → src ≠ [] → offset + zlen src <= maxAlloc → m_exp m !! key = None →
  is_string (m_db m !! key) = true → zlen (string_of (m_db m !! key)) <= maxAlloc →
  let old := string_of (m_db m !! key) in
  ∃ m1 m2 new,
    setRangeString [c; Some key; Some (FormatInt offset); Some src] m =
      (Ret (MakeIntData (Z.max (zlen old) (offset + zlen src))), m1) ∧
    getRangeString [c'; Some key; Some (FormatInt offset); Some (FormatInt (offset + zlen src - 1))] m1 =
      (Ret (MakeBulkData (Some src)), m2) ∧
    m_db m2 !! key = Some (VBytes (Some new)) ∧
    ∀ i, (i < Z.to_nat offset ∨ Z.to_nat offset + length src <= i)%nat → (i < length old)%nat →
      new !! i = old !! i.
Proof.
  intros Hl Hc Hc' Ho Hsrc Hmax He Hs Hold. cbv zeta.
  assert (0 < zlen src). { destruct src; [done|]. rewrite zlen_cons. pose proof (zlen_nonneg src). lia. }
  eexists _, _, _. split; [by apply setRangeString_run|].
  split; [rewrite getRangeString_run with (b := overwrite (string_of (m_db m !! key)) offset src)|].
  - replace (offset + zlen src - 1 + 1 - offset) with (zlen src) by lia. unfold zlen at 1.
    by rewrite Nat2Z.id, overwrite_read.
  - done.
  - done.
  - done.
  - apply lookup_insert_eq.
  - lia.
  - rewrite overwrite_length by done. lia.
  - rewrite overwrite_length by done. unfold maxAlloc, MaxInt64 in *. lia.
  - split; [apply lookup_insert_eq|]. intros i Hi Hlt. by apply overwrite_lookup.
Qed.

(** SETRANGE with an offset so large that offset plus length exceeds 2^63 - 1
    panics (a slice bound out of range) instead of replying with an error; the
    lock is released. *)
Theorem SETRANGE_overflow_panics m c key offset src :
  locks_free (m_locks m) → ToLower (str c) = lit "setrange" → in_int64 offset → 0 <= offset →
  MaxInt64 < offset + zlen src → zlen src <= maxAlloc → m_exp m !! key = None →
  is_string (m_db m !! key) = true → zlen (string_of (m_db m !! key)) <= maxAlloc →
  setRangeString [c; Some key; Some (FormatInt offset); Some src] m = (Panics, set_tick (S (m_tick m)) m).
Proof.
  intros Hl Hc Hin Ho Hov Hsrc He Hs Hold. unfold setRangeString. run. unfold Atoi.
  rewrite ParseInt_FormatInt by done. destruct (Z.ltb_spec offset 0); [lia|]. run.
  rewrite checked_persistent by done. apply run_locked; [done..|].
  erewrite bind_Ret by reflexivity. cbn [m_db set_tick set_locks].
  assert (int64 (offset + zlen src) < 0) as Hneg.
  { unfold in_int64, MinInt64, MaxInt64, maxAlloc in *. unfold int64, wrap. change (64 - 1) with 63.
    replace (offset + zlen src + 2 ^ 63) with (offset + zlen src - 2 ^ 63 + 1 * 2 ^ 64) by lia.
    rewrite Z_mod_plus_full, Z.mod_small by lia. lia. }
  destruct (m_db m !! key) as [[b| | | |]|]; try done; cbn [string_of] in *; erewrite bind_Ret by run_op;
    unfold slen; cbn [str default from_option id].
  - pose proof (zlen_nonneg (str b)). destruct (Z.ltb_spec (int64 (offset + zlen src)) (zlen (str b))); [|lia].
    destruct (negb _); [done|]. destruct (Z.ltb_spec (zlen (str b)) offset); [done|].
    unfold MaxInt64, maxAlloc in *. lia.
  - destruct (Z.ltb_spec (int64 (offset + zlen src)) (zlen (@nil ascii))); [|rewrite zlen_nil in *; lia].
    destruct (negb _); [done|]. destruct (Z.ltb_spec (zlen (@nil ascii)) offset); [done|].
    rewrite zlen_nil in *. unfold MaxInt64, maxAlloc in *. lia.
Qed.

(** ** MSET and MGET *)
Definition mset_args (kvs : list (bytes * slice)) : list slice := flat_map (λ kv, [Some kv.1; kv.2]) kvs.
Definition mset_db (kvs : list (bytes * slice)) (db : gmap bytes value) : gmap bytes value :=
  foldl (λ db kv, <[kv.1 := VBytes kv.2]> db) db kvs.
Definition mset_exp (kvs : list (bytes * slice)) (e : gmap bytes Z) : gmap bytes Z :=
  foldl (λ e kv, delete kv.1 e) e kvs.

(** The last value [kvs] binds to [k]. *)
Definition last_value (kvs : list (bytes * slice)) (k : bytes) : option slice :=
  foldl (λ acc kv, if decide (kv.1 = k) then Some kv.2 else acc) None kvs.

Lemma pairs_of_args kvs : pairs_of (mset_args kvs) = kvs.
Proof.
  induction kvs as [|[k v] kvs IH]; [done|].
  change (mset_args ((k, v) :: kvs)) with (Some k :: v :: mset_args kvs). cbn [pairs_of]. by rewrite IH.
Qed.
Lemma mset_args_length kvs : zlen (mset_args kvs) = 2 * zlen kvs.
Proof. induction kvs as [|[k v] kvs IH]; [done|]. cbn [mset_args flat_map app]. rewrite !zlen_cons. unfold mset_args in IH. lia. Qed.

Lemma mset_exp_none kvs e k : k ∈ kvs.*1 → mset_exp kvs e !! k = None.
Proof.
  unfold mset_exp. induction kvs as [|kv kvs IH] using rev_ind; [by intros ?%not_elem_of_nil|].
  rewrite fmap_app, elem_of_app, foldl_app. cbn [foldl]. rewrite lookup_delete. case_decide; [done|].
  intros [Hk|Hk]; [auto|]. cbn in Hk. apply list_elem_of_singleton in Hk. congruence.
Qed.
Lemma mset_db_last kvs db k v : last_value kvs k = Some v → mset_db kvs db !! k = Some (VBytes v).
Proof.
  unfold mset_db, last_value. induction kvs as [|kv kvs IH] using rev_ind; [done|].
  rewrite !foldl_app. cbn [foldl]. rewrite lookup_insert. repeat case_decide; naive_solver.
Qed.
Lemma last_value_in kvs k : k ∈ kvs.*1 → is_Some (last_value kvs k).
Proof.
  unfold last_value. induction kvs as [|kv kvs IH] using rev_ind; [by intros ?%not_elem_of_nil|].
  rewrite fmap_app, elem_of_app, foldl_app. cbn [foldl]. case_decide; [by eexists|].
  intros [Hk|Hk]; [auto|]. cbn in Hk. apply list_elem_of_singleton in Hk. congruence.
Qed.

Lemma mset_loop m kvs :
  mfold (λ _ kv, MemDb_DelTTL kv.1;; db_Set kv.1 (VBytes kv.2);; mret tt) tt kvs m =
    (Ret tt, set_exp (mset_exp kvs (m_exp m)) (set_db (mset_db kvs (m_db m)) m)).
Proof.
  revert m. induction kvs as [|kv kvs IH]; intros m; cbn [mfold].
  - by destruct m.
  - erewrite bind_Ret by reflexivity. rewrite IH. done.
Qed.
Lemma mSetString_run m c kvs :
  locks_free (m_locks m) → ToLower (str c) = lit "mset" → kvs ≠ [] →
  mSetString (c :: mset_args kvs) m =
    (Ret (MakeStringData (lit "OK")), set_exp (mset_exp kvs (m_exp m)) (set_db (mset_db kvs (m_db m)) m)).
Proof.
  intros Hl Hc Hne. unfold mSetString. erewrite bind_Ret by run_op. cbn [negb].
  rewrite zlen_cons, mset_args_length.
  assert (0 < zlen kvs). { destruct kvs; [done|]. rewrite zlen_cons. pose proof (zlen_nonneg kvs). lia. }
  destruct (Z.ltb_spec (1 + 2 * zlen kvs) 3); [lia|]. rewrite Z.odd_add_mul_2. cbn [orb negb Z.odd]. cbv zeta.
  change (drop 1 (c :: mset_args kvs)) with (mset_args kvs). rewrite pairs_of_args.
  apply run_locked_multi; [done..|]. erewrite bind_Ret by apply mset_loop. done.
Qed.

(** MGET of keys without expiry. *)
Definition mget_reply (v : option value) : RedisData :=
  match v with Some (VBytes b) => MakeBulkData b | _ => MakeNullBulkData end.

Lemma mGetString_run m c keys :
  locks_free (m_locks m) → ToLower (str c) = lit "mget" → keys ≠ [] →
  Forall (λ k, m_exp m !! k = None) keys →
  mGetString (c :: (Some <$> keys)) m =
    (Ret (MakeArrayData (Some ((λ k, mget_reply (m_db m !! k)) <$> keys))),
     set_tick (m_tick m + length keys) m).
Proof.
  intros Hl Hc Hne Hexp. unfold mGetString. erewrite bind_Ret by run_op. cbn [negb].
  rewrite zlen_cons. assert (0 < zlen (Some <$> keys)).
  { destruct keys; [done|]. cbn. rewrite zlen_cons. pose proof (zlen_nonneg (Some <$> keys)). lia. }
  destruct (Z.ltb_spec (1 + zlen (Some <$> keys)) 2); [lia|].
  change (drop 1 (c :: (Some <$> keys))) with (Some <$> keys).
  match goal with |- (mfold ?f _ _ ≫= _) _ = _ => set (body := f) end.
  assert (∀ m acc, locks_free (m_locks m) → Forall (λ k, m_exp m !! k = None) keys →
    mfold body acc (Some <$> keys) m =
      (Ret (acc ++ ((λ k, mget_reply (m_db m !! k)) <$> keys)), set_tick (m_tick m + length keys) m)) as Hloop.
  2:{ by erewrite bind_Ret by (by apply Hloop). }
  clear. induction keys as [|k keys IH]; intros m acc Hl Hexp; cbn [fmap list_fmap mfold length].
  { rewrite app_nil_r, Nat.add_0_r. by destruct m. }
  apply Forall_cons in Hexp as [He Hexp].
  assert (body acc (Some k) m = (Ret (acc ++ [mget_reply (m_db m !! k)]), set_tick (S (m_tick m)) m)) as E.
  { unfold body. cbn [str default from_option id]. erewrite bind_Ret by run_op.
    rewrite is_expired_none, checked_persistent by done. cbn [negb].
    unfold locks_RLock, locks_RUnLock, mbind, M_bind. cbn. rewrite RLock_free by done. cbn.
    rewrite RUnLock_held by done. cbn. unfold mget_reply. by destruct (m_db m !! k) as [[]|]. }
  erewrite bind_Ret by exact E. rewrite IH by done. rewrite <- app_assoc. cbn. by rewrite Nat.add_succ_r.
Qed.

(** MSET then MGET of keys that were set returns for each key the last value
    bound to it (and MSET removed its expiry, so the value stays). *)
Theorem MSET_MGET m c c' kvs keys :
  locks_free (m_locks m) → ToLower (str c) = lit "mset" → ToLower (str c') = lit "mget" →
  kvs ≠ [] → keys ≠ [] → keys ⊆ kvs.*1 →
  ∃ m', (mSetString (c :: mset_args kvs);; mGetString (c' :: (Some <$> keys))) m =
    (Ret (MakeArrayData (Some ((λ k, MakeBulkData (default None (last_value kvs k))) <$> keys))), m') ∧
    Forall (λ k, m_exp m' !! k = None) keys.
Proof.
  intros Hl Hc Hc' Hkvs Hkeys Hsub.
  assert (Forall (λ k, mset_exp kvs (m_exp m) !! k = None) keys) as Hexp.
  { apply Forall_forall. intros k Hk. by apply mset_exp_none, Hsub. }
  erewrite bind_Ret by (by apply mSetString_run). rewrite mGetString_run by done.
  exists (set_tick (m_tick m + length keys) (set_exp (mset_exp kvs (m_exp m)) (set_db (mset_db kvs (m_db m)) m))).
  split; [|exact Hexp]. do 4 f_equal. apply list_fmap_ext. intros i k Hi.
  apply list_elem_of_lookup_2, Hsub, last_value_in in Hi as [v Hv].
  cbn [m_db set_exp set_db]. by rewrite (mset_db_last _ _ _ _ Hv), Hv.
Qed.

(** ** RENAME *)

(** RENAME moves the value, whatever its type, and removes the expiry of both
    names; a missing or expired source is an error and changes nothing else.
    Renaming a key to itself keeps its value. *)
Theorem RENAME_spec m c old new :
  locks_free (m_locks m) → ToLower (str c) = lit "rename" →
  let m0 := checked old m in
  renameKey [c; Some old; Some new] m =
    match m_db m0 !! old with
    | None => (Ret (MakeErrorData (lit "error: " ++ old ++ lit " not exist")), m0)
    | Some v =>
        (Ret (MakeStringData (lit "OK")),
         set_exp (delete new (delete old (m_exp m))) (set_db (<[new := v]> (delete old (m_db m))) m0))
    end.
Proof.
  intros Hl Hc. cbv zeta. unfold renameKey. run. cbv zeta. cbn [str default from_option id]. run.
  destruct (is_expired old m) eqn:Ee; cbn [negb].
  { rewrite checked_expired by done. done. }
  rewrite checked_alive by done. cbn [m_db set_tick].
  destruct (m_db m !! old) as [v|] eqn:Ev; (apply run_locked_multi; [done..|]); erewrite bind_Ret by reflexivity;
    cbn [m_db set_tick set_locks]; rewrite Ev; [|done].
  unfold mbind, M_bind. cbn. by rewrite insert_delete_eq.
Qed.

(** ** EXPIRE *)

(** Whether EXPIRE with option [opt] replaces the expiry [current] by [ttl];
    [None] is an unknown option. *)
Definition expire_applies (opt : bytes) (current : option Z) (ttl : Z) : option bool :=
  if beq opt (lit "nx") then Some (match current with None => true | Some _ => false end)
  else if beq opt (lit "xx") then Some (match current with None => false | Some _ => true end)
  else if beq opt (lit "gt") then Some (match current with None => false | Some e => e <? ttl end)
  else if beq opt (lit "lt") then Some (match current with None => false | Some e => ttl <? e end)
  else if beq opt [] then Some true else None.

(** EXPIRE on every option and state: the expiry becomes the current time plus
    the seconds (64-bit) exactly when the option allows it and the key exists, and
    only then the reply is 1; an expired key is deleted and the reply is 0. *)
Theorem EXPIRE_spec m c key n opt :
  locks_free (m_locks m) → ToLower (str c) = lit "expire" → in_int64 n →
  let ttl := int64 (unix_now (m_tick m) + n) in
  let m1 := set_tick (S (m_tick m)) m in
  let m0 := checked key m1 in
  expireKey [c; Some key; Some (FormatInt n); Some opt] m =
    if is_expired key m1 then (Ret (MakeIntData 0), m0)
    else match expire_applies (ToLower opt) (m_exp m !! key) ttl, m_db m !! key with
         | None, _ => (Ret (MakeErrorData (lit "error: unsupport " ++ ToLower opt ++ lit ", except nx, xx, gt, lt")), m0)
         | Some true, Some _ => (Ret (MakeIntData 1), set_exp (<[key := ttl]> (m_exp m)) m0)
         | _, _ => (Ret (MakeIntData 0), m0)
         end.
Proof.
  intros Hl Hc Hn. cbv zeta. unfold expireKey. erewrite bind_Ret by run_op. cbn [negb orb].
  change (zlen [c; Some key; Some (FormatInt n); Some opt]) with 4. change ((4 <? 3) || (4 <? 4)) with false.
  cbn [orb]. run. rewrite ParseInt_FormatInt by done. run.
  destruct (is_expired key _) eqn:Ee; cbn [negb]; [done|]. rewrite checked_alive by done.
  unfold expire_applies. set (ttl := int64 _). clearbody ttl.
  destruct (beq _ _); [|destruct (beq _ _); [|destruct (beq _ _); [|destruct (beq _ _); [|destruct (beq _ _)]]]];
    cbn [negb]; destruct (m_exp m !! key) as [e|] eqn:He;
    try (destruct (e <? ttl) eqn:Hgt); try (destruct (ttl <? e) eqn:Hlt); destruct (m_db m !! key) eqn:Hv; (apply run_locked; [done..|]); unfold MemDb_SetTTL, mbind, M_bind; cbn;
    rewrite ?He; cbn; rewrite ?Hgt, ?Hlt; cbn; by rewrite ?Hv.
Qed.

(** ** Lists *)

(** [key] holds the list [xs], or is missing and [xs] is empty. *)
Definition holds_list m key (xs : list slice) : Prop :=
  match m_db m !! key with
  | Some (VList p) => m_lists m !! p = Some xs
  | Some _ => False
  | None => xs = []
  end.

Lemma run_list_do m p o xs :
  m_lists m !! p = Some xs → list_op_ok o → zlen xs < MaxInt64 →
  list_do p o m = (Ret (list_spec o xs).1, set_lists (<[p := (list_spec o xs).2]> (m_lists m)) m).
Proof. intros Ep Ho Hx. cbn. rewrite Ep. by rewrite decide_True. Qed.

Definition pushed (push : slice → list_op) (xs vs : list slice) : list slice :=
  foldl (λ xs v, (list_spec (push v) xs).2) xs vs.
Lemma pushed_right xs vs : pushed ORPush xs vs = xs ++ vs.
Proof.
  unfold pushed. revert xs. induction vs as [|v vs IH]; intros xs; cbn; [by rewrite app_nil_r|].
  rewrite IH. by rewrite <- app_assoc.
Qed.
Lemma pushed_left xs vs : pushed OLPush xs vs = reverse vs ++ xs.
Proof.
  unfold pushed. revert xs. induction vs as [|v vs IH]; intros xs; cbn [foldl]; [done|].
  rewrite IH, reverse_cons, <- app_assoc. done.
Qed.

Lemma push_all_run m p push xs vs :
  push = OLPush ∨ push = ORPush → m_lists m !! p = Some xs → zlen xs + zlen vs < MaxInt64 →
  push_all push p vs m =
    (Ret (MakeIntData (zlen xs + zlen vs)), set_lists (<[p := pushed push xs vs]> (m_lists m)) m).
Proof.
  intros Hp Ep Hmax. assert (∀ v, list_op_ok (push v)) as Hok by (destruct Hp as [->| ->]; done).
  assert (∀ xs v, zlen (list_spec (push v) xs).2 = zlen xs + 1) as Hlen.
  { intros ys v. destruct Hp as [->| ->]; cbn [list_spec snd]; autorewrite with zlen; lia. }
  unfold push_all. revert m xs Ep Hmax. induction vs as [|v vs IH]; intros m xs Ep Hmax; cbn [mfold].
  - erewrite bind_Ret by reflexivity. rewrite zlen_nil in Hmax.
    erewrite bind_Ret. 2:{ unfold list_Len. erewrite bind_Ret by (by apply run_list_do; [done..|lia]). done. }
    cbn. by rewrite Z.add_0_r.
  - rewrite zlen_cons in Hmax |- *. pose proof (zlen_nonneg vs).
    rewrite bind_assoc. erewrite bind_Ret by (erewrite bind_Ret by (by apply run_list_do; [done..|lia]); done).
    rewrite (IH _ (list_spec (push v) xs).2); [|cbn; by rewrite lookup_insert_eq|rewrite Hlen; lia].
    rewrite Hlen. cbn [set_lists m_lists]. rewrite insert_insert_eq.
    replace (zlen xs + 1 + zlen vs) with (zlen xs + (1 + zlen vs)) by lia. done.
Qed.

(** LPUSH and RPUSH after the arguments are checked. *)
Lemma push_body_run m key push xs vs :
  locks_free (m_locks m) → push = OLPush ∨ push = ORPush → holds_list m key xs →
  zlen xs + zlen vs < MaxInt64 →
  ∃ m', push_body push key vs m = (Ret (MakeIntData (zlen xs + zlen vs)), m') ∧
    m_locks m' = m_locks m ∧ m_exp m' = m_exp m ∧
    ∃ p, m_db m' !! key = Some (VList p) ∧ m_lists m' !! p = Some (pushed push xs vs).
Proof.
  intros Hl Hp Hx Hmax. unfold push_body. unfold holds_list in Hx.
  destruct (m_db m !! key) as [[|p| | |]|] eqn:Ev; try done.
  - exists (set_lists (<[p := pushed push xs vs]> (m_lists m)) m). split; [|split; [|split; [|exists p]]]; [|done..|].
    + apply run_locked; [done..|]. erewrite bind_Ret by reflexivity. cbn [m_db set_locks]. rewrite Ev.
      by erewrite push_all_run.
    + cbn. by rewrite lookup_insert_eq.
  - subst xs. set (p := fresh (dom (m_lists m))).
    set (m1 := set_db (<[key := VList p]> (m_db m)) (set_lists (<[p := []]> (m_lists m)) m)).
    exists (set_lists (<[p := pushed push [] vs]> (m_lists m1)) m1). split; [|split; [|split; [|exists p]]]; [|done..|].
    + apply run_locked; [done..|]. erewrite bind_Ret by reflexivity. cbn [m_db set_locks]. rewrite Ev.
      erewrite bind_Ret by reflexivity. erewrite bind_Ret by reflexivity.
      erewrite push_all_run with (xs := []); [done|done|cbn; by rewrite lookup_insert_eq|done].
    + cbn. by rewrite !lookup_insert_eq.
Qed.

Lemma lrange_all_run m c key p ys :
  locks_free (m_locks m) → ToLower (str c) = lit "lrange" → m_exp m !! key = None →
  m_db m !! key = Some (VList p) → m_lists m !! p = Some ys → 0 < zlen ys < MaxInt64 →
  ∃ m', lRangeList [c; Some key; Some (lit "0"); Some (lit "-1")] m =
    (Ret (MakeArrayData (Some (MakeBulkData <$> ys))), m').
Proof.
  intros Hl Hc He Hv Hys Hlen. unfold lRangeList. run.
  change (Atoi (lit "0")) with (@inl Z numerror 0). change (Atoi (lit "-1")) with (@inl Z numerror (-1)). cbn match.
  run. rewrite is_expired_none, checked_persistent by done. cbn [negb].
  exists (set_lists (<[p := ys]> (m_lists m)) (set_tick (S (m_tick m)) m)). apply run_rlocked; [done..|].
  erewrite bind_Ret by reflexivity. cbn [m_db set_tick set_locks]. rewrite Hv.
  erewrite bind_Ret by (apply run_list_do; [exact Hys|done|lia]). cbn [list_spec fst].
  assert (norm_range (zlen ys) 0 (-1) = Some (0, zlen ys - 1) ∧ range_spec ys 0 (-1) = ys) as [-> ->]; [|reflexivity].
  unfold norm_range, range_spec. cbn [Z.ltb Z.compare]. rewrite int64_id by (unfold in_int64, MinInt64, MaxInt64 in *; lia).
  split; [repeat case_bool; try lia; cbn; try lia; done|].
  change (Z.to_nat (0 `max` 0)) with 0%nat. rewrite drop_0. apply take_ge. unfold zlen. lia.
Qed.

(** RPUSH appends its arguments in order and LPUSH prepends them in reverse, to
    a new or an existing list; the reply is the new length, and LRANGE 0 -1 then
    returns exactly the elements. *)
Theorem PUSH_LRANGE m c c' c'' key xs vs :
  locks_free (m_locks m) → ToLower (str c) = lit "rpush" → ToLower (str c') = lit "lpush" →
  ToLower (str c'') = lit "lrange" → m_exp m !! key = None → holds_list m key xs → vs ≠ [] →
  zlen xs + zlen vs < MaxInt64 →
  (∃ m1 m2, rPushList (c :: Some key :: vs) m = (Ret (MakeIntData (zlen xs + zlen vs)), m1) ∧
     lRangeList [c''; Some key; Some (lit "0"); Some (lit "-1")] m1 =
       (Ret (MakeArrayData (Some (MakeBulkData <$> xs ++ vs))), m2)) ∧
  (∃ m1 m2, lPushList (c' :: Some key :: vs) m = (Ret (MakeIntData (zlen xs + zlen vs)), m1) ∧
     lRangeList [c''; Some key; Some (lit "0"); Some (lit "-1")] m1 =
       (Ret (MakeArrayData (Some (MakeBulkData <$> reverse vs ++ xs))), m2)).
Proof.
  intros Hl Hc Hc' Hc'' He Hx Hvs Hmax.
  assert (0 < zlen vs). { destruct vs; [done|]. rewrite zlen_cons. pose proof (zlen_nonneg vs). lia. }
  pose proof (zlen_nonneg xs). set (m0 := set_tick (S (m_tick m)) m).
  assert (∀ push, push = OLPush ∨ push = ORPush → zlen (pushed push xs vs) = zlen xs + zlen vs) as Hlen.
  { intros push [->| ->]; [rewrite pushed_left|rewrite pushed_right]; unfold zlen;
      rewrite length_app, ?length_reverse; lia. }
  assert (∀ push, push = OLPush ∨ push = ORPush →
    ∃ m1 m2, push_body push key vs m0 = (Ret (MakeIntData (zlen xs + zlen vs)), m1) ∧
      lRangeList [c''; Some key; Some (lit "0"); Some (lit "-1")] m1 =
        (Ret (MakeArrayData (Some (MakeBulkData <$> pushed push xs vs))), m2)) as Hgen.
  { intros push Hp. destruct (push_body_run m0 key push xs vs Hl Hp Hx Hmax) as (m1 & E1 & Hl1 & He1 & p & Hv1 & Hp1).
    destruct (lrange_all_run m1 c'' key p (pushed push xs vs)) as [m2 E2]; [by rewrite Hl1|done|by rewrite He1|done..| |eauto].
    rewrite Hlen by done. lia. }
  split.
  - destruct (Hgen ORPush) as (m1 & m2 & E1 & E2); [by right|]. exists m1, m2. rewrite pushed_right in E2.
    split; [|done]. rewrite <- E1. unfold rPushList. run. by rewrite checked_persistent.
  - destruct (Hgen OLPush) as (m1 & m2 & E1 & E2); [by left|]. exists m1, m2. rewrite pushed_left in E2.
    split; [|done]. rewrite <- E1. unfold lPushList. run. by rewrite checked_persistent.
Qed.

(** ** SINTERSTORE *)
Lemma Lock_read_held key l : locks_free l → (Lock key (hold read_held [key] l)).1 = Blocks.
Proof.
  intros Hl. pose proof (hold_nonempty read_held [key] l (proj1 Hl)) as Hne.
  destruct (GetKeyPos_lookup key _ Hne) as (mx & Hmx & Hpos). unfold Lock, on_mutex.
  destruct (Z.eqb_spec (GetKeyPos key (hold read_held [key] l)) (-1)); [lia|].
  destruct (Z.ltb_spec (GetKeyPos key (hold read_held [key] l)) 0); [lia|]. rewrite Hmx.
  rewrite GetKeyPos_hold in Hmx. apply hold_lookup in Hmx as ->; [done|left|apply Hl].
Qed.

(** SINTERSTORE of a key that does not exist panics while it holds the read
    lock of the key, and nobody releases it: the next SET of the key (or of any
    key with the same lock) waits forever. *)
Theorem SINTERSTORE_missing_key_leaks m c c' des key val :
  locks_free (m_locks m) → ToLower (str c) = lit "sinterstore" → ToLower (str c') = lit "set" →
  m_exp m !! des = None → m_exp m !! key = None → m_db m !! des = None → m_db m !! key = None →
  ∃ m', sInterStoreSet [c; Some des; Some key] m = (Panics, m') ∧
    m_locks m' = hold read_held [key] (m_locks m) ∧ (setString [c'; Some key; val] m').1 = Blocks.
Proof.
  intros Hl Hc Hc' Hed Hek Hd Hk.
  set (L := hold read_held [key] (m_locks m)). set (m' := set_locks L (set_tick (S (S (m_tick m))) m)).
  exists m'. split_and!; [|done|].
  - unfold sInterStoreSet. run. rewrite checked_persistent by done.
    erewrite bind_Ret by (unfold dest_ok; erewrite bind_Ret by reflexivity; cbn [m_db set_tick]; by rewrite Hd).
    cbn [negb]. erewrite bind_Ret.
    2:{ unfold live_keys. change (drop 2 [c; Some des; Some key]) with [Some key]. cbn [mfold].
        erewrite bind_Ret; [|erewrite bind_Ret by run_op; rewrite is_expired_none by done; reflexivity].
        rewrite checked_persistent by done. reflexivity. }
    cbn [negb str default from_option id app]. change (zlen [key] =? 0) with false. cbn match.
    erewrite bind_Ret by (unfold locks_RLockMulti; cbn; by rewrite RLockMulti_free).
    erewrite bind_Ret by (cbn [collect_sets]; erewrite bind_Ret by reflexivity; cbn [m_db set_tick set_locks]; by rewrite Hk).
    done.
  - unfold setString. erewrite bind_Ret by run_op. cbn [negb]. run.
    assert (MemDb_CheckTTL key m' = (Ret true, set_tick (S (m_tick m')) m')) as E.
    { unfold MemDb_CheckTTL, now, mbind, M_bind, m'. cbn. by rewrite Hek. }
    erewrite bind_Ret by exact E. cbn [set_parse_opts drop no_opts o_nx o_xx o_ex o_keepttl andb orb].
    pose proof (Lock_read_held key (m_locks m) Hl) as HB. unfold locks_Lock, mbind, M_bind. cbn.
    fold L in HB |- *. destruct (Lock key L) as [[[]| | |] ?]; done.
Qed.
End commands.

(** ** Concrete states *)
#[local] Existing Instance demo_host.
Definition empty_db : Model := NewModel 2.
Lemma empty_db_free : locks_free (m_locks empty_db).
Proof. by apply lock_table_free. Qed.
Definition counter_db : Model := set_db {[ lit "n" := VBytes (Some (FormatInt MaxInt64)) ]} empty_db.
Definition string_db : Model := set_db {[ lit "s" := VBytes (Some (lit "hello")) ]} empty_db.
Abbreviation arg_ s := (Some (lit s)).

Lemma SET_spec_witness :
  (∃ m', setString (command ["SET"; "k"; "v"; "ex"; "5"; "Nx"]%string) empty_db = (Ret (MakeStringData (lit "OK")), m') ∧
    m_exp m' !! lit "k" = Some 1006) ∧
  ∃ msg m', setString (command ["SET"; "k"; "v"; "XX"; "EX"]%string) empty_db = (Ret (MakeErrorData msg), m').
Proof.
  split.
  - destruct (SET_spec empty_db (arg_ "SET") (lit "k") (arg_ "v") (command ["ex"; "5"; "Nx"]%string) empty_db_free eq_refl) as [Hs _].
    eexists. split.
    + etransitivity; [apply (Hs [EX 5; NX]); by repeat constructor|]. vm_compute. reflexivity.
    + vm_compute. reflexivity.
  - destruct (SET_spec empty_db (arg_ "SET") (lit "k") (arg_ "v") (command ["XX"; "EX"]%string) empty_db_free eq_refl) as [_ Hs].
    destruct Hs as [msg E]; [|by eexists msg, _].
    intros opts Ho. inversion Ho as [|a l o Ha Hl|a l o Ha Hl|a l o Ha Hl|a l o Ha Hl|a v n l o Ha Hn Hl]; subst; try discriminate Ha.
    inversion Hl as [|a l o' Ha' Hl'|a l o' Ha' Hl'|a l o' Ha' Hl'|a l o' Ha' Hl'|a v n l o' Ha' Hn' Hl']; subst; discriminate Ha'.
Defined.

Lemma SETEX_GET_witness :
  ∃ m', (setExString [arg_ "SETEX"; arg_ "k"; Some (FormatInt 1); arg_ "v"];; getString [arg_ "GET"; arg_ "k"]) empty_db =
    (Ret MakeNullBulkData, m').
Proof.
  destruct (SETEX_GET empty_db (arg_ "SETEX") (arg_ "GET") (lit "k") (arg_ "v") 1 empty_db_free eq_refl eq_refl)
    as (m' & E & _); [done|]. exists m'. exact E.
Defined.

Lemma INCRBY_sum_witness :
  ∃ rs m', incrby_all (arg_ "INCRBY") (lit "n") [1] [] counter_db = (Ret (rs ++ [MakeIntData MinInt64]), m').
Proof.
  destruct (INCRBY_sum counter_db (arg_ "INCRBY") (lit "n") MaxInt64 [] 1 [] empty_db_free eq_refl)
    as (rs & m' & E & _).
  - done.
  - by repeat constructor.
  - reflexivity.
  - reflexivity.
  - exists rs, m'. exact E.
Defined.

Lemma SETRANGE_GETRANGE_witness :
  ∃ m1 m2,
    setRangeString [arg_ "SETRANGE"; arg_ "s"; Some (FormatInt 6); arg_ "you"] string_db = (Ret (MakeIntData 9), m1) ∧
    getRangeString [arg_ "GETRANGE"; arg_ "s"; Some (FormatInt 6); Some (FormatInt 8)] m1 =
      (Ret (MakeBulkData (arg_ "you")), m2).
Proof.
  destruct (SETRANGE_GETRANGE string_db (arg_ "SETRANGE") (arg_ "GETRANGE") (lit "s") 6 (lit "you") empty_db_free)
    as (m1 & m2 & new & E1 & E2 & _); try reflexivity; try discriminate.
  exists m1, m2. split; [exact E1|exact E2].
Defined.

Lemma SETRANGE_overflow_panics_witness :
  (setRangeString [arg_ "SETRANGE"; arg_ "s"; Some (FormatInt MaxInt64); arg_ "x"] string_db).1 = Panics.
Proof.
  rewrite (SETRANGE_overflow_panics string_db (arg_ "SETRANGE") (lit "s") MaxInt64 (lit "x") empty_db_free);
    try reflexivity; try discriminate. done.
Defined.

Lemma MSET_MGET_witness :
  ∃ m', (mSetString (arg_ "MSET" :: mset_args [(lit "a", arg_ "1"); (lit "b", arg_ "2"); (lit "a", arg_ "3")]);;
         mGetString [arg_ "MGET"; arg_ "b"; arg_ "a"]) empty_db =
    (Ret (MakeArrayData (Some [MakeBulkData (arg_ "2"); MakeBulkData (arg_ "3")])), m').
Proof.
  destruct (MSET_MGET empty_db (arg_ "MSET") (arg_ "MGET")
    [(lit "a", arg_ "1"); (lit "b", arg_ "2"); (lit "a", arg_ "3")] [lit "b"; lit "a"] empty_db_free eq_refl eq_refl)
    as (m' & E & _); [discriminate|discriminate| |].
  - apply (bool_decide_unpack _). vm_compute. exact I.
  - exists m'. exact E.
Defined.

Lemma RENAME_spec_witness :
  ∃ m', renameKey [arg_ "RENAME"; arg_ "s"; arg_ "t"] string_db = (Ret (MakeStringData (lit "OK")), m') ∧
    m_db m' !! lit "t" = Some (VBytes (arg_ "hello")) ∧ m_db m' !! lit "s" = None.
Proof.
  eexists. split.
  - etransitivity; [apply (RENAME_spec string_db (arg_ "RENAME") (lit "s") (lit "t") empty_db_free eq_refl)|reflexivity].
  - split; reflexivity.
Defined.

Lemma EXPIRE_spec_witness :
  ∃ m', expireKey [arg_ "EXPIRE"; arg_ "s"; Some (FormatInt 100); arg_ "NX"] string_db = (Ret (MakeIntData 1), m') ∧
    m_exp m' !! lit "s" = Some 1100.
Proof.
  eexists. split.
  - etransitivity; [apply (EXPIRE_spec string_db (arg_ "EXPIRE") (lit "s") 100 (lit "NX") empty_db_free eq_refl);
      done|reflexivity].
  - reflexivity.
Defined.

Lemma PUSH_LRANGE_witness :
  ∃ m1 m2, lPushList [arg_ "LPUSH"; arg_ "l"; arg_ "a"; arg_ "b"] empty_db = (Ret (MakeIntData 2), m1) ∧
    lRangeList [arg_ "LRANGE"; arg_ "l"; arg_ "0"; arg_ "-1"] m1 =
      (Ret (MakeArrayData (Some [MakeBulkData (arg_ "b"); MakeBulkData (arg_ "a")])), m2).
Proof.
  destruct (PUSH_LRANGE empty_db (arg_ "RPUSH") (arg_ "LPUSH") (arg_ "LRANGE") (lit "l") [] [arg_ "a"; arg_ "b"]
    empty_db_free) as [_ (m1 & m2 & E1 & E2)]; try reflexivity; try discriminate.
  exists m1, m2. split; [exact E1|exact E2].
Defined.

Lemma SINTERSTORE_missing_key_leaks_witness :
  ∃ m', sInterStoreSet [arg_ "SINTERSTORE"; arg_ "d"; arg_ "k"] empty_db = (Panics, m') ∧
    (setString [arg_ "SET"; arg_ "k"; arg_ "v"] m').1 = Blocks.
Proof.
  destruct (SINTERSTORE_missing_key_leaks empty_db (arg_ "SINTERSTORE") (arg_ "SET") (lit "d") (lit "k") (arg_ "v")
    empty_db_free) as (m' & E & _ & B); try reflexivity.
  exists m'. split; [exact E|exact B].
Defined.
