(* ===== verification/ZSetClaims.v ===== *)
(** * What the sorted set commands do

    [src/pkg/memdb/zset.go] on the reference store: what ZADD stores, ZRANGE,
    ZRANK and ZSCORE read back, in order. *)

From S2P Require Import Prelude Float ZSetStruct ZSetSpec ZSetRefine RESP Util CMap Heap TTL Locks ListStruct ListOps SetStruct HashStruct Store World Model.
From S2P Require Import Strings Keys ListCmds SetCmds HashCmds ZSetCmds Refine Safety Commands.
From Stdlib Require Import Ascii String ZArith Lia SpecFloat.
From stdpp Require Import prelude gmap list fin_maps.
Open Scope Z_scope.

Section zset_commands.
Context `{Host}.
Implicit Types (m : Model) (key : bytes) (l es : list entry).

(** [key] holds a sorted set of the entries [l], with right spans, or is missing
    and [l] is empty. *)
Definition holds_zset m key l : Prop :=
  match m_db m !! key with
  | Some (VZSet p) => ∃ z, m_zsets m !! p = Some z ∧ zrep true z l
  | Some _ => False
  | None => l = []
  end.

(** Arguments [score member] and the entries they denote. *)
Definition denotes (a : slice * slice) (e : entry) : Prop :=
  ParseFloat (str a.1) = Some e.2 ∧ str a.2 = e.1 ∧ num e.
Definition pair_args (args : list (slice * slice)) : list slice := flat_map (λ a, [a.1; a.2]) args.

Lemma insert_entry_perm e l : insert_entry e l ≡ₚ e :: l.
Proof.
  induction l as [|x l IH]; cbn [insert_entry]; [done|]. destruct (elt x e); [|done].
  rewrite IH. apply Permutation_swap.
Qed.
Lemma score_of_insert (e e' : entry) l : e'.1 ≠ e.1 → score_of e'.1 l = None → score_of e'.1 (insert_entry e l) = None.
Proof.
  rewrite !score_of_None. intros Hne Hl. rewrite insert_entry_perm. cbn. rewrite not_elem_of_cons. done.
Qed.

Lemma run_on_zset {A} m p z (f : ZM A) a z' :
  m_zsets m !! p = Some z → f z = (Ret a, z') →
  on_zset p f m = (Ret a, set_zsets (<[p := z']> (m_zsets m)) m).
Proof. intros Ep E. cbn. by rewrite Ep, E. Qed.
Lemma run_ticks {B} (l : list B) m :
  mfold (λ (_ : unit) (_ : B), tick;; mret tt) tt l m = (Ret tt, set_tick (length l + m_tick m) m).
Proof.
  revert m. induction l as [|x l IH]; intros m; [by destruct m|]. cbn [mfold].
  erewrite bind_Ret by reflexivity. rewrite IH. cbn. by rewrite Nat.add_succ_r.
Qed.
Lemma run_level_source m :
  level_source m = (Ret (λ i, rand_Float64 (m_tick m + i)), set_tick (MaxLevel + m_tick m) m).
Proof.
  unfold level_source. erewrite bind_Ret by reflexivity. erewrite bind_Ret by apply run_ticks. reflexivity.
Qed.

(** The loop of ZADD on new members. *)
Lemma zadd_loop_run p args es m z l n :
  m_zsets m !! p = Some z → zrep true z l → Forall2 denotes args es → NoDup es.*1 →
  (∀ e, e ∈ es → score_of e.1 l = None) →
  ∃ t z' l', zadd_loop p (pair_args args) n m =
      (Ret (MakeIntData (n + zlen es)), set_zsets (<[p := z']> (m_zsets m)) (set_tick t m)) ∧
    zrep true z' l' ∧ l' ≡ₚ l ++ es.
Proof.
  intros Ep Hz Hargs. revert m z l n Ep Hz.
  induction Hargs as [|[s x] [mem sc] args es (Hs & Hx & Hnum) _ IH]; intros m z l n Ep Hz Hnd Hnew.
  - exists (m_tick m), z, l. rewrite app_nil_r, (insert_id _ _ _ Ep). autorewrite with zlen. rewrite Z.add_0_r.
    destruct m. done.
  - cbn [fst snd] in *. cbn [pair_args flat_map app zadd_loop fst snd]. rewrite Hs, Hx. erewrite bind_Ret by apply run_level_source.
    destruct (ZSet_Add_spec (λ i, rand_Float64 (m_tick m + i)) true z l mem sc Hz Hnum) as (z1 & E1 & Hz1).
    pose proof (Hnew (mem, sc)) as Hno. cbn [fst] in Hno. rewrite Hno in E1, Hz1 by (left; done). cbn [fst snd] in *.
    erewrite bind_Ret by (by apply (run_on_zset _ _ z)).
    apply NoDup_cons in Hnd as [Hni Hnd].
    destruct (IH (set_zsets (<[p := z1]> (m_zsets m)) (set_tick (MaxLevel + m_tick m) m)) z1 (insert_entry (mem, sc) l) (n + 1))
      as (t & z' & l' & E & Hz' & Hl'); [by apply lookup_insert_eq|done|done| |].
    { intros e He. apply (score_of_insert (mem, sc)); [|apply Hnew; by right].
      intros Heq. apply Hni. rewrite <- Heq. by apply list_elem_of_fmap_2. }
    exists t, z', l'. split; [etransitivity; [exact E|]|split; [done|]].
    { cbn. rewrite insert_insert_eq. autorewrite with zlen. by rewrite Z.add_assoc. }
    rewrite Hl', insert_entry_perm. apply Permutation_middle.
Qed.

Lemma zadd_run m c key args es l :
  locks_free (m_locks m) → ToLower (str c) = lit "zadd" → m_exp m !! key = None → holds_zset m key l →
  Forall2 denotes args es → args ≠ [] → NoDup es.*1 → (∀ e, e ∈ es → score_of e.1 l = None) →
  ∃ m' p z' l', zAddZset (c :: Some key :: pair_args args) m = (Ret (Some (MakeIntData (zlen es))), m') ∧
    m_locks m' = m_locks m ∧ m_exp m' = m_exp m ∧ m_db m' !! key = Some (VZSet p) ∧
    m_zsets m' !! p = Some z' ∧ zrep true z' l' ∧ l' ≡ₚ l ++ es.
Proof.
  intros Hl Hc He Hx Hargs Hne Hnd Hnew. unfold zAddZset. run.
  assert (∃ k, zlen (pair_args args) = 2 * k ∧ 1 <= k) as (k & Hk & Hk1).
  { exists (zlen args). destruct args as [|a args]; [done|]. split; [|rewrite zlen_cons; pose proof (zlen_nonneg args); lia].
    clear. induction (a :: args) as [|b k IH]; [done|]. unfold pair_args in *. cbn [flat_map].
    autorewrite with zlen in *. rewrite IH. lia. }
  rewrite !zlen_cons, Hk. rewrite (proj2 (Z.ltb_ge _ 3)) by lia.
  replace (1 + (1 + 2 * k)) with (2 * (k + 1)) by lia. rewrite Z.odd_mul. cbn [Z.odd andb orb].
  rewrite bind_assoc. erewrite bind_Ret by run_op. rewrite bind_assoc. erewrite bind_Ret by run_op.
  rewrite checked_persistent by done. set (m0 := set_tick _ m).
  assert (∃ p z m1, zset_for_update key (set_locks (hold write_held [key] (m_locks m)) m0) =
      (Ret (Some p), set_locks (hold write_held [key] (m_locks m)) m1) ∧ m_locks m1 = m_locks m ∧ m_exp m1 = m_exp m ∧
      m_db m1 !! key = Some (VZSet p) ∧ m_zsets m1 !! p = Some z ∧ zrep true z l) as (p & z & m1 & Eu & Hl1 & He1 & Hv1 & Hp1 & Hz1).
  { unfold zset_for_update, holds_zset in *. erewrite bind_Ret by reflexivity. cbn [m_db set_locks set_tick m0].
    destruct (m_db m !! key) as [[|p|p|p|p]|] eqn:Ev; try done.
    - destruct Hx as (z & Ez & Hz). exists p, z, m0. done.
    - subst l. eexists _, NewZSet, _. split; [erewrite bind_Ret by reflexivity; erewrite bind_Ret by reflexivity|].
      { instantiate (2 := fresh (dom (m_zsets m))).
        instantiate (1 := set_db (<[key := VZSet (fresh (dom (m_zsets m)))]> (m_db m))
          (set_zsets (<[fresh (dom (m_zsets m)) := NewZSet]> (m_zsets m)) m0)). done. }
      do 2 (split; [done|]). split; [apply lookup_insert_eq|]. split; [apply lookup_insert_eq|apply NewZSet_rep]. }
  destruct (zadd_loop_run p args es (set_locks (hold write_held [key] (m_locks m)) m1) z l 0 Hp1 Hz1 Hargs Hnd Hnew)
    as (t & z' & l' & E & Hz' & Hl').
  exists (set_zsets (<[p := z']> (m_zsets m1)) (set_tick t m1)), p, z', l'. split; [|split; [exact Hl1|]].
  - erewrite bind_Ret; [done|]. rewrite <- (Z.add_0_l (zlen es)).
    apply run_locked; [done|exact Hl1|done|]. erewrite bind_Ret by exact Eu. exact E.
  - do 2 (split; [done|]). split; [apply lookup_insert_eq|]. done.
Qed.

(** A read of a sorted set. *)
Lemma zset_read_run {A} m key missing (f : ZM A) (reply : A → RedisData) p z a :
  locks_free (m_locks m) → m_db m !! key = Some (VZSet p) → m_zsets m !! p = Some z → f z = (Ret a, z) →
  zset_read key missing (λ p, a ← on_zset p f; mret (reply a)) m = (Ret (reply a), m).
Proof.
  intros Hl Hv Hp E. unfold zset_read. apply run_rlocked; [done..|]. unfold with_zset.
  erewrite bind_Ret by reflexivity. cbn [m_db set_locks]. rewrite Hv.
  erewrite bind_Ret by (apply (run_on_zset _ _ z); [exact Hp|exact E]).
  cbn [m_zsets set_locks]. rewrite insert_id by done. by destruct m.
Qed.

Lemma rank_lookup l i (e : entry) : NoDup l.*1 → l !! i = Some e → rank_of e.1 l = Z.of_nat i.
Proof.
  intros Hnd Hi. destruct e as [x s]. apply list_elem_of_split_length in Hi as (B & A & -> & ->).
  by apply rank_of_middle.
Qed.
Lemma range_all l : l ≠ [] → range_of 0 (-1) l = Some l.
Proof.
  intros Hne. unfold range_of. assert (0 < zlen l) as Hpos by (destruct l; [done|unfold zlen; cbn; lia]).
  assert (rank_bounds (zlen l) 0 (-1) = Some (0, zlen l - 1)) as ->.
  { unfold rank_bounds. cbn. repeat (case_bool; cbn; try lia). all: do 2 f_equal; lia. }
  change (Z.to_nat 0) with 0%nat. rewrite drop_0, take_ge; [done|]. unfold zlen. lia.
Qed.

(** C31: Take a sorted set without an expiry whose spans are right (for instance
    one from which nothing was removed), or no set, and distinct members it does not have,
    with scores that are not NaN.  ZADD of these new members
    replies their number and keeps the ones the set had;
    afterwards ZRANGE 0 -1 WITHSCORES returns all entries, sorted by score and
    then by member, ZRANK of a member is its position in that order and ZSCORE
    its score.  (Updating a member the set has removes it first, which breaks the spans:
    see [ZSetRefine.Remove_breaks_ranks].) *)
Theorem ZADD_ZRANGE m c c1 c2 c3 ws key args es l :
  locks_free (m_locks m) → m_exp m !! key = None → holds_zset m key l →
  ToLower (str c) = lit "zadd" → ToLower (str c1) = lit "zrange" → ToLower (str c2) = lit "zrank" →
  ToLower (str c3) = lit "zscore" → ToLower (str ws) = lit "withscores" →
  Forall2 denotes args es → args ≠ [] → NoDup es.*1 → (∀ e, e ∈ es → score_of e.1 l = None) →
  ∃ m' l', zAddZset (c :: Some key :: pair_args args) m = (Ret (Some (MakeIntData (zlen es))), m') ∧
    l' ≡ₚ l ++ es ∧ sorted l' ∧
    zRangeZset [c1; Some key; Some (lit "0"); Some (lit "-1"); ws] m' =
      (Ret (entries_data true l'), set_tick (S (m_tick m')) m') ∧
    ∀ (i : nat) e, l' !! i = Some e →
      zRankZset [c2; Some key; Some e.1] m' = (Ret (MakeIntData (Z.of_nat i)), set_tick (S (m_tick m')) m') ∧
      zScoreZset [c3; Some key; Some e.1] m' = (Ret (MakeBulkData (Some (Sprintf_v e.2))), set_tick (S (m_tick m')) m').
Proof.
  intros Hl He Hx Hc Hc1 Hc2 Hc3 Hws Hargs Hne Hnd Hnew.
  destruct (zadd_run m c key args es l Hl Hc He Hx Hargs Hne Hnd Hnew)
    as (m' & p & z & l' & E & Hl' & He' & Hv & Hp & Hz & Hperm).
  exists m', l'. split; [done|]. split; [done|].
  pose proof Hz as (ps & Hsk & Hent & [Hsort Hnum Hmem] & Hdict & _). split; [done|].
  rewrite <- He' in He. assert (locks_free (m_locks m')) as Hlf by (by rewrite Hl').
  assert (l' ≠ []) as Hne'.
  { intros ->. apply Permutation_nil in Hperm as Hnil. apply app_eq_nil in Hnil as [_ ->].
    by apply Forall2_nil_inv_r in Hargs. }
  split; [|intros i e Hi; split].
  - unfold zRangeZset, range_cmd. run. rewrite is_expired_none, checked_persistent by done. cbn [negb].
    run. change (Atoi (lit "0")) with (@inl Z numerror 0). cbn match.
    run. change (Atoi (lit "-1")) with (@inl Z numerror (-1)). cbn match. run.
    rewrite Hws. change (beq (lit "withscores") (lit "withscores")) with true.
    erewrite (zset_read_run _ key _ (ZSet_Range 0 (-1)) (λ r, entries_data true (default [] r)) p z (Some l')); try done.
    by rewrite (ZSet_Range_spec z l'), range_all.
  - unfold zRankZset, rank_cmd. run. rewrite is_expired_none, checked_persistent by done. cbn [negb].
    run. erewrite (zset_read_run _ key _ (ZSet_Rank e.1) (λ r, if r =? -1 then MakeNullBulkData else MakeIntData r) p z (Z.of_nat i)); try done.
    + rewrite (proj2 (Z.eqb_neq _ _)) by lia. done.
    + by rewrite (ZSet_Rank_spec z l'), (rank_lookup l' i e).
  - unfold zScoreZset. run. rewrite is_expired_none, checked_persistent by done. cbn [negb].
    run. erewrite (zset_read_run _ key _ (ZSet_Get e.1) (λ s, if IsNaN s then MakeNullBulkData else MakeBulkData (Some (Sprintf_v s))) p z e.2); try done.
    + rewrite Forall_forall in Hnum. rewrite (Hnum e); [done|]. by eapply list_elem_of_lookup_2.
    + unfold ZSet_Get. rewrite z_get_run, (zrep_score true z l'), (proj2 (score_of_elem l' e.1 e.2 (Build_entries _ Hsort Hnum Hmem))); [done| |done].
      destruct e. by eapply list_elem_of_lookup_2.
Qed.
End zset_commands.

#[local] Existing Instance demo_host.
Lemma ZADD_ZRANGE_witness :
  ∃ m' l', zAddZset (command ["ZADD"; "z"; "2"; "b"; "1"; "a"]%string) empty_db = (Ret (Some (MakeIntData 2)), m') ∧
    l' ≡ₚ [(lit "b", flo 2); (lit "a", flo 1)] ∧ sorted l' ∧
    (zRangeZset (command ["ZRANGE"; "z"; "0"; "-1"; "WITHSCORES"]%string) m').1 = Ret (entries_data true l').
Proof.
  assert (Forall2 denotes [(arg_ "2", arg_ "b"); (arg_ "1", arg_ "a")] [(lit "b", flo 2); (lit "a", flo 1)]) as Hargs.
  { repeat constructor; vm_compute; reflexivity. }
  destruct (ZADD_ZRANGE empty_db (arg_ "ZADD") (arg_ "ZRANGE") (arg_ "ZRANK") (arg_ "ZSCORE") (arg_ "WITHSCORES") (lit "z")
    [(arg_ "2", arg_ "b"); (arg_ "1", arg_ "a")] [(lit "b", flo 2); (lit "a", flo 1)] []
    empty_db_free eq_refl eq_refl eq_refl eq_refl eq_refl eq_refl eq_refl Hargs)
    as (m' & l' & E & Hp & Hs & Hr & _); [discriminate| |intros e _; reflexivity|].
  - apply (bool_decide_unpack _). vm_compute. exact I.
  - exists m', l'. split; [exact E|]. split; [exact Hp|]. split; [exact Hs|]. exact (f_equal fst Hr).
Defined.
