(* ===== verification/Background.v ===== *)
(** * KEYS, and clients running beside the clean-up goroutine

    Two behaviours that need the program's own data structures: the KEYS command,
    which lists the shards of the map ([src/pkg/memdb/keys.go]), and
    [TTLManager.cleanup] ([src/pkg/memdb/db.go]), which works without the key
    locks, interleaved with commands. *)

From Stdlib Require Import Ascii String ZArith Lia.
From stdpp Require Import prelude gmap list fin_maps.
From S2P Require Import Prelude RESP Util CMap Heap TTL Locks ListStruct ListOps SetStruct HashStruct Store World Model.
From S2P Require Import Strings Keys ListCmds SetCmds HashCmds Refine Safety Commands.
Open Scope Z_scope.

Section background.
Context `{Host} {tree : Type → Type} `{!RBTree tree, !RBTreeLaws tree}.
Implicit Types (w : World tree) (m : Model).

(** ** KEYS *)
(** The keys that are alive at time [t] and selected by [f]. *)
Definition listed (f : bytes → bool) (t : Z) m (key : bytes) : bool := negb (expired t (m_exp m !! key)) && f key.

Lemma checked_exp_ne k k' m : k ≠ k' → m_exp (checked k m) !! k' = m_exp m !! k'.
Proof. intros Hne. unfold checked. destruct (is_expired k m); cbn; [|done]. by rewrite lookup_delete_ne. Qed.
Lemma checked_tick k m : m_tick (checked k m) = S (m_tick m).
Proof. done. Qed.

Lemma filter_checked f t k m (ks : list bytes) :
  k ∉ ks → filter (λ k', listed f t (checked k m) k' = true) ks = filter (λ k', listed f t m k' = true) ks.
Proof.
  induction ks as [|x ks IH]; [done|]. intros [Hne Hk]%not_elem_of_cons. rewrite !filter_cons, IH by done.
  assert (listed f t (checked k m) x = listed f t m x) as -> by (unfold listed; by rewrite checked_exp_ne). done.
Qed.

Lemma keys_loop pattern f t ks : ∀ m acc,
  locks_free (m_locks m) → NoDup ks → Forall (λ k, PatternMatch pattern k = Ret (f k)) ks →
  (∀ j, (j < length ks)%nat → unix_now (m_tick m + j) = t) →
  ∃ m', mfold (keys_body pattern) acc ks m =
    (Ret (acc ++ ((λ k, MakeBulkData (Some k)) <$> filter (λ k, listed f t m k = true) ks)), m').
Proof.
  induction ks as [|k ks IH]; intros m acc Hl Hnd Hf Ht; cbn [mfold].
  { exists m. by rewrite app_nil_r. }
  apply NoDup_cons in Hnd as [Hk Hnd]. apply Forall_cons in Hf as [Hfk Hf].
  assert (is_expired k m = expired t (m_exp m !! k)) as Ee.
  { unfold is_expired. rewrite <- (Ht 0%nat) by (cbn; lia). by rewrite Nat.add_0_r. }
  assert (keys_body pattern acc k m =
    (Ret (if listed f t m k then acc ++ [MakeBulkData (Some k)] else acc), checked k m)) as E.
  { unfold keys_body. erewrite bind_Ret by (by apply run_CheckTTL). rewrite Ee. unfold listed.
    destruct (expired t _); cbn [negb andb]; [done|]. rewrite Hfk. by destruct (f k). }
  erewrite bind_Ret by exact E.
  destruct (IH (checked k m) (if listed f t m k then acc ++ [MakeBulkData (Some k)] else acc)) as [m' Em'];
    [by rewrite checked_locks|done|done| |].
  { intros j Hj. rewrite checked_tick, Nat.add_succ_comm. apply Ht. cbn. lia. }
  exists m'. rewrite Em'. rewrite filter_cons.
  assert (filter (λ k', listed f t (checked k m) k' = true) ks = filter (λ k', listed f t m k' = true) ks) as ->.
  { by apply filter_checked. }
  destruct (listed f t m k); cbn [decide]; [rewrite decide_True by done|by rewrite decide_False].
  rewrite fmap_cons, <- app_assoc. done.
Qed.

(** C38: KEYS, on the sharded map and the expiry heaps of the program, returns every key that
    is alive and that its pattern selects, each once, whatever the distribution of the keys
    over the shards.  Here [f] is the answer of [PatternMatch] on the keys of the database (on
    which it must not panic, as it can for some patterns), and [t] the time, which does not
    change while the command runs; there are fewer than 2^31 keys. *)
Theorem KEYS_spec w m c pattern f t :
  represents w m → locks_free (m_locks m) → Z.of_nat (size (m_db m)) < 2 ^ 31 →
  ToLower (str c) = lit "keys" →
  (∀ k, is_Some (m_db m !! k) → PatternMatch pattern k = Ret (f k)) →
  (∀ j, (j < size (m_db m))%nat → unix_now (m_tick m + j) = t) →
  ∃ ks w', keysKey [c; Some pattern] w =
      (Ret (MakeArrayData (Some ((λ k, MakeBulkData (Some k)) <$> ks))), w') ∧ NoDup ks ∧
    ∀ k, k ∈ ks ↔ is_Some (m_db m !! k) ∧ expired t (m_exp m !! k) = false ∧ f k = true.
Proof.
  intros Hr Hl Hsz Hc Hf Ht. pose proof Hr as ([Hwf Habs] & _).
  pose proof (Keys_all (w_db w) Hwf) as Hks. rewrite Habs in Hks. specialize (Hks Hsz).
  set (ks := default [] (Keys (w_db w))) in *.
  assert (NoDup ks) as Hnd. { rewrite Hks. apply NoDup_fst_map_to_list. }
  assert (length ks = size (m_db m)) as Hlen.
  { rewrite Hks, length_fmap. apply length_map_to_list. }
  assert (∀ k, k ∈ ks ↔ is_Some (m_db m !! k)) as Hin.
  { intros k. rewrite Hks, list_elem_of_fmap. split.
    - intros ([k' v] & -> & Hkv%elem_of_map_to_list). by eexists.
    - intros [v Hv]. exists (k, v). split; [done|]. by apply elem_of_map_to_list. }
  destruct (keys_loop pattern f t ks m []) as [m' E]; [done|done| |by rewrite Hlen|].
  { apply Forall_forall. intros k Hk. by apply Hf, Hin. }
  pose proof (sim_mfold (keys_body pattern) (keys_body pattern) [] ks (sim_keys_body pattern) w m Hr) as Hs.
  rewrite E in Hs. destruct Hs as (w' & Ew & _).
  exists (filter (λ k, listed f t m k = true) ks), w'. split_and!.
  - unfold keysKey. change (negb (zlen [c; Some pattern] =? 2)) with false. cbn match.
    erewrite bind_Ret by (by apply run_sarg). rewrite Hc.
    change (negb (beq (lit "keys") (lit "keys"))) with false. cbn match.
    rewrite (bind_Ret _ _ w (Keys (w_db w)) w) by done. erewrite bind_Ret by (by apply run_sarg).
    fold ks. erewrite bind_Ret by exact Ew. done.
  - by apply NoDup_filter.
  - intros k. rewrite list_elem_of_filter, Hin. unfold listed. rewrite andb_true_iff, negb_true_iff. tauto.
Qed.

(** ** The clean-up goroutine *)

(** [collectExpiredAndNext] forgets the expiries it returns. *)
Lemma collect_represents w m now i :
  represents w m → (i < length (tm_shards (w_ttl w)))%nat →
  ∃ tm' ex next, collectExpiredAndNext i now (w_ttl w) = (Ret (ex, next), tm') ∧
    (∀ k, k ∈ ex ↔ pos_of (tm_mask (w_ttl w)) k = i ∧ ∃ e, m_exp m !! k = Some e ∧ e <= now) ∧
    represents (with_ttl tm' w) (set_exp (filter (λ ke, ke.1 ∉ ex) (m_exp m)) m).
Proof.
  intros (Hdb & [Htm Hexp] & Hrest) Hi.
  destruct (collectExpiredAndNext_spec (w_ttl w) now i Htm Hi) as (tm' & ex & next & E & (Hok & _ & _ & Hin & Hex) & _).
  exists tm', ex, next. split; [done|]. split.
  - intros k. rewrite Hin, Hexp. done.
  - split; [done|]. split; [|done]. split; [done|]. intros k. cbn. rewrite Hex, Hexp.
    case_decide as Hk.
    + symmetry. apply map_lookup_filter_None. right. intros e _ Hne. by apply Hne.
    + destruct (m_exp m !! k) as [e|] eqn:Ee; symmetry.
      * apply map_lookup_filter_Some. done.
      * apply map_lookup_filter_None. by left.
Qed.

(** The clean-up goroutine can delete a value that was never meant to expire.
    It first collects the expired keys of a shard and only then deletes them from
    the database, without the key lock: a client whose SET of such a key runs and
    is acknowledged in between loses its value. *)
Theorem cleanup_deletes_fresh_value w m c c' key val now e :
  represents w m → locks_free (m_locks m) → ToLower (str c) = lit "set" → ToLower (str c') = lit "get" →
  m_exp m !! key = Some e → e <= now → is_string (m_db m !! key) = true →
  ∃ tm' ex next w1 w2 w3,
    collectExpiredAndNext (pos_of (tm_mask (w_ttl w)) key) now (w_ttl w) = (Ret (ex, next), tm') ∧ key ∈ ex ∧
    setString [c; Some key; val] (with_ttl tm' w) = (Ret (MakeStringData (lit "OK")), w1) ∧
    expiry (w_ttl w1) key = None ∧
    db_Delete key w1 = (Ret 1, w2) ∧
    getString [c'; Some key] w2 = (Ret MakeNullBulkData, w3).
Proof.
  intros Hr Hl Hc Hc' He Hle Hs. pose proof Hr as (_ & [Htm Hexp] & _).
  destruct (collect_represents w m now (pos_of (tm_mask (w_ttl w)) key) Hr) as (tm' & ex & next & E & Hin & Hr').
  { by apply pos_of_lt. }
  assert (key ∈ ex) as Hk by (apply Hin; eauto).
  set (m1 := set_exp _ m) in Hr'.
  assert (m_exp m1 !! key = None) as He1.
  { apply map_lookup_filter_None. right. intros e' _ Hne. by apply Hne. }
  pose proof (sim_setString [c; Some key; val] _ _ Hr') as Hset.
  rewrite setString_run in Hset by done. cbv zeta in Hset. rewrite checked_persistent in Hset by done.
  cbn [set_parse_opts no_opts o_nx o_xx o_ex o_keepttl andb orb m_db set_tick set_exp m1] in Hset.
  rewrite Hs in Hset. destruct Hset as (w1 & E1 & Hr1). set (m2 := set_state _ _ _ _) in Hr1.
  assert (m_db m2 !! key = Some (VBytes val)) as Hv2 by apply lookup_insert_eq.
  pose proof (sim_db_Delete key _ _ Hr1) as Hdel. cbn [db_Delete Model_Store] in Hdel. rewrite Hv2 in Hdel.
  destruct Hdel as (w2 & E2 & Hr2). set (m3 := set_db (delete key (m_db m2)) m2) in Hr2.
  pose proof (sim_getString [c'; Some key] _ _ Hr2) as Hget. rewrite getString_run in Hget by done.
  assert (m_exp m2 !! key = None) as He2 by (cbn; by rewrite lookup_delete_eq).
  rewrite checked_persistent in Hget by done. cbn [m_db set_tick set_db m3] in Hget.
  rewrite lookup_delete_eq in Hget.
  destruct Hget as (w3 & E3 & _). exists tm', ex, next, w1, w2, w3. split_and!; [done..| |done|done].
  destruct Hr1 as (_ & [_ Hx] & _). by rewrite Hx.
Qed.
End background.

(** ** Concrete states *)
#[local] Existing Instance demo_host.
Definition expiring_session : list (list slice) := [command ["SETEX"; "k"; "1"; "old"]; command ["PING"]]%string.
Definition expiring_model : Model := (run_commands expiring_session (NewModel 2)).2.
Definition expiring_world : World sorted_tree := (run_commands expiring_session (new_world 2)).2.
Lemma expiring_represents : represents expiring_world expiring_model.
Proof.
  pose proof (sim_run_commands (tree := sorted_tree) expiring_session _ _ (new_world_represents 2)) as Hs.
  unfold expiring_world, expiring_model. destruct (run_commands expiring_session (NewModel 2)) as [o m'] eqn:E.
  assert (o = (run_commands expiring_session (NewModel 2)).1) as Eo by (by rewrite E).
  vm_compute in Eo. subst o. destruct Hs as (w' & -> & Hr). exact Hr.
Qed.
Lemma expiring_free : locks_free (m_locks expiring_model).
Proof. apply (bool_decide_unpack _). vm_compute. exact I. Qed.

Lemma expiring_db : m_db expiring_model = {[ lit "k" := VBytes (Some (lit "old")) ]}.
Proof. apply (bool_decide_unpack _). vm_compute. exact I. Qed.

Lemma KEYS_spec_witness :
  ∃ ks w', keysKey [Some (lit "KEYS"); Some (lit "k*")] expiring_world =
      (Ret (MakeArrayData (Some ((λ k, MakeBulkData (Some k)) <$> ks))), w') ∧ (lit "k" ∉ ks).
Proof.
  destruct (KEYS_spec expiring_world expiring_model (Some (lit "KEYS")) (lit "k*") (λ k, bool_decide (k = lit "k")) 1001
    expiring_represents expiring_free) as (ks & w' & E & _ & Hks).
  - vm_compute. reflexivity.
  - reflexivity.
  - intros k Hk. assert (k = lit "k") as ->; [|vm_compute; reflexivity].
    rewrite expiring_db in Hk. destruct Hk as [v Hv]. by apply lookup_singleton_Some in Hv as [? _].
  - intros j Hj. assert (size (m_db expiring_model) = 1%nat) as Es by (vm_compute; reflexivity).
    rewrite Es in Hj. assert (j = 0%nat) as -> by lia. vm_compute. reflexivity.
  - exists ks, w'. split; [exact E|]. intros Hk%Hks. destruct Hk as (_ & He & _). vm_compute in He. discriminate.
Defined.

Lemma cleanup_deletes_fresh_value_witness :
  ∃ tm' w1 w2 w3,
    setString (command ["SET"; "k"; "new"]%string) (with_ttl tm' expiring_world) = (Ret (MakeStringData (lit "OK")), w1) ∧
    db_Delete (lit "k") w1 = (Ret 1, w2) ∧ getString (command ["GET"; "k"]%string) w2 = (Ret MakeNullBulkData, w3).
Proof.
  destruct (cleanup_deletes_fresh_value expiring_world expiring_model (Some (lit "SET")) (Some (lit "GET")) (lit "k")
    (Some (lit "new")) 1001 1001 expiring_represents expiring_free) as (tm' & ex & next & w1 & w2 & w3 & _ & _ & E1 & _ & E2 & E3).
  - reflexivity.
  - reflexivity.
  - vm_compute. reflexivity.
  - lia.
  - vm_compute. reflexivity.
  - exists tm', w1, w2, w3. split; [exact E1|]. split; [exact E2|exact E3].
Defined.

(** A session in which HRANDFIELD never returns: HINCRBY on a field with an empty
    value counts the field twice, so HDEL leaves an empty hash of size one. *)
Example hrandfield_hangs :
  (run_commands [command ["HSET"; "h"; "f"; ""]; command ["HINCRBY"; "h"; "f"; "1"]; command ["HDEL"; "h"; "f"];
                 command ["HRANDFIELD"; "h"; "-1"]]%string (new_world 2 : World sorted_tree)).1 = Blocks.
Proof. vm_compute. reflexivity. Qed.
