(* ===== verification/Server.v ===== *)
(** * Connections

    [src/pkg/server]: the classification of commands ([write.go]), the interface
    between the connection handler and the node that executes commands
    ([local_node.go], lines 13-17), the standalone node and the connection
    handler ([handler.go]).

    A connection is the bytes that arrive from its client, what reading gives after
    them (end of file or an error that stays), and what happens to each reply the
    server writes.  The handler runs in its own goroutine: a panic of a command is
    recovered there and ends the connection; a panic of the parser goroutine is
    recovered nowhere and ends the process.  The channel between them is unbuffered,
    so the parser is at most one result ahead: it reads on while the handler executes
    the last command it received and, when the handler leaves, until it has another
    result to send.  The bytes are taken to have arrived before the handler leaves.
    Shutdown (the cancelled context closes the connection) is the subject of
    [Serve]; the log is left out. *)

From Stdlib Require Import Ascii String ZArith Lia.
From stdpp Require Import prelude gmap list fin_maps.
From S2P Require Import Prelude RESP Util CMap Heap TTL Locks ListStruct ListOps SetStruct HashStruct ZSetStruct Store World Model.
From S2P Require Import Refine Safety.
Open Scope Z_scope.
#[local] Arguments CmdTable : simpl never.

(** ** Which commands write *)
Definition write_commands : list bytes := lit <$>
  ["SET"; "SETNX"; "SETEX"; "PSETEX"; "DEL"; "INCR"; "DECR"; "APPEND"; "MSET"; "MSETNX";
   "HSET"; "HSETNX"; "HDEL"; "HINCRBY"; "HINCRBYFLOAT"; "HMSET";
   "LPUSH"; "RPUSH"; "LPOP"; "RPOP"; "LREM"; "LSET"; "LTRIM";
   "SADD"; "SREM"; "SPOP"; "SMOVE";
   "ZADD"; "ZREM"; "ZINCRBY"; "ZPOPMAX"; "ZPOPMIN";
   "EXPIRE"; "EXPIREAT"; "PERSIST"; "RENAME"; "RENAMENX"; "FLUSHDB"; "FLUSHALL";
   "MULTI"; "EXEC"; "DISCARD"; "WATCH"; "UNWATCH"]%string.

Definition IsWriteCommand `{Host} (cmd : list slice) : bool :=
  match cmd with
  | [] => false
  | c :: _ => bool_decide (ToUpper (str c) ∈ write_commands)
  end.

(** ** The node behind a connection *)
(** A reply in wire format, or the text of an error. *)
Class ExecNode (S : Type) := {
  ApplyCommand : list slice → M S (bytes + bytes);
  ReadCommand : list slice → M S (bytes + bytes);
}.

Definition reply_bytes (res : option RedisData) : bytes :=
  match res with
  | None => ToBytes (MakeErrorData (lit "unknown error"))
  | Some res => ToBytes res
  end.

Section localNode.
Context `{Host} {S : Type} `{!Store S}.

Definition localNode_ApplyCommand (cmd : list slice) : M S (bytes + bytes) :=
  res ← ExecCommand CmdTable cmd; mret (inl (reply_bytes res)).
Definition localNode_ReadCommand (cmd : list slice) : M S (bytes + bytes) :=
  res ← ExecCommand CmdTable cmd; mret (inl (reply_bytes res)).
End localNode.

Definition localNode `{Host} {S : Type} `{!Store S} : ExecNode S :=
  {| ApplyCommand := localNode_ApplyCommand; ReadCommand := localNode_ReadCommand |}.

(** ** The handler *)
Inductive write_result := WriteOk | WriteClosed | WriteErr (msg : bytes).
Inductive handler_error := ParseError (e : error) | PanicError | WriteError (msg : bytes).

(** How a connection ends: [lastErr] is what the handler logs, [returned] the
    error it returns.  After a recovered panic the unnamed result is nil. *)
Record ending := mkEnding { lastErr : option handler_error; returned : option handler_error }.
Definition ends_with (e : option handler_error) : ending := mkEnding e e.

(** [recover] in a deferred function: [None] after a panic. *)
Definition recovered {S A} (c : M S A) : M S (option A) := λ s,
  match c s with
  | (Ret a, s) => (Ret (Some a), s)
  | (Panics, s) => (Ret None, s)
  | (Fatals, s) => (Fatals, s)
  | (Blocks, s) => (Blocks, s)
  end.

Section Handler.
Context `{Host} {S : Type} (node : ExecNode S) (write : nat → write_result).

(** One command: the bytes of its reply, errors of the node included. *)
Definition exec_command (cmd : list slice) : M S bytes :=
  r ← (if IsWriteCommand cmd then ApplyCommand cmd else ReadCommand cmd);
  mret (match r with inl resp => resp | inr e => ToBytes (MakeErrorData e) end).

(** The handler leaves its loop with [results] still to come from a parser that ends with
    [fin]: when the parser has nothing to send before it panics, the process dies. *)
Definition leave (fin : outcome unit) (results : list ParsedRes) (r : list bytes * ending) : M S (list bytes * ending) :=
  match results, fin with
  | [], Panics => λ s, (Fatals, s)
  | _, _ => mret r
  end.

(** The loop over the channel of the parser, which ends with [fin]; [written] are the
    replies so far. *)
Fixpoint handle_loop (fin : outcome unit) (results : list ParsedRes) (written : list bytes) : M S (list bytes * ending) :=
  match results with
  | [] => leave fin [] (written, ends_with None)
  | parsed :: results =>
      match Err parsed with
      | Some io_EOF => leave fin results (written, ends_with None)
      | Some e => leave fin results (written, ends_with (Some (ParseError e)))
      | None =>
          match Data parsed with
          | Some (ArrayData d) =>
              r ← recovered (exec_command (ToCommand d));
              match r with
              | None => leave fin results (written, mkEnding (Some PanicError) None)
              | Some resp =>
                  match write (length written) with
                  | WriteOk => handle_loop fin results (written ++ [resp])
                  | WriteClosed => leave fin results (written, ends_with None)
                  | WriteErr msg => leave fin results (written, ends_with (Some (WriteError msg)))
                  end
              end
          | _ => handle_loop fin results written
          end
      end
  end.

(** [Handle] on a connection that delivers [inp] and then ends with [rend]. *)
Definition Handle (rend : option bytes) (inp : bytes) : M S (list bytes * ending) :=
  match ParseStream rend inp with
  | None => λ s, (Blocks, s)
  | Some (results, fin) => handle_loop fin results []
  end.
End Handler.

(** The commands among the values a client sends: arrays; other values are
    skipped without a reply. *)
Definition as_command (d : RedisData) : option (list slice) :=
  match d with ArrayData l => Some (ToCommand l) | _ => None end.
Definition commands_of (ds : list RedisData) : list (list slice) := omap as_command ds.

Section session.
Context `{Host} {S : Type}.

Definition exec_all (node : ExecNode S) (cmds : list (list slice)) (out : list bytes) : M S (list bytes) :=
  mfold (λ out cmd, b ← exec_command node cmd; mret (out ++ [b])) out cmds.

Lemma handle_loop_session node fin ds tl out s rs s' :
  exec_all node (commands_of ds) out s = (Ret rs, s') →
  handle_loop node (λ _, WriteOk) fin (map emit ds ++ tl) out s = handle_loop node (λ _, WriteOk) fin tl rs s'.
Proof.
  unfold exec_all. revert out s. induction ds as [|d ds IH]; intros out s; cbn [commands_of omap list_omap map app mfold].
  { by intros [= <- <-]. }
  destruct d as [b|b|n|b|b|l]; try apply IH. cbn [as_command mfold handle_loop emit Err Data].
  unfold recovered, mbind, M_bind, mret, M_ret. destruct (exec_command node (ToCommand l) s) as [[b| | |] s1]; try done.
  cbn. apply IH.
Qed.

Lemma Handle_session node ds s rs s' :
  Forall wire_ok ds → exec_all node (commands_of ds) [] s = (Ret rs, s') →
  Handle node (λ _, WriteOk) None (concat (map ToBytes ds)) s = (Ret (rs, ends_with None), s').
Proof.
  intros Hw E. unfold Handle, ParseStream. rewrite <- (app_nil_r (concat _)), parse_values by done.
  change (parse None readState0 []) with (Some ([emit_err io_EOF], Ret tt)). cbv iota.
  by rewrite (handle_loop_session node _ ds _ [] s rs s').
Qed.

(** A command that panics ends the connection after the earlier replies, and the process
    if the parser panics before it has another result. *)
Lemma Handle_panics node rend ds d cmd rest s rs s1 s2 :
  Forall wire_ok ds → wire_ok d → as_command d = Some cmd →
  exec_all node (commands_of ds) [] s = (Ret rs, s1) → exec_command node cmd s1 = (Panics, s2) →
  Handle node (λ _, WriteOk) rend (concat (map ToBytes ds) ++ ToBytes d ++ rest) s =
    (match ParseStream rend rest with
     | Some ([], Panics) => Fatals
     | _ => Ret (rs, mkEnding (Some PanicError) None)
     end, s2).
Proof.
  intros Hw Hd Hcmd E Ep. unfold Handle, ParseStream. rewrite parse_values, parse_value by done.
  destruct (parse_is_Some rend readState0 rest) as [[out fin] ->]. cbv iota.
  rewrite (handle_loop_session node fin ds _ [] s rs s1) by done. destruct d as [| | | | |l]; try done.
  cbn in Hcmd. injection Hcmd as <-. cbn [handle_loop emit Err Data]. unfold recovered, mbind, M_bind. rewrite Ep.
  by destruct out, fin.
Qed.
End session.

Section local.
Context `{Host} {S : Type} `{!Store S}.

Lemma local_exec (cmd : list slice) (s : S) :
  exec_command localNode cmd s = (res ← ExecCommand CmdTable cmd; mret (reply_bytes res)) s.
Proof.
  unfold exec_command. cbn [ApplyCommand ReadCommand localNode]. unfold localNode_ApplyCommand, localNode_ReadCommand.
  destruct (IsWriteCommand cmd); unfold mbind, M_bind; by destruct (ExecCommand CmdTable cmd s) as [[] ?].
Qed.
Lemma local_exec_acc cmds acc (s : S) rs s' :
  mfold (λ replies cmd, r ← ExecCommand CmdTable cmd; mret (replies ++ [r])) acc cmds s = (Ret rs, s') →
  exec_all localNode cmds (reply_bytes <$> acc) s = (Ret (reply_bytes <$> rs), s').
Proof.
  unfold exec_all. revert s acc. induction cmds as [|cmd cmds IH]; intros s acc; cbn [mfold]; [by intros [= <- <-]|].
  intros E. apply bind_Ret_inv in E as (acc' & s1 & E1 & E). apply bind_Ret_inv in E1 as (r & s2 & Er & E1).
  injection E1 as <- <-. erewrite bind_Ret.
  2:{ erewrite bind_Ret; [reflexivity|]. rewrite local_exec. by erewrite bind_Ret. }
  rewrite <- (IH _ _ E). by rewrite fmap_app.
Qed.
Lemma local_exec_all cmds (s : S) rs s' :
  run_commands cmds s = (Ret rs, s') → exec_all localNode cmds [] s = (Ret (reply_bytes <$> rs), s').
Proof. apply (local_exec_acc cmds []). Qed.
End local.

Section server.
Context `{Host} {tree : Type → Type} `{!RBTree tree, !RBTreeLaws tree}.

Lemma sim_recovered {A} (c : M (World tree) A) c' : sim c c' → sim (recovered c) (recovered c').
Proof.
  intros Hc w m Hr. specialize (Hc w m Hr). unfold recovered.
  destruct (c' m) as [[a| | |] m']; try done; destruct Hc as (w' & -> & ?); by exists w'.
Qed.
Lemma sim_local_exec cmd : sim (tree := tree) (exec_command localNode cmd) (exec_command localNode cmd).
Proof.
  intros w m Hr. rewrite !local_exec. revert w m Hr. apply sim_bind; [apply sim_ExecCommand|]. intros r. apply sim_ret.
Qed.
Lemma sim_leave fin rs r : sim (tree := tree) (leave fin rs r) (leave fin rs r).
Proof. unfold leave. destruct rs, fin; try apply sim_ret. intros w m Hr. by exists w. Qed.
Lemma sim_handle_loop write fin rs out :
  sim (tree := tree) (handle_loop localNode write fin rs out) (handle_loop localNode write fin rs out).
Proof.
  revert out. induction rs as [|[d e] rs IH]; intros out; cbn [handle_loop Err Data]; [apply sim_leave|].
  destruct e as [[]|]; [apply sim_leave..|]. destruct d as [[]|]; try apply IH.
  apply sim_bind; [apply sim_recovered, sim_local_exec|]. intros [resp|]; [|apply sim_leave].
  destruct (write (length out)); [apply IH|apply sim_leave..].
Qed.
Lemma sim_Handle write rend inp : sim (tree := tree) (Handle localNode write rend inp) (Handle localNode write rend inp).
Proof.
  unfold Handle, ParseStream. destruct (parse_is_Some rend readState0 inp) as [[rs fin] ->]. apply sim_handle_loop.
Qed.

(** C1: The server, end to end.  For every number of shards with which the database can
    be made, and a client that sends any sequence of wire
    values, the standalone server running on the program's data structures writes
    exactly the encoded replies that the reference store gives to the commands
    among them, in order, ends the connection without an error at end of file,
    and its database then represents the reference store. *)
Theorem Server_session ShardNum (w : World tree) ds rs m' :
  NewMemDb ShardNum = Ret w →
  Forall wire_ok ds → run_commands (commands_of ds) (NewModel ShardNum) = (Ret rs, m') →
  ∃ w' : World tree,
    Handle localNode (λ _, WriteOk) None (concat (map ToBytes ds)) w =
      (Ret (reply_bytes <$> rs, ends_with None), w') ∧ represents w' m'.
Proof.
  intros Hn Hw E. apply local_exec_all, (Handle_session localNode ds) in E; [|done].
  pose proof (sim_Handle (λ _, WriteOk) None (concat (map ToBytes ds)) _ _ (NewMemDb_represents ShardNum w Hn)) as Hs.
  by rewrite E in Hs.
Qed.

(** C35: A command that panics costs the client its connection: the replies before it are
    written, what follows it is not executed, the panic is logged and not returned, and
    the server keeps the state the command left.  That is so whatever follows the command
    on the connection, with one exception, which is exact: if the parser, which reads on
    while the command runs, panics on what follows before it has anything to deliver (a
    blank line is enough), the whole process dies.  (What follows has arrived by then.) *)
Theorem Server_panic ShardNum (w : World tree) rend ds d cmd rest rs m1 m2 :
  NewMemDb ShardNum = Ret w →
  Forall wire_ok ds → wire_ok d → as_command d = Some cmd →
  run_commands (commands_of ds) (NewModel ShardNum) = (Ret rs, m1) →
  ExecCommand CmdTable cmd m1 = (Panics, m2) →
  match ParseStream rend rest with
  | Some ([], Panics) =>
      (Handle localNode (λ _, WriteOk) rend (concat (map ToBytes ds) ++ ToBytes d ++ rest) w).1 = Fatals
  | _ =>
      ∃ w' : World tree,
        Handle localNode (λ _, WriteOk) rend (concat (map ToBytes ds) ++ ToBytes d ++ rest) w =
          (Ret (reply_bytes <$> rs, mkEnding (Some PanicError) None), w') ∧ represents w' m2
  end.
Proof.
  intros Hn Hw Hd Hcmd E Ep. apply local_exec_all in E.
  assert (exec_command localNode cmd m1 = (Panics, m2)) as Ep'.
  { rewrite local_exec. unfold mbind, M_bind. by rewrite Ep. }
  pose proof (Handle_panics localNode rend ds d cmd rest _ _ _ _ Hw Hd Hcmd E Ep') as Hh.
  pose proof (sim_Handle (λ _, WriteOk) rend (concat (map ToBytes ds) ++ ToBytes d ++ rest) _ _ (NewMemDb_represents ShardNum w Hn)) as Hs.
  rewrite Hh in Hs. by destruct (ParseStream rend rest) as [[[|r rs'] []]|]; destruct Hs as (w' & -> & Hr); eauto.
Qed.
End server.

(** ** Concrete sessions *)
#[local] Existing Instance demo_host.

(** The array of bulk strings a client sends for a command. *)
Definition request (cmd : list slice) : RedisData := MakeArrayData (Some (MakeBulkData <$> cmd)).

Definition demo_requests : list RedisData :=
  [request (command ["SET"; "k"; "41"]); IntData 7; request (command ["INCR"; "k"]); request []]%string.

Lemma Server_session_witness :
  ∃ w w' : World sorted_tree, NewMemDb 2 = Ret w ∧
    Handle localNode (λ _, WriteOk) None (concat (map ToBytes demo_requests)) w =
      (Ret ([lit "+OK" ++ CRLF; lit ":42" ++ CRLF; lit "-unknown error" ++ CRLF], ends_with None), w').
Proof.
  destruct (Server_session (tree := sorted_tree) 2 (new_world 2) demo_requests
    [Some (MakeStringData (lit "OK")); Some (MakeIntData 42); None] (run_commands (commands_of demo_requests) (NewModel 2)).2)
    as (w' & E & _).
  - reflexivity.
  - repeat constructor; vm_compute; discriminate.
  - vm_compute. reflexivity.
  - exists (new_world 2), w'. split; [reflexivity|exact E].
Defined.

(** SINTER of a missing key panics: the client gets no reply to it nor to what follows. *)
Lemma Server_panic_witness :
  ∃ w' : World sorted_tree,
    Handle localNode (λ _, WriteOk) None
      (concat (map ToBytes [request (command ["SET"; "k"; "41"]%string)]) ++ ToBytes (request (command ["SINTER"; "none"]%string)) ++
       ToBytes (request (command ["GET"; "k"]%string))) (new_world 2) =
      (Ret ([lit "+OK" ++ CRLF], mkEnding (Some PanicError) None), w').
Proof.
  assert (∃ r rs fin, ParseStream None (ToBytes (request (command ["GET"; "k"]%string))) = Some (r :: rs, fin)) as (r & rs & fin & Ep)
    by (vm_compute; eauto).
  pose proof (Server_panic (tree := sorted_tree) 2 (new_world 2) None [request (command ["SET"; "k"; "41"]%string)]
    (request (command ["SINTER"; "none"]%string)) (command ["SINTER"; "none"]%string) (ToBytes (request (command ["GET"; "k"]%string)))
    [Some (MakeStringData (lit "OK"))] (run_commands [command ["SET"; "k"; "41"]%string] (NewModel 2)).2
    (ExecCommand CmdTable (command ["SINTER"; "none"]%string) (run_commands [command ["SET"; "k"; "41"]%string] (NewModel 2)).2).2)
    as Hp. rewrite Ep in Hp. destruct Hp as (w' & E & _).
  - reflexivity.
  - repeat constructor; vm_compute; discriminate.
  - repeat constructor; vm_compute; discriminate.
  - reflexivity.
  - vm_compute. reflexivity.
  - vm_compute. reflexivity.
  - exists w'. exact E.
Defined.
