(* ===== verification/Cluster.v ===== *)
(** * Replication

    [src/pkg/cluster/node.go]: the encoding of log entries, the state machine
    that Raft drives ([fsm]), and the commands of a node.  The Raft library
    ([github.com/hashicorp/raft]) is a parameter with its documented behaviour:
    every entry of the replicated log is handed to the state machine of every node,
    in order, and [Apply] of the leader, when it succeeds, ends with its own entry
    and returns what the state machine answered. *)

From Stdlib Require Import Ascii String ZArith Lia.
From stdpp Require Import prelude gmap list fin_maps.
From S2P Require Import Prelude RESP Util CMap Heap TTL Locks ListStruct ListOps SetStruct HashStruct ZSetStruct Store World Model.
From S2P Require Import Refine Safety Server.
Open Scope Z_scope.
#[local] Arguments CmdTable : simpl never.

(** ** Log entries *)
Definition encodeCommand (cmd : list slice) : bytes := ToBytes (MakeArrayData (Some (MakeBulkData <$> cmd))).

(** [err.Error()] for the errors of the parser. *)
Definition error_text `{Host} (e : error) : bytes :=
  match e with
  | io_EOF => lit "EOF"
  | io_ErrUnexpectedEOF => lit "unexpected EOF"
  | errorString msg => msg
  | NumError num e =>
      lit "strconv.ParseInt: parsing " ++ Quote num ++ lit ": " ++
      (match e with ErrSyntax => lit "invalid syntax" | ErrRange => lit "value out of range" end)
  end.

(** [decodeCommand] takes one result from the parser; the command, or the text of
    an error.  A parser that panics before its first or its second result ends the
    process. *)
Definition decodeCommand `{Host} (data : bytes) : outcome (list slice + bytes) :=
  match ParseStream None data with
  | None => Blocks
  | Some ([], Ret _) => Ret (inr (lit "empty raft log entry"))
  | Some ([], _) | Some ([_], Panics) => Fatals
  | Some (res :: _, _) =>
      match Err res, Data res with
      | Some e, _ => Ret (inr (error_text e))
      | None, Some (ArrayData d) => Ret (inl (ToCommand d))
      | None, _ => Ret (inr (lit "raft log entry is not array"))
      end
  end.

(** What a command may carry: lengths the allocator can serve. *)
Definition cmd_ok (cmd : list slice) : Prop := wire_ok (MakeArrayData (Some (MakeBulkData <$> cmd))).

(** ** The state machine *)
Section fsm.
Context `{Host} {S : Type} `{!Store S}.

Definition fsm_Apply (data : bytes) : M S bytes :=
  match decodeCommand data with
  | Ret (inr e) => mret (ToBytes (MakeErrorData (lit "apply error: " ++ e)))
  | Ret (inl cmd) => res ← ExecCommand CmdTable cmd; mret (reply_bytes res)
  | Blocks => λ s, (Blocks, s)
  | Fatals => λ s, (Fatals, s)
  | Panics => mpanic
  end.

(** The entries of a log, one after another, with the answers. *)
Definition apply_all (log : list bytes) : M S (list bytes) :=
  mfold (λ out data, b ← fsm_Apply data; mret (out ++ [b])) [] log.

(** A snapshot holds nothing and restoring it does nothing. *)
Definition fsm_Snapshot : M S bytes := mret [].
Definition fsm_Restore (snapshot : bytes) : M S unit := mret tt.
End fsm.

(** ** Raft *)
Inductive RaftState := Follower | Candidate | Leader | Shutdown.
#[export] Instance RaftState_eq_dec : EqDecision RaftState.
Proof. solve_decision. Defined.

Class Raft (R : Type) := {
  raft_State : R → RaftState;
  raft_LeaderWithID : R → bytes * bytes;
  (* [Apply] and waiting for its future: its error, if any *)
  raft_Apply : bytes → R → option bytes * R;
  (* the entries handed to the state machine of this node so far *)
  raft_applied : R → list bytes;
}.
Class RaftLaws (R : Type) `{!Raft R} : Prop := {
  raft_Apply_applied data r e r' :
    raft_Apply data r = (e, r') →
    ∃ new, raft_applied r' = raft_applied r ++ new ∧ (e = None → ∃ pre, new = pre ++ [data]);
}.

(** ** The node *)
Section Node.
Context `{Host} {R : Type} `{!Raft R} {S : Type} `{!Store S}.

Record Node := mkNode { n_raft : R; n_db : S }.

Definition not_leader (r : R) : bytes :=
  let '(leaderAddr, leaderID) := raft_LeaderWithID r in
  lit "not leader (leader=" ++ leaderAddr ++ lit " id=" ++ leaderID ++ lit ")".

(** [ApplyCommand].  While [Apply] waits, the state machine goroutine handles the
    entries that Raft delivers; a panic there is recovered nowhere. *)
Definition Node_ApplyCommand (cmd : list slice) : M Node (bytes + bytes) := λ n,
  if negb (bool_decide (raft_State (n_raft n) = Leader)) then (Ret (inr (not_leader (n_raft n))), n)
  else
    let data := encodeCommand cmd in
    let '(err, r) := raft_Apply data (n_raft n) in
    let new := drop (length (raft_applied (n_raft n))) (raft_applied r) in
    match apply_all new (n_db n) with
    | (Ret responses, db) =>
        (Ret (match err with
              | Some err => inr err
              | None => match last responses with
                        | Some resp => inl resp
                        | None => inr (lit "invalid response from raft apply")
                        end
              end), mkNode r db)
    | (Panics, db) => (Fatals, mkNode r db)
    | (Fatals, db) => (Fatals, mkNode r db)
    | (Blocks, db) => (Blocks, mkNode r db)
    end.

(** [strings.EqualFold(s, "info")]: no letter outside ASCII folds to one of these. *)
Definition is_info (cmd : list slice) : bool :=
  match cmd with [] => false | c :: _ => beq (map lower (str c)) (lit "info") end.

Definition Node_ReadCommand (cmd : list slice) : M Node (bytes + bytes) := λ n,
  let allowLocal := is_info cmd in
  if negb allowLocal && negb (bool_decide (raft_State (n_raft n) = Leader))
  then (Ret (inr (not_leader (n_raft n))), n)
  else
    let '(o, db) := ExecCommand CmdTable cmd (n_db n) in
    (match o with
     | Ret res => Ret (inl (reply_bytes res))
     | Panics => Panics
     | Fatals => Fatals
     | Blocks => Blocks
     end, mkNode (n_raft n) db).
End Node.
Arguments Node R S : clear implicits.

Definition clusterNode `{Host} {R : Type} `{!Raft R} {S : Type} `{!Store S} : ExecNode (Node R S) :=
  {| ApplyCommand := Node_ApplyCommand; ReadCommand := Node_ReadCommand |}.

(** ** Lemmas *)
Section lemmas.
Context `{Host}.

Lemma ToCommand_bulk cmd : ToCommand (Some (MakeBulkData <$> cmd)) = cmd.
Proof. unfold ToCommand. cbn. induction cmd as [|c cmd IH]; cbn; [done|]. by rewrite IH. Qed.

Lemma encode_parses cmd :
  cmd_ok cmd →
  ParseStream None (encodeCommand cmd) = Some ([emit (MakeArrayData (Some (MakeBulkData <$> cmd))); emit_err io_EOF], Ret tt).
Proof.
  intros Hc. unfold ParseStream, encodeCommand. rewrite <- (app_nil_r (ToBytes _)), parse_value by done. done.
Qed.
Lemma decode_encode cmd : cmd_ok cmd → decodeCommand (encodeCommand cmd) = Ret (inl cmd).
Proof. intros Hc. unfold decodeCommand. rewrite encode_parses by done. cbn [emit Err Data MakeArrayData]. by rewrite ToCommand_bulk. Qed.

(** C34: A log entry carries its command: decoding what [encodeCommand] produced gives
    the command back, nil arguments included.  (The parser started for it has a
    second result, end of file, that nobody receives: its goroutine stays blocked.) *)
Theorem decodeCommand_encodeCommand cmd :
  cmd_ok cmd →
  decodeCommand (encodeCommand cmd) = Ret (inl cmd) ∧
  ∃ res, ParseStream None (encodeCommand cmd) = Some ([res; emit_err io_EOF], Ret tt).
Proof. intros Hc. split; [by apply decode_encode|]. eexists. by apply encode_parses. Qed.
End lemmas.

(** ** Replicas *)
Section replicas.
Context `{Host} {S : Type} `{!Store S}.

Lemma apply_acc log acc (s : S) :
  mfold (λ out data, b ← fsm_Apply data; mret (out ++ [b])) acc log s =
    (out ← apply_all log; mret (acc ++ out)) s.
Proof.
  unfold apply_all. revert acc s. induction log as [|data log IH]; intros acc s; cbn [mfold].
  { unfold mbind, M_bind, mret, M_ret. by rewrite app_nil_r. }
  rewrite !bind_assoc. destruct (fsm_Apply data s) as [[b| | |] s1] eqn:E; [|unfold mbind, M_bind; by rewrite E..].
  rewrite !(bind_Ret _ _ _ _ _ E). do 2 (erewrite bind_Ret by reflexivity). cbn [app].
  rewrite (IH (acc ++ [b])). set (f := λ out data, _ ≫= _) in *.
  assert (mfold f [b] log s1 = (mfold f [] log ≫= λ out, mret ([b] ++ out)) s1) as Eb by apply (IH [b]).
  unfold mbind, M_bind, mret, M_ret in Eb |- *. rewrite Eb.
  destruct (mfold f [] log s1) as [[out| | |] s2]; try done. by rewrite <- app_assoc.
Qed.
Lemma apply_all_app l1 l2 (s : S) :
  apply_all (l1 ++ l2) s = (o1 ← apply_all l1; o2 ← apply_all l2; mret (o1 ++ o2)) s.
Proof.
  unfold apply_all at 1. rewrite mfold_app. fold (apply_all l1).
  destruct (apply_all l1 s) as [[o1| | |] s1] eqn:E; [|unfold mbind, M_bind; by rewrite E..].
  rewrite !(bind_Ret _ _ _ _ _ E). apply apply_acc.
Qed.
Lemma apply_length log acc (s : S) out s' :
  mfold (λ out data, b ← fsm_Apply data; mret (out ++ [b])) acc log s = (Ret out, s') →
  length out = (length acc + length log)%nat.
Proof.
  revert acc s. induction log as [|data log IH]; intros acc s; cbn [mfold length]; [intros [= <- <-]; lia|].
  intros (acc' & s1 & E1 & E)%bind_Ret_inv. apply bind_Ret_inv in E1 as (b & s2 & _ & E1). injection E1 as <- <-.
  apply IH in E. rewrite length_app in E. cbn in E. lia.
Qed.
Lemma apply_all_one cmd (s : S) :
  cmd_ok cmd → apply_all [encodeCommand cmd] s = (res ← ExecCommand CmdTable cmd; mret [reply_bytes res]) s.
Proof.
  intros Hc. unfold apply_all. cbn [mfold]. unfold fsm_Apply. rewrite decode_encode by done.
  unfold mbind, M_bind. by destruct (ExecCommand CmdTable cmd s) as [[] ?].
Qed.
(** A replica that is handed the encodings of commands executes these commands. *)
Lemma apply_commands_acc cmds acc (s : S) :
  Forall cmd_ok cmds →
  mfold (λ out data, b ← fsm_Apply data; mret (out ++ [b])) (reply_bytes <$> acc) (encodeCommand <$> cmds) s =
    (rs ← mfold (λ replies cmd, r ← ExecCommand CmdTable cmd; mret (replies ++ [r])) acc cmds; mret (reply_bytes <$> rs)) s.
Proof.
  intros Hc. revert acc s. induction Hc as [|cmd cmds Hc Hcs IH]; intros acc s; [done|].
  rewrite fmap_cons. cbn [mfold].
  assert (fsm_Apply (encodeCommand cmd) s = (res ← ExecCommand CmdTable cmd; mret (reply_bytes res)) s) as Ef
    by (unfold fsm_Apply; by rewrite decode_encode).
  destruct (ExecCommand CmdTable cmd s) as [[res| | |] s1] eqn:E.
  - rewrite (bind_Ret _ _ s (reply_bytes <$> (acc ++ [res])) s1), IH.
    + rewrite bind_assoc, (bind_Ret _ _ s (acc ++ [res]) s1); [done|]. by rewrite (bind_Ret _ _ _ _ _ E).
    + erewrite bind_Ret; [|rewrite Ef; by erewrite bind_Ret]. by rewrite fmap_app.
  - unfold mbind, M_bind in *. by rewrite Ef, E.
  - unfold mbind, M_bind in *. by rewrite Ef, E.
  - unfold mbind, M_bind in *. by rewrite Ef, E.
Qed.
Lemma apply_commands cmds (s : S) :
  Forall cmd_ok cmds →
  apply_all (encodeCommand <$> cmds) s = (rs ← run_commands cmds; mret (reply_bytes <$> rs)) s.
Proof. apply (apply_commands_acc cmds []). Qed.
End replicas.

Section node.
Context `{Host} {R : Type} `{!Raft R, !RaftLaws R} {S : Type} `{!Store S}.
Implicit Types (n : Node R S).

(** On the leader, a replicated command answers what the command itself answers
    after the entries that were committed before it; on any other node nothing is
    executed and the error names the leader. *)
Theorem Node_ApplyCommand_spec n cmd r' pre out db res db' :
  cmd_ok cmd → raft_Apply (encodeCommand cmd) (n_raft n) = (None, r') →
  raft_applied r' = raft_applied (n_raft n) ++ pre ++ [encodeCommand cmd] →
  apply_all pre (n_db n) = (Ret out, db) → ExecCommand CmdTable cmd db = (Ret res, db') →
  Node_ApplyCommand cmd n =
    if bool_decide (raft_State (n_raft n) = Leader) then (Ret (inl (reply_bytes res)), mkNode r' db')
    else (Ret (inr (not_leader (n_raft n))), n).
Proof.
  intros Hc Er Enew Epre Ec. unfold Node_ApplyCommand. destruct (bool_decide _); [|done]. cbn [negb].
  rewrite Er, Enew, drop_app_length, apply_all_app, (bind_Ret _ _ _ _ _ Epre).
  erewrite bind_Ret; [|rewrite apply_all_one by done; by erewrite bind_Ret].
  unfold mret, M_ret. by rewrite last_snoc.
Qed.
End node.

(** *** What a node does with the write commands of a connection *)
Section serves.
Context `{Host} {R : Type} `{!Raft R, !RaftLaws R} {S : Type} `{!Store S}.
Implicit Types (n : Node R S).

(** The specification: [serves n cmds outs n' done] says that the node [n], given the write
    commands [cmds], answers [outs] and becomes [n'], and that [done] are the commands that
    were executed on its database in the meantime, those of other clients included.
    A command is executed, as it was sent, exactly when it was committed, after whatever was
    committed before it, and the client gets its reply; a node that is not the leader
    executes nothing and says who is; when Raft reports an error, the client gets it. *)
Inductive serves : Node R S → list (list slice) → list bytes → Node R S → list (list slice) → Prop :=
  | serves_nil n : serves n [] [] n []
  | serves_reply n cmd cmds r pre rs db res db' outs n' executed :
      raft_State (n_raft n) = Leader → raft_Apply (encodeCommand cmd) (n_raft n) = (None, r) →
      run_commands pre (n_db n) = (Ret rs, db) → ExecCommand CmdTable cmd db = (Ret res, db') →
      serves (mkNode r db') cmds outs n' executed →
      serves n (cmd :: cmds) (reply_bytes res :: outs) n' (pre ++ cmd :: executed)
  | serves_not_leader n cmd cmds outs n' executed :
      raft_State (n_raft n) ≠ Leader → serves n cmds outs n' executed →
      serves n (cmd :: cmds) (ToBytes (MakeErrorData (not_leader (n_raft n))) :: outs) n' executed
  | serves_raft_error n cmd cmds r e pre rs db outs n' executed :
      raft_State (n_raft n) = Leader → raft_Apply (encodeCommand cmd) (n_raft n) = (Some e, r) →
      run_commands pre (n_db n) = (Ret rs, db) → serves (mkNode r db) cmds outs n' executed →
      serves n (cmd :: cmds) (ToBytes (MakeErrorData e) :: outs) n' (pre ++ executed).

(** The entries that other nodes submit; each of them runs the same [ApplyCommand].  Raft
    hands no entry to a state machine that nobody submitted. *)
Variable submitted : bytes → Prop.
Hypothesis submitted_encoded : ∀ data, submitted data → ∃ cmd, cmd_ok cmd ∧ data = encodeCommand cmd.
Hypothesis raft_delivers : ∀ data r e r' new entry,
  raft_Apply data r = (e, r') → raft_applied r' = raft_applied r ++ new → entry ∈ new → entry = data ∨ submitted entry.

Lemma new_commands cmd r e r' new :
  cmd_ok cmd → raft_Apply (encodeCommand cmd) r = (e, r') → raft_applied r' = raft_applied r ++ new →
  ∃ cmds, Forall cmd_ok cmds ∧ new = encodeCommand <$> cmds.
Proof.
  intros Hc Er En. assert (Forall (λ data, ∃ cmd, cmd_ok cmd ∧ data = encodeCommand cmd) new) as Hn.
  { apply Forall_forall. intros x Hx. destruct (raft_delivers _ _ _ _ _ _ Er En Hx) as [->|Hs]; eauto. }
  clear Er En. induction Hn as [|x new (c & Hx & ->) Hn (cs & Hcs & ->)]; [by exists []|].
  exists (c :: cs). by split; [constructor|].
Qed.

(** One write command. *)
Lemma serves_one n cmd cmds r n1 outs n' executed :
  cmd_ok cmd → Node_ApplyCommand cmd n = (Ret r, n1) → serves n1 cmds outs n' executed → Forall cmd_ok executed →
  ∃ pre, Forall cmd_ok pre ∧ raft_applied (n_raft n1) = raft_applied (n_raft n) ++ (encodeCommand <$> pre) ∧
    serves n (cmd :: cmds) (match r with inl resp => resp | inr e => ToBytes (MakeErrorData e) end :: outs) n' (pre ++ executed).
Proof.
  intros Hc E Hs Hex. unfold Node_ApplyCommand in E. case_bool_decide as Hl; cbn [negb] in E.
  2:{ injection E as <- <-. exists []. rewrite fmap_nil, app_nil_r. split_and!; [done..|]. by apply serves_not_leader. }
  destruct (raft_Apply _ _) as [e r'] eqn:Er. destruct (raft_Apply_applied _ _ _ _ Er) as (new & Enew & Hlast).
  destruct (new_commands _ _ _ _ _ Hc Er Enew) as (pre & Hpre & ->).
  rewrite Enew, drop_app_length, apply_commands in E by done.
  destruct e as [e|].
  - unfold mbind, M_bind in E. destruct (run_commands pre (n_db n)) as [[rs| | |] db] eqn:Ep; try done.
    injection E as <- <-. exists pre. split_and!; [done..|]. by eapply serves_raft_error.
  - destruct (Hlast eq_refl) as (pre0 & E0). 
    destruct (fmap_app_inv _ _ _ _ E0) as (pre1 & [|cmd' [|]] & _ & E1 & ->); try done.
    assert (encodeCommand cmd = encodeCommand cmd') as Eenc by exact (f_equal (List.hd []) E1).
    apply Forall_app in Hpre as [Hpre [Hc' _]%Forall_cons].
    assert (cmd' = cmd) as ->.
    { pose proof (decode_encode cmd' Hc') as Ed. rewrite <- Eenc, decode_encode in Ed by done. by injection Ed. }
    assert (run_commands (pre1 ++ [cmd]) (n_db n) = (rs ← run_commands pre1; r ← ExecCommand CmdTable cmd; mret (rs ++ [r])) (n_db n)) as Erun.
    { unfold run_commands. rewrite mfold_app. unfold mbind, M_bind. destruct (mfold _ _ _ _) as [[]]; try done.
      cbn. unfold mbind, M_bind. by destruct (ExecCommand _ _ _) as [[]]. }
    unfold mbind, M_bind in E, Erun. rewrite Erun in E.
    destruct (run_commands pre1 (n_db n)) as [[rs| | |] db] eqn:Ep; try done.
    destruct (ExecCommand CmdTable cmd db) as [[res| | |] db'] eqn:Ec; try done.
    unfold mret, M_ret in E. rewrite fmap_app in E. cbn in E. rewrite last_snoc in E. injection E as <- <-.
    exists (pre1 ++ [cmd]). split_and!; [by apply Forall_app_2; [|constructor]|done|].
    rewrite <- app_assoc. by eapply serves_reply.
Qed.

Lemma serves_all cmds acc n out n' :
  Forall (λ cmd, cmd_ok cmd ∧ IsWriteCommand cmd = true) cmds →
  exec_all clusterNode cmds acc n = (Ret out, n') →
  ∃ executed outs, out = acc ++ outs ∧ Forall cmd_ok executed ∧ serves n cmds outs n' executed ∧
    raft_applied (n_raft n') = raft_applied (n_raft n) ++ (encodeCommand <$> executed).
Proof.
  intros Hw. unfold exec_all. revert acc n.
  induction Hw as [|cmd cmds [Hc Hw] Hws IH]; intros acc n; cbn [mfold].
  { intros [= <- <-]. exists [], []. rewrite fmap_nil, !app_nil_r. split_and!; [done..|constructor|done]. }
  intros (acc' & n1 & E1 & E)%bind_Ret_inv. apply bind_Ret_inv in E1 as (b & n2 & Eb & E1).
  injection E1 as <- <-. unfold exec_command in Eb. rewrite Hw in Eb. apply bind_Ret_inv in Eb as (r & n3 & Er & Eb).
  injection Eb as <- <-. destruct (IH _ _ E) as (executed & outs & -> & Hex & Hs & Hl).
  destruct (serves_one n cmd cmds r n3 outs n' executed Hc Er Hs Hex) as (pre & Hpre & Hlog & Hs').
  exists (pre ++ executed). eexists. rewrite <- app_assoc. split; [done|]. split; [by apply Forall_app_2|].
  split; [done|]. rewrite Hl, Hlog, fmap_app. by rewrite app_assoc.
Qed.

(** C10: State machine replication.  Take any write commands that a connection of a node
    executes, on any Raft that delivers its log in order and delivers nothing that was not
    submitted.  The node meets the specification [serves]: each committed command is
    executed on the database exactly once, as the client sent it, in the order of the log,
    and its reply is what the client gets; the others are refused with the error.  The log
    grew by exactly the executed commands, encoded; and any other replica, in whatever state
    and on whatever machine, that is handed these entries executes the same commands in the
    same order and nothing else. *)
Theorem Cluster_replicates n cmds out n' :
  Forall (λ cmd, cmd_ok cmd ∧ IsWriteCommand cmd = true) cmds →
  exec_all clusterNode cmds [] n = (Ret out, n') →
  ∃ executed, serves n cmds out n' executed ∧
    raft_applied (n_raft n') = raft_applied (n_raft n) ++ (encodeCommand <$> executed) ∧
    ∀ (host' : Host) (T : Type) (store' : Store T) (replica : T),
      apply_all (H := host') (encodeCommand <$> executed) replica =
        (rs ← run_commands (H := host') executed; mret (reply_bytes <$> rs)) replica.
Proof.
  intros Hw E. destruct (serves_all cmds [] n out n' Hw E) as (executed & outs & -> & Hex & Hs & Hl).
  exists executed. split_and!; [done..|]. intros. by apply apply_commands.
Qed.
End serves.

(** ** The state machine cannot be crashed by replicated commands *)
Section fsm_safety.
Context `{Host}.
Implicit Types (m : Model).

Lemma lower_upper c : lower (upper c) = lower c.
Proof. by destruct c as [[] [] [] [] [] [] [] []]. Qed.

(** The commands the handler replicates are not among those that can panic. *)
Lemma write_commands_safe :
  Forall (λ w, (map lower w ∉ may_panic_names) ∧ (map lower w ∉ excluded) ∧ map lower w ≠ lit "hrandfield") write_commands.
Proof. apply (bool_decide_unpack _). vm_compute. exact I. Qed.
Lemma write_name c args :
  is_ascii (str c) = true → IsWriteCommand (c :: args) = true →
  (cmd_name (c :: args) ∉ may_panic_names) ∧ (cmd_name (c :: args) ∉ excluded) ∧ cmd_name (c :: args) ≠ lit "hrandfield".
Proof.
  intros Ha. unfold IsWriteCommand, ToUpper, cmd_name, ToLower. rewrite Ha. intros Hin%bool_decide_eq_true.
  pose proof write_commands_safe as Hs. rewrite Forall_forall in Hs. specialize (Hs _ Hin).
  assert (map lower (map upper (str c)) = map lower (str c)) as <-; [|done].
  rewrite map_map. apply map_ext. apply lower_upper.
Qed.

(** A command as the handler replicates it: its name is ASCII. *)
Definition replicable (cmd : list slice) : Prop :=
  cmd_ok cmd ∧ is_ascii (str (List.hd None cmd)) = true ∧ IsWriteCommand cmd = true.

Lemma safe_fsm_Apply L cmd :
  locks_free L → replicable cmd → safe [] L strict L (fsm_Apply (encodeCommand cmd)) L.
Proof.
  intros HL (Hok & Ha & Hw). destruct cmd as [|c args]; [done|]. destruct (write_name c args Ha Hw) as (Hp & Hs & Hh).
  unfold fsm_Apply. rewrite decode_encode by done. eapply spec_bind; [|intros r _; apply spec_ret].
  pose proof (safe_ExecCommand L HL (c :: args) Hs) as Hx. unfold mode_of, beq in Hx.
  by rewrite !bool_decide_eq_false_2 in Hx.
Qed.

(** C11: Replaying a log of replicated commands never panics, never fails fatally and
    never waits for a lock it holds, on any well-formed database; so a command that
    was accepted into the log cannot kill the nodes that apply it, now or when they
    replay the log after a restart.  (Commands that can panic are not replicated.) *)
Theorem fsm_never_panics cmds m :
  heap_ok m → locks_free (m_locks m) → Forall replicable cmds →
  match apply_all (encodeCommand <$> cmds) m with
  | (Ret out, m') => length out = length cmds ∧ heap_ok m' ∧ m_locks m' = m_locks m
  | (Blocks, m') => overlong m'
  | _ => False
  end.
Proof.
  intros Hh Hl Hc. remember (m_locks m) as L eqn:HL.
  assert (safe [] L strict L (mfold (λ out data, b ← fsm_Apply data; mret (out ++ [b])) [] (encodeCommand <$> cmds)) L) as Hs.
  { apply safe_mfold_in. intros out data (cmd & -> & Hin)%list_elem_of_fmap. rewrite Forall_forall in Hc.
    eapply spec_bind; [apply safe_fsm_Apply; auto|]. intros b _. apply spec_ret. }
  specialize (Hs m Hh (Forall_nil_2 _) (eq_sym HL)). unfold apply_all in *.
  destruct (mfold _ _ _ m) as [[out| | |] m'] eqn:E; try done.
  - destruct Hs as (_ & ? & _ & ?). split; [|done]. apply apply_length in E. by rewrite length_fmap in E.
  - by destruct Hs as (? & _).
  - by destruct Hs.
Qed.
End fsm_safety.

(** ** A concrete cluster *)
#[local] Existing Instance demo_host.

(** A single node that is always the leader: [Apply] commits at once. *)
Definition DemoRaft : Type := list bytes.
#[export] Instance demo_raft : Raft DemoRaft := {
  raft_State _ := Leader;
  raft_LeaderWithID _ := (lit "127.0.0.1:7000", lit "node-1");
  raft_Apply data r := (None, r ++ [data]);
  raft_applied r := r;
}.
#[export] Instance demo_raft_laws : RaftLaws DemoRaft.
Proof.
  split. intros data r e r' [= <- <-]. exists [data]. split; [done|]. intros _. by exists [].
Qed.

Definition fresh_node : Node DemoRaft Model := mkNode [] (NewModel 2).

Lemma decodeCommand_encodeCommand_witness :
  decodeCommand (encodeCommand (command ["GET"; "k"]%string ++ [None])) = Ret (inl (command ["GET"; "k"]%string ++ [None])).
Proof.
  destruct (decodeCommand_encodeCommand (command ["GET"; "k"]%string ++ [None])) as [E _]; [|exact E].
  repeat constructor; vm_compute; discriminate.
Defined.

Definition demo_writes : list (list slice) := [command ["SET"; "k"; "1"]; command ["RPUSH"; "l"; "a"; "b"]]%string.
Lemma demo_delivers (data : bytes) (r : DemoRaft) e r' new entry :
  raft_Apply data r = (e, r') → raft_applied r' = raft_applied r ++ new → entry ∈ new → entry = data ∨ False.
Proof.
  cbn. intros [= <- <-] En Hin. apply app_inv_head in En as <-. apply list_elem_of_singleton in Hin as ->. by left.
Qed.
Lemma Cluster_replicates_witness :
  ∃ n' executed, exec_all clusterNode demo_writes [] fresh_node = (Ret [lit "+OK" ++ CRLF; lit ":2" ++ CRLF], n') ∧
    raft_applied (n_raft n') = encodeCommand <$> executed.
Proof.
  set (n' := (exec_all clusterNode demo_writes [] fresh_node).2).
  assert (exec_all clusterNode demo_writes [] fresh_node = (Ret [lit "+OK" ++ CRLF; lit ":2" ++ CRLF], n')) as E.
  { vm_compute. reflexivity. }
  exists n'. destruct (Cluster_replicates (λ _, False) (λ _, False_ind _) demo_delivers fresh_node demo_writes [lit "+OK" ++ CRLF; lit ":2" ++ CRLF] n') as (executed & _ & Hl & _).
  - repeat constructor; vm_compute; try discriminate; reflexivity.
  - exact E.
  - exists executed. split; [exact E|exact Hl].
Defined.

Lemma Node_ApplyCommand_spec_witness :
  ∃ n', Node_ApplyCommand (command ["SET"; "k"; "1"]%string) fresh_node = (Ret (inl (lit "+OK" ++ CRLF)), n').
Proof.
  eexists. etransitivity.
  - apply (Node_ApplyCommand_spec fresh_node (command ["SET"; "k"; "1"]%string) [encodeCommand (command ["SET"; "k"; "1"]%string)]
      [] [] (NewModel 2) (Some (MakeStringData (lit "OK")))
      (ExecCommand CmdTable (command ["SET"; "k"; "1"]%string) (NewModel 2)).2).
    + repeat constructor; vm_compute; discriminate.
    + reflexivity.
    + reflexivity.
    + reflexivity.
    + vm_compute. reflexivity.
  - reflexivity.
Defined.

Lemma fsm_never_panics_witness :
  match apply_all (encodeCommand <$> demo_writes) (NewModel 2) with
  | (Ret out, m') => length out = 2%nat ∧ heap_ok m' ∧ m_locks m' = m_locks (NewModel 2)
  | (Blocks, m') => overlong m'
  | _ => False
  end.
Proof.
  apply (fsm_never_panics demo_writes (NewModel 2)).
  - by apply map_Forall_empty.
  - by apply lock_table_free.
  - repeat constructor; try (vm_compute; discriminate); vm_compute; reflexivity.
Defined.

(** ** Where replicas part *)
(** The reply of a database to a command, in wire format. *)
Definition answer `{Host} (s : Model) (cmd : list slice) : bytes :=
  match ExecCommand CmdTable cmd s with (Ret r, _) => reply_bytes r | _ => [] end.

(** After [setup] and [cmd] on the leader, the leader and a replica that applied the
    whole log of the leader answer [probe] differently. *)
Definition parts (setup : list (list slice)) (cmd probe : list slice) : bool :=
  let leader := (exec_all clusterNode (setup ++ [cmd]) [] fresh_node).2 in
  let replica := (apply_all (raft_applied (n_raft leader)) (NewModel 2)).2 in
  negb (beq (answer (n_db leader) probe) (answer replica probe)).

Definition unreplicated : list (list (list slice) * list slice * list slice) :=
  [([command ["SET"; "k"; "1"]], command ["INCRBY"; "k"; "5"], command ["GET"; "k"]);
   ([command ["SET"; "k"; "1"]], command ["DECRBY"; "k"; "5"], command ["GET"; "k"]);
   ([command ["SET"; "k"; "1"]], command ["INCRBYFLOAT"; "k"; "5"], command ["GET"; "k"]);
   ([command ["SET"; "k"; "1"]], command ["SETRANGE"; "k"; "0"; "x"], command ["GET"; "k"]);
   ([command ["RPUSH"; "l"; "a"]], command ["LPUSHX"; "l"; "b"], command ["LLEN"; "l"]);
   ([command ["RPUSH"; "l"; "a"]], command ["RPUSHX"; "l"; "b"], command ["LLEN"; "l"]);
   ([command ["RPUSH"; "l"; "a"]], command ["LMOVE"; "l"; "d"; "LEFT"; "RIGHT"], command ["LLEN"; "d"]);
   ([command ["SADD"; "s"; "a"]], command ["SUNIONSTORE"; "d"; "s"], command ["SCARD"; "d"]);
   ([command ["SADD"; "s"; "a"]], command ["SINTERSTORE"; "d"; "s"], command ["SCARD"; "d"]);
   ([command ["SADD"; "s"; "a"]], command ["SDIFFSTORE"; "d"; "s"], command ["SCARD"; "d"]);
   ([command ["ZADD"; "z"; "1"; "a"]], command ["ZREMRANGEBYRANK"; "z"; "0"; "0"], command ["ZCARD"; "z"]);
   ([command ["ZADD"; "z"; "1"; "a"]], command ["ZREMRANGEBYSCORE"; "z"; "0"; "5"], command ["ZCARD"; "z"])]%string.

(** Twelve commands that change the database are classified as reads: INCRBY,
    DECRBY, INCRBYFLOAT, SETRANGE, LPUSHX, RPUSHX, LMOVE, SUNIONSTORE, SINTERSTORE,
    SDIFFSTORE, ZREMRANGEBYRANK and ZREMRANGEBYSCORE.  The leader executes them on
    its own database only, and answers differently from a replica of its log. *)
Theorem Unlisted_writes_diverge :
  Forall (λ '(setup, cmd, probe), IsWriteCommand cmd = false ∧ parts setup cmd probe = true) unreplicated.
Proof. repeat constructor; vm_compute; reflexivity. Qed.

(** A host whose clock and map order differ, as on another machine. *)
Definition other_host : Host := {|
  murmur3_Sum64WithSeed := @murmur3_Sum64WithSeed demo_host;
  unicode_ToLower := @unicode_ToLower demo_host;
  unicode_ToUpper := @unicode_ToUpper demo_host;
  unicode_Title := @unicode_Title demo_host;
  unix_now n := 1060 + Z.of_nat n;
  range_order _ ks := reverse ks;
  rand_Intn n k := Z.of_nat (S n) mod k;
  rand_Float64 := @rand_Float64 demo_host;
  ParseFloat := @ParseFloat demo_host;
  FormatFloat := @FormatFloat demo_host;
  Sprintf_v := @Sprintf_v demo_host;
  Quote := @Quote demo_host;
  filepath_Match := @filepath_Match demo_host;
  process := @process demo_host;
|}.

(** Replicas of one log can differ: SPOP takes the first member in the map order
    of each machine, and SETEX reads the clock of each machine. *)
Theorem Replicas_diverge :
  HostLaws demo_host ∧ HostLaws other_host ∧
  let log := encodeCommand <$> [command ["SADD"; "s"; "a"; "b"]; command ["SPOP"; "s"]; command ["SETEX"; "k"; "30"; "v"]]%string in
  let one := (apply_all (H := demo_host) log (NewModel 2)).2 in
  let two := (apply_all (H := other_host) log (NewModel 2)).2 in
  answer one (command ["SISMEMBER"; "s"; "a"]%string) ≠ answer two (command ["SISMEMBER"; "s"; "a"]%string) ∧
  m_exp one !! lit "k" ≠ m_exp two !! lit "k".
Proof.
  split; [apply _|]. split.
  { split; [|intros n k Hk; cbn; by apply Z.mod_pos_bound]. intros n ks. cbn. apply reverse_Permutation. }
  vm_compute. split; discriminate.
Qed.

(** A restart from a snapshot taken after [i] entries of the log [log]: a fresh
    database, the snapshot restored, the rest of the log applied. *)
Definition restart (i : nat) (log : list bytes) : Model :=
  ((snap ← fsm_Snapshot; fsm_Restore snap;; apply_all (drop i log)) (NewModel 2)).2.

(** Snapshots lose data.  [Persist] writes nothing and [Restore] reads nothing, so
    after a restart from a snapshot the entries it covers are gone, for every log;
    an acknowledged SET is lost. *)
Theorem Snapshot_loses_writes :
  (∀ i log, restart i log = (apply_all (drop i log) (NewModel 2)).2) ∧
  let log := encodeCommand <$> [command ["SET"; "k"; "v"]]%string in
  answer (apply_all log (NewModel 2)).2 (command ["GET"; "k"]%string) = ToBytes (MakeBulkData (Some (lit "v"))) ∧
  answer (restart 1 log) (command ["GET"; "k"]%string) = ToBytes MakeNullBulkData.
Proof. split; [done|]. vm_compute. split; reflexivity. Qed.
