(* ===== verification/Join.v ===== *)
(** * Joining a cluster

    [src/pkg/cluster/node.go]: how a node finds the leader and asks it for
    membership ([collectJoinTargets], [join], [joinOnce], [buildJoinURL],
    [parseLeaderHint], [normalizeJoinAddr], [maybeJoinCluster]), how a node answers
    such a request ([handleJoin]), the cached leader address, and the log writer
    that fills in the leader.

    The network and the packages [net/http] and [net/url] are parameters: what an
    attempt to reach an address returns depends on the attempt.  The HTTP client follows
    redirections by itself; what it then asks is part of that parameter.  The leader file
    is part of the state. *)

From Stdlib Require Import Ascii String ZArith Lia.
From stdpp Require Import prelude gmap list fin_maps.
From S2P Require Import Prelude Text.
Open Scope Z_scope.

Definition httpJoinPath : bytes := lit "/join".

(** ** Addresses *)
Definition normalizeJoinAddr (addr : bytes) : bytes :=
  let addr := TrimSpace addr in
  if beq addr [] then []
  else
    let addr := TrimSuffix addr (lit "/") in
    if HasPrefix addr (lit "http://") then TrimPrefix addr (lit "http://")
    else if HasPrefix addr (lit "https://") then TrimPrefix addr (lit "https://")
    else addr.

(** [net/url]: parsing (an error is its text), the path of a URL and its text;
    [http.NewRequest]: the error for a URL it does not take. *)
Class NetURL (URL : Type) := {
  url_Parse : bytes → URL + bytes;
  url_Path : URL → bytes;
  set_Path : bytes → URL → URL;
  url_String : URL → bytes;
  http_NewRequest : bytes → option bytes;
}.

Definition buildJoinURL `{NetURL URL} (addr : bytes) : bytes + bytes :=
  let addr := TrimSpace addr in
  if beq addr [] then inr (lit "empty join address")
  else if HasPrefix addr (lit "http://") || HasPrefix addr (lit "https://") then
    match url_Parse addr with
    | inr err => inr err
    | inl u =>
        let path := url_Path u in
        let u := if beq path [] || beq path (lit "/") then set_Path httpJoinPath u
                 else set_Path (TrimSuffix path (lit "/") ++ httpJoinPath) u in
        inl (url_String u)
    end
  else inl (lit "http://" ++ addr ++ httpJoinPath).

(** ** Responses *)
(** The response of the HTTP client; [Header.Get] of an absent field is empty. *)
Record Response := mkResponse { StatusCode : Z; Header : bytes → bytes; Body : bytes }.

(** [suffix[:i]] at the first byte that ends an address. *)
Definition cut_address (suffix : bytes) : bytes :=
  match list_find (λ c, c ∈ lit "),; " ++ [LF; CR]) suffix with
  | Some (i, _) => take i suffix
  | None => suffix
  end.

(** The body of an error names the leader.  The position is found in the lower-case
    text and used in the original one, which can be shorter: slicing then panics. *)
Definition hint_in_body `{Host} (body : bytes) : outcome bytes :=
  if beq body [] then Ret []
  else
    match Index (ToLower body) (lit "leader") with
    | None => Ret []
    | Some idx =>
        if (length body <? idx)%nat then Panics
        else
          let suffix := drop idx body in
          let suffix :=
            match IndexAny suffix (lit "=:") with
            | Some sep => if (S sep <? length suffix)%nat then drop (S sep) suffix else suffix
            | None => suffix
            end in
          let suffix := TrimLeft suffix [" "%char; "009"%char] in
          Ret (Trim (cut_address suffix) ["034"%char])
    end.

Definition parseLeaderHint `{Host} (resp : option Response) (body : bytes) : outcome bytes :=
  match resp with
  | Some resp =>
      let hint := TrimSpace (Header resp (lit "X-Raft-Leader")) in
      if negb (beq hint []) then Ret hint
      else
        let loc := TrimSpace (Header resp (lit "Location")) in
        if negb (beq loc []) then Ret (TrimSuffix loc httpJoinPath)
        else hint_in_body body
  | None => hint_in_body body
  end.

(** ** Answering a join request *)
(** [AddVoter] of Raft: [None], or the text of the error and whether it is
    [ErrNotLeader]. *)
Record Request := mkRequest { is_post : bool; form_ok : bool; form_id : bytes; form_addr : bytes }.

(** [http.Error] ends the message with a line feed. *)
Definition http_Error (msg : bytes) (code : Z) (header : bytes → bytes) : Response :=
  mkResponse code header (msg ++ [LF]).
Definition no_header : bytes → bytes := λ _, [].
Definition set_header (k v : bytes) (h : bytes → bytes) : bytes → bytes := λ k', if beq k k' then v else h k'.

Section handleJoin.
Context `{Host}.
Variable AddVoter : bytes → bytes → option (bytes * bool).
Variable LeaderAddr : bytes.   (* [raft.LeaderWithID] *)

Definition handleJoin (r : Request) : Response :=
  if negb (is_post r) then http_Error (lit "method not allowed") 405 no_header
  else if negb (form_ok r) then http_Error (lit "invalid form") 400 no_header
  else if beq (form_id r) [] || beq (form_addr r) [] then http_Error (lit "missing id or addr") 400 no_header
  else
    match AddVoter (form_id r) (form_addr r) with
    | None => mkResponse 200 no_header (lit "ok")
    | Some (err, is_not_leader) =>
        let lower := ToLower err in
        if Contains lower (lit "exists") || Contains lower (lit "known peer") then mkResponse 200 no_header (lit "ok")
        else if is_not_leader || Contains lower (lit "not leader") then
          let leaderAddr := TrimSpace LeaderAddr in
          let header :=
            if negb (beq leaderAddr []) then
              set_header (lit "Location") (lit "http://" ++ leaderAddr ++ httpJoinPath)
                (set_header (lit "X-Raft-Leader") leaderAddr no_header)
            else no_header in
          http_Error (lit "not leader (leader=" ++ leaderAddr ++ lit ")") 307 header
        else http_Error err 500 no_header
    end.
End handleJoin.

(** ** Asking to join *)
Section join.
Context `{Host} `{NetURL URL}.
(** One POST of the form [id, addr] to a URL by the HTTP client: the response, or the
    text of an error; the first argument is the number of the attempt. *)
Variable Post : nat → bytes → bytes → bytes → Response + bytes.
Variable NodeID raftAddr : bytes.

(** [joinOnce]: a hint for the address of the leader, and the text of an error. *)
Definition joinOnce (attempt : nat) (joinAddr : bytes) : outcome (bytes * option bytes) :=
  match buildJoinURL joinAddr with
  | inr err => Ret ([], Some (lit "invalid join addr " ++ Quote joinAddr ++ lit ": " ++ err))
  | inl joinURL =>
      match http_NewRequest joinURL with
      | Some err => Ret ([], Some (lit "build join request: " ++ err))
      | None =>
      match Post attempt joinURL NodeID raftAddr with
      | inr err => Ret ([], Some (lit "join request to " ++ joinAddr ++ lit " failed: " ++ err))
      | inl resp =>
          if StatusCode resp =? 200 then Ret (TrimSpace joinAddr, None)
          else
            let bodyStr := TrimSpace (Body resp) in
            hint ← parseLeaderHint (Some resp) bodyStr;
            Ret (hint, Some (lit "join request to " ++ joinAddr ++ lit " rejected (status " ++
                             FormatInt (StatusCode resp) ++ lit "): " ++ bodyStr))
      end
      end
  end.
End join.

(** ** The leader file *)
(** [os.WriteFile] truncates the file, writes and closes it: it succeeds, or fails before
    the file is touched, or fails after [n] bytes were written. *)
Inductive write_file := Written | NotOpened | Torn (n : nat).
(** The content, [None] when the file does not exist, and what the next write does. *)
Record leader_file := mkFile { fs_content : option bytes; fs_write : write_file }.
(** Whether it returned no error, and the file. *)
Definition persistLeaderAddr (addr : bytes) (f : leader_file) : bool * leader_file :=
  if beq addr [] then (true, f)
  else
    match fs_write f with
    | Written => (true, mkFile (Some addr) (fs_write f))
    | NotOpened => (false, f)
    | Torn n => (false, mkFile (Some (take n addr)) (fs_write f))
    end.
Definition cachedLeaderAddr (f : leader_file) : bytes := TrimSpace (str (fs_content f)).

(** One tick of [leaderWatchLoop]: [current] is the leader Raft knows, [lastAddr] the
    address last written. *)
Definition watch_tick (addr lastAddr : bytes) (f : leader_file) : bytes * leader_file :=
  let current := TrimSpace addr in
  if beq current [] || beq current lastAddr then (lastAddr, f)
  else
    let '(ok, f) := persistLeaderAddr current f in
    if ok then (current, f) else (lastAddr, f).

(** [leaderHint]: the leader Raft knows, the cached one or the first address to join. *)
Definition leaderHint (addr id : bytes) (JoinAddrs : list bytes) (f : leader_file) : bytes * bytes :=
  let leaderAddr := TrimSpace addr in
  let leaderAddr :=
    if beq leaderAddr [] then
      let cached := cachedLeaderAddr f in
      if beq cached [] then match JoinAddrs with a :: _ => TrimSpace a | [] => cached end else cached
    else leaderAddr in
  (leaderAddr, TrimSpace id).

(** ** The loop of [join] *)
Section join_loop.
Context (contact : nat → bytes → outcome (bytes * option bytes)).

(** What [join] did: its error, the addresses it contacted in order, the address it
    recorded. *)
Record joined := mkJoined { j_err : option bytes; j_contacted : list bytes; j_persisted : option bytes }.

Definition push_hint (hint : bytes) (seen : gset bytes) (queue : list bytes) : list bytes :=
  if beq hint [] then queue
  else
    let hint := TrimSpace hint in
    let hintKey := normalizeJoinAddr hint in
    if negb (beq hintKey []) && negb (bool_decide (hintKey ∈ seen)) then hint :: queue else queue.

Definition no_targets : bytes := lit "no join targets available".

(** [None] when [fuel] iterations are not enough. *)
Fixpoint join_loop (fuel : nat) (queue : list bytes) (seen : gset bytes) (lastErr : option bytes) (contacted : list bytes)
    : option (outcome joined) :=
  match queue with
  | [] => Some (Ret (mkJoined (Some (default no_targets lastErr)) contacted None))
  | q :: queue =>
      match fuel with
      | O => None
      | S fuel =>
          let target := TrimSpace q in
          if beq target [] then join_loop fuel queue seen lastErr contacted
          else
            let normalized := normalizeJoinAddr target in
            if bool_decide (normalized ∈ seen) then join_loop fuel queue seen lastErr contacted
            else
              let seen := {[ normalized ]} ∪ seen in
              match contact (length contacted) target with
              | Ret (hint, None) =>
                  Some (Ret (mkJoined None (contacted ++ [target]) (Some (if beq hint [] then target else hint))))
              | Ret (hint, Some err) =>
                  join_loop fuel (push_hint hint seen queue) seen (Some err) (contacted ++ [target])
              | Panics => Some Panics
              | Fatals => Some Fatals
              | Blocks => Some Blocks
              end
      end
  end.

Definition join (fuel : nat) (targets : list bytes) : option (outcome joined) :=
  match targets with
  | [] => Some (Ret (mkJoined None [] None))
  | _ => join_loop fuel targets ∅ None []
  end.
End join_loop.

(** [collectJoinTargets]: the cached leader first, then the configured addresses,
    each spelling once per normalized address. *)
Definition push_target (acc : gset bytes * list bytes) (addr : bytes) : gset bytes * list bytes :=
  let addr := TrimSpace addr in
  if beq addr [] then acc
  else
    let key := normalizeJoinAddr addr in
    if bool_decide (key ∈ acc.1) then acc else ({[ key ]} ∪ acc.1, acc.2 ++ [addr]).
Definition collectJoinTargets (JoinAddrs : list bytes) (f : leader_file) : list bytes :=
  let acc := let cached := cachedLeaderAddr f in if beq cached [] then (∅, []) else push_target (∅, []) cached in
  (foldl push_target acc JoinAddrs).2.

(** ** The log writer of Raft *)
Definition fillPlaceholder (s key value : bytes) : bytes :=
  if beq value [] then s
  else
    let target := key ++ lit "=" in
    match Index s target with
    | None => s
    | Some idx =>
        let start := (idx + length target)%nat in
        match drop start s with
        | [] => s ++ value
        | c :: _ => if bool_decide (c ∈ [" "%char; LF; CR; "009"%char]) then take start s ++ value ++ drop start s else s
        end
    end.

(** ** The loop of [join] ends and misses no target *)
Section join_facts.
Context (contact : nat → bytes → outcome (bytes * option bytes)).

(** [a] names an address of the finite set [U], or nothing. *)
Definition addr_in (U : gset bytes) (a : bytes) : Prop :=
  TrimSpace a = [] ∨ normalizeJoinAddr (TrimSpace a) ∈ U.
(** The hints that nodes return stay within [U]. *)
Definition hints_in (U : gset bytes) : Prop :=
  ∀ i t hint err, contact i t = Ret (hint, Some err) → addr_in U (TrimSpace hint).

Lemma push_hint_cases hint seen queue :
  push_hint hint seen queue = queue ∨ push_hint hint seen queue = TrimSpace hint :: queue.
Proof. unfold push_hint. destruct (beq hint []); [by left|]. cbv zeta. destruct (_ && _); [by right|by left]. Qed.

Lemma join_loop_total U fuel queue seen lastErr contacted :
  hints_in U → Forall (addr_in U) queue → (2 * size (U ∖ seen) + length queue <= fuel)%nat →
  is_Some (join_loop contact fuel queue seen lastErr contacted).
Proof.
  intros HU. revert queue seen lastErr contacted.
  induction fuel as [|fuel IH]; intros [|q queue] seen lastErr contacted Hq Hf; cbn [join_loop length] in *; try done; [lia|].
  apply Forall_cons in Hq as [Hqu Hq]. unfold beq at 1. case_bool_decide as Ht; [apply IH; [done|lia]|].
  case_bool_decide as Hs; [apply IH; [done|lia]|].
  destruct (contact (length contacted) (TrimSpace q)) as [[hint [err|]]| | |] eqn:Ec; try done.
  assert (size (U ∖ ({[normalizeJoinAddr (TrimSpace q)]} ∪ seen)) < size (U ∖ seen))%nat as Hlt.
  { destruct Hqu as [?|Hin]; [done|]. apply subset_size. set_solver. }
  apply IH.
  - destruct (push_hint_cases hint ({[normalizeJoinAddr (TrimSpace q)]} ∪ seen) queue) as [->| ->]; [done|].
    constructor; [by eapply HU|done].
  - destruct (push_hint_cases hint ({[normalizeJoinAddr (TrimSpace q)]} ∪ seen) queue) as [->| ->]; cbn; lia.
Qed.

(** What holds of the addresses contacted so far: no address twice, all refused. *)
Record refused (seen : gset bytes) (contacted : list bytes) : Prop := {
  rf_seen : seen = list_to_set (normalizeJoinAddr <$> contacted);
  rf_nodup : NoDup (normalizeJoinAddr <$> contacted);
  rf_err : ∀ i t, contacted !! i = Some t → ∃ hint err, contact i t = Ret (hint, Some err);
}.
Lemma refused_snoc seen contacted t hint err :
  refused seen contacted → normalizeJoinAddr t ∉ seen → contact (length contacted) t = Ret (hint, Some err) →
  refused ({[normalizeJoinAddr t]} ∪ seen) (contacted ++ [t]).
Proof.
  intros [-> Hnd He] Hs Hc. rewrite elem_of_list_to_set in Hs. split.
  - rewrite fmap_app, list_to_set_app_L. cbn. set_solver.
  - rewrite fmap_app. apply NoDup_app. split; [done|]. split; [|apply NoDup_singleton].
    intros x Hx ->%list_elem_of_singleton. done.
  - intros i t' [Hi|[-> ->]]%lookup_snoc_Some; [by apply He, Hi|eauto].
Qed.

Lemma join_loop_result fuel queue seen lastErr contacted o :
  refused seen contacted → join_loop contact fuel queue seen lastErr contacted = Some o →
  match o with
  | Ret j =>
      NoDup (normalizeJoinAddr <$> j_contacted j) ∧
      match j_err j with
      | None => ∃ pre t hint, j_contacted j = pre ++ [t] ∧ contact (length pre) t = Ret (hint, None)
      | Some _ =>
          (∀ q, q ∈ queue → TrimSpace q ≠ [] → normalizeJoinAddr (TrimSpace q) ∈ normalizeJoinAddr <$> j_contacted j) ∧
          (∀ q, q ∈ contacted → q ∈ j_contacted j) ∧
          ∀ i t, j_contacted j !! i = Some t → ∃ hint err, contact i t = Ret (hint, Some err)
      end
  | _ => ∃ i t, ∀ r, contact i t ≠ Ret r
  end.
Proof.
  revert queue seen lastErr contacted. induction fuel as [|fuel IH]; intros [|q queue] seen lastErr contacted Hr; cbn [join_loop]; try done.
  1,2: intros [= <-]; destruct Hr; cbn; split; [done|]; split; [intros q Hq; by apply elem_of_nil in Hq|done].
  unfold beq at 1. case_bool_decide as Ht.
  { intros E. specialize (IH _ _ _ _ Hr E). destruct o as [j| | |]; try done. destruct IH as [Hnd IH]. split; [done|].
    destruct (j_err j); [|done]. destruct IH as (IH & ? & ?). split; [|done]. intros q' [->|Hq']%elem_of_cons; [done|by apply IH]. }
  case_bool_decide as Hs.
  { intros E. pose proof (IH _ _ _ _ Hr E) as IH'. destruct o as [j| | |]; try done. destruct IH' as [Hnd IH']. split; [done|].
    destruct (j_err j); [|done]. destruct IH' as (IH1 & IH2 & ?). split; [|done].
    intros q' [->|Hq']%elem_of_cons; [|by apply IH1]. intros _. rewrite (rf_seen _ _ Hr), elem_of_list_to_set in Hs.
    apply list_elem_of_fmap in Hs as (t & -> & Hin). apply list_elem_of_fmap_2. by apply IH2. }
  destruct (contact (length contacted) (TrimSpace q)) as [[hint [err|]]| | |] eqn:Ec.
  - intros E. pose proof (refused_snoc _ _ _ _ _ Hr Hs Ec) as Hr'. pose proof (IH _ _ _ _ Hr' E) as IH'.
    destruct o as [j| | |]; try done. destruct IH' as [Hnd IH']. split; [done|]. destruct (j_err j); [|done].
    destruct IH' as (IH1 & IH2 & ?). split; [|split; [|done]].
    + intros q' [->|Hq']%elem_of_cons Hq''.
      * apply list_elem_of_fmap_2, IH2, elem_of_app. right. by apply list_elem_of_singleton.
      * apply IH1; [|done]. destruct (push_hint_cases hint ({[normalizeJoinAddr (TrimSpace q)]} ∪ seen) queue) as [->| ->]; [done|by right].
    + intros q' Hq'. apply IH2, elem_of_app. by left.
  - intros [= <-]. cbn. destruct Hr as [-> Hnd He]. rewrite elem_of_list_to_set in Hs. split; [|by eexists _, _, _].
    rewrite fmap_app. apply NoDup_app. split; [done|]. split; [|apply NoDup_singleton].
    intros x Hx ->%list_elem_of_singleton. done.
  - intros [= <-]. exists (length contacted), (TrimSpace q). by rewrite Ec.
  - intros [= <-]. exists (length contacted), (TrimSpace q). by rewrite Ec.
  - intros [= <-]. exists (length contacted), (TrimSpace q). by rewrite Ec.
Qed.

(** Where the addresses that are asked come from. *)
Definition named (targets : list bytes) (t : bytes) : Prop :=
  (∃ q, q ∈ targets ∧ t = TrimSpace q) ∨
  (∃ i t' hint err, contact i t' = Ret (hint, Some err) ∧ t = TrimSpace (TrimSpace hint)).
Lemma join_loop_named targets fuel queue seen lastErr contacted j :
  Forall (λ q, named targets (TrimSpace q)) queue → Forall (named targets) contacted →
  join_loop contact fuel queue seen lastErr contacted = Some (Ret j) → Forall (named targets) (j_contacted j).
Proof.
  revert queue seen lastErr contacted.
  induction fuel as [|fuel IH]; intros [|q queue] seen lastErr contacted Hq Hc; cbn [join_loop]; try done.
  1,2: by intros [= <-].
  apply Forall_cons in Hq as [Hq1 Hq]. unfold beq at 1. case_bool_decide; [by apply IH|]. case_bool_decide; [by apply IH|].
  destruct (contact (length contacted) (TrimSpace q)) as [[hint [err|]]| | |] eqn:Ec; try done.
  - apply IH; [|by apply Forall_app_2; [|constructor]].
    destruct (push_hint_cases hint ({[normalizeJoinAddr (TrimSpace q)]} ∪ seen) queue) as [->| ->]; [done|].
    constructor; [|done]. right. by eexists _, _, _, _.
  - intros [= <-]. cbn. by apply Forall_app_2; [|constructor].
Qed.
Lemma join_named targets fuel j :
  join contact fuel targets = Some (Ret j) → Forall (named targets) (j_contacted j).
Proof.
  unfold join. destruct targets as [|t ts]; [by intros [= <-]|]. apply join_loop_named; [|done].
  apply Forall_forall. intros q Hq. left. by exists q.
Qed.

(** C29: Provided the nodes hint at finitely many addresses, [join] ends: within two
    rounds per address and one per target.  It sends no address a second request itself
    (the HTTP client may follow redirections within one request); it returns success
    exactly when the node it asked last accepted, and an error only after every target was
    asked (under some spelling) and refused or failed.  (The only other ending is a panic
    while it reads a response.  Without the proviso it can go on for ever:
    [join_never_ends].) *)
Theorem join_ends U targets :
  targets ≠ [] → Forall (addr_in U) targets → hints_in U →
  ∃ o, join contact (2 * size U + length targets) targets = Some o ∧
  match o with
  | Ret j =>
      NoDup (normalizeJoinAddr <$> j_contacted j) ∧
      match j_err j with
      | None => ∃ pre t hint, j_contacted j = pre ++ [t] ∧ contact (length pre) t = Ret (hint, None)
      | Some _ =>
          (∀ q, q ∈ targets → TrimSpace q ≠ [] → normalizeJoinAddr (TrimSpace q) ∈ normalizeJoinAddr <$> j_contacted j) ∧
          ∀ i t, j_contacted j !! i = Some t → ∃ hint err, contact i t = Ret (hint, Some err)
      end
  | _ => ∃ i t, ∀ r, contact i t ≠ Ret r
  end.
Proof.
  intros Hne Ht HU. destruct (join_loop_total U (2 * size U + length targets) targets ∅ None [] HU Ht) as [o E].
  { replace (U ∖ ∅) with U by set_solver. lia. }
  exists o. split; [by destruct targets|]. apply join_loop_result in E; [|split; [done|constructor|done]].
  destruct o as [j| | |]; try done. destruct (j_err j); [|done]. destruct E as (? & ? & _ & ?). done.
Qed.
End join_facts.

(** *** A node that always hints at a new address *)
Definition fresh_hints (i : nat) (t : bytes) : outcome (bytes * option bytes) :=
  Ret (replicate (S i) "a"%char, Some (lit "not leader")).
Lemma replicate_TrimSpace n : TrimSpace (replicate n "a"%char) = replicate n "a"%char.
Proof. apply TrimSpace_all_solid. by induction n. Qed.
Lemma replicate_key n : normalizeJoinAddr (replicate n "a"%char) = replicate n "a"%char.
Proof.
  unfold normalizeJoinAddr. rewrite replicate_TrimSpace. destruct n as [|n]; [done|].
  change (beq (replicate (S n) "a"%char) []) with false. cbv iota zeta.
  assert (TrimSuffix (replicate (S n) "a"%char) (lit "/") = replicate (S n) "a"%char) as ->; [|done].
  unfold TrimSuffix, TrimPrefix. rewrite reverse_replicate. change (HasPrefix _ _) with false. cbv iota.
  apply reverse_replicate.
Qed.
Lemma fresh_hints_loop (fuel : nat) (contacted : list bytes) (lastErr : option bytes) (seen : gset bytes) :
  contacted ≠ [] → (∀ m, (length contacted ≤ m)%nat → replicate m "a"%char ∉ seen) →
  join_loop fresh_hints fuel [replicate (length contacted) "a"%char] seen lastErr contacted = None.
Proof.
  revert contacted lastErr seen. induction fuel as [|fuel IH]; intros contacted lastErr seen Hn Hs; [done|].
  cbn [join_loop]. rewrite replicate_TrimSpace, replicate_key.
  rewrite (bool_decide_eq_false_2 (_ ∈ seen)) by (by apply Hs).
  change (fresh_hints (length contacted) (replicate (length contacted) "a"%char))
    with (Ret (A := bytes * option bytes) (replicate (S (length contacted)) "a"%char, Some (lit "not leader"))). cbv iota.
  set (seen' := {[ _ ]} ∪ seen). set (n := length contacted) in *.
  assert (∀ m, (S n ≤ m)%nat → replicate m "a"%char ∉ seen') as Hs'.
  { intros m Hm [E%elem_of_singleton|Hx]%elem_of_union; [|by apply (Hs m); [lia|]].
    apply (f_equal length) in E. rewrite !length_replicate in E. lia. }
  assert (push_hint (replicate (S n) "a"%char) seen' [] = [replicate (S n) "a"%char]) as ->.
  { unfold push_hint. change (beq (replicate (S n) "a"%char) []) with false. cbv iota zeta.
    rewrite replicate_TrimSpace, replicate_key. change (beq (replicate (S n) "a"%char) []) with false.
    by rewrite bool_decide_eq_false_2 by (by apply Hs'). }
  destruct n as [|k] eqn:Ek; [by destruct contacted|]. change (beq (replicate (S k) "a"%char) []) with false. cbv iota.
  replace (S (S k)) with (length (contacted ++ [replicate (S k) "a"%char])) in Hs' |- * by (rewrite length_app; simpl; lia).
  apply IH; [by destruct contacted|done].
Qed.
(** A node that refuses with a new address every time keeps [join] from ending. *)
Theorem join_never_ends fuel : join fresh_hints fuel [lit "b"] = None.
Proof.
  destruct fuel as [|fuel]; [done|].
  change (join_loop fresh_hints fuel (push_hint (lit "a") ({[lit "b"]} ∪ ∅) []) ({[lit "b"]} ∪ ∅) (Some (lit "not leader")) [lit "b"] = None).
  apply (fresh_hints_loop fuel [lit "b"]); [done|]. intros [|m] Hm; [simpl in Hm; lia|]. intros Hx. 
  apply elem_of_union in Hx as [Hx%elem_of_singleton|Hx%elem_of_empty]; done.
Qed.

(** *** Reaching the leader *)
Section reach.
Context `{Host} `{NetURL URL} (Post : nat → bytes → bytes → bytes → Response + bytes) (NodeID raftAddr : bytes).
Variable AddVoter : bytes → bytes → option (bytes * bool).
Variable LeaderAddr : bytes.

(** Every spelling of [key] leads to the server of a node that runs [handleJoin], and the
    HTTP client returns its answer, as it does for an answer that is no redirection. *)
Definition served_at (key : bytes) : Prop :=
  ∀ i t, normalizeJoinAddr t = key → ∃ joinURL, buildJoinURL t = inl joinURL ∧ http_NewRequest joinURL = None ∧
    let resp := handleJoin AddVoter LeaderAddr (mkRequest true true NodeID raftAddr) in
    StatusCode resp = 200 → Post i joinURL NodeID raftAddr = inl resp.

(** The Raft of that node takes the voter, or says that it has it. *)
Definition takes_voter : Prop :=
  match AddVoter NodeID raftAddr with
  | None => True
  | Some (err, _) => Contains (ToLower err) (lit "exists") = true ∨ Contains (ToLower err) (lit "known peer") = true
  end.

Lemma handleJoin_accepts :
  NodeID ≠ [] → raftAddr ≠ [] → takes_voter →
  StatusCode (handleJoin AddVoter LeaderAddr (mkRequest true true NodeID raftAddr)) = 200.
Proof.
  intros Hi Ha Hv. unfold handleJoin, takes_voter in *. cbn [is_post form_ok form_id form_addr negb].
  unfold beq. rewrite !bool_decide_eq_false_2 by done. cbn [orb].
  destruct (AddVoter NodeID raftAddr) as [[err b]|]; [|done].
  by destruct Hv as [->| ->]; rewrite ?orb_true_r.
Qed.
Lemma joinOnce_accepted key i t :
  NodeID ≠ [] → raftAddr ≠ [] → takes_voter → served_at key → normalizeJoinAddr t = key →
  joinOnce Post NodeID raftAddr i t = Ret (TrimSpace t, None).
Proof.
  intros Hi Ha Hv Hs Ht. destruct (Hs i t Ht) as (u & Eu & Er & Ep). pose proof (handleJoin_accepts Hi Ha Hv) as H200.
  unfold joinOnce. by rewrite Eu, Er, (Ep H200), H200.
Qed.

End reach.

(** ** The targets *)
Definition covers (acc : gset bytes * list bytes) : Prop :=
  acc.1 = list_to_set (normalizeJoinAddr <$> acc.2) ∧ NoDup (normalizeJoinAddr <$> acc.2) ∧ Forall (λ a, a ≠ []) acc.2.
Lemma push_target_covers acc a :
  covers acc →
  covers (push_target acc a) ∧ acc.2 `prefix_of` (push_target acc a).2 ∧
  (TrimSpace a ≠ [] → normalizeJoinAddr (TrimSpace a) ∈ normalizeJoinAddr <$> (push_target acc a).2).
Proof.
  intros Hc. pose proof Hc as (Hs & Hnd & Hne). unfold push_target. unfold beq at 1 2 3. cbv zeta.
  case_bool_decide as Ha; [split; [done|]; split; [done|]; by intros ?|].
  case_bool_decide as Hin; rewrite Hs, elem_of_list_to_set in Hin; [by split; [|split]|]. cbn. unfold covers. split_and!; cbn.
  - rewrite Hs, fmap_app, list_to_set_app_L. cbn. set_solver.
  - rewrite fmap_app. apply NoDup_app. split; [done|]. split; [|apply NoDup_singleton].
    intros x Hx ->%list_elem_of_singleton. done.
  - apply Forall_app. split; [done|]. by constructor.
  - by eexists.
  - intros _. rewrite fmap_app, elem_of_app. right. by apply list_elem_of_singleton.
Qed.
Lemma push_targets_cover acc l :
  covers acc →
  covers (foldl push_target acc l) ∧ acc.2 `prefix_of` (foldl push_target acc l).2 ∧
  ∀ a, a ∈ l → TrimSpace a ≠ [] → normalizeJoinAddr (TrimSpace a) ∈ normalizeJoinAddr <$> (foldl push_target acc l).2.
Proof.
  revert acc. induction l as [|a l IH]; intros acc Hc; cbn [foldl].
  { split; [done|]. split; [done|]. intros a Ha. by apply elem_of_nil in Ha. }
  destruct (push_target_covers acc a Hc) as (Hc' & Hp & Ha). destruct (IH _ Hc') as (? & Hp' & Hl).
  split; [done|]. split; [by etransitivity|]. intros b [->|Hb]%elem_of_cons Hne; [|by apply Hl].
  destruct Hp' as [k Hk]. rewrite Hk, fmap_app, elem_of_app. left. by apply Ha.
Qed.

(** The addresses a node asks are not empty, denote different nodes and include
    every configured address (up to scheme and trailing slash) and the cached
    leader, which comes first. *)
Theorem collectJoinTargets_spec JoinAddrs f :
  let targets := collectJoinTargets JoinAddrs f in
  NoDup (normalizeJoinAddr <$> targets) ∧ Forall (λ a, a ≠ []) targets ∧
  (∀ a, a ∈ JoinAddrs → TrimSpace a ≠ [] → normalizeJoinAddr (TrimSpace a) ∈ normalizeJoinAddr <$> targets) ∧
  (TrimSpace (cachedLeaderAddr f) ≠ [] → head targets = Some (TrimSpace (cachedLeaderAddr f))).
Proof.
  cbv zeta. unfold collectJoinTargets. assert (covers (∅, [])) as H0 by (split_and!; [done|constructor|constructor]).
  set (acc := if beq (cachedLeaderAddr f) [] then _ else _).
  assert (covers acc ∧ (TrimSpace (cachedLeaderAddr f) ≠ [] → acc.2 = [TrimSpace (cachedLeaderAddr f)])) as [Hacc Hfirst].
  { subst acc. unfold beq. case_bool_decide as Hc; [split; [done|]; by rewrite Hc|].
    split; [by apply push_target_covers|]. intros Hne. unfold push_target, beq. by rewrite bool_decide_eq_false_2. }
  destruct (push_targets_cover acc JoinAddrs Hacc) as ((_ & Hnd & Hne) & [k Hk] & Hl). split_and!; try done.
  intros Hc. by rewrite Hk, Hfirst.
Qed.

(** ** The hint of a node that is not the leader *)
Lemma TrimSpace_newline a s :
  solid a = true → solid (List.last (a :: s) a) = true → TrimSpace ((a :: s) ++ [LF]) = a :: s.
Proof.
  intros Ha Hl. unfold TrimSpace. cbn [app]. rewrite (strip_none after_space) by (by apply solid_after_space).
  change (a :: s ++ [LF]) with ((a :: s) ++ [LF]). rewrite length_app, reverse_snoc, Nat.add_1_r. cbn [strip].
  change (before_space (LF :: reverse (a :: s))) with (Some (reverse (a :: s))). cbv iota.
  destruct (exists_last (l := a :: s)) as (l & z & E); [done|]. rewrite E in Hl |- *. rewrite List.last_last in Hl.
  rewrite reverse_snoc, strip_none by (by apply solid_before_space). by rewrite reverse_cons, reverse_involutive.
Qed.

Definition plain_addr (a : bytes) : bool :=
  forallb (λ c, solid c && negb (bool_decide (c ∈ lit "),;" ++ ["034"%char]))) a.
Lemma plain_addr_forall a :
  plain_addr a = true → Forall (λ c, solid c = true ∧ c ∉ lit "),;" ++ ["034"%char]) a.
Proof.
  unfold plain_addr. rewrite forallb_forall, Forall_forall. intros H x Hx%list_elem_of_In.
  apply H in Hx. rewrite andb_true_iff, negb_true_iff, bool_decide_eq_false in Hx. done.
Qed.
Lemma plain_addr_solid a : plain_addr a = true → forallb solid a = true.
Proof. intros H%plain_addr_forall. apply forallb_forall. intros x Hx%list_elem_of_In. rewrite Forall_forall in H. by apply H. Qed.
Lemma solid_not_space c : solid c = true → c ≠ " "%char ∧ c ≠ LF ∧ c ≠ CR ∧ c ≠ "009"%char.
Proof. intros Hc. split_and!; intros ->; by vm_compute in Hc. Qed.

Lemma hint_in_body_spec `{Host} addr :
  addr ≠ [] → plain_addr addr = true →
  hint_in_body (lit "not leader (leader=" ++ addr ++ lit ")") = Ret addr.
Proof.
  intros Hne Ha. pose proof (plain_addr_forall _ Ha) as Hp. set (body := lit "not leader (leader=" ++ addr ++ lit ")").
  assert (is_ascii body = true) as Hasc.
  { subst body. unfold is_ascii. rewrite !forallb_app. apply andb_true_iff; split; [done|]. apply andb_true_iff; split; [|done].
    apply forallb_forall. intros x Hx%list_elem_of_In. rewrite Forall_forall in Hp. destruct (Hp x Hx) as [Hs _].
    apply solid_true in Hs as [_ ?]. lia. }
  unfold hint_in_body, ToLower. rewrite Hasc. change (beq body []) with false. cbv iota.
  assert (map lower body = lit "not " ++ lit "leader" ++ map lower (lit " (leader=" ++ addr ++ lit ")")) as ->.
  { subst body. rewrite !map_app. done. }
  rewrite Index_skip; [|done|]. 2:{ intros c [= <-]. by apply (bool_decide_unpack _). }
  change (length (lit "not ")) with 4%nat. change (length body) with (19 + length (addr ++ lit ")"))%nat.
  rewrite (proj2 (Nat.ltb_ge _ _)) by lia.
  change (drop 4 body) with (lit "leader (leader" ++ "="%char :: addr ++ lit ")").
  rewrite IndexAny_skip; [|by apply (bool_decide_unpack _)|by apply (bool_decide_unpack _)].
  change (length (lit "leader (leader")) with 14%nat.
  change (length (lit "leader (leader" ++ "="%char :: addr ++ lit ")")) with (15 + length (addr ++ lit ")"))%nat.
  rewrite length_app. rewrite (proj2 (Nat.ltb_lt _ _)) by (cbn; lia).
  change (drop 15 (lit "leader (leader" ++ "="%char :: addr ++ lit ")")) with (addr ++ lit ")").
  f_equal. destruct addr as [|c addr]; [done|]. cbn [app]. rewrite TrimLeft_keep.
  2:{ apply Forall_cons in Hp as [[Hs _] _]. apply solid_not_space in Hs as (?&?&?&?).
      rewrite !elem_of_cons, elem_of_nil. tauto. }
  assert (cut_address (c :: addr ++ lit ")") = c :: addr) as ->.
  { unfold cut_address. change (c :: addr ++ lit ")") with ((c :: addr) ++ ")"%char :: []).
    assert (list_find (λ x, x ∈ lit "),; " ++ [LF; CR]) ((c :: addr) ++ [")"%char]) = Some (length (c :: addr), ")"%char)) as ->.
    { apply list_find_Some. split; [by apply list_lookup_middle|]. split; [by apply (bool_decide_unpack _)|].
      intros j y Hj Hlt Hin. rewrite lookup_app_l in Hj by done. pose proof (Forall_lookup_1 _ _ _ _ Hp Hj) as [Hs Hy].
      apply solid_not_space in Hs as (?&?&?&?). apply Hy. revert Hin. cbn. rewrite !elem_of_cons, !elem_of_nil. tauto. }
    by rewrite take_app_length. }
  apply Trim_keep. eapply Forall_impl; [exact Hp|]. intros x [_ Hx] ->%list_elem_of_singleton. apply Hx.
  by apply (bool_decide_unpack _).
Qed.

(** The answer of a node that is not the leader, if it reaches the joining node as it was
    sent, names the leader through its header and also through its text alone.  (For a 307
    with a Location the HTTP client of [joinOnce] asks that address itself first.) *)
Theorem handleJoin_leads_to_leader `{Host} AddVoter leaderAddr r err b :
  is_post r = true → form_ok r = true → form_id r ≠ [] → form_addr r ≠ [] →
  AddVoter (form_id r) (form_addr r) = Some (err, b) →
  Contains (ToLower err) (lit "exists") = false → Contains (ToLower err) (lit "known peer") = false →
  b || Contains (ToLower err) (lit "not leader") = true →
  leaderAddr ≠ [] → plain_addr leaderAddr = true →
  let resp := handleJoin AddVoter leaderAddr r in
  StatusCode resp = 307 ∧
  parseLeaderHint (Some resp) (TrimSpace (Body resp)) = Ret leaderAddr ∧
  parseLeaderHint None (TrimSpace (Body resp)) = Ret leaderAddr.
Proof.
  intros Hp Hf Hi Had Hv He Hk Hb Hne Ha.
  assert (handleJoin AddVoter leaderAddr r = http_Error (lit "not leader (leader=" ++ leaderAddr ++ lit ")") 307
    (set_header (lit "Location") (lit "http://" ++ leaderAddr ++ httpJoinPath)
       (set_header (lit "X-Raft-Leader") leaderAddr no_header))) as ->.
  { unfold handleJoin. rewrite Hp, Hf, Hv, He, Hk, Hb. cbn [negb orb].
    rewrite (TrimSpace_all_solid leaderAddr) by (by apply plain_addr_solid).
    unfold beq. by rewrite !bool_decide_eq_false_2 by done. }
  cbv zeta. split; [done|].
  assert (TrimSpace ((lit "not leader (leader=" ++ leaderAddr ++ lit ")") ++ [LF]) = lit "not leader (leader=" ++ leaderAddr ++ lit ")") as Hbody.
  { apply (TrimSpace_newline "n"%char (lit "ot leader (leader=" ++ leaderAddr ++ lit ")")); [done|].
    change (List.last _ _) with (List.last (lit "not leader (leader=" ++ leaderAddr ++ [")"%char]) "n"%char).
    rewrite app_assoc, List.last_last. done. }
  cbn [http_Error Body]. rewrite Hbody. split; [|by apply hint_in_body_spec].
  unfold parseLeaderHint. cbn [http_Error Header]. change (set_header (lit "Location") _ _ (lit "X-Raft-Leader")) with leaderAddr.
  rewrite (TrimSpace_all_solid leaderAddr) by (by apply plain_addr_solid). unfold beq. by rewrite bool_decide_eq_false_2.
Qed.

(** ** A response that crashes the joining node *)
(** U+023A has two bytes, its lower case U+2C65 three. *)
Definition long_lower (n : nat) : bytes := concat (replicate n ["226"%char; "177"%char; "165"%char]).
Definition long_upper (n : nat) : bytes := concat (replicate n ["200"%char; "186"%char]).

Lemma long_lower_length n : length (long_lower n) = (3 * n)%nat.
Proof. unfold long_lower. induction n as [|n IH]; cbn [replicate concat]; [done|]. rewrite length_app, IH. cbn. lia. Qed.
Lemma long_upper_length n : length (long_upper n) = (2 * n)%nat.
Proof. unfold long_upper. induction n as [|n IH]; cbn [replicate concat]; [done|]. rewrite length_app, IH. cbn. lia. Qed.

(** With the Unicode case tables of Go, a node that refuses with seven or more
    letters U+023A before the word leader makes the joining node panic: the position
    found in the lower-case text is beyond the end of the original one. *)
Theorem parseLeaderHint_panics `{Host} n :
  unicode_ToLower (long_upper n ++ lit "leader") = long_lower n ++ lit "leader" → (7 <= n)%nat →
  parseLeaderHint None (long_upper n ++ lit "leader") = Panics.
Proof.
  intros Hl Hn. unfold parseLeaderHint, hint_in_body, ToLower.
  destruct n as [|n]; [lia|]. change (beq (long_upper (S n) ++ lit "leader") []) with false.
  change (is_ascii (long_upper (S n) ++ lit "leader")) with false. cbv iota. rewrite Hl.
  assert (Index (long_lower (S n) ++ lit "leader") (lit "leader") = Some (3 * S n)%nat) as ->.
  { rewrite <- (app_nil_r (lit "leader")) at 1. rewrite Index_skip; [by rewrite long_lower_length|done|].
    intros c [= <-] Hin. unfold long_lower in Hin. apply list_elem_of_In, in_concat in Hin as (x & Hx & Hc).
    apply list_elem_of_In, elem_of_replicate in Hx as [-> _]. by repeat destruct Hc as [Hc|Hc]. }
  rewrite length_app, long_upper_length. rewrite (proj2 (Nat.ltb_lt _ _)); [done|]. cbn. lia.
Qed.

(** ** Concrete runs *)
#[local] Existing Instance demo_host.

(** Node [a:1] sends joining nodes to [b:2], which accepts them. *)
Definition demo_contact (i : nat) (t : bytes) : outcome (bytes * option bytes) :=
  if beq t (lit "a:1") then Ret (lit "http://b:2/", Some (lit "not leader")) else Ret (t, None).

Lemma join_ends_witness :
  ∃ j, join demo_contact 5 [lit "a:1"] = Some (Ret j) ∧
    j_contacted j = [lit "a:1"; lit "http://b:2/"] ∧ NoDup (normalizeJoinAddr <$> j_contacted j).
Proof.
  destruct (join_ends demo_contact {[ lit "a:1"; lit "b:2" ]} [lit "a:1"]) as (o & E & Ho).
  - discriminate.
  - apply Forall_singleton. right. apply (bool_decide_unpack _). vm_compute. exact I.
  - intros i t hint err. unfold demo_contact. destruct (beq t _); [|discriminate]. intros [= <- <-].
    right. apply (bool_decide_unpack _). vm_compute. exact I.
  - vm_compute in E. injection E as <-. eexists. split; [vm_compute; reflexivity|]. split; [reflexivity|]. exact (proj1 Ho).
Defined.

(** Node [a:1] knows no leader; every other address leads to a node whose Raft has the voter. *)
Definition demo_url : NetURL bytes := {|
  url_Parse u := inl u; url_Path _ := []; set_Path p u := u ++ p; url_String u := u; http_NewRequest _ := None;
|}.
#[local] Existing Instance demo_url.
Definition demo_voter (id addr : bytes) : option (bytes * bool) := Some (lit "node already exists", false).
Definition demo_Post (i : nat) (u id addr : bytes) : Response + bytes :=
  if beq u (lit "http://a:1" ++ httpJoinPath) then inl (http_Error (lit "not leader (leader=)") 307 no_header)
  else inl (handleJoin demo_voter [] (mkRequest true true id addr)).
Lemma demo_served : served_at demo_Post (lit "n4") (lit "d:4") demo_voter [] (lit "b:2").
Proof.
  intros i t Ht. assert (∃ u, buildJoinURL t = inl u ∧ u ≠ lit "http://a:1" ++ httpJoinPath) as (u & Eu & Hu).
  { unfold normalizeJoinAddr in Ht. unfold buildJoinURL. destruct (beq (TrimSpace t) []) eqn:E0; [done|].
    destruct (HasPrefix (TrimSpace t) (lit "http://") || _); (eexists; split; [reflexivity|]); intros E.
    - change ((TrimSpace t) ++ httpJoinPath = lit "http://a:1" ++ httpJoinPath) in E. apply app_inv_tail in E. by rewrite E in Ht.
    - apply (app_inv_head (lit "http://") _ (lit "a:1" ++ httpJoinPath)), app_inv_tail in E. by rewrite E in Ht. }
  exists u. split; [done|]. split; [done|]. cbv zeta. intros _. unfold demo_Post, beq. by rewrite bool_decide_eq_false_2.
Qed.
Lemma demo_hints : hints_in (joinOnce demo_Post (lit "n4") (lit "d:4")) {[ lit "a:1"; lit "b:2" ]}.
Proof.
  intros i t hint err. unfold joinOnce. destruct (buildJoinURL t) as [u|]; [|by intros [= <- <-]; left].
  cbn [http_NewRequest demo_url]. unfold demo_Post. destruct (beq u _); [|done]. intros E. left.
  change (Ret (@nil ascii, Some (lit "join request to " ++ t ++ lit " rejected (status 307): not leader (leader=)")) = Ret (hint, Some err)) in E.
  injection E as Eh _. by rewrite <- Eh.
Qed.

Lemma handleJoin_leads_to_leader_witness :
  let resp := handleJoin (λ _ _, Some (lit "node is not the leader", true)) (lit "10.0.0.1:7000")
                (mkRequest true true (lit "n2") (lit "10.0.0.2:7000")) in
  parseLeaderHint (Some resp) (TrimSpace (Body resp)) = Ret (lit "10.0.0.1:7000").
Proof.
  apply (handleJoin_leads_to_leader (λ _ _, Some (lit "node is not the leader", true)) (lit "10.0.0.1:7000")
    (mkRequest true true (lit "n2") (lit "10.0.0.2:7000")) (lit "node is not the leader") true); try reflexivity; discriminate.
Defined.

Definition lower_host : Host := {|
  murmur3_Sum64WithSeed := @murmur3_Sum64WithSeed demo_host;
  unicode_ToLower s := if beq s (long_upper 7 ++ lit "leader") then long_lower 7 ++ lit "leader" else s;
  unicode_ToUpper := @unicode_ToUpper demo_host;
  unicode_Title := @unicode_Title demo_host;
  unix_now := @unix_now demo_host;
  range_order := @range_order demo_host;
  rand_Intn := @rand_Intn demo_host;
  rand_Float64 := @rand_Float64 demo_host;
  ParseFloat := @ParseFloat demo_host;
  FormatFloat := @FormatFloat demo_host;
  Sprintf_v := @Sprintf_v demo_host;
  Quote := @Quote demo_host;
  filepath_Match := @filepath_Match demo_host;
  process := @process demo_host;
|}.
Lemma parseLeaderHint_panics_witness :
  parseLeaderHint (H := lower_host) None (long_upper 7 ++ lit "leader") = Panics.
Proof. apply (parseLeaderHint_panics (H := lower_host) 7); [reflexivity|lia]. Defined.
