(* ===== verification/Report.v ===== *)
(** * What a node reports about replication

    [src/pkg/cluster/node.go] ([collectReplicationInfo]) and
    [src/pkg/server/local_node.go] (the callback of [newLocalNode]): the text of
    [INFO replication].  What Raft answers is part of the model's input: each of its
    methods is called once per report. *)

From Stdlib Require Import Ascii String ZArith Lia.
From stdpp Require Import prelude gmap list fin_maps.
From S2P Require Import Prelude Text Config RESP Util CMap Heap TTL Locks ListStruct ListOps SetStruct HashStruct ZSetStruct Store World Model.
From S2P Require Import Info Refine Server Cluster Join.
Open Scope Z_scope.
#[local] Arguments CmdTable : simpl never.

(** [net.JoinHostPort]: a host with a colon is bracketed. *)
Definition JoinHostPort (host port : bytes) : bytes :=
  if bool_decide (":"%char ∈ host) then lit "[" ++ host ++ lit "]:" ++ port else host ++ lit ":" ++ port.

(** A member of the Raft configuration; the suffrage is its text. *)
Record RaftServer := mkServer { srv_ID : bytes; srv_Address : bytes; srv_Suffrage : bytes }.

(** What the methods of Raft answer: [State] with the text and the number of the
    state, [CurrentTerm], [CommitIndex], [AppliedIndex], [LastIndex], [LeaderWithID]
    and [GetConfiguration] (or the text of its error). *)
Record RaftStatus := mkStatus {
  st_State : RaftState;
  st_String : bytes;
  st_uint32 : Z;
  st_CurrentTerm : Z;
  st_CommitIndex : Z;
  st_AppliedIndex : Z;
  st_LastIndex : Z;
  st_LeaderAddr : bytes;
  st_LeaderID : bytes;
  st_Configuration : list RaftServer + bytes;
}.

(** The fields of a node that the report reads; [raft] and [cfg] can be nil. *)
Record NodeView := mkView { v_raft : option RaftStatus; v_cfg : option Config; v_httpAddr : bytes; v_file : leader_file }.

Definition role (s : RaftState) : bytes :=
  match s with Leader => lit "master" | Follower | Candidate => lit "slave" | Shutdown => lit "shutdown" end.

Definition format_bool (b : bool) : bytes := if b then lit "true" else lit "false".
Definition field (name : string) (v : bytes) : bytes := line (lit name ++ v).

Definition peer_line (self : bytes → bool) (idx : nat) (srv : RaftServer) : bytes :=
  line (lit "peer" ++ FormatInt (Z.of_nat idx) ++ lit ":id=" ++ srv_ID srv ++ lit ",raft_addr=" ++ srv_Address srv ++
        lit ",suffrage=" ++ srv_Suffrage srv ++ lit ",self=" ++ format_bool (self (srv_ID srv))).

(** The identity of the node, when it has a configuration. *)
Definition node_lines (cfg : Config) : bytes :=
  (if beq (cfg_NodeID cfg) [] then [] else field "node_id:" (cfg_NodeID cfg)) ++
  (if beq (cfg_Host cfg) [] || (cfg_Port cfg =? 0) then []
   else field "advertise_addr:" (JoinHostPort (cfg_Host cfg) (FormatInt (cfg_Port cfg)))).

Definition raft_lines (st : RaftStatus) : bytes :=
  field "raft_state:" (st_String st) ++ field "raft_state_id:" (FormatInt (st_uint32 st)) ++
  field "raft_term:" (FormatInt (st_CurrentTerm st)) ++ field "raft_commit_index:" (FormatInt (st_CommitIndex st)) ++
  field "raft_applied_index:" (FormatInt (st_AppliedIndex st)) ++ field "raft_last_log_index:" (FormatInt (st_LastIndex st)).

Definition leader_lines (st : RaftStatus) : bytes :=
  if negb (beq (st_LeaderAddr st) []) || negb (beq (st_LeaderID st) [])
  then field "leader_id:" (TrimSpace (st_LeaderID st)) ++ field "leader_raft_addr:" (TrimSpace (st_LeaderAddr st))
  else field "leader_id:" [].

Definition http_lines (st : RaftStatus) (cfg : Config) (httpAddr : bytes) : bytes :=
  let leader := TrimSpace (st_LeaderID st) in
  if negb (beq leader []) && beq leader (cfg_NodeID cfg) then
    if negb (beq httpAddr []) then field "leader_http_addr:" httpAddr
    else if negb (beq (cfg_RaftHTTPAddr cfg) []) then field "leader_http_addr:" (cfg_RaftHTTPAddr cfg) else []
  else [].

Definition peer_lines (st : RaftStatus) (cfg : option Config) : bytes :=
  match st_Configuration st with
  | inr err => field "config_error:" err
  | inl servers =>
      let self id := match cfg with Some cfg => beq id (cfg_NodeID cfg) | None => false end in
      field "known_peers:" (FormatInt (zlen servers)) ++ concat (imap (peer_line self) servers)
  end.

Definition hint_lines (st : RaftStatus) (f : leader_file) : bytes :=
  if beq (TrimSpace (st_LeaderAddr st)) [] then
    let cached := cachedLeaderAddr f in
    if beq cached [] then field "detail:leader_not_known" [] else field "leader_hint:" cached
  else [].

Definition head_line : bytes := line (lit "# Replication").

(** The payload of the bulk string [collectReplicationInfo] returns; the node itself
    can be nil. *)
Definition collectReplicationInfo (n : option NodeView) : bytes :=
  match n with
  | Some (mkView (Some st) cfg httpAddr file) =>
      head_line ++ field "role:" (role (st_State st)) ++
      from_option node_lines [] cfg ++ raft_lines st ++ leader_lines st ++
      from_option (λ cfg, http_lines st cfg httpAddr) [] cfg ++ peer_lines st cfg ++ hint_lines st file
  | _ => head_line ++ field "role:unknown" [] ++ field "detail:raft_not_initialized" []
  end.

(** The callback of the standalone node. *)
Definition localNode_replication (cfg : option Config) : bytes :=
  head_line ++ field "role:master" [] ++
  match cfg with
  | Some cfg => if beq (cfg_NodeID cfg) [] then [] else field "node_id:" (cfg_NodeID cfg)
  | None => []
  end ++ field "raft_state:disabled" [].

(** ** Which nodes report the role of a master *)
Definition role_master : bytes := lit "role:master".
(** A text that cannot be taken for the role. *)
Definition quiet (s : bytes) : Prop := Contains s role_master = false.

Lemma LF_role : LF ∉ role_master.
Proof. by apply (bool_decide_unpack (LF ∉ role_master)). Qed.
Lemma Contains_line a rest : Contains (line a ++ rest) role_master = Contains a role_master || Contains rest role_master.
Proof. unfold line. rewrite <- app_assoc. apply (Contains_sep LF); [done|apply LF_role]. Qed.
Lemma Contains_lines_nil a : Contains (line a) role_master = Contains a role_master.
Proof. rewrite <- (app_nil_r (line a)), Contains_line. apply orb_false_r. Qed.
Lemma Contains_field name v rest :
  clear_of (lit name) role_master = true →
  Contains (field name v ++ rest) role_master = Contains v role_master || Contains rest role_master.
Proof. intros Hn. unfold field. rewrite Contains_line. by rewrite Contains_clear. Qed.

Lemma FormatInt_no_r n : "r"%char ∉ FormatInt n.
Proof. by apply FormatInt_absent. Qed.
Lemma quiet_number n : quiet (FormatInt n).
Proof. apply (Contains_absent "r"%char), FormatInt_no_r. Qed.

(** The texts that come from elsewhere: none of them spells the role. *)
Definition quiet_config (cfg : Config) : Prop :=
  quiet (cfg_NodeID cfg) ∧ quiet (JoinHostPort (cfg_Host cfg) (FormatInt (cfg_Port cfg))) ∧ quiet (cfg_RaftHTTPAddr cfg).
Definition quiet_server (srv : RaftServer) : Prop :=
  quiet (srv_ID srv) ∧ quiet (srv_Address srv) ∧ quiet (srv_Suffrage srv).
Definition quiet_status (st : RaftStatus) : Prop :=
  quiet (st_String st) ∧ quiet (TrimSpace (st_LeaderID st)) ∧ quiet (TrimSpace (st_LeaderAddr st)) ∧
  match st_Configuration st with inl servers => Forall quiet_server servers | inr err => quiet err end.
Definition quiet_view (n : NodeView) : Prop :=
  from_option quiet_status True (v_raft n) ∧ from_option quiet_config True (v_cfg n) ∧ quiet (v_httpAddr n) ∧
  quiet (cachedLeaderAddr (v_file n)).

Lemma quiet_app_field name v rest :
  clear_of (lit name) role_master = true → quiet v → Contains (field name v ++ rest) role_master = Contains rest role_master.
Proof. intros Hn Hv. by rewrite Contains_field, Hv. Qed.
(** The parts of a peer are separated by commas. *)
Lemma quiet_comma v name rest :
  quiet v → clear_of (lit name) role_master = true →
  Contains (v ++ (","%char :: lit name) ++ rest) role_master = Contains rest role_master.
Proof.
  intros Hv Hn. cbn [app]. rewrite (Contains_sep ","%char); [|done|by apply (bool_decide_unpack (","%char ∉ role_master))].
  by rewrite Hv, Contains_clear.
Qed.
(** The last letter of [peer] starts the role, but a digit follows. *)
Lemma quiet_peer_number idx rest :
  Contains (lit "peer" ++ FormatInt (Z.of_nat idx) ++ rest) role_master = Contains rest role_master.
Proof.
  assert (∃ c s, FormatInt (Z.of_nat idx) = c :: s ∧ c ≠ "o"%char) as (c & s & E & Hc).
  { unfold FormatInt. destruct (Z.ltb_spec (Z.of_nat idx) 0); [lia|].
    destruct (format_uint_cons (Z.of_nat idx)) as (c & s & -> & Hd); [lia|]. exists c, s. split; [done|]. by intros ->. }
  change (lit "peer" ++ FormatInt (Z.of_nat idx) ++ rest) with (lit "pee" ++ "r"%char :: FormatInt (Z.of_nat idx) ++ rest).
  rewrite (Contains_clear (lit "pee")) by done.
  rewrite Contains_cons, Contains_clear by apply clear_absent, FormatInt_no_r.
  rewrite E. change role_master with ("r"%char :: "o"%char :: lit "le:master") at 1. cbn [app]. rewrite !HasPrefix_cons, (bool_decide_eq_false_2 (c = _)) by done.
  done.
Qed.
Lemma quiet_peer self idx srv rest :
  quiet_server srv → Contains (peer_line self idx srv ++ rest) role_master = Contains rest role_master.
Proof.
  intros (Hid & Haddr & Hs). unfold peer_line. rewrite Contains_line.
  rewrite quiet_peer_number, (Contains_clear (lit ":id=")) by done.
  rewrite (quiet_comma _ "raft_addr="), (quiet_comma _ "suffrage="), (quiet_comma _ "self=") by done.
  by destruct (self _).
Qed.
Lemma quiet_peers self k servers rest :
  Forall quiet_server servers → Contains (concat (imap (λ i, peer_line self (k + i)) servers) ++ rest) role_master = Contains rest role_master.
Proof.
  intros Hq. revert k. induction Hq as [|srv servers Hs _ IH]; intros k; [done|]. rewrite imap_cons. cbn [concat].
  rewrite <- app_assoc, quiet_peer by done. rewrite <- (IH (S k)). do 3 f_equal. apply imap_ext. intros i x _. cbn.
  by rewrite Nat.add_succ_r.
Qed.

(** A part of the report before which and after which the role is looked for. *)
Definition silent (l : bytes) : Prop := ∀ rest, Contains (l ++ rest) role_master = Contains rest role_master.
Lemma silent_nil : silent [].
Proof. done. Qed.
Lemma silent_app a b : silent a → silent b → silent (a ++ b).
Proof. intros Ha Hb rest. by rewrite <- app_assoc, Ha, Hb. Qed.
Lemma silent_field name v : clear_of (lit name) role_master = true → quiet v → silent (field name v).
Proof. intros Hn Hv rest. by apply quiet_app_field. Qed.
Create HintDb report.
#[local] Hint Resolve silent_nil silent_app silent_field quiet_number : report.
#[local] Hint Extern 1 (clear_of _ _ = true) => reflexivity : report.
#[local] Hint Extern 1 (quiet []) => reflexivity : report.

Lemma silent_node_lines cfg : quiet_config cfg → silent (node_lines cfg).
Proof. intros (? & ? & ?). unfold node_lines. repeat case_match; auto with report. Qed.
Lemma silent_raft_lines st : quiet_status st → silent (raft_lines st).
Proof. intros (? & _). unfold raft_lines. auto 10 with report. Qed.
Lemma silent_leader_lines st : quiet_status st → silent (leader_lines st).
Proof. intros (? & ? & ? & _). unfold leader_lines. destruct (_ || _); auto with report. Qed.
Lemma silent_http_lines st cfg addr : quiet_config cfg → quiet addr → silent (http_lines st cfg addr).
Proof. intros (? & ? & ?) ?. unfold http_lines. repeat case_match; auto with report. Qed.
Lemma silent_peer_lines st cfg : quiet_status st → silent (peer_lines st cfg).
Proof.
  intros (_ & _ & _ & Hc). unfold peer_lines. destruct (st_Configuration st) as [servers|err]; auto with report.
  apply silent_app; auto with report. intros rest. by apply (quiet_peers _ 0).
Qed.
Lemma silent_hint_lines st f : quiet (cachedLeaderAddr f) → silent (hint_lines st f).
Proof. intros ?. unfold hint_lines. repeat case_match; auto with report. Qed.

Lemma report_role n st :
  quiet_view n → v_raft n = Some st →
  Contains (collectReplicationInfo (Some n)) role_master = bool_decide (st_State st = Leader).
Proof.
  destruct n as [raft cfg addr f]. intros (Hst & Hcfg & Ha & Hf). cbn [v_raft v_cfg v_httpAddr v_file] in *. intros ->. cbn [from_option] in Hst.
  unfold collectReplicationInfo, head_line. rewrite Contains_line.
  change (Contains (lit "# Replication") role_master) with false. cbn [orb]. unfold field. rewrite Contains_line.
  assert (silent (from_option node_lines [] cfg ++ raft_lines st ++ leader_lines st ++
      from_option (λ cfg, http_lines st cfg addr) [] cfg ++ peer_lines st cfg ++ hint_lines st f)) as Hs.
  { destruct cfg as [cfg|]; cbn [from_option] in *;
      auto 10 using silent_node_lines, silent_raft_lines, silent_leader_lines, silent_http_lines, silent_peer_lines,
        silent_hint_lines with report. }
  specialize (Hs []). rewrite app_nil_r in Hs. rewrite Hs. by destruct (st_State st).
Qed.

(** A standalone node always reports the role. *)
Lemma local_role cfg : Contains (localNode_replication cfg) role_master = true.
Proof.
  unfold localNode_replication, head_line, field. rewrite !Contains_line.
  change (Contains (lit "role:master" ++ []) role_master) with true. apply orb_true_r.
Qed.

(** The report starts with its title, so INFO passes it on unchanged. *)
Lemma report_title n : ∃ rest, collectReplicationInfo n = lit "# Replication" ++ rest.
Proof. destruct n as [[[st|] cfg addr f]|]; cbn [collectReplicationInfo]; unfold head_line, line; rewrite <- app_assoc; eauto. Qed.
Lemma report_text n :
  replication_text (Some (Some (Some (collectReplicationInfo n)))) = collectReplicationInfo n.
Proof.
  destruct (report_title n) as [rest ->]. set (t := lit "# Replication" ++ rest). unfold replication_text.
  change (str (Some t)) with t.
  assert (beq (TrimSpace t) [] = false) as -> by (apply bool_decide_eq_false_2; by apply (TrimSpace_ne "#"%char)).
  assert (TrimLeft t [CR; LF; "009"%char; " "%char] = t) as ->.
  { apply (TrimLeft_keep "#"%char). by apply (bool_decide_unpack ("#"%char ∉ [CR; LF; "009"%char; " "%char])). }
  unfold t. by rewrite HasPrefix_app.
Qed.

(** ** INFO replication, from the table of commands to the connection *)
Section info_reply.
Context `{Host} {S : Type} `{!Store S}.

Definition info_request : list slice := [Some (lit "INFO"); Some (lit "replication")].

Lemma CmdTable_info : CmdTable (S := S) !! lit "info" = Some (replies info).
Proof.
  unfold CmdTable, RegisterInfoCommands. cbn [foldr]. unfold RegisterCommand.
  do 3 rewrite lookup_insert_ne by done. apply lookup_insert_eq.
Qed.
Lemma ExecCommand_registered t c args (e : executor (S := S)) :
  t !! ToLower (str c) = Some e → ExecCommand t (c :: args) = e (c :: args).
Proof. intros E. unfold ExecCommand. cbv zeta. unfold executor in *. by rewrite E. Qed.
Lemma info_replication fetch (s s' : S) i :
  replicationFetcher process = Some fetch → tick s = (Ret i, s') →
  ExecCommand CmdTable info_request s = (Ret (Some (MakeBulkData (Some (replication_text (Some (fetch i)))))), s').
Proof.
  intros Hf Ht. rewrite (ExecCommand_registered CmdTable (Some (lit "INFO")) _ _ CmdTable_info : _ info_request = _).
  unfold replies. rewrite (bind_Ret _ _ s (MakeBulkData (Some (replication_text (Some (fetch i))))) s'); [done|].
  unfold info. change (zlen _ =? 0) with false. cbv iota. rewrite (bind_Ret _ _ s (lit "INFO") s) by done.
  change (negb (beq (ToLower (lit "INFO")) (lit "info"))) with false. change (2 <? zlen _) with false. cbv iota.
  rewrite (bind_Ret _ _ s (lit "replication") s) by done. change (beq (lit "replication") []) with false.
  change (beq (lit "replication") (lit "replication")) with true. cbv iota.
  rewrite (bind_Ret _ _ s (replication_text (Some (fetch i))) s'); [done|].
  unfold formatReplicationSection. rewrite Hf. by rewrite (bind_Ret _ _ s i s').
Qed.
End info_reply.
