(* ===== verification/Proxy.v ===== *)
(** * The proxy

    [src/pkg/proxy/proxy.go] and [sanitizeNodeList] of [src/cmd/proxy_cmd.go]: a
    proxy asks its targets for [INFO replication], takes the one that says it is the
    master and copies bytes between a client and that node.

    The network is a parameter: what a target sends after a probe, or the error of
    reaching it.  A client's goroutine is the sequence of its rounds; between and
    during rounds other clients may change the leader the proxy remembers. *)

From Stdlib Require Import Ascii String ZArith Lia.
From stdpp Require Import prelude gmap list fin_maps.
From S2P Require Import Prelude Text Config RESP Util CMap Heap TTL Locks ListStruct ListOps SetStruct HashStruct ZSetStruct Store World Model.
From S2P Require Import Info Refine Server Cluster Join Report.
Open Scope Z_scope.
#[local] Arguments CmdTable : simpl never.

(** ** The targets *)
(** One target of the loop; [seen] are the targets so far. *)
Fixpoint sanitize_loop (raw : list bytes) (seen : gset bytes) : list bytes :=
  match raw with
  | [] => []
  | t :: raw =>
      let clean := TrimSpace t in
      if beq clean [] then sanitize_loop raw seen
      else if bool_decide (clean ∈ seen) then sanitize_loop raw seen
      else clean :: sanitize_loop raw ({[ clean ]} ∪ seen)
  end.
Definition sanitizeTargets (raw : list bytes) : list bytes := sanitize_loop raw ∅.

(** [strings.Split(raw, ",")] *)
Fixpoint split_comma (s cur : bytes) : list bytes :=
  match s with
  | [] => [cur]
  | c :: s => if bool_decide (c = ","%char) then cur :: split_comma s [] else split_comma s (cur ++ [c])
  end.
Definition sanitizeNodeList (addrs : list bytes) : list bytes :=
  sanitize_loop (flat_map (λ raw, split_comma raw []) addrs) ∅.

(** ** The state *)
Record Proxy := mkProxy {
  ListenAddr : bytes;
  Targets : list bytes;
  DialTimeout : Z;
  RetryInterval : Z;
  currentLeader : bytes;
  targets : list bytes;
}.
Definition set_current (x : bytes) (p : Proxy) : Proxy :=
  mkProxy (ListenAddr p) (Targets p) (DialTimeout p) (RetryInterval p) x (targets p).

Definition setCurrentLeader (addr : bytes) (p : Proxy) : Proxy := set_current addr p.
Definition getCurrentLeader (p : Proxy) : bytes := currentLeader p.
Definition clearCurrentLeader (addr : bytes) (p : Proxy) : Proxy :=
  if beq (currentLeader p) addr then set_current [] p else p.

Definition normalize (p : Proxy) : Proxy :=
  mkProxy (ListenAddr p) (Targets p)
    (if DialTimeout p <=? 0 then 2 * Second else DialTimeout p)
    (if RetryInterval p <=? 0 then 500 * Millisecond else RetryInterval p) (currentLeader p) (targets p).

(** What [Run] does before it listens: the proxy it serves with, or an error. *)
Definition Run_setup (p : Proxy) : Proxy + bytes :=
  if beq (ListenAddr p) [] then inr (lit "proxy listen address must be set")
  else
    let p := mkProxy (ListenAddr p) (Targets p) (DialTimeout p) (RetryInterval p) (currentLeader p)
               (sanitizeTargets (Targets p)) in
    match targets p with
    | [] => inr (lit "proxy targets must be provided")
    | _ => inl (normalize p)
    end.

(** The proxy command: the targets of the flags, checked before [Run]. *)
Definition proxyCmd_setup (listen : bytes) (nodes : list bytes) (dial retry : Z) : Proxy + bytes :=
  match sanitizeNodeList nodes with
  | [] => inr (lit "at least one --nodes address must be provided (comma separated or repeated)")
  | targets => Run_setup (mkProxy listen targets dial retry [] [])
  end.

(** ** Probing *)
Definition infoReplicationCommand : bytes := ToBytes (MakeArrayData (Some (MakeBulkData <$> info_request))).

Inductive probe_error := errNotLeader | errOther (msg : bytes).

(** What a probe meets: an error before an answer (dialling, the deadline, writing,
    or the cancelled context), or the bytes of the answer until the target closes
    or, with the text of its error, the deadline passes. *)
Inductive reaction := Refused (err : bytes) | Answered (stream : bytes) (deadline : option bytes).

Section probe.
Context `{Host}.

(** The first result of the parser.  When the parser panics before a result, or after the
    first one and before it has a second, its goroutine ends the process. *)
Definition probeTarget (addr : bytes) (r : reaction) : outcome (bytes + probe_error) :=
  match r with
  | Refused err => Ret (inr (errOther err))
  | Answered stream deadline =>
      match ParseStream deadline stream with
      | None => Blocks
      | Some ([], Ret _) => Ret (inr (errOther (lit "no response from target")))
      | Some ([], _) | Some ([_], Panics) => Fatals
      | Some (res :: _, _) =>
          match Err res with
          | Some e => Ret (inr (errOther (error_text e)))
          | None =>
              match Data res with
              | Some (BulkData b) =>
                  let payload := str b in
                  Ret (if Contains payload (lit "role:master") then inl addr else inr errNotLeader)
              | _ => Ret (inr (errOther (lit "unexpected response type from target")))
              end
          end
      end
  end.

(** What happens while one call of [discoverLeader] runs: the reaction to each of its
    probes (the first is that of the current leader), and the error of the context
    before a target of the loop is probed. *)
Record weather := mkWeather { reacts : nat → bytes → reaction; ctx_Err : nat → option bytes }.

Fixpoint discover_loop (w : weather) (i : nat) (ts : list bytes) (lastErr : option bytes) (p : Proxy)
    : outcome (bytes + bytes) * Proxy :=
  match ts with
  | [] => (Ret (inr (default (lit "no leader discovered") lastErr)), p)
  | target :: ts =>
      match ctx_Err w i with
      | Some err => (Ret (inr err), p)
      | None =>
          match probeTarget target (reacts w i target) with
          | Ret (inl leader) => (Ret (inl leader), setCurrentLeader leader p)
          | Ret (inr errNotLeader) => discover_loop w (S i) ts lastErr p
          | Ret (inr (errOther err)) => discover_loop w (S i) ts (Some err) p
          | Panics => (Panics, p)
          | Fatals => (Fatals, p)
          | Blocks => (Blocks, p)
          end
      end
  end.

Definition discoverLeader (w : weather) : M Proxy (bytes + bytes) := λ p,
  let current := getCurrentLeader p in
  if beq current [] then discover_loop w 1 (targets p) None p
  else
    match probeTarget current (reacts w 0 current) with
    | Ret (inl leader) => (Ret (inl leader), p)
    | Ret (inr _) => discover_loop w 1 (targets p) None p
    | Panics => (Panics, p)
    | Fatals => (Fatals, p)
    | Blocks => (Blocks, p)
    end.

(** ** One client *)
(** What [pipeConnections] selects: the error of the cancelled context, or the end of
    one of the two copies, with its error if any ([io.EOF] counts as none). *)
Inductive piped := PipeCancelled (err : bytes) | PipeEnded (fromClient : bool) (err : option bytes).
Inductive pipe_error := errClientClose | pipeErr (msg : bytes).

Definition pipeConnections (ev : piped) : option pipe_error :=
  match ev with
  | PipeCancelled err => Some (pipeErr err)
  | PipeEnded fromClient None => if fromClient then Some errClientClose else None
  | PipeEnded true (Some _) => Some errClientClose
  | PipeEnded false (Some err) => Some (pipeErr err)
  end.

(** What one round of the loop of [handleClient] meets: the context before it, what
    other clients did to the current leader before and during it, the probes, the
    error of dialling, how the copying ends, and whether the wait after a failure
    runs to its end. *)
Record round := mkRound {
  r_done : bool;
  r_before : bytes → bytes;
  r_weather : weather;
  r_during : bytes → bytes;
  r_dial : option bytes;
  r_piped : piped;
  r_waited : bool;
}.

(** The end of a round: the client is closed, or the loop goes on; with the leader
    the client was connected to, if any. *)
Inductive next := Close | Again.
Definition after_wait (r : round) : next := if r_waited r then Again else Close.
Definition interfere (f : bytes → bytes) (p : Proxy) : Proxy := set_current (f (currentLeader p)) p.

Definition handle_round (r : round) : M Proxy (next * option bytes) :=
  if r_done r then mret (Close, None)
  else λ p,
    match discoverLeader (r_weather r) (interfere (r_before r) p) with
    | (Ret (inr _), p) => (Ret (after_wait r, None), p)
    | (Ret (inl leader), p) =>
        let p := interfere (r_during r) p in
        match r_dial r with
        | Some _ => (Ret (after_wait r, None), clearCurrentLeader leader p)
        | None =>
            match pipeConnections (r_piped r) with
            | None | Some errClientClose => (Ret (Close, Some leader), p)
            | Some (pipeErr _) => (Ret (after_wait r, Some leader), clearCurrentLeader leader p)
            end
        end
    | (Panics, p) => (Panics, p)
    | (Fatals, p) => (Fatals, p)
    | (Blocks, p) => (Blocks, p)
    end.

(** [handleClient] over the rounds it meets: whether it returned, and for each round the
    leader the client was connected to, if any. *)
Fixpoint handleClient (rs : list round) : M Proxy (bool * list (option bytes)) :=
  match rs with
  | [] => mret (false, [])
  | r :: rs =>
      res ← handle_round r;
      match res.1 with
      | Close => mret (true, [res.2])
      | Again => rest ← handleClient rs; mret (rest.1, res.2 :: rest.2)
      end
  end.
End probe.

(** ** The targets are distinct, trimmed and complete *)
Lemma sanitize_elem raw seen t :
  t ∈ sanitize_loop raw seen ↔ t ≠ [] ∧ (t ∉ seen) ∧ ∃ r, r ∈ raw ∧ t = TrimSpace r.
Proof.
  revert seen. induction raw as [|r raw IH]; intros seen; cbn [sanitize_loop].
  { rewrite elem_of_nil. split; [done|]. intros (_ & _ & r & Hr & _). by apply elem_of_nil in Hr. }
  unfold beq. case_bool_decide as Hr; [|case_bool_decide as Hs]; rewrite ?elem_of_cons, IH; setoid_rewrite elem_of_cons.
  - split; [naive_solver|]. intros (Ht & Hs & r' & [->|Hin] & E); [congruence|eauto].
  - split; [naive_solver|]. intros (Ht & Hn & r' & [->|Hin] & E); [congruence|eauto 6].
  - rewrite elem_of_union, elem_of_singleton. split; [naive_solver|].
    intros (Ht & Hn & r' & [->|Hin] & E); [by left|]. destruct (decide (t = TrimSpace r)); [by left|right]. naive_solver.
Qed.
Lemma sanitize_NoDup raw seen : NoDup (sanitize_loop raw seen).
Proof.
  revert seen. induction raw as [|r raw IH]; intros seen; cbn [sanitize_loop]; [constructor|].
  destruct (beq _ _); [apply IH|]. case_bool_decide; [apply IH|]. apply NoDup_cons. split; [|apply IH].
  rewrite sanitize_elem. intros (_ & Hn & _). apply Hn, elem_of_union. left. by apply elem_of_singleton.
Qed.

(** ** Discovery *)
Section discover.
Context `{Host}.

Lemma probe_own addr r a : probeTarget addr r = Ret (inl a) → a = addr.
Proof.
  destruct r as [err|stream deadline]; [done|]. unfold probeTarget. repeat case_match; try done. all: by intros [= <-].
Qed.

(** The target [a] says it is the leader, at the probe [i]. *)
Definition says (w : weather) (i : nat) (a : bytes) : Prop := probeTarget a (reacts w i a) = Ret (inl a).
(** Every probe comes back, and the context is never cancelled. *)
Definition calm (w : weather) : Prop :=
  (∀ i, ctx_Err w i = None) ∧ ∀ i a, ∃ r, probeTarget a (reacts w i a) = Ret r.

Lemma discover_loop_spec w i ts lastErr p :
  calm w →
  match discover_loop w i ts lastErr p with
  | (Ret (inl leader), p') =>
      p' = set_current leader p ∧
      ∃ k, ts !! k = Some leader ∧ says w (i + k) leader ∧ ∀ j t, (j < k)%nat → ts !! j = Some t → ¬ says w (i + j) t
  | (Ret (inr _), p') => p' = p ∧ ∀ k t, ts !! k = Some t → ¬ says w (i + k) t
  | _ => False
  end.
Proof.
  intros [Hc Hp]. revert i lastErr. induction ts as [|t ts IH]; intros i lastErr; cbn [discover_loop]; [done|]. rewrite Hc.
  assert (∀ lastErr', ¬ says w i t →
    match discover_loop w (S i) ts lastErr' p with
    | (Ret (inl leader), p') =>
        p' = set_current leader p ∧ ∃ k, (t :: ts) !! k = Some leader ∧ says w (i + k) leader ∧
          ∀ j t', (j < k)%nat → (t :: ts) !! j = Some t' → ¬ says w (i + j) t'
    | (Ret (inr _), p') => p' = p ∧ ∀ k t', (t :: ts) !! k = Some t' → ¬ says w (i + k) t'
    | _ => False
    end) as Hnext.
  { intros le Ht. specialize (IH (S i) le). destruct (discover_loop w (S i) ts le p) as [[[leader|err]| | |] p']; try done.
    - destruct IH as (-> & k & Hk & Hs & Hb). split; [done|]. exists (S k). rewrite Nat.add_succ_r. split_and!; [done..|].
      intros [|j] t' Hj; cbn [lookup list_lookup].
      + intros [= <-]. by rewrite Nat.add_0_r.
      + rewrite Nat.add_succ_r. apply Hb. lia.
    - destruct IH as [-> Hb]. split; [done|]. intros [|k] t'; cbn [lookup list_lookup].
      + intros [= <-]. by rewrite Nat.add_0_r.
      + rewrite Nat.add_succ_r. apply Hb. }
  destruct (Hp i t) as [[a|[|err]] E]; rewrite E.
  - pose proof (probe_own _ _ _ E) as ->. split; [done|]. exists 0%nat. rewrite Nat.add_0_r. split_and!; [done..|]. intros j t' Hj. lia.
  - apply Hnext. unfold says. by rewrite E.
  - apply Hnext. unfold says. by rewrite E.
Qed.

Lemma set_current_id p : set_current (currentLeader p) p = p.
Proof. by destruct p. Qed.

(** What a discovery that is not disturbed finds. *)
Lemma discoverLeader_spec w p :
  calm w →
  match discoverLeader w p with
  | (Ret (inl leader), p') =>
      p' = set_current leader p ∧
      ((leader = currentLeader p ∧ says w 0 leader) ∨ ∃ k, targets p !! k = Some leader ∧ says w (S k) leader)
  | (Ret (inr _), p') => p' = p ∧ ∀ k t, targets p !! k = Some t → ¬ says w (S k) t
  | _ => False
  end.
Proof.
  intros Hw. pose proof (discover_loop_spec w 1 (targets p) None p Hw) as Hl.
  assert (match discover_loop w 1 (targets p) None p with
    | (Ret (inl leader), p') =>
        p' = set_current leader p ∧
        ((leader = currentLeader p ∧ says w 0 leader) ∨ ∃ k, targets p !! k = Some leader ∧ says w (S k) leader)
    | (Ret (inr _), p') => p' = p ∧ ∀ k t, targets p !! k = Some t → ¬ says w (S k) t
    | _ => False end) as Hl'.
  { destruct (discover_loop w 1 _ _ p) as [[[leader|err]| | |] p']; try done. destruct Hl as (-> & k & Hk & Hs & _). eauto 7. }
  unfold discoverLeader, getCurrentLeader. destruct (beq (currentLeader p) []); [done|].
  destruct (proj2 Hw 0%nat (currentLeader p)) as [[a|e] E]; rewrite E; [|done].
  pose proof (probe_own _ _ _ E) as ->. rewrite set_current_id. eauto.
Qed.
End discover.

(** ** Clients are only connected to targets *)
Section client.
Context `{Host}.

(** The discovery asked [leader] itself, and it said that it was the leader: as the
    remembered leader, or at its place among the targets. *)
Definition found (w : weather) (ts : list bytes) (leader : bytes) : Prop :=
  says w 0 leader ∨ ∃ k, ts !! k = Some leader ∧ says w (S k) leader.
Lemma discover_loop_sound w i ts lastErr p o p' :
  discover_loop w i ts lastErr p = (o, p') →
  match o with
  | Ret (inl leader) => p' = set_current leader p ∧ ∃ k, ts !! k = Some leader ∧ says w (i + k) leader
  | _ => p' = p
  end.
Proof.
  revert i lastErr. induction ts as [|t ts IH]; intros i lastErr; cbn [discover_loop]; [by intros [= <- <-]|].
  destruct (ctx_Err w i); [by intros [= <- <-]|].
  assert (∀ lastErr', discover_loop w (S i) ts lastErr' p = (o, p') →
    match o with
    | Ret (inl leader) => p' = set_current leader p ∧ ∃ k, (t :: ts) !! k = Some leader ∧ says w (i + k) leader
    | _ => p' = p
    end) as Hnext.
  { intros le Hl%IH. destruct o as [[leader|?]| | |]; try done. destruct Hl as (? & k & ? & ?). split; [done|].
    exists (S k). by rewrite Nat.add_succ_r. }
  destruct (probeTarget t (reacts w i t)) as [[a|[|err]]| | |] eqn:E; try by intros [= <- <-].
  - pose proof (probe_own _ _ _ E) as ->. intros [= <- <-]. split; [done|]. exists 0%nat. by rewrite Nat.add_0_r.
  - apply Hnext.
  - apply Hnext.
Qed.
Lemma discoverLeader_sound w p o p' :
  discoverLeader w p = (o, p') →
  match o with
  | Ret (inl leader) =>
      p' = set_current leader p ∧ (leader = currentLeader p ∧ currentLeader p ≠ [] ∨ leader ∈ targets p) ∧ found w (targets p) leader
  | _ => p' = p
  end.
Proof.
  assert (∀ o p', discover_loop w 1 (targets p) None p = (o, p') →
    match o with
    | Ret (inl leader) =>
        p' = set_current leader p ∧ (leader = currentLeader p ∧ currentLeader p ≠ [] ∨ leader ∈ targets p) ∧ found w (targets p) leader
    | _ => p' = p
    end) as Hloop.
  { intros o1 p1 Hl%discover_loop_sound. destruct o1 as [[leader|?]| | |]; try done. destruct Hl as (? & k & Hk & Hs).
    split; [done|]. split; [right; by eapply list_elem_of_lookup_2|]. right. eauto. }
  unfold discoverLeader, getCurrentLeader. unfold beq. case_bool_decide as Hc; [apply Hloop|].
  destruct (probeTarget (currentLeader p) _) as [[a|e]| | |] eqn:E; try by intros [= <- <-].
  - pose proof (probe_own _ _ _ E) as ->. intros [= <- <-]. rewrite set_current_id. split; [done|]. split; [by left|]. by left.
  - apply Hloop.
Qed.

(** The leader the proxy remembers is one of its targets. *)
Definition remembers (p : Proxy) : Prop := currentLeader p = [] ∨ currentLeader p ∈ targets p.
(** Other clients keep it so. *)
Definition polite (ts : list bytes) (f : bytes → bytes) : Prop :=
  ∀ a, a = [] ∨ a ∈ ts → f a = [] ∨ f a ∈ ts.
Definition polite_round (ts : list bytes) (r : round) : Prop := polite ts (r_before r) ∧ polite ts (r_during r).

Lemma clear_remembers a p : remembers p → remembers (clearCurrentLeader a p).
Proof. intros Hp. unfold clearCurrentLeader. destruct (beq _ _); [by left|done]. Qed.
Lemma clear_targets a p : targets (clearCurrentLeader a p) = targets p.
Proof. unfold clearCurrentLeader. by destruct (beq _ _). Qed.

Lemma handle_round_safe r p o p' :
  polite_round (targets p) r → remembers p → handle_round r p = (o, p') →
  remembers p' ∧ targets p' = targets p ∧
  ∀ n leader, o = Ret (n, Some leader) → leader ∈ targets p ∧ found (r_weather r) (targets p) leader.
Proof.
  intros [Hb Hd] Hp. unfold handle_round. destruct (r_done r); [by intros [= <- <-]|].
  destruct (discoverLeader _ _) as [o1 p1] eqn:E. apply discoverLeader_sound in E.
  assert (remembers (interfere (r_before r) p)) as Hp0 by (apply Hb, Hp).
  destruct o1 as [[leader|err]| | |]; [|by subst p1; intros [= <- <-]..].
  destruct E as (-> & Hin & Hs).
  assert (leader ∈ targets p) as Hl by (destruct Hin as [[-> Hne]|?]; [by destruct Hp0|done]).
  set (p2 := interfere (r_during r) _). assert (remembers p2) as Hp2 by (apply Hd; by right).
  assert (targets p2 = targets p) as Ht by done. clearbody p2.
  destruct (r_dial r) as [err|].
  { intros [= <- <-]. split; [by apply clear_remembers|]. split; [by rewrite clear_targets|done]. }
  destruct (pipeConnections (r_piped r)) as [[|msg]|]; intros [= <- <-].
  - split_and!; [done..|]. intros n l [= <- <-]. done.
  - split; [by apply clear_remembers|]. split; [by rewrite clear_targets|]. intros n l [= <- <-]. done.
  - split_and!; [done..|]. intros n l [= <- <-]. done.
Qed.

(** C19: Whatever the network does and whatever other clients do to the leader the
    proxy remembers, in each round a client is only ever connected to a configured target
    that was asked in that very round, as the remembered leader or at its place among the
    targets, and answered with [role:master]; and the leader the proxy remembers stays one
    of its targets. *)
Theorem handleClient_safe rs p :
  Forall (polite_round (targets p)) rs → remembers p →
  match handleClient rs p with
  | (Ret (_, out), p') =>
      remembers p' ∧ targets p' = targets p ∧
      ∀ i leader, out !! i = Some (Some leader) →
        leader ∈ targets p ∧ ∃ r, rs !! i = Some r ∧ found (r_weather r) (targets p) leader
  | (_, p') => remembers p' ∧ targets p' = targets p
  end.
Proof.
  intros Hrs. revert p Hrs. induction rs as [|r rs IH]; intros p Hrs Hp; cbn [handleClient]; [done|].
  apply Forall_cons in Hrs as [Hr Hrs]. unfold mbind, M_bind. destruct (handle_round r p) as [o p1] eqn:E.
  apply handle_round_safe in E as (Hp1 & Ht1 & Hs1); [|done..].
  destruct o as [[n conn]| | |]; [|done..].
  destruct n; cbn [fst snd].
  { split_and!; [done..|]. intros [|i] leader; [|done]. intros [= ->].
    destruct (Hs1 _ leader eq_refl). split; [done|]. by exists r. }
  rewrite <- Ht1 in Hrs. specialize (IH p1 Hrs Hp1).
  destruct (handleClient rs p1) as [[[fin out]| | |] p2]; cbn; rewrite ?Ht1 in IH; try done.
  destruct IH as (? & ? & IH). split_and!; [done..|]. intros [|i] leader; cbn.
  - intros [= ->]. destruct (Hs1 _ leader eq_refl). split; [done|]. by exists r.
  - apply IH.
Qed.
End client.

(** ** The proxy in front of running nodes *)
Section node.
Context `{Host} {R : Type} `{!Raft R} {S : Type} `{!Store S}.

Lemma info_request_ok : wire_ok (MakeArrayData (Some (MakeBulkData <$> info_request))).
Proof. split; [repeat constructor; vm_compute; discriminate|vm_compute; discriminate]. Qed.

Lemma node_exec_info fetch (n : Node R S) i s' :
  replicationFetcher process = Some fetch → tick (n_db n) = (Ret i, s') →
  exec_command clusterNode info_request n =
    (Ret (ToBytes (MakeBulkData (Some (replication_text (Some (fetch i)))))), mkNode (n_raft n) s').
Proof.
  intros Hf Ht. unfold exec_command. change (IsWriteCommand info_request) with false. cbv iota. cbn [ReadCommand clusterNode].
  rewrite (bind_Ret _ _ n (inl (ToBytes (MakeBulkData (Some (replication_text (Some (fetch i))))))) (mkNode (n_raft n) s'));
    [done|]. unfold Node_ReadCommand. change (is_info info_request) with true. cbn [negb andb].
  by rewrite (info_replication fetch _ s' i).
Qed.

(** Any node, the leader or not, answers the probe with its report. *)
Lemma node_answers fetch (n : Node R S) i s' :
  replicationFetcher process = Some fetch → tick (n_db n) = (Ret i, s') →
  Handle clusterNode (λ _, WriteOk) None infoReplicationCommand n =
    (Ret ([ToBytes (MakeBulkData (Some (replication_text (Some (fetch i)))))], ends_with None), mkNode (n_raft n) s').
Proof.
  intros Hf Ht. unfold infoReplicationCommand. rewrite <- (app_nil_r (ToBytes _)).
  apply (Handle_session clusterNode [MakeArrayData (Some (MakeBulkData <$> info_request))]);
    [by constructor; [apply info_request_ok|]|].
  change (commands_of _) with [info_request]. unfold exec_all. cbn [mfold].
  erewrite bind_Ret; [reflexivity|]. erewrite bind_Ret; [reflexivity|]. by apply node_exec_info.
Qed.
End node.

Lemma probe_bulk `{Host} addr b :
  zlen b + 2 <= maxAlloc →
  probeTarget addr (Answered (ToBytes (MakeBulkData (Some b))) None) =
    Ret (if Contains b role_master then inl addr else inr errNotLeader).
Proof.
  intros Hb. unfold probeTarget, ParseStream. rewrite <- (app_nil_r (ToBytes _)), (parse_value None (BulkData (Some b))) by done. done.
Qed.

(** A member of the cluster at some moment: its machine, its node and what its report
    reads. *)
Record member (R S : Type) := mkMember { mb_host : Host; mb_node : Node R S; mb_view : NodeView; mb_status : RaftStatus }.
Arguments mkMember {R S}.
Arguments mb_host {R S}.
Arguments mb_node {R S}.
Arguments mb_view {R S}.
Arguments mb_status {R S}.

Section cluster.
Context {R : Type} `{!Raft R} {S : Type} `{!Store S}.

Definition report (m : member R S) : bytes := collectReplicationInfo (Some (mb_view m)).
(** Raft runs, the node has installed its callback ([NewNode]), no name in the report
    spells the role, and the report is small enough to be read. *)
Record member_ok (m : member R S) : Prop := {
  mo_raft : v_raft (mb_view m) = Some (mb_status m);
  mo_fetch : replicationFetcher (@process (mb_host m)) = Some (λ _, Some (Some (report m)));
  mo_quiet : quiet_view (mb_view m);
  mo_small : zlen (report m) + 2 <= maxAlloc;
  mo_tick : ∃ i s', tick (n_db (mb_node m)) = (Ret i, s');
}.

(** The bytes a member sends back on the connection of a probe. *)
Definition member_answer (m : member R S) : reaction :=
  match @Handle (mb_host m) _ (@clusterNode (mb_host m) R _ S _) (λ _, WriteOk) None infoReplicationCommand (mb_node m) with
  | (Ret (written, _), _) => Answered (concat written) None
  | _ => Refused (lit "EOF")
  end.
(** A network where the members answer and nothing else does. *)
Definition network (members : bytes → option (member R S)) : weather :=
  mkWeather (λ _ a, match members a with Some m => member_answer m | None => Refused (lit "connection refused") end) (λ _, None).

Lemma member_probe `{Host} m a :
  member_ok m →
  probeTarget a (member_answer m) = Ret (if bool_decide (st_State (mb_status m) = Leader) then inl a else inr errNotLeader).
Proof.
  intros [Hr Hf Hq Hs (i & s' & Ht)]. unfold member_answer.
  rewrite (@node_answers (mb_host m) R _ S _ _ _ i s' Hf Ht). unfold report in *.
  rewrite report_text. cbn [concat]. rewrite app_nil_r, probe_bulk by done. by rewrite (report_role _ _ Hq Hr).
Qed.
Lemma network_calm `{Host} members : (∀ a m, members a = Some m → member_ok m) → calm (network members).
Proof.
  intros Hm. split; [done|]. intros i a. cbn. destruct (members a) as [m|] eqn:E; [|by eexists].
  rewrite (member_probe m a) by (by eapply Hm). by eexists.
Qed.
Lemma network_says `{Host} members i a :
  (∀ a m, members a = Some m → member_ok m) →
  says (network members) i a ↔ ∃ m, members a = Some m ∧ st_State (mb_status m) = Leader.
Proof.
  intros Hm. unfold says. cbn. destruct (members a) as [m|] eqn:E; [|naive_solver].
  rewrite (member_probe m a) by (by eapply Hm). case_bool_decide; naive_solver.
Qed.

(** C18: The proxy finds the leader.  Its targets are nodes that run the connection
    handler, the commands and the replication report of this program, or are down.
    No name, address or hint in the report of a node spells [role:master], which the
    proxy searches for anywhere in it (otherwise it is fooled: [Probe_is_fooled]).
    Then, if discovery names an address, the node there is the Raft leader and the proxy
    remembers it; if it names none, no target is the leader. *)
Theorem Proxy_finds_leader `{Host} members p :
  (∀ a m, members a = Some m → member_ok m) →
  match discoverLeader (network members) p with
  | (Ret (inl leader), p') =>
      currentLeader p' = leader ∧ ∃ m, members leader = Some m ∧ st_State (mb_status m) = Leader
  | (Ret (inr _), p') =>
      p' = p ∧ ∀ a m, a ∈ targets p → members a = Some m → st_State (mb_status m) ≠ Leader
  | _ => False
  end.
Proof.
  intros Hm. pose proof (discoverLeader_spec (network members) p (network_calm members Hm)) as Hd.
  destruct (discoverLeader (network members) p) as [[[leader|err]| | |] p']; try done.
  - destruct Hd as [-> Hs]. split; [done|]. destruct Hs as [[_ Hs]|(k & _ & Hs)]; by apply network_says in Hs.
  - destruct Hd as [-> Hs]. split; [done|]. intros a m [k Hk]%list_elem_of_lookup Ha Hl.
    apply (Hs k a Hk). apply network_says; eauto.
Qed.
End cluster.

(** ** A concrete cluster *)
(** The demonstration machine with the callback of a node. *)
Definition reporting (v : NodeView) : Host :=
  let h := demo_host in {|
    murmur3_Sum64WithSeed := @murmur3_Sum64WithSeed h;
    unicode_ToLower := @unicode_ToLower h; unicode_ToUpper := @unicode_ToUpper h; unicode_Title := @unicode_Title h;
    unix_now := @unix_now h; range_order := @range_order h; rand_Intn := @rand_Intn h; rand_Float64 := @rand_Float64 h;
    ParseFloat := @ParseFloat h; FormatFloat := @FormatFloat h; Sprintf_v := @Sprintf_v h; Quote := @Quote h;
    filepath_Match := @filepath_Match h;
    process := mkProcess (lit "linux") (lit "amd64") (lit "go1.24") 1 None
      (Some (λ _, Some (Some (collectReplicationInfo (Some v))))) |}.

Definition demo_servers : list RaftServer :=
  [mkServer (lit "n1") (lit "10.0.0.1:7000") (lit "Voter"); mkServer (lit "n2") (lit "10.0.0.2:7000") (lit "Voter")].
Definition demo_status (s : RaftState) (name : string) (id : Z) : RaftStatus :=
  mkStatus s (lit name) id 3 17 17 17 (lit "10.0.0.2:7000") (lit "n2") (inl demo_servers).
Definition demo_member (id : string) (st : RaftStatus) : member DemoRaft Model :=
  let v := mkView (Some st) (Some (set_NodeID (lit id) NewDefaultConfig)) [] (mkFile None Written) in
  mkMember (reporting v) fresh_node v st.
Definition demo_members (a : bytes) : option (member DemoRaft Model) :=
  if beq a (lit "a:1") then Some (demo_member "n1" (demo_status Follower "Follower" 0))
  else if beq a (lit "b:2") then Some (demo_member "n2" (demo_status Leader "Leader" 2)) else None.
Definition demo_proxy : Proxy := mkProxy (lit "127.0.0.1:7390") [] (2 * Second) Second (lit "a:1") [lit "c:3"; lit "a:1"; lit "b:2"].

Lemma demo_members_ok a m : demo_members a = Some m → member_ok m.
Proof.
  unfold demo_members. destruct (beq a (lit "a:1")); [|destruct (beq a (lit "b:2")); [|done]]; intros [= <-].
  all: split; [done|done| |vm_compute; discriminate|by eexists _, _].
  all: repeat match goal with |- _ ∧ _ => split end; try (vm_compute; reflexivity).
  all: repeat constructor; vm_compute; reflexivity.
Qed.

#[local] Existing Instance demo_host.
Lemma Proxy_finds_leader_witness :
  (discoverLeader (network demo_members) demo_proxy).1 = Ret (inl (lit "b:2")) ∧
  ∃ m, demo_members (lit "b:2") = Some m ∧ st_State (mb_status m) = Leader.
Proof.
  pose proof (Proxy_finds_leader demo_members demo_proxy demo_members_ok) as Hd.
  assert ((discoverLeader (network demo_members) demo_proxy).1 = Ret (inl (lit "b:2"))) as E by (vm_compute; reflexivity).
  split; [exact E|]. destruct (discoverLeader (network demo_members) demo_proxy) as [o p']. cbn [fst] in E. rewrite E in Hd. apply Hd.
Defined.

(** A round that fails to reach the leader it found, then one that copies until the
    client leaves. *)
Definition demo_round (dial : option bytes) (ev : piped) : round :=
  mkRound false (λ a, a) (network demo_members) (λ a, a) dial ev true.
Definition demo_rounds : list round :=
  [demo_round (Some (lit "i/o timeout")) (PipeEnded true None); demo_round None (PipeEnded false (Some (lit "reset")));
   demo_round None (PipeEnded true None)].
Lemma handleClient_safe_witness :
  (handleClient demo_rounds demo_proxy).1 = Ret (true, [None; Some (lit "b:2"); Some (lit "b:2")]) ∧ remembers (handleClient demo_rounds demo_proxy).2.
Proof.
  split; [vm_compute; reflexivity|].
  assert (Forall (polite_round (targets demo_proxy)) demo_rounds) as Hp.
  { apply Forall_forall. intros r Hr. unfold demo_rounds in Hr. rewrite !elem_of_cons, elem_of_nil in Hr.
    destruct Hr as [->|[->|[->|[]]]]; split; intros a Ha; exact Ha. }
  assert (remembers demo_proxy) as Hr by (right; apply (bool_decide_unpack _); vm_compute; exact I).
  pose proof (handleClient_safe demo_rounds demo_proxy Hp Hr) as Hs.
  destruct (handleClient demo_rounds demo_proxy) as [[[fin out]| | |] p']; apply Hs.
Defined.

(** A node that is named after the role is taken for the leader, whatever its state:
    the probe looks for the role anywhere in the report. *)
Lemma Probe_is_fooled :
  let m := demo_member "role:master" (demo_status Follower "Follower" 0) in
  probeTarget (lit "a:1") (member_answer m) = Ret (inl (lit "a:1")) ∧ st_State (mb_status m) = Follower.
Proof. split; [vm_compute; reflexivity|reflexivity]. Qed.
