(* ===== verification/NodeStart.v ===== *)
(** * Starting and stopping a node

    [src/pkg/cluster/node.go]: [NewNode], [startHTTPServer], [maybeJoinCluster],
    [Stop] and the writer of Raft's log.

    Starting a node is a sequence of calls of the file system, of Raft and of the
    network; what each call returns is a parameter, and the model records the calls in
    order.  A file is its directory and its name.  The database is made by
    [World.NewMemDb], and a node that joins a cluster runs [Join.join]. *)

From Stdlib Require Import Ascii String ZArith Lia.
From stdpp Require Import prelude gmap list fin_maps.
From S2P Require Import Prelude Text Config RESP Util CMap Heap TTL Locks ListStruct ListOps SetStruct HashStruct ZSetStruct Store World Model.
From S2P Require Import Info Refine Server Cluster Join Report.
Open Scope Z_scope.

(** ** The calls *)
Inductive call :=
| MkdirAll (dir : bytes)
| NewBoltStore (dir name : bytes)
| NewFileSnapshotStore (dir : bytes) (retain : Z)
| ResolveTCPAddr (addr : bytes)
| NewTCPTransport (bind : bytes) (poolSize timeout : Z)
| NewRaft (id : bytes) (threshold interval : Z)
| HasExistingState
| BootstrapCluster (id addr : bytes)
| WatchLeader (dir name : bytes)
| ListenHTTP (bind : bytes)
| JoinCluster (targets : list bytes) (raftAddr : bytes)
| AskToJoin (addr : bytes)
| PersistLeader (addr : bytes).
#[export] Instance call_eq_dec : EqDecision call.
Proof. solve_decision. Defined.

(** What the calls return: the text of an error where they can fail, the local address
    of the transport, whether there is state, the address of the listener; the error of
    [BootstrapCluster] with whether it is [ErrCantBootstrap]; the answers to the requests
    to join. *)
Record answers := mkAnswers {
  a_mkdir : option bytes;
  a_bolt : bytes → option bytes;
  a_snapshots : option bytes;
  a_resolve : option bytes;
  a_transport : bytes + bytes;
  a_raft : option bytes;
  a_state : bool + bytes;
  a_bootstrap : option (bytes * bool);
  a_listen : bytes + bytes;
  a_post : nat → bytes → bytes → bytes → Response + bytes;
}.

(** ** A monad of calls that can fail *)
(** A result or the text of an error, or a panic, or no end. *)
Definition C (A : Type) : Type := list call → outcome (A + bytes) * list call.
#[export] Instance C_ret : MRet C := λ A a tr, (Ret (inl a), tr).
#[export] Instance C_bind : MBind C := λ A B f c tr,
  match c tr with
  | (Ret (inl a), tr) => f a tr
  | (Ret (inr e), tr) => (Ret (inr e), tr)
  | (Panics, tr) => (Panics, tr)
  | (Fatals, tr) => (Fatals, tr)
  | (Blocks, tr) => (Blocks, tr)
  end.
Definition cfail {A} (e : bytes) : C A := λ tr, (Ret (inr e), tr).
Definition clift {A} (o : outcome A) : C A := λ tr, (a ← o; Ret (inl a), tr).
Definition perform {A} (c : call) (r : A + bytes) : C A := λ tr, (Ret r, tr ++ [c]).
(** [fmt.Errorf("what: %w", err)] *)
Definition wrap_error {A} (what : bytes) (r : A + bytes) : A + bytes :=
  match r with inl a => inl a | inr err => inr (what ++ lit ": " ++ err) end.
Definition cwrap {A} (what : bytes) (c : C A) : C A := λ tr, let '(o, tr) := c tr in (r ← o; Ret (wrap_error what r), tr).
Definition succeeds (e : option bytes) : unit + bytes := match e with None => inl tt | Some err => inr err end.
Definition guard (b : bool) (e : bytes) : C unit := if b then cfail e else mret tt.

(** ** The node *)
(** The parts of [Node] that outlive [NewNode]. *)
Record StartedNode (tree : Type → Type) := mkStarted {
  sn_cfg : Config; sn_db : World tree; sn_httpAddr : bytes; sn_hasHTTP : bool; sn_watching : bool }.
Arguments mkStarted {tree}.
Arguments sn_cfg {tree}.
Arguments sn_db {tree}.
Arguments sn_httpAddr {tree}.
Arguments sn_hasHTTP {tree}.
Arguments sn_watching {tree}.

Definition leaderCacheFileName : bytes := lit "leader.addr".
Definition positive_or (n d : Z) : Z := if n <=? 0 then d else n.

Section NewNode.
Context `{Host} `{NetURL URL} {tree : Type → Type} `{!RBTree tree}.
Variable ShardNum : Z.   (* of [config.Configures] *)
Variable a : answers.
Variable file : leader_file.
Variable rounds : nat.   (* that [join] may take: [join_ends] says how many are enough *)

Definition startHTTPServer (bind : bytes) : C bytes := perform (ListenHTTP bind) (a_listen a).

(** What [join] does: the requests it sends, the address it records. *)
Definition join_calls (j : joined) : list call :=
  (AskToJoin <$> j_contacted j) ++ option_list (PersistLeader <$> j_persisted j).
Definition run_join (NodeID : bytes) (targets : list bytes) (raftAddr : bytes) : C unit := λ tr,
  match join (joinOnce (a_post a) NodeID raftAddr) rounds targets with
  | None => (Blocks, tr)
  | Some o => (j ← o; Ret (wrap_error (lit "join cluster") (succeeds (j_err j))),
               tr ++ match o with Ret j => join_calls j | _ => [] end)
  end.
Definition maybeJoinCluster (NodeID : bytes) (JoinAddrs : list bytes) (hasState : bool) (raftAddr : bytes) : C unit :=
  if hasState then mret tt
  else
    match collectJoinTargets JoinAddrs file with
    | [] => mret tt
    | targets => perform (JoinCluster targets raftAddr) (inl tt);; run_join NodeID targets raftAddr
    end.

(** A node without state creates a cluster of its own when asked to. *)
Definition maybeBootstrap (cfg : Config) (hasState : bool) (localAddr : bytes) : C unit :=
  if cfg_RaftBootstrap cfg && negb hasState
  then perform (BootstrapCluster (cfg_NodeID cfg) localAddr)
         (match a_bootstrap a with
          | Some (err, false) => inr (lit "bootstrap cluster: " ++ err)
          | _ => inl tt
          end)
  else mret tt.
Definition maybeServeHTTP (cfg : Config) : C (option bytes) :=
  if beq (cfg_RaftHTTPAddr cfg) [] then mret None
  else addr ← cwrap (lit "start raft http server") (startHTTPServer (cfg_RaftHTTPAddr cfg)); mret (Some addr).

(** The join addresses of the configuration, parsed when only their text is set. *)
Definition with_join_addrs (cfg : Config) : Config :=
  match cfg_JoinAddrs cfg with
  | [] => if beq (TrimSpace (cfg_JoinAddr cfg)) [] then cfg else set_JoinAddrs (ParseJoinAddrs (cfg_JoinAddr cfg)) cfg
  | _ => cfg
  end.

Definition found_state (dir : bytes) (flag : string) : bytes :=
  lit "found existing raft state under " ++ dir ++ lit ", remove " ++ lit flag.

Definition NewNode (cfg : Config) : C (StartedNode tree) :=
  guard (beq (cfg_NodeID cfg) []) (lit "config NodeID must be set");;
  guard (beq (cfg_RaftDir cfg) []) (lit "config RaftDir must be set");;
  guard (beq (cfg_RaftBind cfg) []) (lit "config RaftBind must be set");;
  let cfg := with_join_addrs cfg in
  let poolSize := positive_or (cfg_RaftConnectionPool cfg) DefaultRaftConnectionPool in
  let timeout := positive_or (cfg_RaftTimeout cfg) DefaultRaftTimeout in
  let snapThreshold := if cfg_RaftSnapshotThreshold cfg =? 0 then DefaultRaftSnapshotThresh else cfg_RaftSnapshotThreshold cfg in
  let snapInterval := positive_or (cfg_RaftSnapshotInterval cfg) DefaultRaftSnapshotIntvl in
  let dir := cfg_RaftDir cfg in
  db ← clift (NewMemDb ShardNum);
  perform (MkdirAll dir) (wrap_error (lit "create raft dir") (succeeds (a_mkdir a)));;
  perform (NewBoltStore dir (lit "raft-log.bolt")) (wrap_error (lit "new bolt log store") (succeeds (a_bolt a (lit "raft-log.bolt"))));;
  perform (NewBoltStore dir (lit "raft-stable.bolt")) (wrap_error (lit "new bolt stable store") (succeeds (a_bolt a (lit "raft-stable.bolt"))));;
  perform (NewFileSnapshotStore dir 2) (wrap_error (lit "new snapshot store") (succeeds (a_snapshots a)));;
  perform (ResolveTCPAddr (cfg_RaftBind cfg)) (wrap_error (lit "resolve raft bind " ++ cfg_RaftBind cfg) (succeeds (a_resolve a)));;
  localAddr ← perform (NewTCPTransport (cfg_RaftBind cfg) poolSize timeout) (wrap_error (lit "new tcp transport") (a_transport a));
  perform (NewRaft (cfg_NodeID cfg) snapThreshold snapInterval) (wrap_error (lit "new raft") (succeeds (a_raft a)));;
  hasState ← perform HasExistingState (wrap_error (lit "check existing raft state") (a_state a));
  guard (hasState && cfg_RaftBootstrap cfg) (found_state dir "--raft-bootstrap");;
  guard (hasState && (negb (beq (TrimSpace (cfg_JoinAddr cfg)) []) || negb (bool_decide (cfg_JoinAddrs cfg = []))))
    (found_state dir "--raft-join");;
  maybeBootstrap cfg hasState localAddr;;
  perform (WatchLeader dir leaderCacheFileName) (inl tt);;
  httpAddr ← maybeServeHTTP cfg;
  maybeJoinCluster (cfg_NodeID cfg) (cfg_JoinAddrs cfg) hasState localAddr;;
  mret (mkStarted cfg db (default [] httpAddr) (bool_decide (is_Some httpAddr)) true).
End NewNode.

(** [Stop]: the errors of the shutdowns, and the node that no longer watches. *)
Definition join_errs (errs : list bytes) : bytes :=
  match errs with [] => [] | e :: errs => foldl (λ acc e, acc ++ lit "; " ++ e) e errs end.
Definition Stop {tree} (http_err raft_err : option bytes) (n : StartedNode tree) : option bytes * StartedNode tree :=
  let errs := (if sn_hasHTTP n then option_list http_err else []) ++ option_list raft_err in
  ((match errs with [] => None | _ => Some (lit "stop raft node: " ++ join_errs errs) end),
   mkStarted (sn_cfg n) (sn_db n) (sn_httpAddr n) (sn_hasHTTP n) false).

(** ** The writer of Raft's log *)
(** What [Write] did: the line for the debug log or for the inner writer, and the
    count it returns when the inner writer takes everything. *)
Inductive written := ToDebug (s : bytes) | ToInner (p : bytes).
Definition raftLogWriter_Write (hint : option (bytes * bytes)) (p : bytes) : written * Z :=
  if Contains p (lit "Rollback failed: tx closed") then (ToDebug (TrimSpace p), zlen p)
  else
    let p :=
      if Contains p (lit "leader-address=") && Contains p (lit "leader-id=") then
        let '(addr, id) := default ([], []) hint in
        let s := if beq addr [] then p else fillPlaceholder p (lit "leader-address") addr in
        if beq id [] then s else fillPlaceholder s (lit "leader-id") id
      else p in
    (ToInner p, zlen p).

(** ** Lemmas on the calls *)
(** What a computation may add to the calls made so far. *)
Definition adds {A} (P : call → Prop) (c : C A) : Prop :=
  ∀ tr, ∃ new, (c tr).2 = tr ++ new ∧ Forall P new.
Lemma adds_ret {A} P (a : A) : adds P (mret a).
Proof. intros tr. exists []. by rewrite app_nil_r. Qed.
Lemma adds_fail {A} P e : adds P (cfail (A := A) e).
Proof. intros tr. exists []. by rewrite app_nil_r. Qed.
Lemma adds_perform {A} (P : call → Prop) c (r : A + bytes) : P c → adds P (perform c r).
Proof. intros Hc tr. exists [c]. split; [done|]. by repeat constructor. Qed.
Lemma adds_clift {A} P (o : outcome A) : adds P (clift o).
Proof. intros tr. exists []. by rewrite app_nil_r. Qed.
Lemma adds_cwrap {A} P what (c : C A) : adds P c → adds P (cwrap what c).
Proof. intros Hc tr. destruct (Hc tr) as (new & ? & ?). exists new. unfold cwrap. by destruct (c tr). Qed.
Lemma adds_guard P b e : adds P (guard b e).
Proof. destruct b; [apply adds_fail|apply adds_ret]. Qed.
Lemma adds_bind {A B} P (c : C A) (f : A → C B) :
  adds P c → (∀ x tr tr', c tr = (Ret (inl x), tr') → adds P (f x)) → adds P (c ≫= f).
Proof.
  intros Hc Hf tr. destruct (Hc tr) as (new & E & Hn). unfold mbind, C_bind. destruct (c tr) as [[[x|e]| | |] tr'] eqn:Ec; cbn in E; subst tr'; try by exists new.
  destruct (Hf x tr _ Ec (tr ++ new)) as (new' & -> & Hn'). exists (new ++ new'). by rewrite app_assoc, Forall_app.
Qed.
Lemma adds_then {A B} P (c : C A) (d : C B) : adds P c → adds P d → adds P (c;; d).
Proof. intros Hc Hd. apply adds_bind; [done|]. by intros. Qed.
Lemma adds_mono {A} (P Q : call → Prop) (c : C A) : (∀ x, P x → Q x) → adds P c → adds Q c.
Proof. intros HPQ Hc tr. destruct (Hc tr) as (new & ? & ?). exists new. split; [done|]. by eapply Forall_impl. Qed.
Lemma perform_inl {A} c (r : A + bytes) tr x tr' : perform c r tr = (Ret (inl x), tr') → r = inl x.
Proof. unfold perform. by intros [= -> _]. Qed.
Lemma wrap_error_inl {A} what (r : A + bytes) x : wrap_error what r = inl x → r = inl x.
Proof. by destruct r as [y|]; [intros [= ->]|]. Qed.
Create HintDb calls.
#[local] Hint Resolve adds_ret adds_fail adds_guard adds_clift : calls.

(** *** Endings other than a result *)
(** [c] returns, or else its ending satisfies [P]. *)
Definition returns_or {A} (P : outcome unit → Prop) (c : C A) : Prop :=
  ∀ tr, match (c tr).1 with Ret _ => True | Panics => P Panics | Fatals => P Fatals | Blocks => P Blocks end.
Lemma returns_ret {A} P (a : A) : returns_or P (mret a).
Proof. done. Qed.
Lemma returns_guard P b e : returns_or P (guard b e).
Proof. by destruct b. Qed.
Lemma returns_perform {A} P c (r : A + bytes) : returns_or P (perform c r).
Proof. done. Qed.
Lemma returns_cwrap {A} P what (c : C A) : returns_or P c → returns_or P (cwrap what c).
Proof. intros Hc tr. specialize (Hc tr). unfold cwrap. by destruct (c tr) as [[] ?]. Qed.
Lemma returns_bind {A B} P (c : C A) (f : A → C B) :
  returns_or P c → (∀ x tr tr', c tr = (Ret (inl x), tr') → returns_or P (f x)) → returns_or P (c ≫= f).
Proof.
  intros Hc Hf tr. specialize (Hc tr). unfold mbind, C_bind. destruct (c tr) as [[[x|e]| | |] tr'] eqn:E; try done.
  by apply (Hf x tr tr').
Qed.
#[local] Hint Resolve returns_ret returns_guard returns_perform : calls.

(** ** What starting a node may do *)
Section start.
Context `{Host} `{NetURL URL} {tree : Type → Type} `{!RBTree tree}.
Context (ShardNum : Z) (a : answers) (file : leader_file) (rounds : nat).
Abbreviation new_node := (NewNode (tree := tree) ShardNum a file rounds).

(** The calls [NewNode] may make for [cfg]: Raft under its own name with positive
    parameters; a cluster is only created or joined by a node without state, created
    only on request and joined only through its targets; a request to join goes to a
    target or to an address that a refusal named. *)
Definition allowed (cfg : Config) (c : call) : Prop :=
  match c with
  | NewTCPTransport _ poolSize timeout => 0 < poolSize ∧ 0 < timeout
  | NewRaft id threshold interval => id = cfg_NodeID cfg ∧ id ≠ [] ∧ 0 < threshold ∧ 0 < interval
  | BootstrapCluster id _ => id = cfg_NodeID cfg ∧ cfg_RaftBootstrap cfg = true ∧ a_state a = inl false
  | JoinCluster targets _ =>
      a_state a = inl false ∧ targets ≠ [] ∧ targets = collectJoinTargets (cfg_JoinAddrs (with_join_addrs cfg)) file
  | AskToJoin addr =>
      a_state a = inl false ∧ ∃ raftAddr, a_transport a = inl raftAddr ∧
        named (joinOnce (a_post a) (cfg_NodeID cfg) raftAddr) (collectJoinTargets (cfg_JoinAddrs (with_join_addrs cfg)) file) addr
  | PersistLeader _ => a_state a = inl false
  | _ => True
  end.

Lemma positive_or_pos n d : 0 < d → 0 < positive_or n d.
Proof. unfold positive_or. destruct (Z.leb_spec n 0); lia. Qed.
Lemma with_join_addrs_fields cfg :
  let cfg' := with_join_addrs cfg in
  cfg_NodeID cfg' = cfg_NodeID cfg ∧ cfg_RaftBootstrap cfg' = cfg_RaftBootstrap cfg ∧
  cfg_RaftSnapshotThreshold cfg' = cfg_RaftSnapshotThreshold cfg.
Proof. unfold with_join_addrs. by repeat case_match. Qed.

Lemma join_allowed cfg hasState addr :
  a_state a = inl hasState → a_transport a = inl addr →
  adds (allowed cfg) (maybeJoinCluster a file rounds (cfg_NodeID cfg) (cfg_JoinAddrs (with_join_addrs cfg)) hasState addr).
Proof.
  intros Hs Ht. unfold maybeJoinCluster. destruct hasState; auto with calls.
  destruct (collectJoinTargets _ file) as [|t ts] eqn:E; auto with calls.
  apply adds_then; [apply adds_perform; cbn; by rewrite E|]. intros tr. unfold run_join.
  destruct (join _ rounds (t :: ts)) as [o|] eqn:Ej; [|exists []; by rewrite app_nil_r].
  eexists. split; [reflexivity|]. destruct o as [j| | |]; try by constructor.
  pose proof (join_named _ _ _ _ Ej) as Hn. unfold join_calls. apply Forall_app_2.
  - apply Forall_fmap. eapply Forall_impl; [exact Hn|]. intros x Hx. cbn. rewrite E. eauto.
  - destruct (j_persisted j); by repeat constructor.
Qed.

Lemma NewNode_allowed cfg : 0 <= cfg_RaftSnapshotThreshold cfg → adds (allowed cfg) (new_node cfg).
Proof.
  intros Ht. destruct (with_join_addrs_fields cfg) as (Hid & Hb & Hth). unfold NewNode. cbv zeta.
  apply adds_bind; auto with calls. intros [] tr tr' Eid.
  assert (cfg_NodeID cfg ≠ []) as Hne.
  { intros E. rewrite E in Eid. done. }
  do 2 (apply adds_then; [apply adds_guard|]). apply adds_bind; auto with calls. intros db _ _ _.
  do 5 (apply adds_then; [by apply adds_perform|]).
  apply adds_bind. { apply adds_perform. split; by apply positive_or_pos. }
  intros localAddr ? ? Et%perform_inl%wrap_error_inl. apply adds_then.
  { apply adds_perform. rewrite Hid, Hth. split_and!; [done|done| |by apply positive_or_pos].
    destruct (Z.eqb_spec (cfg_RaftSnapshotThreshold cfg) 0); [unfold DefaultRaftSnapshotThresh|]; lia. }
  apply adds_bind; [by apply adds_perform|]. intros hasState tr1 tr2 Es%perform_inl%wrap_error_inl.
  do 2 (apply adds_then; [by auto with calls|]). apply adds_then.
  { unfold maybeBootstrap. destruct (cfg_RaftBootstrap (with_join_addrs cfg) && negb hasState) eqn:E; auto with calls.
    apply adds_perform. apply andb_true_iff in E as [E ->%negb_true_iff]. cbn. by rewrite Hid, <- Hb. }
  apply adds_then; [by apply adds_perform|]. apply adds_bind.
  { unfold maybeServeHTTP. destruct (beq (cfg_RaftHTTPAddr _) []); auto with calls. apply adds_bind; auto with calls. by apply adds_cwrap, adds_perform. }
  intros httpAddr _ _ _. apply adds_then; [rewrite Hid; by apply join_allowed|]. auto with calls.
Qed.

(** C20: What starting a node may do.  Raft runs under the configured, non-empty name
    with positive limits, whatever the configuration says; a cluster is created or
    joined only when the node has no state yet, created only on request, and joined
    only through the collected targets: every request to join goes to one of them or to
    an address named by a node that refused. *)
Theorem NewNode_safe cfg :
  0 <= cfg_RaftSnapshotThreshold cfg → Forall (allowed cfg) (new_node cfg []).2.
Proof. intros Ht. destruct (NewNode_allowed cfg Ht []) as (new & -> & Hn). done. Qed.

Lemma joinOnce_recoverable NodeID raftAddr i t : recoverable (joinOnce (a_post a) NodeID raftAddr i t).
Proof.
  unfold joinOnce. repeat case_match; try done. apply recoverable_bind; [|done].
  unfold parseLeaderHint, hint_in_body. by repeat case_match.
Qed.
Lemma join_recoverable contact fuel targets o :
  (∀ i t, recoverable (contact i t)) → join contact fuel targets = Some o → recoverable o.
Proof.
  intros Hc. unfold join. destruct targets as [|t ts]; [by intros [= <-]|].
  generalize (t :: ts) (∅ : gset bytes) (@None bytes) (@nil bytes). clear t ts.
  induction fuel as [|fuel IH]; intros [|q queue] seen lastErr contacted; cbn [join_loop]; try (by intros [= <-]).
  destruct (beq (TrimSpace q) []); [by apply IH|]. case_bool_decide; [by apply IH|].
  pose proof (Hc (length contacted) (TrimSpace q)) as Hr. destruct (contact _ _) as [[hint [err|]]| | |]; try done;
    first [by apply IH|by intros [= <-]].
Qed.

(** [NewNode] returns unless the database cannot be made or joining does not return. *)
Lemma NewNode_returns_or cfg :
  returns_or (λ o, (o = Panics ∧ NewMemDb (tree := tree) ShardNum = Panics) ∨
    ∃ raftAddr, a_transport a = inl raftAddr ∧
      join (joinOnce (a_post a) (cfg_NodeID cfg) raftAddr) rounds (collectJoinTargets (cfg_JoinAddrs (with_join_addrs cfg)) file)
        = match o with Blocks => None | Panics => Some Panics | _ => Some Fatals end ∧ o ≠ Fatals) (new_node cfg).
Proof.
  destruct (with_join_addrs_fields cfg) as (Hid & _). unfold NewNode. cbv zeta.
  do 3 (apply returns_bind; [auto with calls|]; intros [] _ _ _).
  apply returns_bind.
  { intros tr. unfold clift. rewrite NewMemDb_new_world. destruct (make_ok _ _); [done|]. by left. }
  intros db _ _ _. do 5 (apply returns_bind; [auto with calls|]; intros [] _ _ _).
  apply returns_bind; [auto with calls|]. intros localAddr ? ? Et%perform_inl%wrap_error_inl.
  apply returns_bind; [auto with calls|]. intros [] _ _ _.
  apply returns_bind; [auto with calls|]. intros hasState _ _ _.
  do 2 (apply returns_bind; [auto with calls|]; intros [] _ _ _).
  apply returns_bind; [unfold maybeBootstrap; case_match; auto with calls|]. intros [] _ _ _.
  apply returns_bind; [auto with calls|]. intros [] _ _ _.
  apply returns_bind.
  { unfold maybeServeHTTP. case_match; auto with calls. apply returns_bind; auto with calls. by apply returns_cwrap. }
  intros httpAddr _ _ _. apply returns_bind; [|auto with calls].
  unfold maybeJoinCluster. destruct hasState; [done|]. destruct (collectJoinTargets _ file) as [|t ts]; [done|].
  apply returns_bind; [auto with calls|]. intros [] _ _ _ tr1. unfold run_join. rewrite Hid.
  destruct (join _ rounds (t :: ts)) as [o|] eqn:Ej; [|right; by exists localAddr].
  pose proof (join_recoverable _ _ _ _ (joinOnce_recoverable _ _) Ej). destruct o; try done. right. by exists localAddr.
Qed.

(** Every call succeeds; [st] is whether there is state. *)
Record fine (cfg : Config) (localAddr httpAddr : bytes) (st : bool) : Prop := {
  f_db : ∃ w : World tree, NewMemDb ShardNum = Ret w;
  f_mkdir : a_mkdir a = None;
  f_bolt : ∀ name, a_bolt a name = None;
  f_snapshots : a_snapshots a = None;
  f_resolve : a_resolve a = None;
  f_transport : a_transport a = inl localAddr;
  f_raft : a_raft a = None;
  f_state : a_state a = inl st;
  f_bootstrap : ∀ err, a_bootstrap a ≠ Some (err, false);
  f_listen : a_listen a = inl httpAddr;
  f_join : st = false → ∃ j, join (joinOnce (a_post a) (cfg_NodeID cfg) localAddr) rounds (collectJoinTargets (cfg_JoinAddrs (with_join_addrs cfg)) file)
      = Some (Ret j) ∧ j_err j = None;
}.
Definition complete (cfg : Config) : Prop := cfg_NodeID cfg ≠ [] ∧ cfg_RaftDir cfg ≠ [] ∧ cfg_RaftBind cfg ≠ [].
(** The configuration names nodes to join. *)
Definition wants_join (cfg : Config) : bool :=
  negb (beq (TrimSpace (cfg_JoinAddr cfg)) []) || negb (bool_decide (cfg_JoinAddrs cfg = [])).

Lemma bind_inl {A B} (c : C A) (f : A → C B) tr x tr' : c tr = (Ret (inl x), tr') → (c ≫= f) tr = f x tr'.
Proof. intros E. unfold mbind, C_bind. by rewrite E. Qed.
Lemma guard_stops {B} e (f : unit → C B) tr : (guard true e ≫= f) tr = (Ret (inr e), tr).
Proof. done. Qed.
Lemma perform_ok {A} c (r : A + bytes) tr x : r = inl x → perform c r tr = (Ret (inl x), tr ++ [c]).
Proof. by intros ->. Qed.
Lemma guard_ok b e tr : b = false → guard b e tr = (Ret (inl tt), tr).
Proof. by intros ->. Qed.
Lemma succeeds_None what e : e = None → wrap_error what (succeeds e) = inl tt.
Proof. by intros ->. Qed.
Lemma maybeJoin_ok NodeID addrs st addr tr :
  (st = false → ∃ j, join (joinOnce (a_post a) NodeID addr) rounds (collectJoinTargets addrs file) = Some (Ret j) ∧ j_err j = None) →
  ∃ tr', maybeJoinCluster a file rounds NodeID addrs st addr tr = (Ret (inl tt), tr').
Proof.
  intros Hj. unfold maybeJoinCluster. destruct st; [by eexists|]. destruct (Hj eq_refl) as (j & Ej & Ee). destruct (collectJoinTargets _ _) as [|t ts]; [by eexists|].
  rewrite (bind_inl _ _ _ tt (tr ++ [JoinCluster (t :: ts) addr])) by done.
  unfold run_join. rewrite Ej. cbn. rewrite Ee. by eexists.
Qed.

Lemma maybeBootstrap_ok cfg st addr tr :
  (∀ err, a_bootstrap a ≠ Some (err, false)) → ∃ tr', maybeBootstrap a cfg st addr tr = (Ret (inl tt), tr').
Proof.
  intros Hb. unfold maybeBootstrap. destruct (_ && negb st); [|by eexists]. unfold perform.
  destruct (a_bootstrap a) as [[err []]|] eqn:E; [by eexists| |by eexists]. by destruct (Hb err).
Qed.
Lemma maybeServeHTTP_ok cfg addr tr :
  a_listen a = inl addr → ∃ http tr', maybeServeHTTP a cfg tr = (Ret (inl http), tr').
Proof.
  intros Hl. unfold maybeServeHTTP. destruct (beq (cfg_RaftHTTPAddr _) []); [by eexists _, _|].
  unfold mbind, C_bind, cwrap, startHTTPServer, perform. rewrite Hl. by eexists _, _.
Qed.

(** C40: A complete configuration starts a node, with a new database, when every call
    succeeds and, for a node without state, the requests to join, if there are any, end with the node accepted; except that a
    node that already has state is neither asked to create a cluster nor to join
    one: then the start is refused and the error names the flag to remove. *)
Theorem NewNode_starts cfg localAddr httpAddr st :
  complete cfg → fine cfg localAddr httpAddr st →
  let cfg' := with_join_addrs cfg in
  match (new_node cfg []).1 with
  | Ret (inl n) => sn_cfg n = cfg' ∧ sn_db n = new_world ShardNum ∧ (st = true → cfg_RaftBootstrap cfg = false ∧ wants_join cfg' = false)
  | Ret (inr err) =>
      st = true ∧
      ((cfg_RaftBootstrap cfg = true ∧ err = found_state (cfg_RaftDir cfg') "--raft-bootstrap") ∨
       (wants_join cfg' = true ∧ err = found_state (cfg_RaftDir cfg') "--raft-join"))
  | _ => False
  end.
Proof.
  intros (Hid & Hdir & Hbind) []. cbv zeta. destruct (with_join_addrs_fields cfg) as (Hid' & Hb & _). unfold NewNode. cbv zeta.
  do 3 erewrite bind_inl by (by apply guard_ok, bool_decide_eq_false_2).
  destruct f_db0 as [w Ew]. pose proof (NewMemDb_Ret _ _ Ew) as ->. rewrite Ew. erewrite bind_inl by reflexivity.
  do 5 (erewrite bind_inl by (apply perform_ok, succeeds_None; auto)).
  erewrite bind_inl by (apply perform_ok; by rewrite f_transport0).
  erewrite bind_inl by (apply perform_ok, succeeds_None; auto).
  erewrite bind_inl by (apply perform_ok; by rewrite f_state0).
  destruct (st && cfg_RaftBootstrap (with_join_addrs cfg)) eqn:E1.
  { apply andb_true_iff in E1 as [-> E1]. rewrite guard_stops. cbn [fst]. split; [done|]. left. by rewrite <- Hb. }
  erewrite bind_inl by (by apply guard_ok). fold (wants_join (with_join_addrs cfg)).
  destruct (st && wants_join (with_join_addrs cfg)) eqn:E2.
  { apply andb_true_iff in E2 as [-> E2]. rewrite guard_stops. cbn [fst]. split; [done|]. by right. }
  erewrite bind_inl by (by apply guard_ok).
  edestruct maybeBootstrap_ok as [tr1 Eb]; [exact f_bootstrap0|]. erewrite bind_inl by exact Eb.
  erewrite bind_inl by (by apply perform_ok).
  edestruct maybeServeHTTP_ok as (http & tr2 & Eh); [exact f_listen0|]. erewrite bind_inl by exact Eh.
  edestruct (maybeJoin_ok (cfg_NodeID (with_join_addrs cfg)) (cfg_JoinAddrs (with_join_addrs cfg)) st localAddr tr2) as [tr3 Ej]; [by rewrite Hid'|].
  erewrite bind_inl by exact Ej. cbn [fst mret C_ret sn_cfg]. split; [done|]. split; [done|]. intros ->. by rewrite <- Hb.
Qed.
End start.

(** ** Concrete starts *)
#[local] Existing Instance demo_host.
#[local] Existing Instance demo_url.
(** Everything succeeds; [a:1] sends the node to [c:3]. *)
Definition demo_post (i : nat) (u id addr : bytes) : Response + bytes :=
  if beq u (lit "http://a:1/join") then inl (http_Error (lit "not leader (leader=c:3)") 307 no_header)
  else inl (mkResponse 200 no_header (lit "ok")).
Definition demo_answers (st : bool) : answers :=
  mkAnswers None (λ _, None) None None (inl (lit "127.0.0.1:7000")) None (inl st) None (inl (lit "127.0.0.1:17000")) demo_post.
Definition no_file : leader_file := mkFile None Written.
(** A configuration with limits that are not positive and two nodes to join. *)
Definition demo_join : Config :=
  set_RaftTimeout (-1) (set_RaftConnectionPool 0 (set_JoinAddr (lit "a:1, b:2") NewDefaultConfig)).
Definition demo_start (st : bool) (cfg : Config) : outcome (StartedNode sorted_tree + bytes) * list call :=
  NewNode (tree := sorted_tree) 2 (demo_answers st) no_file 8 cfg [].

Lemma NewNode_safe_witness :
  Forall (allowed (demo_answers false) no_file demo_join) (demo_start false demo_join).2 ∧
  JoinCluster [lit "a:1"; lit "b:2"] (lit "127.0.0.1:7000") ∈ (demo_start false demo_join).2 ∧
  AskToJoin (lit "c:3") ∈ (demo_start false demo_join).2.
Proof.
  split; [|split; apply (bool_decide_unpack _); vm_compute; exact I].
  assert (0 <= cfg_RaftSnapshotThreshold demo_join) as Ht by (vm_compute; discriminate).
  exact (NewNode_safe (tree := sorted_tree) 2 (demo_answers false) no_file 8 demo_join Ht).
Defined.
Lemma NewNode_starts_witness :
  (∃ n, (demo_start false demo_join).1 = Ret (inl n) ∧ sn_cfg n = with_join_addrs demo_join) ∧
  (demo_start true demo_join).1 = Ret (inr (found_state (lit "./raft") "--raft-join")) ∧ wants_join (with_join_addrs demo_join) = true.
Proof.
  pose proof (λ st, NewNode_starts (tree := sorted_tree) 2 (demo_answers st) no_file 8 demo_join (lit "127.0.0.1:7000") (lit "127.0.0.1:17000") st) as Hs.
  assert (complete demo_join) as Hc by (split_and!; discriminate).
  assert (∀ st, fine (tree := sorted_tree) 2 (demo_answers st) no_file 8 demo_join (lit "127.0.0.1:7000") (lit "127.0.0.1:17000") st) as Hf.
  { intros st. split; try done; [by eexists|]. intros _. eexists. split; [vm_compute; reflexivity|reflexivity]. }
  split.
  - specialize (Hs false Hc (Hf false)). cbv zeta in Hs. fold (demo_start false demo_join) in Hs.
    destruct (demo_start false demo_join).1 as [[n|err]| | |] eqn:E; [|vm_compute in E; discriminate E..]. exists n. split; [reflexivity|exact (proj1 Hs)].
  - specialize (Hs true Hc (Hf true)). cbv zeta in Hs. fold (demo_start true demo_join) in Hs.
    assert ((demo_start true demo_join).1 = Ret (inr (found_state (lit "./raft") "--raft-join"))) as E by (vm_compute; reflexivity).
    rewrite E in Hs. split; [exact E|]. destruct Hs as [_ [[Hb _]|[Hw _]]]; [discriminate Hb|exact Hw].
Defined.

(** A start that is refused leaves Raft running, with its files open. *)
Lemma Refused_start_leaves_raft :
  (demo_start true demo_join).1 = Ret (inr (found_state (lit "./raft") "--raft-join")) ∧
  NewRaft (lit "node-1") 10000 (120 * Second) ∈ (demo_start true demo_join).2.
Proof. split; [vm_compute; reflexivity|]. apply (bool_decide_unpack _). vm_compute. exact I. Qed.
(** With both flags a node creates a cluster of its own and then asks to join another. *)
Lemma Bootstrap_and_join :
  let tr := (demo_start false (set_RaftBootstrap true demo_join)).2 in
  BootstrapCluster (lit "node-1") (lit "127.0.0.1:7000") ∈ tr ∧ JoinCluster [lit "a:1"; lit "b:2"] (lit "127.0.0.1:7000") ∈ tr.
Proof. split; apply (bool_decide_unpack _); vm_compute; exact I. Qed.
(** Filling in a placeholder returns a count beyond the bytes given, which a writer
    must not. *)
Lemma raftLogWriter_count :
  let p := lit "leader-address= leader-id=n2" in
  (raftLogWriter_Write (Some (lit "10.0.0.2:7000", lit "n2")) p).2 > zlen p.
Proof. reflexivity. Qed.
