(* ===== verification/Reads.v ===== *)
(** * Commands that only read

    A second small program logic for handlers on the reference store: which programs
    leave the data as it is, but for keys whose time has passed and which [CheckTTL]
    deletes on the way.  It settles what the classification of
    [src/pkg/server/write.go] is worth: apart from the commands it forgets, what is
    not a write command changes nothing, so a leader may execute it without
    replicating it. *)

From Stdlib Require Import Ascii String ZArith Lia.
From stdpp Require Import prelude gmap list fin_maps.
From S2P Require Import Prelude RESP Util CMap Heap TTL Locks ListStruct ListPos ListOps SetStruct HashStruct ZSetStruct Store World Model.
From S2P Require Import Strings Keys ListCmds SetCmds HashCmds ZSetCmds Info Refine Safety Server Cluster.
Open Scope Z_scope.
#[local] Arguments CmdTable : simpl never.

(** ** Decay *)
(** The key is as it was, or it has gone because its time has passed at a clock
    reading in between. *)
Definition decayed `{Host} (m m' : Model) (key : bytes) : Prop :=
  (m_db m' !! key = m_db m !! key ∧ m_exp m' !! key = m_exp m !! key) ∨
  (m_db m' !! key = None ∧ m_exp m' !! key = None ∧
   ∃ n, (m_tick m <= n < m_tick m')%nat ∧ expired (unix_now n) (m_exp m !! key) = true).

Record decays `{Host} (m m' : Model) : Prop := {
  dc_lists : m_lists m' = m_lists m;
  dc_sets : m_sets m' = m_sets m;
  dc_hashes : m_hashes m' = m_hashes m;
  dc_zsets : m_zsets m' = m_zsets m;
  dc_tick : (m_tick m <= m_tick m')%nat;
  dc_keys : ∀ key, decayed m m' key;
}.

#[export] Instance decays_preorder `{Host} : PreOrder decays.
Proof.
  split.
  - intros m. split; try done. intros key. by left.
  - intros m1 m2 m3 [] []. split; [congruence..|lia|]. intros key.
    destruct (dc_keys0 key) as [[E1 E2]|(E1 & E2 & n & Hn & He)], (dc_keys1 key) as [[F1 F2]|(F1 & F2 & n' & Hn' & He')].
    + left. by rewrite F1, F2.
    + right. split_and!; [done..|]. exists n'. rewrite <- E2. split; [lia|done].
    + right. rewrite F1, F2. split_and!; [done..|]. exists n. split; [lia|done].
    + by rewrite E2 in He'.
Qed.

#[export] Hint Extern 0 (decays _ _) => reflexivity : core.

(** Nothing but the locks and the clock differs. *)
Lemma decays_same `{Host} m m' :
  m_db m' = m_db m → m_exp m' = m_exp m → m_lists m' = m_lists m → m_sets m' = m_sets m →
  m_hashes m' = m_hashes m → m_zsets m' = m_zsets m → (m_tick m <= m_tick m')%nat → decays m m'.
Proof. intros E1 E2. intros. split; try done. intros key. left. by rewrite E1, E2. Qed.

(** ** Programs that read *)
Definition reads `{Host} {A} (c : M Model A) : Prop :=
  ∀ m, match c m with (Ret _, m') | (Panics, m') => decays m m' | _ => True end.
(** A sorted set operation that leaves the skip list as it is. *)
Definition zreads {A} (c : M ZSet A) : Prop := ∀ z, (c z).2 = z.
Definition list_reads (o : list_op) : Prop := ∀ vs, (list_spec o vs).2 = vs.

Section rules.
Context `{Host}.

Lemma reads_ret {A} (a : A) : reads (mret a).
Proof. intros m. change (decays m m). done. Qed.
Lemma reads_panic {A} : reads (mpanic (A := A)).
Proof. intros m. change (decays m m). done. Qed.
Lemma reads_block {A} : reads (mblock (A := A)).
Proof. intros m. exact I. Qed.
Lemma reads_bind {A B} (c : M Model A) (f : A → M Model B) : reads c → (∀ a, reads (f a)) → reads (c ≫= f).
Proof.
  intros Hc Hf m. specialize (Hc m). unfold mbind, M_bind. destruct (c m) as [[a| | |] m']; try done.
  specialize (Hf a m'). destruct (f a m') as [[b| | |] m'']; try done; by transitivity m'.
Qed.
Lemma reads_defer {A} (f : M Model unit) (c : M Model A) : reads f → reads c → reads (mdefer f c).
Proof.
  intros Hf Hc m. specialize (Hc m). unfold mdefer. destruct (c m) as [[a| | |] m']; try done;
    specialize (Hf m'); destruct (f m') as [[[]| | |] m'']; try done; by transitivity m'.
Qed.
Lemma reads_mfold {A B} (f : B → A → M Model B) b l : (∀ b x, reads (f b x)) → reads (mfold f b l).
Proof.
  intros Hf. revert b. induction l as [|x l IH]; intros b; cbn [mfold]; [apply reads_ret|]. apply reads_bind; [apply Hf|]. apply IH.
Qed.

Lemma reads_db_Get key : reads (db_Get key).
Proof. intros m. change (decays m m). done. Qed.
Lemma reads_db_Keys : reads db_Keys.
Proof. intros m. exact I. Qed.
Lemma reads_ttl_ExpireAt key : reads (ttl_ExpireAt key).
Proof. intros m. change (decays m m). done. Qed.
Lemma reads_on_locks c : reads (on_locks c).
Proof. intros m. cbn. destruct (c (m_locks m)) as [[]]; try done; by apply decays_same. Qed.
Lemma reads_tick : reads tick.
Proof. intros m. cbn. apply decays_same; cbn; try done. lia. Qed.
Lemma reads_list_do p o : list_reads o → reads (list_do p o).
Proof.
  intros Ho m. cbn. destruct (m_lists m !! p) as [vs|] eqn:E; [|done]. case_decide; [|done].
  rewrite Ho, insert_id by done. by apply decays_same.
Qed.
Lemma reads_get_set p : reads (get_set p).
Proof. intros m. cbn. by destruct (m_sets m !! p). Qed.
Lemma reads_get_hash p : reads (get_hash p).
Proof. intros m. cbn. by destruct (m_hashes m !! p). Qed.
Lemma reads_on_zset {A} p (c : M ZSet A) : zreads c → reads (on_zset p c).
Proof.
  intros Hc m. cbn. destruct (m_zsets m !! p) as [z|] eqn:E; [|done]. specialize (Hc z).
  destruct (c z) as [o z']. cbn in Hc. subst z'. rewrite insert_id by done. destruct o; try done; by apply decays_same.
Qed.

Lemma Lock_no_panic key L : (Lock key L).1 ≠ Panics.
Proof.
  unfold Lock. destruct (Z.eqb_spec (GetKeyPos key L) (-1)) as [|Hne]; [done|].
  assert (L ≠ []) as HL by (by intros ->). destruct (GetKeyPos_lookup key L HL) as (mu & E & Hpos).
  unfold on_mutex. rewrite E. destruct (Z.ltb_spec (GetKeyPos key L) 0); [lia|]. unfold rw_Lock. by destruct (_ || _).
Qed.

(** The deletion of a key whose time has passed. *)
Lemma reads_CheckTTL key : reads (MemDb_CheckTTL key).
Proof.
  intros m. unfold MemDb_CheckTTL, now, locks_Lock, locks_UnLock, mbind, M_bind. cbn.
  destruct (expired (unix_now (m_tick m)) (m_exp m !! key)) eqn:Ee; cbn.
  2:{ apply decays_same; cbn; try done. lia. }
  assert (∀ L : Locks, decays m (set_locks L (set_db (delete key (m_db m)) (set_exp (delete key (m_exp m)) (set_tick (S (m_tick m)) m))))) as Hd.
  { intros L. split; cbn; try done; [lia|]. intros k. destruct (decide (k = key)) as [->|Hne].
    - right. cbn. rewrite !lookup_delete_eq. split_and!; [done..|]. exists (m_tick m). split; [lia|done].
    - left. cbn. by rewrite !lookup_delete_ne. }
  pose proof (Lock_no_panic key (m_locks m)) as Hp.
  destruct (Lock key (m_locks m)) as [[[]| | |] L1]; cbn in *; try done.
  destruct (UnLock key L1) as [[[]| | |] L2]; cbn; try done; apply Hd.
Qed.
End rules.

(** ** Sorted set operations that read *)
Section zset.
Lemma zreads_ret {A} (a : A) : zreads (mret a).
Proof. done. Qed.
Lemma zreads_get {A} (f : ZSet → A) : zreads (z_get f).
Proof. done. Qed.
Lemma zreads_load p : zreads (z_load p).
Proof. intros z. unfold z_load. by destruct (z_nodes z !! p). Qed.
Lemma zreads_index {A} (l : list A) i : zreads (Prelude.index l i).
Proof. intros z. unfold Prelude.index. by destruct (l !! i). Qed.
Lemma zreads_bind {A B} (c : M ZSet A) (f : A → M ZSet B) : zreads c → (∀ a, zreads (f a)) → zreads (c ≫= f).
Proof.
  intros Hc Hf z. specialize (Hc z). unfold mbind, M_bind. destruct (c z) as [[a| | |] z']; cbn in Hc |- *; subst z'; try done.
  apply Hf.
Qed.
End zset.

Create HintDb reads.
#[export] Hint Resolve zreads_ret zreads_get zreads_load zreads_index : reads.
(** Programs that read are built from programs that read. *)
Ltac zreads_step :=
  first
    [ solve [auto with reads]
    | apply zreads_bind; [|intros ?]
    | match goal with |- zreads (match ?x with _ => _ end) => destruct x end
    | progress cbv zeta ].
Ltac zreads_auto := repeat zreads_step.

Section zset_ops.
Lemma zreads_forward i p : zreads (get_forward i p).
Proof. unfold get_forward. zreads_auto. Qed.
Lemma zreads_span i p : zreads (get_span i p).
Proof. unfold get_span. zreads_auto. Qed.
#[local] Hint Resolve zreads_forward zreads_span : reads.
Lemma zreads_zwalk fuel i cond current acc : zreads (zwalk fuel i cond current acc).
Proof. revert current acc. induction fuel as [|fuel IH]; intros current acc; cbn [zwalk]; [done|]. zreads_auto. Qed.
#[local] Hint Resolve zreads_zwalk : reads.
Lemma zreads_descend i cond current acc : zreads (descend i cond current acc).
Proof. revert current acc. induction i as [|i IH]; intros current acc; cbn [descend]; zreads_auto. Qed.
Lemma zreads_level0 {A} fuel (f : A → zSetNode → A * bool) current a : zreads (level0 fuel f current a).
Proof. revert current a. induction fuel as [|fuel IH]; intros [p|] a; cbn [level0]; try done. zreads_auto. Qed.
#[local] Hint Resolve zreads_descend zreads_level0 : reads.
Lemma zreads_from_header {A} (f : A → zSetNode → A * bool) a : zreads (from_header f a).
Proof. unfold from_header. zreads_auto. Qed.
#[local] Hint Resolve zreads_from_header : reads.
Lemma zreads_Get member : zreads (ZSet_Get member).
Proof. unfold ZSet_Get. zreads_auto. Qed.
Lemma zreads_Len : zreads ZSet_Len.
Proof. unfold ZSet_Len. zreads_auto. Qed.
Lemma zreads_Count min max : zreads (ZSet_Count min max).
Proof. unfold ZSet_Count. zreads_auto. Qed.
Lemma zreads_RangeByScore min max offset count : zreads (ZSet_RangeByScore min max offset count).
Proof. unfold ZSet_RangeByScore. zreads_auto. Qed.
Lemma zreads_Rank member : zreads (ZSet_Rank member).
Proof. unfold ZSet_Rank. zreads_auto. Qed.
#[local] Hint Resolve zreads_Rank : reads.
Lemma zreads_RevRank member : zreads (ZSet_RevRank member).
Proof. unfold ZSet_RevRank. zreads_auto. Qed.
Lemma zreads_Range start stop : zreads (ZSet_Range start stop).
Proof. unfold ZSet_Range. zreads_auto. Qed.
#[local] Hint Resolve zreads_Range : reads.
Lemma zreads_RevRange start stop : zreads (ZSet_RevRange start stop).
Proof. unfold ZSet_RevRange. zreads_auto. Qed.
End zset_ops.
#[export] Hint Resolve zreads_Get zreads_Len zreads_Count zreads_RangeByScore zreads_Rank zreads_RevRank zreads_Range
  zreads_RevRange : reads.

(** ** Handlers that read *)
#[export] Hint Resolve reads_ret reads_panic reads_block reads_db_Get reads_db_Keys reads_ttl_ExpireAt reads_on_locks
  reads_tick reads_list_do reads_get_set reads_get_hash reads_on_zset reads_CheckTTL : reads.
#[export] Hint Extern 1 (list_reads _) => (intros ?; reflexivity) : reads.
Ltac reads_step :=
  first
    [ solve [auto with reads]
    | apply reads_bind; [|intros ?]
    | apply reads_defer
    | apply reads_mfold; intros ? ?
    | match goal with |- reads (match ?x with _ => _ end) => destruct x end
    | progress cbv zeta ].
Ltac reads_auto := repeat reads_step.

Section handlers.
Context `{Host}.
Lemma reads_now : reads now.
Proof. unfold now. reads_auto. Qed.
Lemma reads_range : reads range.
Proof. unfold range. reads_auto. Qed.
Lemma reads_arg cmd i : reads (arg cmd i).
Proof. unfold arg. reads_auto. Qed.
#[local] Hint Resolve reads_now reads_range reads_arg : reads.
Lemma reads_sarg cmd i : reads (sarg cmd i).
Proof. unfold sarg. reads_auto. Qed.
#[local] Hint Resolve reads_sarg : reads.
Lemma reads_is_cmd cmd name : reads (is_cmd cmd name).
Proof. unfold is_cmd. reads_auto. Qed.
Lemma reads_err s : reads (err s).
Proof. apply reads_ret. Qed.
Lemma reads_wrong_type : reads wrong_type.
Proof. apply reads_ret. Qed.
Lemma reads_index {A} (l : list A) i : reads (Prelude.index l i).
Proof. unfold Prelude.index. reads_auto. Qed.
Lemma reads_GetTTL key : reads (MemDb_GetTTL key).
Proof. unfold MemDb_GetTTL. reads_auto. Qed.
Lemma reads_RLock key : reads (locks_RLock key).
Proof. apply reads_on_locks. Qed.
Lemma reads_RUnLock key : reads (locks_RUnLock key).
Proof. apply reads_on_locks. Qed.
Lemma reads_RLockMulti keys : reads (locks_RLockMulti keys).
Proof. apply reads_on_locks. Qed.
Lemma reads_RUnLockMulti keys : reads (locks_RUnLockMulti keys).
Proof. apply reads_on_locks. Qed.
#[local] Hint Resolve reads_is_cmd reads_err reads_wrong_type reads_index reads_GetTTL reads_RLock reads_RUnLock
  reads_RLockMulti reads_RUnLockMulti : reads.

Lemma reads_getString cmd : reads (getString cmd).
Proof. unfold getString. reads_auto. Qed.
Lemma reads_getRangeString cmd : reads (getRangeString cmd).
Proof. unfold getRangeString. reads_auto. Qed.
Lemma reads_mGetString cmd : reads (mGetString cmd).
Proof. unfold mGetString. reads_auto. Qed.
Lemma reads_strLenString cmd : reads (strLenString cmd).
Proof. unfold strLenString. reads_auto. Qed.
Lemma reads_pingKeys cmd : reads (pingKeys cmd).
Proof. unfold pingKeys. reads_auto. Qed.
Lemma reads_existsKey cmd : reads (existsKey cmd).
Proof. unfold existsKey. reads_auto. Qed.
Lemma reads_ttlKey cmd : reads (ttlKey cmd).
Proof. unfold ttlKey. reads_auto. Qed.
Lemma reads_typeKey cmd : reads (typeKey cmd).
Proof. unfold typeKey. reads_auto. Qed.
Lemma reads_keysKey cmd : reads (keysKey cmd).
Proof. unfold keysKey, keys_body. reads_auto. Qed.
Lemma reads_list_Len p : reads (list_Len p).
Proof. unfold list_Len. reads_auto. Qed.
#[local] Hint Resolve reads_list_Len : reads.
Lemma reads_lRangeList cmd : reads (lRangeList cmd).
Proof. unfold lRangeList. reads_auto. Qed.
Lemma reads_lIndexList cmd : reads (lIndexList cmd).
Proof. unfold lIndexList, list_pop. reads_auto. Qed.
Lemma reads_lLenList cmd : reads (lLenList cmd).
Proof. unfold lLenList. reads_auto. Qed.
Lemma reads_lPosList cmd : reads (lPosList cmd).
Proof. unfold lPosList. reads_auto. Qed.

Lemma reads_set_Members p : reads (set_Members p).
Proof. unfold set_Members. reads_auto. Qed.
Lemma reads_live_keys args : reads (live_keys args).
Proof. unfold live_keys. reads_auto. Qed.
Lemma reads_collect_sets keys sets : reads (collect_sets keys sets).
Proof. revert sets. induction keys as [|key keys IH]; intros sets; cbn [collect_sets]; reads_auto. Qed.
Lemma reads_load_sets ps : reads (load_sets ps).
Proof. unfold load_sets. reads_auto. Qed.
Lemma reads_random_source n : reads (random_source n).
Proof. unfold random_source. reads_auto. Qed.
#[local] Hint Resolve reads_set_Members reads_live_keys reads_collect_sets reads_load_sets reads_random_source : reads.
Lemma reads_intersect_sets ps : reads (intersect_sets ps).
Proof. unfold intersect_sets. reads_auto. Qed.
#[local] Hint Resolve reads_intersect_sets : reads.
Lemma reads_sUnionSet cmd : reads (sUnionSet cmd).
Proof. unfold sUnionSet. reads_auto. Qed.
Lemma reads_sRandMemberSet cmd : reads (sRandMemberSet cmd).
Proof. unfold sRandMemberSet. reads_auto. Qed.
Lemma reads_sMembersSet cmd : reads (sMembersSet cmd).
Proof. unfold sMembersSet. reads_auto. Qed.
Lemma reads_sIsMemberSet cmd : reads (sIsMemberSet cmd).
Proof. unfold sIsMemberSet. reads_auto. Qed.
Lemma reads_sInterSet cmd : reads (sInterSet cmd).
Proof. unfold sInterSet. reads_auto. Qed.
Lemma reads_sDiffSet cmd : reads (sDiffSet cmd).
Proof. unfold sDiffSet. reads_auto. Qed.
Lemma reads_sCardSet cmd : reads (sCardSet cmd).
Proof. unfold sCardSet. reads_auto. Qed.

Lemma reads_of_outcome {A} (o : outcome A) : reads (of_outcome o).
Proof. unfold of_outcome. reads_auto. Qed.
Lemma reads_hash_read key missing body : (∀ h, reads (body h)) → reads (hash_read key missing body).
Proof. intros Hb. unfold hash_read. reads_auto. Qed.
Lemma reads_orders_source n : reads (orders_source n).
Proof. unfold orders_source. reads_auto. Qed.
#[local] Hint Resolve reads_of_outcome reads_orders_source : reads.
#[local] Hint Extern 2 (reads (hash_read _ _ _)) => (apply reads_hash_read; intros ?; reads_auto) : reads.
Lemma reads_hRandFieldHash cmd : reads (hRandFieldHash cmd).
Proof. unfold hRandFieldHash. reads_auto. Qed.
Lemma reads_hStrLenHash cmd : reads (hStrLenHash cmd).
Proof. unfold hStrLenHash. reads_auto. Qed.
Lemma reads_hValsHash cmd : reads (hValsHash cmd).
Proof. unfold hValsHash. reads_auto. Qed.
Lemma reads_hKeysHash cmd : reads (hKeysHash cmd).
Proof. unfold hKeysHash. reads_auto. Qed.
Lemma reads_hLenHash cmd : reads (hLenHash cmd).
Proof. unfold hLenHash. reads_auto. Qed.
Lemma reads_hGetHash cmd : reads (hGetHash cmd).
Proof. unfold hGetHash. reads_auto. Qed.
Lemma reads_hMGetHash cmd : reads (hMGetHash cmd).
Proof. unfold hMGetHash. reads_auto. Qed.
Lemma reads_hExistsHash cmd : reads (hExistsHash cmd).
Proof. unfold hExistsHash. reads_auto. Qed.
Lemma reads_hGetAllHash cmd : reads (hGetAllHash cmd).
Proof. unfold hGetAllHash. reads_auto. Qed.

Lemma reads_zset_read key missing body : (∀ p, reads (body p)) → reads (zset_read key missing body).
Proof. intros Hb. unfold zset_read, with_zset. reads_auto. Qed.
#[local] Hint Extern 2 (reads (zset_read _ _ _)) => (apply reads_zset_read; intros ?; reads_auto) : reads.
Lemma reads_zCardZset cmd : reads (zCardZset cmd).
Proof. unfold zCardZset. reads_auto. Qed.
Lemma reads_zCountZset cmd : reads (zCountZset cmd).
Proof. unfold zCountZset. reads_auto. Qed.
Lemma reads_zRangeZset cmd : reads (zRangeZset cmd).
Proof. unfold zRangeZset, range_cmd. reads_auto. Qed.
Lemma reads_zRevRangeZset cmd : reads (zRevRangeZset cmd).
Proof. unfold zRevRangeZset, range_cmd. reads_auto. Qed.
Lemma reads_zRankZset cmd : reads (zRankZset cmd).
Proof. unfold zRankZset, rank_cmd. reads_auto. Qed.
Lemma reads_zRevRankZset cmd : reads (zRevRankZset cmd).
Proof. unfold zRevRankZset, rank_cmd. reads_auto. Qed.
Lemma reads_zScoreZset cmd : reads (zScoreZset cmd).
Proof. unfold zScoreZset. reads_auto. Qed.
Lemma reads_zRangeByScoreZset cmd : reads (zRangeByScoreZset cmd).
Proof. unfold zRangeByScoreZset, score_bounds. reads_auto. Qed.

Lemma reads_client cmd : reads (client cmd).
Proof. unfold client. reads_auto. Qed.
Lemma reads_scan cmd : reads (scan cmd).
Proof. unfold scan. reads_auto. Qed.
Lemma reads_quit cmd : reads (quit cmd).
Proof. unfold quit. reads_auto. Qed.
Lemma reads_infoConfig cmd : reads (infoConfig cmd).
Proof. unfold infoConfig. reads_auto. Qed.
Lemma reads_info cmd : reads (info cmd).
Proof. unfold info, formatServerSection, formatReplicationSection. reads_auto. Qed.
End handlers.
#[export] Hint Resolve reads_getString reads_getRangeString reads_mGetString reads_strLenString reads_pingKeys reads_existsKey
  reads_ttlKey reads_typeKey reads_keysKey reads_lRangeList reads_lIndexList reads_lLenList reads_lPosList reads_sUnionSet
  reads_sRandMemberSet reads_sMembersSet reads_sIsMemberSet reads_sInterSet reads_sDiffSet reads_sCardSet reads_hRandFieldHash
  reads_hStrLenHash reads_hValsHash reads_hKeysHash reads_hLenHash reads_hGetHash reads_hMGetHash reads_hExistsHash
  reads_hGetAllHash reads_zCardZset reads_zCountZset reads_zRangeZset reads_zRevRangeZset reads_zRankZset reads_zRevRankZset
  reads_zScoreZset reads_zRangeByScoreZset reads_client reads_scan reads_quit reads_infoConfig reads_info : reads.

(** ** The classification *)
(** The commands that write and that [IsWriteCommand] does not list. *)
Definition unlisted : list bytes := lit <$>
  ["incrby"; "decrby"; "incrbyfloat"; "setrange"; "lpushx"; "rpushx"; "lmove"; "sunionstore"; "sinterstore"; "sdiffstore";
   "zremrangebyrank"; "zremrangebyscore"]%string.

Section classified.
Context `{Host}.
(** Every name of the table is a write command, one of the unlisted ones, or reads. *)
Definition table_classified (t : gmap bytes (executor (S := Model))) : Prop :=
  ∀ name e, t !! name = Some e → map upper name ∈ write_commands ∨ name ∈ unlisted ∨ ∀ cmd, reads (e cmd).

Lemma table_classified_register name e t :
  map upper name ∈ write_commands ∨ name ∈ unlisted ∨ (∀ cmd, reads (e cmd)) →
  table_classified t → table_classified (RegisterCommand name e t).
Proof.
  intros He Ht n e'. unfold RegisterCommand. rewrite lookup_insert. case_decide; [|apply Ht]. subst. by intros [= <-].
Qed.
Lemma reads_replies (e : list slice → M Model RedisData) cmd : reads (e cmd) → reads (replies e cmd).
Proof. intros He. unfold replies. reads_auto. Qed.

Lemma CmdTable_classified : table_classified CmdTable.
Proof.
  unfold CmdTable, RegisterInfoCommands, RegisterZSetCommands, RegisterSetCommands, RegisterListCommands, RegisterHashCommands,
    RegisterStringCommands, RegisterKeyCommand. cbn [foldr].
  repeat (apply table_classified_register;
    [first [ right; right; intros cmd; apply reads_replies; solve [auto with reads]
           | left; apply (bool_decide_unpack _); vm_compute; exact I
           | right; left; apply (bool_decide_unpack _); vm_compute; exact I ]|]).
  intros name e. by rewrite lookup_empty.
Qed.
End classified.

Lemma upper_lower c : upper (lower c) = upper c.
Proof. by destruct c as [[] [] [] [] [] [] [] []]. Qed.

Section reads_theorem.
Context `{Host}.

(** A command with an ASCII name that the handler sends to [ReadCommand]. *)
Definition sent_as_read (cmd : list slice) : Prop :=
  is_ascii (str (List.hd None cmd)) = true ∧ IsWriteCommand cmd = false.

Lemma reads_ExecCommand cmd : sent_as_read cmd → cmd_name cmd ∉ unlisted → reads (ExecCommand CmdTable cmd).
Proof.
  intros [Ha Hw] Hu. unfold ExecCommand. destruct cmd as [|c args]; [apply reads_ret|]. cbv zeta.
  destruct (CmdTable !! ToLower (str c)) as [e|] eqn:E; [|apply reads_ret].
  destruct (CmdTable_classified _ _ E) as [Hin|[Hin|Hr]]; [|done|apply Hr].
  change (is_ascii (str c) = true) in Ha. unfold IsWriteCommand, ToUpper in Hw. unfold ToLower in Hin. rewrite Ha in Hw, Hin.
  apply bool_decide_eq_false in Hw. destruct Hw. rewrite map_map in Hin.
  by rewrite (map_ext (λ x, upper (lower x)) upper upper_lower) in Hin.
Qed.

(** C13: What the classification of commands is worth.  Take a command whose name is
    ASCII.  Apart from the twelve writing
    commands it forgets (and KEYS, treated elsewhere), if it is not listed
    as a write it changes no data: every list, set, hash and sorted set is as before,
    and a key is as before or has gone because its time has passed.  It releases its
    locks and never fails fatally.  So executing it on the leader alone is right.
    (Other names can be spelled so that [ToLower] finds a command and [ToUpper] misses the
    list: the I with a dot of U+0130 makes an INCR that is executed and not replicated.) *)
Theorem Unreplicated_commands_read m cmd :
  heap_ok m → locks_free (m_locks m) → sent_as_read cmd → cmd_name cmd ∉ lit "keys" :: unlisted →
  match ExecCommand CmdTable cmd m with
  | (Ret _, m') => decays m m' ∧ m_locks m' = m_locks m
  | (Panics, m') => decays m m' ∧ m_locks m' = m_locks m ∧ cmd_name cmd ∈ may_panic_names
  | (Fatals, _) => False
  | (Blocks, m') => overlong m' ∨ cmd_name cmd = lit "hrandfield"
  end.
Proof.
  intros Hh Hl Hs [Hk Hu]%not_elem_of_cons. pose proof (reads_ExecCommand cmd Hs Hu m) as Hr.
  assert (cmd_name cmd ∉ excluded) as Hx.
  { unfold excluded. cbn. rewrite !elem_of_cons, elem_of_nil. intros [E|[E|[]]]; [|done].
    apply Hu. rewrite E. apply (bool_decide_unpack _). vm_compute. exact I. }
  pose proof (safe_ExecCommand (m_locks m) Hl cmd Hx m Hh (Forall_nil_2 _) eq_refl) as Hsafe. unfold mode_of in Hsafe.
  destruct (ExecCommand CmdTable cmd m) as [[r| | |] m']; cbn in Hsafe.
  - destruct Hsafe as (_ & _ & _ & ?). done.
  - destruct Hsafe as (Hp & _ & _ & ?). split_and!; [done..|]. by apply bool_decide_eq_true in Hp.
  - done.
  - destruct Hsafe as [?|Hb]; [by left|right]. by apply bool_decide_eq_true in Hb.
Qed.
End reads_theorem.

(** ** A concrete read *)
#[local] Existing Instance demo_host.
Lemma Unreplicated_commands_read_witness :
  (ExecCommand CmdTable (command ["LLEN"; "l"]%string) demo_model).1 = Ret (Some (MakeIntData 3)) ∧
  decays demo_model (ExecCommand CmdTable (command ["LLEN"; "l"]%string) demo_model).2.
Proof.
  assert ((ExecCommand CmdTable (command ["LLEN"; "l"]%string) demo_model).1 = Ret (Some (MakeIntData 3))) as E
    by (vm_compute; reflexivity).
  split; [exact E|].
  pose proof (Unreplicated_commands_read demo_model (command ["LLEN"; "l"]%string) demo_heap_ok) as Hr.
  destruct (ExecCommand CmdTable (command ["LLEN"; "l"]%string) demo_model) as [o m']. cbn [fst snd] in *. subst o. apply Hr.
  - apply (bool_decide_unpack _). vm_compute. exact I.
  - split; vm_compute; reflexivity.
  - apply (bool_decide_unpack _). vm_compute. exact I.
Defined.
