(* ===== verification/LockAudit.v ===== *)
(** * A store that audits the locks

    Every handler ([src/pkg/memdb]) is meant to read the value of a key only while it
    holds the key's lock, and to change it only while it holds the lock for writing.
    The handlers are written against the interface [Store], so they also run on a store
    that audits them: the reference store together with a record of every access to a
    value that the locks held at that moment do not cover.  The locks held are those of
    the table, since a run starts with a free table.  An object is covered by the lock of
    the key it was last obtained from or stored under; an object no key refers to yet
    belongs to its handler alone.  Expiry times have locks of their own ([TTL]).

    The auditing store is a second implementation of the interface, and answers as the
    reference store does ([tracks_ExecCommand]). *)

From Stdlib Require Import Ascii String ZArith Lia.
From stdpp Require Import prelude gmap list fin_maps.
From S2P Require Import Prelude Float RESP Util CMap Heap TTL Locks ListStruct ListPos ListOps SetStruct HashStruct ZSetStruct ZSetSpec ZSetRefine Store World Model.
From S2P Require Import Strings Keys ListCmds SetCmds HashCmds ZSetCmds Info Refine Safety.
Open Scope Z_scope.
#[local] Arguments CmdTable : simpl never.

(** ** The auditing store *)
(** An access to the value of a key that its lock does not cover. *)
Inductive access := ReadsValue (key : bytes) | WritesValue (key : bytes).

(** The reference store, the key of each object and the uncovered accesses. *)
Record Audit := mkAudit { au_model : Model; au_origin : value → option bytes; au_races : list access }.

#[export] Instance zSetNode_eq_dec : EqDecision zSetNode.
Proof. solve_decision. Defined.
#[export] Instance ZSet_eq_dec : EqDecision ZSet.
Proof. solve_decision. Defined.

Section audit.
Context `{Host}.

Definition mutex_of (l : Locks) (key : bytes) : rwmutex := default free_mutex (l !! Z.to_nat (GetKeyPos key l)).
Definition guards_read (l : Locks) (key : bytes) : bool := bool_decide (mutex_of l key ≠ free_mutex).
Definition guards_write (l : Locks) (key : bytes) : bool := Locks.writer (mutex_of l key).

Definition au_locks (a : Audit) : Locks := m_locks (au_model a).
Definition note (ok : bool) (x : access) (a : Audit) : Audit :=
  if ok then a else mkAudit (au_model a) (au_origin a) (au_races a ++ [x]).
Definition check_read (key : bytes) (a : Audit) : Audit := note (guards_read (au_locks a) key) (ReadsValue key) a.
Definition check_write (key : bytes) (a : Audit) : Audit := note (guards_write (au_locks a) key) (WritesValue key) a.
Definition check_object (write : bool) (v : value) (a : Audit) : Audit :=
  match au_origin a v with None => a | Some key => if write then check_write key a else check_read key a end.
Definition set_origin (v : value) (key : option bytes) (a : Audit) : Audit :=
  mkAudit (au_model a) (λ w, if decide (w = v) then key else au_origin a w) (au_races a).

Definition lift {A} (c : M Model A) : M Audit A := λ a,
  let '(o, m) := c (au_model a) in (o, mkAudit m (au_origin a) (au_races a)).
(** A new object has no key. *)
Definition lift_new (v : positive → value) (c : M Model positive) : M Audit positive := λ a,
  let '(o, a) := lift c a in (o, match o with Ret p => set_origin (v p) None a | _ => a end).
(** An operation on the object [v] writes if it changes what [get] finds of it. *)
Definition lift_object {A X} `{!EqDecision X} (get : Model → option X) (v : value) (c : M Model A) : M Audit A := λ a,
  lift c (check_object (negb (bool_decide (get (c (au_model a)).2 = get (au_model a)))) v a).

#[export] Instance Audit_Store : Store Audit := {
  db_Get key := λ a,
    let '(o, a) := lift (db_Get key) (check_read key a) in
    (o, match o with Ret (Some v) => set_origin v (Some key) a | _ => a end);
  db_Set key v := λ a, lift (db_Set key v) (set_origin v (Some key) (check_write key a));
  db_Delete key := λ a, lift (db_Delete key) (check_write key a);
  db_SetIfNotExist key v := λ a, lift (db_SetIfNotExist key v) (set_origin v (Some key) (check_write key a));
  db_Keys := lift db_Keys;
  ttl_CheckTTL t key := lift (ttl_CheckTTL t key);
  ttl_SetTTL key e := lift (ttl_SetTTL key e);
  ttl_RemoveTTL key := lift (ttl_RemoveTTL key);
  ttl_ExpireAt key := lift (ttl_ExpireAt key);
  on_locks c := lift (on_locks c);
  tick := lift tick;
  list_new := lift_new VList list_new;
  list_do p o := lift_object (λ m, m_lists m !! p) (VList p) (list_do p o);
  get_set p := λ a, lift (get_set p) (check_object false (VSet p) a);
  put_set p s := λ a, lift (put_set p s) (check_object true (VSet p) a);
  new_set s := lift_new VSet (new_set s);
  get_hash p := λ a, lift (get_hash p) (check_object false (VHash p) a);
  put_hash p h := λ a, lift (put_hash p h) (check_object true (VHash p) a);
  new_hash := lift_new VHash new_hash;
  on_zset A p c := lift_object (λ m, m_zsets m !! p) (VZSet p) (on_zset p c);
  new_zset := lift_new VZSet new_zset;
}.
End audit.


(** ** The audit changes no answer *)
(** [c] on the auditing store does to the reference store inside it what [c'] does. *)
Definition tracks {A} (c : M Audit A) (c' : M Model A) : Prop :=
  ∀ a, c' (au_model a) = ((c a).1, au_model (c a).2).

Section tracks.
Context `{Host}.

Lemma tracks_ret {A} (x : A) : tracks (mret x) (mret x).
Proof. done. Qed.
Lemma tracks_panic {A} : tracks (mpanic (A := A)) mpanic.
Proof. done. Qed.
Lemma tracks_block {A} : tracks (mblock (A := A)) mblock.
Proof. done. Qed.
Lemma tracks_bind {A B} (c : M Audit A) c' (f : A → M Audit B) f' :
  tracks c c' → (∀ x, tracks (f x) (f' x)) → tracks (c ≫= f) (c' ≫= f').
Proof. intros Hc Hf a. unfold mbind, M_bind. rewrite (Hc a). destruct (c a) as [[x| | |] a1]; try done. apply Hf. Qed.
Lemma tracks_defer {A} (f : M Audit unit) f' (c : M Audit A) c' :
  tracks f f' → tracks c c' → tracks (mdefer f c) (mdefer f' c').
Proof.
  intros Hf Hc a. unfold mdefer. rewrite (Hc a). destruct (c a) as [[x| | |] a1]; try done; cbn;
    rewrite (Hf a1); by destruct (f a1) as [[[]| | |] a2].
Qed.
Lemma tracks_mfold {A B} (f : B → A → M Audit B) f' b l :
  (∀ b x, tracks (f b x) (f' b x)) → tracks (mfold f b l) (mfold f' b l).
Proof.
  intros Hf. revert b. induction l as [|x l IH]; intros b; cbn [mfold]; [apply tracks_ret|]. apply tracks_bind; [apply Hf|]. apply IH.
Qed.

(** The checks leave the reference store as it is. *)
Lemma note_model ok x a : au_model (note ok x a) = au_model a.
Proof. by destruct ok. Qed.
Lemma check_object_model w v a : au_model (check_object w v a) = au_model a.
Proof. unfold check_object. destruct (au_origin a v); [|done]. destruct w; apply note_model. Qed.
Lemma tracks_lift {A} (c : M Model A) g : (∀ a, au_model (g a) = au_model a) → tracks (λ a, lift c (g a)) c.
Proof. intros Hg a. unfold lift. rewrite Hg. by destruct (c (au_model a)). Qed.
Lemma tracks_lift_new v (c : M Model positive) : tracks (lift_new v c) c.
Proof. intros a. unfold lift_new, lift. by destruct (c (au_model a)) as [[] m]. Qed.

Lemma tracks_db_Get key : tracks (db_Get key) (db_Get key).
Proof.
  intros a. cbn. unfold lift, check_read. rewrite note_model. cbn. by destruct (m_db (au_model a) !! key).
Qed.
Lemma tracks_db_Set key v : tracks (db_Set key v) (db_Set key v).
Proof. apply (tracks_lift (db_Set key v)). intros a. apply note_model. Qed.
Lemma tracks_db_SetIfNotExist key v : tracks (db_SetIfNotExist key v) (db_SetIfNotExist key v).
Proof. apply (tracks_lift (db_SetIfNotExist key v)). intros a. apply note_model. Qed.
Lemma tracks_db_Delete key : tracks (db_Delete key) (db_Delete key).
Proof. apply (tracks_lift (db_Delete key)). intros a. apply note_model. Qed.
Lemma tracks_db_Keys : tracks db_Keys db_Keys.
Proof. by apply tracks_lift. Qed.
Lemma tracks_ttl_CheckTTL t key : tracks (ttl_CheckTTL t key) (ttl_CheckTTL t key).
Proof. by apply tracks_lift. Qed.
Lemma tracks_ttl_SetTTL key e : tracks (ttl_SetTTL key e) (ttl_SetTTL key e).
Proof. by apply tracks_lift. Qed.
Lemma tracks_ttl_RemoveTTL key : tracks (ttl_RemoveTTL key) (ttl_RemoveTTL key).
Proof. by apply tracks_lift. Qed.
Lemma tracks_ttl_ExpireAt key : tracks (ttl_ExpireAt key) (ttl_ExpireAt key).
Proof. by apply tracks_lift. Qed.
Lemma tracks_on_locks c : tracks (on_locks c) (on_locks c).
Proof. by apply tracks_lift. Qed.
Lemma tracks_tick : tracks tick tick.
Proof. by apply tracks_lift. Qed.
Lemma tracks_list_new : tracks list_new list_new.
Proof. apply tracks_lift_new. Qed.
Lemma tracks_new_set s : tracks (new_set s) (new_set s).
Proof. apply (tracks_lift_new _ (new_set s)). Qed.
Lemma tracks_new_hash : tracks new_hash new_hash.
Proof. apply tracks_lift_new. Qed.
Lemma tracks_new_zset : tracks new_zset new_zset.
Proof. apply tracks_lift_new. Qed.
Lemma tracks_list_do p o : tracks (list_do p o) (list_do p o).
Proof. apply (tracks_lift (list_do p o)). intros a. apply check_object_model. Qed.
Lemma tracks_get_set p : tracks (get_set p) (get_set p).
Proof. apply (tracks_lift (get_set p)). intros a. apply check_object_model. Qed.
Lemma tracks_put_set p s : tracks (put_set p s) (put_set p s).
Proof. apply (tracks_lift (put_set p s)). intros a. apply check_object_model. Qed.
Lemma tracks_get_hash p : tracks (get_hash p) (get_hash p).
Proof. apply (tracks_lift (get_hash p)). intros a. apply check_object_model. Qed.
Lemma tracks_put_hash p h : tracks (put_hash p h) (put_hash p h).
Proof. apply (tracks_lift (put_hash p h)). intros a. apply check_object_model. Qed.
Lemma tracks_on_zset {A} p (c : M ZSet A) : tracks (on_zset p c) (on_zset p c).
Proof. apply (tracks_lift (on_zset p c)). intros a. apply check_object_model. Qed.
Lemma tracks_arg cmd i : tracks (arg cmd i) (arg cmd i).
Proof. unfold arg. by destruct (cmd !! i). Qed.
Lemma tracks_index {A} (l : list A) i : tracks (Prelude.index l i) (Prelude.index l i).
Proof. unfold Prelude.index. by destruct (l !! i). Qed.
Lemma tracks_of_outcome {A} (o : outcome A) : tracks (of_outcome o) (of_outcome o).
Proof. by destruct o. Qed.
End tracks.

Create HintDb tracks.
#[export] Hint Resolve tracks_ret tracks_panic tracks_block tracks_db_Get tracks_db_Set tracks_db_SetIfNotExist tracks_db_Delete
  tracks_db_Keys tracks_ttl_CheckTTL tracks_ttl_SetTTL tracks_ttl_RemoveTTL tracks_ttl_ExpireAt tracks_on_locks tracks_tick
  tracks_list_new tracks_new_set tracks_new_hash tracks_new_zset tracks_list_do tracks_get_set tracks_put_set tracks_get_hash
  tracks_put_hash tracks_on_zset tracks_arg tracks_index tracks_of_outcome : tracks.
Ltac tracks_step :=
  cbv beta zeta;
  lazymatch goal with
  | |- tracks (_ ≫= _) _ => apply tracks_bind; [|intros ?]
  | |- tracks (mdefer _ _) _ => apply tracks_defer
  | |- tracks (mfold _ _ _) _ => apply tracks_mfold; intros ? ?
  | |- tracks (match ?x with _ => _ end) _ => destruct x
  | |- _ => solve [auto with tracks]
  end.
Ltac tracks_auto := repeat tracks_step.

Section tracks_loops.
Context `{Host}.
Lemma tracks_list_pop p o : tracks (list_pop p o) (list_pop p o).
Proof. unfold list_pop. tracks_auto. Qed.
#[local] Hint Resolve tracks_list_pop : tracks.
Lemma tracks_DelTTL key : tracks (MemDb_DelTTL key) (MemDb_DelTTL key).
Proof. unfold MemDb_DelTTL. tracks_auto. Qed.
Lemma tracks_pop_many pop p cnt res : tracks (pop_many pop p cnt res) (pop_many pop p cnt res).
Proof. revert res. induction cnt; intros res; cbn [pop_many]; tracks_auto. Qed.
Lemma tracks_spop_many p n res : tracks (spop_many p n res) (spop_many p n res).
Proof. revert res. induction n; intros res; cbn [spop_many]; unfold set_Pop, range; tracks_auto. Qed.
Lemma tracks_collect_sets keys sets : tracks (collect_sets keys sets) (collect_sets keys sets).
Proof. revert sets. induction keys; intros sets; cbn [collect_sets]; tracks_auto. Qed.
Lemma tracks_zadd_loop p args n : tracks (zadd_loop p args n) (zadd_loop p args n).
Proof.
  revert n. induction args as [args IH] using (induction_ltof1 _ (@length _)); intros n.
  destruct args as [|s [|k args]]; cbn [zadd_loop]; unfold level_source, err; tracks_auto. apply IH. unfold ltof. cbn. lia.
Qed.
End tracks_loops.
#[export] Hint Resolve tracks_list_pop tracks_DelTTL tracks_pop_many tracks_spop_many tracks_collect_sets tracks_zadd_loop : tracks.

(** The handlers, which are all built from the operations above. *)
Create HintDb handlers.
#[export] Hint Unfold setString getString setRangeString getRangeString mSetString mGetString setExString setNxString strLenString incr_body
  incrString incrByString decrString decrByString incrByFloatString appendString client scan quit infoConfig pingKeys
  delKey existsKey keysKey keys_body expireKey persistKey ttlKey typeKey renameKey info formatServerSection
  formatReplicationSection lMoveList lRangeList lTrimList lRemList lSetList rPushXList rPushList lPushXList lPushList
  rPopList lPopList lPosList lIndexList lLenList list_Len drop_if_empty push_all pushx_body push_body pop_body pop_count
  set_Add set_Remove set_Pop set_Members drop_if_empty_set live_keys random_source load_sets intersect_sets dest_ok
  store_set sUnionStoreSet sUnionSet sInterStoreSet sDiffStoreSet sRemSet sPopSet sMoveSet sMembersSet sIsMemberSet
  sInterSet sDiffSet sCardSet sAddSet sRandMemberSet hash_for_update hash_read orders_source hStrLenHash hSetNxHash
  hIncrByHash hIncrByFloatHash hValsHash hKeysHash hLenHash hSetHash hGetHash hMGetHash hDelHash hExistsHash hGetAllHash
  hRandFieldHash level_source zset_for_update with_zset zset_read zset_write score_bounds zAddZset zCardZset zCountZset
  zRangeZset zRevRangeZset range_cmd zRankZset zRevRankZset rank_cmd zRemZset zScoreZset zRangeByScoreZset zIncrByZset
  zRemRangeByRankZset zRemRangeByScoreZset now range sarg is_cmd err wrong_type MemDb_CheckTTL MemDb_SetTTL
  MemDb_GetTTL locks_Lock locks_UnLock locks_RLock locks_RUnLock locks_LockMulti locks_UnLockMulti locks_RLockMulti
  locks_RUnLockMulti replies : handlers.

Section tracks_table.
Context `{Host}.
Definition table_tracks (t : gmap bytes (executor (S := Audit))) (t' : gmap bytes (executor (S := Model))) : Prop :=
  ∀ name, match t !! name, t' !! name with
          | Some e, Some e' => ∀ cmd, tracks (e cmd) (e' cmd)
          | None, None => True
          | _, _ => False
          end.
Lemma table_tracks_register name e e' t t' :
  (∀ cmd, tracks (e cmd) (e' cmd)) → table_tracks t t' → table_tracks (RegisterCommand name e t) (RegisterCommand name e' t').
Proof. intros He Ht n. unfold RegisterCommand. rewrite !lookup_insert. case_decide; [done|apply Ht]. Qed.

Lemma CmdTable_tracks : table_tracks CmdTable CmdTable.
Proof.
  unfold CmdTable, RegisterInfoCommands, RegisterZSetCommands, RegisterSetCommands, RegisterListCommands, RegisterHashCommands,
    RegisterStringCommands, RegisterKeyCommand. cbn [foldr].
  repeat (apply table_tracks_register; [intros cmd; autounfold with handlers; tracks_auto|]).
  intros name. by rewrite !lookup_empty.
Qed.
(** The auditing store gives every command the reply, and the data, of the reference
    store. *)
Lemma tracks_ExecCommand cmd : tracks (ExecCommand CmdTable cmd) (ExecCommand CmdTable cmd).
Proof.
  unfold ExecCommand. destruct cmd as [|c args]; [apply tracks_ret|]. cbv zeta.
  pose proof (CmdTable_tracks (ToLower (str c))) as Ht.
  destruct (CmdTable (S := Audit) !! _), (CmdTable (S := Model) !! _); [apply Ht|done..|apply tracks_ret].
Qed.
End tracks_table.
