(* ===== verification/Races.v ===== *)
(** * Lock discipline of the command handlers

    A third small program logic, for handlers on the auditing store of [LockAudit]: which
    objects a handler holds that the locks cover, and which locks it holds.  With the
    exclusion of the locks ([LockOrder]), a command that makes no uncovered access cannot
    race with another one on the value of a key.  All commands but SUNIONSTORE,
    SINTERSTORE and SDIFFSTORE are of that kind. *)

From Stdlib Require Import Ascii String ZArith Lia.
From stdpp Require Import prelude gmap list fin_maps.
From S2P Require Import Prelude Float RESP Util CMap Heap TTL Locks ListStruct ListPos ListOps SetStruct HashStruct ZSetStruct ZSetSpec ZSetRefine Store World Model.
From S2P Require Import Strings Keys ListCmds SetCmds HashCmds ZSetCmds Info Refine Safety Server Reads LockAudit.
Open Scope Z_scope.
#[local] Arguments CmdTable : simpl never.

(** ** A program logic *)
Section logic.
Context `{Host}.

(** The handler may use [v]: it has no key, or the lock of its key is held. *)
Definition covered (a : Audit) (v : value) : Prop :=
  match au_origin a v with None => True | Some key => guards_read (au_locks a) key = true end.

(** From a state with the locks [L] in which [V] is covered, [c] makes no uncovered
    access; if it returns [x], the locks are [L'] and [r x] is covered.  With a frame
    [F] the objects of [F] stay covered, and the locks held, also when it panics. *)
Definition framed (F : option (list value)) (a : Audit) : Prop :=
  match F with Some W => Forall (covered a) W | None => True end.
Definition audited {A} (F : option (list value)) (V : list value) (L : Locks) (c : M Audit A) (r : A → list value) (L' : Locks) : Prop :=
  ∀ a, au_races a = [] → au_locks a = L → framed F a → Forall (covered a) V →
    au_races (c a).2 = [] ∧
    match (c a).1 with
    | Ret x => au_locks (c a).2 = L' ∧ framed F (c a).2 ∧ Forall (covered (c a).2) (r x)
    | Panics => match F with Some _ => au_locks (c a).2 = L ∧ framed F (c a).2 | None => True end
    | _ => True
    end.

(** It makes no access at all. *)
Definition quiet {A} (c : M Audit A) : Prop := ∀ a, au_races (c a).2 = au_races a.

(** All locks that are held are held for writing. *)
Definition exclusive (L : Locks) : Prop := ∀ key, guards_read L key = true → guards_write L key = true.

Implicit Types (F : option (list value)) (V : list value) (L : Locks).

Lemma audited_ret {A} F V L (x : A) : audited F V L (mret x) (λ _, V) L.
Proof. intros a Hr HL Hf Hv. by split_and!. Qed.
Lemma audited_ret_in {A} F V L (x : A) r : r x ⊆ V → audited F V L (mret x) r L.
Proof. intros Hs a Hr HL Hf Hv. cbn. split_and!; [done..|]. rewrite Forall_forall in Hv |- *. intros v Hin. by apply Hv, Hs. Qed.
Lemma audited_panic {A} F V L r : audited F V L (mpanic (A := A)) r L.
Proof. intros a Hr HL Hf Hv. split; [done|]. by destruct F. Qed.
Lemma audited_bind {A B} F V L (c : M Audit A) r L1 (f : A → M Audit B) r' L' :
  audited F V L c r L1 → match F with Some _ => L1 = L | None => True end →
  (∀ x, audited F (r x) L1 (f x) r' L') → audited F V L (c ≫= f) r' L'.
Proof.
  intros Hc HF Hf a Hr HL Hfr Hv. specialize (Hc a Hr HL Hfr Hv). unfold mbind, M_bind.
  destruct (c a) as [[x| | |] a']; simpl in *; [|done..]. destruct Hc as (Hr' & HL' & Hfr' & Hv').
  specialize (Hf x a' Hr' HL' Hfr' Hv'). destruct (f x a') as [[y| | |] a'']; simpl in *; try done.
  destruct F; [|done]. by rewrite <- HF.
Qed.
Lemma audited_weaken {A} F V L (c : M Audit A) r r' L' :
  audited F V L c r L' → (∀ x, r' x ⊆ r x) → audited F V L c r' L'.
Proof.
  intros Hc Hsub a Hr HL Hf Hv. specialize (Hc a Hr HL Hf Hv). destruct (c a) as [[x| | |] a']; simpl in *; try done.
  destruct Hc as (? & ? & ? & Hv'). split_and!; [done..|]. rewrite Forall_forall in Hv' |- *. intros v Hin. by apply Hv', (Hsub x).
Qed.
Lemma audited_eq {A} F V L (c c' : M Audit A) r L' : (∀ a, c a = c' a) → audited F V L c' r L' → audited F V L c r L'.
Proof. intros E Hc a. rewrite E. apply Hc. Qed.
Lemma audited_ret_bind {A B} F V L (x : A) (f : A → M Audit B) r L' :
  audited F V L (f x) r L' → audited F V L (mret x ≫= f) r L'.
Proof. intros Hc. eapply audited_eq; [|exact Hc]. done. Qed.
Lemma audited_assoc {A B C} F V L (c : M Audit C) (g : C → M Audit A) (f : A → M Audit B) r L' :
  audited F V L (c ≫= λ x, g x ≫= f) r L' → audited F V L ((c ≫= g) ≫= f) r L'.
Proof. intros Hc. eapply audited_eq; [|exact Hc]. intros a. apply bind_assoc. Qed.
Lemma audited_panic_bind {A B} F V L (f : A → M Audit B) r L' : audited F V L (mpanic ≫= f) r L'.
Proof. intros a Hr HL Hf Hv. split; [done|]. simpl. by destruct F. Qed.
Lemma audited_panics {A} V L r L' : audited None V L (mpanic (A := A)) r L'.
Proof. intros a Hr HL Hf Hv. by split. Qed.

(** A deferred function that makes no access. *)
Lemma audited_defer {A} V L (f : M Audit unit) (body : M Audit A) L' :
  quiet f → audited None [] L f (λ _, []) L' → audited None V L body (λ _, []) L →
  audited None V L (mdefer f body) (λ _, []) L'.
Proof.
  intros Hq Hf Hb a Hr HL Hfr Hv. specialize (Hb a Hr HL Hfr Hv). unfold mdefer.
  destruct (body a) as [[x| | |] a'] eqn:E; simpl in *.
  - destruct Hb as (Hr' & HL' & _). specialize (Hf a' Hr' HL' I (Forall_nil_2 _)).
    destruct (f a') as [[[]| | |] a'']; simpl in *; by destruct Hf.
  - destruct Hb as [Hr' _]. pose proof (Hq a') as Hqa. destruct (f a') as [[[]| | |] a'']; simpl in *; (split; [congruence|done]).
  - by destruct Hb.
  - by destruct Hb.
Qed.
(** One that uses the objects of a frame. *)
Lemma audited_defer_framed {A} V L (f : M Audit unit) (body : M Audit A) L' :
  audited None V L f (λ _, []) L' → audited (Some V) V L body (λ _, []) L →
  audited None V L (mdefer f body) (λ _, []) L'.
Proof.
  intros Hf Hb a Hr HL _ Hv. specialize (Hb a Hr HL Hv Hv). unfold mdefer.
  destruct (body a) as [[x| | |] a'] eqn:E; simpl in *; [| |by destruct Hb..].
  - destruct Hb as (Hr' & HL' & Hv' & _). specialize (Hf a' Hr' HL' I Hv'). destruct (f a') as [[[]| | |] a'']; simpl in *; by destruct Hf.
  - destruct Hb as (Hr' & HL' & Hv'). specialize (Hf a' Hr' HL' I Hv'). destruct (f a') as [[[]| | |] a'']; simpl in *; by destruct Hf.
Qed.

Lemma audited_mfold_in {A B} F V L (f : B → A → M Audit B) b l :
  (∀ b x, x ∈ l → audited F V L (f b x) (λ _, V) L) → audited F V L (mfold f b l) (λ _, V) L.
Proof.
  revert b. induction l as [|x l IH]; intros b Hf; cbn [mfold]; [apply audited_ret|].
  eapply audited_bind; [apply Hf; left|by destruct F|]. intros b'. apply IH. intros b'' y Hy. apply Hf. by right.
Qed.

(** ** Locks *)
Lemma mutex_of_hold h keys L key : locks_free L → key ∈ keys → mutex_of (hold h keys L) key = h.
Proof.
  intros Hl Hk. unfold mutex_of. rewrite GetKeyPos_hold.
  destruct (hold h keys L !! Z.to_nat (GetKeyPos key L)) as [m|] eqn:E; simpl; [eapply hold_lookup; eauto; apply Hl|].
  apply lookup_ge_None in E. rewrite hold_length in E. pose proof (GetKeyPos_range key L (proj1 Hl)) as Hr.
  unfold zlen in Hr. lia.
Qed.
Lemma mutex_of_hold_or h keys L key : locks_free L → mutex_of (hold h keys L) key = h ∨ mutex_of (hold h keys L) key = free_mutex.
Proof.
  intros Hl. unfold mutex_of. rewrite GetKeyPos_hold. unfold hold. rewrite hold_at_lookup.
  destruct (L !! _) as [m|] eqn:E; simpl; [|by right]. apply (free_lookup L) in E as ->; [|done]. case_decide; auto.
Qed.
Lemma guards_write_read L key : guards_write L key = true → guards_read L key = true.
Proof. unfold guards_write, guards_read. intros Hw. apply bool_decide_eq_true_2. intros E. by rewrite E in Hw. Qed.
Lemma held_read h keys L key : locks_free L → h ≠ free_mutex → key ∈ keys → guards_read (hold h keys L) key = true.
Proof. intros Hl Hh Hk. unfold guards_read. rewrite mutex_of_hold by done. by apply bool_decide_eq_true_2. Qed.
Lemma held_write keys L key : locks_free L → key ∈ keys → guards_write (hold write_held keys L) key = true.
Proof. intros Hl Hk. unfold guards_write. by rewrite mutex_of_hold. Qed.
Lemma held_exclusive keys L : locks_free L → exclusive (hold write_held keys L).
Proof.
  intros Hl key. unfold guards_read, guards_write. intros Hr%bool_decide_eq_true.
  by destruct (mutex_of_hold_or write_held keys L key Hl) as [->|E].
Qed.
Lemma free_unguarded L key : locks_free L → guards_read L key = false.
Proof.
  intros Hl. unfold guards_read, mutex_of. apply bool_decide_eq_false_2. intros Hne. apply Hne.
  destruct (L !! _) as [m|] eqn:E; [|done]. by apply (free_lookup L) in E.
Qed.

Lemma audited_locks c V L L' :
  c L = (Ret tt, L') → (∀ key, guards_read L key = true → guards_read L' key = true) →
  audited None V L (on_locks c) (λ _, V) L'.
Proof.
  intros E Hmono a Hr HL Hf Hv. unfold au_locks in HL. cbn. unfold lift. cbn. rewrite HL, E. cbn. split_and!; [done..|].
  rewrite Forall_forall in Hv |- *. intros v Hin. specialize (Hv v Hin). unfold covered, au_locks in *. cbn.
  destruct (au_origin a v); [|done]. rewrite HL in Hv. auto.
Qed.
Lemma audited_unlock c V L L' : c L = (Ret tt, L') → audited None V L (on_locks c) (λ _, []) L'.
Proof. intros E a Hr HL Hf Hv. unfold au_locks in HL. cbn. unfold lift. cbn. rewrite HL, E. cbn. by split_and!. Qed.
Lemma quiet_locks c : quiet (on_locks c).
Proof. intros a. cbn. unfold lift. cbn. by destruct (c _). Qed.

Lemma audited_acquire c V L L' : locks_free L → c L = (Ret tt, L') → audited None V L (on_locks c) (λ _, V) L'.
Proof. intros Hl E. apply audited_locks; [done|]. intros key. by rewrite free_unguarded. Qed.
Lemma audited_Lock V L key : locks_free L → audited None V L (locks_Lock key) (λ _, V) (hold write_held [key] L).
Proof. intros Hl. by apply audited_acquire, Lock_free. Qed.
Lemma audited_RLock V L key : locks_free L → audited None V L (locks_RLock key) (λ _, V) (hold read_held [key] L).
Proof. intros Hl. by apply audited_acquire, RLock_free. Qed.
Lemma audited_LockMulti V L keys : locks_free L → audited None V L (locks_LockMulti keys) (λ _, V) (hold write_held keys L).
Proof. intros Hl. by apply audited_acquire, LockMulti_free. Qed.
Lemma audited_RLockMulti V L keys : locks_free L → audited None V L (locks_RLockMulti keys) (λ _, V) (hold read_held keys L).
Proof. intros Hl. by apply audited_acquire, RLockMulti_free. Qed.
Lemma audited_UnLock V L key : locks_free L → audited None V (hold write_held [key] L) (locks_UnLock key) (λ _, []) L.
Proof. intros Hl. by apply audited_unlock, UnLock_held. Qed.
Lemma audited_RUnLock V L key : locks_free L → audited None V (hold read_held [key] L) (locks_RUnLock key) (λ _, []) L.
Proof. intros Hl. by apply audited_unlock, RUnLock_held. Qed.
Lemma audited_UnLockMulti V L keys : locks_free L → audited None V (hold write_held keys L) (locks_UnLockMulti keys) (λ _, []) L.
Proof. intros Hl. by apply audited_unlock, UnLockMulti_held. Qed.
Lemma audited_RUnLockMulti V L keys : locks_free L → audited None V (hold read_held keys L) (locks_RUnLockMulti keys) (λ _, []) L.
Proof. intros Hl. by apply audited_unlock, RUnLockMulti_held. Qed.
End logic.

(** ** The operations of the store *)
Section ops.
Context `{Host}.
Implicit Types (F : option (list value)) (V : list value) (L : Locks).

Lemma framed_mono F a a' : (∀ w, covered a w → covered a' w) → framed F a → framed F a'.
Proof. intros Hm. destruct F; [|done]. intros Hw. by eapply Forall_impl. Qed.
(** Operations that keep the locks and what is covered. *)
Lemma audited_op {A} F V L (c : M Audit A) r :
  (∀ a, au_races a = [] → au_locks a = L → Forall (covered a) V →
     au_races (c a).2 = [] ∧ au_locks (c a).2 = L ∧ (∀ w, covered a w → covered (c a).2 w) ∧
     match (c a).1 with Ret x => Forall (covered (c a).2) (r x) | _ => True end) →
  audited F V L c r L.
Proof.
  intros Hc a Hr HL Hf Hv. destruct (Hc a Hr HL Hv) as (Hr' & HL' & Hm & Hx). split; [done|].
  pose proof (framed_mono F _ _ Hm Hf). destruct (c a) as [[x| | |] a']; simpl in *; [done| |done..]. by destruct F.
Qed.

(** Operations that touch neither values nor locks. *)
Lemma covered_lift {A} (c : M Model A) a w : (∀ m, m_locks (c m).2 = m_locks m) → covered a w → covered (lift c a).2 w.
Proof.
  intros Hc. unfold covered, au_locks, lift. specialize (Hc (au_model a)). destruct (c (au_model a)). simpl in *. by rewrite Hc.
Qed.
Lemma races_lift {A} (c : M Model A) a : au_races (lift c a).2 = au_races a.
Proof. unfold lift. by destruct (c _). Qed.
Lemma locks_lift {A} (c : M Model A) a : (∀ m, m_locks (c m).2 = m_locks m) → au_locks (lift c a).2 = au_locks a.
Proof. intros Hc. unfold lift, au_locks. specialize (Hc (au_model a)). by destruct (c _). Qed.
Lemma audited_lift {A} F V L (c : M Model A) :
  (∀ m, m_locks (c m).2 = m_locks m) → audited F V L (lift c) (λ _, V) L.
Proof.
  intros Hc. apply audited_op. intros a Hr HL Hv. rewrite races_lift, locks_lift by done. split_and!; [done|done|intros; by apply covered_lift|].
  destruct ((lift c a).1); [|done..]. eapply Forall_impl; [exact Hv|]. intros; by apply covered_lift.
Qed.
Lemma audited_tick F V L : audited F V L tick (λ _, V) L.
Proof. by apply audited_lift. Qed.
Lemma audited_db_Keys F V L : audited F V L db_Keys (λ _, V) L.
Proof. by apply audited_lift. Qed.
Lemma audited_ttl_CheckTTL F V L t key : audited F V L (ttl_CheckTTL t key) (λ _, V) L.
Proof. apply audited_lift. intros m. cbn. by destruct (expired _ _). Qed.
Lemma audited_ttl_SetTTL F V L key e : audited F V L (ttl_SetTTL key e) (λ _, V) L.
Proof. by apply audited_lift. Qed.
Lemma audited_ttl_RemoveTTL F V L key : audited F V L (ttl_RemoveTTL key) (λ _, V) L.
Proof. by apply audited_lift. Qed.
Lemma audited_ttl_ExpireAt F V L key : audited F V L (ttl_ExpireAt key) (λ _, V) L.
Proof. by apply audited_lift. Qed.

(** Giving a value a key whose lock is held, or none, keeps everything covered. *)
Lemma covered_set_origin a v k w :
  match k with Some key => guards_read (au_locks a) key = true | None => True end →
  covered a w → covered (set_origin v k a) w.
Proof. unfold covered, au_locks. simpl. intros Hk Hw. case_decide; [by destruct k|done]. Qed.
Lemma covered_set_origin_new a v k :
  match k with Some key => guards_read (au_locks a) key = true | None => True end → covered (set_origin v k a) v.
Proof. unfold covered, au_locks. simpl. intros Hk. rewrite decide_True by done. by destruct k. Qed.
Lemma check_read_ok key a : guards_read (au_locks a) key = true → check_read key a = a.
Proof. unfold check_read, note. by intros ->. Qed.
Lemma check_write_ok key a : guards_write (au_locks a) key = true → check_write key a = a.
Proof. unfold check_write, note. by intros ->. Qed.

Lemma audited_db_Get F V L key :
  guards_read L key = true → audited F V L (db_Get key) (λ r, match r with Some v => v :: V | None => V end) L.
Proof.
  intros Hg. apply audited_op. intros a Hr HL Hv. subst L. cbn. rewrite check_read_ok by done. unfold lift. cbn.
  destruct a as [m or rs]. simpl in *. destruct (m_db m !! key) as [v|]; simpl; [|by split_and!].
  split_and!; [done|done|intros w; by apply covered_set_origin|].
  constructor; [by apply covered_set_origin_new|]. eapply Forall_impl; [exact Hv|]. intros w. by apply covered_set_origin.
Qed.
Lemma audited_store {A} F V L key v (c : M Model A) :
  guards_write L key = true → (∀ m, m_locks (c m).2 = m_locks m) →
  audited F V L (λ a, lift c (set_origin v (Some key) (check_write key a))) (λ _, V) L.
Proof.
  intros Hg Hc. apply audited_op. intros a Hr HL Hv. subst L. rewrite check_write_ok by done. rewrite races_lift, locks_lift by done.
  assert (∀ w, covered a w → covered (lift c (set_origin v (Some key) a)).2 w) as Hm.
  { intros w Hw. apply covered_lift; [done|]. apply covered_set_origin; [|done]. by apply guards_write_read. }
  split_and!; [done|done|done|]. destruct ((lift c _).1); [|done..]. by eapply Forall_impl.
Qed.
Lemma audited_db_Set F V L key v : guards_write L key = true → audited F V L (db_Set key v) (λ _, V) L.
Proof. intros Hg. by apply (audited_store F V L key v (db_Set key v)). Qed.
Lemma audited_db_SetIfNotExist F V L key v : guards_write L key = true → audited F V L (db_SetIfNotExist key v) (λ _, V) L.
Proof. intros Hg. by apply (audited_store F V L key v (db_SetIfNotExist key v)). Qed.
Lemma audited_db_Delete F V L key : guards_write L key = true → audited F V L (db_Delete key) (λ _, V) L.
Proof.
  intros Hg a Hr HL Hf Hv. subst L. change (db_Delete key a) with (lift (db_Delete key) (check_write key a)).
  rewrite check_write_ok by done. by apply audited_lift.
Qed.

(** New objects. *)
Lemma audited_new F V L f (c : M Model positive) :
  (∀ m, m_locks (c m).2 = m_locks m) → audited F V L (lift_new f c) (λ p, f p :: V) L.
Proof.
  intros Hc. apply audited_op. intros a Hr HL Hv. unfold lift_new.
  pose proof (races_lift c a) as Hr'. pose proof (locks_lift c a Hc) as HL'. pose proof (λ w, covered_lift c a w Hc) as Hm.
  destruct (lift c a) as [[p| | |] a']; simpl in *; [|split_and!; (done || congruence)..]. rewrite Hr', <- HL.
  split_and!; [done|done|intros w Hw; by apply covered_set_origin, Hm|].
  constructor; [by apply covered_set_origin_new|]. eapply Forall_impl; [exact Hv|]. intros w Hw. by apply covered_set_origin, Hm.
Qed.
Lemma audited_list_new F V L : audited F V L list_new (λ p, VList p :: V) L.
Proof. by apply (audited_new F V L VList). Qed.
Lemma audited_new_set F V L s : audited F V L (new_set s) (λ p, VSet p :: V) L.
Proof. by apply (audited_new F V L VSet (new_set s)). Qed.
Lemma audited_new_hash F V L : audited F V L new_hash (λ p, VHash p :: V) L.
Proof. by apply (audited_new F V L VHash). Qed.
Lemma audited_new_zset F V L : audited F V L new_zset (λ p, VZSet p :: V) L.
Proof. by apply (audited_new F V L VZSet). Qed.

(** Covered objects. *)
Lemma check_object_ok (w : bool) v a :
  covered a v → (w = true → exclusive (au_locks a)) → check_object w v a = a.
Proof.
  unfold covered, check_object. destruct (au_origin a v) as [key|]; [|done]. intros Hg Hw.
  destruct w; [apply check_write_ok, (Hw eq_refl key Hg)|by apply check_read_ok].
Qed.
Lemma audited_object {A} F V L (w : Audit → bool) v (c : M Model A) :
  v ∈ V → (∀ m, m_locks (c m).2 = m_locks m) → (∀ a, w a = true → exclusive L) →
  audited F V L (λ a, lift c (check_object (w a) v a)) (λ _, V) L.
Proof.
  intros Hin Hc Hw a Hr HL Hf Hv. rewrite check_object_ok.
  - by apply audited_lift.
  - rewrite Forall_forall in Hv. by apply Hv.
  - rewrite HL. apply Hw.
Qed.
Lemma audited_get_set F V L p : VSet p ∈ V → audited F V L (get_set p) (λ _, V) L.
Proof. intros Hp. apply (audited_object F V L (λ _, false)); [done| |done]. intros m. cbn. by destruct (m_sets m !! p). Qed.
Lemma audited_put_set F V L p s : VSet p ∈ V → exclusive L → audited F V L (put_set p s) (λ _, V) L.
Proof. intros Hp He. by apply (audited_object F V L (λ _, true) _ (put_set p s)). Qed.
Lemma audited_get_hash F V L p : VHash p ∈ V → audited F V L (get_hash p) (λ _, V) L.
Proof. intros Hp. apply (audited_object F V L (λ _, false)); [done| |done]. intros m. cbn. by destruct (m_hashes m !! p). Qed.
Lemma audited_put_hash F V L p h : VHash p ∈ V → exclusive L → audited F V L (put_hash p h) (λ _, V) L.
Proof. intros Hp He. by apply (audited_object F V L (λ _, true) _ (put_hash p h)). Qed.

Lemma locks_list_do p o (m : Model) : m_locks (list_do p o m).2 = m_locks m.
Proof. cbn. destruct (m_lists m !! p); [|done]. by case_decide. Qed.
Lemma locks_on_zset {A} p (c : M ZSet A) (m : Model) : m_locks (on_zset p c m).2 = m_locks m.
Proof. cbn. destruct (m_zsets m !! p) as [z|]; [|done]. by destruct (c z). Qed.

Lemma audited_list_do F V L p o : VList p ∈ V → exclusive L ∨ list_reads o → audited F V L (list_do p o) (λ _, V) L.
Proof.
  intros Hp Ho. eapply audited_object; [done|apply locks_list_do|]. intros a Hw. destruct Ho as [?|Ho]; [done|].
  apply negb_true_iff, bool_decide_eq_false in Hw. destruct Hw. cbn.
  destruct (m_lists (au_model a) !! p) as [vs|] eqn:E; [|done]. case_decide; simpl; [|done]. by rewrite lookup_insert_eq, Ho.
Qed.
Lemma audited_on_zset {A} F V L p (c : M ZSet A) : VZSet p ∈ V → exclusive L ∨ zreads c → audited F V L (on_zset p c) (λ _, V) L.
Proof.
  intros Hp Ho. eapply audited_object; [done|apply locks_on_zset|]. intros a Hw. destruct Ho as [?|Ho]; [done|].
  apply negb_true_iff, bool_decide_eq_false in Hw. destruct Hw. cbn.
  destruct (m_zsets (au_model a) !! p) as [z|] eqn:E; [|done]. specialize (Ho z). destruct (c z) as [o' z']; simpl in *.
  by rewrite lookup_insert_eq, Ho.
Qed.

(** Arguments. *)
Lemma audited_arg F V L cmd i : audited F V L (arg cmd i) (λ _, V) L.
Proof. unfold arg. destruct (cmd !! i); [apply audited_ret|apply audited_panic]. Qed.
Lemma audited_index {A} F V L (l : list A) i : audited F V L (Prelude.index l i) (λ _, V) L.
Proof. unfold Prelude.index. destruct (l !! i); [apply audited_ret|apply audited_panic]. Qed.
Lemma audited_sarg F V L cmd i : audited F V L (sarg cmd i) (λ _, V) L.
Proof. unfold sarg. eapply audited_bind; [apply audited_arg|by destruct F|]. intros x. apply audited_ret. Qed.
Lemma audited_is_cmd F V L cmd name : audited F V L (is_cmd cmd name) (λ _, V) L.
Proof. unfold is_cmd. eapply audited_bind; [apply audited_sarg|by destruct F|]. intros x. apply audited_ret. Qed.
Lemma audited_err F V L s : audited F V L (err s) (λ _, V) L.
Proof. apply audited_ret. Qed.
Lemma audited_wrong_type F V L : audited F V L wrong_type (λ _, V) L.
Proof. apply audited_ret. Qed.
End ops.

(** ** Automation *)
Create HintDb audit.
#[export] Hint Resolve audited_ret audited_tick audited_db_Keys audited_ttl_CheckTTL audited_ttl_SetTTL audited_ttl_RemoveTTL
  audited_ttl_ExpireAt audited_db_Get audited_db_Set audited_db_SetIfNotExist audited_db_Delete audited_list_new audited_new_set
  audited_new_hash audited_new_zset audited_get_set audited_put_set audited_get_hash audited_put_hash audited_list_do
  audited_on_zset audited_arg audited_index audited_sarg audited_is_cmd audited_err audited_wrong_type
  audited_Lock audited_RLock audited_LockMulti audited_RLockMulti audited_UnLock audited_RUnLock audited_UnLockMulti
  audited_RUnLockMulti quiet_locks held_write held_exclusive : audit.
#[export] Hint Extern 1 (guards_read _ _ = true) =>
  first [assumption | apply guards_write_read; assumption | apply held_read; [assumption|discriminate|]] : audit.
#[export] Hint Extern 1 (_ ∈ _) => first [solve_mem | eapply list_elem_of_lookup_2; eassumption] : audit.
#[export] Hint Extern 1 (exclusive _ ∨ _) => first [left; solve [auto with audit] | right; solve [auto with reads]] : audit.

Ltac audit_op := solve [eauto with audit].
(** Fewer objects are covered afterwards than [r] says. *)
Ltac audit_subset :=
  cbv beta; first [ apply list_subseteq_nil | reflexivity | intros ? ?; simpl; solve [auto using list_elem_of_further] ].
Ltac audit_tail := eapply audited_weaken; [audit_op|intros ?; audit_subset].
Ltac destruct_frame := match goal with |- match ?F with Some _ => _ | None => _ end => destruct F end.
Ltac audit_step :=
  cbv beta zeta;
  lazymatch goal with
  | |- audited _ _ _ (mret _ ≫= _) _ _ => apply audited_ret_bind
  | |- audited _ _ _ (mpanic ≫= _) _ _ => apply audited_panic_bind
  | |- audited _ _ _ ((_ ≫= _) ≫= _) _ _ => apply audited_assoc
  | |- audited _ _ _ ((match ?x with _ => _ end) ≫= _) _ _ => split_head x
  | |- audited _ _ _ (match ?x with _ => _ end) _ _ => split_head x
  | |- audited _ _ _ (mfold _ _ _ ≫= _) _ _ => eapply audited_bind; [apply audited_mfold_in; intros|first [exact I|reflexivity|by destruct_frame]|intros]
  | |- audited _ _ _ (mfold _ _ _) _ _ => eapply audited_weaken; [apply audited_mfold_in; intros|intros ?; apply list_subseteq_nil || reflexivity]
  | |- audited _ _ _ (mdefer _ _ ≫= _) _ _ => eapply audited_bind; [|exact I|intros]
  | |- audited _ _ _ (_ ≫= _) _ _ => eapply audited_bind; [audit_op|first [exact I|reflexivity|by destruct_frame]|intros]
  | |- audited _ _ _ (mdefer _ _) _ _ => first [eapply audited_defer; [audit_op|audit_op|] | eapply audited_defer_framed; [audit_op|]]
  | |- audited _ _ _ (mret _) _ _ => apply audited_ret_in; audit_subset
  | |- audited _ _ _ mpanic _ _ => first [apply audited_panics | apply audited_panic]
  | |- audited _ _ _ _ _ _ => first [audit_op | audit_tail]
  end.
Ltac audit_auto := repeat audit_step.

Section handlers.
Context `{Host}.
Variable L : Locks.
Hypothesis HL : locks_free L.
Implicit Types (F : option (list value)) (V : list value).
#[local] Hint Resolve HL : audit.

Lemma audited_now F V L0 : audited F V L0 now (λ _, V) L0.
Proof. unfold now. audit_auto. Qed.
Lemma audited_range F V L0 : audited F V L0 range (λ _, V) L0.
Proof. unfold range. audit_auto. Qed.
#[local] Hint Resolve audited_now audited_range : audit.
Lemma audited_CheckTTL key : audited None [] L (MemDb_CheckTTL key) (λ _, []) L.
Proof. unfold MemDb_CheckTTL. audit_auto. Qed.
Lemma audited_SetTTL F V L0 key e : guards_read L0 key = true → audited F V L0 (MemDb_SetTTL key e) (λ _, V) L0.
Proof. intros Hg. unfold MemDb_SetTTL. audit_auto. Qed.
Lemma audited_DelTTL F V L0 key : audited F V L0 (MemDb_DelTTL key) (λ _, V) L0.
Proof. unfold MemDb_DelTTL. audit_auto. Qed.
#[local] Hint Resolve audited_CheckTTL audited_SetTTL audited_DelTTL : audit.
#[local] Hint Extern 1 (_.1 ∈ _.*1) => (apply list_elem_of_fmap_2; assumption) : audit.

(** String commands. *)
Lemma audited_setString cmd : audited None [] L (setString cmd) (λ _, []) L.
Proof. unfold setString. audit_auto. Qed.
Lemma audited_getString cmd : audited None [] L (getString cmd) (λ _, []) L.
Proof. unfold getString. audit_auto. Qed.
Lemma audited_setRangeString cmd : audited None [] L (setRangeString cmd) (λ _, []) L.
Proof. unfold setRangeString. audit_auto. Qed.
Lemma audited_getRangeString cmd : audited None [] L (getRangeString cmd) (λ _, []) L.
Proof. unfold getRangeString. audit_auto. Qed.
Lemma audited_mSetString cmd : audited None [] L (mSetString cmd) (λ _, []) L.
Proof. unfold mSetString. audit_auto. Qed.
Lemma audited_mGetString cmd : audited None [] L (mGetString cmd) (λ _, []) L.
Proof. unfold mGetString. audit_auto. Qed.
Lemma audited_setExString cmd : audited None [] L (setExString cmd) (λ _, []) L.
Proof. unfold setExString. audit_auto. Qed.
Lemma audited_setNxString cmd : audited None [] L (setNxString cmd) (λ _, []) L.
Proof. unfold setNxString. audit_auto. Qed.
Lemma audited_strLenString cmd : audited None [] L (strLenString cmd) (λ _, []) L.
Proof. unfold strLenString. audit_auto. Qed.
Lemma audited_incr_body key init f : audited None [] L (incr_body key init f) (λ _, []) L.
Proof. unfold incr_body. audit_auto. Qed.
#[local] Hint Resolve audited_incr_body : audit.
Lemma audited_incrString cmd : audited None [] L (incrString cmd) (λ _, []) L.
Proof. unfold incrString. audit_auto. Qed.
Lemma audited_incrByString cmd : audited None [] L (incrByString cmd) (λ _, []) L.
Proof. unfold incrByString. audit_auto. Qed.
Lemma audited_decrString cmd : audited None [] L (decrString cmd) (λ _, []) L.
Proof. unfold decrString. audit_auto. Qed.
Lemma audited_decrByString cmd : audited None [] L (decrByString cmd) (λ _, []) L.
Proof. unfold decrByString. audit_auto. Qed.
Lemma audited_incrByFloatString cmd : audited None [] L (incrByFloatString cmd) (λ _, []) L.
Proof. unfold incrByFloatString. audit_auto. Qed.
Lemma audited_appendString cmd : audited None [] L (appendString cmd) (λ _, []) L.
Proof. unfold appendString. audit_auto. Qed.

(** Key commands. *)
Lemma audited_client cmd : audited None [] L (client cmd) (λ _, []) L.
Proof. unfold client. audit_auto. Qed.
Lemma audited_scan cmd : audited None [] L (scan cmd) (λ _, []) L.
Proof. unfold scan. audit_auto. Qed.
Lemma audited_quit cmd : audited None [] L (quit cmd) (λ _, []) L.
Proof. unfold quit. audit_auto. Qed.
Lemma audited_infoConfig cmd : audited None [] L (infoConfig cmd) (λ _, []) L.
Proof. unfold infoConfig. audit_auto. Qed.
Lemma audited_pingKeys cmd : audited None [] L (pingKeys cmd) (λ _, []) L.
Proof. unfold pingKeys. audit_auto. Qed.
Lemma audited_delKey cmd : audited None [] L (delKey cmd) (λ _, []) L.
Proof. unfold delKey. audit_auto. Qed.
Lemma audited_existsKey cmd : audited None [] L (existsKey cmd) (λ _, []) L.
Proof. unfold existsKey. audit_auto. Qed.
Lemma audited_expireKey cmd : audited None [] L (expireKey cmd) (λ _, []) L.
Proof. unfold expireKey. audit_auto. Qed.
Lemma audited_persistKey cmd : audited None [] L (persistKey cmd) (λ _, []) L.
Proof. unfold persistKey. audit_auto. Qed.
Lemma audited_ttlKey cmd : audited None [] L (ttlKey cmd) (λ _, []) L.
Proof. unfold ttlKey. audit_auto. Qed.
Lemma audited_typeKey cmd : audited None [] L (typeKey cmd) (λ _, []) L.
Proof. unfold typeKey. audit_auto. Qed.
Lemma audited_renameKey cmd : audited None [] L (renameKey cmd) (λ _, []) L.
Proof. unfold renameKey. audit_auto. Qed.
Lemma audited_info cmd : audited None [] L (info cmd) (λ _, []) L.
Proof. unfold info, formatServerSection, formatReplicationSection. audit_auto. Qed.

(** List commands. *)
Lemma audited_list_Len F V L0 p : VList p ∈ V → audited F V L0 (list_Len p) (λ _, V) L0.
Proof. intros Hp. unfold list_Len. audit_auto. Qed.
Lemma audited_list_pop F V L0 p o : VList p ∈ V → exclusive L0 ∨ list_reads o → audited F V L0 (list_pop p o) (λ _, V) L0.
Proof. intros Hp Ho. unfold list_pop. audit_auto. Qed.
#[local] Hint Resolve audited_list_Len audited_list_pop : audit.
Lemma audited_drop_if_empty F V L0 p key :
  VList p ∈ V → guards_write L0 key = true → audited F V L0 (drop_if_empty p key) (λ _, []) L0.
Proof. intros Hp Hg. unfold drop_if_empty. audit_auto. Qed.
Lemma audited_push_all F V L0 push p args :
  VList p ∈ V → exclusive L0 → audited F V L0 (push_all push p args) (λ _, V) L0.
Proof. intros Hp He. unfold push_all. audit_auto. Qed.
Lemma audited_pop_many F V L0 pop p cnt res :
  VList p ∈ V → exclusive L0 → audited F V L0 (pop_many pop p cnt res) (λ _, V) L0.
Proof. intros Hp He. revert res. induction cnt; intros res; cbn [pop_many]; audit_auto. Qed.
#[local] Hint Resolve audited_drop_if_empty audited_push_all audited_pop_many : audit.
Lemma audited_pushx_body push key args : audited None [] L (pushx_body push key args) (λ _, []) L.
Proof. unfold pushx_body. audit_auto. Qed.
Lemma audited_push_body push key args : audited None [] L (push_body push key args) (λ _, []) L.
Proof. unfold push_body. audit_auto. Qed.
Lemma audited_pop_body pop cmd cnt : audited None [] L (pop_body pop cmd cnt) (λ _, []) L.
Proof. unfold pop_body. audit_auto. Qed.
Lemma audited_pop_count F V L0 cmd : audited F V L0 (pop_count cmd) (λ _, V) L0.
Proof. unfold pop_count. audit_auto. Qed.
#[local] Hint Resolve audited_pushx_body audited_push_body audited_pop_body audited_pop_count : audit.
Lemma audited_lMoveList cmd : audited None [] L (lMoveList cmd) (λ _, []) L.
Proof. unfold lMoveList. audit_auto. Qed.
Lemma audited_lRangeList cmd : audited None [] L (lRangeList cmd) (λ _, []) L.
Proof. unfold lRangeList. audit_auto. Qed.
Lemma audited_lTrimList cmd : audited None [] L (lTrimList cmd) (λ _, []) L.
Proof. unfold lTrimList. audit_auto. Qed.
Lemma audited_lRemList cmd : audited None [] L (lRemList cmd) (λ _, []) L.
Proof. unfold lRemList. audit_auto. Qed.
Lemma audited_lSetList cmd : audited None [] L (lSetList cmd) (λ _, []) L.
Proof. unfold lSetList. audit_auto. Qed.
Lemma audited_rPushXList cmd : audited None [] L (rPushXList cmd) (λ _, []) L.
Proof. unfold rPushXList. audit_auto. Qed.
Lemma audited_rPushList cmd : audited None [] L (rPushList cmd) (λ _, []) L.
Proof. unfold rPushList. audit_auto. Qed.
Lemma audited_lPushXList cmd : audited None [] L (lPushXList cmd) (λ _, []) L.
Proof. unfold lPushXList. audit_auto. Qed.
Lemma audited_lPushList cmd : audited None [] L (lPushList cmd) (λ _, []) L.
Proof. unfold lPushList. audit_auto. Qed.
Lemma audited_rPopList cmd : audited None [] L (rPopList cmd) (λ _, []) L.
Proof. unfold rPopList. audit_auto. Qed.
Lemma audited_lPopList cmd : audited None [] L (lPopList cmd) (λ _, []) L.
Proof. unfold lPopList. audit_auto. Qed.
Lemma audited_lPosList cmd : audited None [] L (lPosList cmd) (λ _, []) L.
Proof. unfold lPosList. audit_auto. Qed.
Lemma audited_lIndexList cmd : audited None [] L (lIndexList cmd) (λ _, []) L.
Proof. unfold lIndexList. audit_auto. Qed.
Lemma audited_lLenList cmd : audited None [] L (lLenList cmd) (λ _, []) L.
Proof. unfold lLenList. audit_auto. Qed.

(** Set commands. *)
Lemma audited_set_Add F V L0 p key : VSet p ∈ V → exclusive L0 → audited F V L0 (set_Add p key) (λ _, V) L0.
Proof. intros Hp He. unfold set_Add. audit_auto. Qed.
Lemma audited_set_Remove F V L0 p key : VSet p ∈ V → exclusive L0 → audited F V L0 (set_Remove p key) (λ _, V) L0.
Proof. intros Hp He. unfold set_Remove. audit_auto. Qed.
Lemma audited_set_Pop F V L0 p : VSet p ∈ V → exclusive L0 → audited F V L0 (set_Pop p) (λ _, V) L0.
Proof. intros Hp He. unfold set_Pop. audit_auto. Qed.
Lemma audited_set_Members F V L0 p : VSet p ∈ V → audited F V L0 (set_Members p) (λ _, V) L0.
Proof. intros Hp. unfold set_Members. audit_auto. Qed.
Lemma audited_drop_if_empty_set F V L0 p key :
  VSet p ∈ V → guards_write L0 key = true → audited F V L0 (drop_if_empty_set p key) (λ _, []) L0.
Proof. intros Hp Hg. unfold drop_if_empty_set. audit_auto. Qed.
Lemma audited_live_keys args : audited None [] L (live_keys args) (λ _, []) L.
Proof. unfold live_keys. audit_auto. Qed.
Lemma audited_random_source F V L0 n : audited F V L0 (random_source n) (λ _, V) L0.
Proof. unfold random_source. audit_auto. Qed.
#[local] Hint Resolve audited_set_Add audited_set_Remove audited_set_Pop audited_set_Members audited_drop_if_empty_set
  audited_live_keys audited_random_source : audit.
Lemma audited_spop_many F V L0 p n res : VSet p ∈ V → exclusive L0 → audited F V L0 (spop_many p n res) (λ _, V) L0.
Proof. intros Hp He. revert res. induction n; intros res; cbn [spop_many]; audit_auto. Qed.
#[local] Hint Resolve audited_spop_many : audit.

(** The collected sets are those of keys whose locks are held. *)
Lemma audited_collect_sets F V L0 keys sets :
  (∀ key, key ∈ keys → guards_read L0 key = true) → (VSet <$> sets) ⊆ V →
  audited F V L0 (collect_sets keys sets) (λ r, match r with Some ps => (VSet <$> ps) ++ V | None => V end) L0.
Proof.
  revert V sets. induction keys as [|key keys IH]; intros V sets Hk Hs; cbn [collect_sets].
  - apply audited_ret_in. intros v [Hv|Hv]%elem_of_app; [by apply Hs|done].
  - eapply audited_bind; [apply audited_db_Get, Hk; left|by destruct F|]. intros [v|].
    2:{ apply IH; [|done]. intros k Hin. apply Hk. by right. }
    destruct v as [| |p| |]; try (apply audited_ret_in; intros w Hw; by right).
    eapply audited_weaken; [apply IH|]; [intros k Hin; apply Hk; by right|..].
    + rewrite fmap_app. intros v [Hv|Hv]%elem_of_app; [right; by apply Hs|]. apply list_elem_of_singleton in Hv as ->. left.
    + intros [ps|] w; rewrite ?elem_of_app, ?elem_of_cons; tauto.
Qed.
Lemma audited_load_sets F V L0 ps : Forall (λ p, VSet p ∈ V) ps → audited F V L0 (load_sets ps) (λ _, V) L0.
Proof. rewrite Forall_forall. intros Hps. unfold load_sets. apply audited_mfold_in. intros acc p Hp%Hps. audit_auto. Qed.
Lemma audited_collect V keys :
  audited None V (hold read_held keys L) (collect_sets keys []) (λ r, match r with Some ps => (VSet <$> ps) ++ V | None => V end)
    (hold read_held keys L).
Proof. apply audited_collect_sets; [intros key Hk; by apply held_read|apply list_subseteq_nil]. Qed.
Lemma audited_collect_drop V keys n :
  audited None V (hold read_held keys L) (collect_sets (drop n keys) []) (λ r, match r with Some ps => (VSet <$> ps) ++ V | None => V end)
    (hold read_held keys L).
Proof.
  apply audited_collect_sets; [|apply list_subseteq_nil]. intros key Hk. apply held_read; [done..|].
  rewrite <- (take_drop n keys). by apply elem_of_app; right.
Qed.
#[local] Hint Resolve audited_load_sets audited_collect audited_collect_drop : audit.
#[local] Hint Extern 1 (VSet _ ∈ (VSet <$> _) ++ _) => (apply elem_of_app; left; apply list_elem_of_fmap_2; left) : audit.
#[local] Hint Extern 1 (Forall (λ p, VSet p ∈ _) ?ps) =>
  first [apply (collected L HL _ ps []) | match goal with |- context [?p :: ps] => apply (collected L HL _ ps [p]) end] : audit.
Lemma audited_intersect_sets F V L0 ps : Forall (λ p, VSet p ∈ V) ps → audited F V L0 (intersect_sets ps) (λ _, V) L0.
Proof. intros Hps. unfold intersect_sets. audit_auto. Qed.
#[local] Hint Resolve audited_intersect_sets : audit.
Lemma audited_sUnionSet cmd : audited None [] L (sUnionSet cmd) (λ _, []) L.
Proof. unfold sUnionSet. audit_auto. Qed.
Lemma audited_sRemSet cmd : audited None [] L (sRemSet cmd) (λ _, []) L.
Proof. unfold sRemSet. audit_auto. Qed.
Lemma audited_sPopSet cmd : audited None [] L (sPopSet cmd) (λ _, []) L.
Proof. unfold sPopSet. audit_auto. Qed.
Lemma audited_sMoveSet cmd : audited None [] L (sMoveSet cmd) (λ _, []) L.
Proof. unfold sMoveSet. audit_auto. Qed.
Lemma audited_sMembersSet cmd : audited None [] L (sMembersSet cmd) (λ _, []) L.
Proof. unfold sMembersSet. audit_auto. Qed.
Lemma audited_sIsMemberSet cmd : audited None [] L (sIsMemberSet cmd) (λ _, []) L.
Proof. unfold sIsMemberSet. audit_auto. Qed.
Lemma audited_sInterSet cmd : audited None [] L (sInterSet cmd) (λ _, []) L.
Proof. unfold sInterSet. audit_auto. Qed.
Lemma audited_sDiffSet cmd : audited None [] L (sDiffSet cmd) (λ _, []) L.
Proof. unfold sDiffSet, Prelude.index. audit_auto. Qed.
Lemma audited_sCardSet cmd : audited None [] L (sCardSet cmd) (λ _, []) L.
Proof. unfold sCardSet. audit_auto. Qed.
Lemma audited_sAddSet cmd : audited None [] L (sAddSet cmd) (λ _, []) L.
Proof. unfold sAddSet. audit_auto. Qed.
Lemma audited_sRandMemberSet cmd : audited None [] L (sRandMemberSet cmd) (λ _, []) L.
Proof. unfold sRandMemberSet. audit_auto. Qed.

(** Hash commands. *)
Lemma audited_hash_for_update F V L0 key : guards_write L0 key = true →
  audited F V L0 (hash_for_update key) (λ r, match r with Some p => VHash p :: V | None => V end) L0.
Proof. intros Hg. unfold hash_for_update. audit_auto. Qed.
Lemma audited_hash_read key missing body :
  (∀ V h, audited None V (hold read_held [key] L) (body h) (λ _, []) (hold read_held [key] L)) →
  audited None [] L (hash_read key missing body) (λ _, []) L.
Proof. intros Hb. unfold hash_read. audit_auto. Qed.
Lemma audited_orders_source F V L0 n : audited F V L0 (orders_source n) (λ _, V) L0.
Proof. unfold orders_source. audit_auto. Qed.
Lemma audited_of_outcome {A} V L0 (o : outcome A) : audited None V L0 (of_outcome o) (λ _, V) L0.
Proof. unfold of_outcome. audit_auto. Qed.
Lemma audited_drop_if_empty_hash F V L0 p key :
  VHash p ∈ V → guards_write L0 key = true →
  audited F V L0 (h ← get_hash p; if Hash_IsEmpty h then db_Delete key;; MemDb_DelTTL key;; mret tt else mret tt) (λ _, []) L0.
Proof. intros Hp Hg. audit_auto. Qed.
#[local] Hint Resolve audited_drop_if_empty_hash audited_hash_for_update audited_orders_source audited_of_outcome : audit.
#[local] Hint Extern 1 (audited _ _ _ (hash_read _ _ _) _ _) => (apply audited_hash_read; intros ? ?; audit_auto) : audit.
Lemma audited_hStrLenHash cmd : audited None [] L (hStrLenHash cmd) (λ _, []) L.
Proof. unfold hStrLenHash. audit_auto. Qed.
Lemma audited_hSetNxHash cmd : audited None [] L (hSetNxHash cmd) (λ _, []) L.
Proof. unfold hSetNxHash. audit_auto. Qed.
Lemma audited_hIncrByHash cmd : audited None [] L (hIncrByHash cmd) (λ _, []) L.
Proof. unfold hIncrByHash. audit_auto. Qed.
Lemma audited_hIncrByFloatHash cmd : audited None [] L (hIncrByFloatHash cmd) (λ _, []) L.
Proof. unfold hIncrByFloatHash. audit_auto. Qed.
Lemma audited_hValsHash cmd : audited None [] L (hValsHash cmd) (λ _, []) L.
Proof. unfold hValsHash. audit_auto. Qed.
Lemma audited_hKeysHash cmd : audited None [] L (hKeysHash cmd) (λ _, []) L.
Proof. unfold hKeysHash. audit_auto. Qed.
Lemma audited_hLenHash cmd : audited None [] L (hLenHash cmd) (λ _, []) L.
Proof. unfold hLenHash. audit_auto. Qed.
Lemma audited_hSetHash cmd : audited None [] L (hSetHash cmd) (λ _, []) L.
Proof. unfold hSetHash. audit_auto. Qed.
Lemma audited_hGetHash cmd : audited None [] L (hGetHash cmd) (λ _, []) L.
Proof. unfold hGetHash. audit_auto. Qed.
Lemma audited_hMGetHash cmd : audited None [] L (hMGetHash cmd) (λ _, []) L.
Proof. unfold hMGetHash. audit_auto. Qed.
Lemma audited_hDelHash cmd : audited None [] L (hDelHash cmd) (λ _, []) L.
Proof. unfold hDelHash. audit_auto. Qed.
Lemma audited_hExistsHash cmd : audited None [] L (hExistsHash cmd) (λ _, []) L.
Proof. unfold hExistsHash. audit_auto. Qed.
Lemma audited_hGetAllHash cmd : audited None [] L (hGetAllHash cmd) (λ _, []) L.
Proof. unfold hGetAllHash. audit_auto. Qed.
Lemma audited_hRandFieldHash cmd : audited None [] L (hRandFieldHash cmd) (λ _, []) L.
Proof. unfold hRandFieldHash. audit_auto. Qed.

(** Sorted set commands. *)
Lemma audited_level_source F V L0 : audited F V L0 level_source (λ _, V) L0.
Proof. unfold level_source. audit_auto. Qed.
Lemma audited_zset_for_update F V L0 key : guards_write L0 key = true →
  audited F V L0 (zset_for_update key) (λ r, match r with Some p => VZSet p :: V | None => V end) L0.
Proof. intros Hg. unfold zset_for_update. audit_auto. Qed.
Lemma audited_with_zset F V L0 key missing body : guards_read L0 key = true →
  (∀ p, audited F (VZSet p :: V) L0 (body p) (λ _, []) L0) → audited F V L0 (with_zset key missing body) (λ _, []) L0.
Proof. intros Hg Hb. unfold with_zset. audit_auto. Qed.
#[local] Hint Resolve audited_level_source audited_zset_for_update : audit.
#[local] Hint Extern 1 (audited _ _ _ (with_zset _ _ _) _ _) => (apply audited_with_zset; [|intros ?; audit_auto]) : audit.
#[local] Hint Extern 1 (audited _ _ _ (zset_read _ _ _) _ _) => (unfold zset_read; audit_auto) : audit.
#[local] Hint Extern 1 (audited _ _ _ (zset_write _ _ _) _ _) => (unfold zset_write; audit_auto) : audit.
#[local] Hint Extern 1 (audited _ _ _ (score_bounds _ _) _ _) => (unfold score_bounds; audit_auto) : audit.
Lemma audited_zadd_loop F V L0 p args n : VZSet p ∈ V → exclusive L0 → audited F V L0 (zadd_loop p args n) (λ _, V) L0.
Proof.
  intros Hp He. revert n. induction args as [args IH] using (induction_ltof1 _ (@length _)); intros n.
  destruct args as [|s [|k args]]; cbn [zadd_loop]; [apply audited_ret..|]. audit_auto. apply IH. unfold ltof. cbn. lia.
Qed.
#[local] Hint Resolve audited_zadd_loop : audit.
Lemma audited_zAddZset cmd : audited None [] L (zAddZset cmd) (λ _, []) L.
Proof. unfold zAddZset. audit_auto. Qed.
Lemma audited_zCardZset cmd : audited None [] L (zCardZset cmd) (λ _, []) L.
Proof. unfold zCardZset. audit_auto. Qed.
Lemma audited_zCountZset cmd : audited None [] L (zCountZset cmd) (λ _, []) L.
Proof. unfold zCountZset. audit_auto. Qed.
Lemma audited_zRangeZset cmd : audited None [] L (zRangeZset cmd) (λ _, []) L.
Proof. unfold zRangeZset, range_cmd. audit_auto. Qed.
Lemma audited_zRevRangeZset cmd : audited None [] L (zRevRangeZset cmd) (λ _, []) L.
Proof. unfold zRevRangeZset, range_cmd. audit_auto. Qed.
Lemma audited_zRankZset cmd : audited None [] L (zRankZset cmd) (λ _, []) L.
Proof. unfold zRankZset, rank_cmd. audit_auto. Qed.
Lemma audited_zRevRankZset cmd : audited None [] L (zRevRankZset cmd) (λ _, []) L.
Proof. unfold zRevRankZset, rank_cmd. audit_auto. Qed.
Lemma audited_zRemZset cmd : audited None [] L (zRemZset cmd) (λ _, []) L.
Proof. unfold zRemZset. audit_auto. Qed.
Lemma audited_zScoreZset cmd : audited None [] L (zScoreZset cmd) (λ _, []) L.
Proof. unfold zScoreZset. audit_auto. Qed.
Lemma audited_zRangeByScoreZset cmd : audited None [] L (zRangeByScoreZset cmd) (λ _, []) L.
Proof. unfold zRangeByScoreZset. audit_auto. Qed.
Lemma audited_zIncrByZset cmd : audited None [] L (zIncrByZset cmd) (λ _, []) L.
Proof. unfold zIncrByZset. audit_auto. Qed.
Lemma audited_zRemRangeByRankZset cmd : audited None [] L (zRemRangeByRankZset cmd) (λ _, []) L.
Proof. unfold zRemRangeByRankZset. audit_auto. Qed.
Lemma audited_zRemRangeByScoreZset cmd : audited None [] L (zRemRangeByScoreZset cmd) (λ _, []) L.
Proof. unfold zRemRangeByScoreZset. audit_auto. Qed.
End handlers.

(** ** All commands *)
(** The commands that use the destination without its lock. *)
Definition racing : list bytes := lit <$> ["sunionstore"; "sinterstore"; "sdiffstore"]%string.

Section all.
Context `{Host}.
Variable L : Locks.
Hypothesis HL : locks_free L.

(** Every name of the table is one of those, or KEYS, or makes no uncovered access. *)
Definition table_audited (t : gmap bytes (executor (S := Audit))) : Prop :=
  ∀ name e, t !! name = Some e → name ∈ lit "keys" :: racing ∨ ∀ cmd, audited None [] L (e cmd) (λ _, []) L.
Lemma table_audited_register name e t :
  name ∈ lit "keys" :: racing ∨ (∀ cmd, audited None [] L (e cmd) (λ _, []) L) →
  table_audited t → table_audited (RegisterCommand name e t).
Proof. intros He Ht n e'. unfold RegisterCommand. rewrite lookup_insert. case_decide; [|apply Ht]. subst. by intros [= <-]. Qed.
Lemma audited_replies (e : list slice → M Audit RedisData) cmd :
  audited None [] L (e cmd) (λ _, []) L → audited None [] L (replies e cmd) (λ _, []) L.
Proof. intros He. unfold replies. eapply audited_bind; [exact He|exact I|]. intros r. apply audited_ret. Qed.

#[local] Hint Resolve audited_setString audited_getString audited_setRangeString audited_getRangeString audited_mSetString
  audited_mGetString audited_setExString audited_setNxString audited_strLenString audited_incrString
  audited_incrByString audited_decrString audited_decrByString audited_incrByFloatString audited_appendString
  audited_client audited_scan audited_quit audited_infoConfig audited_pingKeys audited_delKey audited_existsKey
  audited_expireKey audited_persistKey audited_ttlKey audited_typeKey audited_renameKey audited_info audited_lMoveList
  audited_lRangeList audited_lTrimList audited_lRemList audited_lSetList audited_rPushXList audited_rPushList
  audited_lPushXList audited_lPushList audited_rPopList audited_lPopList audited_lPosList audited_lIndexList
  audited_lLenList audited_sUnionSet audited_sRemSet audited_sPopSet audited_sMoveSet audited_sMembersSet
  audited_sIsMemberSet audited_sInterSet audited_sDiffSet audited_sCardSet audited_sAddSet audited_sRandMemberSet
  audited_hStrLenHash audited_hSetNxHash audited_hIncrByHash audited_hIncrByFloatHash audited_hValsHash
  audited_hKeysHash audited_hLenHash audited_hSetHash audited_hGetHash audited_hMGetHash audited_hDelHash
  audited_hExistsHash audited_hGetAllHash audited_hRandFieldHash audited_zAddZset audited_zCardZset audited_zCountZset
  audited_zRangeZset audited_zRevRangeZset audited_zRankZset audited_zRevRankZset audited_zRemZset audited_zScoreZset
  audited_zRangeByScoreZset audited_zIncrByZset audited_zRemRangeByRankZset audited_zRemRangeByScoreZset : audit.

Lemma CmdTable_audited : table_audited CmdTable.
Proof.
  unfold CmdTable, RegisterInfoCommands, RegisterZSetCommands, RegisterSetCommands, RegisterListCommands, RegisterHashCommands,
    RegisterStringCommands, RegisterKeyCommand. cbn [foldr].
  repeat (apply table_audited_register;
    [first [ left; apply (bool_decide_unpack _); vm_compute; exact I
           | right; intros cmd; try apply audited_replies; solve [auto with audit] ]|]).
  intros name e. by rewrite lookup_empty.
Qed.
Lemma audited_ExecCommand cmd :
  cmd_name cmd ∉ lit "keys" :: racing → audited None [] L (ExecCommand CmdTable cmd) (λ _, []) L.
Proof.
  intros Hn. unfold ExecCommand. destruct cmd as [|c args]; [apply audited_ret|]. cbv zeta.
  destruct (CmdTable !! ToLower (str c)) as [e|] eqn:E; [|apply audited_ret].
  by destruct (CmdTable_audited _ _ E) as [Hin|Ha].
Qed.
End all.

Section discipline.
Context `{Host}.

(** C12: Every command keeps the lock discipline, but SUNIONSTORE, SINTERSTORE and
    SDIFFSTORE (KEYS reads no value and is treated elsewhere).  From free locks it reads
    the value of a key only while it holds the key's lock, and changes a value, or what a
    key is bound to, only while it holds the lock for writing: this goes for the keys it
    is given and for every list, set, hash and sorted set it reaches, on every path,
    panics and deferred functions included.  When it returns, the locks are as before.
    The audit does not change what the command does to the reference store. *)
Theorem Lock_discipline (a : Audit) cmd :
  au_races a = [] → locks_free (au_locks a) → cmd_name cmd ∉ lit "keys" :: racing →
  let '(o, a') := ExecCommand CmdTable cmd a in
  au_races a' = [] ∧ ExecCommand CmdTable cmd (au_model a) = (o, au_model a') ∧
  match o with Ret _ => au_locks a' = au_locks a | _ => True end.
Proof.
  intros Hr Hl Hn. destruct (audited_ExecCommand _ Hl cmd Hn a Hr eq_refl I (Forall_nil_2 _)) as [Hr' Ho].
  pose proof (tracks_ExecCommand cmd a) as Ht. destruct (ExecCommand CmdTable cmd a) as [o a']. cbn [fst snd] in *.
  split_and!; [done|done|]. destruct o; [|done..]. by destruct Ho.
Qed.
End discipline.

(** ** Concrete runs *)
#[local] Existing Instance demo_host.
Definition audit_of (m : Model) : Audit := mkAudit m (λ _, None) [].
Lemma Lock_discipline_witness :
  au_races (ExecCommand CmdTable (command ["LMOVE"; "l"; "m"; "LEFT"; "RIGHT"]%string) (audit_of demo_model)).2 = [] ∧
  (ExecCommand CmdTable (command ["LMOVE"; "l"; "m"; "LEFT"; "RIGHT"]%string) (audit_of demo_model)).1 =
    Ret (Some (MakeBulkData (Some (lit "z")))).
Proof.
  split; [|vm_compute; reflexivity].
  pose proof (Lock_discipline (audit_of demo_model) (command ["LMOVE"; "l"; "m"; "LEFT"; "RIGHT"]%string)) as Hd.
  destruct (ExecCommand CmdTable _ (audit_of demo_model)) as [o a']. apply Hd.
  - reflexivity.
  - apply (bool_decide_unpack _). vm_compute. exact I.
  - apply (bool_decide_unpack _). vm_compute. exact I.
Defined.

(** What the three commands do to the destination [d]: all read it without its lock, and
    SUNIONSTORE, which releases the lock at once, also writes it so. *)
Lemma store_commands_race :
  let m := (run_commands [command ["SADD"; "t"; "a"; "b"]%string; command ["SADD"; "u"; "b"]%string] (NewModel 16)).2 in
  let races cmd := au_races (ExecCommand CmdTable (command cmd) (audit_of m)).2 in
  races ["SUNIONSTORE"; "d"; "t"; "u"]%string = [ReadsValue (lit "d"); ReadsValue (lit "d"); WritesValue (lit "d")] ∧
  races ["SINTERSTORE"; "d"; "t"; "u"]%string = [ReadsValue (lit "d")] ∧
  races ["SDIFFSTORE"; "d"; "t"; "u"]%string = [ReadsValue (lit "d")].
Proof. vm_compute. done. Qed.
