(* ===== verification/Nodes.v ===== *)
(** * The nodes of the linked lists and their pool

    [src/pkg/memdb/concurrentmap.go]: [listNode], [listNodePool], [acquireNode],
    [releaseNode], and [linkedList] on them: pointers to nodes that all shards recycle
    through one pool.

    [CMap] treats such a list as a list of entries.  This file justifies that: the lists
    of any number of shards live in one store of nodes, a removed node is cleared and
    goes to the pool, and the next insertion of any shard may take it from there.  A
    pool is a [sync.Pool]: which of its nodes [Get] returns, or whether it makes a new
    one, is a parameter. *)

From Stdlib Require Import Ascii String ZArith Lia.
From stdpp Require Import prelude gmap list fin_maps sets.
From S2P Require Import Prelude Util CMap.
Open Scope Z_scope.

Abbreviation ptr := nat.

Section nodes.
Context {V : Type}.
(** [sync.Pool.Get]: the position of the node it takes, if it takes one. *)
Variable take : list ptr → option nat.

(** ** The store *)
Record listNode := mkNode { n_next : option ptr; n_key : bytes; n_value : option V }.
Record store := mkStore { cells : gmap ptr listNode; pool : list ptr }.

Definition load (p : ptr) : M store listNode := λ s,
  match cells s !! p with Some n => (Ret n, s) | None => (Panics, s) end.
Definition assign (p : ptr) (n : listNode) : M store unit := λ s, (Ret tt, mkStore (<[p := n]> (cells s)) (pool s)).

(** A node of the pool, or a new one. *)
Definition pool_Get : M store ptr := λ s,
  match take (pool s) with
  | Some i =>
      match pool s !! i with
      | Some p => (Ret p, mkStore (cells s) (delete i (pool s)))
      | None => let p := fresh (dom (cells s)) in (Ret p, mkStore (<[p := mkNode None [] None]> (cells s)) (pool s))
      end
  | None => let p := fresh (dom (cells s)) in (Ret p, mkStore (<[p := mkNode None [] None]> (cells s)) (pool s))
  end.
Definition pool_Put (p : ptr) : M store unit := λ s, (Ret tt, mkStore (cells s) (p :: pool s)).

Definition acquireNode (key : bytes) (value : V) : M store ptr :=
  node ← pool_Get; assign node (mkNode None key (Some value));; mret node.
Definition releaseNode (node : option ptr) : M store unit :=
  match node with
  | None => mret tt
  | Some node => assign node (mkNode None [] None);; pool_Put node
  end.

(** ** [linkedList] *)
Record plist := mkPlist { p_head : option ptr; p_count : Z }.

(** The loops over the nodes; [fuel] bounds the nodes they visit. *)
Fixpoint find_loop (fuel : nat) (key : bytes) (node : option ptr) : M store (option ptr) :=
  match fuel, node with
  | _, None => mret None
  | O, _ => λ s, (Blocks, s)
  | S fuel, Some p => n ← load p; if decide (n_key n = key) then mret (Some p) else find_loop fuel key (n_next n)
  end.
Definition fuel_of (s : store) : nat := size (cells s).

Definition plist_Get (key : bytes) (l : plist) : M store (option V) := λ s,
  (found ← find_loop (fuel_of s) key (p_head l);
   match found with None => mret None | Some p => n ← load p; mret (n_value n) end) s.

Definition plist_Put (key : bytes) (value : V) (l : plist) : M store (bool * plist) := λ s,
  (found ← find_loop (fuel_of s) key (p_head l);
   match found with
   | Some p => n ← load p; assign p (mkNode (n_next n) (n_key n) (Some value));; mret (false, l)
   | None =>
       p ← acquireNode key value;
       n ← load p;
       assign p (mkNode (p_head l) (n_key n) (n_value n));;
       mret (true, mkPlist (Some p) (p_count l + 1))
   end) s.

Fixpoint remove_loop (fuel : nat) (key : bytes) (prev : ptr) (node : option ptr) : M store bool :=
  match fuel, node with
  | _, None => mret false
  | O, _ => λ s, (Blocks, s)
  | S fuel, Some p =>
      n ← load p;
      if decide (n_key n = key) then
        pn ← load prev;
        assign prev (mkNode (n_next n) (n_key pn) (n_value pn));;
        releaseNode (Some p);;
        mret true
      else remove_loop fuel key p (n_next n)
  end.
Definition plist_Remove (key : bytes) (l : plist) : M store (bool * plist) := λ s,
  match p_head l with
  | None => (Ret (false, l), s)
  | Some h =>
      (n ← load h;
       if decide (n_key n = key) then
         releaseNode (Some h);; mret (true, mkPlist (n_next n) (p_count l - 1))
       else
         ok ← remove_loop (fuel_of s) key h (n_next n);
         mret (ok, if ok : bool then mkPlist (p_head l) (p_count l - 1) else l)) s
  end.

Fixpoint keys_loop (fuel : nat) (keys : list bytes) (node : option ptr) : M store (list bytes) :=
  match fuel, node with
  | _, None => mret keys
  | O, _ => λ s, (Blocks, s)
  | S fuel, Some p => n ← load p; keys_loop fuel (keys ++ [n_key n]) (n_next n)
  end.
Definition plist_Keys (l : plist) : M store (list bytes) := λ s, keys_loop (fuel_of s) [] (p_head l) s.

(** [drainIntoTree]: what it puts into the tree, in order; the list it leaves is empty.
    The node is released after its successor is read. *)
Fixpoint drain_loop (fuel : nat) (out : list (bytes * option V)) (node : option ptr) : M store (list (bytes * option V)) :=
  match fuel, node with
  | _, None => mret out
  | O, _ => λ s, (Blocks, s)
  | S fuel, Some p =>
      n ← load p;
      let next := n_next n in
      releaseNode (Some p);;
      drain_loop fuel (out ++ [(n_key n, n_value n)]) next
  end.
Definition plist_drain (l : plist) : M store (list (bytes * option V) * plist) := λ s,
  (out ← drain_loop (fuel_of s) [] (p_head l); mret (out, mkPlist None 0)) s.

(** ** Lists in the store *)
(** From [p] the nodes [ps] hold the entries [kvs], in order. *)
Fixpoint chain (c : gmap ptr listNode) (p : option ptr) (ps : list ptr) (kvs : list (bytes * V)) : Prop :=
  match ps, kvs with
  | [], [] => p = None
  | q :: ps, (k, v) :: kvs => p = Some q ∧ ∃ next, c !! q = Some (mkNode next k (Some v)) ∧ chain c next ps kvs
  | _, _ => False
  end.

(** The list [l] with the nodes [ps] stands for the list of [CMap]. *)
Record represents (s : store) (l : plist) (ps : list ptr) (a : linkedList V) : Prop := {
  rep_chain : chain (cells s) (p_head l) ps (CMap.head a);
  rep_count : p_count l = CMap.count a;
}.

(** What an operation on the list with the nodes [ps] may do to the store: nodes outside
    [ps] and the pool keep their contents, and the nodes it owns afterwards were its
    own, pooled or did not exist. *)
Record framed (s : store) (ps : list ptr) (s' : store) (ps' : list ptr) : Prop := {
  fr_nodup : NoDup (pool s' ++ ps');
  fr_dom q : q ∈ pool s' ++ ps' → q ∈ dom (cells s');
  fr_grow : dom (cells s) ⊆ dom (cells s');
  fr_keep q : q ∈ dom (cells s) → q ∉ pool s ++ ps → cells s' !! q = cells s !! q;
  fr_own q : q ∈ pool s' ++ ps' → q ∈ pool s ++ ps ∨ q ∉ dom (cells s);
}.

Lemma pchain_frame c c' p ps kvs : (∀ q, q ∈ ps → c' !! q = c !! q) → chain c p ps kvs → chain c' p ps kvs.
Proof.
  revert p kvs. induction ps as [|q ps IH]; intros p [|[k v] kvs] Hc; simpl; try done.
  intros (-> & next & Hq & Hch). split; [done|]. exists next. rewrite Hc by set_solver. split; [done|]. apply IH; [set_solver|done].
Qed.
Lemma pchain_dom c p ps kvs q : chain c p ps kvs → q ∈ ps → q ∈ dom c.
Proof.
  revert p kvs. induction ps as [|q' ps IH]; intros p [|[k v] kvs]; simpl; try set_solver.
  intros (-> & next & Hq & Hch) [->|Hin]%elem_of_cons; [by eapply elem_of_dom_2|by eapply IH].
Qed.
Lemma pchain_length c p ps kvs : chain c p ps kvs → NoDup ps → (length ps ≤ size c)%nat.
Proof.
  intros Hch Hnd. rewrite <-size_dom, <-(size_list_to_set (C := gset nat) ps Hnd). apply subseteq_size.
  intros q Hq. apply elem_of_list_to_set in Hq. by eapply pchain_dom.
Qed.
Lemma load_ok s q n : cells s !! q = Some n → load q s = (Ret n, s).
Proof. unfold load. by intros ->. Qed.

(** The search of [Get] and [Put]. *)
Lemma find_loop_spec key ps : ∀ fuel p kvs s,
  chain (cells s) p ps kvs → NoDup ps → (length ps ≤ fuel)%nat →
  (find_loop fuel key p s = (Ret None, s) ∧ entries_get key kvs = None ∧ ∀ value, entries_update key value kvs = None) ∨
  (∃ q n, find_loop fuel key p s = (Ret (Some q), s) ∧ q ∈ ps ∧ cells s !! q = Some n ∧ n_value n = entries_get key kvs ∧
     ∀ value, ∃ kvs', entries_update key value kvs = Some kvs' ∧
       chain (<[q := mkNode (n_next n) (n_key n) (Some value)]> (cells s)) p ps kvs').
Proof.
  induction ps as [|q ps IH]; intros fuel p [|[k v] kvs] s; simpl; try done.
  { intros -> _ _. left. split_and!; [by destruct fuel|done|done]. }
  intros (-> & next & Hq & Hch) [Hnin Hnd]%NoDup_cons Hf. destruct fuel as [|fuel]; [lia|]. simpl.
  rewrite (bind_Ret _ _ s _ s (load_ok _ _ _ Hq)). simpl. destruct (decide (k = key)) as [->|Hk].
  - right. exists q, (mkNode next key (Some v)). split_and!; [done|by left|done|done|].
    intros value. eexists. split; [done|]. split; [done|]. exists next. simpl. split; [by simplify_map_eq|].
    eapply pchain_frame; [|done]. intros x Hx. rewrite lookup_insert_ne; [done|]. by intros ->.
  - destruct (IH fuel next kvs s Hch Hnd) as [(Hl & Hg & Hu)|(q' & n & Hl & Hin & Hc & Hg & Hu)]; [lia|left|right].
    + rewrite Hl, Hg. split_and!; [done|done|]. intros value. by rewrite Hu.
    + exists q', n. split_and!; [done|by right|done|done|]. intros value. destruct (Hu value) as (kvs' & -> & Hch').
      eexists. split; [done|]. split; [done|]. exists next. split; [|done].
      rewrite lookup_insert_ne; [done|]. by intros ->.
Qed.

Lemma releaseNode_eq q s :
  releaseNode (Some q) s = (Ret tt, mkStore (<[q := mkNode None [] None]> (cells s)) (q :: pool s)).
Proof. done. Qed.

(** The loop of [Remove] behind the node [prev]. *)
Lemma remove_loop_spec key ps : ∀ fuel prev next k0 v0 kvs s,
  cells s !! prev = Some (mkNode next k0 (Some v0)) → chain (cells s) next ps kvs → NoDup (prev :: ps) → (length ps ≤ fuel)%nat →
  (remove_loop fuel key prev next s = (Ret false, s) ∧ entries_remove key kvs = None) ∨
  (∃ q ps' kvs' c', remove_loop fuel key prev next s = (Ret true, mkStore c' (q :: pool s)) ∧
     entries_remove key kvs = Some kvs' ∧ ps ≡ₚ q :: ps' ∧ chain c' (Some prev) (prev :: ps') ((k0, v0) :: kvs') ∧
     dom c' = dom (cells s) ∧ ∀ x, x ∉ prev :: ps → c' !! x = cells s !! x).
Proof.
  induction ps as [|q ps IH]; intros fuel prev next k0 v0 [|[k v] kvs] s Hp; simpl; try done.
  { intros -> _ _. left. by destruct fuel. }
  intros (-> & nx & Hq & Hch) Hnd Hf. destruct fuel as [|fuel]; [lia|]. simpl.
  apply NoDup_cons in Hnd as [Hpn [Hqn Hnd]%NoDup_cons].
  assert (prev ≠ q) as Hpq by set_solver.
  rewrite (bind_Ret _ _ s _ s (load_ok _ _ _ Hq)). simpl. destruct (decide (k = key)) as [->|Hk].
  - right. rewrite (bind_Ret _ _ s _ s (load_ok _ _ _ Hp)). simpl.
    exists q, ps, kvs. eexists. split; [reflexivity|]. split_and!; simpl; [done|done|done| | |].
    + exists nx. split; [by simplify_map_eq|]. eapply pchain_frame; [|exact Hch].
      intros x Hx. rewrite !lookup_insert_ne; [done|set_solver..].
    + rewrite !dom_insert_L. apply elem_of_dom_2 in Hp, Hq. set_solver.
    + intros x Hx. rewrite !lookup_insert_ne; [done|set_solver..].
  - destruct (IH fuel q nx k v kvs s Hq Hch) as [(Hl & Hr)|(q' & ps' & kvs' & c' & Hl & Hr & Hps & Hch' & Hd & Hc')];
      [by constructor|lia|left|right].
    + by rewrite Hl, Hr.
    + exists q', (q :: ps'), ((k, v) :: kvs'), c'. rewrite Hl, Hr. split_and!; [done|done|rewrite Hps; constructor|done| |done|set_solver].
      exists (Some q). split; [|done]. rewrite Hc'; [done|set_solver].
Qed.

Lemma keys_loop_spec ps : ∀ fuel p kvs keys s,
  chain (cells s) p ps kvs → (length ps ≤ fuel)%nat → keys_loop fuel keys p s = (Ret (keys ++ kvs.*1), s).
Proof.
  induction ps as [|q ps IH]; intros fuel p [|[k v] kvs] keys s; simpl; try done.
  { intros -> _. rewrite app_nil_r. by destruct fuel. }
  intros (-> & nx & Hq & Hch) Hf. destruct fuel as [|fuel]; [lia|]. simpl.
  rewrite (bind_Ret _ _ s _ s (load_ok _ _ _ Hq)). simpl. rewrite (IH _ _ kvs); [by rewrite <-app_assoc|done|lia].
Qed.

Lemma drain_loop_spec ps : ∀ fuel p kvs out s,
  chain (cells s) p ps kvs → NoDup ps → (length ps ≤ fuel)%nat →
  ∃ c', drain_loop fuel out p s = (Ret (out ++ (prod_map id Some <$> kvs)), mkStore c' (reverse ps ++ pool s)) ∧
    dom c' = dom (cells s) ∧ ∀ x, x ∉ ps → c' !! x = cells s !! x.
Proof.
  induction ps as [|q ps IH]; intros fuel p [|[k v] kvs] out s; simpl; try done.
  { intros -> _ _. exists (cells s). rewrite app_nil_r. destruct fuel; by destruct s. }
  intros (-> & nx & Hq & Hch) [Hqn Hnd]%NoDup_cons Hf. destruct fuel as [|fuel]; [lia|]. simpl.
  rewrite (bind_Ret _ _ s _ s (load_ok _ _ _ Hq)). simpl. rewrite (bind_Ret _ _ s _ _ (releaseNode_eq q s)).
  destruct (IH fuel nx kvs (out ++ [(k, Some v)]) (mkStore (<[q := mkNode None [] None]> (cells s)) (q :: pool s)))
    as (c' & Hl & Hd & Hc'); [|done|lia|].
  { simpl. eapply pchain_frame; [|exact Hch]. intros x Hx. rewrite lookup_insert_ne; [done|set_solver]. }
  exists c'. rewrite Hl. simpl. split_and!.
  - by rewrite <-app_assoc, reverse_cons, <-app_assoc.
  - rewrite Hd. simpl. rewrite dom_insert_L. apply elem_of_dom_2 in Hq. set_solver.
  - intros x Hx. rewrite Hc' by set_solver. simpl. rewrite lookup_insert_ne; [done|set_solver].
Qed.

(** ** One operation *)
Lemma acquireNode_spec key value s :
  ∃ q pool', acquireNode key value s = (Ret q, mkStore (<[q := mkNode None key (Some value)]> (cells s)) pool') ∧
    (pool s ≡ₚ q :: pool' ∨ (q ∉ dom (cells s)) ∧ pool' = pool s).
Proof.
  assert (∀ c : gmap ptr listNode, let q := fresh (dom c) in
    <[q := mkNode None key (Some value)]> (<[q := mkNode None [] None]> c) = <[q := mkNode None key (Some value)]> c ∧
    (q ∉ dom c)) as Hnew.
  { intros c q. split; [apply insert_insert_eq|apply is_fresh]. }
  unfold acquireNode, pool_Get, assign, mbind, M_bind. destruct s as [c pl]. simpl. destruct (Hnew c) as [He Hf].
  destruct (take pl) as [i|].
  - destruct (pl !! i) as [q|] eqn:Hi.
    + exists q, (delete i pl). split; [done|]. left. by apply delete_Permutation.
    + eexists _, pl. simpl. rewrite He. split; [done|]. by right.
  - eexists _, pl. simpl. rewrite He. split; [done|]. by right.
Qed.

Inductive lop := LGet (key : bytes) | LPut (key : bytes) (value : V) | LRemove (key : bytes) | LKeys | LDrain.
Inductive lres := RVal (v : option V) | RBool (b : bool) | RKeys (ks : list bytes) | REntries (es : list (bytes * option V)).

Definition plist_do (o : lop) (l : plist) : M store (lres * plist) :=
  match o with
  | LGet key => v ← plist_Get key l; mret (RVal v, l)
  | LPut key value => r ← plist_Put key value l; mret (RBool r.1, r.2)
  | LRemove key => r ← plist_Remove key l; mret (RBool r.1, r.2)
  | LKeys => ks ← plist_Keys l; mret (RKeys ks, l)
  | LDrain => r ← plist_drain l; mret (REntries r.1, r.2)
  end.
(** The same on the lists of [CMap]. *)
Definition entries_do (o : lop) (a : linkedList V) : lres * linkedList V :=
  match o with
  | LGet key => (RVal (linkedList_Get key a), a)
  | LPut key value => let '(b, a) := linkedList_Put key value a in (RBool b, a)
  | LRemove key => let '(b, a) := linkedList_Remove key a in (RBool b, a)
  | LKeys => (RKeys (linkedList_Keys a), a)
  | LDrain => (REntries (prod_map id Some <$> CMap.head a), mkLinkedList [] 0)
  end.

Lemma framed_refl s ps kvs p :
  NoDup (pool s ++ ps) → (∀ q, q ∈ pool s → q ∈ dom (cells s)) → chain (cells s) p ps kvs → framed s ps s ps.
Proof.
  intros Hnd Hp Hch. constructor; [done| |done|done|by left].
  intros q [?|?]%elem_of_app; [auto|by eapply pchain_dom].
Qed.

(** Operations on one list that only use its own nodes. *)
Lemma framed_within s ps s' ps' :
  pool s' ++ ps' ≡ₚ pool s ++ ps → dom (cells s') = dom (cells s) → (∀ q, q ∈ pool s ++ ps → q ∈ dom (cells s)) →
  (∀ q, q ∉ ps → cells s' !! q = cells s !! q) → NoDup (pool s ++ ps) → framed s ps s' ps'.
Proof.
  intros Hp Hd Hin Hk Hnd. constructor.
  - by rewrite Hp.
  - intros q. rewrite Hp, Hd. auto.
  - by rewrite Hd.
  - intros q _ Hq. apply Hk. set_solver.
  - intros q. rewrite Hp. auto.
Qed.

Section one.
Variables (s : store) (l : plist) (ps : list ptr) (a : linkedList V).
Hypothesis Hrep : represents s l ps a.
Hypothesis Hnd : NoDup (pool s ++ ps).
Hypothesis Hpool : ∀ q, q ∈ pool s → q ∈ dom (cells s).

Lemma own_dom q : q ∈ pool s ++ ps → q ∈ dom (cells s).
Proof. intros [?|?]%elem_of_app; [auto|]. eapply pchain_dom; [apply Hrep|done]. Qed.
Lemma own_fuel : (length ps ≤ fuel_of s)%nat.
Proof. eapply pchain_length; [apply Hrep|]. by apply NoDup_app in Hnd as (_ & _ & ?). Qed.
Lemma own_NoDup : NoDup ps.
Proof. by apply NoDup_app in Hnd as (_ & _ & ?). Qed.

Definition op_ok (o : lop) : Prop :=
  ∃ l' s' ps', plist_do o l s = (Ret ((entries_do o a).1, l'), s') ∧ represents s' l' ps' (entries_do o a).2 ∧ framed s ps s' ps'.

Lemma plist_get_ok key : op_ok (LGet key).
Proof.
  exists l, s, ps. simpl. split_and!; [|done|eapply framed_refl; [done|done|apply Hrep]].
  unfold plist_Get, linkedList_Get, mbind, M_bind.
  destruct (find_loop_spec key ps (fuel_of s) (p_head l) (CMap.head a) s (rep_chain _ _ _ _ Hrep) own_NoDup own_fuel)
    as [(-> & -> & _)|(q & n & -> & _ & Hc & <- & _)]; [done|]. by rewrite (load_ok _ _ _ Hc).
Qed.
Lemma plist_keys_ok : op_ok LKeys.
Proof.
  exists l, s, ps. simpl. split_and!; [|done|eapply framed_refl; [done|done|apply Hrep]].
  unfold plist_Keys, mbind, M_bind. by rewrite (keys_loop_spec ps _ _ _ _ _ (rep_chain _ _ _ _ Hrep) own_fuel).
Qed.
Lemma plist_drain_ok : op_ok LDrain.
Proof.
  destruct (drain_loop_spec ps (fuel_of s) (p_head l) (CMap.head a) [] s (rep_chain _ _ _ _ Hrep) own_NoDup own_fuel)
    as (c' & Hl & Hd & Hc).
  exists (mkPlist None 0), (mkStore c' (reverse ps ++ pool s)), []. simpl. split_and!.
  - unfold plist_drain, mbind, M_bind. by rewrite Hl.
  - by constructor.
  - apply framed_within; simpl; [|done|apply own_dom|done|done].
    rewrite app_nil_r, reverse_Permutation. apply Permutation_app_comm.
Qed.

Lemma plist_put_ok key value : op_ok (LPut key value).
Proof.
  unfold op_ok, plist_do, plist_Put, entries_do, linkedList_Put.
  destruct (find_loop_spec key ps (fuel_of s) (p_head l) (CMap.head a) s (rep_chain _ _ _ _ Hrep) own_NoDup own_fuel)
    as [(Hf & _ & Hu)|(q & n & Hf & Hin & Hc & _ & Hu)].
  - rewrite Hu. destruct (acquireNode_spec key value s) as (q & pool' & Ha & Hq).
    assert (q ∉ ps) as Hqps.
    { destruct Hq as [Hq|[Hq _]]; intros Hin; [|apply Hq; by eapply pchain_dom; [apply Hrep|]].
      rewrite Hq in Hnd. apply NoDup_app in Hnd as (_ & Hx & _). by apply (Hx q); [left|]. }
    exists (mkPlist (Some q) (p_count l + 1)), (mkStore (<[q := mkNode (p_head l) key (Some value)]> (cells s)) pool'), (q :: ps).
    simpl. split_and!.
    + unfold mbind, M_bind. rewrite Hf, Ha. unfold load. simpl. rewrite lookup_insert_eq. unfold assign. simpl.
      by rewrite insert_insert_eq.
    + constructor; simpl; [|by rewrite (rep_count _ _ _ _ Hrep)]. split; [done|]. exists (p_head l).
      rewrite lookup_insert_eq. split; [done|]. eapply pchain_frame; [|apply Hrep].
      intros x Hx. rewrite lookup_insert_ne; [done|set_solver].
    + assert (pool' ++ q :: ps ≡ₚ q :: pool' ++ ps) as Hperm by (symmetry; apply Permutation_middle).
      constructor; simpl.
      * rewrite Hperm. destruct Hq as [Hq|[Hq ->]]; [by rewrite Hq in Hnd|].
        constructor; [|done]. intros Hin. by apply Hq, own_dom.
      * intros x. rewrite Hperm, dom_insert. destruct Hq as [Hq|[Hq ->]]; intros [->|Hx]%elem_of_cons; [set_solver| |set_solver|].
        -- apply elem_of_union_r, own_dom. rewrite Hq. by right.
        -- apply elem_of_union_r. by apply own_dom.
      * rewrite dom_insert. set_solver.
      * intros x Hx Hxn. rewrite lookup_insert_ne; [done|]. intros ->. destruct Hq as [Hq|[Hq _]]; [|done].
        apply Hxn. rewrite Hq. by left.
      * intros x. rewrite Hperm. destruct Hq as [Hq|[Hq ->]]; [rewrite Hq; by left|]. intros [->|Hx]%elem_of_cons; auto.
  - destruct (Hu value) as (kvs' & -> & Hch).
    exists l, (mkStore (<[q := mkNode (n_next n) (n_key n) (Some value)]> (cells s)) (pool s)), ps. simpl. split_and!.
    + unfold mbind, M_bind. by rewrite Hf, (load_ok _ _ _ Hc).
    + constructor; [done|apply Hrep].
    + apply framed_within; simpl; [done| |apply own_dom| |done].
      * rewrite dom_insert_L. apply elem_of_dom_2 in Hc. set_solver.
      * intros x Hx. rewrite lookup_insert_ne; [done|]. by intros ->.
Qed.

Lemma plist_remove_ok key : op_ok (LRemove key).
Proof.
  pose proof (rep_chain _ _ _ _ Hrep) as Hch. pose proof own_NoDup as Hps. pose proof own_fuel as Hfuel. pose proof own_dom as Hdom.
  unfold op_ok, plist_do, plist_Remove, entries_do, linkedList_Remove.
  destruct ps as [|h ps0] eqn:Eps, (CMap.head a) as [|[k v] kvs] eqn:Ea; try done; simpl in Hch.
  { rewrite Hch. exists l, s, []. split_and!; [done|by constructor; simpl; rewrite ?Ea, ?Hch; [|apply Hrep]|].
    by apply (framed_refl s [] [] None). }
  destruct Hch as (-> & nx & Hh & Hch). simpl. unfold mbind, M_bind. rewrite (load_ok _ _ _ Hh). simpl.
  destruct (decide (k = key)) as [->|Hk].
  - exists (mkPlist nx (p_count l - 1)), (mkStore (<[h := mkNode None [] None]> (cells s)) (h :: pool s)), ps0. simpl. split_and!.
    + done.
    + constructor; simpl; [|by rewrite (rep_count _ _ _ _ Hrep)]. eapply pchain_frame; [|done].
      intros x Hx. apply NoDup_cons in Hps as [? _]. rewrite lookup_insert_ne; [done|set_solver].
    + apply framed_within; simpl; [by rewrite Permutation_middle| |done| |done].
      * rewrite dom_insert_L. apply elem_of_dom_2 in Hh. set_solver.
      * intros x Hx. rewrite lookup_insert_ne; [done|set_solver].
  - destruct (remove_loop_spec key ps0 (fuel_of s) h nx k v kvs s Hh Hch Hps)
      as [(-> & ->)|(q & ps' & kvs' & c' & -> & -> & Hperm & Hch' & Hd & Hc')]; [simpl in *; lia| |].
    + exists l, s, (h :: ps0). split_and!; [done|done|]. eapply framed_refl; [done|done|apply Hrep].
    + exists (mkPlist (Some h) (p_count l - 1)), (mkStore c' (q :: pool s)), (h :: ps'). simpl. split_and!.
      * done.
      * constructor; simpl; [done|]. by rewrite (rep_count _ _ _ _ Hrep).
      * apply framed_within; simpl; [|done|done|done|done].
        rewrite Hperm, Permutation_middle. apply Permutation_app_head, perm_swap.
Qed.

Lemma plist_do_ok o : op_ok o.
Proof. destruct o; [apply plist_get_ok|apply plist_put_ok|apply plist_remove_ok|apply plist_keys_ok|apply plist_drain_ok]. Qed.
End one.

(** ** Many lists, one pool *)
(** The operation [o.2] on the list of the shard [o.1]. *)
Definition shard_do (o : nat * lop) : M (list plist * store) lres := λ st,
  match st.1 !! o.1 with
  | None => (Panics, st)
  | Some l =>
      match plist_do o.2 l st.2 with
      | (Ret (r, l'), s') => (Ret r, (<[o.1 := l']> st.1, s'))
      | (Panics, s') => (Panics, (st.1, s'))
      | (Fatals, s') => (Fatals, (st.1, s'))
      | (Blocks, s') => (Blocks, (st.1, s'))
      end
  end.
Fixpoint shards_run (ops : list (nat * lop)) : M (list plist * store) (list lres) :=
  match ops with
  | [] => mret []
  | o :: ops => r ← shard_do o; rs ← shards_run ops; mret (r :: rs)
  end.
(** The same operations on the lists of [CMap], each by itself. *)
Fixpoint entries_run (ops : list (nat * lop)) (ls : list (linkedList V)) : list lres * list (linkedList V) :=
  match ops with
  | [] => ([], ls)
  | o :: ops =>
      match ls !! o.1 with
      | None => ([], ls)
      | Some a => let '(r, a) := entries_do o.2 a in let '(rs, ls) := entries_run ops (<[o.1 := a]> ls) in (r :: rs, ls)
      end
  end.

(** Every list has nodes of its own, none of them in the pool. *)
Record shards_ok (ls : list plist) (s : store) (own : nat → list ptr) (abs : list (linkedList V)) : Prop := {
  sh_length : length ls = length abs;
  sh_rep i l a : ls !! i = Some l → abs !! i = Some a → represents s l (own i) a;
  sh_nodup i : (i < length ls)%nat → NoDup (pool s ++ own i);
  sh_disj i j q : (i < length ls)%nat → (j < length ls)%nat → i ≠ j → q ∈ own i → q ∉ own j;
  sh_pool q : q ∈ pool s → q ∈ dom (cells s);
}.

(** An operation on the list [i] keeps the other lists. *)
Lemma shards_ok_step ls s own abs i l l' s' ps' a' :
  shards_ok ls s own abs → ls !! i = Some l → framed s (own i) s' ps' → represents s' l' ps' a' →
  shards_ok (<[i := l']> ls) s' (λ j, if decide (j = i) then ps' else own j) (<[i := a']> abs).
Proof.
  intros [Hlen Hrep Hnd Hdisj Hpool] Hi [Fnd Fdom Fgrow Fkeep Fown] Hr'.
  assert (i < length ls)%nat as Hilt by (by eapply lookup_lt_Some).
  assert (∀ j, (j < length ls)%nat → j ≠ i → ∀ q, q ∈ own j → q ∈ dom (cells s) ∧ (q ∉ pool s ++ own i)) as Hother.
  { intros j Hj Hji q Hq. destruct (lookup_lt_is_Some_2 ls j Hj) as [lj Hlj].
    destruct (lookup_lt_is_Some_2 abs j) as [aj Haj]; [lia|]. split.
    - eapply pchain_dom; [by eapply Hrep|done].
    - intros [Hp|Hp]%elem_of_app; [|by apply (Hdisj j i q)].
      specialize (Hnd j Hj). apply NoDup_app in Hnd as (_ & Hx & _). by apply (Hx q). }
  constructor.
  - by rewrite !length_insert.
  - intros j lj aj Hlj Haj. case_decide as Hji.
    + subst. rewrite list_lookup_insert_eq in Hlj by lia. rewrite list_lookup_insert_eq in Haj by lia. by simplify_eq.
    + rewrite list_lookup_insert_ne in Hlj by done. rewrite list_lookup_insert_ne in Haj by done. destruct (Hrep j lj aj Hlj Haj) as [Hch Hc].
      constructor; [|done]. eapply pchain_frame; [|exact Hch]. intros q Hq.
      destruct (Hother j (lookup_lt_Some _ _ _ Hlj) Hji q Hq). by apply Fkeep.
  - rewrite length_insert. intros j Hj. case_decide as Hji; [done|].
    apply NoDup_app in Fnd as (Hp & _ & _). apply NoDup_app. split_and!; [done| |].
    + intros q Hq Hqj. destruct (Hother j Hj Hji q Hqj) as [Hd Hn].
      destruct (Fown q) as [?|?]; [by apply elem_of_app; left|done|done].
    + specialize (Hnd j Hj). by apply NoDup_app in Hnd as (_ & _ & ?).
  - rewrite length_insert. intros j k q Hj Hk Hjk. repeat case_decide; subst; try done.
    + intros Hq Hqk. destruct (Hother k Hk ltac:(done) q Hqk) as [Hd Hn].
      destruct (Fown q) as [?|?]; [by apply elem_of_app; right|done|done].
    + intros Hqj Hq. destruct (Hother j Hj ltac:(done) q Hqj) as [Hd Hn].
      destruct (Fown q) as [?|?]; [by apply elem_of_app; right|done|done].
    + eauto.
  - intros q Hq. apply Fdom. by apply elem_of_app; left.
Qed.

Lemma shards_run_ok ops : ∀ ls s own abs,
  shards_ok ls s own abs → Forall (λ o, (o.1 < length ls)%nat) ops →
  ∃ st', shards_run ops (ls, s) = (Ret (entries_run ops abs).1, st').
Proof.
  induction ops as [|o ops IH]; intros ls s own abs Hok Hops; simpl; [by eexists|].
  apply Forall_cons in Hops as [Ho Hops].
  destruct (lookup_lt_is_Some_2 ls o.1 Ho) as [l Hl].
  destruct (lookup_lt_is_Some_2 abs o.1) as [a Ha]; [rewrite <-(sh_length _ _ _ _ Hok); lia|].
  destruct (plist_do_ok s l (own o.1) a) with (o := o.2) as (l' & s' & ps' & Hdo & Hrep & Hfr).
  { by eapply (sh_rep _ _ _ _ Hok). }
  { by apply (sh_nodup _ _ _ _ Hok). }
  { apply (sh_pool _ _ _ _ Hok). }
  rewrite Ha. destruct (entries_do o.2 a) as [r a'] eqn:He. simpl in *.
  pose proof (shards_ok_step _ _ _ _ _ _ _ _ _ _ Hok Hl Hfr Hrep) as Hok'.
  destruct (IH _ _ _ _ Hok') as (st' & Hst); [by rewrite length_insert|].
  exists st'. unfold mbind, M_bind, shard_do. simpl. rewrite Hl, Hdo, Hst.
  by destruct (entries_run ops (<[o.1 := a']> abs)).
Qed.

(** C17: Any sequence of operations on the linked lists of any number of shards, which
    recycle their nodes through one pool, answers as on separate lists of entries -
    the lists of [CMap] -, whichever nodes the pool returns; no operation dereferences
    nil or loops, and none sees a node that another list or the pool has. *)
Theorem Pool_transparent n ops :
  Forall (λ o, (o.1 < n)%nat) ops →
  ∃ st', shards_run ops (replicate n (mkPlist None 0), mkStore ∅ []) =
         (Ret (entries_run ops (replicate n (mkLinkedList [] 0))).1, st').
Proof.
  intros Hops. apply shards_run_ok with (own := λ _, []); [|by rewrite length_replicate].
  constructor; simpl; try (by rewrite !length_replicate); try (intros; set_solver); [|intros; constructor].
  intros i l a [-> _]%lookup_replicate [-> _]%lookup_replicate. by constructor.
Qed.
End nodes.

(** ** An example *)
(** The node of the first shard serves the second one. *)
Definition demo_ops : list (nat * lop (V := Z)) :=
  [(0%nat, LPut (lit "a") 1); (0%nat, LPut (lit "b") 2); (0%nat, LRemove (lit "a")); (1%nat, LPut (lit "c") 3);
   (0%nat, LGet (lit "b")); (1%nat, LGet (lit "c")); (0%nat, LGet (lit "a")); (0%nat, LDrain); (0%nat, LKeys)].
Lemma Pool_transparent_witness :
  ∃ st', shards_run (λ p, match p with [] => None | _ => Some 0%nat end) demo_ops (replicate 2 (mkPlist None 0), mkStore ∅ []) =
    (Ret [RBool true; RBool true; RBool true; RBool true; RVal (Some 2); RVal (Some 3); RVal None; REntries [(lit "b", Some 2)]; RKeys []], st')
    ∧ p_head <$> st'.1 = [None; Some 0%nat].
Proof.
  destruct (Pool_transparent (V := Z) (λ p, match p with [] => None | _ => Some 0%nat end) 2 demo_ops) as (st' & Hst).
  - repeat constructor.
  - exists st'. split; [exact Hst|]. vm_compute in Hst. injection Hst as <-. reflexivity.
Defined.
