(* ===== verification/Accept.v ===== *)
(** * Accept loops

    The skeleton [Start] ([src/pkg/server/server.go]) and [Proxy.Run]
    ([src/pkg/proxy/proxy.go]) share: a listener, a loop that accepts connections and
    starts a goroutine for each, a [sync.WaitGroup] that counts these goroutines, a
    context whose cancellation a further goroutine turns into closing the listener, and
    what the function does once it has left the loop, deferred calls included.

    The goroutine of a connection is an interface, [Worker]: what it does by itself
    (which may depend on the context), what its peer does to it, and how much it has
    left to do.  The theorems on the loop are proved against the laws of the interface;
    the connections of the server and the clients of the proxy discharge them.

    Steps are those of the program ([Sys]) or of its surroundings ([Env]: signals,
    peers that connect or send, errors of [Accept]); goroutines interleave freely. *)

From Stdlib Require Import ZArith Lia.
From stdpp Require Import prelude list relations.
From S2P Require Import Prelude.
Open Scope Z_scope.

(** ** The goroutine of a connection *)
Class Worker (W : Type) := {
  born : W;
  works : bool → W → W → Prop;   (* its own steps; the flag: the context is cancelled *)
  hears : W → W → Prop;          (* what its peer does to it *)
  returned : W → bool;           (* its function has returned *)
  blocked : W → bool;            (* it is in a call that never returns *)
  effort : W → nat;              (* a bound on its steps under a cancelled context *)
  cost : nat;                    (* what one act of a peer can add to it *)
}.

Class WorkerLaws (W : Type) `{!Worker W} : Prop := {
  blocked_not_returned w : blocked w = true → returned w = false;
  blocked_works b w w' : works b w w' → blocked w = true → blocked w' = true;
  blocked_hears w w' : hears w w' → blocked w' = blocked w;
  born_free : blocked born = false;
  born_effort : (1 + effort born ≤ cost)%nat;
  works_on w : returned w = false → blocked w = false → ∃ w', works true w w' ∧ blocked w' = false;
  works_effort w w' : works true w w' → (effort w' < effort w)%nat;
  hears_effort w w' : hears w w' → (effort w' ≤ effort w + cost)%nat;
}.

(** ** The loop *)
(** What follows the loop: cancelling the context, [wg.Wait], closing the listener,
    stopping the Raft node. *)
Inductive action := Cancel | Wait | CloseListener | StopNode.
#[export] Instance action_eq_dec : EqDecision action.
Proof. solve_decision. Defined.

(** Errors of [Accept]; a closed listener gives [ErrClosed] and nothing else. *)
Inductive accept_error := ErrClosed | ErrTimeout | ErrOther (msg : bytes).
#[export] Instance accept_error_eq_dec : EqDecision accept_error.
Proof. solve_decision. Defined.

(** What the loop does after an error: go on, or leave with the rest of the function,
    deferred calls in the order they run, and the error it returns. *)
Inductive verdict := Retry | Leave (todo : list action) (res : option bytes).

Inductive pc := Accepting | Finishing (todo : list action) (res : option bytes) | Returned (res : option bytes).

(** The function and its goroutines: a slot for each accepted connection, in order,
    empty after its [wg.Done]. *)
Record system (W : Type) := mkSystem {
  main : pc;
  cancelled : bool;
  listening : bool;
  node_up : bool;
  wg : Z;
  slots : list (option W);
}.
Arguments mkSystem {W} _ _ _ _ _ _.
Arguments main {W} _.
Arguments cancelled {W} _.
Arguments listening {W} _.
Arguments node_up {W} _.
Arguments wg {W} _.
Arguments slots {W} _.

Definition listen_from {W} (node : bool) : system W := mkSystem Accepting false true node 0 [].

Section updates.
Context {W : Type}.
Definition set_main (x : pc) (s : system W) : system W := mkSystem x (cancelled s) (listening s) (node_up s) (wg s) (slots s).
Definition set_cancelled (s : system W) : system W := mkSystem (main s) true (listening s) (node_up s) (wg s) (slots s).
Definition set_closed (s : system W) : system W := mkSystem (main s) (cancelled s) false (node_up s) (wg s) (slots s).
Definition set_node_down (s : system W) : system W := mkSystem (main s) (cancelled s) (listening s) false (wg s) (slots s).
Definition set_slots (n : Z) (ws : list (option W)) (s : system W) : system W :=
  mkSystem (main s) (cancelled s) (listening s) (node_up s) n ws.

(** Leaving the loop, or staying in it. *)
Definition obey (v : verdict) (s : system W) : system W :=
  match v with Retry => s | Leave todo res => set_main (Finishing todo res) s end.

(** One call after the loop; [wg.Wait] goes on when the counter is zero. *)
Definition act (a : action) (s : system W) : option (system W) :=
  match a with
  | Cancel => Some (set_cancelled s)
  | Wait => if wg s =? 0 then Some s else None
  | CloseListener => Some (set_closed s)
  | StopNode => Some (set_node_down s)
  end.
End updates.

Inductive actor := Sys | Env.

Section loop.
Context {W : Type} `{!Worker W}.
Variable on_error : bool → accept_error → verdict.

Inductive step : actor → system W → system W → Prop :=
  | step_signal s : cancelled s = false → step Env s (set_cancelled s)
  | step_close s : cancelled s = true → listening s = true → step Sys s (set_closed s)
  | step_accept s :
      main s = Accepting → listening s = true → step Env s (set_slots (wg s + 1) (slots s ++ [Some born]) s)
  | step_fail s e :
      main s = Accepting → listening s = true → e ≠ ErrClosed → step Env s (obey (on_error (cancelled s) e) s)
  | step_closed s :
      main s = Accepting → listening s = false → step Sys s (obey (on_error (cancelled s) ErrClosed) s)
  | step_act s a todo res s' :
      main s = Finishing (a :: todo) res → act a s = Some s' → step Sys s (set_main (Finishing todo res) s')
  | step_return s res : main s = Finishing [] res → step Sys s (set_main (Returned res) s)
  | step_work s i w w' :
      slots s !! i = Some (Some w) → works (cancelled s) w w' → step Sys s (set_slots (wg s) (<[i := Some w']> (slots s)) s)
  | step_hear s i w w' :
      slots s !! i = Some (Some w) → hears w w' → step Env s (set_slots (wg s) (<[i := Some w']> (slots s)) s)
  | step_done s i w :
      slots s !! i = Some (Some w) → returned w = true → step Sys s (set_slots (wg s - 1) (<[i := None]> (slots s)) s).

Definition steps (s s' : system W) : Prop := ∃ l, step l s s'.
(** What can happen once the function listens. *)
Definition reachable (node : bool) : system W → Prop := rtc steps (listen_from node).

(** A run, with how many steps the program and its surroundings took. *)
Inductive run : nat → nat → system W → system W → Prop :=
  | run_nil s : run 0 0 s s
  | run_sys n m s s1 s2 : step Sys s s1 → run n m s1 s2 → run (S n) m s s2
  | run_env n m s s1 s2 : step Env s s1 → run n m s1 s2 → run n (S m) s s2.

(** ** What has been done stays done *)
Definition empty_slots (s : system W) : Prop := Forall (λ w, w = None) (slots s).
Definition effect (a : action) (s : system W) : Prop :=
  match a with
  | Cancel => cancelled s = true
  | Wait => empty_slots s
  | CloseListener => listening s = false
  | StopNode => node_up s = false
  end.
Definition live (ws : list (option W)) : list W := omap id ws.
Definition busy (s : system W) : Z := Z.of_nat (length (live (slots s))).

(** The function left the loop on the error [e], the context cancelled or not ([c]),
    and has made the calls [made]. *)
Record after_loop (node c : bool) (e : accept_error) (made : list action) (s : system W) : Prop := {
  al_cancelled : c = true ∨ e = ErrClosed → cancelled s = true;
  al_node : StopNode ∉ made → node_up s = node;
  al_effects a : a ∈ made → effect a s;
}.
(** The calls made are a prefix of those the verdict named. *)
Definition progress (node : bool) (s : system W) : Prop :=
  match main s with
  | Accepting => node_up s = node ∧ (listening s = false → cancelled s = true)
  | Finishing todo res => ∃ c e made, on_error c e = Leave (made ++ todo) res ∧ after_loop node c e made s
  | Returned res => ∃ c e made, on_error c e = Leave made res ∧ after_loop node c e made s
  end.

Record loop_inv (node : bool) (s : system W) : Prop := {
  inv_wg : wg s = busy s;
  inv_progress : progress node s;
}.

(** *** Bookkeeping of slots *)
Lemma live_insert (ws : list (option W)) i w x :
  ws !! i = Some (Some w) → length (live (<[i := Some x]> ws)) = length (live ws).
Proof.
  revert i. induction ws as [|o ws IH]; intros [|i] Hi; [done|done|by simplify_eq/=|].
  simpl in *. destruct o; simpl; by rewrite (IH i).
Qed.
Lemma live_remove (ws : list (option W)) i w :
  ws !! i = Some (Some w) → length (live ws) = S (length (live (<[i := None]> ws))).
Proof.
  revert i. induction ws as [|o ws IH]; intros [|i] Hi; [done|done|by simplify_eq/=|].
  simpl in *. destruct o; simpl; by rewrite (IH i).
Qed.
Lemma live_app (ws vs : list (option W)) : live (ws ++ vs) = live ws ++ live vs.
Proof. apply omap_app. Qed.
Lemma busy_zero (s : system W) : busy s = 0 ↔ empty_slots s.
Proof.
  unfold busy, empty_slots, live. induction (slots s) as [|o ws IH]; simpl; [by split; [constructor|]|].
  rewrite Forall_cons. destruct o as [w|]; simpl; [split; [lia|by intros [[=] _]]|]. rewrite IH. tauto.
Qed.
Lemma busy_nonneg (s : system W) : 0 <= busy s.
Proof. unfold busy. lia. Qed.
Lemma empty_slots_lookup (s : system W) i w : empty_slots s → slots s !! i = Some (Some w) → False.
Proof. intros Hs Hi. by pose proof (Forall_lookup_1 _ _ _ _ Hs Hi). Qed.

Lemma obey_fields v (s : system W) :
  cancelled (obey v s) = cancelled s ∧ listening (obey v s) = listening s ∧ node_up (obey v s) = node_up s ∧
  wg (obey v s) = wg s ∧ slots (obey v s) = slots s.
Proof. by destruct v. Qed.
Lemma act_fields a (s s' : system W) :
  act a s = Some s' → main s' = main s ∧ wg s' = wg s ∧ slots s' = slots s.
Proof. destruct a; simpl; intros; repeat case_match; by simplify_eq. Qed.

Lemma step_wg l s s' : wg s = busy s → step l s s' → wg s' = busy s'.
Proof.
  unfold busy. intros Hwg. destruct 1 as [| |s Hm Hl|s e Hm Hl He|s Hm Hl|s a todo res s' Hm Ha|s res Hm|s i w w' Hi Hw|s i w w' Hi Hw|s i w Hi Hr]; simpl; try done.
  - rewrite live_app, length_app, Hwg. simpl. lia.
  - destruct (obey_fields (on_error (cancelled s) e) s) as (_ & _ & _ & -> & ->). done.
  - destruct (obey_fields (on_error (cancelled s) ErrClosed) s) as (_ & _ & _ & -> & ->). done.
  - destruct (act_fields _ _ _ Ha) as (_ & -> & ->). done.
  - by rewrite (live_insert _ _ w).
  - by rewrite (live_insert _ _ w).
  - rewrite Hwg, (live_remove _ _ _ Hi). lia.
Qed.

(** The effects of calls last once the loop is left. *)
Lemma effect_stays l s s' a : main s ≠ Accepting → step l s s' → effect a s → effect a s'.
Proof.
  unfold effect, empty_slots. intros Hm.
  destruct 1 as [| |s Hm'|s e Hm'|s Hm'|s a' todo res s' Hm' Ha|s res Hm'|s i w w' Hi Hw|s i w w' Hi Hw|s i w Hi Hr]; try done;
    try (destruct a; simpl; try done; intros He; by destruct (empty_slots_lookup s i w)).
  destruct a', a; simpl in Ha; repeat case_match; by simplify_eq/=.
Qed.
Lemma cancelled_stays l s s' : step l s s' → cancelled s = true → cancelled s' = true.
Proof.
  destruct 1 as [| | |s e|s|s a todo res s' Hm Ha| | | |]; simpl; try done.
  - by destruct (obey_fields (on_error (cancelled s) e) s) as (-> & _).
  - by destruct (obey_fields (on_error (cancelled s) ErrClosed) s) as (-> & _).
  - destruct a; simpl in Ha; repeat case_match; by simplify_eq/=.
Qed.

Lemma step_node l s s' :
  step l s s' → node_up s' = node_up s ∨ ∃ todo res, main s = Finishing (StopNode :: todo) res.
Proof.
  destruct 1 as [| | |s e|s|s a todo res s' Hm Ha| | | |]; simpl; auto.
  - left. apply obey_fields.
  - left. apply obey_fields.
  - destruct a; simpl in Ha; repeat case_match; simplify_eq/=; eauto.
Qed.

Lemma after_loop_step l node c e made s s' :
  main s ≠ Accepting → step l s s' → node_up s' = node_up s → after_loop node c e made s → after_loop node c e made s'.
Proof.
  intros Hm Hs Hn [Hc Hu He]. constructor.
  - eauto using cancelled_stays.
  - by rewrite Hn.
  - eauto using effect_stays.
Qed.

(** A call adds its effect. *)
Lemma after_loop_act node c e made a todo res s s' :
  wg s = busy s → main s = Finishing (a :: todo) res → act a s = Some s' →
  after_loop node c e made s → after_loop node c e (made ++ [a]) (set_main (Finishing todo res) s').
Proof.
  intros Hwg Hm Ha Hal. assert (main s ≠ Accepting) by (rewrite Hm; done).
  pose proof (step_act _ _ _ _ _ Hm Ha) as Hs. destruct Hal as [Hc Hu He]. constructor.
  - eauto using cancelled_stays.
  - intros Hn. destruct a; simpl in Ha; repeat case_match; simplify_eq/=; try (apply Hu; set_solver). set_solver.
  - intros a' [Ha'| ->%list_elem_of_singleton]%elem_of_app; [eauto using effect_stays|].
    destruct a; simpl in Ha; repeat case_match; simplify_eq/=; try done. apply busy_zero. unfold busy in *. simpl. lia.
Qed.

(** Entering the rest of the function. *)
Lemma after_loop_enter node e s :
  progress node s → main s = Accepting → (e = ErrClosed → listening s = false) →
  progress node (obey (on_error (cancelled s) e) s).
Proof.
  unfold progress. intros Hp Hm He. rewrite Hm in Hp. destruct Hp as [Hn Hl].
  destruct (on_error (cancelled s) e) as [|todo res] eqn:Hv; simpl; [by rewrite Hm|].
  exists (cancelled s), e, []. split; [done|]. constructor; simpl; [naive_solver|done|by intros ? ?%elem_of_nil].
Qed.

(** A step that does not move the function. *)
Lemma progress_aside l node s s' :
  progress node s → step l s s' → main s' = main s → node_up s' = node_up s →
  (main s = Accepting → listening s' = false → listening s = false ∨ cancelled s = true) → progress node s'.
Proof.
  unfold progress. intros Hp Hs Hm Hn Hl. rewrite Hm. destruct (main s) as [|todo res|res] eqn:Ems.
  - destruct Hp as [? Hc]. split; [congruence|]. intros Hf. eapply cancelled_stays; [done|].
    destruct (Hl eq_refl Hf); auto.
  - destruct Hp as (c & e & made & Hv & Hal). exists c, e, made. split; [done|].
    eapply after_loop_step; eauto. by rewrite Ems.
  - destruct Hp as (c & e & made & Hv & Hal). exists c, e, made. split; [done|].
    eapply after_loop_step; eauto. by rewrite Ems.
Qed.

Lemma step_inv l node s s' : loop_inv node s → step l s s' → loop_inv node s'.
Proof.
  intros [Hwg Hp] Hs. constructor; [eauto using step_wg|].
  pose proof Hs as Hs'.
  destruct Hs' as [| |s Hm|s e Hm Hl He|s Hm Hl|s a todo res s' Hm Ha|s res Hm| | |];
    try (by eapply progress_aside; eauto; simpl; auto).
  - by apply after_loop_enter.
  - by apply after_loop_enter.
  - unfold progress in *. rewrite Hm in Hp. simpl. destruct Hp as (c & e & made & Hv & Hal).
    exists c, e, (made ++ [a]). rewrite <-app_assoc. split; [done|]. by eapply after_loop_act.
  - unfold progress in *. rewrite Hm in Hp. simpl. destruct Hp as (c & e & made & Hv & Hal).
    rewrite app_nil_r in Hv. exists c, e, made. split; [done|]. eapply after_loop_step; eauto. by rewrite Hm.
Qed.

Lemma reachable_inv node s : reachable node s → loop_inv node s.
Proof.
  unfold reachable. intros Hr. remember (listen_from node) as s0 eqn:E0.
  assert (loop_inv node s0) as Hi. { subst. by constructor. }
  clear E0. induction Hr as [|s1 s2 s3 [l Hs] _ IH]; eauto using step_inv.
Qed.
End loop.

(** ** Shutting down *)
Definition is_blocked {W} `{!Worker W} (o : option W) : Prop := ∃ w, o = Some w ∧ blocked w = true.
#[export] Instance is_blocked_dec {W} `{!Worker W} (o : option W) : Decision (is_blocked o).
Proof.
  destruct o as [w|]; [|right; by intros (? & [=] & ?)].
  destruct (blocked w) eqn:E; [left; by exists w|right; intros (? & [= ->] & ?); congruence].
Defined.
Definition unblocked {W} `{!Worker W} (s : system W) : Prop := Forall (λ o, ¬ is_blocked o) (slots s).

Section shutdown.
Context {W : Type} `{!Worker W} `{!WorkerLaws W}.
Variable on_error : bool → accept_error → verdict.
Variable limit : nat.
Hypothesis limit_ok : ∀ c e todo res, on_error c e = Leave todo res → (length todo ≤ limit)%nat.
Hypothesis leaves : ∀ e, on_error true e ≠ Retry.

Definition pc_effort (p : pc) : nat :=
  match p with Accepting => 2 + limit | Finishing todo _ => 1 + length todo | Returned _ => 0 end.
Definition slot_effort (o : option W) : nat := match o with Some w => 1 + effort w | None => 0 end.
Definition slots_effort (ws : list (option W)) : nat := sum_list_with slot_effort ws.
(** A bound on the steps the program has left once the context is cancelled. *)
Definition left_to_do (s : system W) : nat :=
  pc_effort (main s) + (if listening s then 1 else 0) + slots_effort (slots s).

Lemma slots_effort_insert ws i o o' :
  ws !! i = Some o → (slots_effort (<[i := o']> ws) + slot_effort o = slots_effort ws + slot_effort o')%nat.
Proof.
  unfold slots_effort. revert i. induction ws as [|a ws IH]; intros [|i] Hi; [done|done|simplify_eq/=; lia|].
  simpl in *. specialize (IH i Hi). lia.
Qed.
Lemma slots_effort_app ws vs : slots_effort (ws ++ vs) = (slots_effort ws + slots_effort vs)%nat.
Proof. apply sum_list_with_app. Qed.

Lemma left_obey s e :
  main s = Accepting → cancelled s = true →
  (left_to_do (obey (on_error (cancelled s) e) s) < left_to_do s)%nat.
Proof.
  intros Hm Hc. rewrite Hc. destruct (on_error true e) as [|todo res] eqn:Hv; [by destruct (leaves e)|].
  unfold left_to_do. simpl. rewrite Hm. simpl. apply limit_ok in Hv. lia.
Qed.

Lemma sys_effort s s' : cancelled s = true → step on_error Sys s s' → (left_to_do s' < left_to_do s)%nat.
Proof.
  intros Hc. inversion 1 as [|s0 ? Hl| | |s0 Hm Hl|s0 a todo res s1 Hm Ha|s0 res Hm|s0 i w w' Hi Hw| |s0 i w Hi Hr]; subst.
  - unfold left_to_do. simpl. rewrite Hl. lia.
  - by apply left_obey.
  - assert ((if listening s1 then 1 else 0) ≤ (if listening s then 1 else 0))%nat.
    { destruct a; simpl in Ha; [|destruct (wg s =? 0)| | ]; simplify_eq; simpl; repeat case_match; lia. }
    destruct (act_fields _ _ _ Ha) as (_ & _ & Hs). unfold left_to_do. simpl. rewrite Hm, Hs. simpl. lia.
  - unfold left_to_do. simpl. rewrite Hm. simpl. lia.
  - rewrite Hc in Hw. apply works_effort in Hw. unfold left_to_do. simpl.
    pose proof (slots_effort_insert _ _ _ (Some w') Hi) as He. simpl in He. lia.
  - unfold left_to_do. simpl. pose proof (slots_effort_insert _ _ _ None Hi) as He. simpl in He. lia.
Qed.

Lemma env_effort s s' : cancelled s = true → step on_error Env s s' → (left_to_do s' ≤ left_to_do s + cost)%nat.
Proof.
  intros Hc. inversion 1 as [? Hc'| |s0 Hm Hl|s0 e Hm Hl He| | | | |s0 i w w' Hi Hw|]; subst.
  - congruence.
  - unfold left_to_do. simpl. rewrite slots_effort_app. unfold slots_effort at 2. simpl. pose proof born_effort. lia.
  - pose proof (left_obey s e Hm Hc). lia.
  - unfold left_to_do. simpl. pose proof (slots_effort_insert _ _ _ (Some w') Hi) as He. simpl in He.
    apply hears_effort in Hw. lia.
Qed.

Lemma run_bound n m s s' :
  cancelled s = true → run on_error n m s s' → (n + left_to_do s' ≤ left_to_do s + cost * m)%nat.
Proof.
  intros Hc Hr. induction Hr as [|n m s s1 s2 Hs _ IH|n m s s1 s2 Hs _ IH]; [lia| |].
  - pose proof (sys_effort _ _ Hc Hs). specialize (IH (cancelled_stays _ _ _ _ Hs Hc)). lia.
  - pose proof (env_effort _ _ Hc Hs). specialize (IH (cancelled_stays _ _ _ _ Hs Hc)). lia.
Qed.

Lemma busy_lookup (s : system W) : busy s ≠ 0 → ∃ i w, slots s !! i = Some (Some w).
Proof.
  unfold busy, live. induction (slots s) as [|[w|] ws IH]; simpl; [done|by exists 0%nat, w|].
  intros (i & w & Hi)%IH. by exists (S i), w.
Qed.

(** As long as no goroutine is blocked for ever the program can go on, without
    blocking one. *)
Lemma sys_enabled node s :
  loop_inv on_error node s → cancelled s = true → unblocked s →
  (∃ res, main s = Returned res) ∨ ∃ s', step on_error Sys s s' ∧ unblocked s'.
Proof.
  intros [Hwg _] Hc Hu. destruct (main s) as [|[|a todo] res|res] eqn:Hm; [| | |by eauto]; right.
  - destruct (listening s) eqn:Hl; [by exists (set_closed s); split; [apply step_close|]|].
    exists (obey (on_error (cancelled s) ErrClosed) s). split; [by apply step_closed|].
    unfold unblocked. by destruct (obey_fields (on_error (cancelled s) ErrClosed) s) as (_ & _ & _ & _ & ->).
  - exists (set_main (Returned res) s). split; [by apply step_return|done].
  - destruct (act a s) as [s'|] eqn:Ha.
    + exists (set_main (Finishing todo res) s'). split; [by eapply step_act|].
      unfold unblocked. simpl. by destruct (act_fields _ _ _ Ha) as (_ & _ & ->).
    + destruct a; simpl in Ha; repeat case_match; simplify_eq.
      destruct (busy_lookup s) as (i & w & Hi); [lia|].
      pose proof (Forall_lookup_1 _ _ _ _ Hu Hi) as Hb.
      destruct (returned w) eqn:Hr.
      * eexists. split; [by eapply step_done|]. unfold unblocked. simpl. apply Forall_insert; [done|by intros (? & [=] & ?)].
      * assert (blocked w = false) as Hbw by (apply not_true_iff_false; intros ?; apply Hb; by exists w).
        destruct (works_on w Hr Hbw) as (w' & Hw & Hbw').
        eexists. split; [eapply step_work; [done|by rewrite Hc]|]. unfold unblocked. simpl.
        apply Forall_insert; [done|]. intros (? & [= <-] & ?). congruence.
Qed.

(** The program can finish by itself. *)
Lemma drain node s :
  loop_inv on_error node s → cancelled s = true → unblocked s →
  ∃ n s' res, run on_error n 0 s s' ∧ main s' = Returned res.
Proof.
  remember (left_to_do s) as k eqn:Hk. revert s Hk.
  induction k as [k IH] using lt_wf_ind. intros s -> Hi Hc Hu.
  destruct (sys_enabled _ _ Hi Hc Hu) as [[res Hm]|(s1 & Hs & Hu1)]; [by exists 0%nat, s, res; split; [constructor|]|].
  destruct (IH _ (sys_effort _ _ Hc Hs) s1 eq_refl (step_inv _ _ _ _ _ Hi Hs) (cancelled_stays _ _ _ _ Hs Hc) Hu1)
    as (n & s' & res & Hr & Hm).
  exists (S n), s', res. split; [by eapply run_sys|done].
Qed.

(** A state in which the program can do nothing. *)
Lemma dead_end node s :
  loop_inv on_error node s → cancelled s = true → (∀ s', ¬ step on_error Sys s s') →
  (∃ res, main s = Returned res) ∨ Exists is_blocked (slots s).
Proof.
  intros Hi Hc Hn. destruct (decide (Exists is_blocked (slots s))) as [|Hb]; [by right|left].
  apply not_Exists_Forall in Hb; [|apply _].
  destruct (sys_enabled _ _ Hi Hc Hb) as [|(s' & Hs & _)]; [done|by destruct (Hn s')].
Qed.

Lemma run_inv n m s s' : run on_error n m s s' → ∀ node, loop_inv on_error node s → loop_inv on_error node s'.
Proof. induction 1; eauto using step_inv. Qed.
Lemma run_cancelled n m s s' : run on_error n m s s' → cancelled s = true → cancelled s' = true.
Proof. induction 1; eauto using cancelled_stays. Qed.

(** A blocked goroutine stays in its slot. *)
Lemma blocked_step l s s' : step on_error l s s' → Exists is_blocked (slots s) → Exists is_blocked (slots s').
Proof.
  rewrite !Exists_exists. intros Hs (o & (j & Hj)%list_elem_of_lookup & w & -> & Hb).
  cut (∃ w', slots s' !! j = Some (Some w') ∧ blocked w' = true).
  { intros (w' & Hw' & Hb'). exists (Some w'). split; [by apply list_elem_of_lookup_2 with j|by exists w']. }
  assert (∀ i w', i ≠ j → <[i := w']> (slots s) !! j = Some (Some w)) as Hne by (intros; by rewrite list_lookup_insert_ne).
  assert (∀ w', <[j := w']> (slots s) !! j = Some w') as Heq.
  { intros w'. apply list_lookup_insert_eq. by eapply lookup_lt_Some. }
  destruct Hs as [| |s Hm|s e Hm|s Hm|s a todo res s' Hm Ha|s res Hm|s i v v' Hi Hw|s i v v' Hi Hw|s i v Hi Hr]; simpl; eauto.
  - exists w. by rewrite lookup_app_l by (by eapply lookup_lt_Some).
  - destruct (obey_fields (on_error (cancelled s) e) s) as (_ & _ & _ & _ & ->). eauto.
  - destruct (obey_fields (on_error (cancelled s) ErrClosed) s) as (_ & _ & _ & _ & ->). eauto.
  - destruct (act_fields _ _ _ Ha) as (_ & _ & ->). eauto.
  - destruct (decide (i = j)) as [->|]; [|eauto]. rewrite Hi in Hj. simplify_eq. exists v'. eauto using blocked_works.
  - destruct (decide (i = j)) as [->|]; [|eauto]. rewrite Hi in Hj. simplify_eq. exists v'. by rewrite (blocked_hears _ _ Hw); eauto.
  - destruct (decide (i = j)) as [->|]; [|eauto]. rewrite Hi in Hj. simplify_eq.
    by rewrite (blocked_not_returned _ Hb) in Hr.
Qed.
Lemma run_blocked n m s s' : run on_error n m s s' → Exists is_blocked (slots s) → Exists is_blocked (slots s').
Proof. induction 1; eauto using blocked_step. Qed.
End shutdown.
