(* ===== verification/Serve.v ===== *)
(** * The server, from start to shutdown

    [src/pkg/server/server.go]: [Start], on the accept loop of [Accept];
    [src/pkg/server/handler.go]: the goroutine of a connection under a context that can
    be cancelled, and the numbers of sessions.

    [Server.Handle] says what a connection does with the commands it reads; here a
    connection is the machine of its phases: it reads a result of the parser, runs a
    command, writes the reply, ends.  Commands return, panic or never return; what they
    answer is [Server]'s business, as is the panic of the parser that ends the process. *)

From Stdlib Require Import Ascii String ZArith Lia.
From stdpp Require Import prelude list relations.
From S2P Require Import Prelude Text Config RESP Util CMap Heap TTL Locks ListStruct ListOps SetStruct HashStruct ZSetStruct Store World Model.
From S2P Require Import Refine Server Cluster Join NodeStart Accept.
Open Scope Z_scope.

(** ** A connection *)
(** The errors of the handler, a read from the closed connection, the error of the
    cancelled context. *)
Inductive conn_error := HandlerError (e : handler_error) | ReadClosed | Canceled.

(** [lastErr] as the deferred function logs it and what [Handle] returns. *)
Record conn_end := mkConnEnd { ce_last : option conn_error; ce_returned : option conn_error }.

(** [if lastErr == nil && ctx.Err() != nil { lastErr = ctx.Err() }; return lastErr] *)
Definition end_with (ctx : bool) (e : option conn_error) : conn_end :=
  let e := match e with None => if ctx then Some Canceled else None | _ => e end in mkConnEnd e e.
Definition end_panic : conn_end := mkConnEnd (Some (HandlerError PanicError)) None.

Inductive phase := Reading | Running (cmd : list slice) | Replying | Ended (e : conn_end) | Hung.

(** What has arrived and is not read yet, whether the connection is open on this side,
    and where the handler is. *)
Record conn := mkConn { c_buf : list ParsedRes; c_open : bool; c_phase : phase }.

(** A connection that ends is closed by the deferred function. *)
Definition ended (e : conn_end) (c : conn) : conn := mkConn (c_buf c) false (Ended e).

(** What the handler does with one result of the parser. *)
Definition receive (ctx : bool) (r : ParsedRes) (rest : list ParsedRes) (c : conn) : conn :=
  let c := mkConn rest (c_open c) (c_phase c) in
  match Err r with
  | Some io_EOF => ended (end_with ctx None) c
  | Some e => ended (end_with ctx (Some (HandlerError (ParseError e)))) c
  | None =>
      match Data r with
      | Some (ArrayData d) => mkConn rest (c_open c) (Running (ToCommand d))
      | _ => c
      end
  end.

Definition is_ended (p : phase) : bool := match p with Ended _ => true | _ => false end.

(** The steps of the goroutines of a connection.  When the context is cancelled the
    second goroutine closes the connection: what the parser had not read is lost. *)
Inductive conn_step (ctx : bool) : conn → conn → Prop :=
  | conn_watch c buf :
      ctx = true → c_open c = true → is_ended (c_phase c) = false → buf `prefix_of` c_buf c →
      conn_step ctx c (mkConn buf false (c_phase c))
  | conn_receive c r rest :
      c_phase c = Reading → c_buf c = r :: rest → conn_step ctx c (receive ctx r rest c)
  | conn_closed c :
      c_phase c = Reading → c_buf c = [] → c_open c = false →
      conn_step ctx c (ended (end_with ctx (Some ReadClosed)) c)
  | conn_answer c cmd : c_phase c = Running cmd → conn_step ctx c (mkConn (c_buf c) (c_open c) Replying)
  | conn_panic c cmd : c_phase c = Running cmd → conn_step ctx c (ended end_panic c)
  | conn_hang c cmd : c_phase c = Running cmd → conn_step ctx c (mkConn (c_buf c) (c_open c) Hung)
  | conn_write c :
      c_phase c = Replying → c_open c = true → conn_step ctx c (mkConn (c_buf c) true Reading)
  | conn_write_err c msg :
      c_phase c = Replying → c_open c = true →
      conn_step ctx c (ended (end_with ctx (Some (HandlerError (WriteError msg)))) c)
  | conn_write_closed c :
      c_phase c = Replying → c_open c = false → conn_step ctx c (ended (end_with ctx None) c).

(** The client sends; the end of its input is a result of the parser as well. *)
Inductive conn_hear : conn → conn → Prop :=
  | conn_send c r : c_open c = true → conn_hear c (mkConn (c_buf c ++ [r]) true (c_phase c)).

Definition phase_effort (p : phase) : nat :=
  match p with Running _ => 4 | Replying => 3 | Reading => 2 | Hung => 1 | Ended _ => 0 end.
Definition conn_effort (c : conn) : nat :=
  phase_effort (c_phase c) + (if c_open c then 1 else 0) + 4 * length (c_buf c).

#[export] Instance conn_worker : Worker conn := {|
  born := mkConn [] true Reading;
  works := conn_step;
  hears := conn_hear;
  Accept.returned c := is_ended (c_phase c);
  blocked c := match c_phase c with Hung => true | _ => false end;
  effort := conn_effort;
  cost := 4;
|}.

(** *** The interface is met *)
Lemma receive_effort ctx r rest c :
  c_phase c = Reading → c_buf c = r :: rest → (conn_effort (receive ctx r rest c) < conn_effort c)%nat.
Proof.
  intros Hp Hb. unfold conn_effort, receive. rewrite Hp, Hb. simpl.
  destruct (Err r) as [[]|]; simpl; try (destruct (c_open c); lia).
  destruct (Data r) as [[]|]; simpl; rewrite ?Hp; simpl; destruct (c_open c); lia.
Qed.
Lemma conn_step_effort ctx c c' : conn_step ctx c c' → (conn_effort c' < conn_effort c)%nat.
Proof.
  destruct 1 as [c buf _ Ho He Hb|c r rest Hp Hb|c Hp Hb Ho|c cmd Hp|c cmd Hp|c cmd Hp|c Hp Ho|c msg Hp Ho|c Hp Ho];
    [|by apply receive_effort|..]; unfold conn_effort, ended; simpl; rewrite ?Ho, ?Hp; simpl; try (destruct (c_open c); lia).
  apply prefix_length in Hb. lia.
Qed.
Lemma receive_blocked ctx r rest c : c_phase c = Reading → c_phase (receive ctx r rest c) ≠ Hung.
Proof. intros Hp. unfold receive, ended. repeat case_match; simpl; congruence. Qed.

#[export] Instance conn_laws : WorkerLaws conn.
Proof.
  constructor; simpl.
  - intros c. by destruct (c_phase c).
  - intros b c c'. destruct 1 as [c buf _ Ho He|c r rest Hp|c Hp|c cmd Hp|c cmd Hp|c cmd Hp|c Hp|c msg Hp|c Hp];
      simpl; rewrite ?Hp; done.
  - by intros c c' [].
  - done.
  - done.
  - intros c Hr Hb. destruct (c_phase c) eqn:Hp; try done.
    + destruct (c_buf c) as [|r rest] eqn:Eb.
      * destruct (c_open c) eqn:Ho.
        -- exists (mkConn [] false (c_phase c)). split; [apply conn_watch; rewrite ?Hp; by try apply prefix_nil|by simpl; rewrite Hp].
        -- eexists. split; [by apply conn_closed|done].
      * eexists. split; [by eapply conn_receive|]. pose proof (receive_blocked true r rest c Hp). by case_match.
    + eexists. by split; [eapply conn_answer|].
    + destruct (c_open c) eqn:Ho; eexists; (split; [by constructor|done]).
  - intros. by eapply conn_step_effort.
  - intros c c' [c0 r Ho]. unfold conn_effort. simpl. rewrite length_app, Ho. simpl. lia.
Qed.

(** ** [Start] *)
(** *** Before the loop *)
(** The calls of the node, listening, the log, stopping the node. *)
Inductive start_event := Called (c : call) | Listened (addr : bytes) | LoggedPanic (msg : bytes) | LoggedError (msg : bytes) | NodeStopped.

(** [net.JoinHostPort] *)
Definition JoinHostPort (host port : bytes) : bytes :=
  if bool_decide (":"%char ∈ host) then lit "[" ++ host ++ lit "]:" ++ port else host ++ ":"%char :: port.

Section Start.
Context `{Host} `{NetURL URL} {tree : Type → Type} `{!RBTree tree}.
Variable ShardNum : Z.   (* of [config.Configures] *)
Variable a : answers.
Variable file : leader_file.
Variable rounds : nat.
Variable listen : bytes → option bytes.          (* the error of [net.Listen] *)
Variable stop_errs : option bytes * option bytes.   (* the errors of the shutdowns of a node *)

(** The deferred call that stops the Raft node, if there is one. *)
Definition stop_node (n : option (StartedNode tree)) : list start_event :=
  match n with
  | None => []
  | Some n =>
      NodeStopped :: match (Stop stop_errs.1 stop_errs.2 n).1 with
                     | Some e => [LoggedError (lit "failed to stop raft node: " ++ e)]
                     | None => []
                     end
  end.

(** [logger.Panic] logs and panics: the deferred calls run, and the [return err] after
    it is never reached. *)
Definition Start_listen (cfg : Config) (n : option (StartedNode tree)) : outcome (system conn) * list start_event :=
  let addr := JoinHostPort (cfg_Host cfg) (FormatInt (cfg_Port cfg)) in
  match listen addr with
  | Some err => (Panics, LoggedPanic err :: stop_node n)
  | None => (Ret (listen_from (bool_decide (is_Some n))), [Listened addr])
  end.

(** [Start] until it listens.  A standalone server makes its database in [newLocalNode], a
    clustered one in [NewNode]; a panic there ends the process without a word in the log. *)
Definition Start_boot (cfg : Config) : outcome (system conn) * list start_event :=
  if cfg_Standalone cfg then
    match NewMemDb (tree := tree) ShardNum with
    | Ret db => Start_listen cfg None
    | _ => (Panics, [])
    end
  else
    match NewNode (tree := tree) ShardNum a file rounds cfg [] with
    | (Ret (inr err), calls) => (Panics, (Called <$> calls) ++ [LoggedPanic (lit "failed to create raft node: " ++ err)])
    | (Ret (inl n), calls) => let '(o, ev) := Start_listen cfg (Some n) in (o, (Called <$> calls) ++ ev)
    | (Panics, calls) => (Panics, Called <$> calls)
    | (Fatals, calls) => (Fatals, Called <$> calls)
    | (Blocks, calls) => (Blocks, Called <$> calls)
    end.
End Start.

(** *** The loop and what follows it *)
(** [stop(); wg.Wait()], then the deferred calls, the last one first. *)
Definition start_after (clustered : bool) : list action :=
  [Cancel; Wait] ++ [CloseListener] ++ (if clustered then [StopNode] else []) ++ [Cancel].
Definition start_on_error (clustered ctx : bool) (e : accept_error) : verdict :=
  if ctx || bool_decide (e = ErrClosed) then Leave (start_after clustered) None else Retry.

(** What is logged of a connection whose handler returned [e]. *)
Definition logs_connection_error (e : option conn_error) : bool :=
  match e with None | Some Canceled => false | Some _ => true end.

(** ** Sessions *)
(** [nextSessionID] at the time [now] in milliseconds. *)
Definition nextSessionID (now : Z) (sessionSeq : Z) : bytes * Z :=
  let seq := (sessionSeq + 1) mod 2 ^ 64 in
  (lit "sess-" ++ FormatInt now ++ "-"%char :: format_uint seq, seq).
Fixpoint session_ids (times : list Z) (sessionSeq : Z) : list bytes :=
  match times with
  | [] => []
  | now :: times => let '(id, seq) := nextSessionID now sessionSeq in id :: session_ids times seq
  end.

(** ** Theorems *)
Lemma start_after_length clustered : (length (start_after clustered) ≤ 5)%nat.
Proof. by destruct clustered; simpl; lia. Qed.
Lemma start_limit clustered c e todo res : start_on_error clustered c e = Leave todo res → (length todo ≤ 5)%nat.
Proof. unfold start_on_error. case_match; [|done]. intros [= <- _]. apply start_after_length. Qed.
Lemma start_leaves clustered e : start_on_error clustered true e ≠ Retry.
Proof. done. Qed.
Lemma start_verdict clustered c e todo res :
  start_on_error clustered c e = Leave todo res → todo = start_after clustered ∧ res = None.
Proof. unfold start_on_error. case_match; [|done]. by intros [= <- <-]. Qed.

(** The node is stopped after the wait. *)
Lemma stop_after_wait clustered made todo : start_after clustered = made ++ todo → StopNode ∈ made → Wait ∈ made.
Proof.
  intros He Hs. destruct made as [|x [|y made]]; [by apply elem_of_nil in Hs| |].
  - apply list_elem_of_singleton in Hs as <-. by destruct clustered.
  - assert (y = Wait) as -> by (destruct clustered; unfold start_after in He; simpl in He; congruence). set_solver.
Qed.

Section graceful.
Variable clustered : bool.
Abbreviation on_error := (start_on_error clustered).

(** C14: In every state [Start] can reach: the counter of the wait group is the number of
    connections whose goroutine has not ended, so it is never negative; the Raft node
    is only stopped when all of them have ended, so no command meets a stopped node;
    and when [Start] has returned, it returned no error, every accepted connection has
    ended, the listener is closed, the context cancelled and the node stopped. *)
Theorem Start_graceful (s : system conn) :
  reachable on_error clustered s →
  wg s = busy s ∧
  (clustered = true → node_up s = false → empty_slots s) ∧
  (∀ res, main s = Returned res →
    res = None ∧ empty_slots s ∧ listening s = false ∧ cancelled s = true ∧ node_up s = false).
Proof.
  intros [Hwg Hp]%reachable_inv. split; [done|]. split.
  - intros -> Hn. unfold progress in Hp. destruct (main s) as [|todo res|res].
    + destruct Hp. congruence.
    + destruct Hp as (c & e & made & [Hv _]%start_verdict & Hal). apply (al_effects _ _ _ _ _ Hal Wait).
      eapply (stop_after_wait true); [done|]. apply dec_stable. intros ?%(al_node _ _ _ _ _ Hal). congruence.
    + destruct Hp as (c & e & made & [-> _]%start_verdict & Hal). apply (al_effects _ _ _ _ _ Hal Wait). set_solver.
  - intros res Hm. unfold progress in Hp. rewrite Hm in Hp.
    destruct Hp as (c & e & made & [-> ->]%start_verdict & Hal).
    split_and!; [done|apply (al_effects _ _ _ _ _ Hal Wait)|apply (al_effects _ _ _ _ _ Hal CloseListener)
      |apply (al_effects _ _ _ _ _ Hal Cancel)|]; [set_solver..|].
    destruct clustered.
    + apply (al_effects _ _ _ _ _ Hal StopNode). set_solver.
    + apply (al_node _ _ _ _ _ Hal). set_solver.
Qed.

(** C15: After a signal every schedule is finite but for what clients go on doing: the
    program takes at most [left_to_do] steps and four for each act of a client; when it
    can take none, [Start] has returned nil or a command never returned; if no command
    hangs, [Start] returns by itself; if one hangs, [Start] never returns. *)
Theorem Start_shuts_down (s : system conn) :
  reachable on_error clustered s → cancelled s = true →
  (∀ n m s', run on_error n m s s' →
    (n ≤ left_to_do 5 s + 4 * m)%nat ∧
    ((∀ s'', ¬ step on_error Sys s' s'') → main s' = Returned None ∨ Exists is_blocked (slots s'))) ∧
  (unblocked s → ∃ n s', run on_error n 0 s s' ∧ main s' = Returned None) ∧
  (Exists is_blocked (slots s) → ∀ n m s' res, run on_error n m s s' → main s' ≠ Returned res).
Proof.
  intros Hi%reachable_inv Hc.
  assert (∀ (s' : system conn) res, loop_inv on_error clustered s' → main s' = Returned res → res = None ∧ empty_slots s') as Hret.
  { intros s' res [_ Hp] Hm. unfold progress in Hp. rewrite Hm in Hp. destruct Hp as (c & e & made & [-> ->]%start_verdict & Hal).
    split; [done|]. apply (al_effects _ _ _ _ _ Hal Wait). set_solver. }
  split_and!.
  - intros n m s' Hr. split.
    + pose proof (run_bound _ 5 (start_limit clustered) (start_leaves clustered) _ _ _ _ Hc Hr) as Hb. simpl in Hb. lia.
    + intros Hd. pose proof (run_inv _ _ _ _ _ Hr _ Hi) as Hi'.
      destruct (dead_end _ _ _ Hi' (run_cancelled _ _ _ _ _ Hr Hc) Hd) as [[res Hm]|]; [left|by right].
      by destruct (Hret _ _ Hi' Hm) as [-> _].
  - intros Hu. destruct (drain _ 5 (start_limit clustered) (start_leaves clustered) _ _ Hi Hc Hu) as (n & s' & res & Hr & Hm).
    exists n, s'. split; [done|]. by destruct (Hret _ _ (run_inv _ _ _ _ _ Hr _ Hi) Hm) as [-> _].
  - intros Hb n m s' res Hr Hm. destruct (Hret _ _ (run_inv _ _ _ _ _ Hr _ Hi) Hm) as [_ He].
    apply (run_blocked _ _ _ _ _ Hr), Exists_exists in Hb as (o & Ho & w & -> & _). unfold empty_slots in He. rewrite Forall_forall in He.
    by specialize (He _ Ho).
Qed.
End graceful.

(** ** Starting *)
Section boot.
Context `{Host} `{NetURL URL} {tree : Type → Type} `{!RBTree tree}.
Variable ShardNum : Z.
Variable a : answers.
Variable file : leader_file.
Variable rounds : nat.
Variable listen : bytes → option bytes.
Variable stop_errs : option bytes * option bytes.
Abbreviation boot := (Start_boot (tree := tree) ShardNum a file rounds listen stop_errs).
Abbreviation new_node := (NewNode (tree := tree) ShardNum a file rounds).

Definition bind_addr (cfg : Config) : bytes := JoinHostPort (cfg_Host cfg) (FormatInt (cfg_Port cfg)).
(** The lock table can be allocated: the number of shards is not negative nor absurd. *)
Definition table_ok : bool := make_ok 8 (int64 (ShardNum * 2)).
Definition node_starts (cfg : Config) : Prop := ∃ n calls, new_node cfg [] = (Ret (inl n), calls).
Definition node_fails (cfg : Config) : Prop := ∃ err calls, new_node cfg [] = (Ret (inr err), calls).
(** The requests to join that [NewNode] sends: they panic on a response, or never end. *)
Definition join_outcome (cfg : Config) (o : option (outcome joined)) : Prop :=
  ∃ raftAddr, a_transport a = inl raftAddr ∧
    join (joinOnce (a_post a) (cfg_NodeID cfg) raftAddr) rounds (collectJoinTargets (cfg_JoinAddrs (with_join_addrs cfg)) file) = o.

Lemma Start_listen_ok cfg (n : option (StartedNode tree)) :
  listen (bind_addr cfg) = None →
  Start_listen listen stop_errs cfg n = (Ret (listen_from (bool_decide (is_Some n))), [Listened (bind_addr cfg)]).
Proof. unfold Start_listen, bind_addr. by intros ->. Qed.
Lemma Start_listen_err cfg (n : option (StartedNode tree)) err :
  listen (bind_addr cfg) = Some err → Start_listen listen stop_errs cfg n = (Panics, LoggedPanic err :: stop_node stop_errs n).
Proof. unfold Start_listen, bind_addr. by intros ->. Qed.
Lemma stop_node_no_listen (n : option (StartedNode tree)) addr : Listened addr ∉ stop_node stop_errs n.
Proof. unfold stop_node. repeat case_match; set_solver. Qed.
Lemma Called_no_listen (calls : list call) addr : Listened addr ∉ Called <$> calls.
Proof. by intros (? & [=] & ?)%list_elem_of_fmap. Qed.
Lemma Called_no_panic (calls : list call) msg : LoggedPanic msg ∉ Called <$> calls.
Proof. by intros (? & [=] & ?)%list_elem_of_fmap. Qed.

Lemma NewMemDb_table : NewMemDb (tree := tree) ShardNum = if table_ok then Ret (new_world ShardNum) else Panics.
Proof. apply NewMemDb_new_world. Qed.

(** Without a lock table nothing is called: the configuration is refused, or the start panics. *)
Lemma NewNode_no_table cfg :
  table_ok = false → new_node cfg [] = (Panics, []) ∨ (¬ complete cfg ∧ ∃ err, new_node cfg [] = (Ret (inr err), [])).
Proof.
  intros Ht. assert (∀ (b : bytes) e (f : unit → C (StartedNode tree)),
    (guard (beq b []) e ≫= f) [] = if decide (b = []) then (Ret (inr e), []) else f tt []) as Hg.
  { intros b e f. unfold guard, beq. destruct (decide (b = [])); [by rewrite bool_decide_eq_true_2|by rewrite bool_decide_eq_false_2]. }
  unfold NewNode, complete. rewrite !Hg.
  destruct (decide (cfg_NodeID cfg = [])); [right; split; [by intros (? & _)|by eexists]|].
  destruct (decide (cfg_RaftDir cfg = [])); [right; split; [by intros (_ & ? & _)|by eexists]|].
  destruct (decide (cfg_RaftBind cfg = [])); [right; split; [by intros (_ & _ & ?)|by eexists]|].
  left. cbv zeta. by rewrite NewMemDb_table, Ht.
Qed.

(** How [NewNode] can end without returning: the lock table cannot be made, or the
    requests to join end in a panic or never. *)
Lemma NewNode_ends cfg :
  match (new_node cfg []).1 with
  | Ret _ => True
  | Panics => table_ok = false ∨ join_outcome cfg (Some Panics)
  | Fatals => False
  | Blocks => join_outcome cfg None
  end.
Proof.
  pose proof (NewNode_returns_or (tree := tree) ShardNum a file rounds cfg []) as He. rewrite NewMemDb_table in He.
  destruct (new_node cfg []).1; [done|..].
  - destruct He as [[_ He]|(r & Ht & He & _)]; [left; by destruct table_ok|right; by exists r].
  - by destruct He as [[? _]|(r & _ & _ & ?)].
  - destruct He as [[? _]|(r & Ht & He & _)]; [done|by exists r].
Qed.

End boot.

(** ** Closed connections *)
(** A connection closed on this side serves at most the command it is running: a reply
    that cannot be written ends it. *)
Definition no_new_command (c : conn) : Prop :=
  c_open c = false ∧ match c_phase c with Reading => False | _ => True end.
Lemma closed_no_new_command ctx c c' :
  rtc (conn_step ctx) c c' → no_new_command c → no_new_command c' ∧ ∀ cmd, c_phase c' = Running cmd → c_phase c = Running cmd.
Proof.
  induction 1 as [|c c1 c2 Hs _ IH]; [done|]. intros [Ho Hp].
  assert (no_new_command c1 ∧ ∀ cmd, c_phase c1 = Running cmd → c_phase c = Running cmd) as [H1 Hr].
  { destruct Hs as [c buf _ Ho'|c r rest Hp'|c Hp'|c cmd Hp'|c cmd Hp'|c cmd Hp'|c Hp' Ho'|c msg Hp' Ho'|c Hp'];
      rewrite ?Hp' in Hp; try done; congruence. }
  destruct (IH H1) as [H2 Hr2]. split; [done|]. eauto.
Qed.

(** An idle connection at shutdown ends with the error of the read, not with that of
    the context, so it is logged as a failure. *)
Lemma idle_connection_logged :
  ∃ e, rtc (conn_step true) born (mkConn [] false (Ended e)) ∧ logs_connection_error (ce_returned e) = true.
Proof.
  exists (end_with true (Some ReadClosed)). split; [|done].
  eapply rtc_l; [by apply (conn_watch true (mkConn [] true Reading) [])|].
  eapply rtc_once, (conn_closed true (mkConn [] false Reading)); done.
Qed.

(** ** Session ids *)
Lemma after_last_dash p q s t :
  "-"%char ∉ s → "-"%char ∉ t → p ++ "-"%char :: s = q ++ "-"%char :: t → s = t.
Proof.
  intros Hs Ht He. apply (f_equal reverse) in He. rewrite !reverse_app, !reverse_cons, <-!app_assoc in He.
  assert (∀ (u v u' v' : bytes), "-"%char ∉ u → "-"%char ∉ v → u ++ "-"%char :: u' = v ++ "-"%char :: v' → u = v) as Hu.
  { induction u as [|x u IH]; intros [|y v] u' v' Hx Hy E; simplify_eq/=; try set_solver. f_equal. eapply IH; [set_solver..|done]. }
  apply (inj reverse). eapply Hu; [..|exact He]; by rewrite elem_of_reverse.
Qed.
Lemma format_uint_no_dash n : 0 <= n → "-"%char ∉ format_uint n.
Proof. intros Hn Hin. pose proof (format_uint_digits n Hn) as Hd. rewrite Forall_forall in Hd. by specialize (Hd _ Hin). Qed.
Lemma format_uint_inj m n : 0 <= m <= MaxUint64 → 0 <= n <= MaxUint64 → format_uint m = format_uint n → m = n.
Proof. intros Hm Hn He. apply (f_equal ParseUint) in He. rewrite !ParseUint_format in He by lia. congruence. Qed.

Lemma session_ids_elem times id : ∀ seq, 0 <= seq → seq + zlen times < 2 ^ 64 → id ∈ session_ids times seq →
  ∃ now k, seq < k <= seq + zlen times ∧ id = lit "sess-" ++ FormatInt now ++ "-"%char :: format_uint k.
Proof.
  induction times as [|now times IH]; intros seq Hs Hl; simpl; [by intros ?%elem_of_nil|].
  rewrite zlen_cons in *. pose proof (zlen_nonneg times). rewrite (Z.mod_small (seq + 1)) by lia.
  intros [->|(now' & k & Hk & ->)%IH]%elem_of_cons; [| |lia..].
  - exists now, (seq + 1). split; [lia|done].
  - exists now', k. split; [lia|done].
Qed.

(** The ids of sessions are distinct, whatever the clock shows, until the counter
    wraps around. *)
Lemma session_ids_NoDup times : ∀ seq, 0 <= seq → seq + zlen times < 2 ^ 64 → NoDup (session_ids times seq).
Proof.
  induction times as [|now times IH]; intros seq Hs Hl; simpl; [constructor|].
  rewrite zlen_cons in *. pose proof (zlen_nonneg times). rewrite (Z.mod_small (seq + 1)) by lia.
  constructor; [|apply IH; lia].
  intros (now' & k & Hk & He)%session_ids_elem; [|lia..].
  apply (after_last_dash (lit "sess-" ++ FormatInt now) (lit "sess-" ++ FormatInt now')) in He; [|apply format_uint_no_dash; lia..].
  apply format_uint_inj in He; unfold MaxUint64; lia.
Qed.

(** ** Examples *)
(** A clustered server that served one connection when the signal came. *)
Definition demo_serving : system conn := mkSystem Accepting true true true 1 [Some (mkConn [] true Reading)].
Definition demo_stopped : system conn := mkSystem (Returned None) true false false 0 [None].

Lemma demo_serving_reachable : reachable (start_on_error true) true demo_serving.
Proof.
  unfold reachable. eapply rtc_l; [eexists; by apply step_accept|]. eapply rtc_l; [eexists; by apply step_signal|]. reflexivity.
Qed.

Lemma demo_stopped_reachable : reachable (start_on_error true) true demo_stopped.
Proof.
  unfold reachable. etrans; [exact demo_serving_reachable|]. unfold demo_serving.
  eapply rtc_l; [eexists; eapply (step_work _ _ 0 _ (mkConn [] false Reading)); [done|by apply (conn_watch true (mkConn [] true Reading) [])]|].
  eapply rtc_l; [eexists; eapply (step_work _ _ 0); [done|by apply (conn_closed true (mkConn [] false Reading))]|].
  eapply rtc_l; [eexists; by eapply (step_done _ _ 0)|].
  eapply rtc_l; [eexists; by apply step_close|].
  eapply rtc_l; [eexists; by apply step_closed|].
  do 5 (eapply rtc_l; [eexists; by eapply step_act|]).
  eapply rtc_l; [eexists; by apply step_return|]. reflexivity.
Qed.

Lemma Start_graceful_witness :
  main demo_stopped = Returned None ∧ wg demo_stopped = 0 ∧ empty_slots demo_stopped ∧ node_up demo_stopped = false.
Proof.
  destruct (Start_graceful true demo_stopped demo_stopped_reachable) as (_ & _ & Hr).
  destruct (Hr None eq_refl) as (_ & He & _ & _ & Hn). split_and!; [done|done|exact He|exact Hn].
Defined.

Lemma Start_shuts_down_witness :
  left_to_do 5 demo_serving = 12%nat ∧ ∃ n s', run (start_on_error true) n 0 demo_serving s' ∧ main s' = Returned None.
Proof.
  split; [reflexivity|]. apply (Start_shuts_down true demo_serving demo_serving_reachable eq_refl).
  constructor; [|constructor]. intros (w & [= <-] & [=]).
Defined.

Lemma session_ids_example :
  session_ids [1700000000000; 1700000000000] 0 = [lit "sess-1700000000000-1"; lit "sess-1700000000000-2"].
Proof. reflexivity. Qed.

#[local] Existing Instance demo_host.
#[local] Existing Instance demo_url.
(** [--shardnum -1]: the lock table cannot be made, and nothing is logged. *)
Lemma negative_shards_panic cfg listen stop_errs :
  cfg_Standalone cfg = true →
  Start_boot (tree := sorted_tree) (-1) (demo_answers false) no_file 8 listen stop_errs cfg = (Panics, []).
Proof. intros Hs. unfold Start_boot. by rewrite Hs. Qed.
