(* ===== verification/Relay.v ===== *)
(** * The proxy, from start to shutdown

    [src/pkg/proxy/proxy.go]: [Run] on the accept loop of [Accept], and the goroutine of
    a client ([handleClient], [pipeConnections], [wait]) under a context that can be
    cancelled.

    [Proxy.handle_round] says which leader a client is connected to; here a client is
    the machine of its phases: it looks at the context, discovers the leader, dials,
    copies, waits.  Probing and dialling end because they have deadlines; the two
    copies end when a side closes or fails, or the context is cancelled.
    [handleClient_phases] shows that [Proxy.handleClient] walks through these phases. *)

From Stdlib Require Import Ascii String ZArith Lia.
From stdpp Require Import prelude gmap list relations.
From S2P Require Import Prelude Text Config RESP Util CMap Heap TTL Locks ListStruct ListOps SetStruct HashStruct ZSetStruct Store World Model.
From S2P Require Import Info Refine Server Cluster Join Report Proxy Accept.
Open Scope Z_scope.

(** ** A client *)
Inductive client := Checking | Discovering | Dialling | Piping | Pausing | Left.

(** The selects of the source take any ready case: a cancelled context and the timer
    can both be ready. *)
Inductive client_step (ctx : bool) : client → client → Prop :=
  | client_check : client_step ctx Checking (if ctx then Left else Discovering)
  | client_found : client_step ctx Discovering Dialling
  | client_unknown : client_step ctx Discovering Pausing
  | client_dialled : client_step ctx Dialling Piping
  | client_refused : client_step ctx Dialling Pausing
  | client_pipe_cancelled : ctx = true → client_step ctx Piping Pausing
  | client_pipe_ended fromClient err :
      client_step ctx Piping
        (match pipeConnections (PipeEnded fromClient err) with None | Some errClientClose => Left | Some (pipeErr _) => Pausing end)
  | client_wait_cancelled : ctx = true → client_step ctx Pausing Left
  | client_waited : client_step ctx Pausing Checking.

Definition client_effort (c : client) : nat :=
  match c with Discovering => 5 | Dialling => 4 | Piping => 3 | Pausing => 2 | Checking => 1 | Left => 0 end.

(** What the client and the nodes send changes no phase by itself. *)
#[export] Instance client_worker : Worker client := {|
  born := Checking;
  works := client_step;
  hears _ _ := False;
  Accept.returned c := match c with Left => true | _ => false end;
  blocked _ := false;
  effort := client_effort;
  cost := 2;
|}.

#[export] Instance client_laws : WorkerLaws client.
Proof.
  constructor; try done.
  - intros [] Hr _; simpl in Hr; try done; (eexists; split; [simpl|done]).
    + apply client_check.
    + apply client_unknown.
    + apply client_refused.
    + by apply client_pipe_cancelled.
    + by apply client_wait_cancelled.
  - intros c c' Hs. destruct Hs as [| | | | | |[] []| |]; simpl; lia.
Qed.

(** *** [handleClient] walks through the phases *)
(** The context along the rounds: it is cancelled at the start of a round that sees it,
    in a pipe that ends for it and in a wait that is cut short. *)
Definition client_goes : client → client → Prop := rtc (λ c c', ∃ ctx, client_step ctx c c').

Lemma goes_step ctx c c1 c2 : client_step ctx c c1 → client_goes c1 c2 → client_goes c c2.
Proof. intros Hs. apply rtc_l. eauto. Qed.
Lemma goes_wait r : client_goes Pausing (match after_wait r with Close => Left | Again => Checking end).
Proof.
  unfold after_wait. destruct (r_waited r).
  - eapply goes_step; [apply (client_waited false)|reflexivity].
  - eapply goes_step; [by apply (client_wait_cancelled true)|reflexivity].
Qed.

Section phases.
Context `{Host}.
Lemma handle_round_phases r p o p' :
  handle_round r p = (Ret o, p') → client_goes Checking (match o.1 with Close => Left | Again => Checking end).
Proof.
  unfold handle_round. destruct (r_done r).
  { intros [= <- _]. eapply goes_step; [apply (client_check true)|reflexivity]. }
  destruct (discoverLeader _ _) as [[[leader|err]| | |] p1]; [| |done..].
  - intros Hr. eapply goes_step; [apply (client_check false)|]. eapply goes_step; [apply (client_found false)|].
    destruct (r_dial r).
    { simplify_eq. eapply goes_step; [apply (client_refused false)|]. apply goes_wait. }
    eapply goes_step; [apply (client_dialled false)|].
    destruct (r_piped r) as [e|fromClient e] eqn:Hp; simpl in Hr.
    + simplify_eq. eapply goes_step; [by apply (client_pipe_cancelled true)|]. apply goes_wait.
    + eapply goes_step; [apply (client_pipe_ended false fromClient e)|].
      destruct fromClient, e; simpl in *; simplify_eq; try reflexivity. apply goes_wait.
  - intros [= <- _]. eapply goes_step; [apply (client_check false)|]. eapply goes_step; [apply (client_unknown false)|]. apply goes_wait.
Qed.

(** [handleClient] has returned where the client has left, and is between two rounds
    where it looks at the context again. *)
Lemma handleClient_phases rs : ∀ p o p',
  handleClient rs p = (Ret o, p') → client_goes Checking (if o.1 then Left else Checking).
Proof.
  induction rs as [|r rs IH]; intros p o p'; simpl; [intros [= <- _]; reflexivity|].
  intros (res & p1 & Hr & Hk)%bind_Ret_inv. apply handle_round_phases in Hr. destruct (res.1); [by injection Hk as <- _|].
  apply bind_Ret_inv in Hk as (rest & p2 & Hrest & [= <- <-]). simpl. etrans; [exact Hr|]. by eapply IH.
Qed.
End phases.

(** ** [Run] *)
Definition run_wait : list action := [Wait; Cancel; CloseListener].
Definition run_fail : list action := [Cancel; CloseListener].
Definition accept_text (e : accept_error) : bytes :=
  match e with ErrClosed => lit "use of closed network connection" | ErrTimeout => lit "i/o timeout" | ErrOther msg => msg end.
Definition run_on_error (ctx : bool) (e : accept_error) : verdict :=
  if ctx then Leave run_wait None
  else match e with ErrTimeout => Retry | _ => Leave run_fail (Some (lit "accept connection: " ++ accept_text e)) end.

(** [Run] up to its loop: the proxy it serves with, or the error it returns. *)
Definition Run_boot (listen : bytes → option bytes) (p : Proxy) : (Proxy * system client) + bytes :=
  match Run_setup p with
  | inr e => inr e
  | inl p =>
      match listen (ListenAddr p) with
      | Some err => inr (lit "listen " ++ ListenAddr p ++ lit ": " ++ err)
      | None => inl (p, listen_from false)
      end
  end.

Lemma run_limit c e todo res : run_on_error c e = Leave todo res → (length todo ≤ 3)%nat.
Proof. destruct c, e; intros; simplify_eq/=; lia. Qed.
Lemma run_leaves e : run_on_error true e ≠ Retry.
Proof. done. Qed.
Lemma no_client_blocked (s : system client) : unblocked s.
Proof. apply Forall_forall. by intros o _ (w & _ & [=]). Qed.

(** Leaving with nil goes through the wait; leaving with an error never happens because
    of a shutdown. *)
Lemma run_returned node (s : system client) res :
  loop_inv run_on_error node s → main s = Returned res →
  cancelled s = true ∧ listening s = false ∧ (res = None → empty_slots s).
Proof.
  intros [_ Hp] Hm. unfold progress in Hp. rewrite Hm in Hp. destruct Hp as (c & e & made & Hv & Hal).
  assert (Cancel ∈ made ∧ CloseListener ∈ made ∧ (res = None → Wait ∈ made)) as (H1 & H2 & H3).
  { unfold run_on_error in Hv. destruct c, e; simplify_eq; split_and!; try done; set_solver. }
  split_and!; [apply (al_effects _ _ _ _ _ Hal Cancel H1)|apply (al_effects _ _ _ _ _ Hal CloseListener H2)|].
  intros Hn. apply (al_effects _ _ _ _ _ Hal Wait (H3 Hn)).
Qed.

(** The context was cancelled before the loop was left: [Run] will return nil. *)
Definition leaving (s : system client) : Prop :=
  cancelled s = true ∧ match main s with Accepting => True | Finishing _ res | Returned res => res = None end.
Lemma leaving_step l s s' : step run_on_error l s s' → leaving s → leaving s'.
Proof.
  unfold leaving. intros Hs [Hc Hm]. split; [by eapply cancelled_stays|].
  destruct Hs as [| | |s e|s|s a todo res s' Hm' Ha|s res Hm'| | |]; simpl; rewrite ?Hc; try done.
  - by rewrite Hm' in Hm.
  - by rewrite Hm' in Hm.
Qed.
Lemma leaving_run n m s s' : run run_on_error n m s s' → leaving s → leaving s'.
Proof. induction 1; eauto using leaving_step. Qed.

(** C16: When [Run] has returned, its listener is closed and its context cancelled, and
    if it returned nil every client has ended.  After the context is cancelled every
    schedule ends: the proxy takes at most [left_to_do] steps and two for each client
    that still connects, and when it can take none it has returned - nil, if it was
    still accepting. *)
Theorem Run_shuts_down (s : system client) :
  reachable run_on_error false s →
  (∀ res, main s = Returned res → cancelled s = true ∧ listening s = false ∧ (res = None → empty_slots s)) ∧
  (cancelled s = true →
    (∀ n m s', run run_on_error n m s s' →
      (n ≤ left_to_do 3 s + 2 * m)%nat ∧
      ((∀ s'', ¬ step run_on_error Sys s' s'') →
        ∃ res, main s' = Returned res ∧ (main s = Accepting → res = None ∧ empty_slots s'))) ∧
    ∃ n s' res, run run_on_error n 0 s s' ∧ main s' = Returned res).
Proof.
  intros Hi%reachable_inv. split; [eauto using run_returned|]. intros Hc. split.
  - intros n m s' Hr. split.
    + pose proof (run_bound _ 3 run_limit run_leaves _ _ _ _ Hc Hr) as Hb. simpl in Hb. lia.
    + intros Hd. pose proof (run_inv _ _ _ _ _ Hr _ Hi) as Hi'.
      destruct (dead_end _ _ _ Hi' (run_cancelled _ _ _ _ _ Hr Hc) Hd) as [[res Hm]|Hb].
      * exists res. split; [done|]. intros Hacc.
        assert (res = None) as ->.
        { destruct (leaving_run _ _ _ _ Hr) as [_ Hl]; [split; [done|by rewrite Hacc]|]. by rewrite Hm in Hl. }
        split; [done|]. by apply (run_returned _ _ _ Hi' Hm).
      * apply Exists_exists in Hb as (o & Ho & Hbl). pose proof (no_client_blocked s') as Hu.
        unfold unblocked in Hu. rewrite Forall_forall in Hu. by destruct (Hu o Ho).
  - exact (drain _ 3 run_limit run_leaves _ _ Hi Hc (no_client_blocked s)).
Qed.

(** ** Examples *)
(** A proxy with one client in its pipe when the context is cancelled. *)
Definition demo_relaying : system client := mkSystem Accepting true true false 1 [Some Piping].
Lemma demo_relaying_reachable : reachable run_on_error false demo_relaying.
Proof.
  unfold reachable. eapply rtc_l; [eexists; by apply step_accept|].
  eapply rtc_l; [eexists; eapply (step_work _ _ 0); [done|apply (client_check false)]|].
  eapply rtc_l; [eexists; eapply (step_work _ _ 0); [done|apply (client_found false)]|].
  eapply rtc_l; [eexists; eapply (step_work _ _ 0); [done|apply (client_dialled false)]|].
  eapply rtc_l; [eexists; by apply step_signal|]. reflexivity.
Qed.
Lemma Run_shuts_down_witness :
  left_to_do 3 demo_relaying = 10%nat ∧ ∃ n s' res, run run_on_error n 0 demo_relaying s' ∧ main s' = Returned res.
Proof.
  split; [reflexivity|]. apply (Run_shuts_down demo_relaying demo_relaying_reachable). reflexivity.
Defined.

(** After an error of [Accept] other than a timeout [Run] returns without waiting for
    its clients. *)
Lemma Run_error_leaves_clients :
  ∃ s : system client, reachable run_on_error false s ∧
    main s = Returned (Some (lit "accept connection: too many open files")) ∧ ¬ empty_slots s.
Proof.
  eexists. split_and!.
  - unfold reachable. eapply rtc_l; [eexists; by apply step_accept|].
    eapply rtc_l; [eexists; by apply (step_fail _ _ (ErrOther (lit "too many open files")))|].
    do 2 (eapply rtc_l; [eexists; by eapply step_act|]). eapply rtc_l; [eexists; by apply step_return|]. reflexivity.
  - reflexivity.
  - simpl. unfold empty_slots. simpl. by inversion 1.
Qed.
