(* ===== verification/Watch.v ===== *)
(** * Goroutines that wait for ticks

    [src/pkg/cluster/node.go]: [startLeaderWatcher], [leaderWatchLoop] and the hint of
    the writer of Raft's log; [src/pkg/memdb/db.go]: [cleanupLoop] and [Stop] of the
    expiry manager.

    Both loops select between a timer and a channel that [Stop] closes; when both are
    ready the select takes either, so the closed channel can come anywhere among the
    ticks.  The watcher is a function of the events it receives, which include what
    another goroutine writes to its file and how each of its own writes comes out.  The
    clean-up is a machine whose atomic actions (collecting the expired keys of one shard,
    deleting one key from the map) interleave with the operations that commands perform
    on the expiries and on the map. *)

From Stdlib Require Import Ascii String ZArith Lia.
From stdpp Require Import prelude gmap list fin_maps.
From S2P Require Import Prelude Text Config Util CMap Heap TTL Join.
Open Scope Z_scope.

(** ** The watcher of the leader *)
(** The ticks, with the address of the leader Raft knows and what writing the file would
    do; the closed channel; and what others do to the file meanwhile. *)
Inductive watch_event :=
| WatchTick (addr : bytes) (w : write_file)
| WatchStop
| WatchOther (content : option bytes).

Definition with_write (w : write_file) (f : leader_file) : leader_file := mkFile (fs_content f) w.

Fixpoint watch_loop (events : list watch_event) (lastAddr : bytes) (f : leader_file) : bytes * leader_file :=
  match events with
  | [] => (lastAddr, f)
  | WatchTick addr w :: events => let '(lastAddr, f) := watch_tick addr lastAddr (with_write w f) in watch_loop events lastAddr f
  | WatchOther c :: events => watch_loop events lastAddr (mkFile c (fs_write f))
  | WatchStop :: _ => (lastAddr, f)
  end.
Definition leaderWatchLoop (events : list watch_event) (f : leader_file) : bytes * leader_file :=
  watch_loop events (TrimSpace (cachedLeaderAddr f)) f.

(** No goroutine without a channel, a path and a Raft node. *)
Definition startLeaderWatcher (hasStop : bool) (leaderPath : bytes) (hasRaft : bool) (events : list watch_event)
    (f : leader_file) : leader_file :=
  if negb hasStop || beq leaderPath [] || negb hasRaft then f else (leaderWatchLoop events f).2.

(** The last leader known at a tick at which writing succeeds, until the watcher is
    stopped; what the file held before, if there is none. *)
Fixpoint last_leader (events : list watch_event) (addr : bytes) : bytes :=
  match events with
  | [] | WatchStop :: _ => addr
  | WatchTick a Written :: events => last_leader events (if beq (TrimSpace a) [] then addr else TrimSpace a)
  | WatchTick _ _ :: events | WatchOther _ :: events => last_leader events addr
  end.

(** ** The writer of Raft's log *)
(** The writer behind it, nil replaced by one that discards, and the function that
    names the leader, once it is set. *)
Record raftLogWriter := mkLogWriter { lw_discards : bool; lw_hint : option (bytes * bytes) }.
Definition newRaftLogWriter (hasInner : bool) : raftLogWriter := mkLogWriter (negb hasInner) None.
Definition SetLeaderHintFunc (fn : bytes * bytes) (w : raftLogWriter) : raftLogWriter := mkLogWriter (lw_discards w) (Some fn).
Definition currentHint (w : raftLogWriter) : bytes * bytes := match lw_hint w with None => ([], []) | Some h => h end.

(** ** Trimming twice *)
Lemma strip_ends step : (∀ s s', step s = Some s' → (length s' < length s)%nat) →
  ∀ fuel s, (length s ≤ fuel)%nat → step (strip step fuel s) = None.
Proof.
  intros Hstep. assert (step [] = None) as Hnil.
  { destruct (step []) as [s'|] eqn:E; [|done]. apply Hstep in E. simpl in E. lia. }
  induction fuel as [|fuel IH]; intros s Hl; simpl.
  - destruct s; [done|simpl in Hl; lia].
  - destruct (step s) as [s'|] eqn:E; [|done]. apply IH. apply Hstep in E. lia.
Qed.
Lemma strip_suffix step : (∀ s s', step s = Some s' → s' `suffix_of` s) → ∀ fuel s, strip step fuel s `suffix_of` s.
Proof.
  intros Hstep. induction fuel as [|fuel IH]; intros s; simpl; [done|].
  destruct (step s) as [s'|] eqn:E; [|done]. etrans; [apply IH|by apply Hstep].
Qed.
Lemma after_space_cons s s' : after_space s = Some s' → ∃ x t, s = (x :: t) ++ s'.
Proof.
  destruct s as [|a [|b [|c s]]]; simpl; intros E; repeat case_match; simplify_eq;
    first [by exists a, []|by exists a, [b]|by exists a, [b; c]].
Qed.
Lemma before_space_cons s s' : before_space s = Some s' → ∃ x t, s = (x :: t) ++ s'.
Proof.
  destruct s as [|a [|b [|c s]]]; simpl; intros E; repeat case_match; simplify_eq;
    first [by exists a, []|by exists a, [b]|by exists a, [b; c]].
Qed.
Lemma after_space_app t u t' : after_space t = Some t' → after_space (t ++ u) = Some (t' ++ u).
Proof. destruct t as [|a [|b [|c t]]]; simpl; intros E; repeat case_match; by simplify_eq/=. Qed.

Lemma cons_shorter (step : bytes → option bytes) : (∀ s s', step s = Some s' → ∃ x t, s = (x :: t) ++ s') →
  (∀ s s', step s = Some s' → (length s' < length s)%nat) ∧ (∀ s s', step s = Some s' → s' `suffix_of` s).
Proof.
  intros Hstep. split; intros s s' (x & t & ->)%Hstep; [rewrite length_app; simpl; lia|by eexists].
Qed.

Lemma TrimSpace_idem s : TrimSpace (TrimSpace s) = TrimSpace s.
Proof.
  destruct (cons_shorter _ after_space_cons) as [La Sa]. destruct (cons_shorter _ before_space_cons) as [Lb Sb].
  unfold TrimSpace at 2 3. set (l := strip after_space (length s) s).
  set (r := strip before_space (length l) (reverse l)).
  assert (after_space l = None) as Hl by (by apply strip_ends).
  assert (before_space r = None) as Hr by (apply strip_ends; [done|by rewrite length_reverse]).
  assert (∃ u, l = reverse r ++ u) as [u Hu].
  { destruct (strip_suffix before_space Sb (length l) (reverse l)) as [t Ht]. fold r in Ht.
    apply (f_equal reverse) in Ht. rewrite reverse_involutive, reverse_app in Ht. by exists (reverse t). }
  assert (after_space (reverse r) = None) as Hrr.
  { destruct (after_space (reverse r)) as [t|] eqn:E; [|done]. apply after_space_app with (u := u) in E. by rewrite <-Hu, Hl in E. }
  unfold TrimSpace. rewrite (strip_none after_space) by done. by rewrite reverse_involutive, strip_none.
Qed.

(** ** The file follows the leader *)
Lemma beq_false a b : a ≠ b → beq a b = false.
Proof. intros Hab. apply not_true_iff_false. by rewrite beq_eq. Qed.
Definition alone (e : watch_event) : Prop := match e with WatchOther _ => False | _ => True end.

(** The file holds [addr], or the first bytes of an address whose write failed at one of
    the ticks. *)
Definition holds (events : list watch_event) (addr : bytes) (f : leader_file) : Prop :=
  cachedLeaderAddr f = addr ∨
  ∃ a n, WatchTick a (Torn n) ∈ events ∧ fs_content f = Some (take n (TrimSpace a)).
(** No write fails half-way. *)
Definition whole (e : watch_event) : Prop := match e with WatchTick _ (Torn _) => False | _ => True end.

(** One tick. *)
Lemma watch_tick_spec a w lastAddr f l' f' :
  watch_tick a lastAddr (with_write w f) = (l', f') →
  l' = last_leader [WatchTick a w] lastAddr ∧
  (fs_content f' = fs_content f ∧ (w = Written → TrimSpace a ≠ [] → TrimSpace a = lastAddr) ∨
   w = Written ∧ l' = TrimSpace a ∧ cachedLeaderAddr f' = l' ∨
   ∃ n, w = Torn n ∧ fs_content f' = Some (take n (TrimSpace a))).
Proof.
  unfold watch_tick, persistLeaderAddr. cbn [last_leader with_write fs_write]. unfold beq at 1 2.
  case_bool_decide as Ha; cbn [orb].
  { intros [= <- <-]. rewrite Ha. split; [by destruct w|]. left. by split. }
  case_bool_decide as Hc.
  { intros [= <- <-]. unfold beq. rewrite bool_decide_eq_false_2 by done. split; [by destruct w|]. left. by split. }
  unfold beq. rewrite bool_decide_eq_false_2 by done. destruct w as [| |n]; intros [= <- <-]; (split; [done|]).
  - right. left. split; [done|]. split; [done|]. unfold cachedLeaderAddr. simpl. apply TrimSpace_idem.
  - left. by split.
  - right. right. by exists n.
Qed.
Lemma watch_loop_spec events lastAddr f l' f' :
  Forall alone events → watch_loop events lastAddr f = (l', f') →
  l' = last_leader events lastAddr ∧
  (cachedLeaderAddr f' = l' ∨ (∃ a n, WatchTick a (Torn n) ∈ events ∧ fs_content f' = Some (take n (TrimSpace a))) ∨
   fs_content f' = fs_content f ∧ l' = lastAddr).
Proof.
  revert lastAddr f. induction events as [|[a w| |c] events IH]; intros lastAddr f; rewrite ?Forall_cons; simpl.
  1: by intros _ [= <- <-]; auto. 2: by intros _ [= <- <-]; auto. 2: by intros [[] _].
  intros [_ Hev]. destruct (watch_tick a lastAddr (with_write w f)) as [l1 f1] eqn:Et. intros Hl.
  destruct (watch_tick_spec _ _ _ _ _ _ Et) as [-> Hf1]. destruct (IH _ _ Hev Hl) as [-> Hf].
  split; [by destruct w|]. destruct Hf as [Hf|[(b & n & Hin & Hf)|[Hf Hl']]]; [by left|right; left; exists b, n; by split; [right|]|].
  destruct Hf1 as [[Hf1 Hw]|[(-> & E & Hf1)|(n & -> & Hf1)]].
  - right. right. split; [congruence|]. rewrite Hl'. destruct w; cbn [last_leader]; [|done..]. unfold beq. case_bool_decide; [done|by apply Hw].
  - left. unfold cachedLeaderAddr in *. rewrite Hf, Hl'. exact Hf1.
  - right. left. exists a, n. split; [by left|]. congruence.
Qed.

(** C22: As long as nobody else writes the file, the watcher remembers the last leader it
    saw at a tick at which writing succeeded (a failed write is repeated at the next tick;
    while no leader is known the old address stays), and stops at the closed channel.  The
    file holds that address, unless a write failed half-way: then it may hold the first bytes
    of the address that was being written.  If no write fails half-way, the file holds
    exactly what the watcher remembers; and after failed writes of any kind the next
    successful write of an address that differs from the remembered one repairs the file. *)
Theorem leaderWatchLoop_follows events f :
  Forall alone events →
  let '(lastAddr, f') := leaderWatchLoop events f in
  lastAddr = last_leader events (cachedLeaderAddr f) ∧ holds events lastAddr f' ∧
  (Forall whole events → cachedLeaderAddr f' = lastAddr) ∧
  (WatchStop ∉ events → ∀ a, TrimSpace a ≠ [] → TrimSpace a ≠ lastAddr →
    cachedLeaderAddr (leaderWatchLoop (events ++ [WatchTick a Written]) f).2 = TrimSpace a).
Proof.
  intros Hev. unfold leaderWatchLoop. unfold cachedLeaderAddr at 1 5. rewrite TrimSpace_idem. fold (cachedLeaderAddr f).
  destruct (watch_loop events (cachedLeaderAddr f) f) as [l f'] eqn:E.
  destruct (watch_loop_spec _ _ _ _ _ Hev E) as [El Hf].
  assert (holds events l f') as Hh.
  { destruct Hf as [?|[?|[Hc Hl]]]; [by left|by right|]. left. rewrite Hl. unfold cachedLeaderAddr. by rewrite Hc. }
  split_and!; [done|done| |].
  - intros Hw. destruct Hh as [|(a & n & Hin & _)]; [done|]. rewrite Forall_forall in Hw. by destruct (Hw _ Hin).
  - intros Hs a Ha Hla. assert (∀ l0 f0, watch_loop (events ++ [WatchTick a Written]) l0 f0 =
      let '(l1, f1) := watch_loop events l0 f0 in watch_tick a l1 (with_write Written f1)) as Happ.
    { clear -Hs. induction events as [|[b w| |c] events IH]; intros l0 f0; simpl in *.
      - by destruct (watch_tick _ _ _).
      - destruct (watch_tick b l0 (with_write w f0)). apply IH. set_solver.
      - set_solver.
      - apply IH. set_solver. }
    rewrite Happ, E. destruct (watch_tick a l (with_write Written f')) as [l2 f2] eqn:Et.
    destruct (watch_tick_spec _ _ _ _ _ _ Et) as [_ [[_ Hx]|[(_ & El2 & Hc)|(? & [=] & _)]]]; [by destruct Hla; apply Hx|].
    simpl. by rewrite Hc, El2.
Qed.

Definition demo_ticks : list watch_event :=
  [WatchTick [] Written; WatchTick (lit "10.0.0.1:7000 ") NotOpened; WatchTick (lit "10.0.0.1:7000 ") (Torn 4);
   WatchTick (lit "10.0.0.1:7000 ") Written; WatchTick [] Written; WatchStop; WatchTick (lit "10.0.0.2:7000") Written].
Lemma leaderWatchLoop_follows_witness :
  (leaderWatchLoop demo_ticks (mkFile (Some (lit "10.0.0.9:7000")) Written)).1 = lit "10.0.0.1:7000" ∧
  cachedLeaderAddr (leaderWatchLoop (take 3 demo_ticks ++ [WatchTick (lit "10.0.0.2:7000") Written])
    (mkFile (Some (lit "10.0.0.9:7000")) Written)).2 = lit "10.0.0.2:7000".
Proof.
  split.
  - pose proof (leaderWatchLoop_follows demo_ticks (mkFile (Some (lit "10.0.0.9:7000")) Written) ltac:(repeat constructor)) as Hw.
    destruct (leaderWatchLoop _ _) as [lastAddr f']. destruct Hw as [Hw _]. rewrite Hw. reflexivity.
  - pose proof (leaderWatchLoop_follows (take 3 demo_ticks) (mkFile (Some (lit "10.0.0.9:7000")) Written) ltac:(repeat constructor)) as Hw.
    destruct (leaderWatchLoop (take 3 demo_ticks) _) as [lastAddr f'] eqn:E. vm_compute in E. injection E as <- <-.
    destruct Hw as (_ & _ & _ & Hw). apply (Hw ltac:(intros Hin; repeat (apply elem_of_cons in Hin as [Hin|Hin]; [discriminate Hin|]); by apply elem_of_nil in Hin) (lit "10.0.0.2:7000")); discriminate.
Defined.

(** A write that fails half-way is not repaired when the leader is again the one whose
    address was written last: the file keeps the torn address at every later tick. *)
Lemma leaderWatchLoop_torn a b n k f :
  TrimSpace a = a → TrimSpace b = b → a ≠ [] → b ≠ [] → a ≠ b → cachedLeaderAddr f ≠ a →
  fs_content (leaderWatchLoop ([WatchTick a Written; WatchTick b (Torn n)] ++ replicate k (WatchTick a Written)) f).2 = Some (take n b).
Proof.
  intros Ea Eb Ha Hb Hab Hf. unfold leaderWatchLoop. unfold cachedLeaderAddr at 1. rewrite TrimSpace_idem. fold (cachedLeaderAddr f).
  cbn [app watch_loop]. unfold watch_tick at 1, persistLeaderAddr. rewrite Ea, !beq_false by done. cbn [orb with_write fs_write].
  unfold watch_tick at 1, persistLeaderAddr. rewrite Eb, !beq_false by done. cbn [orb with_write fs_write fs_content].
  set (g := mkFile (Some (take n b)) (Torn n)). assert (fs_content g = Some (take n b)) as Hg by done. clearbody g. revert g Hg.
  induction k as [|k IH]; intros g Hg; [done|]. cbn [replicate watch_loop]. unfold watch_tick at 1.
  rewrite Ea. assert (beq a a = true) as -> by (by apply beq_eq). rewrite orb_true_r. by apply IH.
Qed.

(** [join] writes the address it asked while the watcher runs: the watcher, which
    remembers having written the leader, does not correct it. *)
Lemma leaderWatchLoop_stale :
  let ticks := [WatchTick (lit "10.0.0.1:7000") Written; WatchOther (Some (lit "10.0.0.3:8000")); WatchTick (lit "10.0.0.1:7000") Written] in
  cachedLeaderAddr (leaderWatchLoop ticks (mkFile None Written)).2 = lit "10.0.0.3:8000".
Proof. reflexivity. Qed.

(** ** The clean-up of expired keys *)
(** The goroutine of [cleanupLoop] runs beside the commands, without the locks of the
    keys: only [collectExpiredAndNext] on one shard and [Delete] of one key are atomic.
    Its events: the timer fires, and [cleanup] reads the clock; the pass goes on by one
    atomic action (at its end the clock is read once more, for the next delay); [Stop]
    closes the channel; and between any two of them, the commands do anything to the
    expiries and to the map. *)
Inductive clean_event (V : Type) :=
| CleanTick (now : Z)
| CleanGo (later : Z)
| CleanStop
| CommandTTL (o : ttl_op)
| CommandMap (o : map_op V).
Arguments CleanTick {V} now.
Arguments CleanGo {V} later.
Arguments CleanStop {V}.
Arguments CommandTTL {V} o.
Arguments CommandMap {V} o.

(** Where the goroutine is: at its select; in a pass at time [now], with [todo] to delete
    before shard [i]; or it has returned. *)
Inductive clean_pc := Waiting | Scanning (now : Z) (i : nat) (todo : list bytes) (nextExpire : Z) | CleanReturned.
(** The delays the timer was set to, and the times of the passes begun. *)
Record cleaner := mkCleaner { cl_pc : clean_pc; cl_waits : list Z; cl_passes : list Z }.
Definition with_pc (pc : clean_pc) (c : cleaner) : cleaner := mkCleaner pc (cl_waits c) (cl_passes c).

Section cleanupLoop.
Context `{Host} {tree : Type → Type} `{!RBTree tree} {V : Type}.

(** One event; one that cannot happen where the goroutine is changes nothing. *)
Definition clean_step (c : cleaner) (e : clean_event V) : M (TTLManager * ConcurrentMap tree V) cleaner := λ '(tm, db),
  match e, cl_pc c with
  | CleanTick now, Waiting => (Ret (mkCleaner (Scanning now 0 [] 0) (cl_waits c) (cl_passes c ++ [now])), (tm, db))
  | CleanStop, Waiting => (Ret (with_pc CleanReturned c), (tm, db))
  | CleanGo later, Scanning now i (key :: todo) nextExpire =>
      match CMap.Delete key db with
      | Ret (_, db) => (Ret (with_pc (Scanning now i todo nextExpire) c), (tm, db))
      | _ => (Panics, (tm, db))
      end
  | CleanGo later, Scanning now i [] nextExpire =>
      if (i <? length (tm_shards tm))%nat then
        match collectExpiredAndNext i now tm with
        | (Ret (expired, next), tm) =>
            (Ret (with_pc (Scanning now (S i) expired
               (if (0 <? next) && ((nextExpire =? 0) || (next <? nextExpire)) then next else nextExpire)) c), (tm, db))
        | (_, tm) => (Panics, (tm, db))
        end
      else (Ret (mkCleaner Waiting (cl_waits c ++ [cleanup_wait nextExpire later]) (cl_passes c)), (tm, db))
  | CommandTTL o, _ =>
      match ttl_step o tm with (Ret _, tm) => (Ret c, (tm, db)) | (_, tm) => (Panics, (tm, db)) end
  | CommandMap o, _ =>
      match cm_step o db with Ret (_, db) => (Ret c, (tm, db)) | _ => (Panics, (tm, db)) end
  | _, _ => (Ret c, (tm, db))
  end.
(** The loop, from its start: the first delay is a second. *)
Definition clean_run (events : list (clean_event V)) (c : cleaner) : M (TTLManager * ConcurrentMap tree V) cleaner :=
  mfold clean_step c events.
Definition cleanupLoop (events : list (clean_event V)) : M (TTLManager * ConcurrentMap tree V) cleaner :=
  clean_run events (mkCleaner Waiting [Second] []).
End cleanupLoop.

(** *** What happens to one key *)
Section view.
Context {V : Type}.

(** The commands alone. *)
Definition ttl_at (k : bytes) (o : ttl_op) (x : option Z) : option Z :=
  match o with
  | OpSetTTL k' e => if decide (k = k') then Some e else x
  | OpRemoveTTL k' => if decide (k = k') then None else x
  | OpExpireAt _ => x
  | OpCheckTTL now k' => if decide (k = k') then match x with Some e => if e <=? now then None else x | None => x end else x
  end.
Definition map_at (k : bytes) (o : map_op V) (v : option V) : option V :=
  match o with
  | OSet k' w => if decide (k = k') then Some w else v
  | ODelete k' => if decide (k = k') then None else v
  | OSetIfExist k' w => if decide (k = k') then (if v is Some _ then Some w else None) else v
  | OSetIfNotExist k' w => if decide (k = k') then (if v is Some _ then v else Some w) else v
  | OClear => None
  | OGet _ | OLen => v
  end.
Definition ttl_ops : list (clean_event V) → list ttl_op := omap (λ e, match e with CommandTTL o => Some o | _ => None end).
Definition map_ops : list (clean_event V) → list (map_op V) := omap (λ e, match e with CommandMap o => Some o | _ => None end).

Lemma ttl_spec_at o σ k : (ttl_spec o σ).2 !! k = ttl_at k o (σ !! k).
Proof.
  destruct o as [k' e|k'|k'|now k']; cbn; rewrite ?lookup_insert, ?lookup_delete; repeat case_decide; subst; try done.
  - destruct (σ !! k') as [e|] eqn:E; [destruct (e <=? now); cbn; [apply lookup_delete_eq|done]|done].
  - destruct (σ !! k') as [e|] eqn:E; [destruct (e <=? now); cbn; [by apply lookup_delete_ne|done]|done].
Qed.
Lemma spec_step_at (o : map_op V) σ k : (spec_step o σ).2 !! k = map_at k o (σ !! k).
Proof.
  destruct o as [k' w|k'|k'|k' w|k' w| |]; cbn; rewrite ?lookup_insert, ?lookup_delete; repeat case_decide; subst; try done.
  - destruct (σ !! k') eqn:E; cbn; [by rewrite lookup_insert_eq|done].
  - destruct (σ !! k') eqn:E; cbn; [by rewrite lookup_insert_ne|done].
  - destruct (σ !! k') eqn:E; cbn; [done|by rewrite lookup_insert_eq].
  - destruct (σ !! k') eqn:E; cbn; [done|by rewrite lookup_insert_ne].
Qed.
Lemma ttl_spec_run_at ops k : ∀ σ, (ttl_spec_run ops σ).2 !! k = foldl (λ x o, ttl_at k o x) (σ !! k) ops.
Proof.
  induction ops as [|o ops IH]; intros σ; [done|]. cbn [ttl_spec_run foldl]. rewrite <- ttl_spec_at.
  destruct (ttl_spec o σ) as [r σ']. cbn [snd]. rewrite <- IH. by destruct (ttl_spec_run ops σ').
Qed.
Lemma spec_run_at (ops : list (map_op V)) k : ∀ σ, (spec_run ops σ).2 !! k = foldl (λ v o, map_at k o v) (σ !! k) ops.
Proof.
  induction ops as [|o ops IH]; intros σ; [done|]. cbn [spec_run foldl]. rewrite <- spec_step_at.
  destruct (spec_step o σ) as [r σ']. cbn [snd]. rewrite <- IH. by destruct (spec_run ops σ').
Qed.

(** The effect of an event on the expiry [x] and the value [v] of the key [k], which lives
    in shard [p] of the expiries. *)
Inductive view (k : bytes) (p : nat) : clean_event V → cleaner → option Z → option V → cleaner → option Z → option V → Prop :=
  | view_tick now c x v :
      cl_pc c = Waiting →
      view k p (CleanTick now) c x v (mkCleaner (Scanning now 0 [] 0) (cl_waits c) (cl_passes c ++ [now])) x v
  | view_stop c x v : cl_pc c = Waiting → view k p CleanStop c x v (with_pc CleanReturned c) x v
  | view_delete later c now i key todo next x v :
      cl_pc c = Scanning now i (key :: todo) next →
      view k p (CleanGo later) c x v (with_pc (Scanning now i todo next) c) x (if decide (k = key) then None else v)
  | view_collect later c now i next ex next' x v :
      cl_pc c = Scanning now i [] next → (k ∈ ex ↔ p = i ∧ ∃ e, x = Some e ∧ e <= now) →
      view k p (CleanGo later) c x v (with_pc (Scanning now (S i) ex next') c) (if decide (k ∈ ex) then None else x) v
  | view_finish later c now i next x v :
      cl_pc c = Scanning now i [] next → (p < i)%nat →
      view k p (CleanGo later) c x v (mkCleaner Waiting (cl_waits c ++ [cleanup_wait next later]) (cl_passes c)) x v
  | view_ttl o c x v : view k p (CommandTTL o) c x v c (ttl_at k o x) v
  | view_map o c x v : view k p (CommandMap o) c x v c x (map_at k o v)
  | view_skip e c x v :
      match e with CommandTTL _ | CommandMap _ => False | _ => True end → view k p e c x v c x v.

Inductive views (k : bytes) (p : nat) : list (clean_event V) → cleaner → option Z → option V → cleaner → option Z → option V → Prop :=
  | views_nil c x v : views k p [] c x v c x v
  | views_cons e events c x v c1 x1 v1 c2 x2 v2 :
      view k p e c x v c1 x1 v1 → views k p events c1 x1 v1 c2 x2 v2 → views k p (e :: events) c x v c2 x2 v2.
End view.

Section cleanup_theorem.
Context `{Host} {tree : Type → Type} `{!RBTree tree, !RBTreeLaws tree} {V : Type}.
Implicit Types (db : ConcurrentMap tree V) (events : list (clean_event V)).

Lemma ttl_step_at o tm :
  tm_ok tm → ∃ r tm', ttl_step o tm = (Ret r, tm') ∧ tm_ok tm' ∧ tm_mask tm' = tm_mask tm ∧
    ∀ k, expiry tm' k = ttl_at k o (expiry tm k).
Proof.
  intros Hok. destruct o as [k' e|k'|k'|now k']; cbn [ttl_step ttl_at].
  - destruct (SetTTL_spec tm k' e Hok) as (tm' & Hrun & ? & ? & ?). eexists _, tm'. by erewrite bind_Ret.
  - destruct (RemoveTTL_spec tm k' Hok) as (tm' & Hrun & ? & ? & ?). eexists _, tm'. by erewrite bind_Ret.
  - eexists _, tm. by erewrite bind_Ret by (by apply ExpireAt_spec).
  - destruct (CheckTTL_spec tm now k' Hok) as (tm' & Hrun & ? & ? & He). eexists _, tm'. erewrite bind_Ret by done.
    split_and!; [done..|]. intros k. rewrite He. destruct (decide (k = k')) as [->|Hne].
    + rewrite bool_decide_eq_true_2, andb_true_r by done. destruct (expiry tm k') as [e|]; [|done]. by destruct (e <=? now).
    + by rewrite bool_decide_eq_false_2, andb_false_r.
Qed.
Lemma cm_step_at o db :
  cm_wf db → ∃ r db', cm_step o db = Ret (r, db') ∧ cm_wf db' ∧ ∀ k, abs db' !! k = map_at k o (abs db !! k).
Proof.
  intros Hwf. destruct (cm_step_spec o db Hwf) as (db' & E & Hwf' & Ha). exists (spec_step o (abs db)).1, db'. split_and!; [done..|].
  intros k. rewrite Ha. apply spec_step_at.
Qed.

Definition wait_ok (w : Z) : Prop := 10 * Millisecond <= w <= Second.
Lemma clean_step_view e c tm db :
  tm_ok tm → cm_wf db → Forall wait_ok (cl_waits c) →
  ∃ c' tm' db', clean_step c e (tm, db) = (Ret c', (tm', db')) ∧ tm_ok tm' ∧ cm_wf db' ∧ tm_mask tm' = tm_mask tm ∧
    Forall wait_ok (cl_waits c') ∧
    ∀ k, view k (pos_of (tm_mask tm) k) e c (expiry tm k) (abs db !! k) c' (expiry tm' k) (abs db' !! k).
Proof.
  intros Hok Hwf Hw. assert (match e with CommandTTL _ | CommandMap _ => False | _ => True end →
    ∀ k, view k (pos_of (tm_mask tm) k) e c (expiry tm k) (abs db !! k) c (expiry tm k) (abs db !! k)) as Hskip
    by (intros; by apply view_skip).
  unfold clean_step. destruct e as [now|later| |o|o].
  - destruct (cl_pc c) eqn:Hpc; [|eauto 10..]. do 3 eexists. split; [done|]. split_and!; [done..|]. intros k. by apply view_tick.
  - destruct (cl_pc c) as [|now i [|key todo] next|] eqn:Hpc; [by eauto 10| | |by eauto 10].
    + destruct (Nat.ltb_spec i (length (tm_shards tm))) as [Hi|Hi].
      * destruct (collectExpiredAndNext_spec tm now i Hok Hi) as (tm' & ex & n & -> & (Hok' & Hm & _ & Hin & Hexp) & _).
        do 3 eexists. split; [done|]. split_and!; [done..|]. intros k. rewrite Hexp. by eapply view_collect.
      * do 3 eexists. split; [done|]. split_and!; [done..| |].
        -- apply Forall_app_2; [done|]. constructor; [apply cleanup_wait_bounds|done].
        -- intros k. eapply view_finish; [done|]. pose proof (pos_of_lt tm k Hok). lia.
    + destruct (Delete_spec db key Hwf) as (db' & -> & Hwf' & Ha). do 3 eexists. split; [done|]. split_and!; [done..|].
      intros k. rewrite Ha, lookup_delete. replace (if decide (key = k) then None else abs db !! k)
        with (if decide (k = key) then None else abs db !! k) by (by repeat case_decide). by eapply view_delete.
  - destruct (cl_pc c) eqn:Hpc; [|eauto 10..]. do 3 eexists. split; [done|]. split_and!; [done..|]. intros k. by apply view_stop.
  - destruct (ttl_step_at o tm Hok) as (r & tm' & -> & ? & ? & He). do 3 eexists. split; [done|]. split_and!; [done..|].
    intros k. rewrite He. apply view_ttl.
  - destruct (cm_step_at o db Hwf) as (r & db' & -> & ? & Ha). do 3 eexists. split; [done|]. split_and!; [done..|].
    intros k. rewrite Ha. apply view_map.
Qed.
Lemma clean_run_view events : ∀ c tm db,
  tm_ok tm → cm_wf db → Forall wait_ok (cl_waits c) →
  ∃ c' tm' db', clean_run events c (tm, db) = (Ret c', (tm', db')) ∧ tm_ok tm' ∧ cm_wf db' ∧ Forall wait_ok (cl_waits c') ∧
    ∀ k, views k (pos_of (tm_mask tm) k) events c (expiry tm k) (abs db !! k) c' (expiry tm' k) (abs db' !! k).
Proof.
  induction events as [|e events IH]; intros c tm db Hok Hwf Hw.
  { exists c, tm, db. split; [done|]. split_and!; [done..|]. intros k. constructor. }
  destruct (clean_step_view e c tm db Hok Hwf Hw) as (c1 & tm1 & db1 & E1 & Hok1 & Hwf1 & Hm & Hw1 & Hv1).
  destruct (IH c1 tm1 db1 Hok1 Hwf1 Hw1) as (c2 & tm2 & db2 & E2 & Hok2 & Hwf2 & Hw2 & Hv2). exists c2, tm2, db2.
  split; [unfold clean_run; cbn [mfold]; by rewrite (bind_Ret _ _ _ _ _ E1)|]. split_and!; [done..|].
  intros k. eapply views_cons; [apply Hv1|]. rewrite <- Hm. apply Hv2.
Qed.

(** *** A key whose expiry does not pass *)
Lemma views_spared k p (nows : list Z) events c x v c' x' v' :
  views k p events c x v c' x' v' →
  (∀ now, CleanTick now ∈ events → now ∈ nows) →
  (∀ e now, x = Some e ∨ CommandTTL (OpSetTTL k e) ∈ events → now ∈ nows → now < e) →
  (∀ now i todo n, cl_pc c = Scanning now i todo n → now ∈ nows ∧ k ∉ todo) →
  x' = foldl (λ x o, ttl_at k o x) x (ttl_ops events) ∧ v' = foldl (λ v o, map_at k o v) v (map_ops events).
Proof.
  induction 1 as [|e events c x v c1 x1 v1 c2 x2 v2 Hv _ IH]; [done|]. intros Ht He Hpc.
  assert (∀ now, CleanTick now ∈ events → now ∈ nows) as Ht' by (intros; apply Ht; by right).
  assert (∀ x1, (x1 = x ∨ x1 = None) → ∀ e now, x1 = Some e ∨ CommandTTL (OpSetTTL k e) ∈ events → now ∈ nows → now < e) as He'.
  { intros y Hy e' now [Hx|Hin]; apply He; [|right; by right]. left. by destruct Hy; congruence. }
  specialize (IH Ht'). destruct Hv as [now c x v Hc|c x v Hc|later c now i key todo next x v Hc
    |later c now i next ex next' x v Hc Hex|later c now i next x v Hc Hi|o c x v|o c x v|e c x v Hs].
  - apply IH; [by apply He'; left|]. intros ???? [= -> <- <- <-]. split; [apply Ht; by left|apply not_elem_of_nil].
  - apply IH; [by apply He'; left|done].
  - destruct (Hpc _ _ _ _ Hc) as [Hn Hk]. apply not_elem_of_cons in Hk as [Hk Hk']. rewrite decide_False in IH by done.
    apply IH; [by apply He'; left|]. intros ???? [= -> <- <- <-]. done.
  - destruct (Hpc _ _ _ _ Hc) as [Hn _]. assert (k ∉ ex) as Hk.
    { rewrite Hex. intros (_ & e & -> & Hle). specialize (He e now (or_introl eq_refl) Hn). lia. }
    rewrite decide_False in IH by done. apply IH; [by apply He'; left|]. intros ???? [= -> <- <- <-]. done.
  - apply IH; [by apply He'; left|done].
  - apply IH; [|done]. intros e now [Hx|Hin]; [|apply He; right; by right].
    destruct o as [k' e'|k'|k'|now' k']; cbn [ttl_at] in Hx; try case_decide; subst; try done; try (by apply He; left).
    + injection Hx as ->. apply He. right. by left.
    + apply He. left. destruct x as [e''|]; [|done]. destruct (e'' <=? now'); done.
  - apply IH; [by apply He'; left|done].
  - assert (ttl_ops (e :: events) = ttl_ops events ∧ map_ops (e :: events) = map_ops events) as [-> ->] by (by destruct e).
    apply IH; [by apply He'; left|done].
Qed.

(** *** A key no command touches *)
Definition touches (k : bytes) (e : clean_event V) : Prop :=
  match e with
  | CommandTTL (OpSetTTL k' _ | OpRemoveTTL k' | OpCheckTTL _ k') => k' = k
  | CommandMap (OSet k' _ | ODelete k' | OSetIfExist k' _ | OSetIfNotExist k' _) => k' = k
  | CommandMap OClear => True
  | _ => False
  end.
(** The expiry [x] had passed at one of the times. *)
Definition passed (x : option Z) (times : list Z) : bool :=
  existsb (λ now, match x with Some e => e <=? now | None => false end) times.
Lemma passed_snoc x times now :
  passed x (times ++ [now]) = passed x times || match x with Some e => e <=? now | None => false end.
Proof. unfold passed. rewrite existsb_app. cbn [existsb]. by rewrite orb_false_r. Qed.

(** Before shard [p] is visited the pass has done nothing to the key; then its expiry is
    forgotten if it has passed, and the key deleted as soon as it is no longer due. *)
Definition tracked (k : bytes) (p : nat) (x0 : option Z) (v0 : option V) (c : cleaner) (x : option Z) (v : option V) : Prop :=
  match cl_pc c with
  | Scanning now i todo _ => ∃ earlier, cl_passes c = earlier ++ [now] ∧
      if decide (p < i)%nat then
        let b := passed x0 (earlier ++ [now]) in
        x = (if b then None else x0) ∧ (v = (if b then None else v0) ∨ k ∈ todo) ∧ (k ∈ todo → b = true)
      else
        let b := passed x0 earlier in x = (if b then None else x0) ∧ v = (if b then None else v0) ∧ k ∉ todo
  | _ => let b := passed x0 (cl_passes c) in x = (if b then None else x0) ∧ v = (if b then None else v0)
  end.
Lemma view_tracked k p e x0 v0 c x v c' x' v' :
  view k p e c x v c' x' v' → ¬ touches k e → tracked k p x0 v0 c x v → tracked k p x0 v0 c' x' v'.
Proof.
  unfold tracked. destruct 1 as [now c x v Hc|c x v Hc|later c now i key todo next x v Hc
    |later c now i next ex next' x v Hc Hex|later c now i next x v Hc Hi|o c x v|o c x v|e c x v Hs]; intros Ht; try done.
  - rewrite Hc. cbn. intros [-> ->]. exists (cl_passes c). split; [done|]. rewrite decide_False by lia.
    split_and!; [done..|apply not_elem_of_nil].
  - by rewrite Hc.
  - rewrite Hc. cbn. intros (earlier & E & Hk). exists earlier. split; [done|]. destruct (decide (p < i)%nat).
    + destruct Hk as (-> & Hv & Hb). split_and!; [done| |intros ?; apply Hb; by right].
      destruct (decide (k = key)) as [->|Hne]; [left; by rewrite Hb by left|].
      destruct Hv as [->|[?|?]%elem_of_cons]; [by left|done|by right].
    + destruct Hk as (-> & -> & Hk). apply not_elem_of_cons in Hk as [Hk Hk']. by rewrite decide_False.
  - rewrite Hc. cbn. intros (earlier & E & Hk). exists earlier. split; [done|]. destruct (decide (p < i)%nat).
    + destruct Hk as (-> & Hv & _). assert (k ∉ ex) as Hn by (rewrite Hex; lia). rewrite (decide_False (P := k ∈ ex)) by done. rewrite decide_True by lia.
      split_and!; [done| |done]. destruct Hv as [?|?%elem_of_nil]; [by left|done].
    + destruct Hk as (-> & -> & _). destruct (decide (p < S i)%nat) as [Hlt|Hlt].
      2:{ assert (k ∉ ex) as Hn by (rewrite Hex; lia). by rewrite decide_False. }
      assert (p = i) as -> by lia. rewrite passed_snoc. destruct (passed x0 earlier); cbn [orb].
      { assert (k ∉ ex) as Hn by (rewrite Hex; naive_solver). rewrite decide_False by done. by split_and!; [|left|]. }
      destruct (decide (k ∈ ex)) as [Hin|Hn].
      * pose proof Hin as Hin'. apply Hex in Hin' as (_ & e & -> & Hle). rewrite (proj2 (Z.leb_le e now)) by done.
        by split_and!; [|right|].
      * assert (match x0 with Some e => e <=? now | None => false end = false) as ->.
        { destruct x0 as [e|]; [|done]. apply Z.leb_gt. destruct (Z.le_gt_cases e now); [|done].
          exfalso. apply Hn, Hex. split; [done|]. by exists e. }
        by split_and!; [|left|].
  - rewrite Hc. cbn. intros (earlier & -> & Hk). rewrite decide_True in Hk by done. destruct Hk as (-> & Hv & _).
    split; [done|]. by destruct Hv as [?|?%elem_of_nil].
  - assert (ttl_at k o x = x) as ->; [|done]. destruct o; cbn in *; try done; by rewrite decide_False.
  - assert (map_at k o v = v) as ->; [|done]. destruct o; cbn in *; try done; by rewrite decide_False.
Qed.
Lemma views_tracked k p events x0 v0 c x v c' x' v' :
  views k p events c x v c' x' v' → Forall (λ e, ¬ touches k e) events → tracked k p x0 v0 c x v → tracked k p x0 v0 c' x' v'.
Proof.
  induction 1 as [|e events c x v c1 x1 v1 c2 x2 v2 Hv _ IH]; [done|]. intros [He Hev]%Forall_cons Ht.
  apply IH; [done|]. by eapply view_tracked.
Qed.

(** C21: The clean-up beside the commands.  However its atomic actions interleave with
    whatever the commands do to the expiries and to the map, the goroutine never fails,
    keeps both structures well formed and sets its timer to between ten milliseconds and a
    second.  A key whose expiries all lie after the passes is left alone: its expiry and its
    value are what the commands alone make of them.  A key that no command touches is gone,
    with its expiry, once the passes begun have ended, if its expiry had passed at one of
    them, and otherwise it is as it was.  (For a key that a command sets again while a pass
    deletes it nothing is promised: see [Background.cleanup_deletes_fresh_value].) *)
Theorem cleanupLoop_spec events tm db σ :
  ttl_rel tm σ → cm_wf db →
  ∃ c tm' db', cleanupLoop events (tm, db) = (Ret c, (tm', db')) ∧ tm_ok tm' ∧ cm_wf db' ∧
    Forall (λ w, 10 * Millisecond <= w <= Second) (cl_waits c) ∧
    (∀ k, (∀ now e, CleanTick now ∈ events → σ !! k = Some e ∨ CommandTTL (OpSetTTL k e) ∈ events → now < e) →
      expiry tm' k = (ttl_spec_run (ttl_ops events) σ).2 !! k ∧
      abs db' !! k = (spec_run (map_ops events) (abs db)).2 !! k) ∧
    (∀ k, Forall (λ e, ¬ touches k e) events → (∀ now i todo next, cl_pc c ≠ Scanning now i todo next) →
      expiry tm' k = (if passed (σ !! k) (cl_passes c) then None else σ !! k) ∧
      abs db' !! k = (if passed (σ !! k) (cl_passes c) then None else abs db !! k)).
Proof.
  intros [Hok Hexp] Hwf.
  destruct (clean_run_view events (mkCleaner Waiting [Second] []) tm db Hok Hwf) as (c & tm' & db' & E & Hok' & Hwf' & Hw & Hv).
  { by repeat constructor. }
  exists c, tm', db'. split_and!; [done..| |]; intros k; specialize (Hv k); rewrite Hexp in Hv.
  - intros Hs. rewrite ttl_spec_run_at, spec_run_at.
    set (nows := omap (λ e : clean_event V, match e with CleanTick now => Some now | _ => None end) events).
    assert (∀ now, now ∈ nows ↔ CleanTick now ∈ events) as Hn.
    { intros now. unfold nows. rewrite list_elem_of_omap. split; [|by eauto]. intros (e & Hin & He).
      destruct e; simplify_eq. done. }
    eapply (views_spared k _ nows); [exact Hv|intros now; by rewrite Hn| |done].
    intros e now He Hin%Hn. by apply (Hs now e).
  - intros Ht Hpc. pose proof (views_tracked _ _ _ (σ !! k) (abs db !! k) _ _ _ _ _ _ Hv Ht) as Htr.
    unfold tracked in Htr. cbn in Htr. specialize (Htr (conj eq_refl eq_refl)).
    destruct (cl_pc c) as [|now i todo next|] eqn:Epc; [done| |done]. by destruct (Hpc now i todo next).
Qed.

(** *** A pass that nothing interrupts *)
Lemma clean_run_app e1 e2 c (s : TTLManager * ConcurrentMap tree V) :
  clean_run (e1 ++ e2) c s = (c' ← clean_run e1 c; clean_run e2 c') s.
Proof. apply mfold_app. Qed.
(** The deletions of one shard. *)
Lemma clean_deletes later now i next c tm db db' : ∀ todo,
  cl_pc c = Scanning now i todo next →
  mfold (λ _ key db, match CMap.Delete key db with Ret (_, db) => (Ret tt, db) | _ => (Panics, db) end) tt todo db = (Ret tt, db') →
  clean_run (replicate (length todo) (CleanGo later)) c (tm, db) = (Ret (with_pc (Scanning now i [] next) c), (tm, db')).
Proof.
  intros todo. revert c db. induction todo as [|key todo IH]; intros c db Hc Hd.
  { injection Hd as <-. cbn. unfold with_pc. rewrite <- Hc. by destruct c. }
  cbn [mfold] in Hd. apply bind_Ret_inv in Hd as ([] & db1 & E1 & Hd).
  destruct (CMap.Delete key db) as [[r db2]| | |] eqn:Edel; simplify_eq.
  unfold clean_run. cbn [length replicate mfold].
  rewrite (bind_Ret _ _ _ (with_pc (Scanning now i todo next) c) (tm, db1)).
  - exact (IH (with_pc (Scanning now i todo next) c) db1 eq_refl Hd).
  - unfold clean_step. by rewrite Hc, Edel.
Qed.
(** One shard of [cleanup]. *)
Lemma clean_shard later now i next c tm db next' tm' db' :
  cl_pc c = Scanning now i [] next → (i < length (tm_shards tm))%nat →
  cleanup_shard now next i (tm, db) = (Ret next', (tm', db')) →
  ∃ n, clean_run (replicate n (CleanGo later)) c (tm, db) = (Ret (with_pc (Scanning now (S i) [] next') c), (tm', db')).
Proof.
  intros Hc Hi. unfold cleanup_shard. destruct (collectExpiredAndNext i now tm) as [[[ex nx]| | |] tm1] eqn:Ec; try done.
  destruct (mfold _ tt ex db) as [[[]| | |] db1] eqn:Ed; try done. intros [= <- <- <-].
  exists (S (length ex)). unfold clean_run. cbn [replicate mfold]. erewrite bind_Ret.
  2:{ unfold clean_step. rewrite Hc. cbv iota. rewrite (proj2 (Nat.ltb_lt _ _)) by done. rewrite Ec. reflexivity. }
  eapply (clean_deletes later now (S i) _ (with_pc _ c)) in Ed; [|reflexivity]. exact Ed.
Qed.
(** When no command runs during a pass, the steps of the goroutine do what [cleanup] does. *)
Theorem cleanup_uninterrupted now later tm db waits passes :
  0 <= now → tm_ok tm → cm_wf db →
  ∃ n next tm' db', cleanup now (tm, db) = (Ret next, (tm', db')) ∧
    clean_run (CleanTick now :: replicate n (CleanGo later)) (mkCleaner Waiting waits passes) (tm, db) =
      (Ret (mkCleaner Waiting (waits ++ [cleanup_wait next later]) (passes ++ [now])), (tm', db')).
Proof.
  intros Hnow Hok Hwf. unfold cleanup.
  assert (∀ m i next tm1 db1, (i + m)%nat = length (tm_shards tm1) → cleaned now i next tm db tm1 db1 →
    ∃ n next' tm' db', mfold (cleanup_shard now) next (seq i m) (tm1, db1) = (Ret next', (tm', db')) ∧
      clean_run (replicate n (CleanGo later)) (mkCleaner (Scanning now i [] next) waits (passes ++ [now])) (tm1, db1) =
        (Ret (mkCleaner Waiting (waits ++ [cleanup_wait next' later]) (passes ++ [now])), (tm', db'))) as Hgo.
  { induction m as [|m IH]; intros i next tm1 db1 Hlen Hcl.
    - exists 1%nat, next, tm1, db1. split; [done|]. unfold clean_run. cbn [replicate mfold]. erewrite bind_Ret; [reflexivity|].
      unfold clean_step. cbn [cl_pc]. by rewrite (proj2 (Nat.ltb_ge _ _)) by lia.
    - destruct (cleanup_shard_spec now i next tm db tm1 db1 Hnow) as (next1 & tm2 & db2 & E & Hl & Hcl'); [lia|done|].
      destruct (clean_shard later now i next (mkCleaner (Scanning now i [] next) waits (passes ++ [now])) tm1 db1 next1 tm2 db2)
        as (n1 & E1); [done|lia|done|].
      destruct (IH (S i) next1 tm2 db2) as (n2 & next' & tm' & db' & E2 & E3); [lia|done|].
      exists (n1 + n2)%nat, next', tm', db'. split; [cbn [seq mfold]; by rewrite (bind_Ret _ _ _ _ _ E)|].
      rewrite replicate_add, clean_run_app. by rewrite (bind_Ret _ _ _ _ _ E1). }
  destruct (Hgo (length (tm_shards tm)) 0%nat 0 tm db) as (n & next & tm' & db' & E1 & E2); [done| |].
  { split_and!; [done..| | |]; intros; rewrite ?andb_false_r; try done. left. split; [done|]. lia. }
  exists n, next, tm', db'. split; [done|]. unfold clean_run. cbn [mfold]. by erewrite bind_Ret.
Qed.
End cleanup_theorem.

#[local] Existing Instance demo_host.
Definition demo_cleaning : TTLManager := (ttl_run [OpSetTTL (lit "a") 5; OpSetTTL (lit "b") 9; OpSetTTL (lit "c") 30] (NewTTLManager 16)).2.
(** A pass at time 9 during which a command sets another key. *)
Definition demo_schedule : list (clean_event Z) :=
  CleanTick 9 :: CommandMap (OSet (lit "c") 1) :: replicate 20 (CleanGo 9) ++ [CommandTTL (OpSetTTL (lit "c") 40); CleanStop].
Lemma cleanupLoop_spec_witness :
  ∃ c tm' db', cleanupLoop (tree := sorted_tree) demo_schedule (demo_cleaning, NewConcurrentMap 4) = (Ret c, (tm', db')) ∧
    cl_pc c = CleanReturned ∧ expiry tm' (lit "b") = None ∧ expiry tm' (lit "c") = Some 40.
Proof.
  destruct (ttl_run_spec [OpSetTTL (lit "a") 5; OpSetTTL (lit "b") 9; OpSetTTL (lit "c") 30]
    (NewTTLManager 16) ∅ (NewTTLManager_rel 16)) as (tm0 & Hrun & Hrel).
  assert (demo_cleaning = tm0) as E by (unfold demo_cleaning; by rewrite Hrun). rewrite <- E in *.
  destruct (cleanupLoop_spec (tree := sorted_tree) demo_schedule demo_cleaning (NewConcurrentMap 4) _ Hrel
    (proj1 (NewConcurrentMap_spec 4))) as (c & tm' & db' & Hc & _ & _ & _ & Hspare & Huntouched).
  exists c, tm', db'. split; [exact Hc|].
  assert ((cleanupLoop (tree := sorted_tree) demo_schedule (demo_cleaning, NewConcurrentMap 4)).1 =
    Ret (mkCleaner CleanReturned [Second; Second] [9])) as Hv by (vm_compute; reflexivity).
  rewrite Hc in Hv. injection Hv as ->. split; [reflexivity|]. split.
  - destruct (Huntouched (lit "b")) as [Hb _]; [unfold demo_schedule; cbn [replicate app]; repeat (apply Forall_cons_2; [intros Ht; cbn in Ht; first [discriminate Ht|destruct Ht]|]); apply Forall_nil_2|discriminate|]. rewrite Hb. reflexivity.
  - destruct (Hspare (lit "c")) as [Hb _]; [|rewrite Hb; reflexivity].
    assert (∀ x, x ∈ demo_schedule → x = CleanTick 9 ∨ x = CommandMap (OSet (lit "c") 1) ∨ x = CleanGo 9 ∨
      x = CommandTTL (OpSetTTL (lit "c") 40) ∨ x = CleanStop) as Hin.
    { intros x. unfold demo_schedule. rewrite !elem_of_cons, elem_of_app, elem_of_replicate, !elem_of_cons, elem_of_nil. tauto. }
    intros now e Ht He. apply Hin in Ht. assert (now = 9) as -> by (destruct Ht as [[=]|[[=]|[[=]|[[=]|[=]]]]]; done).
    destruct He as [He|He].
    + vm_compute in He. injection He as <-. lia.
    + apply Hin in He. destruct He as [[=]|[[=]|[[=]|[[=]|[=]]]]]. lia.
Defined.
