(* ===== verification/Cmdline.v ===== *)
(** * The command line

    [src/cmd/init.go], [src/cmd/proxy_cmd.go] and [src/cmd/tinyredis/main.go]: the flags
    of a node, and what its command runs: the configuration ([Config]), the log
    ([Logger]) and the server ([Serve]).  The proxy command is in [Proxy].

    The parsing of arguments is the package [cobra], which is a parameter: the flags of a
    command are a record of getters ([Flags] of [Config]), and [reads] states what is
    documented of them.  The getter of the type with which a flag was bound returns the
    value given on the command line, or else the default it was bound with. *)

From Stdlib Require Import Ascii String ZArith Lia.
From stdpp Require Import prelude gmap list fin_maps.
From S2P Require Import Prelude Text Config Logger RESP Util CMap Heap TTL Locks ListStruct ListOps SetStruct HashStruct ZSetStruct Store World Model.
From S2P Require Import Info Refine Server Cluster Join Report Proxy NodeStart Accept Serve Relay.
Open Scope Z_scope.

(** ** Flags *)
Inductive flag_value :=
| FString (v : bytes) | FBool (b : bool) | FInt (n : Z) | FDuration (d : Z) | FUint64 (n : Z).
Record flag_def := mkFlag { fd_name : string; fd_short : option ascii; fd_default : flag_value }.

Definition bindNodeFlags : list flag_def :=
  [ mkFlag "config" (Some "c"%char) (FString []);
    mkFlag "standalone" None (FBool false);
    mkFlag "host" (Some "H"%char) (FString DefaultHost);
    mkFlag "port" (Some "p"%char) (FInt DefaultPort);
    mkFlag "logdir" (Some "d"%char) (FString (lit "./"));
    mkFlag "loglevel" (Some "l"%char) (FString (lit "info"));
    mkFlag "log-sampling" None (FBool true);
    mkFlag "log-sampling-interval" None (FDuration Second);
    mkFlag "log-sampling-initial" None (FInt 100);
    mkFlag "log-sampling-thereafter" None (FInt 100);
    mkFlag "shardnum" (Some "s"%char) (FInt 1024);
    mkFlag "node-id" None (FString (lit "node-1"));
    mkFlag "raft-dir" None (FString (lit "./raft"));
    mkFlag "raft-bind" None (FString (lit "127.0.0.1:7000"));
    mkFlag "raft-http" None (FString (lit "127.0.0.1:17000"));
    mkFlag "raft-join" None (FString []);
    mkFlag "raft-bootstrap" None (FBool false);
    mkFlag "raft-pool" None (FInt DefaultRaftConnectionPool);
    mkFlag "raft-timeout" None (FDuration DefaultRaftTimeout);
    mkFlag "raft-snap-threshold" None (FUint64 DefaultRaftSnapshotThresh);
    mkFlag "raft-snap-interval" None (FDuration DefaultRaftSnapshotIntvl) ]%string.

(** ** What is documented of [cobra] *)
(** The flags given on the command line, with their values. *)
Definition given_flags : Type := string → option flag_value.
Definition as_string (v : flag_value) : option bytes := match v with FString v => Some v | _ => None end.
Definition as_bool (v : flag_value) : option bool := match v with FBool v => Some v | _ => None end.
Definition as_int (v : flag_value) : option Z := match v with FInt v => Some v | _ => None end.
Definition as_duration (v : flag_value) : option Z := match v with FDuration v => Some v | _ => None end.
Definition as_uint64 (v : flag_value) : option Z := match v with FUint64 v => Some v | _ => None end.

(** The value of a flag when it was given, else [d]. *)
Definition value_or {A} (as_ : flag_value → option A) (given : given_flags) (name : string) (d : A) : A :=
  default d (given name ≫= as_).

(** The getters [f] of a command whose flags were bound as in [table], when [given] was
    given.  Nothing is said of a flag that was not bound, or not with that type. *)
Record reads (table : list flag_def) (given : given_flags) (f : Flags) : Prop := mkReads {
  reads_string : ∀ name short x, mkFlag name short (FString x) ∈ table → GetString f name = inl (value_or as_string given name x);
  reads_bool : ∀ name short x, mkFlag name short (FBool x) ∈ table → GetBool f name = inl (value_or as_bool given name x);
  reads_int : ∀ name short x, mkFlag name short (FInt x) ∈ table → GetInt f name = inl (value_or as_int given name x);
  reads_duration : ∀ name short x,
    mkFlag name short (FDuration x) ∈ table → GetDuration f name = inl (value_or as_duration given name x);
  reads_uint64 : ∀ name short x, mkFlag name short (FUint64 x) ∈ table → GetUint64 f name = inl (value_or as_uint64 given name x);
}.
Ltac bound := cbv [bindNodeFlags]; repeat first [apply list_elem_of_here | apply list_elem_of_further].

(** ** The configuration *)
(** C24: [Setup] never fails on the flags of a node: each flag it reads is bound, with the
    type it reads.  The fields of the configuration have the values of their flags: the
    value given on the command line, or else the default configuration's (so the defaults
    of the flags are those of [NewDefaultConfig]); a snapshot threshold of zero means the
    default.  The name of the configuration file is not among them: [Setup] never reads
    [--config], so it is empty whatever was given. *)
Theorem Flags_reach_config given f :
  reads bindNodeFlags given f →
  let s := value_or as_string given in let b := value_or as_bool given in let i := value_or as_int given in
  let d := value_or as_duration given in let thresh := value_or as_uint64 given "raft-snap-threshold" DefaultRaftSnapshotThresh in
  let c := NewDefaultConfig in
  Setup f =
    inl (mkConfig [] (s "host" (cfg_Host c)) (i "port" (cfg_Port c)) (s "logdir" (cfg_LogDir c)) (s "loglevel" (cfg_LogLevel c))
      (b "log-sampling" (cfg_LogSamplingEnabled c)) (d "log-sampling-interval" (cfg_LogSamplingInterval c))
      (i "log-sampling-initial" (cfg_LogSamplingInitial c)) (i "log-sampling-thereafter" (cfg_LogSamplingThereafter c))
      (i "shardnum" (cfg_ShardNum c)) (s "node-id" (cfg_NodeID c)) (b "standalone" (cfg_Standalone c)) (s "raft-dir" (cfg_RaftDir c))
      (s "raft-bind" (cfg_RaftBind c)) (s "raft-http" (cfg_RaftHTTPAddr c)) (s "raft-join" (cfg_JoinAddr c))
      (ParseJoinAddrs (s "raft-join" (cfg_JoinAddr c))) (b "raft-bootstrap" (cfg_RaftBootstrap c))
      (i "raft-pool" (cfg_RaftConnectionPool c)) (d "raft-timeout" (cfg_RaftTimeout c))
      (if (0 <? thresh)%Z then thresh else cfg_RaftSnapshotThreshold c) (d "raft-snap-interval" (cfg_RaftSnapshotInterval c)))%string.
Proof.
  intros Hr. cbv zeta. unfold Setup, flag.
  repeat first
    [ erewrite (reads_bool _ _ _ Hr) by bound | erewrite (reads_string _ _ _ Hr) by bound
    | erewrite (reads_int _ _ _ Hr) by bound | erewrite (reads_duration _ _ _ Hr) by bound
    | erewrite (reads_uint64 _ _ _ Hr) by bound ].
  reflexivity.
Qed.

(** ** The commands *)
(** Without arguments the root command runs a node. *)
Inductive root_action := RunsNode | ShowsHelp.
Definition rootCmd_RunE (args : list bytes) : root_action := match args with [] => RunsNode | _ => ShowsHelp end.

Inductive completion := GenBash | GenZsh | GenFish | PrintUsage.
Definition completionCmd_Run (args : list bytes) : completion :=
  match args with
  | [] => PrintUsage
  | shell :: _ =>
      if beq shell (lit "bash") then GenBash else if beq shell (lit "zsh") then GenZsh
      else if beq shell (lit "fish") then GenFish else PrintUsage
  end.

(** How a node command has come out when the server accepts, or has ended: an error for
    [Run] to print. *)
Inductive ran := Failed (err : bytes) | Serving (cfg : Config) (s : system conn).

Section runNode.
Context `{Host} `{NetURL URL} {tree : Type → Type} `{!RBTree tree}.
Variable ParseIP : bytes → bool.
Variable ParseDuration : bytes → Z + bytes.
Variable open : bytes → (bytes * option bytes) + bytes.
Variable mkdir : bytes → option bytes.
Variable openFile : gset nat → bytes → nat + bytes.
Variable a : answers.
Variable file : leader_file.
Variable rounds : nat.
Variable listen : bytes → option bytes.
Variable stop_errs : option bytes * option bytes.

(** [runNode]: the configuration, then the log, then the server.  The number of shards of
    the database is read from the configuration [Setup] has published. *)
Definition runNode_start (f : Flags) : M Logging ran := λ lg,
  match runNode ParseIP ParseDuration f open with
  | Ret (inr err) => (Ret (Failed err), lg)
  | Ret (inl cfg) =>
      match SetUp mkdir openFile cfg lg with
      | (Ret (Some err), lg) => (Ret (Failed err), lg)
      | (Ret None, lg) =>
          match (Start_boot (tree := tree) (cfg_ShardNum cfg) a file rounds listen stop_errs cfg).1 with
          | Ret s => (Ret (Serving cfg s), lg)
          | Panics => (Panics, lg)
          | Fatals => (Fatals, lg)
          | Blocks => (Blocks, lg)
          end
      | (_, lg) => (Panics, lg)
      end
  | _ => (Panics, lg)
  end.

(** [Run]: an error is printed and the process exits with 1. *)
Definition Run_exit (r : ran) : option Z := match r with Failed _ => Some 1 | Serving _ _ => None end.

Lemma Start_listen_serves cfg (n : option (StartedNode tree)) s :
  (Start_listen listen stop_errs cfg n).1 = Ret s →
  s = listen_from (bool_decide (is_Some n)) ∧ listen (bind_addr cfg) = None.
Proof. unfold Start_listen, bind_addr. destruct (listen _); simpl; [done|]. by intros [= <-]. Qed.

(** A node that serves uses the configuration of its flags, logs to the handler built
    from it, and listens where it says. *)
Lemma runNode_serves f lg cfg s lg' :
  runNode_start f lg = (Ret (Serving cfg s), lg') →
  Setup f = inl cfg ∧ s = listen_from (negb (cfg_Standalone cfg)) ∧ is_Some (lg_logger lg') ∧ listen (bind_addr cfg) = None.
Proof.
  unfold runNode_start, runNode. destruct (Setup f) as [cfg0|err] eqn:Hs; [|done].
  rewrite (Setup_no_file f cfg0 Hs). simpl.
  destruct (SetUp mkdir openFile cfg0 lg) as [[[err|]| | |] lg1] eqn:Hl; try done.
  destruct (Start_boot _ a file rounds listen stop_errs cfg0).1 as [s0| | |] eqn:Hb; try done. intros [= -> -> ->].
  split; [done|].
  assert (is_Some (lg_logger lg')) as Hlog.
  { unfold SetUp in Hl. destruct (buildLogger _ _ _) as [[h fd]|err]; [|done]. by injection Hl as <-. }
  unfold Start_boot in Hb. destruct (cfg_Standalone cfg).
  - destruct (NewMemDb _); [|done..]. apply Start_listen_serves in Hb as [-> ?]. done.
  - destruct (NewNode _ a file rounds cfg []) as [[[n|err]| | |] calls]; [|done..].
    destruct (Start_listen listen stop_errs cfg (Some n)) as [o ev] eqn:El. simpl in Hb. subst o.
    assert ((Start_listen listen stop_errs cfg (Some n)).1 = Ret s) as [-> ?]%Start_listen_serves by (by rewrite El). done.
Qed.
End runNode.

(** ** Examples *)
Definition demo_given : given_flags := λ name,
  if String.eqb name "standalone" then Some (FBool true) else if String.eqb name "port" then Some (FInt 7001)
  else if String.eqb name "config" then Some (FString (lit "/etc/redis.conf"))
  else if String.eqb name "raft-join" then Some (FString (lit "10.0.0.1:7000,10.0.0.2:7000")) else None.
(** Getters that look up the flag among those bound. *)
Definition demo_get {A} (as_ : flag_value → option A) (given : given_flags) (name : string) : A + bytes :=
  match filter (λ d, fd_name d = name) bindNodeFlags with
  | d :: _ => match as_ (fd_default d) with Some x => inl (value_or as_ given name x) | None => inr (lit "wrong type") end
  | [] => inr (lit "not defined")
  end.
Definition demo_flags (given : given_flags) : Flags :=
  mkFlags (demo_get as_string given) (demo_get as_bool given) (demo_get as_int given) (demo_get as_duration given)
    (demo_get as_uint64 given).
Lemma demo_flags_reads given : reads bindNodeFlags given (demo_flags given).
Proof.
  split; intros name short x Hin; unfold bindNodeFlags in Hin; repeat (apply elem_of_cons in Hin as [Hd|Hin]; [try discriminate Hd; injection Hd as -> -> ->; reflexivity|]); by apply elem_of_nil in Hin.
Qed.
Lemma Flags_reach_config_witness :
  ∃ cfg, Setup (demo_flags demo_given) = inl cfg ∧ cfg_Port cfg = 7001 ∧ cfg_Standalone cfg = true ∧ cfg_ConfFile cfg = [] ∧
    cfg_JoinAddrs cfg = [lit "10.0.0.1:7000"; lit "10.0.0.2:7000"] ∧ cfg_NodeID cfg = cfg_NodeID NewDefaultConfig.
Proof.
  eexists. split; [exact (Flags_reach_config demo_given _ (demo_flags_reads _))|]. split_and!; vm_compute; reflexivity.
Defined.

(** Without flags the configuration is the default one. *)
Lemma no_flags_default : Setup (demo_flags (λ _, None)) = inl NewDefaultConfig.
Proof. reflexivity. Qed.
